(* ===== verification/_CoqProject ===== *)
-Q . S2P
Prelude.v
Double.v
Framing.v
CString.v
Posix.v
Utils.v
Listeners.v
Metrics.v
MetricsRender.v
MetricsTests.v
Protocol.v
PeerState.v
PeerTypes.v
FdQueue.v
ThreadPool.v
EventLoop.v
SelectServer.v
EpollServer.v
UringServer.v
MetricsServer.v
Libuv.v
PoolMain.v
IsPrimeServer.v
UvServer.v
Demos.v
BlockingServers.v
LoadGen.v
LoadStats.v
EndToEnd.v
