(* ===== verification/Prelude.v ===== *)
(** * Concurrent-Servers: a verification development

    The repository holds one small protocol served by many concurrency models. A
    client connects, is greeted with '*', and sends a byte stream in which '^'
    opens a frame and '$' closes it; every byte inside a frame comes back
    incremented by one. The sources under src/src are C; this library translates
    them into Rocq definitions, one per function or loop, and proves the theorems
    that make them correct.

    ** Parts and where they are modelled

    - Prelude.v (this file): machine integers as [Z] with explicit wrap-around, the
      [outcome] of a C computation (return, exit of the process, or a fault: an
      access outside an array, to freed memory, a system call on a descriptor the
      process does not hold, a block that is not freed, or a conversion out of its
      type's range), arrays as lists with checked access, interleavings, tactics.
    - Double.v: the doubles of loadgen.c, as rationals rounded to 53 bits.
    - Framing.v: the protocol, as a two-state machine and as a grammar of streams
      ([framed]), with the proof that they agree; [FrameParser], the interface an
      implementation of the parser offers, and the theorem of its client.
    - CString.v: NUL-terminated strings, printf conversions, strtol and atoi.
    - Posix.v: a connected socket as the answers the kernel is going to give to recv
      and send. Theorems quantify over all scripts of answers, so over every peer,
      every segmentation and every errno. Blocking and non-blocking calls, and the
      write-everything loop shared by protocol.c and metrics_server.c.
    - Utils.v (utils.c): the listening socket, the non-blocking flag, allocation and
      the port argument. Listeners.v (blocking_listener.c, nonblocking_listener.c):
      the two programs that only receive, one blocking and one polling.
    - Metrics.v, MetricsRender.v (metrics.c): the registry, its mutators as the
      lists of atomic operations they perform, the reset and the label, the
      exposition rendered through the bounded buffer. MetricsTests.v
      (tests/test_metrics.c): the test driver of metrics.c, run against this model.
    - MetricsServer.v (metrics_server.c): one scrape, the accept loop, starting and
      stopping the endpoint.
    - Protocol.v (protocol.c): the blocking conversation [serve_connection] used by
      the sequential, threaded and thread pool servers, an iteration of its loop
      ([serve_request]) and the whole, and that the conversation does not depend on the
      rest of the process.
    - PeerState.v (peer_state.c): the per-descriptor state machine of the
      event-driven servers, its table, its pure core and its readiness wrappers.
      PeerTypes.v (peer_state.h): the C types of its fields, as an invariant.
    - FdQueue.v, ThreadPool.v (threadpool_server.c): the ring of descriptors, and
      the acceptor and workers around its mutex and condition variables. PoolMain.v:
      main of the same file, from the command line to the shutdown after a signal.
    - EventLoop.v: what the readiness-based servers share, on top of PeerState.v.
    - SelectServer.v (select_server.c), EpollServer.v (epoll_server.c),
      UringServer.v (uring_server.c): the three event loops.
    - BlockingServers.v (sequential_server.c, threaded_server.c): the accept loops
      around [serve_connection]; the threads of the second take turns between requests
      and between the atomic accesses to the registry.
    - Libuv.v: a client handle of libuv, and what its documentation lets libuv do
      with it. UvServer.v (uv_server.c), IsPrimeServer.v (uv_isprime_server.c): the
      callbacks of the two servers that run on it. Demos.v (uv_timer_sleep_demo.c,
      uv_timer_work_demo.c, threadspammer.c): the callbacks of the demos, and the
      requests one of them hands to libuv's thread pool.
    - LoadGen.v (bench/loadgen.c): the load generator, from the client's side of the
      protocol. LoadStats.v: the same file's main, from the threads it creates to the
      statistics it prints and its exit status.
    - EndToEnd.v: [EchoServer], what the load generator needs of a server, with an
      instance for each kind of server, and the generator run against it.

    ** What the theorems show

    - The protocol is kept: [serve_connection_correct], [serve_connection_completes]
      and [transform_segmentation] for the blocking servers; [peer_conversation] and
      [peer_core_refinement] for the per-peer state machine, which implements an
      abstract peer whatever its slot held before; and [select_serves],
      [epoll_serves], [uring_conversations] for the loops around it, from main on,
      which also never touch a closed descriptor, never leave a table, and run every
      handler of select and epoll on the connection that was reported; these two say
      which failing calls end the process, an [accept] without descriptors among them,
      and that nothing a peer sends does. [peer_table_typed]: every field keeps to its C type.
      [select_early_exit]: the pass of select that stops early skips nothing.
      [sequential_serves] and [threaded_serves] for the accept loops: in order, or
      each connection with exactly one owner, which serves it as if it were alone.
    - libuv: [uv_server_safe] over every order of callbacks (the only way out is the
      assertion on a reply longer than its buffer, or a failed call), with every read
      buffer and request freed and, until the kill switch is hit, no access to freed
      memory; [uv_conversation] when an echo is
      written before more is read; [isprime_correct] (the test at its width, for
      every 64-bit number) and [prime_conversation] (what is answered to numbers below
      2^64, to 1 and to larger ones). Both servers have orders of
      callbacks that break them; [overlapping_reads] and the last parts of
      [uv_server_safe] and [prime_conversation] show which. [work_demo_requests]: the
      loop thread of the demo never sleeps, and its requests are freed once.
    - The load generator: [loadgen_verifies] (a run of fewer than 2^31 requests that
      returns 0 has seen the protocol kept, and why the bound is needed), [loadgen_passes] (a server that keeps it passes),
      [conn_main_counts], and [start_barrier_opens]. Its report: [report_statistics]
      (what is printed is about the requests that were made, when its one unchecked
      allocation succeeds) and [percentile_accuracy]
      (the rounded interpolation against the exact one). [no_false_alarm] composes
      the two ends: against any of the servers no echo is counted as a mismatch, with
      the libuv server as long as an echo is written before more is read.
    - The listeners: [listeners_agree], blocking and polling receive the same bytes and
      print the same lines, but for the repeated announcements of the polling one.
    - The pool: [fd_queue_fifo] (the ring is a bounded FIFO), [pool_safe] (mutual
      exclusion, every connection in exactly one place, in order of arrival),
      [pool_no_lost_wakeup] (no lost wakeup, no deadlock), [pool_backpressure] (how
      many connections the process can hold, and what the gauges say), [pool_stops]
      (a signal that the main thread handles inside [accept] ends its loop, at most one
      more connection is accepted, and main releases what it opened, each descriptor
      once; a signal that another thread handles, or that comes too early, goes
      unnoticed until the next connection).
    - The metrics: [concurrent_updates_exact] and [histogram_exact] over all
      interleavings of atomic operations, [metrics_render_bounded] and
      [exposition_roundtrip] for the rendering, [scrape_safe], [scrape_answered] (which
      paths get the exposition) and [endpoint_lifecycle] (also when its thread has left
      the accept loop) for the endpoint, [metrics_init_label] for the label;
      [test_main_passes]: the repository's tests pass under every schedule, if the
      threads can be created and the clock does not go back.
    - Encodings and arguments: [pack_roundtrip], [parse_port_exact],
      [listening_port].

    ** Fuel and bounds

    Loops that are not structural take fuel and are given enough: each iteration of
    the receive loops ([serve_loop], [read_loop]) uses up part of the socket's
    script and gets one more iteration than the script can answer, and the theorems
    show that the fuel never runs out. The pass of select takes one iteration per
    descriptor below FD_SETSIZE. Numbers print with 20 digits, enough for 64 bits.
    The primality test gets 2^64 iterations, counted in binary; it returns before,
    at the latest at a root of 2^64 - 7 modulo 2^64.
    The polling listener is given more iterations than its connection has events.
    The event loops themselves and the schedules of the pool are unbounded: their
    theorems are about all reachable states.

    ** What is assumed of the environment

    liburing is a parameter of UringServer.v, of which nothing is assumed; strerror
    is a parameter throughout; libuv runs callbacks as Libuv.v, UvServer.v and
    IsPrimeServer.v say, callbacks after [uv_stop] included, and those of a work request
    in the order Demos.v says. The kernel is
    assumed to return no more bytes than it was asked for, to hand out descriptor
    numbers that are not open, to report ready only what is registered, each
    descriptor once per epoll_wait, and to let pthread_cond_signal wake a waiter if
    there is one. A signal that a thread handles without SA_RESTART makes the accept or
    poll this thread is blocked in fail with EINTR; which thread handles it is open
    (PoolMain.v). CLOCK_MONOTONIC does not go back. Doubles have unbounded
    exponents: the values of loadgen.c are far from overflow and underflow. Log
    output and name resolution have no effect on what is proved and are left out.

    ** What is not modelled

    Log output, except where it is what a program is for (the loops of the listeners,
    the demos, the report of the load generator). When libuv's timers fire, and the
    [main]s of the timer demos, which only start one. *)

From Stdlib Require Export ZArith Lia.
From stdpp Require Export base tactics numbers list gmap strings.

Local Open Scope Z_scope.

(** ** Machine integers

    C integers are [Z]s kept in range by the wrap-around of their width.
    [u8], [u32], [u64] are the conversions to [uint8_t], [uint32_t] and
    [uint64_t]/[size_t]; [s32], [s64] the two's-complement conversions to
    [int] and [int64_t]. *)

Definition u8 (z : Z) : Z := z mod 2 ^ 8.
Definition u32 (z : Z) : Z := z mod 2 ^ 32.
Definition u64 (z : Z) : Z := z mod 2 ^ 64.
Definition s32 (z : Z) : Z := (z + 2 ^ 31) mod 2 ^ 32 - 2 ^ 31.
Definition s64 (z : Z) : Z := (z + 2 ^ 63) mod 2 ^ 64 - 2 ^ 63.

(** ** Outcomes of a C computation

    [Ret] is a normal return, [Exit] a call of [die]/[perror_die] (the process
    prints the message and ends with [EXIT_FAILURE]), [Fault] an operation the
    C program must never perform: an access outside an array or table, a system
    call on a descriptor the process does not hold, an access to freed memory, a
    block of memory it no longer has a pointer to, a conversion to an integer type
    that cannot hold the value; or a loop that has not returned within the bound the
    model gives it. *)

Inductive fault := OutOfBounds | BadDescriptor | UseAfterFree | Leak | OutOfRange | NoReturn.

Inductive outcome (A : Type) : Type :=
| Ret (a : A)
| Exit (msg : string)
| Fault (f : fault).
Arguments Ret {A} a.
Arguments Exit {A} msg.
Arguments Fault {A} f.

#[export] Instance outcome_ret : MRet outcome := fun A a => Ret a.
#[export] Instance outcome_bind : MBind outcome := fun A B k m =>
  match m with
  | Ret a => k a
  | Exit msg => Exit msg
  | Fault f => Fault f
  end.

#[export] Instance fault_eq_dec : EqDecision fault.
Proof. solve_decision. Defined.

(** ** Arrays

    A C array is a list whose length is the declared size; a read or a write
    outside it is a [Fault]. *)

Definition in_array {A} (b : list A) (i : Z) : bool :=
  (0 <=? i) && (i <? Z.of_nat (length b)).

Definition buf_get {A} (b : list A) (i : Z) : outcome A :=
  if 0 <=? i then
    match b !! Z.to_nat i with
    | Some x => Ret x
    | None => Fault OutOfBounds
    end
  else Fault OutOfBounds.

Definition buf_set {A} (b : list A) (i : Z) (x : A) : outcome (list A) :=
  if in_array b i then Ret (<[Z.to_nat i := x]> b) else Fault OutOfBounds.

(** [memcpy(b + off, src, length src)], also what [recv] does to the buffer it
    is handed. *)
Definition buf_blit {A} (b : list A) (off : Z) (src : list A) : outcome (list A) :=
  if (0 <=? off) && (off + Z.of_nat (length src) <=? Z.of_nat (length b)) then
    Ret (take (Z.to_nat off) b ++ src ++ drop (Z.to_nat off + length src) b)
  else Fault OutOfBounds.

(** [n] bytes of [b] from index [off]. *)
Definition slice {A} (b : list A) (off n : Z) : list A :=
  take (Z.to_nat n) (drop (Z.to_nat off) b).

(** ** Bytes and text

    A byte is a [Z] in [0, 256); a string literal of the C source is the list
    of its character codes. *)

Definition bytes_ok (bs : list Z) : Prop := Forall (fun b => 0 <= b < 256) bs.

Fixpoint lit (s : string) : list Z :=
  match s with
  | EmptyString => []
  | String a s' => Z.of_nat (Ascii.nat_of_ascii a) :: lit s'
  end.

(** ** [errno]

    The values are those of Linux, where [EWOULDBLOCK] is [EAGAIN]. *)

Definition EINTR : Z := 4.
Definition EAGAIN : Z := 11.
Definition EWOULDBLOCK : Z := EAGAIN.
Definition ENOMEM : Z := 12.
Definition ENFILE : Z := 23.
Definition EMFILE : Z := 24.
Definition EPIPE : Z := 32.
Definition ECONNABORTED : Z := 103.
Definition ECONNRESET : Z := 104.
Definition ENOBUFS : Z := 105.
Definition ETIMEDOUT : Z := 110.
Definition EALREADY : Z := 114.

(** ** Interleavings

    [interleaving ths tr]: the trace [tr] executes the threads [ths], each a list
    of atomic actions, one action at a time and each thread in its own order. *)

Inductive interleaving {A} : list (list A) -> list A -> Prop :=
| interleaving_done ths : Forall (eq []) ths -> interleaving ths []
| interleaving_step ths i a th tr :
    ths !! i = Some (a :: th) ->
    interleaving (<[i := th]> ths) tr ->
    interleaving ths (a :: tr).

(** ** Tactics *)

Ltac wrap_unfold := unfold u8, u32, u64, s32, s64 in *.

(** Linear arithmetic that knows the wrap-around of the widths. *)
Ltac wrap_lia := wrap_unfold; Z.div_mod_to_equations; lia.

(** Turn every boolean comparison of the context and the goal into the
    proposition it decides. *)
Ltac bool_prop :=
  repeat match goal with
  | H : (_ && _) = true |- _ => apply andb_true_iff in H; destruct H
  | H : (_ || _) = false |- _ => apply orb_false_iff in H; destruct H
  | H : negb _ = true |- _ => apply negb_true_iff in H
  | H : negb _ = false |- _ => apply negb_false_iff in H
  | H : (_ <=? _) = true |- _ => apply Z.leb_le in H
  | H : (_ <=? _) = false |- _ => apply Z.leb_gt in H
  | H : (_ <? _) = true |- _ => apply Z.ltb_lt in H
  | H : (_ <? _) = false |- _ => apply Z.ltb_ge in H
  | H : (_ =? _) = true |- _ => apply Z.eqb_eq in H
  | H : (_ =? _) = false |- _ => apply Z.eqb_neq in H
  end.

(** Run a sequence of outcomes, one case per way it can end. *)
Ltac outcome_cases :=
  unfold mbind, outcome_bind;
  repeat match goal with
  | |- context [match ?m with Ret _ => _ | Exit _ => _ | Fault _ => _ end] =>
      destruct m eqn:?
  end; try done.

(** Case analysis on the first [match]/[if] scrutinee of the goal. *)
Ltac split_match :=
  match goal with
  | |- context [match ?x with _ => _ end] =>
      lazymatch x with
      | context [match _ with _ => _ end] => fail
      | _ => destruct x eqn:?
      end
  end.

(** Evaluate a closed decidable proposition. *)
Ltac by_decision := apply (bool_decide_unpack _); vm_compute; exact I.

(** ** Shared lemmas *)

Lemma outcome_bind_ret {A} (m : outcome A) : (x ← m; Ret x) = m.
Proof. by destruct m. Qed.

Lemma outcome_ret_bind {A B} (a : A) (k : A -> outcome B) : (x ← Ret a; k x) = k a.
Proof. done. Qed.

Lemma outcome_bind_assoc {A B C} (m : outcome A) (f : A -> outcome B) (k : B -> outcome C) :
  (y ← (x ← m; f x); k y) = (x ← m; y ← f x; k y).
Proof. by destruct m. Qed.

#[export] Instance outcome_bind_proper {A B} :
  Proper (pointwise_relation A eq ==> eq ==> eq) (mbind (M:=outcome) (A:=A) (B:=B)).
Proof. intros f1 f2 Hf m ? <-. destruct m; [apply Hf|done|done]. Qed.

Lemma outcome_bind_inv {A B} (m : outcome A) (k : A -> outcome B) b :
  (x ← m; k x) = Ret b -> exists a, m = Ret a /\ k a = Ret b.
Proof. destruct m; [|done|done]. by eexists. Qed.

Lemma u8_range z : 0 <= u8 z < 256.
Proof. wrap_lia. Qed.

Lemma u8_small z : 0 <= z < 256 -> u8 z = z.
Proof. wrap_lia. Qed.

Lemma u64_range z : 0 <= u64 z < 2 ^ 64.
Proof. wrap_lia. Qed.

Lemma u64_small z : 0 <= z < 2 ^ 64 -> u64 z = z.
Proof. wrap_lia. Qed.

Lemma s64_small z : - 2 ^ 63 <= z < 2 ^ 63 -> s64 z = z.
Proof. wrap_lia. Qed.

Lemma s32_small z : - 2 ^ 31 <= z < 2 ^ 31 -> s32 z = z.
Proof. wrap_lia. Qed.

Lemma u64_add_l a b : u64 (u64 a + b) = u64 (a + b).
Proof. unfold u64. apply Zplus_mod_idemp_l. Qed.

Lemma u64_add_r a b : u64 (a + u64 b) = u64 (a + b).
Proof. unfold u64. apply Zplus_mod_idemp_r. Qed.

Lemma u64_idemp z : u64 (u64 z) = u64 z.
Proof. unfold u64. apply Zmod_mod. Qed.

Section Buffers.
Context {A : Type}.
Implicit Types (b src : list A) (i off n : Z) (x : A).

Lemma in_array_true b i : in_array b i = true <-> 0 <= i < Z.of_nat (length b).
Proof. unfold in_array. lia. Qed.

Lemma buf_get_ok b i x :
  0 <= i -> b !! Z.to_nat i = Some x -> buf_get b i = Ret x.
Proof.
  intros Hi Hx. unfold buf_get. rewrite Hx.
  by destruct (Z.leb_spec 0 i); [|lia].
Qed.

Lemma buf_get_lt b i :
  0 <= i < Z.of_nat (length b) -> exists x, b !! Z.to_nat i = Some x /\ buf_get b i = Ret x.
Proof.
  intros Hi. destruct (lookup_lt_is_Some_2 b (Z.to_nat i)) as [x Hx]; [lia|].
  exists x. split; [done|]. by apply buf_get_ok; [lia|].
Qed.

Lemma buf_set_ok b i x :
  0 <= i < Z.of_nat (length b) -> buf_set b i x = Ret (<[Z.to_nat i := x]> b).
Proof. intros Hi. unfold buf_set. by rewrite (proj2 (in_array_true b i)). Qed.

Lemma buf_set_inv b i x b' :
  buf_set b i x = Ret b' ->
  0 <= i < Z.of_nat (length b) /\ b' = <[Z.to_nat i := x]> b.
Proof.
  unfold buf_set. destruct (in_array b i) eqn:E; [|done].
  intros [= <-]. by apply in_array_true in E.
Qed.

Lemma buf_blit_ok b off src :
  0 <= off -> off + Z.of_nat (length src) <= Z.of_nat (length b) ->
  buf_blit b off src =
    Ret (take (Z.to_nat off) b ++ src ++ drop (Z.to_nat off + length src) b).
Proof.
  intros ??. unfold buf_blit.
  rewrite (proj2 (Z.leb_le _ _)) by lia. by rewrite (proj2 (Z.leb_le _ _)) by lia.
Qed.

Lemma buf_blit_0 b src :
  (length src <= length b)%nat -> buf_blit b 0 src = Ret (src ++ drop (length src) b).
Proof. intros. by rewrite buf_blit_ok by lia. Qed.

(** Writing the element that follows what was just copied. *)
Lemma buf_set_after b src x :
  (length src < length b)%nat ->
  buf_set (src ++ drop (length src) b) (Z.of_nat (length src)) x =
    Ret (src ++ x :: drop (S (length src)) b).
Proof.
  intros Hlt. rewrite buf_set_ok by (rewrite length_app, length_drop; lia).
  f_equal. rewrite Nat2Z.id, insert_app_r_alt by lia. rewrite Nat.sub_diag. f_equal.
  destruct (lookup_lt_is_Some_2 b (length src) Hlt) as [y Hy].
  by rewrite (drop_S b y (length src) Hy).
Qed.

Lemma slice_length b off n :
  0 <= off -> 0 <= n -> off + n <= Z.of_nat (length b) ->
  Z.of_nat (length (slice b off n)) = n.
Proof. intros. unfold slice. rewrite length_take, length_drop. lia. Qed.

Lemma slice_nil b off n : n <= 0 -> slice b off n = [].
Proof. intros. unfold slice. by replace (Z.to_nat n) with 0%nat by lia. Qed.

(** Splitting a slice at a point inside it. *)
Lemma slice_split b off n k :
  0 <= off -> 0 <= k <= n ->
  slice b off n = slice b off k ++ slice b (off + k) (n - k).
Proof.
  intros. unfold slice.
  replace (Z.to_nat (off + k)) with (Z.to_nat off + Z.to_nat k)%nat by lia.
  rewrite <- drop_drop.
  replace (Z.to_nat n) with (Z.to_nat k + Z.to_nat (n - k))%nat by lia.
  by rewrite <- take_take_drop.
Qed.

(** A write at or after the end of a slice leaves it alone. *)
Lemma slice_insert_ge b off n i x :
  0 <= off -> 0 <= n -> off + n <= i ->
  slice (<[Z.to_nat i := x]> b) off n = slice b off n.
Proof.
  intros. unfold slice. rewrite take_drop_commute, take_insert_ge by lia.
  by rewrite take_drop_commute.
Qed.

(** A write just past a slice extends it. *)
Lemma slice_insert_snoc b off n x :
  0 <= off -> 0 <= n -> off + n < Z.of_nat (length b) ->
  slice (<[Z.to_nat (off + n) := x]> b) off (n + 1) = slice b off n ++ [x].
Proof.
  intros. rewrite (slice_split _ off (n + 1) n) by lia.
  rewrite slice_insert_ge by lia. f_equal. unfold slice.
  replace (Z.to_nat (n + 1 - n)) with 1%nat by lia.
  erewrite drop_S; [done|]. apply list_lookup_insert_eq. lia.
Qed.

(** The same, for a buffer filled from its start. *)
Lemma slice_snoc_set b n x :
  0 <= n < Z.of_nat (length b) -> slice (<[Z.to_nat n := x]> b) 0 (n + 1) = slice b 0 n ++ [x].
Proof. intros Hn. apply (slice_insert_snoc b 0 n x); lia. Qed.

Lemma slice_cons_lookup b i (n : nat) x :
  0 <= i -> b !! Z.to_nat i = Some x -> slice b i (Z.of_nat (S n)) = x :: slice b (i + 1) (Z.of_nat n).
Proof.
  intros Hi Hc. unfold slice. rewrite (drop_S _ _ _ Hc).
  replace (Z.to_nat (Z.of_nat (S n))) with (S n) by lia. simpl. f_equal.
  by replace (Z.to_nat (Z.of_nat n)) with n by lia; replace (Z.to_nat (i + 1)) with (S (Z.to_nat i)) by lia.
Qed.

Lemma slice_insert_lt b off n j x :
  0 <= j < off -> slice (<[Z.to_nat j := x]> b) off n = slice b off n.
Proof. intros Hj. unfold slice. by rewrite drop_insert_lt by lia. Qed.
End Buffers.

Lemma bytes_ok_app bs bs' : bytes_ok (bs ++ bs') <-> bytes_ok bs /\ bytes_ok bs'.
Proof. apply Forall_app. Qed.

(** Every interleaving performs each thread's actions exactly once. *)
Lemma interleaving_perm {A} (ths : list (list A)) tr :
  interleaving ths tr -> tr ≡ₚ concat ths.
Proof.
  induction 1 as [ths Hnil|ths i a th tr Hi _ IH].
  - induction Hnil as [|? ths <- _ IH]; done.
  - rewrite IH. clear IH. revert i Hi.
    induction ths as [|t ths IH]; intros [|i] Hi; simplify_eq/=; [done|].
    rewrite Permutation_middle. f_equiv. by apply IH.
Qed.

(** One thread after the other is an interleaving. *)
Lemma interleaving_after {A} n (ths : list (list A)) : interleaving (replicate n [] ++ ths) (concat ths).
Proof.
  revert n. induction ths as [|th ths IH]; intros n; simpl.
  { rewrite app_nil_r. by apply interleaving_done, Forall_replicate. }
  induction th as [|a th IHth]; simpl.
  { rewrite cons_middle, app_assoc, <- replicate_S_end. apply (IH (S n)). }
  apply (interleaving_step _ n _ th).
  - by rewrite lookup_app_r, length_replicate, Nat.sub_diag by (rewrite length_replicate; lia).
  - by rewrite insert_app_r_alt, length_replicate, Nat.sub_diag by (rewrite length_replicate; lia).
Qed.

Lemma interleaving_concat {A} (ths : list (list A)) : interleaving ths (concat ths).
Proof. apply (interleaving_after 0). Qed.

(** Replacing one element of a list, seen through a concatenation. *)
Lemma concat_fmap_insert {A B} (f : A -> list B) (l : list A) i a b :
  l !! i = Some a -> f a ++ concat (f <$> <[i := b]> l) ≡ₚ f b ++ concat (f <$> l).
Proof.
  revert i. induction l as [|x l IH]; intros [|i] Hi; simplify_eq/=.
  - apply Permutation_app_swap_app.
  - rewrite Permutation_app_swap_app, (IH i Hi). apply Permutation_app_swap_app.
Qed.

(** Opening and closing a descriptor. *)
Lemma open_close (fds : gset Z) fd : fd ∉ fds -> ({[fd]} ∪ fds) ∖ {[fd]} = fds.
Proof.
  intros Hfd. rewrite difference_union_distr_l_L, difference_diag_L, union_empty_l_L.
  apply difference_disjoint_L. by apply disjoint_singleton_r.
Qed.

Create HintDb cint discriminated.
Create Rewrite HintDb cint_norm.
#[export] Hint Resolve u8_range u64_range u8_small u64_small s64_small : cint.
#[export] Hint Rewrite u64_add_l u64_add_r u64_idemp : cint_norm.
