(* ===== verification/Double.v ===== *)
(** * Doubles

    The C type [double] of bench/loadgen.c. A double is the rational number it
    denotes; an operation is the exact one followed by [rnd], which rounds to the
    nearest number with a mantissa of 53 bits, ties to even, as IEEE 754 prescribes.
    The exponent is not bounded: the times the load generator computes with lie far
    inside the range of the type, and it uses no infinities and no NaNs.

    - [binade], [rne], [rnd]: rounding, executable;
    - the lemmas its clients need: it is monotone, exact on the integers up to 2^53
      and on what it returns, and off by at most one part in 2^53. *)

From Stdlib Require Import QArith Qround Qpower Lqa.
From S2P Require Import Prelude.
Local Open Scope Q_scope.

(** ** Rounding *)

(** The exponent of the power of two at or below [q], for [0 < q]. *)
Definition binade (q : Q) : Z :=
  let b := (Z.log2 (Qnum q) - Z.log2 (Zpos (Qden q)))%Z in
  if Qle_bool (2 ^ b) q then b else (b - 1)%Z.

(** To the nearest integer, ties to even. *)
Definition rne (x : Q) : Z :=
  let f := Qfloor x in
  match Qcompare (x - inject_Z f) (1 # 2) with
  | Lt => f
  | Gt => (f + 1)%Z
  | Eq => if Z.even f then f else (f + 1)%Z
  end.

(** For [0 < q]: 53 bits from the binade down. *)
Definition rnd_pos (q : Q) : Q :=
  let e := (binade q - 52)%Z in
  inject_Z (rne (q / 2 ^ e)) * 2 ^ e.

Definition rnd (q : Q) : Q :=
  let q := Qred q in
  Qred (match Qcompare q 0 with
        | Eq => 0
        | Gt => rnd_pos q
        | Lt => - rnd_pos (- q)
        end).

(** ** Operations *)

Definition dadd (x y : Q) : Q := rnd (x + y).
Definition dsub (x y : Q) : Q := rnd (x - y).
Definition dmul (x y : Q) : Q := rnd (x * y).
Definition ddiv (x y : Q) : Q := rnd (x / y).

(** [(double) z] and [(int) x], which truncates. *)
Definition of_int (z : Z) : Q := rnd (inject_Z z).
Definition to_int (x : Q) : Z := Z.quot (Qnum x) (Zpos (Qden x)).

(** ** Lemmas *)

Lemma pow2_pos e : 0 < 2 ^ e.
Proof. apply Qpower_0_lt. reflexivity. Qed.

Lemma pow2_add a b : 2 ^ (a + b) == 2 ^ a * 2 ^ b.
Proof. apply Qpower_plus. discriminate. Qed.

Lemma pow2_mono a b : (a <= b)%Z -> 2 ^ a <= 2 ^ b.
Proof. intros H. apply Qpower_le_compat_l; [done|]. discriminate. Qed.

Lemma pow2_Z e : (0 <= e)%Z -> 2 ^ e == inject_Z (2 ^ e).
Proof. intros H. by rewrite Zpower_Qpower. Qed.

Lemma rne_floor x : (Qfloor x <= rne x <= Qfloor x + 1)%Z.
Proof. unfold rne. destruct (_ ?= _); [destruct (Z.even _)|..]; lia. Qed.

Lemma rne_mono x y : x <= y -> (rne x <= rne y)%Z.
Proof.
  intros Hxy. pose proof (Qfloor_resp_le _ _ Hxy) as Hf.
  destruct (Z.eq_dec (Qfloor x) (Qfloor y)) as [E|E].
  - unfold rne. rewrite E. set (f := Qfloor y).
    destruct (Qcompare_spec (x - inject_Z f) (1 # 2)), (Qcompare_spec (y - inject_Z f) (1 # 2));
      try (destruct (Z.even f)); try lia; lra.
  - pose proof (rne_floor x). pose proof (rne_floor y). lia.
Qed.

Lemma rne_int z : rne (inject_Z z) = z.
Proof.
  unfold rne. rewrite Qfloor_Z. destruct (Qcompare_spec (inject_Z z - inject_Z z) (1 # 2)); [lra|done|lra].
Qed.

#[export] Instance rne_proper : Proper (Qeq ==> eq) rne.
Proof. intros x y Hxy. apply Z.le_antisymm; apply rne_mono; lra. Qed.

(** Half a unit off at most. *)
Lemma rne_error x : inject_Z (rne x) - x <= 1 # 2 /\ x - inject_Z (rne x) <= 1 # 2.
Proof.
  unfold rne. pose proof (Qfloor_le x). pose proof (Qlt_floor x) as Hlt. rewrite inject_Z_plus in Hlt.
  change (inject_Z 1) with 1 in Hlt.
  destruct (Qcompare_spec (x - inject_Z (Qfloor x)) (1 # 2)); [destruct (Z.even _)|..];
    rewrite ?inject_Z_plus; change (inject_Z 1) with 1; lra.
Qed.

(** ** The binade *)

Lemma log2_bounds z : (0 < z)%Z -> 2 ^ Z.log2 z <= inject_Z z /\ inject_Z z < 2 ^ (Z.log2 z + 1).
Proof.
  intros Hz. pose proof (Z.log2_spec z Hz) as [H1 H2]. pose proof (Z.log2_nonneg z).
  rewrite !pow2_Z by lia. rewrite <- Zle_Qle, <- Zlt_Qlt. unfold Z.succ in H2. lia.
Qed.

Lemma binade_spec q : 0 < q -> 2 ^ binade q <= q /\ q < 2 ^ (binade q + 1).
Proof.
  intros Hq. unfold binade. set (n := Qnum q). set (d := Zpos (Qden q)).
  assert (0 < n)%Z as Hn by (unfold Qlt in Hq; simpl in Hq; lia).
  assert (inject_Z n == q * inject_Z d) as Hnd.
  { subst n d. unfold Qeq. simpl. rewrite Pos2Z.inj_mul. lia. }
  destruct (log2_bounds n Hn) as [Hn1 Hn2]. destruct (log2_bounds d) as [Hd1 Hd2]; [subst d; lia|].
  set (ln := Z.log2 n) in *. set (ld := Z.log2 d) in *. clearbody ln ld.
  assert (q < 2 ^ (ln - ld + 1)) as Hup.
  { apply Qnot_le_lt. intros Hle. pose proof (pow2_add (ln - ld + 1) ld) as E.
    replace (ln - ld + 1 + ld)%Z with (ln + 1)%Z in E by lia.
    pose proof (pow2_pos ld). pose proof (pow2_pos (ln - ld + 1)).
    assert (2 ^ (ln - ld + 1) * 2 ^ ld <= q * inject_Z d) by (apply Qmult_le_compat_nonneg; lra). lra. }
  assert (2 ^ (ln - ld - 1) <= q) as Hdown.
  { apply Qnot_lt_le. intros Hlt. pose proof (pow2_add (ln - ld - 1) (ld + 1)) as E.
    replace (ln - ld - 1 + (ld + 1))%Z with ln in E by lia.
    pose proof (pow2_pos ld). pose proof (pow2_pos (ln - ld - 1)).
    assert (q * inject_Z d <= 2 ^ (ln - ld - 1) * inject_Z d) by (apply Qmult_le_compat_r; lra).
    assert (2 ^ (ln - ld - 1) * inject_Z d < 2 ^ (ln - ld - 1) * 2 ^ (ld + 1)) by (by apply Qmult_lt_l). lra. }
  destruct (Qle_bool (2 ^ (ln - ld)) q) eqn:E; [by apply Qle_bool_iff in E|].
  split; [done|]. replace (ln - ld - 1 + 1)%Z with (ln - ld)%Z by lia.
  apply Qnot_le_lt. intros Hle%Qle_bool_iff. congruence.
Qed.

Lemma binade_mono p q : 0 < p -> p <= q -> (binade p <= binade q)%Z.
Proof.
  intros Hp Hpq. destruct (binade_spec p Hp) as [H1 _]. destruct (binade_spec q) as [_ H2]; [lra|].
  destruct (Z.le_gt_cases (binade p) (binade q)) as [|Hlt]; [done|].
  pose proof (pow2_mono (binade q + 1) (binade p) ltac:(lia)). lra.
Qed.

(** ** Rounding a positive number *)

(** Scaled to a mantissa of 53 bits. *)
Lemma scaled_spec q :
  0 < q -> inject_Z (2 ^ 52) <= q / 2 ^ (binade q - 52) /\ q / 2 ^ (binade q - 52) <= inject_Z (2 ^ 53).
Proof.
  intros Hq. destruct (binade_spec q Hq) as [H1 H2]. pose proof (pow2_pos (binade q - 52)) as Hp.
  rewrite <- !pow2_Z by lia. split.
  - apply Qle_shift_div_l; [done|]. rewrite <- pow2_add. by replace (52 + (binade q - 52))%Z with (binade q) by lia.
  - apply Qle_shift_div_r; [done|]. rewrite <- pow2_add.
    replace (53 + (binade q - 52))%Z with (binade q + 1)%Z by lia. by apply Qlt_le_weak.
Qed.

Lemma rnd_pos_bounds q : 0 < q -> 2 ^ binade q <= rnd_pos q /\ rnd_pos q <= 2 ^ (binade q + 1).
Proof.
  intros Hq. destruct (scaled_spec q Hq) as [H1 H2]. apply rne_mono in H1, H2. rewrite rne_int in H1, H2.
  unfold rnd_pos. set (e := (binade q - 52)%Z). pose proof (pow2_pos e) as Hp.
  replace (binade q) with (52 + e)%Z at 1 by lia. replace (binade q + 1)%Z with (53 + e)%Z by lia.
  rewrite !pow2_add, (pow2_Z 52), (pow2_Z 53) by lia.
  split; (apply Qmult_le_compat_r; [rewrite <- Zle_Qle; done|lra]).
Qed.

Lemma rnd_pos_mono p q : 0 < p -> p <= q -> rnd_pos p <= rnd_pos q.
Proof.
  intros Hp Hpq. assert (0 < q) as Hq by lra. pose proof (binade_mono p q Hp Hpq) as Hb.
  destruct (Z.eq_dec (binade p) (binade q)) as [E|E].
  - unfold rnd_pos. rewrite E. set (e := (binade q - 52)%Z). pose proof (pow2_pos e) as He.
    apply Qmult_le_compat_r; [|lra]. rewrite <- Zle_Qle. apply rne_mono.
    apply Qmult_le_compat_r; [done|]. apply Qlt_le_weak, Qinv_lt_0_compat, He.
  - destruct (rnd_pos_bounds p Hp) as [_ H1]. destruct (rnd_pos_bounds q Hq) as [H2 _].
    pose proof (pow2_mono (binade p + 1) (binade q) ltac:(lia)). lra.
Qed.

Lemma rnd_pos_scaled q z : 0 < q -> q / 2 ^ (binade q - 52) == inject_Z z -> rnd_pos q == q.
Proof.
  intros Hq Hz. unfold rnd_pos. rewrite Hz, rne_int, <- Hz. field.
  pose proof (pow2_pos (binade q - 52)). lra.
Qed.

(** A number with a mantissa of 53 bits stays. *)
Lemma rnd_pos_exact q m e :
  (0 < m <= 2 ^ 53)%Z -> q == inject_Z m * 2 ^ e -> rnd_pos q == q.
Proof.
  intros Hm Hq. assert (0 < inject_Z m) as Hm0 by (change 0 with (inject_Z 0); rewrite <- Zlt_Qlt; lia).
  assert (0 < q) as Hpos by (rewrite Hq; pose proof (pow2_pos e); nra).
  destruct (binade_spec q Hpos) as [H1 H2]. set (b := binade q) in *.
  assert (inject_Z m <= 2 ^ 53) as Hm1 by (rewrite pow2_Z by lia; rewrite <- Zle_Qle; lia).
  destruct (Z.le_gt_cases b (e + 52)) as [Hb|Hb].
  - apply (rnd_pos_scaled q (m * 2 ^ (e - b + 52))); [done|]. fold b.
    rewrite inject_Z_mult, <- pow2_Z, Hq by lia.
    replace (e - b + 52)%Z with (e + - (b - 52))%Z by lia. rewrite pow2_add, Qpower_opp. field.
    pose proof (pow2_pos (b - 52)). lra.
  - assert (2 ^ (e + 53) <= 2 ^ b) as Hle by (apply pow2_mono; lia).
    rewrite Z.add_comm, pow2_add in Hle. pose proof (pow2_pos e) as He.
    assert (q == 2 ^ b) as Hqb by nra.
    apply (rnd_pos_scaled q (2 ^ 52)); [done|]. fold b. rewrite Hqb, <- pow2_Z by lia.
    replace b with (52 + (b - 52))%Z at 1 by lia. rewrite pow2_add. field.
    pose proof (pow2_pos (b - 52)). lra.
Qed.

(** The unit roundoff. *)
Definition ulp : Q := 2 ^ (-53).

Lemma rnd_pos_error q : 0 < q -> q * (1 - ulp) <= rnd_pos q /\ rnd_pos q <= q * (1 + ulp).
Proof.
  intros Hq. destruct (binade_spec q Hq) as [Hb _]. unfold rnd_pos, ulp. set (b := binade q) in *.
  set (p := 2 ^ (b - 52)). assert (0 < p) as Hp by apply pow2_pos.
  pose proof (rne_error (q / p)) as [H1 H2]. set (r := inject_Z (rne (q / p))) in *.
  assert (q / p * p == q) as E by (field; lra). set (x := q / p) in *.
  assert ((1 # 2) * p <= 2 ^ (-53) * q) as Hhalf.
  { assert (p == 2 ^ (-52) * 2 ^ b) as ->.
    { subst p. rewrite <- pow2_add. by replace (-52 + b)%Z with (b - 52)%Z by lia. }
    assert (2 ^ (-52) == 2 * 2 ^ (-53)) as -> by reflexivity. pose proof (pow2_pos (-53)). nra. }
  split; nra.
Qed.

(** ** Rounding *)

#[export] Instance rnd_proper : Proper (Qeq ==> eq) rnd.
Proof. intros x y Hxy. unfold rnd. by rewrite (Qred_complete x y Hxy). Qed.

Lemma rnd_cases q :
  q == 0 /\ rnd q == 0 \/
  0 < q /\ rnd q == rnd_pos (Qred q) \/
  q < 0 /\ rnd q == - rnd_pos (- Qred q).
Proof.
  pose proof (Qred_correct q) as Hq. unfold rnd. cbv zeta. rewrite !Qred_correct.
  destruct (Qcompare_spec (Qred q) 0); [left|right; right|right; left]; (split; [lra|done]).
Qed.

Lemma rnd_nonneg q : 0 <= q -> 0 <= rnd q.
Proof.
  intros Hq. destruct (rnd_cases q) as [[_ ->]|[[Hp ->]|[Hn _]]]; [lra| |lra].
  pose proof (Qred_correct q) as Hr. destruct (rnd_pos_bounds (Qred q)) as [H _]; [lra|].
  pose proof (pow2_pos (binade (Qred q))). lra.
Qed.

Lemma rnd_opp_neg q : q < 0 -> rnd q < 0.
Proof.
  intros Hq. destruct (rnd_cases q) as [[? _]|[[? _]|[_ ->]]]; [lra|lra|].
  pose proof (Qred_correct q) as Hr. destruct (rnd_pos_bounds (- Qred q)) as [H _]; [lra|].
  pose proof (pow2_pos (binade (- Qred q))). lra.
Qed.

Lemma rnd_mono p q : p <= q -> rnd p <= rnd q.
Proof.
  intros Hpq. pose proof (Qred_correct p) as Ep. pose proof (Qred_correct q) as Eq'.
  destruct (Qlt_le_dec p 0) as [Hp|Hp]; [destruct (Qlt_le_dec q 0) as [Hq|Hq]|].
  - destruct (rnd_cases p) as [[? _]|[[? _]|[_ ->]]]; [lra|lra|].
    destruct (rnd_cases q) as [[? _]|[[? _]|[_ ->]]]; [lra|lra|].
    pose proof (rnd_pos_mono (- Qred q) (- Qred p)). lra.
  - pose proof (rnd_opp_neg p Hp). pose proof (rnd_nonneg q Hq). lra.
  - destruct (rnd_cases p) as [[_ ->]|[[Hpp ->]|[? _]]]; [apply rnd_nonneg; lra| |lra].
    destruct (rnd_cases q) as [[? _]|[[Hq ->]|[? _]]]; [lra| |lra].
    apply rnd_pos_mono; lra.
Qed.

(** The mantissa of a double. *)
Definition is_double (x : Q) : Prop := rnd x == x.

Lemma rnd_exact q m e :
  (0 <= m <= 2 ^ 53)%Z -> q == inject_Z m * 2 ^ e -> is_double q.
Proof.
  intros Hm Hq. pose proof (pow2_pos e) as He. unfold is_double.
  destruct (Z.eq_dec m 0%Z) as [->|Hne].
  { change (inject_Z 0) with 0 in Hq. destruct (rnd_cases q) as [[E ->]|[[? _]|[? _]]]; [by rewrite E|nra|nra]. }
  assert (0 < inject_Z m) as Hm0 by (change 0 with (inject_Z 0); rewrite <- Zlt_Qlt; lia).
  destruct (rnd_cases q) as [[? _]|[[Hp ->]|[? _]]]; [nra| |nra].
  pose proof (Qred_correct q) as Hr. rewrite (rnd_pos_exact (Qred q) m e); [done|lia|by rewrite Hr].
Qed.

Lemma rnd_int z : (0 <= z <= 2 ^ 53)%Z -> rnd (inject_Z z) == inject_Z z.
Proof. intros Hz. apply (rnd_exact _ z 0); [done|]. change (2 ^ 0) with 1. lra. Qed.

(** What rounding returns has a mantissa of 53 bits. *)
Lemma rnd_repr q : 0 <= q -> exists m e, (0 <= m <= 2 ^ 53)%Z /\ rnd q == inject_Z m * 2 ^ e.
Proof.
  intros Hq. destruct (rnd_cases q) as [[_ E]|[[Hp E]|[? _]]]; [| |lra].
  - exists 0%Z, 0%Z. split; [lia|]. rewrite E. reflexivity.
  - pose proof (Qred_correct q) as Hr. assert (0 < Qred q) as Hpr by lra.
    destruct (scaled_spec _ Hpr) as [H1 H2]. apply rne_mono in H1, H2. rewrite rne_int in H1, H2.
    exists (rne (Qred q / 2 ^ (binade (Qred q) - 52))), (binade (Qred q) - 52)%Z. split; [lia|]. by rewrite E.
Qed.

Lemma rnd_is_double q : 0 <= q -> is_double (rnd q).
Proof. intros Hq. destruct (rnd_repr q Hq) as (m & e & Hm & E). by apply (rnd_exact _ m e). Qed.

Lemma of_int_exact z : (0 <= z <= 2 ^ 53)%Z -> of_int z == inject_Z z.
Proof. apply rnd_int. Qed.

(** The fractional part of a double is computed without a rounding error. *)
Lemma frac_exact q :
  0 <= q -> rnd (rnd q - inject_Z (Qfloor (rnd q))) == rnd q - inject_Z (Qfloor (rnd q)).
Proof.
  intros Hq. destruct (rnd_repr q Hq) as (m & e & Hm & E). pose proof (rnd_nonneg q Hq) as Hn.
  set (x := rnd q) in *. pose proof (Qfloor_le x) as Hf. clearbody x. set (f := Qfloor x) in *.
  assert (0 <= f)%Z as Hf0 by (change 0%Z with (Qfloor 0); by apply Qfloor_resp_le).
  destruct (Z.le_gt_cases 0 e) as [He|He].
  - assert (x == inject_Z (m * 2 ^ e)) as Ex by by rewrite E, pow2_Z, inject_Z_mult.
    assert (f = m * 2 ^ e)%Z as Ef by (subst f; by rewrite Ex, Qfloor_Z).
    apply (rnd_exact _ 0 0); [lia|]. rewrite Ef, Ex. change (inject_Z 0) with 0. lra.
  - assert (2 ^ e * inject_Z (2 ^ (- e)) == 1) as Ep.
    { rewrite <- pow2_Z, <- pow2_add by lia. by replace (e + - e)%Z with 0%Z by lia. }
    assert (inject_Z (f * 2 ^ (- e)) * 2 ^ e == inject_Z f) as Ef.
    { rewrite inject_Z_mult, <- Qmult_assoc, (Qmult_comm (inject_Z (2 ^ (- e)))), Ep. ring. }
    pose proof (pow2_pos e) as Hpe.
    apply (rnd_exact _ (m - f * 2 ^ (- e)) e).
    + split; [|nia]. assert (f * 2 ^ (- e) <= m)%Z; [|lia]. rewrite Zle_Qle.
      apply (Qmult_le_r _ _ (2 ^ e)); [done|]. rewrite Ef, <- E. done.
    + unfold Z.sub. rewrite inject_Z_plus, inject_Z_opp. lra.
Qed.

Lemma rnd_error q : 0 <= q -> q * (1 - ulp) <= rnd q /\ rnd q <= q * (1 + ulp).
Proof.
  intros Hq. destruct (rnd_cases q) as [[E ->]|[[Hp ->]|[? _]]]; [rewrite E; lra| |lra].
  pose proof (Qred_correct q) as Hr. assert (0 < Qred q) as Hpr by lra.
  pose proof (rnd_pos_error _ Hpr) as [H1 H2]. rewrite Hr in H1 at 1. rewrite Hr in H2 at 2. done.
Qed.

(** [(int) x] of a number that is not negative. *)
Lemma to_int_floor x : 0 <= x -> to_int x = Qfloor x.
Proof.
  intros Hx. unfold to_int, Qfloor. destruct x as [n d]. simpl. apply Z.quot_div_nonneg; [|lia].
  unfold Qle in Hx. simpl in Hx. lia.
Qed.
