(* ===== verification/Framing.v ===== *)
(** * The framing protocol, abstractly

    What every server of the repository promises about the byte stream
    (src/src/protocol.h, src/src/peer_state.h, README "The protocol"): '^' opens
    a frame, '$' closes it, bytes inside a frame come back incremented by one,
    bytes outside are dropped.

    - [frame_step]/[frame_run]: the two-state machine, byte by byte;
    - [framed]: the grammar of streams, without reference to a machine, and
      [frame_run_framed]: the machine computes exactly what the grammar says;
    - [FrameParser]: the interface an implementation of the machine offers its
      driver, and [feed_all_spec]: whatever the segmentation of the stream, an
      implementation of the interface echoes what the grammar says. *)

From S2P Require Import Prelude.
Local Open Scope Z_scope.

(** ** The machine *)

Inductive ProcessingState := WAIT_FOR_MSG | IN_MSG.

#[export] Instance ProcessingState_eq_dec : EqDecision ProcessingState.
Proof. solve_decision. Defined.

Definition HAT : Z := 94.     (* '^' *)
Definition DOLLAR : Z := 36.  (* '$' *)
Definition STAR : Z := 42.    (* '*' *)

(** What a byte inside a frame is echoed as: [uint8_t] arithmetic. *)
Definition incr (c : Z) : Z := u8 (c + 1).

Definition frame_step (st : ProcessingState) (c : Z) : ProcessingState * list Z :=
  match st with
  | WAIT_FOR_MSG => (if c =? HAT then IN_MSG else WAIT_FOR_MSG, [])
  | IN_MSG => if c =? DOLLAR then (WAIT_FOR_MSG, []) else (IN_MSG, [incr c])
  end.

Fixpoint frame_run (st : ProcessingState) (bs : list Z) : ProcessingState * list Z :=
  match bs with
  | [] => (st, [])
  | c :: bs' =>
      let '(st1, o1) := frame_step st c in
      let '(st2, o2) := frame_run st1 bs' in
      (st2, o1 ++ o2)
  end.

Definition frame_state (st : ProcessingState) (bs : list Z) : ProcessingState :=
  (frame_run st bs).1.
Definition frame_out (st : ProcessingState) (bs : list Z) : list Z :=
  (frame_run st bs).2.

(** ** The grammar

    [framed bs st p]: the stream [bs], read from outside any frame, leaves the
    reader in [st] and carries the payload bytes [p]. *)
Inductive framed : list Z -> ProcessingState -> list Z -> Prop :=
| framed_idle o : HAT ∉ o -> framed o WAIT_FOR_MSG []
| framed_open o p : HAT ∉ o -> DOLLAR ∉ p -> framed (o ++ HAT :: p) IN_MSG p
| framed_frame o p bs st q :
    HAT ∉ o -> DOLLAR ∉ p -> framed bs st q ->
    framed (o ++ HAT :: p ++ DOLLAR :: bs) st (p ++ q).

(** ** An implementation of the machine

    [feed p bs] hands the received bytes [bs] to a parser in state [p] and
    returns what is to be echoed. [parser_ready] is what the driver guarantees
    before a call, [parser_ok] what the parser keeps for itself. *)
Class FrameParser {P : Type} (feed : P -> list Z -> outcome (list Z * P)) := {
  parser_state : P -> ProcessingState;
  parser_ok : P -> Prop;
  parser_ready : list Z -> Prop;
  parser_feed : forall p bs,
    parser_ok p -> parser_ready bs ->
    exists p', feed p bs = Ret (frame_out (parser_state p) bs, p') /\
      parser_state p' = frame_state (parser_state p) bs /\ parser_ok p';
}.

(** A driver hands over one received segment after the other. *)
Fixpoint feed_all {P} (feed : P -> list Z -> outcome (list Z * P)) (p : P)
    (segs : list (list Z)) : outcome (list Z * P) :=
  match segs with
  | [] => Ret ([], p)
  | bs :: segs' =>
      '(o1, p1) ← feed p bs;
      '(o2, p2) ← feed_all feed p1 segs';
      Ret (o1 ++ o2, p2)
  end.

(** ** Lemmas on the machine *)

Lemma frame_run_eq st bs : frame_run st bs = (frame_state st bs, frame_out st bs).
Proof. unfold frame_state, frame_out. by destruct (frame_run st bs). Qed.

Lemma frame_out_nil st : frame_out st [] = [].
Proof. done. Qed.

Lemma frame_state_nil st : frame_state st [] = st.
Proof. done. Qed.

Lemma frame_out_cons st c bs :
  frame_out st (c :: bs) = (frame_step st c).2 ++ frame_out (frame_step st c).1 bs.
Proof.
  unfold frame_out. simpl. destruct (frame_step st c) as [st1 o1]. simpl.
  by destruct (frame_run st1 bs).
Qed.

Lemma frame_state_cons st c bs :
  frame_state st (c :: bs) = frame_state (frame_step st c).1 bs.
Proof.
  unfold frame_state. simpl. destruct (frame_step st c) as [st1 o1]. simpl.
  by destruct (frame_run st1 bs).
Qed.

Lemma frame_state_app st bs1 bs2 :
  frame_state st (bs1 ++ bs2) = frame_state (frame_state st bs1) bs2.
Proof.
  revert st. induction bs1 as [|c bs1 IH]; intros st; [done|].
  simpl. by rewrite !frame_state_cons, IH.
Qed.

Lemma frame_out_app st bs1 bs2 :
  frame_out st (bs1 ++ bs2) = frame_out st bs1 ++ frame_out (frame_state st bs1) bs2.
Proof.
  revert st. induction bs1 as [|c bs1 IH]; intros st; [done|].
  simpl. by rewrite !frame_out_cons, frame_state_cons, IH, app_assoc.
Qed.

Lemma frame_step_length st c : (length (frame_step st c).2 <= 1)%nat.
Proof. destruct st; simpl; [lia|]. destruct (c =? DOLLAR); simpl; lia. Qed.

(** Each input byte produces at most one output byte. *)
Lemma frame_out_length st bs : (length (frame_out st bs) <= length bs)%nat.
Proof.
  revert st. induction bs as [|c bs IH]; intros st; [done|].
  rewrite frame_out_cons, length_app. simpl.
  pose proof (frame_step_length st c). specialize (IH (frame_step st c).1). lia.
Qed.

Lemma frame_out_bytes st bs : bytes_ok (frame_out st bs).
Proof.
  revert st. induction bs as [|c bs IH]; intros st; [constructor|].
  rewrite frame_out_cons. apply bytes_ok_app. split; [|apply IH].
  destruct st; simpl; [constructor|].
  destruct (c =? DOLLAR); repeat constructor; apply u8_range.
Qed.

Lemma frame_run_idle o :
  HAT ∉ o -> frame_run WAIT_FOR_MSG o = (WAIT_FOR_MSG, []).
Proof.
  induction o as [|c o IH]; [done|]. rewrite not_elem_of_cons. intros [Hc Ho].
  simpl. destruct (Z.eqb_spec c HAT); [congruence|]. by rewrite IH.
Qed.

Lemma frame_run_payload p :
  DOLLAR ∉ p -> frame_run IN_MSG p = (IN_MSG, incr <$> p).
Proof.
  induction p as [|c p IH]; [done|]. rewrite not_elem_of_cons. intros [Hc Hp].
  simpl. destruct (Z.eqb_spec c DOLLAR); [congruence|]. by rewrite IH.
Qed.

Lemma frame_state_idle o : HAT ∉ o -> frame_state WAIT_FOR_MSG o = WAIT_FOR_MSG.
Proof. intros. unfold frame_state. by rewrite frame_run_idle. Qed.
Lemma frame_out_idle o : HAT ∉ o -> frame_out WAIT_FOR_MSG o = [].
Proof. intros. unfold frame_out. by rewrite frame_run_idle. Qed.
Lemma frame_state_payload p : DOLLAR ∉ p -> frame_state IN_MSG p = IN_MSG.
Proof. intros. unfold frame_state. by rewrite frame_run_payload. Qed.
Lemma frame_out_payload p : DOLLAR ∉ p -> frame_out IN_MSG p = incr <$> p.
Proof. intros. unfold frame_out. by rewrite frame_run_payload. Qed.

(** One frame. *)
Definition frame_of (payload : list Z) : list Z := HAT :: payload ++ [DOLLAR].

Lemma frame_of_run payload :
  DOLLAR ∉ payload ->
  frame_out WAIT_FOR_MSG (frame_of payload) = incr <$> payload /\
  frame_state WAIT_FOR_MSG (frame_of payload) = WAIT_FOR_MSG.
Proof.
  intros Hp. unfold frame_of. rewrite frame_out_cons, frame_state_cons. simpl (frame_step _ _). cbn [fst snd app].
  rewrite frame_out_app, frame_state_app, frame_out_payload, frame_state_payload by done.
  split; [|done]. by rewrite frame_out_cons, app_nil_r.
Qed.

(** A prefix up to the first occurrence of a delimiter. *)
Lemma split_at_first (d : Z) (bs : list Z) :
  (d ∉ bs) \/ exists o bs', (d ∉ o) /\ bs = o ++ d :: bs'.
Proof.
  induction bs as [|c bs IH]; [left; apply not_elem_of_nil|].
  destruct (decide (c = d)) as [->|Hc].
  - right. exists [], bs. by split; [apply not_elem_of_nil|].
  - destruct IH as [Hn|(o & bs' & Ho & ->)].
    + left. by apply not_elem_of_cons.
    + right. exists (c :: o), bs'. split; [|done]. by apply not_elem_of_cons.
Qed.

Lemma framed_total bs : exists st p, framed bs st p.
Proof.
  induction bs as [bs IH] using (induction_ltof1 _ (@length Z)). unfold ltof in IH.
  destruct (split_at_first HAT bs) as [Hn|(o & bs' & Ho & ->)].
  { exists WAIT_FOR_MSG, []. by constructor. }
  destruct (split_at_first DOLLAR bs') as [Hn|(p & bs'' & Hp & ->)].
  { exists IN_MSG, bs'. by constructor. }
  destruct (IH bs'') as (st & q & Hq).
  { rewrite !length_app. simpl. rewrite length_app. simpl. lia. }
  exists st, (p ++ q). by constructor.
Qed.

Lemma framed_run bs st p :
  framed bs st p -> frame_run WAIT_FOR_MSG bs = (st, incr <$> p).
Proof.
  rewrite frame_run_eq.
  induction 1 as [o Ho|o p Ho Hp|o p bs st q Ho Hp _ IH].
  - by rewrite frame_state_idle, frame_out_idle.
  - rewrite frame_state_app, frame_out_app, frame_state_idle, frame_out_idle by done.
    rewrite frame_state_cons, frame_out_cons. simpl.
    by rewrite frame_state_payload, frame_out_payload.
  - rewrite frame_state_app, frame_out_app, frame_state_idle, frame_out_idle by done.
    rewrite frame_state_cons, frame_out_cons. simpl.
    rewrite frame_state_app, frame_out_app, frame_state_payload, frame_out_payload by done.
    rewrite frame_state_cons, frame_out_cons, fmap_app. simpl. congruence.
Qed.

(** The machine accepts every stream and computes what the grammar says. *)
Lemma frame_run_framed bs st out :
  frame_run WAIT_FOR_MSG bs = (st, out) <->
  exists p, framed bs st p /\ out = incr <$> p.
Proof.
  split.
  - intros Hrun. destruct (framed_total bs) as (st' & p & Hf).
    pose proof (framed_run _ _ _ Hf) as Hrun'. exists p. rewrite Hrun in Hrun'. by simplify_eq.
  - intros (p & Hf & ->). by apply framed_run.
Qed.

Lemma frame_out_framed bs :
  exists st p, framed bs st p /\ frame_out WAIT_FOR_MSG bs = incr <$> p.
Proof.
  destruct (frame_run WAIT_FOR_MSG bs) as [st out] eqn:E.
  apply frame_run_framed in E as E'. destruct E' as (p & Hp & ->).
  exists st, p. split; [done|]. unfold frame_out. by rewrite E.
Qed.

(** ** The interface's client theorem *)

Lemma feed_all_spec `{FrameParser P feed} p segs :
  parser_ok p -> Forall parser_ready segs ->
  exists p', feed_all feed p segs = Ret (frame_out (parser_state p) (concat segs), p') /\
    parser_state p' = frame_state (parser_state p) (concat segs) /\ parser_ok p'.
Proof.
  intros Hok Hsegs. revert p Hok.
  induction Hsegs as [|bs segs Hbs _ IH]; intros p Hok; [by exists p|]. simpl.
  destruct (parser_feed p bs Hok Hbs) as (p1 & Hfeed & Hst & Hok1).
  destruct (IH p1 Hok1) as (p2 & Hall & Hst2 & Hok2).
  exists p2. unfold mbind, outcome_bind. rewrite Hfeed. simpl. rewrite Hall. simpl.
  by rewrite frame_out_app, frame_state_app, <- Hst.
Qed.

Create Rewrite HintDb framing.
#[export] Hint Rewrite frame_state_app frame_out_app frame_state_cons frame_out_cons : framing.
