(* ===== verification/CString.v ===== *)
(** * C strings and the parts of the C library that read and print them

    What the sources use of <string.h>, <stdio.h> and <stdlib.h>: NUL-terminated
    strings in a buffer, [strlen], [strstr], [strchr], [strncmp], the conversions %s, %zu,
    %PRIu64, %PRId64 and %09PRIu64 of the [printf] family, the bounded write of
    [vsnprintf], and [strtol], [strtoull] and [atoi] in base 10. *)

From S2P Require Import Prelude.
Local Open Scope Z_scope.

(** ** NUL-terminated strings *)

(** The string that starts at the first byte of a buffer. *)
Fixpoint cstr (b : list Z) : list Z :=
  match b with
  | [] => []
  | c :: b' => if c =? 0 then [] else c :: cstr b'
  end.

Definition strlen (b : list Z) : Z := Z.of_nat (length (cstr b)).

(** [strncmp(s, t, length t) == 0] for a literal [t] without NUL. *)
Fixpoint has_prefix (t s : list Z) : bool :=
  match t, s with
  | [], _ => true
  | x :: t', y :: s' => (x =? y) && has_prefix t' s'
  | _ :: _, [] => false
  end.

(** [strstr(s, t) != NULL]. *)
Fixpoint strstr (s t : list Z) : bool :=
  has_prefix t s ||
  match s with
  | [] => false
  | _ :: s' => strstr s' t
  end.

(** The pointers [strstr(s, t)] and [strchr(s, c)], as the string that starts there;
    [None] is NULL. [t] has no NUL and [c] is not NUL. *)
Fixpoint strstr_at (s t : list Z) : option (list Z) :=
  if has_prefix t s then Some s
  else match s with [] => None | _ :: s' => strstr_at s' t end.

Fixpoint strchr (s : list Z) (c : Z) : option (list Z) :=
  match s with
  | [] => None
  | x :: s' => if x =? c then Some s else strchr s' c
  end.

(** ** Printing numbers *)

Fixpoint digits (fuel : nat) (n : Z) : list Z :=
  match fuel with
  | O => []
  | S f => if n <? 10 then [48 + n] else digits f (n / 10) ++ [48 + n mod 10]
  end.

(** %PRIu64 and %zu: 20 digits hold every value below 2^64. *)
Definition dec_u (n : Z) : list Z := digits 20 n.

(** %PRId64. *)
Definition dec_s (n : Z) : list Z := if n <? 0 then 45 :: dec_u (- n) else dec_u n.

(** %09PRIu64. *)
Definition dec_09 (n : Z) : list Z :=
  let d := dec_u n in replicate (9 - length d) 48 ++ d.

#[global] Arguments lit : simpl never.
#[global] Arguments dec_u : simpl never.
#[global] Arguments dec_s : simpl never.
#[global] Arguments dec_09 : simpl never.

(** The value a run of decimal digits denotes. *)
Definition undec (ds : list Z) : Z := fold_left (fun v d => v * 10 + (d - 48)) ds 0.

(** ** [vsnprintf]

    [snprintf_write b room txt] is the buffer [b] (the [room] bytes from [dst])
    after a formatted text [txt] went into it: at most [room - 1] characters and
    a NUL, nothing at all when there is no room. The return value of the C
    function, the length of [txt], is left to the caller. *)
Definition snprintf_write (b : list Z) (off room : Z) (txt : list Z) : outcome (list Z) :=
  if room <=? 0 then Ret b
  else buf_blit b off (take (Z.to_nat (room - 1)) txt ++ [0]).

(** ** Reading numbers *)

Definition isspace (c : Z) : bool := (c =? 32) || ((9 <=? c) && (c <=? 13)).
Definition isdigit (c : Z) : bool := (48 <=? c) && (c <=? 57).

Fixpoint skip_space (s : list Z) : list Z :=
  match s with
  | c :: s' => if isspace c then skip_space s' else s
  | [] => []
  end.

Fixpoint span_digits (s : list Z) : list Z * list Z :=
  match s with
  | c :: s' =>
      if isdigit c then let '(d, r) := span_digits s' in (c :: d, r) else ([], s)
  | [] => ([], [])
  end.

Definition LONG_MAX : Z := 2 ^ 63 - 1.
Definition LONG_MIN : Z := - 2 ^ 63.

(** [strtol(text, &end, 10)]: the value, whether [errno] was set ([ERANGE]),
    and [end] as the rest of the string, [None] when [end == text] (no digits). *)
Definition strtol (text : list Z) : Z * bool * option (list Z) :=
  let s := skip_space text in
  let '(neg, s1) :=
    match s with
    | c :: s' => if c =? 45 then (true, s') else if c =? 43 then (false, s') else (false, s)
    | [] => (false, s)
    end in
  let '(ds, rest) := span_digits s1 in
  match ds with
  | [] => (0, false, None)
  | _ :: _ =>
      let v := if neg then - undec ds else undec ds in
      if v <? LONG_MIN then (LONG_MIN, true, Some rest)
      else if LONG_MAX <? v then (LONG_MAX, true, Some rest)
      else (v, false, Some rest)
  end.

(** glibc's [atoi] is [(int) strtol(text, NULL, 10)]. *)
Definition atoi (text : list Z) : Z := s32 (strtol text).1.1.

(** [strtoull(text, NULL, 10)]. *)
Definition ULLONG_MAX : Z := 2 ^ 64 - 1.

Definition strtoull (text : list Z) : Z :=
  let s := skip_space text in
  let '(neg, s1) :=
    match s with
    | c :: s' => if c =? 45 then (true, s') else if c =? 43 then (false, s') else (false, s)
    | [] => (false, s)
    end in
  let v := undec (span_digits s1).1 in
  if ULLONG_MAX <? v then ULLONG_MAX else if neg then u64 (- v) else v.

(** ** Lemmas *)

Lemma cstr_app_nul s b : 0 ∉ s -> cstr (s ++ 0 :: b) = s.
Proof.
  induction s as [|c s IH]; [done|]. rewrite not_elem_of_cons. intros [Hc Hs]. simpl.
  destruct (Z.eqb_spec c 0); [congruence|]. by rewrite IH.
Qed.

Lemma cstr_length b : (length (cstr b) <= length b)%nat.
Proof. induction b as [|c b IH]; [done|]. simpl. destruct (c =? 0); simpl; lia. Qed.

Lemma has_prefix_app t s : has_prefix t (t ++ s) = true.
Proof. induction t as [|x t IH]; [done|]. simpl. by rewrite Z.eqb_refl. Qed.

Lemma has_prefix_spec t s : has_prefix t s = true <-> exists s', s = t ++ s'.
Proof.
  revert s. induction t as [|x t IH]; intros s; simpl; [by split; [exists s|]|].
  destruct s as [|y s]; simpl; [by split; [|intros []]|].
  rewrite andb_true_iff, Z.eqb_eq, IH. split.
  - intros [-> [s' ->]]. by exists s'.
  - intros [s' [= -> ->]]. split; [done|by exists s'].
Qed.

Lemma cstr_app_nul_any s b : cstr (s ++ 0 :: b) = cstr s.
Proof. induction s as [|c s IH]; [done|]. simpl. destruct (c =? 0); [done|]. by rewrite IH. Qed.

Lemma cstr_terminated b : (length (cstr b) < length b)%nat -> b !! length (cstr b) = Some 0.
Proof.
  induction b as [|c b IH]; simpl; [lia|]. destruct (Z.eqb_spec c 0) as [->|]; simpl; [done|].
  intros. apply IH. lia.
Qed.

Lemma cstr_take b : cstr b = take (length (cstr b)) b.
Proof. induction b as [|c b IH]; [done|]. simpl. destruct (c =? 0); [done|]. simpl. by rewrite <- IH. Qed.

(** A literal is a prefix of a string exactly when it is one of its buffer. *)
Lemma has_prefix_cstr t s : 0 ∉ t -> has_prefix t (cstr s) = has_prefix t s.
Proof.
  revert s. induction t as [|x t IH]; intros s Ht; [done|]. apply not_elem_of_cons in Ht as [Hx Ht].
  destruct s as [|c s]; [done|]. simpl. destruct (Z.eqb_spec c 0) as [->|].
  - by destruct (Z.eqb_spec x 0).
  - simpl. by rewrite IH.
Qed.

Lemma strstr_spec s t : strstr s t = true <-> exists a b, s = a ++ t ++ b.
Proof.
  induction s as [|c s IH]; simpl.
  - rewrite orb_false_r, has_prefix_spec. split.
    + intros [s' Hs]. by exists [], s'.
    + intros (a & b & Hs). destruct a; [by exists b|done].
  - rewrite orb_true_iff, has_prefix_spec, IH. split.
    + intros [[s' ->]|(a & b & ->)]; [by exists [], s'|by exists (c :: a), b].
    + intros ([|x a] & b & Hs); simpl in Hs; [left; by exists b|].
      right. simplify_eq. by exists a, b.
Qed.

Lemma strstr_at_app s t : is_Some (strstr_at s t) <-> strstr s t = true.
Proof.
  induction s as [|x s IH]; simpl.
  - destruct (has_prefix t []); simpl; [by split; [|eexists]|]. by split; [intros []|].
  - destruct (has_prefix t (x :: s)); simpl; [by split; [|eexists]|done].
Qed.

Lemma undec_snoc ds d : undec (ds ++ [d]) = undec ds * 10 + (d - 48).
Proof. unfold undec. by rewrite fold_left_app. Qed.

Lemma undec_app_acc ds v :
  fold_left (fun v d => v * 10 + (d - 48)) ds v = v * 10 ^ Z.of_nat (length ds) + undec ds.
Proof.
  unfold undec. revert v. induction ds as [|d ds IH]; intros v; [simpl; lia|].
  simpl fold_left. rewrite IH, (IH (0 * 10 + (d - 48))). simpl length.
  rewrite Nat2Z.inj_succ, Z.pow_succ_r by lia. lia.
Qed.

Lemma undec_app ds1 ds2 : undec (ds1 ++ ds2) = undec ds1 * 10 ^ Z.of_nat (length ds2) + undec ds2.
Proof. unfold undec at 1. rewrite fold_left_app. apply undec_app_acc. Qed.

Section Digits.
Implicit Types (f : nat) (n : Z).

Lemma digits_undec f n : 0 <= n < 10 ^ Z.of_nat f -> undec (digits f n) = n.
Proof.
  revert n. induction f as [|f IH]; intros n Hn; [simpl in *; unfold undec; simpl; lia|].
  rewrite Nat2Z.inj_succ, Z.pow_succ_r in Hn by lia. simpl.
  destruct (Z.ltb_spec n 10); [unfold undec; simpl; lia|].
  rewrite undec_snoc, IH; Z.div_mod_to_equations; lia.
Qed.

Lemma digits_length f n : (length (digits f n) <= f)%nat.
Proof.
  revert n. induction f as [|f IH]; intros n; [done|]. simpl.
  destruct (n <? 10); simpl; [lia|]. rewrite length_app. simpl. specialize (IH (n / 10)). lia.
Qed.

(** No more digits than the magnitude needs. *)
Lemma digits_length_le f n k :
  (0 < k)%nat -> 0 <= n < 10 ^ Z.of_nat k -> (length (digits f n) <= k)%nat.
Proof.
  revert n k. induction f as [|f IH]; intros n k Hk Hn; [simpl; lia|]. simpl.
  destruct (Z.ltb_spec n 10); [simpl; lia|]. rewrite length_app. simpl.
  destruct k as [|k]; [lia|]. rewrite Nat2Z.inj_succ, Z.pow_succ_r in Hn by lia.
  destruct k as [|k]; [simpl in Hn; lia|].
  specialize (IH (n / 10) (S k)). enough (length (digits f (n / 10)) <= S k)%nat by lia.
  apply IH; [lia|]. Z.div_mod_to_equations. lia.
Qed.

Lemma digits_chars f n : 0 <= n -> Forall (fun c => isdigit c = true) (digits f n).
Proof.
  revert n. induction f as [|f IH]; intros n Hn; [constructor|]. simpl.
  destruct (Z.ltb_spec n 10).
  - repeat constructor. unfold isdigit. lia.
  - apply Forall_app. split; [apply IH; Z.div_mod_to_equations; lia|].
    repeat constructor. unfold isdigit. Z.div_mod_to_equations. lia.
Qed.
End Digits.

Lemma digits_ne f n : digits (S f) n <> [].
Proof. cbn [digits]. destruct (n <? 10); [done|]. by destruct (digits f (n / 10)). Qed.

Lemma dec_u_undec n : 0 <= n < 2 ^ 64 -> undec (dec_u n) = n.
Proof. intros. apply digits_undec. lia. Qed.

Lemma dec_u_length n : (length (dec_u n) <= 20)%nat.
Proof. apply digits_length. Qed.

Lemma dec_u_chars n : 0 <= n -> Forall (fun c => isdigit c = true) (dec_u n).
Proof. apply digits_chars. Qed.

Lemma dec_s_length n : (length (dec_s n) <= 21)%nat.
Proof.
  unfold dec_s. pose proof (dec_u_length n). pose proof (dec_u_length (- n)).
  destruct (n <? 0); simpl; lia.
Qed.

Lemma undec_zeros k ds : undec (replicate k 48 ++ ds) = undec ds.
Proof.
  rewrite undec_app. replace (undec (replicate k 48)) with 0; [lia|].
  induction k as [|k IH]; [done|]. simpl replicate. unfold undec in *. simpl. done.
Qed.

(** The nanosecond field is exactly nine digits wide and denotes its value. *)
Lemma dec_09_spec n :
  0 <= n < 10 ^ 9 -> length (dec_09 n) = 9%nat /\ undec (dec_09 n) = n.
Proof.
  intros Hn. unfold dec_09. rewrite undec_zeros, dec_u_undec by lia.
  rewrite length_app, length_replicate.
  pose proof (digits_length_le 20 n 9 ltac:(lia) ltac:(simpl; lia)).
  fold (dec_u n) in *. split; [lia|done].
Qed.

Lemma span_digits_app ds rest :
  Forall (fun c => isdigit c = true) ds ->
  match rest with c :: _ => isdigit c = false | [] => True end ->
  span_digits (ds ++ rest) = (ds, rest).
Proof.
  intros Hds Hrest. induction Hds as [|c ds Hc _ IH]; simpl.
  - destruct rest as [|c rest]; [done|]. simpl. by rewrite Hrest.
  - by rewrite Hc, IH.
Qed.

Lemma isdigit_not_space c : isdigit c = true -> isspace c = false /\ (c =? 45) = false /\ (c =? 43) = false.
Proof. unfold isdigit, isspace. lia. Qed.

(** What [strtol] reads back from a printed value. *)
Lemma strtol_dec_u n : 0 <= n <= LONG_MAX -> strtol (dec_u n) = (n, false, Some []).
Proof.
  unfold LONG_MAX. intros Hn.
  pose proof (dec_u_chars n ltac:(lia)) as Hch. pose proof (dec_u_undec n ltac:(lia)) as Hv.
  assert (dec_u n <> []) as Hne.
  { apply digits_ne. }
  destruct (dec_u n) as [|c ds] eqn:E; [done|]. apply Forall_cons in Hch as Hch2. destruct Hch2 as [Hc Hds].
  destruct (isdigit_not_space c Hc) as (Hs & Hm & Hp).
  unfold strtol. simpl skip_space. rewrite Hs, Hm, Hp.
  pose proof (span_digits_app (c :: ds) [] Hch I) as Hspan.
  rewrite app_nil_r in Hspan. rewrite Hspan.
  rewrite Hv. unfold LONG_MIN, LONG_MAX.
  rewrite (proj2 (Z.ltb_ge _ _)) by lia. by rewrite (proj2 (Z.ltb_ge _ _)) by lia.
Qed.

Lemma span_digits_inv s ds rest :
  span_digits s = (ds, rest) -> s = ds ++ rest /\ Forall (fun c => isdigit c = true) ds.
Proof.
  revert ds rest. induction s as [|c s IH]; intros ds rest; simpl; [by intros [= <- <-]|].
  destruct (isdigit c) eqn:E; [|by intros [= <- <-]].
  destruct (span_digits s) as [d r]. intros [= <- <-]. destruct (IH _ _ eq_refl) as [-> ?].
  split; [done|by constructor].
Qed.

Lemma skip_space_inv s : exists sp, s = sp ++ skip_space s /\ Forall (fun c => isspace c = true) sp.
Proof.
  induction s as [|c s IH]; [by exists []|]. simpl. destruct (isspace c) eqn:E; [|by exists []].
  destruct IH as (sp & Hs & Hsp). exists (c :: sp). split; [simpl; congruence|by constructor].
Qed.

Lemma skip_space_app sp s :
  Forall (fun c => isspace c = true) sp ->
  match s with c :: _ => isspace c = false | [] => True end -> skip_space (sp ++ s) = s.
Proof.
  intros Hsp Hs. induction Hsp as [|c sp Hc _ IH]; simpl; [|by rewrite Hc].
  destruct s as [|c s]; [done|]. simpl. by rewrite Hs.
Qed.

(** The signs [strtol] takes. *)
Definition signed (sign : list Z) (v : Z) : option Z :=
  if decide (sign = [] \/ sign = [43]) then Some v
  else if decide (sign = [45]) then Some (- v) else None.

(** An in-range decimal numeral and nothing else. *)
Definition numeral (text : list Z) (v : Z) : Prop :=
  exists sp sign ds, text = sp ++ sign ++ ds /\ Forall (fun c => isspace c = true) sp /\
    ds <> [] /\ Forall (fun c => isdigit c = true) ds /\ signed sign (undec ds) = Some v.

Lemma undec_nonneg ds : Forall (fun c => isdigit c = true) ds -> 0 <= undec ds.
Proof.
  induction ds as [|d ds IH] using rev_ind; [done|]. intros [Hds Hd]%Forall_app.
  rewrite undec_snoc. apply Forall_cons in Hd as [Hd _]. cbv beta in Hd. unfold isdigit in Hd. bool_prop.
  specialize (IH Hds). lia.
Qed.

Lemma strtol_numeral text v :
  numeral text v -> LONG_MIN <= v <= LONG_MAX -> strtol text = (v, false, Some []).
Proof.
  intros (sp & sign & ds & -> & Hsp & Hne & Hds & Hs) Hv. unfold strtol.
  destruct ds as [|d ds]; [done|]. apply Forall_cons in Hds as Hds2. destruct Hds2 as [Hd _].
  destruct (isdigit_not_space d Hd) as (Hd1 & Hd2 & Hd3).
  pose proof (span_digits_app (d :: ds) [] Hds I) as Hspan. rewrite app_nil_r in Hspan.
  unfold signed in Hs. case_decide as E1; [destruct E1 as [-> | ->]|case_decide as E2; [subst sign|done]];
    simplify_eq; simpl app; (rewrite skip_space_app; [|done|done]); cbn [Z.eqb Pos.eqb].
  - rewrite Hd2, Hd3, Hspan. rewrite !(proj2 (Z.ltb_ge _ _)) by lia. done.
  - rewrite Hspan, !(proj2 (Z.ltb_ge _ _)) by lia. done.
  - rewrite Hspan, !(proj2 (Z.ltb_ge _ _)) by lia. done.
Qed.

Lemma strtol_exact text v : strtol text = (v, false, Some []) -> numeral text v.
Proof.
  unfold strtol. destruct (skip_space_inv text) as (sp & Ht & Hsp). set (s := skip_space text) in *.
  clearbody s. subst text.
  destruct (match s with c :: s' => _ | [] => _ end) as [neg s1] eqn:Esign.
  assert (exists sign, s = sign ++ s1 /\ forall v, signed sign v = Some (if neg then - v else v)) as (sign & Hs & Hsg).
  { destruct s as [|c s']; [injection Esign as <- <-; by exists []|].
    destruct (Z.eqb_spec c 45) as [->|]; [injection Esign as <- <-; by exists [45]|].
    destruct (Z.eqb_spec c 43) as [->|]; injection Esign as <- <-; [by exists [43]|by exists []]. }
  destruct (span_digits s1) as [ds rest] eqn:Esp. apply span_digits_inv in Esp as [-> Hds].
  destruct ds as [|d ds]; [done|]. intros H.
  assert (rest = [] /\ v = if neg then - undec (d :: ds) else undec (d :: ds)) as [-> ->].
  { destruct (_ <? _); [done|]. destruct (_ <? _); [done|]. by injection H as <- <-. }
  exists sp, sign, (d :: ds). rewrite app_nil_r in *. subst s. by repeat split.
Qed.
