(* ===== verification/Posix.v ===== *)
(** * The sockets the sources run on

    What the sources use of <sys/socket.h>. A connected socket is what the kernel
    is going to answer: [rx], the answers to successive [recv]s, and [tx], the
    answers to successive [send]s, with [wire], the bytes the kernel has taken
    for the peer. The scripts are arbitrary, so a theorem over all of them is a
    theorem over every peer, every segmentation and every errno. A script that
    has run out is a call that has not returned yet.

    - [RxData bs]: [bs] are available; a [recv] of [want] bytes returns the first
      [want] of them and leaves the rest. [RxData []] is an orderly shutdown,
      [recv] returns 0.
    - [TxSpace n]: the kernel has room for [n] bytes; a [send] takes at most that
      many.
    - [RxErr e], [TxErr e]: -1 with [errno = e]. A [send] failing with [EPIPE]
      also raises SIGPIPE, which ends the process unless it is ignored or the
      call passes MSG_NOSIGNAL. *)

From S2P Require Import Prelude.
Local Open Scope Z_scope.

Inductive rx_event := RxData (bs : list Z) | RxErr (e : Z).
Inductive tx_event := TxSpace (n : nat) | TxErr (e : Z).

Record sock := Sock { rx : list rx_event; tx : list tx_event; wire : list Z }.

Inductive recv_result := Received (bs : list Z) | RecvError (e : Z).

(** [None]: the call blocks. *)
Definition sys_recv (want : Z) (s : sock) : option (recv_result * sock) :=
  match rx s with
  | [] => None
  | RxErr e :: r => Some (RecvError e, Sock r (tx s) (wire s))
  | RxData bs :: r =>
      let got := take (Z.to_nat want) bs in
      let rest := drop (Z.to_nat want) bs in
      Some (Received got, Sock (match rest with [] => r | _ => RxData rest :: r end) (tx s) (wire s))
  end.

(** The state of a process that matters to its sends. *)
Record proc := Proc { sigpipe_ignored : bool }.
Definition proc_start : proc := Proc false.

(** ** The write-everything loop

    [send_all] of protocol.c, [write_all] of metrics_server.c and [send_all_fd]
    of loadgen.c are the same loop around [send]. *)

Inductive sent_all :=
| SentAll                (* return 0 *)
| SendFailed (e : Z)     (* return -1 with errno = e *)
| SendBlocked            (* a send has not returned *)
| SendKilled.            (* SIGPIPE with its default action *)

(** [quiet]: SIGPIPE is ignored or masked by MSG_NOSIGNAL. *)
Fixpoint send_loop (quiet : bool) (buf : list Z) (txs : list tx_event) (sent : Z) (w : list Z) :
    sent_all * list tx_event * list Z :=
  let len := Z.of_nat (length buf) in
  if sent <? len then
    match txs with
    | [] => (SendBlocked, [], w)
    | TxErr e :: txs' =>
        if (e =? EPIPE) && negb quiet then (SendKilled, txs', w)
        else if e =? EINTR then send_loop quiet buf txs' sent w
        else (SendFailed e, txs', w)
    | TxSpace n :: txs' =>
        let k := Z.min (Z.of_nat n) (len - sent) in
        send_loop quiet buf txs' (sent + k) (w ++ slice buf sent k)
    end
  else (SentAll, txs, w).

Definition send_to (quiet : bool) (s : sock) (buf : list Z) : sent_all * sock :=
  let '(r, txs, w) := send_loop quiet buf (tx s) 0 (wire s) in
  (r, Sock (rx s) txs w).

(** ** Non-blocking calls

    On a non-blocking socket a call that would have to wait fails with [EAGAIN].
    [nb_send]: [Exit] is the death of the process by SIGPIPE. *)

Definition nb_recv (want : Z) (s : sock) : recv_result * sock :=
  match sys_recv want s with
  | Some r => r
  | None => (RecvError EAGAIN, s)
  end.

Inductive send_result := SentBytes (n : Z) | SendError (e : Z).

Definition nb_send (quiet : bool) (buf : list Z) (s : sock) : outcome (send_result * sock) :=
  match tx s with
  | [] => Ret (SendError EAGAIN, s)
  | TxErr e :: r =>
      if (e =? EPIPE) && negb quiet then Exit "SIGPIPE"
      else Ret (SendError e, Sock (rx s) r (wire s))
  | TxSpace n :: r =>
      let k := Z.min (Z.of_nat n) (Z.of_nat (length buf)) in
      Ret (SentBytes k, Sock (rx s) r (wire s ++ slice buf 0 k))
  end.

(** ** Descriptors *)

(** [close] in a process that holds the descriptors [open]. *)
Definition close_fd (open : gset Z) (fd : Z) : outcome (gset Z) :=
  if decide (fd ∈ open) then Ret (open ∖ {[fd]}) else Fault BadDescriptor.

(** ** Facts about a socket *)

Definition rx_bytes (evs : list rx_event) : list Z :=
  concat ((fun ev => match ev with RxData bs => bs | RxErr _ => [] end) <$> evs).

(** A bound on the number of [recv]s the script can answer. *)
Definition rx_size (evs : list rx_event) : nat :=
  sum_list ((fun ev => match ev with RxData bs => S (length bs) | RxErr _ => 1%nat end) <$> evs).

(** No send fails, and at least [k] of them take something. *)
Fixpoint tx_takes (txs : list tx_event) (k : nat) : Prop :=
  match txs with
  | [] => k = 0%nat
  | TxErr e :: txs' => e = EINTR /\ tx_takes txs' k
  | TxSpace 0 :: txs' => tx_takes txs' k
  | TxSpace (S _) :: txs' => tx_takes txs' (pred k)
  end.

(** The peer sends what it sends and then shuts down in order. *)
Fixpoint rx_ends (evs : list rx_event) : Prop :=
  match evs with
  | [] => False
  | RxData [] :: _ => True
  | RxData (_ :: _) :: evs' => rx_ends evs'
  | RxErr e :: evs' => e = EINTR /\ rx_ends evs'
  end.

(** What it sends before that. *)
Fixpoint rx_until (evs : list rx_event) : list Z :=
  match evs with
  | [] => []
  | RxData [] :: _ => []
  | RxData bs :: evs' => bs ++ rx_until evs'
  | RxErr _ :: evs' => rx_until evs'
  end.

Lemma sys_recv_spec want s r s' :
  0 < want -> sys_recv want s = Some (r, s') ->
  tx s' = tx s /\ wire s' = wire s /\ (rx_size (rx s') < rx_size (rx s))%nat /\
  (forall e, RxErr e ∈ rx s' -> RxErr e ∈ rx s) /\
  match r with
  | Received bs =>
      rx_bytes (rx s) = bs ++ rx_bytes (rx s') /\ Z.of_nat (length bs) <= want
  | RecvError e => rx_bytes (rx s) = rx_bytes (rx s') /\ RxErr e ∈ rx s
  end.
Proof.
  intros Hw. destruct s as [[|[bs|e] evs] txs w]; unfold sys_recv; simpl; [done| |].
  - intros [= <- <-]. simpl. repeat split; try done.
    + unfold rx_size. rewrite !fmap_cons. cbn [sum_list sum_list_with].
      destruct (drop (Z.to_nat want) bs) as [|c cs] eqn:E; [unfold id; simpl; lia|].
      rewrite fmap_cons, <- E. unfold id. simpl. rewrite length_drop.
      assert (length bs <> 0)%nat by by destruct bs; [rewrite drop_nil in E|]. lia.
    + intros e He. apply elem_of_cons. right.
      destruct (drop (Z.to_nat want) bs); [done|]. by apply elem_of_cons in He as [|].
    + unfold rx_bytes. rewrite !fmap_cons. cbn [concat].
      destruct (drop (Z.to_nat want) bs) as [|c cs] eqn:E.
      * rewrite <- (take_drop (Z.to_nat want) bs) at 1. by rewrite E, app_nil_r.
      * rewrite fmap_cons. cbn [concat]. by rewrite app_assoc, <- E, take_drop.
    + rewrite length_take. lia.
  - intros [= <- <-]. simpl. repeat split; try done;
      [|by intros e' He; apply elem_of_cons; right|by apply elem_of_cons; left].
    unfold rx_size. rewrite fmap_cons. cbn [sum_list sum_list_with]. unfold id. lia.
Qed.

Lemma send_loop_spec quiet buf txs sent w r txs' w' :
  0 <= sent -> send_loop quiet buf txs sent w = (r, txs', w') ->
  (exists k, 0 <= k /\ w' = w ++ slice buf sent k /\
     match r with SentAll => sent + k >= Z.of_nat (length buf) | _ => True end) /\
  match r with
  | SendFailed e => e <> EINTR /\ TxErr e ∈ txs
  | SendKilled => quiet = false
  | _ => True
  end /\ suffix txs' txs.
Proof.
  intros Hs. revert sent w Hs. induction txs as [|[n|e] txs IH]; intros sent w Hs; cbn [send_loop].
  - destruct (Z.ltb_spec sent (Z.of_nat (length buf))); intros [= <- <- <-];
      (split; [exists 0; rewrite slice_nil, app_nil_r by lia; repeat split; lia|by split]).
  - destruct (Z.ltb_spec sent (Z.of_nat (length buf))).
    + intros Hrun. apply IH in Hrun as ((k & Hk & -> & Hend) & Hr & Hsuf); [|lia].
      set (j := Z.min (Z.of_nat n) (Z.of_nat (length buf) - sent)) in *.
      split; [|split; [|by apply suffix_cons_r]].
      * exists (j + k). split; [lia|]. split; [|destruct r; lia].
        rewrite (slice_split buf sent (j + k) j) by lia.
        replace (j + k - j) with k by lia. by rewrite app_assoc.
      * destruct r; try done. destruct Hr. split; [done|]. by apply list_elem_of_further.
    + intros [= <- <- <-].
      split; [exists 0; rewrite slice_nil, app_nil_r by lia; repeat split; lia|by split].
  - destruct (Z.ltb_spec sent (Z.of_nat (length buf))).
    + destruct ((e =? EPIPE) && negb quiet) eqn:Ek; [|destruct (Z.eqb_spec e EINTR) as [->|He]].
      * intros [= <- <- <-]. bool_prop.
        split; [exists 0; rewrite slice_nil, app_nil_r by lia; repeat split; lia|].
        split; [done|by apply suffix_cons_r].
      * intros Hrun. apply IH in Hrun as (Hk & Hr & Hsuf); [|lia].
        split; [done|]. split; [|by apply suffix_cons_r].
        destruct r; try done. destruct Hr. split; [done|]. by apply list_elem_of_further.
      * intros [= <- <- <-].
        split; [exists 0; rewrite slice_nil, app_nil_r by lia; repeat split; lia|].
        split; [|by apply suffix_cons_r]. split; [done|]. by apply elem_of_cons; left.
    + intros [= <- <- <-].
      split; [exists 0; rewrite slice_nil, app_nil_r by lia; repeat split; lia|by split].
Qed.

Lemma tx_takes_le txs k k' : tx_takes txs k -> (k' <= k)%nat -> tx_takes txs k'.
Proof.
  revert k k'. induction txs as [|[[|n]|e] txs IH]; intros k k'; simpl; [lia|by apply IH| |].
  - intros Ht ?. apply (IH (pred k)); [done|lia].
  - intros [-> Ht] ?. split; [done|]. by apply (IH k).
Qed.

(** A peer that keeps taking bytes gets the whole buffer. *)
Lemma send_loop_completes quiet buf txs sent w k :
  0 <= sent <= Z.of_nat (length buf) ->
  tx_takes txs (k + (length buf - Z.to_nat sent)) ->
  exists txs', send_loop quiet buf txs sent w =
    (SentAll, txs', w ++ slice buf sent (Z.of_nat (length buf) - sent)) /\ tx_takes txs' k.
Proof.
  revert sent w. induction txs as [|[n|e] txs IH]; intros sent w Hs Ht; cbn [send_loop].
  - simpl in Ht. rewrite (proj2 (Z.ltb_ge _ _)) by lia. exists [].
    rewrite slice_nil, app_nil_r by lia. simpl. split; [done|lia].
  - destruct (Z.ltb_spec sent (Z.of_nat (length buf))).
    2:{ eexists. rewrite slice_nil, app_nil_r by lia. split; [done|]. eapply tx_takes_le; [exact Ht|lia]. }
    set (j := Z.min (Z.of_nat n) (Z.of_nat (length buf) - sent)).
    destruct (IH (sent + j) (w ++ slice buf sent j)) as (txs' & -> & Ht'); [lia| |].
    + destruct n as [|n]; simpl in Ht; [subst j; by replace (sent + _) with sent by lia|].
      eapply tx_takes_le; [exact Ht|]. lia.
    + exists txs'. split; [|done]. rewrite <- app_assoc. do 2 f_equal.
      rewrite (slice_split buf sent (Z.of_nat (length buf) - sent) j) by lia. do 2 f_equal. lia.
  - simpl in Ht. destruct Ht as [-> Ht].
    destruct (Z.ltb_spec sent (Z.of_nat (length buf))).
    + simpl. by apply IH.
    + eexists. rewrite slice_nil, app_nil_r by lia. split; [done|]. simpl.
      split; [done|]. eapply tx_takes_le; [exact Ht|lia].
Qed.

Lemma sys_recv_ends want s :
  0 < want -> rx_ends (rx s) ->
  exists r s', sys_recv want s = Some (r, s') /\
    match r with
    | Received [] => rx_until (rx s) = []
    | Received bs => rx_ends (rx s') /\ rx_until (rx s) = bs ++ rx_until (rx s')
    | RecvError e => e = EINTR /\ rx_ends (rx s') /\ rx_until (rx s) = rx_until (rx s')
    end.
Proof.
  intros Hw. destruct s as [[|[[|b bs]|e] evs] txs w]; unfold sys_recv; simpl; [done| | |].
  - intros _. eexists _, _. split; [done|]. by rewrite take_nil.
  - intros He. eexists _, _. split; [done|].
    replace (Z.to_nat want) with (S (pred (Z.to_nat want))) by lia. simpl.
    destruct (drop (pred (Z.to_nat want)) bs) as [|c cs] eqn:E; simpl; (split; [done|]); f_equal.
    + rewrite <- (take_drop (pred (Z.to_nat want)) bs) at 1. by rewrite E, app_nil_r.
    + rewrite app_comm_cons, app_assoc, <- E. by rewrite take_drop.
  - intros [-> He]. eexists _, _. by split.
Qed.

Lemma nb_recv_spec want s :
  0 < want ->
  exists r s', nb_recv want s = (r, s') /\ tx s' = tx s /\ wire s' = wire s /\
    match r with
    | Received bs => rx_bytes (rx s) = bs ++ rx_bytes (rx s') /\ Z.of_nat (length bs) <= want
    | RecvError e => rx_bytes (rx s) = rx_bytes (rx s')
    end.
Proof.
  intros Hw. unfold nb_recv. destruct (sys_recv want s) as [[r s']|] eqn:E; [|by exists (RecvError EAGAIN), s].
  apply sys_recv_spec in E as (Htx & Hwire & _ & _ & Hr); [|done].
  exists r, s'. destruct r; by destruct Hr.
Qed.

Lemma nb_send_spec buf s :
  exists r s', nb_send true buf s = Ret (r, s') /\ rx s' = rx s /\
    match r with
    | SentBytes n => 0 <= n <= Z.of_nat (length buf) /\ wire s' = wire s ++ slice buf 0 n
    | SendError _ => wire s' = wire s
    end.
Proof.
  unfold nb_send. destruct (tx s) as [|[n|e] txs].
  - by exists (SendError EAGAIN), s.
  - eexists _, _. split; [done|]. split; [done|]. simpl. split; [lia|done].
  - rewrite andb_false_r. by eexists _, _.
Qed.

Lemma send_to_spec quiet s buf r s' :
  send_to quiet s buf = (r, s') ->
  rx s' = rx s /\ suffix (tx s') (tx s) /\
  (exists out, wire s' = wire s ++ out /\ out `prefix_of` buf /\ (r = SentAll -> out = buf)) /\
  match r with
  | SendFailed e => e <> EINTR /\ TxErr e ∈ tx s
  | SendKilled => quiet = false
  | _ => True
  end.
Proof.
  unfold send_to.
  destruct (send_loop _ _ _ _ _) as [[r0 txs] w] eqn:E. intros [= <- <-]. simpl.
  apply send_loop_spec in E as ((k & Hk & -> & Hend) & Hr & Hsuf); [|lia].
  split; [done|]. split; [done|]. split; [|done].
  exists (slice buf 0 k). unfold slice. rewrite drop_0. split; [done|]. split.
  - exists (drop (Z.to_nat k) buf). by rewrite take_drop.
  - intros ->. rewrite take_ge by lia. done.
Qed.

Lemma send_to_completes quiet s buf k :
  tx_takes (tx s) (k + length buf) ->
  exists txs, send_to quiet s buf = (SentAll, Sock (rx s) txs (wire s ++ buf)) /\ tx_takes txs k.
Proof.
  intros Ht. unfold send_to.
  destruct (send_loop_completes quiet buf (tx s) 0 (wire s) k) as (txs & -> & Ht');
    [lia|simpl; by rewrite Nat.sub_0_r|].
  exists txs. split; [|done]. rewrite Z.sub_0_r. unfold slice.
  by rewrite drop_0, Nat2Z.id, take_ge by lia.
Qed.

Lemma close_fd_in open fd : close_fd ({[fd]} ∪ open) fd = Ret (({[fd]} ∪ open) ∖ {[fd]}).
Proof. unfold close_fd. rewrite decide_True; [done|set_solver]. Qed.
