(* ===== verification/Utils.v ===== *)
(** * Socket utilities (src/src/utils.c)

    [listen_inet_socket], [make_socket_non_blocking] and [xmalloc], on the answers of
    the system calls they make, the two ways to end the process, the line that reports
    a peer, and the port argument the servers take. *)

From S2P Require Import Prelude CString.
Local Open Scope Z_scope.

(** [die] and [perror_die] print their message to stderr and end the process with
    [EXIT_FAILURE]: the [Exit] outcome. *)
Definition die {A} (fmt : string) : outcome A := Exit fmt.
Definition perror_die {A} (msg : string) : outcome A := Exit msg.

(** The line [report_peer_connected] prints; [name] is what [getnameinfo] answers, the
    host and the port, or a failure. *)
Definition report_peer_connected (name : option (list Z * list Z)) : list Z :=
  match name with
  | Some (hostbuf, portbuf) => lit "peer (" ++ hostbuf ++ lit ", " ++ portbuf ++ lit ") connected" ++ [10]
  | None => lit "peer (unknonwn) connected" ++ [10]
  end.

(** [xmalloc], on what [malloc] answers: memory with some contents, or NULL. *)
Definition xmalloc {A} (mem : option A) : outcome A :=
  match mem with Some a => Ret a | None => die "malloc failed" end.

(** What [socket], [setsockopt], [bind] and [listen] answer. *)
Record listen_answers := ListenAnswers {
  la_socket : Z; la_setsockopt : Z; la_bind : Z; la_listen : Z
}.

(** The descriptor, an [int], and the port it is bound to: [htons] keeps 16 bits. *)
Definition listen_inet_socket (portnum : Z) (a : listen_answers) : outcome (Z * Z) :=
  let sockfd := s32 (la_socket a) in
  if sockfd <? 0 then perror_die "ERROR opening socket"
  else if la_setsockopt a <? 0 then perror_die "setsockopt"
  else
    let sin_port := portnum mod 2 ^ 16 in
    if la_bind a <? 0 then perror_die "ERROR on binding"
    else if la_listen a <? 0 then perror_die "ERROR on listen"
    else Ret (sockfd, sin_port).

(** [make_socket_non_blocking]: the answers to F_GETFL and F_SETFL; the result is
    the argument of the latter. *)
Definition O_NONBLOCK : Z := 2048.

Definition make_socket_non_blocking (getfl : Z) (setfl : Z -> Z) : outcome Z :=
  if getfl =? -1 then perror_die "fcntl F_GETFL"
  else
    let flags := Z.lor getfl O_NONBLOCK in
    if setfl flags =? -1 then perror_die "fcntl F_SETFL O_NONBLOCK" else Ret flags.

(** [argv1] is [argv[1]] where there is one, [portnum] the port without it. *)
Definition port_argument (portnum : Z) (argv1 : option (list Z)) : Z :=
  match argv1 with Some text => atoi text | None => portnum end.

(** ** Lemmas *)

Lemma listen_spec portnum a sockfd port :
  listen_inet_socket portnum a = Ret (sockfd, port) -> 0 <= sockfd < 2 ^ 31 /\ port = portnum mod 2 ^ 16.
Proof.
  unfold listen_inet_socket. destruct (Z.ltb_spec (s32 (la_socket a)) 0); [done|].
  destruct (la_setsockopt a <? 0); [done|]. cbv zeta.
  destruct (la_bind a <? 0), (la_listen a <? 0); try done. intros [= <- <-]. split; [|done].
  unfold s32 in *. pose proof (Z.mod_pos_bound (la_socket a + 2 ^ 31) (2 ^ 32)). lia.
Qed.

Lemma listen_no_fault portnum a f : listen_inet_socket portnum a <> Fault f.
Proof. unfold listen_inet_socket. cbv zeta. by repeat destruct (_ <? _). Qed.

Lemma non_blocking_no_fault getfl setfl f : make_socket_non_blocking getfl setfl <> Fault f.
Proof. unfold make_socket_non_blocking. by repeat destruct (_ =? _). Qed.

(** The port a server listens on: the number its argument denotes, modulo 2^16. *)
Lemma port_argument_spec portnum argv1 :
  0 <= port_argument portnum argv1 mod 2 ^ 16 < 2 ^ 16 /\
  match argv1 with
  | None => port_argument portnum argv1 = portnum
  | Some text => forall v, numeral text v -> - 2 ^ 31 <= v < 2 ^ 31 -> port_argument portnum argv1 = v
  end.
Proof.
  split; [apply Z.mod_pos_bound; lia|]. destruct argv1 as [text|]; [|done]. intros v Hv Hrange.
  unfold port_argument, atoi. rewrite (strtol_numeral text v Hv) by (unfold LONG_MIN, LONG_MAX; lia).
  by apply s32_small.
Qed.
