(* ===== verification/Listeners.v ===== *)
(** * The two listeners (src/src/blocking_listener.c, src/src/nonblocking_listener.c)

    Each accepts one connection and receives until the peer shuts down. What can be
    observed of them is the lines their loops print, whether they have finished, and the
    descriptors they hold. The blocking one waits inside [recv]; the other polls: its
    loop is run for a number of iterations, and a connection that has nothing to
    deliver leaves it where it is, however many they are. *)

From S2P Require Import Prelude CString Posix Utils.
Local Open Scope Z_scope.

(** [uint8_t buf[1024]]. *)
Definition BUF_SIZE : Z := 1024.

(** [main] up to the connection: the two descriptors. [accept] is its answer. *)
Definition listener_open (argv1 : option (list Z)) (la : listen_answers) (accept : Z) : outcome (Z * Z) :=
  '(sockfd, _) ← listen_inet_socket (port_argument 9988 argv1) la;
  if accept <? 0 then Exit "ERROR on accept" else Ret (sockfd, accept).

(** The lines the loops print: "Calling recv...", "recv returned %d bytes" and
    "Peer disconnected; I'm done.". *)
Inductive line : Type := Calling | Returned (len : Z) | Disconnected.

(** The blocking loop; [buf] is what the uninitialised buffer holds, [log] the lines
    printed. [true]: the peer has shut down; [false]: waiting inside [recv]. *)
Fixpoint blocking_loop (fuel : nat) (s : sock) (buf : list Z) (log : list line) : outcome (bool * list line * sock) :=
  match fuel with
  | O => Fault NoReturn
  | S fuel' =>
      let log := log ++ [Calling] in
      match sys_recv BUF_SIZE s with
      | None => Ret (false, log, s)
      | Some (RecvError _, _) => Exit "recv"
      | Some (Received [], s) => Ret (true, log ++ [Disconnected], s)
      | Some (Received bs, s) =>
          buf ← buf_blit buf 0 bs;
          blocking_loop fuel' s buf (log ++ [Returned (Z.of_nat (length bs))])
      end
  end.

(** [n] iterations of the polling loop. *)
Fixpoint nonblocking_loop (n : nat) (s : sock) (buf : list Z) (log : list line) : outcome (bool * list line * sock) :=
  match n with
  | O => Ret (false, log, s)
  | S n' =>
      let log := log ++ [Calling] in
      match nb_recv BUF_SIZE s with
      | (RecvError errno, s) =>
          if (errno =? EAGAIN) || (errno =? EWOULDBLOCK) then nonblocking_loop n' s buf log else Exit "recv"
      | (Received [], s) => Ret (true, log ++ [Disconnected], s)
      | (Received bs, s) =>
          buf ← buf_blit buf 0 bs;
          nonblocking_loop n' s buf (log ++ [Returned (Z.of_nat (length bs))])
      end
  end.

(** After the loop both descriptors are closed. *)
Definition listener_close (sockfd newsockfd : Z) (r : bool * list line * sock) :
    outcome (bool * list line * sock * gset Z) :=
  let '(finished, log, s) := r in
  let open : gset Z := {[newsockfd; sockfd]} in
  if finished : bool then
    open ← close_fd open newsockfd;
    open ← close_fd open sockfd;
    Ret (true, log, s, open)
  else Ret (false, log, s, open).

Definition blocking_listener (argv1 : option (list Z)) (la : listen_answers) (accept : Z) (s : sock) (buf : list Z) :
    outcome (bool * list line * sock * gset Z) :=
  '(sockfd, newsockfd) ← listener_open argv1 la accept;
  r ← blocking_loop (S (rx_size (rx s))) s buf [];
  listener_close sockfd newsockfd r.

(** The non-blocking one has the two [fcntl]s of [make_socket_non_blocking] in its
    [main]. *)
Definition nonblocking_listener (n : nat) (argv1 : option (list Z)) (la : listen_answers) (accept : Z) (getfl : Z)
    (setfl : Z -> Z) (s : sock) (buf : list Z) : outcome (bool * list line * sock * gset Z) :=
  '(sockfd, newsockfd) ← listener_open argv1 la accept;
  _ ← make_socket_non_blocking getfl setfl;
  r ← nonblocking_loop n s buf [];
  listener_close sockfd newsockfd r.

(** ** The connection as a blocking socket would deliver it *)

Definition retried (ev : rx_event) : bool :=
  match ev with RxErr e => (e =? EAGAIN) || (e =? EWOULDBLOCK) | RxData _ => false end.

Definition drained (s : sock) : sock := Sock (List.filter (fun ev => negb (retried ev)) (rx s)) (tx s) (wire s).

(** ** What is printed *)

(** The lengths among the lines. *)
Definition length_of (l : line) : option Z := match l with Returned len => Some len | _ => None end.

Definition lengths (log : list line) : list Z := omap length_of log.

(** The lines with every run of "Calling recv..." made one. *)
Fixpoint collapse (log : list line) : list line :=
  match log with
  | [] => []
  | Calling :: ((Calling :: _) as log') => collapse log'
  | l :: log' => l :: collapse log'
  end.

Lemma lengths_app log1 log2 : lengths (log1 ++ log2) = lengths log1 ++ lengths log2.
Proof. apply omap_app. Qed.

Lemma collapse_app log l log' :
  l <> Calling -> collapse (log ++ l :: log') = collapse log ++ l :: collapse log'.
Proof.
  intros Hl. induction log as [|x log IH]; [by destruct l|]. destruct x; [|by simpl; rewrite <- IH..].
  destruct log as [|[] log]; [by destruct l|exact IH| |]; simpl in *; by f_equal.
Qed.

Lemma collapse_calls log n :
  collapse (log ++ Calling :: replicate n Calling) = collapse (log ++ [Calling]).
Proof.
  induction log as [|x log IH].
  - induction n as [|n IH]; [done|exact IH].
  - destruct x; [|by simpl; rewrite <- IH..]. destruct log as [|[] log]; [exact IH|exact IH| |]; simpl in *; by f_equal.
Qed.

(** [log2] is [log1] with the repeated calls made one, up to a call that follows. *)
Definition same_so_far (log1 log2 : list line) : Prop := collapse (log1 ++ [Calling]) = log2 ++ [Calling].

Lemma same_so_far_vain log1 log2 : same_so_far log1 log2 -> same_so_far (log1 ++ [Calling]) log2.
Proof. unfold same_so_far. intros <-. rewrite <- app_assoc. apply (collapse_calls log1 1). Qed.

Lemma same_so_far_said log1 log2 l :
  l <> Calling -> same_so_far log1 log2 ->
  collapse ((log1 ++ [Calling]) ++ [l]) = (log2 ++ [Calling]) ++ [l] /\
  same_so_far ((log1 ++ [Calling]) ++ [l]) ((log2 ++ [Calling]) ++ [l]).
Proof.
  unfold same_so_far. intros Hl <-. split; [by rewrite collapse_app|].
  rewrite <- (app_assoc _ [l] [Calling]). cbn [app]. rewrite collapse_app by done. by rewrite <- app_assoc.
Qed.

(** What one [recv] takes: nothing to take, a failed call, or some bytes. *)
Lemma blocking_loop_spec fuel : forall s buf log,
  length buf = 1024%nat -> (rx_size (rx s) < fuel)%nat ->
  match blocking_loop fuel s buf log with
  | Ret (finished, log', s') =>
      exists bs new, rx_bytes (rx s) = bs ++ rx_bytes (rx s') /\ log' = log ++ new /\
        Forall (fun l => 1 <= l <= BUF_SIZE) (lengths new) /\ foldr Z.add 0 (lengths new) = Z.of_nat (length bs) /\
        last log' = Some (if finished then Disconnected else Calling) /\
        (finished = false -> rx s' = [])
  | Exit msg => msg = "recv"%string /\ exists e, RxErr e ∈ rx s
  | Fault _ => False
  end.
Proof.
  induction fuel as [|fuel IH]; intros s buf log Hbuf Hfuel; [lia|]. cbn [blocking_loop]. cbv zeta.
  destruct (sys_recv BUF_SIZE s) as [[r s1]|] eqn:Er.
  2: { exists [], [Calling]. repeat (split; [done|]). split; [by rewrite last_snoc|]. intros _.
       unfold sys_recv in Er. by destruct (rx s) as [|[]]. }
  apply sys_recv_spec in Er as (_ & _ & Hsize & Herr & Hr); [|done]. destruct r as [bs|e].
  2: { split; [done|]. exists e. by destruct Hr. }
  destruct Hr as [Hb Hn]. destruct bs as [|b bs].
  { exists [], [Calling; Disconnected]. rewrite <- app_assoc. repeat (split; [done|]).
    by rewrite last_app. }
  set (data := b :: bs) in *. assert (1 <= Z.of_nat (length data)) by (simpl; lia). clearbody data.
  change BUF_SIZE with 1024 in *. rewrite buf_blit_ok, outcome_ret_bind by lia.
  specialize (IH s1 (take (Z.to_nat 0) buf ++ data ++ drop (Z.to_nat 0 + length data) buf)
    ((log ++ [Calling]) ++ [Returned (Z.of_nat (length data))])).
  destruct (blocking_loop fuel s1 _ _) as [[[fin log'] s']|msg|f].
  - destruct IH as (bs' & new & H1 & H2 & H3 & H4 & H5); [rewrite !length_app, length_take, length_drop; lia|lia|].
    exists (data ++ bs'), (Calling :: Returned (Z.of_nat (length data)) :: new). split; [by rewrite Hb, H1, app_assoc|].
    split; [by rewrite H2, <- !app_assoc|]. split; [constructor; [lia|done]|]. split; [|done].
    change (lengths (_ :: _ :: new)) with (Z.of_nat (length data) :: lengths new).
    cbn [foldr]. rewrite H4, length_app. lia.
  - destruct IH as (-> & e & He); [rewrite !length_app, length_take, length_drop; lia|lia|].
    split; [done|]. exists e. by apply Herr.
  - apply IH; [rewrite !length_app, length_take, length_drop; lia|lia].
Qed.

(** ** The two loops agree *)

(** The same lines once the repeated calls are made one, the same end, and what is left
    of the connection the same but for the calls that are to be repeated. *)
Definition agree (r1 r2 : outcome (bool * list line * sock)) : Prop :=
  match r1, r2 with
  | Ret (finished1, log1, s1), Ret (finished2, log2, s2) =>
      finished1 = finished2 /\ collapse log1 = log2 /\ drained s1 = s2
  | Exit msg1, Exit msg2 => msg1 = msg2
  | _, _ => False
  end.

(** Polling a connection that has nothing to deliver: a call, and a line, an iteration. *)
Lemma nonblocking_loop_idle n : forall s buf log,
  rx s = [] -> nonblocking_loop n s buf log = Ret (false, log ++ replicate n Calling, s).
Proof.
  induction n as [|n IH]; intros s buf log Hs; [by rewrite app_nil_r|]. cbn [nonblocking_loop]. unfold nb_recv, sys_recv.
  rewrite Hs. cbn. by rewrite IH, <- app_assoc.
Qed.

(** [recv] of data that is there, on either kind of socket. *)
Lemma drained_data bs evs t w :
  exists got s1, sys_recv BUF_SIZE (Sock (RxData bs :: evs) t w) = Some (Received got, s1) /\
    sys_recv BUF_SIZE (drained (Sock (RxData bs :: evs) t w)) = Some (Received got, drained s1).
Proof. unfold drained, sys_recv. simpl. by destruct (drop _ bs); eexists _, _. Qed.

Lemma nonblocking_loop_agrees n : forall s buf log1 log2 fuel,
  length buf = 1024%nat -> (rx_size (rx s) < n)%nat -> (rx_size (rx (drained s)) < fuel)%nat ->
  same_so_far log1 log2 ->
  agree (nonblocking_loop n s buf log1) (blocking_loop fuel (drained s) buf log2).
Proof.
  induction n as [|n IH]; intros s buf log1 log2 fuel Hbuf Hn Hfuel Hlog; [lia|]. destruct fuel as [|fuel]; [lia|].
  destruct s as [[|[bs|e] evs] t w].
  - rewrite nonblocking_loop_idle by done. cbn. by rewrite collapse_calls.
  - cbn [nonblocking_loop blocking_loop]. cbv zeta. unfold nb_recv.
    destruct (drained_data bs evs t w) as (got & s1 & Er & Ed). rewrite Er, Ed.
    apply sys_recv_spec in Er as (_ & _ & H1 & _ & _ & Hl); [|done].
    apply sys_recv_spec in Ed as (_ & _ & H2 & _); [|done].
    destruct got as [|b data]; [split; [done|]; split; [by apply same_so_far_said|done]|].
    change BUF_SIZE with 1024 in Hl.
    set (d := b :: data) in *. rewrite buf_blit_ok, !outcome_ret_bind by lia.
    apply IH; [rewrite !length_app, length_take, length_drop; lia|lia|lia|by apply same_so_far_said].
  - cbn [nonblocking_loop]. cbv zeta. unfold nb_recv, sys_recv. cbn [rx].
    destruct ((e =? EAGAIN) || (e =? EWOULDBLOCK)) eqn:He.
    + assert (drained (Sock (RxErr e :: evs) t w) = drained (Sock evs t w)) as Hd.
      { unfold drained. cbn [rx tx wire List.filter retried]. by rewrite He. }
      rewrite Hd in *. change (rx_size (rx (Sock (RxErr e :: evs) t w))) with (S (rx_size evs)) in Hn.
      apply (IH (Sock evs t w)); [done|simpl; lia|done|by apply same_so_far_vain].
    + cbn [blocking_loop]. unfold drained, sys_recv. cbn [rx List.filter retried]. by rewrite He.
Qed.

Lemma listener_close_spec sockfd newsockfd (finished : bool) log s :
  sockfd <> newsockfd ->
  listener_close sockfd newsockfd (finished, log, s) =
    Ret (finished, log, s, if finished then ∅ else {[newsockfd; sockfd]}).
Proof.
  intros Hne. unfold listener_close. destruct finished; [|done]. rewrite close_fd_in, outcome_ret_bind.
  rewrite open_close by set_solver. unfold close_fd. rewrite decide_True, outcome_ret_bind by set_solver.
  by rewrite difference_diag_L.
Qed.

(** ** Theorem *)

(** C33 [listeners_agree]: polling changes nothing but the waiting. Given that the socket
    could be made non-blocking, on every connection, once it has run for more
    iterations than the connection has events, the non-blocking listener has ended the
    way the blocking one does on the same connection without the calls that found
    nothing: both have failed with the same message, or both have finished, or both
    are calling [recv]. If they have not failed, it has printed the lines the blocking
    one prints, but that "Calling recv..." is repeated for the calls that found
    nothing: with each run of that line made one the outputs are equal. The lengths
    printed are from 1 to 1024 and add up to the bytes received; the last line says
    that the peer has disconnected exactly if the listener has finished; neither
    overruns its buffer; and a listener that has finished holds no descriptor. *)
Theorem listeners_agree n argv1 la accept getfl setfl s buf :
  length buf = 1024%nat -> (rx_size (rx s) < n)%nat -> (exists flags, make_socket_non_blocking getfl setfl = Ret flags) ->
  s32 (la_socket la) <> accept ->
  match nonblocking_listener n argv1 la accept getfl setfl s buf, blocking_listener argv1 la accept (drained s) buf with
  | Ret (finished, log, s1, open), Ret (finished', log', s2, open') =>
      finished = finished' /\ collapse log = log' /\ drained s1 = s2 /\ open = open' /\
      Forall (fun l => 1 <= l <= 1024) (lengths log') /\
      (exists bs, rx_bytes (rx (drained s)) = bs ++ rx_bytes (rx s2) /\
         foldr Z.add 0 (lengths log') = Z.of_nat (length bs)) /\
      last log' = Some (if finished then Disconnected else Calling) /\
      (if finished : bool then open = ∅ else rx s2 = [] /\ open = {[accept; s32 (la_socket la)]})
  | Exit msg, Exit msg' => msg = msg'
  | _, _ => False
  end.
Proof.
  intros Hbuf Hn [flags Hflags] Hne. unfold nonblocking_listener, blocking_listener.
  destruct (listener_open argv1 la accept) as [[sockfd newsockfd]|msg|f] eqn:Eo; [|done|].
  2: { unfold listener_open in Eo. destruct (listen_inet_socket _ la) as [[]| |] eqn:El; simpl in Eo; try done.
       - by destruct (accept <? 0).
       - by apply listen_no_fault in El. }
  assert (sockfd = s32 (la_socket la) /\ newsockfd = accept) as [-> ->].
  { unfold listener_open in Eo. apply outcome_bind_inv in Eo as ([fd port] & El & Eo).
    destruct (accept <? 0); [done|]. injection Eo as <- <-. split; [|done]. unfold listen_inet_socket in El.
    by destruct (s32 (la_socket la) <? 0), (la_setsockopt la <? 0), (la_bind la <? 0), (la_listen la <? 0);
      try done; injection El as <- <-. }
  rewrite !outcome_ret_bind.
  rewrite Hflags, outcome_ret_bind.
  pose proof (nonblocking_loop_agrees n s buf [] [] (S (rx_size (rx (drained s)))) Hbuf Hn ltac:(lia) eq_refl) as Ha.
  pose proof (blocking_loop_spec (S (rx_size (rx (drained s)))) (drained s) buf [] Hbuf ltac:(lia)) as Hb.
  destruct (nonblocking_loop n s buf []) as [[[f1 l1] s1]| |], (blocking_loop _ (drained s) buf []) as [[[f2 l2] s2]| |];
    cbn in Ha; try done. destruct Ha as (<- & <- & <-). rewrite !outcome_ret_bind.
  rewrite !listener_close_spec by done. destruct Hb as (bs & new & H1 & H0 & H2 & H3 & H4 & H5).
  rewrite app_nil_l in H0. rewrite <- H0 in H2, H3. repeat (split; [done|]). split; [by exists bs|].
  split; [done|]. destruct f1; [done|]. split; [by apply H5|done].
Qed.

(** A connection that is polled twice in vain, delivers 1500 bytes and shuts down. *)
Definition demo_connection : sock :=
  Sock [RxErr EAGAIN; RxData (replicate 1500 97); RxErr EWOULDBLOCK; RxData []] [] [].

Lemma listeners_agree_witness :
  exists s1 s2,
    nonblocking_listener 2000 None (ListenAnswers 3 0 0 0) 4 2 (fun _ => 0) demo_connection (replicate 1024 0)
      = Ret (true, [Calling; Calling; Returned 1024; Calling; Returned 476; Calling; Calling; Disconnected], s1, ∅) /\
    blocking_listener None (ListenAnswers 3 0 0 0) 4 (drained demo_connection) (replicate 1024 0)
      = Ret (true, [Calling; Returned 1024; Calling; Returned 476; Calling; Disconnected], s2, ∅) /\ drained s1 = s2.
Proof.
  pose proof (listeners_agree 2000 None (ListenAnswers 3 0 0 0) 4 2 (fun _ => 0) demo_connection (replicate 1024 0)
    eq_refl) as H.
  assert (nonblocking_listener 2000 None (ListenAnswers 3 0 0 0) 4 2 (fun _ => 0) demo_connection (replicate 1024 0)
    = Ret (true, [Calling; Calling; Returned 1024; Calling; Returned 476; Calling; Calling; Disconnected],
        Sock [] [] [], ∅)) as E by (vm_compute; reflexivity).
  rewrite E in H. exists (Sock [] [] []).
  destruct (blocking_listener None (ListenAnswers 3 0 0 0) 4 (drained demo_connection) (replicate 1024 0))
    as [[[[fin log] s2] open]|msg|f].
  - exists s2. destruct H as (<- & <- & H1 & <- & _); [vm_compute; lia|by eexists|discriminate|].
    split; [exact E|]. split; [reflexivity|exact H1].
  - destruct H; [vm_compute; lia|by eexists|discriminate].
  - destruct H; [vm_compute; lia|by eexists|discriminate].
Defined.
