(* ===== verification/Metrics.v ===== *)
(** * The metric registry (src/src/metrics.c)

    - [registry]: the process-wide [static struct g]; [cell] names its atomic
      fields, [atomic] the two atomic accesses the mutators perform on them;
    - every mutator ([metrics_connection_accepted], ...) is the list of atomic
      accesses it performs, so that two threads interleave between them;
    - [set_model]/[metrics_init]: the label of every series and the reset;
    - [bucket_index]: the histogram bucket of a duration.

    The rendering is in MetricsRender.v. *)

From S2P Require Import Prelude CString.
Local Open Scope Z_scope.

(** ** Constants *)

Definition BUCKET_COUNT : Z := 10.
Definition MODEL_MAX : Z := 32.

Definition k_bucket_upper_ns : list Z :=
  [20000; 50000; 100000; 250000; 500000;
   1000000; 2500000; 5000000; 10000000; 50000000].

Definition k_bucket_le : list (list Z) :=
  lit <$> ["0.00002"; "0.00005"; "0.0001"; "0.00025"; "0.0005";
           "0.001"; "0.0025"; "0.005"; "0.01"; "0.05"]%string.

(** ** The registry *)

Record registry := Registry {
  model : list Z;            (* char model[MODEL_MAX] *)
  accepted : Z;
  refused : Z;
  active : Z;
  workers_busy : Z;
  queue_depth : Z;
  latency_count : list Z;    (* BUCKET_COUNT + 1 entries *)
  latency_sum_ns : Z
}.

(** Static storage: all bytes zero. *)
Definition registry_zero : registry :=
  Registry (replicate 32 0) 0 0 0 0 0 (replicate 11 0) 0.

Inductive cell :=
| Accepted | Refused | Active | WorkersBusy | QueueDepth
| LatencyCount (i : nat) | LatencySumNs.

#[export] Instance cell_eq_dec : EqDecision cell.
Proof. solve_decision. Defined.

Definition cell_get (g : registry) (c : cell) : Z :=
  match c with
  | Accepted => accepted g
  | Refused => refused g
  | Active => active g
  | WorkersBusy => workers_busy g
  | QueueDepth => queue_depth g
  | LatencyCount i => latency_count g !!! i
  | LatencySumNs => latency_sum_ns g
  end.

Definition cell_set (g : registry) (c : cell) (v : Z) : registry :=
  let 'Registry m a r ac w q lc ls := g in
  match c with
  | Accepted => Registry m v r ac w q lc ls
  | Refused => Registry m a v ac w q lc ls
  | Active => Registry m a r v w q lc ls
  | WorkersBusy => Registry m a r ac v q lc ls
  | QueueDepth => Registry m a r ac w v lc ls
  | LatencyCount i => Registry m a r ac w q (<[i := v]> lc) ls
  | LatencySumNs => Registry m a r ac w q lc v
  end.

(** [active] and [workers_busy] are [atomic_int_fast64_t], the rest unsigned. *)
Definition cell_wrap (c : cell) (v : Z) : Z :=
  match c with
  | Active | WorkersBusy => s64 v
  | _ => u64 v
  end.

(** [atomic_store_explicit] and [atomic_fetch_add_explicit] (a [fetch_sub] of 1
    is a [fetch_add] of -1 in wrap-around arithmetic). *)
Inductive atomic :=
| AStore (c : cell) (v : Z)
| AAdd (c : cell) (v : Z).

Definition exec (g : registry) (a : atomic) : registry :=
  match a with
  | AStore c v => cell_set g c (cell_wrap c v)
  | AAdd c v => cell_set g c (cell_wrap c (cell_get g c + v))
  end.

Definition run (g : registry) (l : list atomic) : registry := fold_left exec l g.

(** ** The label *)

Definition is_label_char (c : Z) : bool :=
  ((97 <=? c) && (c <=? 122)) || ((65 <=? c) && (c <=? 90)) ||
  ((48 <=? c) && (c <=? 57)) || (c =? 95) || (c =? 45).

Definition model_label (m : list Z) : list Z :=
  match m with
  | c :: _ => if negb (c =? 0) then cstr m else lit "unknown"
  | [] => lit "unknown"
  end.

(** The [while] of [set_model]: how many leading characters of the argument are
    taken, 0 as soon as one of them is not a label character. *)
Fixpoint label_scan (s : list Z) (n : Z) : Z :=
  match s with
  | [] => n
  | c :: s' =>
      if negb (c =? 0) && (n + 1 <? MODEL_MAX) then
        if negb (is_label_char c) then 0 else label_scan s' (n + 1)
      else n
  end.

Definition with_model (g : registry) (m : list Z) : registry :=
  Registry m (accepted g) (refused g) (active g) (workers_busy g) (queue_depth g)
    (latency_count g) (latency_sum_ns g).

Definition set_model (g : registry) (name : option (list Z)) : outcome registry :=
  let n := match name with Some s => label_scan s 0 | None => 0 end in
  if n =? 0 then
    m ← buf_blit (model g) 0 (lit "unknown" ++ [0]);
    Ret (with_model g m)
  else
    m ← buf_blit (model g) 0 (slice (default [] name) 0 n);
    m ← buf_set m n 0;
    Ret (with_model g m).

Definition metrics_init (g : registry) (name : option (list Z)) : outcome registry :=
  g ← set_model g name;
  Ret (run g (
    [AStore Accepted 0; AStore Refused 0; AStore Active 0; AStore WorkersBusy 0;
     AStore QueueDepth 0; AStore LatencySumNs 0] ++
    ((fun i => AStore (LatencyCount i) 0) <$> seq 0 (Z.to_nat BUCKET_COUNT + 1)))).

(** ** The clock

    [clock_gettime] answers with seconds and nanoseconds, or fails. *)
Definition metrics_now_ns (ts : option (Z * Z)) : Z :=
  match ts with
  | None => 0
  | Some (sec, nsec) => u64 (u64 (u64 sec * 1000000000) + u64 nsec)
  end.

(** ** Mutators *)

Definition metrics_connection_accepted : list atomic := [AAdd Accepted 1; AAdd Active 1].
Definition metrics_connection_refused : list atomic := [AAdd Refused 1].
Definition metrics_connection_closed : list atomic := [AAdd Active (-1)].

Fixpoint bucket_scan (uppers : list Z) (i : nat) (duration_ns : Z) : nat :=
  match uppers with
  | [] => Z.to_nat BUCKET_COUNT
  | u :: us => if duration_ns <=? u then i else bucket_scan us (S i) duration_ns
  end.

Definition bucket_index (duration_ns : Z) : nat := bucket_scan k_bucket_upper_ns 0 duration_ns.

Definition metrics_request_observed (duration_ns : Z) : list atomic :=
  [AAdd (LatencyCount (bucket_index duration_ns)) 1; AAdd LatencySumNs duration_ns].

Definition metrics_queue_depth_set (depth : Z) : list atomic := [AStore QueueDepth depth].
Definition metrics_workers_busy_add (delta : Z) : list atomic := [AAdd WorkersBusy delta].

(** ** Calls from several threads *)

Inductive call :=
| CAccepted | CRefused | CClosed
| CObserved (duration_ns : Z)
| CBusy (delta : Z)
| CDepth (depth : Z).

#[export] Instance call_eq_dec : EqDecision call.
Proof. solve_decision. Defined.

Definition call_ops (k : call) : list atomic :=
  match k with
  | CAccepted => metrics_connection_accepted
  | CRefused => metrics_connection_refused
  | CClosed => metrics_connection_closed
  | CObserved d => metrics_request_observed d
  | CBusy d => metrics_workers_busy_add d
  | CDepth d => metrics_queue_depth_set d
  end.

(** What a call adds to a cell; the queue depth is stored, not added to. *)
Definition call_delta (c : cell) (k : call) : Z :=
  match c, k with
  | Accepted, CAccepted => 1
  | Refused, CRefused => 1
  | Active, CAccepted => 1
  | Active, CClosed => -1
  | WorkersBusy, CBusy d => d
  | LatencyCount i, CObserved d => if decide (bucket_index d = i) then 1 else 0
  | LatencySumNs, CObserved d => d
  | _, _ => 0
  end.

Definition zsum (l : list Z) : Z := foldr Z.add 0 l.

(** The label [set_model] is meant to choose. *)
Definition sanitize (name : option (list Z)) : list Z :=
  match name with
  | Some s =>
      let t := take 31 (cstr s) in
      match t with
      | [] => lit "unknown"
      | _ => if forallb is_label_char t then t else lit "unknown"
      end
  | None => lit "unknown"
  end.

(** ** Well-formed registries *)

Definition cell_valid (c : cell) : Prop :=
  match c with LatencyCount i => (i <= 10)%nat | _ => True end.

(** A NUL-terminated, non-empty label of label characters, or the zeroes the
    buffer starts with. *)
Definition model_ok (m : list Z) : Prop :=
  length m = 32%nat /\
  (m = replicate 32 0 \/
   exists s rest, m = s ++ 0 :: rest /\ s <> [] /\ Forall (fun c => is_label_char c = true) s).

Definition registry_ok (g : registry) : Prop :=
  model_ok (model g) /\ length (latency_count g) = 11%nat /\
  forall c, cell_valid c -> cell_wrap c (cell_get g c) = cell_get g c.

Definition atomic_cell (a : atomic) : cell := match a with AStore c _ | AAdd c _ => c end.

Definition delta (c : cell) (a : atomic) : Z :=
  match a with AAdd c' v => if decide (c' = c) then v else 0 | AStore _ _ => 0 end.

(** Only the queue depth is stored to. *)
Definition no_store (a : atomic) : Prop := match a with AStore c _ => c = QueueDepth | AAdd c _ => c <> QueueDepth end.

(** The queue depth an operation stores. *)
Definition depth_of (a : atomic) : option Z := match a with AStore QueueDepth v => Some v | _ => None end.

(** ** Lemmas on cells and traces *)

Lemma zsum_app l1 l2 : zsum (l1 ++ l2) = zsum l1 + zsum l2.
Proof. induction l1 as [|x l1 IH]; simpl; lia. Qed.

Lemma zsum_cons x l : zsum (x :: l) = x + zsum l.
Proof. done. Qed.

Lemma zsum_fmap_insert {A} (f : A -> Z) (l : list A) i a b :
  l !! i = Some a -> zsum (f <$> <[i := b]> l) = zsum (f <$> l) - f a + f b.
Proof. revert i. induction l as [|x l IH]; intros [|i] Hi; simplify_eq/=; [lia|]. rewrite (IH i Hi). lia. Qed.

#[export] Instance zsum_perm : Proper ((≡ₚ) ==> (=)) zsum.
Proof. induction 1; simpl in *; lia. Qed.

Lemma cell_wrap_add c a b : cell_wrap c (cell_wrap c a + b) = cell_wrap c (a + b).
Proof.
  unfold cell_wrap. destruct c; try apply u64_add_l; unfold s64;
    (replace ((a + 2 ^ 63) mod 2 ^ 64 - 2 ^ 63 + b + 2 ^ 63)
       with ((a + 2 ^ 63) mod 2 ^ 64 + b) by lia;
     rewrite Zplus_mod_idemp_l; do 2 f_equal; lia).
Qed.

Lemma cell_wrap_idemp c a : cell_wrap c (cell_wrap c a) = cell_wrap c a.
Proof. pose proof (cell_wrap_add c a 0) as H. by rewrite !Z.add_0_r in H. Qed.

Section Cells.
Context (g : registry) (Hlen : length (latency_count g) = 11%nat).

Lemma cell_get_set c c' v :
  cell_valid c ->
  cell_get (cell_set g c v) c' = if decide (c = c') then v else cell_get g c'.
Proof.
  intros Hc. destruct g, c, c'; simpl in *; try case_decide; simplify_eq; try done.
  - apply list_lookup_total_insert_eq. lia.
  - apply list_lookup_total_insert_ne. congruence.
Qed.

Lemma cell_set_shape c v : length (latency_count (cell_set g c v)) = 11%nat.
Proof. destruct g, c; simpl in *; try done. by rewrite length_insert. Qed.

Lemma exec_shape a : length (latency_count (exec g a)) = 11%nat.
Proof. destruct a; apply cell_set_shape. Qed.
End Cells.

Lemma exec_model g a : model (exec g a) = model g.
Proof. destruct g, a as [c v|c v]; by destruct c. Qed.

Lemma run_app g l1 l2 : run g (l1 ++ l2) = run (run g l1) l2.
Proof. apply fold_left_app. Qed.

Lemma run_model g l : model (run g l) = model g.
Proof.
  revert g. induction l as [|a l IH]; intros g; [done|].
  simpl. by rewrite IH, exec_model.
Qed.

Lemma run_shape g l :
  length (latency_count g) = 11%nat -> length (latency_count (run g l)) = 11%nat.
Proof. revert g. induction l as [|a l IH]; intros g Hg; [done|]. simpl. by apply IH, exec_shape. Qed.

(** The value of a cell after a trace that only adds to it, whatever the order. *)
Lemma run_adds g l c :
  length (latency_count g) = 11%nat ->
  cell_wrap c (cell_get g c) = cell_get g c ->
  Forall (fun a => cell_valid (atomic_cell a)) l -> Forall no_store l -> c <> QueueDepth ->
  cell_get (run g l) c = cell_wrap c (cell_get g c + zsum (delta c <$> l)).
Proof.
  intros Hlen Hwrap Hval Hst Hq. revert g Hlen Hwrap.
  induction l as [|a l IH]; intros g Hlen Hwrap; [simpl; by rewrite Z.add_0_r|].
  apply Forall_cons in Hval as [Ha Hval]. apply Forall_cons in Hst as [Hna Hst].
  rewrite fmap_cons, zsum_cons. destruct a as [c' v|c' v]; simpl run; simpl in Ha, Hna.
  { subst c'. assert (cell_get (cell_set g QueueDepth (cell_wrap QueueDepth v)) c = cell_get g c) as Hget.
    { rewrite cell_get_set by done. by case_decide. }
    rewrite IH; [by rewrite Hget|done|done|by apply cell_set_shape|by rewrite Hget]. }
  assert (cell_get (cell_set g c' (cell_wrap c' (cell_get g c' + v))) c =
          cell_wrap c (cell_get g c + delta c (AAdd c' v))) as Hget.
  { rewrite cell_get_set by done. simpl. case_decide as Hc; subst; [done|]. by rewrite Z.add_0_r. }
  rewrite IH; [|done|done|by apply cell_set_shape|rewrite Hget; apply cell_wrap_idemp].
  rewrite Hget, cell_wrap_add. f_equal. lia.
Qed.

(** The queue depth is the one stored last. *)
Lemma run_depth g l :
  length (latency_count g) = 11%nat -> u64 (queue_depth g) = queue_depth g ->
  Forall (fun a => cell_valid (atomic_cell a)) l -> Forall no_store l ->
  queue_depth (run g l) = match last (omap depth_of l) with Some d => u64 d | None => queue_depth g end.
Proof.
  intros Hlen Hwrap Hval Hst. induction l as [|a l IH] using rev_ind; [done|].
  apply Forall_app in Hval as [Hval Ha%Forall_inv]. apply Forall_app in Hst as [Hst Hna%Forall_inv].
  rewrite run_app, omap_app. specialize (IH Hval Hst). pose proof (run_shape g l Hlen) as Hl.
  change (queue_depth (run (run g l) [a])) with (cell_get (exec (run g l) a) QueueDepth).
  destruct a as [c v|c v]; simpl in Ha, Hna; unfold exec; rewrite cell_get_set by done.
  - subst c. cbn. by rewrite last_snoc.
  - cbn. rewrite app_nil_r, <- IH. by case_decide.
Qed.

Lemma run_ok g l :
  registry_ok g -> Forall (fun a => cell_valid (atomic_cell a)) l -> registry_ok (run g l).
Proof.
  intros (Hm & Hlen & Hw) Hval. split; [by rewrite run_model|].
  split; [by apply run_shape|].
  revert g Hm Hlen Hw. induction l as [|a l IH]; intros g Hm Hlen Hw; [done|].
  apply Forall_cons in Hval as [Ha Hval]. simpl.
  apply (IH Hval); [by rewrite exec_model|by apply exec_shape|].
  intros c Hc. destruct a as [c' v|c' v]; simpl in *; rewrite cell_get_set by done;
    (case_decide; [subst; apply cell_wrap_idemp|by apply Hw]).
Qed.

(** ** Buckets *)

Lemma bucket_scan_range us i d :
  (i + length us = 10)%nat -> (bucket_scan us i d <= 10)%nat.
Proof.
  revert i. induction us as [|u us IH]; intros i Hi; simpl in *; [unfold BUCKET_COUNT; lia|].
  destruct (d <=? u); [lia|]. apply IH. lia.
Qed.

Lemma bucket_index_range d : (bucket_index d <= 10)%nat.
Proof. by apply bucket_scan_range. Qed.

(** Inclusive upper bounds: a duration is in one of the buckets up to [i] exactly
    when it does not exceed the bound of [i]. *)
Lemma bucket_index_le d i :
  (i < 10)%nat -> (bucket_index d <= i)%nat <-> d <= k_bucket_upper_ns !!! i.
Proof.
  intros Hi. unfold bucket_index, k_bucket_upper_ns.
  do 10 (destruct i as [|i];
    [simpl; repeat (case_match; bool_prop; try lia); unfold BUCKET_COUNT; lia|]). lia.
Qed.

(** ** Calls *)

Lemma call_ops_ok k :
  Forall (fun a => cell_valid (atomic_cell a)) (call_ops k) /\ Forall no_store (call_ops k).
Proof.
  split; [|by destruct k; repeat constructor; simpl].
  destruct k; repeat (apply Forall_cons_2); try done. apply bucket_index_range.
Qed.

Lemma call_ops_delta c k : zsum (delta c <$> call_ops k) = call_delta c k.
Proof.
  destruct c, k; simpl; repeat case_decide; simplify_eq; try lia; try congruence.
Qed.

Lemma calls_delta c ks :
  zsum (delta c <$> concat (call_ops <$> ks)) = zsum (call_delta c <$> ks).
Proof.
  induction ks as [|k ks IH]; [done|]. rewrite !fmap_cons. cbn [concat].
  by rewrite fmap_app, zsum_app, IH, call_ops_delta.
Qed.

Lemma threads_ops_concat (ths : list (list call)) :
  concat ((fun ks => concat (call_ops <$> ks)) <$> ths) = concat (call_ops <$> concat ths).
Proof.
  induction ths as [|ks ths IH]; [done|]. rewrite fmap_cons. cbn [concat].
  by rewrite IH, fmap_app, concat_app.
Qed.

Lemma calls_ok ks :
  Forall (fun a => cell_valid (atomic_cell a)) (concat (call_ops <$> ks)) /\
  Forall no_store (concat (call_ops <$> ks)).
Proof.
  induction ks as [|k ks [IH1 IH2]]; [done|]. rewrite fmap_cons. cbn [concat].
  destruct (call_ops_ok k). by rewrite !Forall_app.
Qed.

(** The depths that are stored are those of the calls. *)
Lemma calls_depths d ks : d ∈ omap depth_of (concat (call_ops <$> ks)) <-> CDepth d ∈ ks.
Proof.
  induction ks as [|k ks IH]; [set_solver|]. rewrite fmap_cons. cbn [concat]. rewrite omap_app, elem_of_app, IH, elem_of_cons.
  split; (intros [H|H]; [left|by right]).
  - destruct k; simpl in H; try (by apply not_elem_of_nil in H). by apply list_elem_of_singleton in H as ->.
  - subst k. by left.
Qed.

(** The registry after any interleaving of the calls of several threads. *)
Lemma run_calls g (ths : list (list call)) tr :
  registry_ok g -> interleaving ((fun ks => concat (call_ops <$> ks)) <$> ths) tr ->
  registry_ok (run g tr) /\
  match last (omap depth_of tr) with
  | Some d => CDepth d ∈ concat ths /\ queue_depth (run g tr) = u64 d
  | None => (forall d, CDepth d ∉ concat ths) /\ queue_depth (run g tr) = queue_depth g
  end /\
  forall c, cell_valid c -> c <> QueueDepth ->
    cell_get (run g tr) c = cell_wrap c (cell_get g c + zsum (call_delta c <$> concat ths)).
Proof.
  intros Hg Hil. apply interleaving_perm in Hil.
  rewrite threads_ops_concat in Hil. destruct (calls_ok (concat ths)) as [Hv Hs].
  split; [apply run_ok; [done|by rewrite Hil]|]. destruct Hg as (_ & Hlen & Hw). split.
  { assert (forall d, d ∈ omap depth_of tr <-> CDepth d ∈ concat ths) as Hds
      by (intros d; by rewrite <- calls_depths, Hil).
    rewrite run_depth; [|done|exact (Hw QueueDepth I)|by rewrite Hil..].
    destruct (last _) as [d|] eqn:El; (split; [|done]).
    - by apply Hds, last_Some_elem_of.
    - apply last_None in El. intros d. rewrite <- Hds, El. apply not_elem_of_nil. }
  intros c Hc Hq.
  rewrite run_adds; [|done|by apply Hw|by rewrite Hil|by rewrite Hil|done].
  by rewrite Hil, calls_delta.
Qed.

(** ** The label *)

Lemma label_char_nonzero c : is_label_char c = true -> c <> 0.
Proof. unfold is_label_char. lia. Qed.

Lemma labels_no_nul s : Forall (fun c => is_label_char c = true) s -> 0 ∉ s.
Proof.
  intros Hs H0. rewrite Forall_forall in Hs. by apply (label_char_nonzero 0); [apply Hs|].
Qed.

Lemma label_scan_spec s n :
  0 <= n <= 31 ->
  label_scan s n =
    if forallb is_label_char (take (Z.to_nat (31 - n)) (cstr s))
    then n + Z.of_nat (length (take (Z.to_nat (31 - n)) (cstr s))) else 0.
Proof.
  revert n. induction s as [|c s IH]; intros n Hn; [simpl cstr; rewrite take_nil; simpl; lia|].
  simpl. unfold MODEL_MAX. destruct (Z.eqb_spec c 0); simpl; [destruct (Z.to_nat (31 - n)); simpl; lia|].
  destruct (Z.ltb_spec (n + 1) 32).
  - replace (Z.to_nat (31 - n)) with (S (Z.to_nat (31 - (n + 1)))) by lia. simpl.
    destruct (is_label_char c); simpl; [|done]. rewrite IH by lia.
    destruct (forallb _ _); lia.
  - replace (Z.to_nat (31 - n)) with 0%nat by lia. simpl. lia.
Qed.

Lemma cstr_prefix s : exists r, s = cstr s ++ r.
Proof.
  induction s as [|c s [r IH]]; [by exists []|]. simpl.
  destruct (c =? 0); [by exists (c :: s)|]. exists r. simpl. by rewrite <- IH.
Qed.

Lemma take_cstr_take s n k :
  length (take n (cstr s)) = k -> take k s = take n (cstr s).
Proof.
  intros <-. destruct (cstr_prefix s) as [r Hr]. rewrite Hr at 2.
  rewrite length_take, take_app_le by lia.
  destruct (decide (n <= length (cstr s))%nat).
  - by rewrite Nat.min_l by lia.
  - rewrite Nat.min_r, (take_ge (cstr s)), take_ge by lia. done.
Qed.

(** [set_model] never writes outside the buffer and leaves in it the sanitised
    name. *)
Lemma set_model_spec g name :
  length (model g) = 32%nat ->
  exists rest, set_model g name = Ret (with_model g (sanitize name ++ 0 :: rest)) /\
    length (sanitize name ++ 0 :: rest) = 32%nat.
Proof.
  intros Hlen. unfold set_model.
  set (n := match name with Some s => label_scan s 0 | None => 0 end).
  assert (n = 0 /\ sanitize name = lit "unknown" \/
          exists s, name = Some s /\ 0 < n <= 31 /\ slice s 0 n = sanitize name) as Hcases.
  { subst n. destruct name as [s|]; [|by left].
    rewrite label_scan_spec by lia. change (Z.to_nat (31 - 0)) with 31%nat.
    unfold sanitize. destruct (take 31 (cstr s)) as [|c t] eqn:E; [by left|].
    destruct (forallb is_label_char (c :: t)) eqn:Ef; [|by left].
    right. exists s. split; [done|]. assert (length (c :: t) <= 31)%nat.
    { rewrite <- E, length_take. lia. }
    split; [simpl in *; lia|]. unfold slice. rewrite drop_0, Z.add_0_l, Nat2Z.id.
    rewrite <- E. by apply take_cstr_take. }
  destruct Hcases as [[Hn Hs]|(s & -> & Hn & Hs)].
  - rewrite Hn, Hs. simpl. rewrite buf_blit_ok by (rewrite ?Hlen; simpl; lia). simpl.
    eexists. split; [done|]. simpl. rewrite length_drop. lia.
  - rewrite (proj2 (Z.eqb_neq n 0)) by lia. cbn [from_option id]. rewrite Hs.
    assert (Hl : n = Z.of_nat (length (sanitize (Some s)))).
    { rewrite <- Hs. unfold slice. rewrite drop_0, length_take.
      assert (Z.to_nat n <= length s)%nat; [|lia].
      subst n. rewrite label_scan_spec in * by lia.
      destruct (forallb _ _); [|lia]. pose proof (cstr_length s). rewrite length_take. lia. }
    rewrite Hl. generalize dependent (sanitize (Some s)). intros t Hs Hl.
    exists (drop (S (length t)) (model g)). split.
    + unfold mbind, outcome_bind. rewrite buf_blit_0 by lia.
      by rewrite buf_set_after by lia.
    + rewrite length_app. simpl. rewrite length_drop. lia.
Qed.

Lemma sanitize_labels name :
  sanitize name <> [] /\ Forall (fun c => is_label_char c = true) (sanitize name) /\
  (length (sanitize name) <= 31)%nat.
Proof.
  assert (Forall (fun c => is_label_char c = true) (lit "unknown")) as Hu.
  { repeat constructor. }
  unfold sanitize. destruct name as [s|]; [|simpl; repeat split; [done|done|lia]].
  destruct (take 31 (cstr s)) as [|c t] eqn:E; [simpl; repeat split; [done|done|lia]|].
  destruct (forallb is_label_char (c :: t)) eqn:Ef; [|simpl; repeat split; [done|done|lia]].
  split; [done|]. split; [|rewrite <- E, length_take; lia].
  apply Forall_forall. intros x Hx. rewrite forallb_forall in Ef.
  by apply Ef, list_elem_of_In.
Qed.

Lemma model_label_terminated s rest :
  s <> [] -> Forall (fun c => is_label_char c = true) s -> model_label (s ++ 0 :: rest) = s.
Proof.
  intros Hne Hs. pose proof (cstr_app_nul s rest (labels_no_nul s Hs)) as Hc.
  destruct s as [|c s]; [done|]. apply Forall_cons in Hs as [Hl _].
  apply label_char_nonzero in Hl. 
  change (model_label ((c :: s) ++ 0 :: rest))
    with (if negb (c =? 0) then cstr ((c :: s) ++ 0 :: rest) else lit "unknown").
  by rewrite (proj2 (Z.eqb_neq c 0)).
Qed.

(** Whatever happened to the registry, its label is non-empty, short and made of
    label characters. *)
Lemma model_label_ok m :
  model_ok m ->
  model_label m <> [] /\ Forall (fun c => is_label_char c = true) (model_label m) /\
  (length (model_label m) <= 31)%nat.
Proof.
  intros [Hlen [->|(s & rest & -> & Hne & Hs)]].
  - simpl. repeat split; [done|repeat constructor|lia].
  - rewrite model_label_terminated by done. repeat split; [done|done|].
    rewrite length_app in Hlen. simpl in Hlen. lia.
Qed.

Lemma registry_zero_ok : registry_ok registry_zero.
Proof.
  split; [split; [done|by left]|]. split; [done|].
  intros c Hc. destruct c; try done. simpl.
  do 11 (destruct i as [|i]; [done|]). simpl in Hc. lia.
Qed.

Definition init_stores : list atomic :=
  [AStore Accepted 0; AStore Refused 0; AStore Active 0; AStore WorkersBusy 0;
   AStore QueueDepth 0; AStore LatencySumNs 0] ++
  ((fun i => AStore (LatencyCount i) 0) <$> seq 0 (Z.to_nat BUCKET_COUNT + 1)).

Lemma init_stores_get g c :
  length (latency_count g) = 11%nat -> cell_valid c -> cell_get (run g init_stores) c = 0.
Proof.
  intros Hlen Hc. destruct g as [m a r ac w q lc ls]. simpl in Hlen.
  do 11 (destruct lc as [|? lc]; [done|]). destruct lc; [|done].
  destruct c; try done. simpl in Hc. do 11 (destruct i as [|i]; [done|]). lia.
Qed.

Lemma init_stores_valid : Forall (fun a => cell_valid (atomic_cell a)) init_stores.
Proof. repeat constructor; simpl; lia. Qed.

(** [metrics_init] always succeeds, sets the label and zeroes every cell. *)
Lemma metrics_init_spec g name :
  registry_ok g ->
  exists g', metrics_init g name = Ret g' /\ registry_ok g' /\
    model_label (model g') = sanitize name /\
    forall c, cell_valid c -> cell_get g' c = 0.
Proof.
  intros (Hm & Hlen & Hw). destruct (set_model_spec g name (proj1 Hm)) as (rest & Hset & Hl).
  destruct (sanitize_labels name) as (Hne & Hs & _).
  unfold metrics_init, mbind, outcome_bind. rewrite Hset. eexists. split; [done|].
  fold init_stores. split; [|split].
  - apply run_ok; [|apply init_stores_valid]. split; [|done].
    split; [done|]. right. by exists (sanitize name), rest.
  - rewrite run_model. by apply model_label_terminated.
  - intros c Hc. by apply init_stores_get.
Qed.

(** ** Properties *)

(** C11 [concurrent_updates_exact]: however the atomic accesses of any number of
    threads calling the mutators interleave, no update is lost and the registry
    stays well formed: the counters are what they were plus the number of calls,
    [active] is what it was plus accepts minus closes, [workers_busy] plus all the
    deltas, each bucket plus the durations that fall in it, and the latency sum
    plus all durations, each in the wrap-around arithmetic of its type. The queue
    depth is that of the call whose store came last, or what it was when no thread
    has set it. *)
Theorem concurrent_updates_exact (g : registry) (ths : list (list call)) (tr : list atomic) :
  registry_ok g ->
  interleaving ((fun ks => concat (call_ops <$> ks)) <$> ths) tr ->
  let ks := concat ths in
  let count k := Z.of_nat (length (filter (eq k) ks)) in
  registry_ok (run g tr) /\
  accepted (run g tr) = u64 (accepted g + count CAccepted) /\
  refused (run g tr) = u64 (refused g + count CRefused) /\
  active (run g tr) = s64 (active g + count CAccepted - count CClosed) /\
  match last (omap depth_of tr) with
  | Some d => CDepth d ∈ ks /\ queue_depth (run g tr) = u64 d
  | None => (forall d, CDepth d ∉ ks) /\ queue_depth (run g tr) = queue_depth g
  end /\
  forall c, cell_valid c -> c <> QueueDepth ->
    cell_get (run g tr) c = cell_wrap c (cell_get g c + zsum (call_delta c <$> ks)).
Proof.
  intros Hg Hil ks count. destruct (run_calls g ths tr Hg Hil) as (Hok & Hdepth & Hget).
  split; [done|].
  assert (forall c (d : list call -> Z), (d [] = 0) ->
            (forall k l, d (k :: l) = call_delta c k + d l) -> forall l, zsum (call_delta c <$> l) = d l)
    as Hsum.
  { intros c d H0 HS l. induction l as [|k l IH]; [done|]. rewrite fmap_cons, zsum_cons, IH. by rewrite HS. }
  split; [|split; [|split; [|split; [exact Hdepth|exact Hget]]]].
  - rewrite (Hget Accepted I ltac:(done) : accepted _ = _). simpl. do 2 f_equal.
    apply (Hsum Accepted (fun l => Z.of_nat (length (filter (eq CAccepted) l)))); [done|].
    intros k l. rewrite filter_cons. case_decide; subst; simpl; [lia|]. by destruct k.
  - rewrite (Hget Refused I ltac:(done) : refused _ = _). simpl. do 2 f_equal.
    apply (Hsum Refused (fun l => Z.of_nat (length (filter (eq CRefused) l)))); [done|].
    intros k l. rewrite filter_cons. case_decide; subst; simpl; [lia|]. by destruct k.
  - rewrite (Hget Active I ltac:(done) : active _ = _). simpl. f_equal. rewrite <- Z.add_sub_assoc. f_equal.
    apply (Hsum Active (fun l => Z.of_nat (length (filter (eq CAccepted) l)) -
                                 Z.of_nat (length (filter (eq CClosed) l)))); [done|].
    intros k l. rewrite !filter_cons. destruct k; repeat case_decide; simplify_eq; simpl; lia.
Qed.

(** An accepted and closed connection, an observation, and two threads that set the
    queue depth. *)
Definition demo_trace : list atomic :=
  [AAdd Accepted 1; AStore QueueDepth 3; AAdd (LatencyCount 0) 1; AAdd Active 1; AAdd LatencySumNs 700;
   AStore QueueDepth 2; AAdd Active (-1)].

Lemma concurrent_updates_exact_witness :
  active (run registry_zero demo_trace) = s64 (0 + 1 - 1) /\ queue_depth (run registry_zero demo_trace) = u64 2.
Proof.
  destruct (concurrent_updates_exact registry_zero [[CAccepted; CClosed]; [CDepth 3; CObserved 700]; [CDepth 2]]
    demo_trace registry_zero_ok) as (_ & _ & _ & Hact & [_ Hdepth] & _); [|split; [exact Hact|exact Hdepth]].
  apply (interleaving_step _ 0 _ [AAdd Active 1; AAdd Active (-1)]); [reflexivity|].
  apply (interleaving_step _ 1 _ [AAdd (LatencyCount 0) 1; AAdd LatencySumNs 700]); [reflexivity|].
  apply (interleaving_step _ 1 _ [AAdd LatencySumNs 700]); [reflexivity|].
  apply (interleaving_step _ 0 _ [AAdd Active (-1)]); [reflexivity|].
  apply (interleaving_step _ 1 _ []); [reflexivity|].
  apply (interleaving_step _ 2 _ []); [reflexivity|].
  apply (interleaving_step _ 0 _ []); [reflexivity|].
  apply interleaving_done. repeat constructor.
Defined.

(** [metrics_init_label]: [metrics_init] never writes outside the label
    buffer; afterwards every cell is zero and the label is the first 31
    characters of the name if those are non-empty and all in [A-Za-z0-9_-], and
    "unknown" otherwise, so the label in the exposition is always well formed. *)
Theorem metrics_init_label (g : registry) (name : option (list Z)) :
  registry_ok g ->
  exists g', metrics_init g name = Ret g' /\ registry_ok g' /\
    (forall c, cell_valid c -> cell_get g' c = 0) /\
    model_label (model g') = sanitize name /\
    Forall (fun c => is_label_char c = true) (model_label (model g')) /\
    (1 <= length (model_label (model g')) <= 31)%nat.
Proof.
  intros Hg. destruct (metrics_init_spec g name Hg) as (g' & Hi & Hok & Hl & Hz).
  destruct (sanitize_labels name) as (Hne & Hs & Hlen).
  assert (1 <= length (sanitize name))%nat by (destruct (sanitize name); [done|simpl; lia]).
  exists g'. rewrite Hl. repeat (split; [done|]). lia.
Qed.

Lemma metrics_init_label_witness :
  exists g', metrics_init registry_zero (Some (lit "thread pool")) = Ret g' /\
    model_label (model g') = lit "unknown".
Proof.
  destruct (metrics_init_label registry_zero (Some (lit "thread pool")) registry_zero_ok)
    as (g' & Hi & _ & _ & Hl & _).
  exists g'. split; [exact Hi|]. rewrite Hl. vm_compute. reflexivity.
Defined.
