(* ===== verification/MetricsRender.v ===== *)
(** * Rendering the registry (src/src/metrics.c, appendf .. metrics_render)

    [metrics_render] and its helpers, writing through the bounded buffer of
    [appendf]. Every cell is loaded exactly once per rendering, so the loads are
    a function [ld] from cells to the values read: a scrape racing with updates
    is some [ld], not only the registry of one moment. *)

From S2P Require Import Prelude CString Metrics.
Local Open Scope Z_scope.

(** ** Rendering *)

Record obuf := OBuf { o_data : list Z; o_cap : Z; o_len : Z }.

(** [appendf], given the text its format and arguments produce. *)
Definition appendf (o : obuf) (txt : list Z) : outcome obuf :=
  let 'OBuf out cap len := o in
  let room := if len <? cap then cap - len else 0 in
  out ← snprintf_write out len room txt;
  let written := Z.of_nat (length txt) in
  Ret (OBuf out cap (if 0 <? written then u64 (len + written) else len)).

Definition NL : Z := 10.
Definition QUOTE : Z := 34.

(** name{model="label"} *)
Definition series (name label : list Z) : list Z :=
  name ++ lit "{model=" ++ [QUOTE] ++ label ++ [QUOTE] ++ lit "}".
(** name_bucket{model="label",le="le"} *)
Definition bucket_series (name label le : list Z) : list Z :=
  name ++ lit "_bucket{model=" ++ [QUOTE] ++ label ++ [QUOTE] ++ lit ",le=" ++
  [QUOTE] ++ le ++ [QUOTE] ++ lit "}".

Definition help_line (name help : list Z) : list Z :=
  lit "# HELP " ++ name ++ lit " " ++ help ++ [NL].
Definition type_line (name kind : list Z) : list Z :=
  lit "# TYPE " ++ name ++ lit " " ++ kind ++ [NL].

Definition render_counter (label : list Z) (o : obuf) (name help : list Z) (value : Z) :
    outcome obuf :=
  o ← appendf o (help_line name help);
  o ← appendf o (type_line name (lit "counter"));
  appendf o (series name label ++ lit " " ++ dec_u value ++ [NL]).

Definition render_gauge (label : list Z) (o : obuf) (name help : list Z) (value : Z) :
    outcome obuf :=
  o ← appendf o (help_line name help);
  o ← appendf o (type_line name (lit "gauge"));
  appendf o (series name label ++ lit " " ++ dec_s value ++ [NL]).

Definition latency_name : list Z := lit "server_request_duration_seconds".

(** The bucket loop: [i] is the bucket, [les] its label and those after it. *)
Fixpoint render_buckets (label : list Z) (ld : cell -> Z) (i : nat) (les : list (list Z))
    (cumulative : Z) (o : obuf) : outcome (Z * obuf) :=
  match les with
  | [] => Ret (cumulative, o)
  | le :: les' =>
      let cumulative := u64 (cumulative + ld (LatencyCount i)) in
      o ← appendf o (bucket_series latency_name label le ++ lit " " ++ dec_u cumulative ++ [NL]);
      render_buckets label ld (S i) les' cumulative o
  end.

Definition render_latency (label : list Z) (ld : cell -> Z) (o : obuf) : outcome obuf :=
  let name := latency_name in
  o ← appendf o (lit "# HELP " ++ name ++ lit " Request service time in seconds." ++ [NL]);
  o ← appendf o (type_line name (lit "histogram"));
  '(cumulative, o) ← render_buckets label ld 0 k_bucket_le 0 o;
  let cumulative := u64 (cumulative + ld (LatencyCount (Z.to_nat BUCKET_COUNT))) in
  o ← appendf o (bucket_series name label (lit "+Inf") ++ lit " " ++ dec_u cumulative ++ [NL]);
  let sum_ns := ld LatencySumNs in
  o ← appendf o (series (name ++ lit "_sum") label ++ lit " " ++ dec_u (sum_ns / 1000000000) ++
                 lit "." ++ dec_09 (sum_ns mod 1000000000) ++ [NL]);
  appendf o (series (name ++ lit "_count") label ++ lit " " ++ dec_u cumulative ++ [NL]).

(** [out = None] is a NULL pointer. The result is the buffer and the length the
    body has. *)
Definition metrics_render (m : list Z) (ld : cell -> Z) (out : option (list Z)) (cap : Z) :
    outcome (list Z * Z) :=
  let cap := match out with None => 0 | Some _ => cap end in
  let label := model_label m in
  let o := OBuf (default [] out) cap 0 in
  o ← render_counter label o (lit "server_connections_accepted_total")
        (lit "Connections accepted since process start.") (ld Accepted);
  o ← render_counter label o (lit "server_connections_refused_total")
        (lit "Connections refused because the server had no capacity.") (ld Refused);
  o ← render_gauge label o (lit "server_connections_active")
        (lit "Connections currently open.") (ld Active);
  o ← render_gauge label o (lit "server_pool_queue_depth")
        (lit "Work items waiting in the thread pool queue.") (s64 (ld QueueDepth));
  o ← render_gauge label o (lit "server_pool_workers_busy")
        (lit "Worker threads serving a request.") (ld WorkersBusy);
  o ← render_latency label ld o;
  let 'OBuf out cap len := o in
  out ← (if (0 <? cap) && (cap <=? len) then buf_set out (cap - 1) 0 else Ret out);
  Ret (out, len).

(** ** Reference: the lines of the exposition *)

Definition sample_line (ser txt : list Z) : list Z := ser ++ lit " " ++ txt ++ [NL].

Definition metric_lines (kind name help ser txt : list Z) : list (list Z) :=
  [help_line name help; type_line name kind; sample_line ser txt].

(** The observations in the first [k] buckets, as the running [uint64_t]. *)
Definition cumul (ld : cell -> Z) (k : nat) : Z :=
  u64 (zsum ((fun i => ld (LatencyCount i)) <$> seq 0 k)).

Definition bucket_lines (label : list Z) (ld : cell -> Z) (i : nat) (les : list (list Z)) :
    list (list Z) :=
  imap (fun j le => sample_line (bucket_series latency_name label le)
                      (dec_u (cumul ld (S (i + j))))) les.

Definition sum_text (sum_ns : Z) : list Z :=
  dec_u (sum_ns / 1000000000) ++ lit "." ++ dec_09 (sum_ns mod 1000000000).

Definition latency_lines (label : list Z) (ld : cell -> Z) : list (list Z) :=
  [help_line latency_name (lit "Request service time in seconds.");
   type_line latency_name (lit "histogram")] ++
  bucket_lines label ld 0 k_bucket_le ++
  [sample_line (bucket_series latency_name label (lit "+Inf")) (dec_u (cumul ld 11));
   sample_line (series (latency_name ++ lit "_sum") label) (sum_text (ld LatencySumNs));
   sample_line (series (latency_name ++ lit "_count") label) (dec_u (cumul ld 11))].

Definition counter_lines (label name help : list Z) (v : Z) : list (list Z) :=
  metric_lines (lit "counter") name help (series name label) (dec_u v).
Definition gauge_lines (label name help : list Z) (v : Z) : list (list Z) :=
  metric_lines (lit "gauge") name help (series name label) (dec_s v).

Definition body_lines (label : list Z) (ld : cell -> Z) : list (list Z) :=
  counter_lines label (lit "server_connections_accepted_total")
    (lit "Connections accepted since process start.") (ld Accepted) ++
  counter_lines label (lit "server_connections_refused_total")
    (lit "Connections refused because the server had no capacity.") (ld Refused) ++
  gauge_lines label (lit "server_connections_active")
    (lit "Connections currently open.") (ld Active) ++
  gauge_lines label (lit "server_pool_queue_depth")
    (lit "Work items waiting in the thread pool queue.") (s64 (ld QueueDepth)) ++
  gauge_lines label (lit "server_pool_workers_busy")
    (lit "Worker threads serving a request.") (ld WorkersBusy) ++
  latency_lines label ld.

Definition body (label : list Z) (ld : cell -> Z) : list Z := concat (body_lines label ld).

Fixpoint append_all (o : obuf) (ls : list (list Z)) : outcome obuf :=
  match ls with
  | [] => Ret o
  | l :: ls' => o ← appendf o l; append_all o ls'
  end.

(** ** Reading an exposition back

    A consumer's view of the text: lines, comments dropped, a sample split at its
    first space, its value in units of 10^-9. *)

Fixpoint split_lines (s : list Z) : list (list Z) :=
  match s with
  | [] => []
  | c :: s' =>
      if c =? NL then [] :: split_lines s'
      else match split_lines s' with
           | [] => [[c]]
           | l :: ls => (c :: l) :: ls
           end
  end.

Fixpoint split_space (s : list Z) : list Z * list Z :=
  match s with
  | [] => ([], [])
  | c :: s' => if c =? 32 then ([], s') else let '(a, b) := split_space s' in (c :: a, b)
  end.

Definition number (txt : list Z) : Z :=
  let '(neg, s) := match txt with
                   | c :: t => if c =? 45 then (true, t) else (false, txt)
                   | [] => (false, [])
                   end in
  let '(int, rest) := span_digits s in
  let frac := match rest with
              | c :: t => if c =? 46 then (span_digits t).1 else []
              | [] => []
              end in
  let v := undec int * 10 ^ 9 + undec frac * 10 ^ (9 - Z.of_nat (length frac)) in
  if neg then - v else v.

Definition sample (line : list Z) : option (list Z * Z) :=
  match line with
  | [] => None
  | c :: _ => if c =? 35 then None
              else let '(ser, txt) := split_space line in Some (ser, number txt)
  end.

Definition samples (s : list Z) : list (list Z * Z) := omap sample (split_lines s).

(** What the samples of an exposition are to be. *)
Definition expected_samples (label : list Z) (ld : cell -> Z) : list (list Z * Z) :=
  [(series (lit "server_connections_accepted_total") label, ld Accepted * 10 ^ 9);
   (series (lit "server_connections_refused_total") label, ld Refused * 10 ^ 9);
   (series (lit "server_connections_active") label, ld Active * 10 ^ 9);
   (series (lit "server_pool_queue_depth") label, s64 (ld QueueDepth) * 10 ^ 9);
   (series (lit "server_pool_workers_busy") label, ld WorkersBusy * 10 ^ 9)] ++
  imap (fun i le => (bucket_series latency_name label le, cumul ld (S i) * 10 ^ 9)) k_bucket_le ++
  [(bucket_series latency_name label (lit "+Inf"), cumul ld 11 * 10 ^ 9);
   (series (latency_name ++ lit "_sum") label, ld LatencySumNs);
   (series (latency_name ++ lit "_count") label, cumul ld 11 * 10 ^ 9)].

(** ** Rendering appends the lines of the body *)

#[local] Opaque lit latency_name.

Lemma append_all_app o l1 l2 :
  append_all o (l1 ++ l2) = o ← append_all o l1; append_all o l2.
Proof.
  revert o. induction l1 as [|l l1 IH]; intros o; [done|]. simpl.
  rewrite outcome_bind_assoc. unfold mbind, outcome_bind in *.
  by destruct (appendf o l); [apply IH| |].
Qed.

Lemma render_counter_lines label o name help v :
  render_counter label o name help v = append_all o (counter_lines label name help v).
Proof. unfold render_counter, counter_lines, metric_lines. simpl. outcome_cases. Qed.

Lemma render_gauge_lines label o name help v :
  render_gauge label o name help v = append_all o (gauge_lines label name help v).
Proof. unfold render_gauge, gauge_lines, metric_lines. simpl. outcome_cases. Qed.

Lemma cumul_S ld k : cumul ld (S k) = u64 (cumul ld k + ld (LatencyCount k)).
Proof.
  unfold cumul. rewrite seq_S, fmap_app, zsum_app, u64_add_l. simpl. by rewrite Z.add_0_r.
Qed.

Lemma render_buckets_lines label ld i les o :
  render_buckets label ld i les (cumul ld i) o =
    o ← append_all o (bucket_lines label ld i les); Ret (cumul ld (i + length les), o).
Proof.
  revert i o. induction les as [|le les IH]; intros i o; simpl.
  { by rewrite Nat.add_0_r. }
  rewrite <- cumul_S, outcome_bind_assoc, Nat.add_0_r.
  unfold mbind, outcome_bind in *. rewrite <- Nat.add_succ_comm.
  assert (bucket_lines label ld (S i) les =
          imap (fun j le => sample_line (bucket_series latency_name label le)
                  (dec_u (cumul ld (S (i + S j))))) les) as Heq.
  { apply imap_ext. intros. by rewrite Nat.add_succ_r. }
  unfold compose. rewrite <- Heq.
  unfold sample_line. destruct (appendf o _); [apply IH|done|done].
Qed.

Lemma render_latency_lines label ld o :
  render_latency label ld o = append_all o (latency_lines label ld).
Proof.
  assert (lit " Request service time in seconds." =
          lit " " ++ lit "Request service time in seconds.") as Hhelp by (vm_compute; reflexivity).
  unfold render_latency, latency_lines. rewrite Hhelp, <- (app_assoc (lit " ")).
  change 0 with (cumul ld 0) at 1. rewrite append_all_app. setoid_rewrite append_all_app.
  setoid_rewrite (render_buckets_lines label ld 0 k_bucket_le).
  cbn [append_all]. rewrite !outcome_bind_assoc. apply outcome_bind_proper; [intros o1|done].
  rewrite !outcome_bind_assoc. apply outcome_bind_proper; [intros o2|done].
  rewrite !outcome_ret_bind, !outcome_bind_assoc. apply outcome_bind_proper; [intros o3|done].
  change (0 + length k_bucket_le)%nat with 10%nat. rewrite !outcome_ret_bind.
  change (Z.to_nat BUCKET_COUNT) with 10%nat. rewrite <- cumul_S.
  unfold sample_line, sum_text. rewrite <- !app_assoc. outcome_cases.
Qed.

Definition finish (o : obuf) : outcome (list Z * Z) :=
  let 'OBuf out cap len := o in
  out ← (if (0 <? cap) && (cap <=? len) then buf_set out (cap - 1) 0 else Ret out);
  Ret (out, len).

Lemma metrics_render_lines m ld out cap :
  metrics_render m ld out cap =
    o ← append_all (OBuf (default [] out) (match out with None => 0 | Some _ => cap end) 0)
          (body_lines (model_label m) ld);
    finish o.
Proof.
  unfold metrics_render, body_lines. rewrite !append_all_app.
  rewrite render_counter_lines, !outcome_bind_assoc.
  apply outcome_bind_proper; [intros o1|done].
  rewrite append_all_app, render_counter_lines, !outcome_bind_assoc.
  apply outcome_bind_proper; [intros o2|done].
  rewrite append_all_app, render_gauge_lines, !outcome_bind_assoc.
  apply outcome_bind_proper; [intros o3|done].
  rewrite append_all_app, render_gauge_lines, !outcome_bind_assoc.
  apply outcome_bind_proper; [intros o4|done].
  rewrite append_all_app, render_gauge_lines, !outcome_bind_assoc.
  apply outcome_bind_proper; [intros o5|done].
  by rewrite render_latency_lines.
Qed.

(** ** The bounded buffer

    [out_inv cap W o]: the text appended so far is [W], and a buffer of [cap]
    bytes holds as much of it as fits before a NUL. *)
Definition out_inv (cap : nat) (W : list Z) (o : obuf) : Prop :=
  o_cap o = Z.of_nat cap /\ o_len o = Z.of_nat (length W) /\ length (o_data o) = cap /\
  (cap = 0%nat \/ W = [] \/ exists rest, o_data o = take (cap - 1) W ++ 0 :: rest).

Lemma out_inv_prefix cap W o :
  out_inv cap W o -> (length W < cap)%nat -> take (length W) (o_data o) = W.
Proof.
  intros (_ & _ & _ & [->|[->|[rest ->]]]) Hlt; [lia|done|].
  rewrite (take_ge W) by lia. by rewrite take_app_length.
Qed.

Lemma appendf_inv cap W o txt :
  out_inv cap W o -> txt <> [] -> Z.of_nat (length W + length txt) < 2 ^ 64 ->
  exists o', appendf o txt = Ret o' /\ out_inv cap (W ++ txt) o'.
Proof.
  intros Hinv Hne Hsz. pose proof (out_inv_prefix _ _ _ Hinv) as Hpre.
  destruct Hinv as (Hcap & Hlen & Hdata & Hcont), o as [data c l]. simpl in *. subst c l.
  assert (0 < Z.of_nat (length txt)) as Htxt by (destruct txt; [done|simpl; lia]).
  unfold appendf. rewrite (proj2 (Z.ltb_lt 0 _)) by done.
  rewrite u64_small by lia. unfold snprintf_write.
  destruct (Z.ltb_spec (Z.of_nat (length W)) (Z.of_nat cap)) as [Hlt|Hge].
  - rewrite (proj2 (Z.leb_gt _ _)) by lia.
    replace (Z.to_nat (Z.of_nat cap - Z.of_nat (length W) - 1)) with (cap - 1 - length W)%nat by lia.
    assert (take (cap - 1) (W ++ txt) = W ++ take (cap - 1 - length W) txt) as Htake.
    { rewrite take_app. rewrite (take_ge W) by lia. done. }
    rewrite buf_blit_ok; [|lia|rewrite length_app, length_take; simpl; lia].
    eexists. split; [done|]. unfold out_inv. simpl.
    rewrite Nat2Z.id, Hpre by lia. repeat split.
    + rewrite length_app. lia.
    + rewrite ?length_app, ?length_drop, ?length_app, ?length_take. simpl. lia.
    + right. right. eexists. rewrite Htake, <- !app_assoc. done.
  - simpl. eexists. split; [done|]. unfold out_inv. simpl. repeat split; [|done|].
    + rewrite length_app. lia.
    + destruct Hcont as [->|[->|[rest ->]]]; [by left|simpl in *; left; lia|].
      right. right. exists rest. by rewrite take_app_le by lia.
Qed.

Lemma append_all_inv cap W o ls :
  out_inv cap W o -> Forall (fun l => l <> []) ls ->
  Z.of_nat (length W + length (concat ls)) < 2 ^ 64 ->
  exists o', append_all o ls = Ret o' /\ out_inv cap (W ++ concat ls) o'.
Proof.
  intros Hinv Hls. revert W o Hinv. induction Hls as [|l ls Hl _ IH]; intros W o Hinv Hsz.
  { exists o. simpl. by rewrite app_nil_r. }
  simpl in *. rewrite length_app in Hsz.
  destruct (appendf_inv cap W o l Hinv Hl) as (o1 & -> & Hinv1); [lia|].
  destruct (IH (W ++ l) o1 Hinv1) as (o2 & Ho2 & Hinv2); [rewrite length_app; lia|].
  exists o2. rewrite app_assoc. by split.
Qed.

Lemma finish_inv cap W o :
  out_inv cap W o -> W <> [] ->
  exists rest, finish o = Ret (if decide (cap = 0%nat) then [] else take (cap - 1) W ++ 0 :: rest,
                               Z.of_nat (length W)) /\
    (cap <> 0%nat -> length (take (cap - 1) W ++ 0 :: rest) = cap).
Proof.
  intros (Hcap & Hlen & Hdata & Hcont) Hne. destruct o as [data c l]. simpl in *. subst c l.
  destruct Hcont as [->|[->|[rest ->]]]; [|done|].
  { exists []. destruct data; [|done]. by case_decide. }
  exists rest. rewrite length_app in Hdata. simpl in Hdata.
  split; [|rewrite length_app; simpl; lia]. rewrite length_take in Hdata.
  rewrite decide_False by lia.
  destruct (_ && _) eqn:E; [|done]. bool_prop.
  assert (length (take (cap - 1) W) = cap - 1)%nat as Hl by (rewrite length_take; lia).
  rewrite buf_set_ok by (rewrite length_app; simpl; lia). simpl.
  replace (Z.to_nat (Z.of_nat cap - 1)) with (length (take (cap - 1) W)) by lia.
  by rewrite insert_app_r_alt, Nat.sub_diag by lia.
Qed.

(** ** Sizes and contents of the lines *)

#[local] Transparent lit latency_name.

Definition short (l : list Z) : Prop := l <> [] /\ (length l <= 200)%nat.

Lemma sample_line_short ser txt :
  (length ser <= 130)%nat -> (length txt <= 40)%nat -> short (sample_line ser txt).
Proof.
  intros Hs Ht. unfold short, sample_line. split; [by destruct ser|].
  rewrite !length_app. change (length (lit " ")) with 1%nat. simpl. lia.
Qed.

Section Lines.
Context (label : list Z) (Hlabel : (length label <= 31)%nat).

Lemma series_length name :
  (length name <= 60)%nat -> (length (series name label) <= 130)%nat.
Proof.
  intros Hn. unfold series. rewrite !length_app. change (length (lit "{model=")) with 7%nat.
  change (length (lit "}")) with 1%nat. simpl. lia.
Qed.

Lemma bucket_series_length le :
  (length le <= 10)%nat -> (length (bucket_series latency_name label le) <= 130)%nat.
Proof.
  intros Hn. unfold bucket_series. rewrite !length_app.
  change (length latency_name) with 31%nat.
  change (length (lit "_bucket{model=")) with 14%nat.
  change (length (lit ",le=")) with 4%nat.
  change (length (lit "}")) with 1%nat. simpl. lia.
Qed.
End Lines.

(** All characters from [lo] to '~'. *)
Definition chars_from (lo : Z) (l : list Z) : bool :=
  forallb (fun c => (lo <=? c) && (c <? 127)) l.

Lemma chars_from_app lo l1 l2 :
  chars_from lo (l1 ++ l2) = chars_from lo l1 && chars_from lo l2.
Proof. apply forallb_app. Qed.

Lemma chars_from_not_in lo l c :
  chars_from lo l = true -> c < lo -> c ∉ l.
Proof.
  unfold chars_from. rewrite forallb_forall. intros Hl Hc Hin.
  apply list_elem_of_In, Hl in Hin. lia.
Qed.

Lemma chars_from_weaken lo lo' l : lo' <= lo -> chars_from lo l = true -> chars_from lo' l = true.
Proof. unfold chars_from. rewrite !forallb_forall. intros Hlo H c Hc. apply H in Hc. lia. Qed.

Lemma digits_graph ds : Forall (fun c => isdigit c = true) ds -> chars_from 33 ds = true.
Proof.
  intros Hd. apply forallb_forall. intros c Hc. rewrite Forall_forall in Hd.
  apply list_elem_of_In, Hd in Hc. unfold isdigit in Hc. lia.
Qed.

Lemma label_graph s : Forall (fun c => is_label_char c = true) s -> chars_from 33 s = true.
Proof.
  intros Hd. apply forallb_forall. intros c Hc. rewrite Forall_forall in Hd.
  apply list_elem_of_In, Hd in Hc. unfold is_label_char in Hc. lia.
Qed.

(** ** Lines and samples *)

Definition chomp (l : list Z) : list Z := take (length l - 1) l.

Lemma chomp_snoc l c : chomp (l ++ [c]) = l.
Proof. unfold chomp. rewrite length_app, Nat.add_sub. apply take_app_length. Qed.

Lemma split_lines_line l s :
  NL ∉ l -> split_lines (l ++ NL :: s) = l :: split_lines s.
Proof.
  induction l as [|c l IH]; intros Hn; [done|]. apply not_elem_of_cons in Hn as [Hc Hn].
  simpl. rewrite (proj2 (Z.eqb_neq c NL)) by congruence. by rewrite (IH Hn).
Qed.

Definition is_line (l : list Z) : Prop := exists t, l = t ++ [NL] /\ NL ∉ t.

Lemma split_lines_concat ls :
  Forall is_line ls -> split_lines (concat ls) = chomp <$> ls.
Proof.
  induction 1 as [|l ls (t & -> & Ht) _ IH]; [done|]. simpl.
  rewrite <- app_assoc. simpl. by rewrite split_lines_line, IH, chomp_snoc.
Qed.

Lemma split_space_app a b : 32 ∉ a -> split_space (a ++ 32 :: b) = (a, b).
Proof.
  induction a as [|c a IH]; intros Hn; [done|]. apply not_elem_of_cons in Hn as [Hc Hn].
  simpl. rewrite (proj2 (Z.eqb_neq c 32)) by congruence. by rewrite (IH Hn).
Qed.

Lemma sample_line_chomp ser txt : chomp (sample_line ser txt) = ser ++ 32 :: txt.
Proof. unfold sample_line. change (lit " ") with [32]. rewrite !app_assoc, chomp_snoc. by rewrite <- app_assoc. Qed.

Lemma sample_sample_line ser txt :
  chars_from 36 (take 1 ser) = true -> chars_from 33 ser = true -> ser <> [] ->
  sample (chomp (sample_line ser txt)) = Some (ser, number txt).
Proof.
  intros Hhd Hser Hne. rewrite sample_line_chomp. destruct ser as [|c ser]; [done|].
  simpl in Hhd. assert ((c =? 35) = false) as Hc by lia.
  change (sample ((c :: ser) ++ 32 :: txt))
    with (if c =? 35 then None
          else let '(ser', t) := split_space ((c :: ser) ++ 32 :: txt) in Some (ser', number t)).
  rewrite Hc, split_space_app; [done|]. by apply (chars_from_not_in 33).
Qed.

Lemma sample_line_is_line ser txt :
  chars_from 33 ser = true -> chars_from 33 txt = true -> is_line (sample_line ser txt).
Proof.
  intros Hs Ht. unfold sample_line. exists (ser ++ lit " " ++ txt).
  split; [by rewrite <- !app_assoc|]. apply (chars_from_not_in 32); [|done].
  rewrite !chars_from_app, (chars_from_weaken 33 32 ser), (chars_from_weaken 33 32 txt) by done.
  reflexivity.
Qed.

(** ** Numbers read back *)

Lemma number_dec_u v : 0 <= v < 2 ^ 64 -> number (dec_u v) = v * 10 ^ 9.
Proof.
  intros Hv. pose proof (dec_u_chars v (proj1 Hv)) as Hch.
  pose proof (span_digits_app (dec_u v) [] Hch I) as Hsp. rewrite app_nil_r in Hsp.
  unfold number. replace (match dec_u v with
    | [] => (false, []) | c :: t => if c =? 45 then (true, t) else (false, dec_u v) end)
    with (false, dec_u v).
  2:{ destruct (dec_u v) as [|c t]; [done|]. apply Forall_cons in Hch as [Hc _].
      unfold isdigit in Hc. by rewrite (proj2 (Z.eqb_neq c 45)) by lia. }
  rewrite Hsp, dec_u_undec by done. change (undec []) with 0. lia.
Qed.

Lemma number_dec_s v : - 2 ^ 63 <= v < 2 ^ 63 -> number (dec_s v) = v * 10 ^ 9.
Proof.
  intros Hv. unfold dec_s. destruct (Z.ltb_spec v 0); [|apply number_dec_u; lia].
  pose proof (span_digits_app (dec_u (- v)) [] (dec_u_chars (- v) ltac:(lia)) I) as Hsp.
  rewrite app_nil_r in Hsp. unfold number. simpl.
  rewrite Hsp, dec_u_undec by lia. change (undec []) with 0. lia.
Qed.

Lemma dec_09_chars n : 0 <= n -> Forall (fun c => isdigit c = true) (dec_09 n).
Proof.
  intros Hn. unfold dec_09. apply Forall_app. split; [|by apply dec_u_chars].
  by apply Forall_replicate.
Qed.

Lemma number_sum_text s : 0 <= s < 2 ^ 64 -> number (sum_text s) = s.
Proof.
  intros Hs. unfold sum_text. set (q := s / 1000000000). set (r := s mod 1000000000).
  assert (0 <= q < 2 ^ 64 /\ 0 <= r < 10 ^ 9 /\ s = q * 10 ^ 9 + r) as (Hq & Hr & Heq).
  { subst q r. Z.div_mod_to_equations. lia. }
  pose proof (dec_u_chars q (proj1 Hq)) as Hch.
  pose proof (span_digits_app (dec_u q) (lit "." ++ dec_09 r) Hch eq_refl) as Hsp.
  pose proof (span_digits_app (dec_09 r) [] (dec_09_chars r (proj1 Hr)) I) as Hsp2.
  rewrite app_nil_r in Hsp2. destruct (dec_09_spec r Hr) as [Hlen Hun].
  unfold number.
  replace (match dec_u q ++ lit "." ++ dec_09 r with
    | [] => (false, []) | c :: t => if c =? 45 then (true, t) else (false, dec_u q ++ lit "." ++ dec_09 r) end)
    with (false, dec_u q ++ lit "." ++ dec_09 r).
  2:{ destruct (dec_u q) as [|c t]; [done|]. apply Forall_cons in Hch as [Hc _].
      unfold isdigit in Hc. simpl. by rewrite (proj2 (Z.eqb_neq c 45)) by lia. }
  rewrite Hsp. change (lit "." ++ dec_09 r) with (46 :: dec_09 r). cbn [Z.eqb Pos.eqb].
  rewrite Hsp2. simpl fst. rewrite Hlen, Hun, dec_u_undec by done. simpl. lia.
Qed.

(** ** Every line of the body *)

(** [line_is l s]: [l] is one short printable line, and a consumer reads [s]
    from it. *)
Definition line_is (l : list Z) (s : option (list Z * Z)) : Prop :=
  is_line l /\ short l /\ chars_from 10 l = true /\ sample (chomp l) = s.

Lemma comment_line_is t :
  chars_from 32 t = true -> take 1 t = [35] -> (length t <= 199)%nat ->
  line_is (t ++ [NL]) None.
Proof.
  intros Hch Hhd Hlen. split; [|split; [|split]].
  - exists t. split; [done|]. by apply (chars_from_not_in 32).
  - split; [by destruct t|]. rewrite length_app. simpl. lia.
  - rewrite chars_from_app, (chars_from_weaken 32 10 t) by done. reflexivity.
  - rewrite chomp_snoc. destruct t as [|c t]; [done|]. simpl in Hhd. simplify_eq. done.
Qed.

Lemma help_line_eq name help : help_line name help = (lit "# HELP " ++ name ++ lit " " ++ help) ++ [NL].
Proof. unfold help_line. by rewrite <- !app_assoc. Qed.

Lemma type_line_eq name kind : type_line name kind = (lit "# TYPE " ++ name ++ lit " " ++ kind) ++ [NL].
Proof. unfold type_line. by rewrite <- !app_assoc. Qed.

Lemma sample_line_is ser txt v :
  chars_from 36 (take 1 ser) = true -> ser <> [] -> chars_from 33 ser = true ->
  (length ser <= 130)%nat -> chars_from 33 txt = true -> (length txt <= 40)%nat ->
  number txt = v -> line_is (sample_line ser txt) (Some (ser, v)).
Proof.
  intros Hhd Hne Hser Hslen Htxt Htlen <-. split; [|split; [|split]].
  - by apply sample_line_is_line.
  - by apply sample_line_short.
  - unfold sample_line. rewrite !chars_from_app.
    by rewrite (chars_from_weaken 33 10 ser), (chars_from_weaken 33 10 txt) by done.
  - by apply sample_sample_line.
Qed.

Lemma dec_u_text v :
  0 <= v < 2 ^ 64 ->
  chars_from 33 (dec_u v) = true /\ (length (dec_u v) <= 40)%nat /\ number (dec_u v) = v * 10 ^ 9.
Proof.
  intros Hv. pose proof (dec_u_length v). split; [|split; [lia|by apply number_dec_u]].
  apply digits_graph, dec_u_chars. lia.
Qed.

Lemma dec_s_text v :
  - 2 ^ 63 <= v < 2 ^ 63 ->
  chars_from 33 (dec_s v) = true /\ (length (dec_s v) <= 40)%nat /\ number (dec_s v) = v * 10 ^ 9.
Proof.
  intros Hv. pose proof (dec_s_length v). split; [|split; [lia|by apply number_dec_s]].
  unfold dec_s. destruct (Z.ltb_spec v 0).
  - change (chars_from 33 (45 :: dec_u (- v))) with (chars_from 33 (dec_u (- v))).
    apply digits_graph, dec_u_chars. lia.
  - apply digits_graph, dec_u_chars. lia.
Qed.

Lemma sum_text_text s :
  0 <= s < 2 ^ 64 ->
  chars_from 33 (sum_text s) = true /\ (length (sum_text s) <= 40)%nat /\ number (sum_text s) = s.
Proof.
  intros Hs. assert (0 <= s mod 1000000000 < 10 ^ 9) as Hr by (Z.div_mod_to_equations; lia).
  split; [|split; [|by apply number_sum_text]]; unfold sum_text.
  - rewrite !chars_from_app, (digits_graph (dec_u _)), (digits_graph (dec_09 _)).
    + reflexivity.
    + apply dec_09_chars, (proj1 Hr).
    + apply dec_u_chars. Z.div_mod_to_equations. lia.
  - pose proof (dec_u_length (s / 1000000000)). rewrite !length_app.
    rewrite (proj1 (dec_09_spec _ Hr)). change (length (lit ".")) with 1%nat. lia.
Qed.

Section Body.
Context (label : list Z) (ld : cell -> Z).
Context (Hlabel : Forall (fun c => is_label_char c = true) label).
Context (Hlen : (length label <= 31)%nat).
Context (Hld : forall c, cell_valid c -> cell_wrap c (ld c) = ld c).

Lemma ld_unsigned c : cell_valid c -> c <> Active -> c <> WorkersBusy -> 0 <= ld c < 2 ^ 64.
Proof. intros Hc ??. rewrite <- Hld by done. destruct c; simpl; try done; apply u64_range. Qed.

Lemma s64_range z : - 2 ^ 63 <= s64 z < 2 ^ 63.
Proof. wrap_lia. Qed.

Lemma ld_signed c : c = Active \/ c = WorkersBusy -> - 2 ^ 63 <= ld c < 2 ^ 63.
Proof. intros Hc. rewrite <- Hld by by destruct Hc; subst. destruct Hc; subst; apply s64_range. Qed.

Lemma series_is name txt v :
  chars_from 36 (take 1 name) = true -> name <> [] -> chars_from 33 name = true ->
  (length name <= 60)%nat -> 
  chars_from 33 txt = true /\ (length txt <= 40)%nat /\ number txt = v ->
  line_is (sample_line (series name label) txt) (Some (series name label, v)).
Proof.
  intros Hhd Hne Hch Hnl (? & ? & ?). apply sample_line_is; try done.
  - by destruct name.
  - by destruct name.
  - unfold series. rewrite !chars_from_app, Hch, (label_graph label) by done. reflexivity.
  - by apply series_length.
Qed.

Lemma bucket_series_is le v :
  chars_from 33 le = true -> (length le <= 10)%nat -> 0 <= v < 2 ^ 64 ->
  line_is (sample_line (bucket_series latency_name label le) (dec_u v))
          (Some (bucket_series latency_name label le, v * 10 ^ 9)).
Proof.
  intros Hch Hnl Hv. destruct (dec_u_text v Hv) as (? & ? & ?).
  apply sample_line_is; try done.
  - unfold bucket_series. rewrite !chars_from_app, Hch, (label_graph label) by done. reflexivity.
  - by apply bucket_series_length.
Qed.

Lemma metric_lines_are kind name help txt v :
  chars_from 36 (take 1 name) = true -> name <> [] -> chars_from 33 name = true ->
  (length name <= 60)%nat -> chars_from 32 help = true -> (length help <= 100)%nat ->
  chars_from 32 kind = true -> (length kind <= 20)%nat ->
  chars_from 33 txt = true /\ (length txt <= 40)%nat /\ number txt = v ->
  Forall2 line_is (metric_lines kind name help (series name label) txt)
    [None; None; Some (series name label, v)].
Proof.
  intros Hhd Hne Hch Hnl Hhelp Hhl Hkind Hkl Htxt.
  assert (chars_from 32 name = true) by by apply (chars_from_weaken 33 32).
  assert (forall pre t, chars_from 32 t = true -> (length t <= 100)%nat ->
            chars_from 32 pre = true -> take 1 pre = [35] -> length pre = 7%nat ->
            line_is ((pre ++ name ++ lit " " ++ t) ++ [NL]) None) as Hcomment.
  { intros pre t Ht Htl Hp Hp1 Hpl. apply comment_line_is.
    - rewrite !chars_from_app, Hp, H, Ht. reflexivity.
    - destruct pre; [done|]. done.
    - rewrite !length_app. change (length (lit " ")) with 1%nat. lia. }
  unfold metric_lines. rewrite help_line_eq, type_line_eq.
  constructor; [by apply Hcomment|]. constructor; [by apply Hcomment; try done; lia|].
  constructor; [by apply series_is|constructor].
Qed.

(** The samples, with the comment lines between them. *)
Definition expected_lines : list (option (list Z * Z)) :=
  let gauge name v := [None; None; Some (series (lit name) label, v * 10 ^ 9)] in
  gauge "server_connections_accepted_total"%string (ld Accepted) ++
  gauge "server_connections_refused_total"%string (ld Refused) ++
  gauge "server_connections_active"%string (ld Active) ++
  gauge "server_pool_queue_depth"%string (s64 (ld QueueDepth)) ++
  gauge "server_pool_workers_busy"%string (ld WorkersBusy) ++
  [None; None] ++
  imap (fun i le => Some (bucket_series latency_name label le, cumul ld (S i) * 10 ^ 9))
    k_bucket_le ++
  [Some (bucket_series latency_name label (lit "+Inf"), cumul ld 11 * 10 ^ 9);
   Some (series (latency_name ++ lit "_sum") label, ld LatencySumNs);
   Some (series (latency_name ++ lit "_count") label, cumul ld 11 * 10 ^ 9)].

Lemma latency_lines_are :
  Forall2 line_is (latency_lines label ld)
    ([None; None] ++
     imap (fun i le => Some (bucket_series latency_name label le, cumul ld (S i) * 10 ^ 9))
       k_bucket_le ++
     [Some (bucket_series latency_name label (lit "+Inf"), cumul ld 11 * 10 ^ 9);
      Some (series (latency_name ++ lit "_sum") label, ld LatencySumNs);
      Some (series (latency_name ++ lit "_count") label, cumul ld 11 * 10 ^ 9)]).
Proof.
  unfold latency_lines. apply Forall2_app; [|apply Forall2_app].
  - rewrite help_line_eq, type_line_eq.
    constructor; [|constructor; [|constructor]];
      (apply comment_line_is; [reflexivity|reflexivity|apply Nat.leb_le; reflexivity]).
  - unfold bucket_lines. simpl. unfold compose. simpl.
    repeat (constructor; [apply bucket_series_is;
      [reflexivity|apply Nat.leb_le; reflexivity|apply u64_range]|]). constructor.
  - constructor; [|constructor; [|constructor; [|constructor]]].
    + apply bucket_series_is; [reflexivity|apply Nat.leb_le; reflexivity|apply u64_range].
    + apply series_is; [reflexivity|done|reflexivity|apply Nat.leb_le; reflexivity|].
      apply sum_text_text, ld_unsigned; done.
    + apply series_is; [reflexivity|done|reflexivity|apply Nat.leb_le; reflexivity|].
      apply dec_u_text, u64_range.
Qed.

Ltac one_metric :=
  apply Forall2_app;
  [apply metric_lines_are;
   [reflexivity|done|reflexivity|apply Nat.leb_le; reflexivity|reflexivity
   |apply Nat.leb_le; reflexivity|reflexivity|apply Nat.leb_le; reflexivity|]|].

Lemma body_lines_are : Forall2 line_is (body_lines label ld) expected_lines.
Proof.
  unfold body_lines, expected_lines.
  one_metric; [apply dec_u_text, ld_unsigned; done|].
  one_metric; [apply dec_u_text, ld_unsigned; done|].
  one_metric; [apply dec_s_text, ld_signed; by left|].
  one_metric; [apply dec_s_text, s64_range|].
  one_metric; [apply dec_s_text, ld_signed; by right|].
  apply latency_lines_are.
Qed.

Lemma body_lines_wf :
  Forall is_line (body_lines label ld) /\ Forall short (body_lines label ld) /\
  0 ∉ body label ld.
Proof.
  assert (Forall (fun l => is_line l /\ short l /\ chars_from 10 l = true) (body_lines label ld))
    as H.
  { eapply Forall2_Forall_l; [apply body_lines_are|]. apply Forall_true.
    intros s l (? & ? & ? & _). done. }
  repeat split.
  - by eapply Forall_impl; [exact H|]; intros ? (? & _).
  - by eapply Forall_impl; [exact H|]; intros ? (_ & ? & _).
  - apply (chars_from_not_in 10); [|lia]. unfold body.
    induction H as [|l ls (_ & _ & Hl) _ IH]; [done|]. simpl. by rewrite chars_from_app, Hl, IH.
Qed.

Lemma body_length : Z.of_nat (length (body label ld)) <= 6000.
Proof.
  destruct body_lines_wf as (_ & Hs & _). unfold body.
  assert (forall ls : list (list Z), Forall short ls -> (length (concat ls) <= 200 * length ls)%nat)
    as Hgen.
  { induction 1 as [|l ls [_ Hl] _ IH]; simpl; [lia|]. rewrite length_app. lia. }
  specialize (Hgen _ Hs). change (length (body_lines label ld)) with 30%nat in Hgen. lia.
Qed.

Lemma body_samples : samples (body label ld) = expected_samples label ld.
Proof.
  destruct body_lines_wf as (Hl & _ & _). unfold samples, body.
  rewrite split_lines_concat by done.
  transitivity (omap id expected_lines); [|reflexivity].
  assert (forall ls ss, Forall2 line_is ls ss -> omap sample (chomp <$> ls) = omap id ss) as Hgen.
  { induction 1 as [|l s ls ss (_ & _ & _ & Hs) _ IH]; [done|]. csimpl.
    rewrite Hs. destruct s; csimpl; by rewrite IH. }
  apply Hgen, body_lines_are.
Qed.
End Body.

(** ** Counting observations *)

Definition durations (ks : list call) : list Z :=
  omap (fun k => match k with CObserved d => Some d | _ => None end) ks.

Definition at_most (u : Z) (ds : list Z) : Z :=
  Z.of_nat (length (filter (fun d => d <= u) ds)).

Lemma u64_zsum l : u64 (zsum (u64 <$> l)) = u64 (zsum l).
Proof.
  induction l as [|x l IH]; [done|]. rewrite fmap_cons, !zsum_cons.
  by rewrite u64_add_l, <- u64_add_r, IH, u64_add_r.
Qed.

Lemma bucket_delta_sum k n :
  zsum ((fun i => call_delta (LatencyCount i) k) <$> seq 0 n) =
    match k with CObserved d => if decide (bucket_index d < n)%nat then 1 else 0 | _ => 0 end.
Proof.
  induction n as [|n IH]; [by destruct k|].
  rewrite seq_S, fmap_app, zsum_app, IH. simpl.
  destruct k; simpl; try done. repeat case_decide; lia.
Qed.

Lemma buckets_sum ks n :
  zsum ((fun i => zsum (call_delta (LatencyCount i) <$> ks)) <$> seq 0 n) =
    Z.of_nat (length (filter (fun d => bucket_index d < n)%nat (durations ks))).
Proof.
  induction ks as [|k ks IH].
  { simpl. induction (seq 0 n) as [|j l IH]; [done|]. by rewrite fmap_cons, zsum_cons, IH. }
  assert (forall l, zsum ((fun i => zsum (call_delta (LatencyCount i) <$> k :: ks)) <$> l) =
            zsum ((fun i => call_delta (LatencyCount i) k) <$> l) +
            zsum ((fun i => zsum (call_delta (LatencyCount i) <$> ks)) <$> l)) as Hsplit.
  { induction l as [|j l IHl]; [done|]. rewrite !fmap_cons, !zsum_cons. lia. }
  rewrite Hsplit, IH, bucket_delta_sum. destruct k; csimpl; try lia.
  rewrite filter_cons. repeat case_decide; simpl; lia.
Qed.

Lemma filter_bucket_le ks i :
  (i < 10)%nat ->
  Z.of_nat (length (filter (fun d => bucket_index d < S i)%nat (durations ks))) =
    at_most (k_bucket_upper_ns !!! i) (durations ks).
Proof.
  intros Hi. unfold at_most. do 2 f_equal. apply list_filter_iff. intros d.
  rewrite <- bucket_index_le by done. lia.
Qed.

Lemma filter_bucket_all ks :
  filter (fun d => bucket_index d < 11)%nat (durations ks) = durations ks.
Proof.
  induction (durations ks) as [|d ds IH]; [done|].
  pose proof (bucket_index_range d). rewrite filter_cons_True by lia. by rewrite IH.
Qed.

(** The running count of the first buckets after any interleaving of calls. *)
Lemma cumul_counts g ths tr n :
  registry_ok g -> (forall c, cell_valid c -> cell_get g c = 0) ->
  interleaving ((fun ks => concat (call_ops <$> ks)) <$> ths) tr -> (n <= 11)%nat ->
  cumul (cell_get (run g tr)) n =
    u64 (Z.of_nat (length (filter (fun d => bucket_index d < n)%nat (durations (concat ths))))).
Proof.
  intros Hg Hz Hil Hn. rewrite <- buckets_sum. unfold cumul.
  rewrite <- u64_zsum, <- (u64_zsum ((fun i => zsum _) <$> _)), <- !list_fmap_compose.
  do 2 f_equal. apply list_fmap_ext. intros j i Hi. apply lookup_seq in Hi as [-> Hi].
  assert (cell_valid (LatencyCount j)) as Hc by (simpl; lia).
  unfold compose. change (0 + j)%nat with j.
  rewrite (proj2 (proj2 (run_calls g ths tr Hg Hil)) _ Hc) by done. rewrite (Hz _ Hc). simpl. by rewrite u64_idemp.
Qed.

(** ** Properties *)

(** What a completed rendering leaves in the caller's buffer. *)
Lemma metrics_render_spec m ld b :
  model_ok m -> (forall c, cell_valid c -> cell_wrap c (ld c) = ld c) -> b <> [] ->
  exists d, metrics_render m ld (Some b) (Z.of_nat (length b)) =
              Ret (d, Z.of_nat (length (body (model_label m) ld))) /\
    length d = length b /\
    cstr d = take (length b - 1) (body (model_label m) ld).
Proof.
  intros Hm Hld Hb. destruct (model_label_ok m Hm) as (_ & Hlab & Hlen).
  pose proof (body_length _ ld Hlab Hlen Hld) as Hbl.
  destruct (body_lines_wf _ ld Hlab Hlen Hld) as (_ & Hshort & Hnul).
  rewrite metrics_render_lines. simpl default.
  destruct (append_all_inv (length b) [] (OBuf b (Z.of_nat (length b)) 0)
              (body_lines (model_label m) ld)) as (o & -> & Ho).
  { repeat split. right. by left. }
  { eapply Forall_impl; [exact Hshort|]. by intros ? []. }
  { change (Z.of_nat (length (body (model_label m) ld)) < 2 ^ 64). lia. }
  destruct (finish_inv _ _ _ Ho) as (rest & Hfin & Hlast).
  { destruct (body_lines (model_label m) ld) as [|l ls] eqn:E; [done|].
    apply Forall_cons in Hshort as [[Hl _] _]. simpl. by destruct l. }
  rewrite outcome_ret_bind, Hfin. assert (length b <> 0%nat) by by destruct b.
  rewrite decide_False by done.
  exists (take (length b - 1) (body (model_label m) ld) ++ 0 :: rest). split; [done|].
  split; [by apply Hlast|]. apply cstr_app_nul. intros Hin. apply Hnul.
  rewrite <- (take_drop (length b - 1) (body (model_label m) ld)). apply elem_of_app. by left.
Qed.

(** A NULL buffer only measures. *)
Lemma metrics_render_null m ld cap :
  model_ok m -> (forall c, cell_valid c -> cell_wrap c (ld c) = ld c) ->
  metrics_render m ld None cap = Ret ([], Z.of_nat (length (body (model_label m) ld))).
Proof.
  intros Hm Hld. destruct (model_label_ok m Hm) as (_ & Hlab & Hll).
  pose proof (body_length _ ld Hlab Hll Hld) as Hbl.
  destruct (body_lines_wf _ ld Hlab Hll Hld) as (_ & Hshort & _).
  rewrite metrics_render_lines. simpl default.
  destruct (append_all_inv 0 [] (OBuf [] 0 0) (body_lines (model_label m) ld)) as (o & -> & Ho).
  { repeat split. by left. }
  { eapply Forall_impl; [exact Hshort|]. by intros ? []. }
  { change (Z.of_nat (length (body (model_label m) ld)) < 2 ^ 64). lia. }
  destruct (finish_inv _ _ _ Ho) as (rest & Hfin & _); [done|exact Hfin].
Qed.

(** C28 [metrics_render_bounded]: rendering into a buffer of any size never writes
    outside it and returns the full length of the body, which the size does not
    change and which is at most 6000 bytes; the buffer then holds, NUL-terminated,
    as much of the body as fits. A NULL buffer only measures. *)
Theorem metrics_render_bounded (m : list Z) (ld : cell -> Z) (b : list Z) (cap : Z) :
  model_ok m -> (forall c, cell_valid c -> cell_wrap c (ld c) = ld c) -> b <> [] ->
  exists d n, metrics_render m ld (Some b) (Z.of_nat (length b)) = Ret (d, n) /\
    metrics_render m ld None cap = Ret ([], n) /\
    0 < n <= 6000 /\ length d = length b /\
    cstr d = take (length b - 1) (body (model_label m) ld) /\
    n = Z.of_nat (length (body (model_label m) ld)).
Proof.
  intros Hm Hld Hb. destruct (metrics_render_spec m ld b Hm Hld Hb) as (d & Hr & Hlen & Hstr).
  destruct (model_label_ok m Hm) as (_ & Hlab & Hll).
  pose proof (body_length _ ld Hlab Hll Hld) as Hbl.
  assert (body (model_label m) ld <> []) as Hne by done.
  assert (0 < Z.of_nat (length (body (model_label m) ld))) as Hpos
    by (destruct (body _ _); [done|simpl; lia]).
  exists d. eexists. split; [exact Hr|]. split; [by apply metrics_render_null|done].
Qed.

Lemma metrics_render_bounded_witness :
  exists d n, metrics_render (model registry_zero) (cell_get registry_zero)
                (Some (replicate 64 7)) 64 = Ret (d, n) /\ 64 <= n /\ length d = 64%nat.
Proof.
  destruct (metrics_render_bounded (model registry_zero) (cell_get registry_zero) (replicate 64 7) 0)
    as (d & n & Hr & _ & _ & Hl & _ & Hn);
    [apply registry_zero_ok|apply registry_zero_ok|discriminate|].
  exists d, n. split; [exact Hr|]. split; [|exact Hl]. rewrite Hn. vm_compute. discriminate.
Defined.

(** C10 [exposition_roundtrip]: parsing the text a scrape gets back, whatever
    values its loads returned while other threads were updating the registry,
    yields exactly the eighteen series with those values: the counters and gauges
    as loaded, the buckets as running totals, the sum to the nanosecond, and a
    count equal to the +Inf bucket. *)
Theorem exposition_roundtrip (m : list Z) (ld : cell -> Z) (b : list Z) :
  model_ok m -> (forall c, cell_valid c -> cell_wrap c (ld c) = ld c) ->
  6000 < Z.of_nat (length b) ->
  exists d n, metrics_render m ld (Some b) (Z.of_nat (length b)) = Ret (d, n) /\
    samples (cstr d) = expected_samples (model_label m) ld.
Proof.
  intros Hm Hld Hb.
  destruct (metrics_render_spec m ld b Hm Hld) as (d & Hr & Hlen & Hstr); [by destruct b|].
  destruct (model_label_ok m Hm) as (_ & Hlab & Hll).
  pose proof (body_length _ ld Hlab Hll Hld) as Hbl.
  exists d. eexists. split; [exact Hr|]. rewrite Hstr, take_ge by lia. by apply body_samples.
Qed.

Lemma exposition_roundtrip_witness :
  exists d n, metrics_render (model registry_zero) (cell_get registry_zero)
                (Some (replicate (Z.to_nat 6001) 0)) 6001 = Ret (d, n) /\ length (samples (cstr d)) = 18%nat.
Proof.
  destruct (exposition_roundtrip (model registry_zero) (cell_get registry_zero)
              (replicate (Z.to_nat 6001) 0)) as (d & n & Hr & Hs);
    [apply registry_zero_ok|apply registry_zero_ok|rewrite length_replicate; lia|].
  exists d, n. rewrite length_replicate in Hr. split; [exact Hr|]. rewrite Hs. reflexivity.
Defined.

(** C12 [histogram_exact]: after [metrics_init], whatever calls whatever threads
    make and however they interleave, the exposition's bucket [le = i] is the
    number of observed durations not exceeding the i-th bound (inclusive), and
    the +Inf bucket is the number of all of them, modulo 2^64. *)
Theorem histogram_exact (g : registry) (name : option (list Z)) (ths : list (list call))
    (tr : list atomic) (b : list Z) (i : nat) (le : list Z) (u : Z) :
  metrics_init registry_zero name = Ret g ->
  interleaving ((fun ks => concat (call_ops <$> ks)) <$> ths) tr ->
  6000 < Z.of_nat (length b) ->
  k_bucket_le !! i = Some le -> k_bucket_upper_ns !! i = Some u ->
  exists d n,
    metrics_render (model (run g tr)) (cell_get (run g tr)) (Some b) (Z.of_nat (length b)) = Ret (d, n) /\
    samples (cstr d) !! (5 + i)%nat =
      Some (bucket_series latency_name (sanitize name) le,
            u64 (at_most u (durations (concat ths))) * 10 ^ 9) /\
    samples (cstr d) !! 15%nat =
      Some (bucket_series latency_name (sanitize name) (lit "+Inf"),
            u64 (Z.of_nat (length (durations (concat ths)))) * 10 ^ 9).
Proof.
  intros Hinit Hil Hb Hle Hu.
  destruct (metrics_init_spec registry_zero name registry_zero_ok) as (g' & Hg' & Hok & Hlab & Hz).
  rewrite Hinit in Hg'. injection Hg' as <-.
  destruct (proj1 (run_calls g ths tr Hok Hil)) as (Hm & _ & Hw).
  destruct (metrics_render_spec (model (run g tr)) (cell_get (run g tr)) b Hm Hw) as (d & Hr & Hlen & Hstr);
    [by destruct b|].
  destruct (model_label_ok _ Hm) as (_ & Hl1 & Hl2). pose proof (body_length _ _ Hl1 Hl2 Hw) as Hbl.
  exists d. eexists. split; [exact Hr|].
  rewrite Hstr, take_ge, body_samples, run_model, Hlab by (done || lia).
  assert (i < 10)%nat as Hi by by apply lookup_lt_Some in Hu.
  split.
  - transitivity (Some (bucket_series latency_name (sanitize name) le,
                        cumul (cell_get (run g tr)) (S i) * 10 ^ 9)).
    + unfold expected_samples. rewrite lookup_app_r by (simpl; lia). simpl length.
      replace (5 + i - 5)%nat with i by lia.
      rewrite lookup_app_l by by rewrite length_imap. by rewrite list_lookup_imap, Hle.
    + rewrite (cumul_counts g ths) by (done || lia). rewrite filter_bucket_le by done.
      by rewrite (list_lookup_total_correct _ _ _ Hu).
  - change (Some (bucket_series latency_name (sanitize name) (lit "+Inf"),
                  cumul (cell_get (run g tr)) 11 * 10 ^ 9) =
            Some (bucket_series latency_name (sanitize name) (lit "+Inf"),
                  u64 (Z.of_nat (length (durations (concat ths)))) * 10 ^ 9)).
    rewrite (cumul_counts g ths) by (done || lia). by rewrite filter_bucket_all.
Qed.

Lemma histogram_exact_witness :
  exists g d n,
    metrics_init registry_zero (Some (lit "threadpool")) = Ret g /\
    metrics_render (model (run g (call_ops (CObserved 20000)))) (cell_get (run g (call_ops (CObserved 20000))))
      (Some (replicate (Z.to_nat 6001) 0)) 6001 = Ret (d, n) /\
    samples (cstr d) !! 5%nat =
      Some (bucket_series latency_name (lit "threadpool") (lit "0.00002"), 1 * 10 ^ 9).
Proof.
  destruct (metrics_init registry_zero (Some (lit "threadpool"))) as [g| |] eqn:E;
    [|vm_compute in E; discriminate|vm_compute in E; discriminate].
  destruct (histogram_exact g (Some (lit "threadpool")) [[CObserved 20000]]
    (call_ops (CObserved 20000)) (replicate (Z.to_nat 6001) 0) 0 (lit "0.00002") 20000 E)
    as (d & n & Hr & Hs & _).
  - apply (interleaving_step _ 0 _ [AAdd LatencySumNs 20000]); [reflexivity|].
    apply (interleaving_step _ 0 _ []); [reflexivity|]. apply interleaving_done. repeat constructor.
  - rewrite length_replicate. lia.
  - reflexivity.
  - reflexivity.
  - exists g, d, n. rewrite length_replicate in Hr. split; [reflexivity|].
    split; [exact Hr|]. exact Hs.
Defined.
