(* ===== verification/MetricsTests.v ===== *)
(** * The metric tests (tests/test_metrics.c)

    The repository's own test driver of metrics.c, run against the model of
    metrics.c: every test function with its assertions, and [main]. What the C
    program leaves to its environment is an argument: the contents of the
    uninitialised buffers on the stack, the answers of [pthread_create] and
    [pthread_join], the schedule of the eight threads of the concurrent test, and the
    clock.

    The theorem: the driver passes, whatever the schedule. *)

From S2P Require Import Prelude CString Metrics MetricsRender.
Local Open Scope Z_scope.

Definition RENDER_MAX : Z := 16384.
Definition THREADS : nat := 8.
Definition PER_THREAD : Z := 20000.

(** [assert]. *)
Definition c_assert (b : bool) : outcome unit :=
  if b then Ret tt else Exit "assertion failed".

(** A C string literal; an apostrophe stands for the double quote. *)
Definition quoted (s : string) : list Z := (fun c => if c =? 39 then QUOTE else c) <$> lit s.

(** ** Helpers *)

Definition render (g : registry) (buf : list Z) (cap : Z) : outcome (list Z) :=
  '(buf, len) ← metrics_render (model g) (cell_get g) (Some buf) cap;
  _ ← c_assert (len <? cap);
  Ret buf.

(** [None]: it returns -1; [Some v]: it returns 0 with [*out = v]. *)
Definition line_value (body prefix : list Z) : option Z :=
  match strstr_at (cstr body) prefix with
  | None => None
  | Some at_ =>
      match strchr at_ 32 with
      | None => None
      | Some space => Some (strtoull (drop 1 space))
      end
  end.

(** [assert(line_value(body, prefix, &value) == 0); assert(value == v);] *)
Definition expect_value (body : list Z) (prefix : string) (v : Z) : outcome unit :=
  match line_value body (quoted prefix) with
  | None => c_assert false
  | Some value => c_assert (value =? v)
  end.

Definition contains (body : list Z) (t : string) : bool := strstr (cstr body) (quoted t).

(** ** The tests *)

Definition test_model_label_is_sanitised (g : registry) (body : list Z) : outcome registry :=
  g ← metrics_init g (Some (lit "thread pool"));
  body ← render g body RENDER_MAX;
  _ ← c_assert (contains body "model='unknown'");
  g ← metrics_init g (Some (lit "threadpool"));
  body ← render g body RENDER_MAX;
  _ ← c_assert (contains body "model='threadpool'");
  Ret g.

Definition test_render_without_init_is_still_valid (g : registry) (body : list Z) : outcome registry :=
  body ← render g body RENDER_MAX;
  _ ← c_assert (negb (contains body "model=''"));
  _ ← c_assert (contains body "model='unknown'");
  Ret g.

Definition test_counters_and_gauges (g : registry) (body : list Z) : outcome registry :=
  g ← metrics_init g (Some (lit "epoll"));
  let g := run g (concat (replicate 7 metrics_connection_accepted)) in
  let g := run g metrics_connection_closed in
  let g := run g metrics_connection_closed in
  let g := run g metrics_connection_refused in
  let g := run g (metrics_queue_depth_set 64) in
  let g := run g (metrics_workers_busy_add 3) in
  let g := run g (metrics_workers_busy_add (-1)) in
  body ← render g body RENDER_MAX;
  _ ← expect_value body "server_connections_accepted_total{model='epoll'}" 7;
  _ ← expect_value body "server_connections_refused_total{model='epoll'}" 1;
  _ ← expect_value body "server_connections_active{model='epoll'}" 5;
  _ ← expect_value body "server_pool_queue_depth{model='epoll'}" 64;
  _ ← expect_value body "server_pool_workers_busy{model='epoll'}" 2;
  Ret g.

Definition test_histogram_boundaries_are_inclusive (g : registry) (body : list Z) : outcome registry :=
  g ← metrics_init g (Some (lit "threadpool"));
  let g := run g (metrics_request_observed 20000) in
  let g := run g (metrics_request_observed 20001) in
  let g := run g (metrics_request_observed 60000000) in
  body ← render g body RENDER_MAX;
  _ ← expect_value body "le='0.00002'} " 1;
  _ ← expect_value body "le='0.00005'} " 2;
  _ ← expect_value body "le='0.05'} " 2;
  _ ← expect_value body "le='+Inf'} " 3;
  _ ← expect_value body "server_request_duration_seconds_count" 3;
  _ ← c_assert (contains body "server_request_duration_seconds_sum{model='threadpool'} 0.060040001");
  Ret g.

(** [for (uint64_t ns = 1000; ns < 100000000; ns *= 3)]. *)
Fixpoint observe_loop (fuel : nat) (ns : Z) (g : registry) : outcome registry :=
  match fuel with
  | O => Fault NoReturn
  | S fuel =>
      if ns <? 100000000 then observe_loop fuel (u64 (ns * 3)) (run g (metrics_request_observed ns))
      else Ret g
  end.

(** [while ((cursor = strstr(cursor, "_bucket{")) != NULL)]: the last value. Every
    iteration leaves the cursor further on. *)
Fixpoint monotonic_loop (fuel : nat) (cursor : list Z) (previous : Z) : outcome Z :=
  match fuel with
  | O => Fault NoReturn
  | S fuel =>
      match strstr_at cursor (lit "_bucket{") with
      | None => Ret previous
      | Some cursor =>
          match strchr cursor 32 with
          | None => Exit "assertion failed"
          | Some space =>
              let value := strtoull (drop 1 space) in
              _ ← c_assert (previous <=? value);
              monotonic_loop fuel space value
          end
      end
  end.

Definition test_buckets_are_monotonic (g : registry) (body : list Z) : outcome registry :=
  g ← metrics_init g (Some (lit "select"));
  g ← observe_loop 65 1000 g;
  body ← render g body RENDER_MAX;
  previous ← monotonic_loop (S (length (cstr body))) (cstr body) 0;
  _ ← c_assert (0 <? previous);
  Ret g.

Definition test_truncation_reports_required_length (g : registry) (small : list Z) : outcome registry :=
  g ← metrics_init g (Some (lit "sequential"));
  let g := run g metrics_connection_accepted in
  '(small, needed) ← metrics_render (model g) (cell_get g) (Some small) 64;
  _ ← c_assert (64 <? needed);
  last ← buf_get small (64 - 1);
  _ ← c_assert (last =? 0);
  '(_, len) ← metrics_render (model g) (cell_get g) None 0;
  _ ← c_assert (len =? needed);
  Ret g.

(** The calls of one thread. *)
Definition hammer_body (i : Z) : list call :=
  [CAccepted; CObserved (u64 (i `rem` 1000 * 100)); CClosed].

Definition hammer : list call := concat (hammer_body <$> seqZ 0 PER_THREAD).

(** [assert(pthread_create(...) == 0)] and [assert(pthread_join(...) == 0)] for each
    thread, given the answers. *)
Fixpoint assert_zero (answers : list Z) : outcome unit :=
  match answers with
  | [] => Ret tt
  | rc :: answers => _ ← c_assert (rc =? 0); assert_zero answers
  end.

(** [tr]: the atomic accesses of the threads, as they happen. *)
Definition test_concurrent_updates_do_not_lose_counts (g : registry) (created joined : list Z)
    (tr : list atomic) (body : list Z) : outcome registry :=
  g ← metrics_init g (Some (lit "threadpool"));
  _ ← assert_zero created;
  let g := run g tr in
  _ ← assert_zero joined;
  body ← render g body RENDER_MAX;
  _ ← expect_value body "server_connections_accepted_total{model='threadpool'}" (Z.of_nat THREADS * PER_THREAD);
  _ ← expect_value body "server_connections_active{model='threadpool'}" 0;
  _ ← expect_value body "server_request_duration_seconds_count" (Z.of_nat THREADS * PER_THREAD);
  Ret g.

(** [for (int i = 0; i < 1000000; i++) spin += (uint64_t)i;] *)
Definition spin_loop : Z := fold_left (fun spin i => u64 (spin + u64 i)) (seqZ 0 1000000) 0.

Definition test_monotonic_clock_advances (start now : option (Z * Z)) : outcome unit :=
  _ ← c_assert (0 <? spin_loop);
  c_assert (metrics_now_ns start <=? metrics_now_ns now).

(** What the environment contributes to a run of the driver. *)
Record test_env := TestEnv {
  te_body : nat -> list Z;       (* the buffers [body], one per test *)
  te_small : list Z;
  te_created : list Z;
  te_joined : list Z;
  te_trace : list atomic;
  te_start : option (Z * Z);
  te_now : option (Z * Z)
}.

Definition test_main (g : registry) (e : test_env) : outcome registry :=
  g ← test_render_without_init_is_still_valid g (te_body e 0);
  g ← test_model_label_is_sanitised g (te_body e 1);
  g ← test_counters_and_gauges g (te_body e 2);
  g ← test_histogram_boundaries_are_inclusive g (te_body e 3);
  g ← test_buckets_are_monotonic g (te_body e 4);
  g ← test_truncation_reports_required_length g (te_small e);
  g ← test_concurrent_updates_do_not_lose_counts g (te_created e) (te_joined e) (te_trace e) (te_body e 6);
  _ ← test_monotonic_clock_advances (te_start e) (te_now e);
  Ret g.

(** ** Registries that hold the same values

    The tests go on from the registry the previous one left behind, whose label
    buffer keeps old bytes after the NUL; what is rendered depends on the label and
    the cells only. *)

Definition shows (label : list Z) (gc g : registry) : Prop :=
  registry_ok g /\ model_label (model g) = label /\
  forall c, cell_valid c -> cell_get g c = cell_get gc c.

Lemma exec_same g gc a :
  length (latency_count g) = 11%nat -> length (latency_count gc) = 11%nat -> cell_valid (atomic_cell a) ->
  (forall c, cell_valid c -> cell_get g c = cell_get gc c) ->
  forall c, cell_valid c -> cell_get (exec g a) c = cell_get (exec gc a) c.
Proof.
  intros Hg Hgc Ha Heq c Hc. destruct a as [c' v|c' v]; simpl in *; rewrite !cell_get_set by done;
    case_decide; subst; rewrite ?Heq by done; done.
Qed.

Lemma shows_run label gc g tr :
  length (latency_count gc) = 11%nat -> Forall (fun a => cell_valid (atomic_cell a)) tr ->
  shows label gc g -> shows label (run gc tr) (run g tr).
Proof.
  intros Hgc Htr (Hok & Hl & Heq). split; [by apply run_ok|]. split; [by rewrite run_model|].
  destruct Hok as (_ & Hg & _). clear Hl. revert g gc Hg Hgc Heq.
  induction Htr as [|a tr Ha _ IH]; intros g gc Hg Hgc Heq; [done|]. simpl.
  apply IH; [by apply exec_shape..|]. by apply exec_same.
Qed.

Lemma shows_init g name :
  registry_ok g -> exists g', metrics_init g name = Ret g' /\ shows (sanitize name) registry_zero g'.
Proof.
  intros Hg. destruct (metrics_init_spec g name Hg) as (g' & Hi & Hok & Hl & Hz).
  exists g'. split; [done|]. split; [done|]. split; [done|]. intros c Hc. rewrite Hz by done.
  destruct c; try done. simpl in Hc. do 11 (destruct i as [|i]; [done|]). lia.
Qed.

Lemma shows_refl gc : registry_ok gc -> shows (model_label (model gc)) gc gc.
Proof. by split. Qed.

Lemma body_same label ld ld' :
  (forall c, cell_valid c -> ld c = ld' c) -> body label ld = body label ld'.
Proof.
  intros Heq.
  assert (forall n, (n <= 11)%nat -> cumul ld n = cumul ld' n) as Hc.
  { intros n Hn. unfold cumul. do 2 f_equal. apply list_fmap_ext. intros j i Hi.
    apply lookup_seq in Hi as [-> ?]. apply Heq. simpl. lia. }
  unfold body, body_lines, latency_lines. rewrite !Heq by done. rewrite Hc by lia.
  do 2 f_equal. do 4 (f_equal; [done..|]). simpl. by rewrite !Hc by lia.
Qed.

(** Rendering such a registry into a large buffer. *)
Lemma render_shows label gc g buf :
  shows label gc g -> Z.of_nat (length buf) = RENDER_MAX ->
  exists d, render g buf RENDER_MAX = Ret d /\ Z.of_nat (length d) = RENDER_MAX /\
    cstr d = body label (cell_get gc).
Proof.
  intros ((Hm & _ & Hw) & Hl & Heq) Hb. unfold RENDER_MAX in *.
  destruct (metrics_render_spec (model g) (cell_get g) buf Hm Hw) as (d & Hr & Hlen & Hstr);
    [by destruct buf|].
  destruct (model_label_ok _ Hm) as (_ & Hl1 & Hl2). pose proof (body_length _ _ Hl1 Hl2 Hw) as Hbl.
  exists d. unfold render. rewrite Hb in Hr. rewrite Hr, outcome_ret_bind. cbv zeta beta.
  rewrite (proj2 (Z.ltb_lt _ 16384)) by lia. split; [done|]. split; [lia|].
  rewrite Hstr, take_ge, Hl by lia. by apply body_same.
Qed.

(** ** The tests pass *)

(** Evaluate the assertions of a test on a body [H] describes. *)
Ltac check_asserts H :=
  repeat match goal with
  | |- context [expect_value ?d ?p ?v] =>
      let E := fresh in
      assert (expect_value d p v = Ret tt) as E
        by (unfold expect_value, line_value; rewrite H; vm_compute; reflexivity);
      rewrite E, outcome_ret_bind; clear E
  | |- context [contains ?d ?p] =>
      let E := fresh in
      eassert (contains d p = _) as E by (unfold contains; rewrite H; vm_compute; reflexivity);
      rewrite E; clear E; simpl negb; simpl c_assert; rewrite outcome_ret_bind
  end.

(** Reset the registry, as every test but one begins. *)
Ltac start_test g H :=
  match goal with
  | Hg : registry_ok _ |- context [metrics_init ?g0 ?name] =>
      destruct (shows_init g0 name Hg) as (g & -> & H); rewrite outcome_ret_bind
  end.

(** Perform calls whose cells are valid. *)
Ltac run_calls_in H :=
  repeat match type of H with
  | shows _ ?gc ?g =>
      match goal with
      | |- context [run g ?tr] =>
          apply (shows_run _ gc g tr) in H;
            [|reflexivity || by apply run_shape|repeat constructor; simpl; lia];
          let g' := fresh "g" in set (g' := run g tr) in *; clearbody g'
      end
  end.

Ltac render_in H d Hd Hlen :=
  match goal with
  | Hb : Z.of_nat (length ?buf) = RENDER_MAX |- context [render ?g ?buf RENDER_MAX] =>
      destruct (render_shows _ _ g buf H Hb) as (d & -> & Hlen & Hd); rewrite outcome_ret_bind
  end.

Section Tests.
Context (g : registry) (Hg : registry_ok g).
Context (buf : list Z) (Hbuf : Z.of_nat (length buf) = RENDER_MAX).

Lemma label_passes :
  exists g', test_model_label_is_sanitised g buf = Ret g' /\ registry_ok g'.
Proof.
  unfold test_model_label_is_sanitised. start_test g1 H1. render_in H1 d Hd Hlen. check_asserts Hd.
  destruct H1 as (Hg1 & _). destruct (shows_init g1 (Some (lit "threadpool")) Hg1) as (g2 & -> & H2).
  rewrite outcome_ret_bind. destruct (render_shows _ _ g2 d H2 Hlen) as (d2 & -> & _ & Hd2).
  rewrite outcome_ret_bind. check_asserts Hd2. exists g2. split; [done|]. apply H2.
Qed.

Lemma counters_pass :
  exists g', test_counters_and_gauges g buf = Ret g' /\ registry_ok g'.
Proof.
  unfold test_counters_and_gauges. start_test g1 H1. cbv zeta. run_calls_in H1. render_in H1 d Hd Hlen.
  check_asserts Hd. eexists. split; [done|]. apply H1.
Qed.

Lemma boundaries_pass :
  exists g', test_histogram_boundaries_are_inclusive g buf = Ret g' /\ registry_ok g'.
Proof.
  unfold test_histogram_boundaries_are_inclusive. start_test g1 H1. cbv zeta. run_calls_in H1.
  render_in H1 d Hd Hlen. check_asserts Hd. eexists. split; [done|]. apply H1.
Qed.

(** The durations the loop goes through. *)
Fixpoint observe_values (fuel : nat) (ns : Z) : outcome (list Z) :=
  match fuel with
  | O => Fault NoReturn
  | S fuel =>
      if ns <? 100000000 then l ← observe_values fuel (u64 (ns * 3)); Ret (ns :: l) else Ret []
  end.

Lemma observe_loop_run fuel ns g1 :
  observe_loop fuel ns g1 =
    l ← observe_values fuel ns; Ret (run g1 (concat (metrics_request_observed <$> l))).
Proof.
  revert ns g1. induction fuel as [|fuel IH]; intros ns g1; [done|]. cbn [observe_loop observe_values].
  destruct (ns <? 100000000); [|done]. rewrite IH, outcome_bind_assoc.
  destruct (observe_values fuel (u64 (ns * 3))); [|done..]. rewrite !outcome_ret_bind.
  by rewrite fmap_cons, concat_cons, run_app.
Qed.

Lemma buckets_pass :
  exists g', test_buckets_are_monotonic g buf = Ret g' /\ registry_ok g'.
Proof.
  unfold test_buckets_are_monotonic. start_test g1 H1. rewrite observe_loop_run.
  eassert (observe_values 65 1000 = Ret _) as -> by (vm_compute; reflexivity).
  rewrite !outcome_ret_bind. run_calls_in H1. render_in H1 d Hd Hlen. rewrite Hd.
  eassert (monotonic_loop _ _ _ = Ret _) as -> by (vm_compute; reflexivity).
  eexists. split; [reflexivity|]. apply H1.
Qed.
End Tests.

Lemma truncation_passes g small :
  registry_ok g -> length small = 64%nat ->
  exists g', test_truncation_reports_required_length g small = Ret g' /\ registry_ok g'.
Proof.
  intros Hg Hs. unfold test_truncation_reports_required_length. start_test g1 H1. cbv zeta. run_calls_in H1.
  pose proof H1 as ((Hm & _ & Hw) & Hl & Heq).
  destruct (metrics_render_spec _ _ small Hm Hw) as (d & Hr & Hlen & Hstr); [by destruct small|].
  rewrite Hs in Hr, Hstr. change (Z.of_nat 64) with 64 in Hr. rewrite Hr, outcome_ret_bind.
  rewrite metrics_render_null by done. rewrite Hl, (body_same _ _ _ Heq) in *.
  assert (buf_get d (64 - 1) = Ret 0) as ->.
  { apply buf_get_ok; [done|]. pose proof (cstr_terminated d) as Ht. rewrite Hstr, Hlen, Hs in Ht.
    apply Ht. vm_compute. lia. }
  rewrite outcome_ret_bind. set (n := Z.of_nat (length (body _ _))) in *.
  assert (64 < n) as Hn by (subst n; vm_compute; reflexivity). clearbody n.
  rewrite (proj2 (Z.ltb_lt _ _) Hn). cbn. rewrite Z.eqb_refl. eexists. split; [reflexivity|apply H1].
Qed.

(** ** The concurrent test *)

Lemma seqZ_periodic {A} (f : Z -> A) (m : Z) (k : nat) :
  0 <= m -> (forall i (j : nat), 0 <= i -> f (i + m * Z.of_nat j) = f i) ->
  f <$> seqZ 0 (m * Z.of_nat k) = concat (replicate k (f <$> seqZ 0 m)).
Proof.
  intros Hm Hf. induction k as [|k IH]; [by rewrite Z.mul_0_r|].
  replace (m * Z.of_nat (S k)) with (m * Z.of_nat k + m) by lia.
  rewrite seqZ_app, fmap_app, IH by lia. rewrite replicate_S_end, concat_app. f_equal. cbn [concat].
  rewrite app_nil_r. rewrite Z.add_0_l. replace (m * Z.of_nat k) with (m * Z.of_nat k + 0) by lia.
  rewrite <- fmap_add_seqZ, <- list_fmap_compose.
  apply list_fmap_ext. intros j x Hx. apply lookup_seqZ in Hx as [-> ?]. unfold compose.
  rewrite (Z.add_comm (m * _)). apply Hf. lia.
Qed.

Lemma zsum_replicate {A} (f : A -> Z) (l : list A) (k : nat) :
  zsum (f <$> concat (replicate k l)) = Z.of_nat k * zsum (f <$> l).
Proof. induction k as [|k IH]; [done|]. cbn [replicate concat]. rewrite fmap_app, zsum_app, IH. lia. Qed.

Definition hammer_period : list call := concat (hammer_body <$> seqZ 0 1000).

Lemma hammer_sum c : zsum (call_delta c <$> concat (replicate THREADS hammer)) = 160 * zsum (call_delta c <$> hammer_period).
Proof.
  assert (hammer = concat (replicate 20 hammer_period)) as ->.
  { unfold hammer, hammer_period. change PER_THREAD with (1000 * Z.of_nat 20).
    rewrite seqZ_periodic; [|lia|].
    - generalize (hammer_body <$> seqZ 0 1000). intros l. generalize 20%nat as k.
      induction k as [|k IH]; [done|]. cbn [replicate concat]. by rewrite concat_app, IH.
    - intros i j Hi. unfold hammer_body. do 5 f_equal. rewrite Z.mul_comm. apply Z.rem_add; lia. }
  rewrite !zsum_replicate. change (Z.of_nat THREADS) with 8. lia.
Qed.

(** What the threads leave in the registry. *)
Definition hammered : registry :=
  Registry (replicate 32 0) 160000 0 0 0 0 [32160; 48000; 79840; 0; 0; 0; 0; 0; 0; 0; 0] 7992000000.

Lemma hammer_no_depth d : CDepth d ∉ concat (replicate THREADS hammer).
Proof.
  rewrite list_elem_of_In, in_concat. intros (h & Hh & Hd). apply list_elem_of_In, elem_of_replicate in Hh as [-> _].
  apply in_concat in Hd as (b & Hb & Hd). apply list_elem_of_In, list_elem_of_fmap in Hb as (i & -> & _).
  apply list_elem_of_In in Hd. unfold hammer_body in Hd. set_solver.
Qed.

Lemma hammer_shows label g tr :
  shows label registry_zero g ->
  interleaving ((fun ks => concat (call_ops <$> ks)) <$> replicate THREADS hammer) tr ->
  shows label hammered (run g tr).
Proof.
  intros (Hok & Hl & Heq) Hil. destruct (run_calls g _ tr Hok Hil) as (Hok' & Hdepth & Hget).
  split; [done|]. split; [by rewrite run_model|]. intros c Hc. destruct (decide (c = QueueDepth)) as [->|Hq].
  { destruct (last _) as [d|]; destruct Hdepth as [Hd Hdepth]; [by apply hammer_no_depth in Hd|].
    transitivity (queue_depth g); [exact Hdepth|exact (Heq QueueDepth I)]. }
  rewrite Hget, Heq, hammer_sum by done.
  destruct c as [| | | | |i|]; [vm_compute; reflexivity..| |vm_compute; reflexivity]. simpl in Hc.
  do 11 (destruct i as [|i]; [vm_compute; reflexivity|]). lia.
Qed.

Lemma assert_zero_ok answers : Forall (eq 0) answers -> assert_zero answers = Ret tt.
Proof. by induction 1 as [|rc answers <- _ IH]. Qed.

Lemma concurrent_passes g created joined tr buf :
  registry_ok g -> Forall (eq 0) created -> Forall (eq 0) joined ->
  interleaving ((fun ks => concat (call_ops <$> ks)) <$> replicate THREADS hammer) tr ->
  Z.of_nat (length buf) = RENDER_MAX ->
  exists g', test_concurrent_updates_do_not_lose_counts g created joined tr buf = Ret g' /\
    registry_ok g' /\ forall c, cell_valid c -> cell_get g' c = cell_get hammered c.
Proof.
  intros Hg Hc Hj Hil Hbuf. unfold test_concurrent_updates_do_not_lose_counts. start_test g1 H1.
  rewrite (assert_zero_ok created), (assert_zero_ok joined), !outcome_ret_bind by done.
  apply (hammer_shows _ _ tr) in H1; [|done]. cbv zeta. render_in H1 d Hd Hlen. check_asserts Hd.
  eexists. split; [done|]. destruct H1 as (? & _ & ?). done.
Qed.

(** ** The clock *)

Lemma spin_fold l s : 0 <= s < 2 ^ 64 -> fold_left (fun spin i => u64 (spin + u64 i)) l s = u64 (s + zsum l).
Proof.
  revert s. induction l as [|i l IH]; intros s Hs; simpl; [rewrite Z.add_0_r; by rewrite u64_small|].
  rewrite IH by apply u64_range. rewrite u64_add_l. replace (s + u64 i + zsum l) with (s + zsum l + u64 i) by lia.
  rewrite u64_add_r. f_equal. lia.
Qed.

Lemma zsum_seqZ (n : Z) : 0 <= n -> 2 * zsum (seqZ 0 n) = n * (n - 1).
Proof.
  intros Hn. rewrite <- (Z2Nat.id n) by done. generalize (Z.to_nat n) as k. clear n Hn.
  induction k as [|k IH]; [done|]. rewrite Nat2Z.inj_succ. unfold Z.succ.
  rewrite seqZ_app, zsum_app by lia. simpl. lia.
Qed.

(** What CLOCK_MONOTONIC promises of two successive readings: [clock_gettime] succeeds,
    the nanoseconds are fewer than 10^9, and the second reading is not before the
    first. 2^34 seconds are 544 years. *)
Definition ts_before (a b : Z * Z) : Prop :=
  (0 <= a.1 /\ 0 <= a.2 < 10 ^ 9) /\ (b.1 < 2 ^ 34 /\ 0 <= b.2 < 10 ^ 9) /\
  (a.1 < b.1 \/ a.1 = b.1 /\ a.2 <= b.2).

Lemma now_ns_mono a b : ts_before a b -> metrics_now_ns (Some a) <= metrics_now_ns (Some b).
Proof.
  destruct a as [s n], b as [s' n']. unfold ts_before, metrics_now_ns. simpl. intros H.
  assert (2 ^ 34 * 10 ^ 9 < 2 ^ 64) by done.
  rewrite ?u64_small by (rewrite ?u64_small by (rewrite ?u64_small; lia); lia). lia.
Qed.

Lemma clock_passes a b : ts_before a b -> test_monotonic_clock_advances (Some a) (Some b) = Ret tt.
Proof.
  intros Hle%now_ns_mono. revert Hle. generalize (Some a) (Some b). intros start now Hle. unfold test_monotonic_clock_advances, spin_loop. rewrite spin_fold by lia.
  pose proof (zsum_seqZ 1000000 ltac:(lia)) as H. set (x := zsum _) in *. clearbody x.
  rewrite u64_small by lia. rewrite (proj2 (Z.ltb_lt _ _)) by lia. simpl c_assert.
  by rewrite (proj2 (Z.leb_le _ _) Hle).
Qed.

(** ** The driver *)

Lemma without_init_passes buf :
  Z.of_nat (length buf) = RENDER_MAX ->
  test_render_without_init_is_still_valid registry_zero buf = Ret registry_zero.
Proof.
  intros Hb. unfold test_render_without_init_is_still_valid.
  destruct (render_shows _ _ _ buf (shows_refl _ registry_zero_ok) Hb) as (d & -> & _ & Hd).
  rewrite outcome_ret_bind. by check_asserts Hd.
Qed.

#[local] Opaque test_render_without_init_is_still_valid test_model_label_is_sanitised test_counters_and_gauges test_histogram_boundaries_are_inclusive
  test_buckets_are_monotonic test_truncation_reports_required_length
  test_concurrent_updates_do_not_lose_counts test_monotonic_clock_advances.

(** C20 [test_main_passes]: the repository's tests of the metrics pass, every assertion
    of them, whatever the uninitialised buffers hold and however the atomic accesses of
    the eight threads of the concurrent test interleave, provided [pthread_create] and
    [pthread_join] succeed and CLOCK_MONOTONIC is what it promises; and the registry is left with
    exactly the counts of those threads. *)
Theorem test_main_passes (e : test_env) (a b : Z * Z) :
  (forall k, Z.of_nat (length (te_body e k)) = RENDER_MAX) -> length (te_small e) = 64%nat ->
  Forall (eq 0) (te_created e) -> Forall (eq 0) (te_joined e) ->
  interleaving ((fun ks => concat (call_ops <$> ks)) <$> replicate THREADS hammer) (te_trace e) ->
  te_start e = Some a -> te_now e = Some b -> ts_before a b ->
  exists g, test_main registry_zero e = Ret g /\ registry_ok g /\
    forall c, cell_valid c -> cell_get g c = cell_get hammered c.
Proof.
  intros Hb Hs Hc Hj Hil Ha Hn Hnow. unfold test_main. rewrite Ha, Hn.
  rewrite without_init_passes, outcome_ret_bind by done.
  destruct (label_passes _ registry_zero_ok _ (Hb 1%nat)) as (g1 & -> & H1). rewrite outcome_ret_bind.
  destruct (counters_pass _ H1 _ (Hb 2%nat)) as (g2 & -> & H2). rewrite outcome_ret_bind.
  destruct (boundaries_pass _ H2 _ (Hb 3%nat)) as (g3 & -> & H3). rewrite outcome_ret_bind.
  destruct (buckets_pass _ H3 _ (Hb 4%nat)) as (g4 & -> & H4). rewrite outcome_ret_bind.
  destruct (truncation_passes _ _ H4 Hs) as (g5 & -> & H5). rewrite outcome_ret_bind.
  destruct (concurrent_passes _ _ _ _ _ H5 Hc Hj Hil (Hb 6%nat)) as (g6 & -> & H6 & Hget).
  rewrite outcome_ret_bind, clock_passes, outcome_ret_bind by done. by exists g6.
Qed.

(** One thread after the other. *)
Definition demo_trace : list atomic :=
  concat ((fun ks => concat (call_ops <$> ks)) <$> replicate THREADS hammer).

Lemma demo_trace_ok : interleaving ((fun ks => concat (call_ops <$> ks)) <$> replicate THREADS hammer) demo_trace.
Proof. unfold demo_trace. generalize (replicate THREADS hammer). intros ths. apply interleaving_concat. Qed.

Definition demo_test_env : test_env :=
  TestEnv (fun _ => replicate (Z.to_nat RENDER_MAX) 7) (replicate 64 7) (replicate 8 0) (replicate 8 0)
    demo_trace (Some (5, 1)) (Some (5, 2)).

Lemma test_main_passes_witness :
  exists g, test_main registry_zero demo_test_env = Ret g /\ accepted g = 160000.
Proof.
  destruct (test_main_passes demo_test_env (5, 1) (5, 2)) as (g & Hg & _ & Hget).
  - intros k. cbn [te_body demo_test_env]. rewrite length_replicate. reflexivity.
  - reflexivity.
  - repeat constructor.
  - repeat constructor.
  - exact demo_trace_ok.
  - reflexivity.
  - reflexivity.
  - unfold ts_before. simpl. lia.
  - exists g. split; [exact Hg|exact (Hget Accepted I)].
Defined.
