(* ===== verification/Protocol.v ===== *)
(** * The blocking protocol (src/src/protocol.c)

    - [send_all], [classify_errno], [serve_result_str], [ignore_sigpipe];
    - [transform_loop]: the [for] of [serve_connection] that rewrites the receive
      buffer in place, reading at [i] while writing at [nsend];
    - [serve_connection]: the whole conversation on one socket, with the clock it
      reads and the histogram it feeds. The [while (1)] runs on fuel; each
      iteration uses up part of the socket's [recv] script, and [serve_connection]
      supplies one more iteration than the script can answer. *)

From S2P Require Import Prelude Framing CString Posix Metrics.
Local Open Scope Z_scope.

Definition RECVBUF_SIZE : Z := 1024.

Inductive serve_result_t := SERVE_OK | SERVE_PEER_RESET | SERVE_IO_ERROR.

#[export] Instance serve_result_eq_dec : EqDecision serve_result_t.
Proof. solve_decision. Defined.

Definition serve_result_str (r : serve_result_t) : string :=
  match r with
  | SERVE_OK => "peer closed"
  | SERVE_PEER_RESET => "peer reset"
  | SERVE_IO_ERROR => "io error"
  end.

Definition ignore_sigpipe (p : proc) : proc := Proc true.

Definition send_all (p : proc) (s : sock) (buf : list Z) : sent_all * sock :=
  send_to (sigpipe_ignored p) s buf.

Definition classify_errno (errno : Z) : serve_result_t :=
  if (errno =? ECONNRESET) || (errno =? EPIPE) || (errno =? ETIMEDOUT)
  then SERVE_PEER_RESET else SERVE_IO_ERROR.

(** [n] iterations of the transforming loop are left. *)
Fixpoint transform_loop (n : nat) (i nsend : Z) (recvbuf : list Z) (state : ProcessingState) :
    outcome (list Z * Z * ProcessingState) :=
  match n with
  | O => Ret (recvbuf, nsend, state)
  | S n' =>
      c ← buf_get recvbuf i;
      match state with
      | WAIT_FOR_MSG =>
          transform_loop n' (i + 1) nsend recvbuf (if c =? HAT then IN_MSG else WAIT_FOR_MSG)
      | IN_MSG =>
          if c =? DOLLAR then transform_loop n' (i + 1) nsend recvbuf WAIT_FOR_MSG
          else
            recvbuf ← buf_set recvbuf nsend (u8 (c + 1));
            transform_loop n' (i + 1) (nsend + 1) recvbuf IN_MSG
      end
  end.

(** The process as [serve_connection] sees it: the socket, the registry, the
    monotonic clock and how often it has been read. *)
Record world := World {
  w_sock : sock;
  w_reg : registry;
  w_clock : nat -> option (Z * Z);
  w_ticks : nat
}.

Definition with_sock (w : world) (s : sock) : world :=
  World s (w_reg w) (w_clock w) (w_ticks w).

Definition read_clock (w : world) : Z * world :=
  (metrics_now_ns (w_clock w (w_ticks w)), World (w_sock w) (w_reg w) (w_clock w) (S (w_ticks w))).

Definition observe (w : world) (started_ns : Z) : world :=
  let '(now, w) := read_clock w in
  World (w_sock w) (run (w_reg w) (metrics_request_observed (u64 (now - started_ns))))
    (w_clock w) (w_ticks w).

Inductive served :=
| Served (r : serve_result_t)  (* serve_connection returned r *)
| AwaitRecv                    (* blocked in recv *)
| AwaitSend                    (* blocked in send *)
| Killed                       (* SIGPIPE ended the process *)
| ServeFault (f : fault)       (* the buffer was overrun *)
| NoFuel.

(** One iteration of the loop of [serve_connection]: [recv] was interrupted, a request
    has been answered but not yet recorded, or the loop does not go on. *)
Inductive request :=
| Again
| Answered (state : ProcessingState) (started_ns : Z)
| Stopped (r : served).

(** [garbage]: the indeterminate contents of the automatic [recvbuf]. *)
Definition serve_request (p : proc) (garbage : list Z) (state : ProcessingState) (w : world) : request * world :=
  match sys_recv RECVBUF_SIZE (w_sock w) with
  | None => (Stopped AwaitRecv, w)
  | Some (RecvError errno, s) =>
      let w := with_sock w s in
      if errno =? EINTR then (Again, w) else (Stopped (Served (classify_errno errno)), w)
  | Some (Received [], s) => (Stopped (Served SERVE_OK), with_sock w s)
  | Some (Received bs, s) =>
      let '(started_ns, w) := read_clock (with_sock w s) in
      match (recvbuf ← buf_blit garbage 0 bs;
             transform_loop (length bs) 0 0 recvbuf state) with
      | Ret (recvbuf, nsend, state) =>
          let '(r, s) := if 0 <? nsend then send_all p (w_sock w) (slice recvbuf 0 nsend)
                         else (SentAll, w_sock w) in
          let w := with_sock w s in
          match r with
          | SentAll => (Answered state started_ns, w)
          | SendFailed errno => (Stopped (Served (classify_errno errno)), w)
          | SendBlocked => (Stopped AwaitSend, w)
          | SendKilled => (Stopped Killed, w)
          end
      | Exit _ => (Stopped (ServeFault OutOfBounds), w)
      | Fault f => (Stopped (ServeFault f), w)
      end
  end.

Fixpoint serve_loop (fuel : nat) (p : proc) (garbage : list Z) (state : ProcessingState) (w : world) :
    served * world :=
  match fuel with
  | O => (NoFuel, w)
  | S fuel' =>
      match serve_request p garbage state w with
      | (Again, w) => serve_loop fuel' p garbage state w
      | (Answered state started_ns, w) => serve_loop fuel' p garbage state (observe w started_ns)
      | (Stopped r, w) => (r, w)
      end
  end.

Definition serve_connection (p : proc) (garbage : list Z) (w : world) : served * world :=
  let '(r, s) := send_all p (w_sock w) [STAR] in
  let w := with_sock w s in
  match r with
  | SentAll => serve_loop (S (rx_size (rx s))) p garbage WAIT_FOR_MSG w
  | SendFailed errno => (Served (classify_errno errno), w)
  | SendBlocked => (AwaitSend, w)
  | SendKilled => (Killed, w)
  end.

(** ** The in-place transformation *)

(** One received buffer: what is echoed and the state afterwards. *)
Definition transform (garbage : list Z) (state : ProcessingState) (bs : list Z) :
    outcome (list Z * ProcessingState) :=
  recvbuf ← buf_blit garbage 0 bs;
  '(recvbuf, nsend, state) ← transform_loop (length bs) 0 0 recvbuf state;
  Ret (slice recvbuf 0 nsend, state).

(** The loop never leaves the buffer, and because it writes at or before where it
    reads, it computes the machine's output on the original contents. *)
Lemma transform_loop_spec n i nsend buf st :
  0 <= nsend <= i -> i + Z.of_nat n <= Z.of_nat (length buf) ->
  let inp := slice buf i (Z.of_nat n) in
  exists buf', transform_loop n i nsend buf st =
      Ret (buf', nsend + Z.of_nat (length (frame_out st inp)), frame_state st inp) /\
    length buf' = length buf /\
    slice buf' 0 (nsend + Z.of_nat (length (frame_out st inp))) =
      slice buf 0 nsend ++ frame_out st inp.
Proof.
  revert i nsend buf st. induction n as [|n IH]; intros i nsend buf st Hns Hlen inp; subst inp.
  { exists buf. rewrite slice_nil by lia. simpl. rewrite Z.add_0_r, app_nil_r. done. }
  destruct (buf_get_lt buf i) as (c & Hc & Hget); [lia|].
  rewrite (slice_cons_lookup buf i n c) by (done || lia).
  cbn [transform_loop]. rewrite Hget, outcome_ret_bind.
  rewrite frame_out_cons, frame_state_cons.
  destruct st; simpl frame_step; [apply IH; lia|].
  destruct (Z.eqb_spec c DOLLAR); simpl fst; simpl snd; [apply IH; lia|].
  rewrite buf_set_ok, outcome_ret_bind by lia.
  destruct (IH (i + 1) (nsend + 1) (<[Z.to_nat nsend := u8 (c + 1)]> buf) IN_MSG)
    as (buf' & Hrun & Hbl & Hbuf); [lia|rewrite length_insert; lia|].
  rewrite slice_insert_lt in Hrun, Hbuf by lia. rewrite length_insert in Hbl.
  exists buf'. rewrite Hrun. cbn [app length].
  replace (nsend + Z.of_nat (S (length (frame_out IN_MSG (slice buf (i + 1) (Z.of_nat n))))))
    with (nsend + 1 + Z.of_nat (length (frame_out IN_MSG (slice buf (i + 1) (Z.of_nat n))))) by lia.
  split; [done|]. split; [done|]. rewrite Hbuf.
  pose proof (slice_insert_snoc buf 0 nsend (u8 (c + 1))) as Hsn. rewrite !Z.add_0_l in Hsn.
  rewrite Hsn by lia. by rewrite <- app_assoc.
Qed.

Lemma transform_spec garbage st bs :
  (length bs <= length garbage)%nat ->
  exists recvbuf, (recvbuf ← buf_blit garbage 0 bs; transform_loop (length bs) 0 0 recvbuf st) =
      Ret (recvbuf, Z.of_nat (length (frame_out st bs)), frame_state st bs) /\
    slice recvbuf 0 (Z.of_nat (length (frame_out st bs))) = frame_out st bs.
Proof.
  intros Hlen. rewrite buf_blit_0, outcome_ret_bind by done.
  assert (slice (bs ++ drop (length bs) garbage) 0 (Z.of_nat (length bs)) = bs) as Hsl.
  { unfold slice. rewrite Nat2Z.id, drop_0. apply take_app_length. }
  destruct (transform_loop_spec (length bs) 0 0 (bs ++ drop (length bs) garbage) st)
    as (buf' & Hrun & _ & Hout); [lia|rewrite length_app; lia|].
  rewrite Hsl in Hrun, Hout. rewrite !Z.add_0_l in Hrun, Hout. exists buf'. by rewrite Hrun.
Qed.

(** The blocking servers' parser offers the interface of Framing.v. *)
#[export] Instance transform_parser (garbage : list Z) :
  FrameParser (transform garbage).
Proof.
  refine {| parser_state := id; parser_ok := fun _ => True;
            parser_ready := fun bs => (length bs <= length garbage)%nat; parser_feed := _ |}.
  intros st bs _ Hlen. destruct (transform_spec garbage st bs Hlen) as (buf & Hrun & Hout).
  exists (frame_state st bs). unfold transform. rewrite <- outcome_bind_assoc.
  split; [|done]. by rewrite Hrun, outcome_ret_bind, Hout.
Defined.

(** ** The conversation *)

Lemma send_all_spec p s buf r s' :
  send_all p s buf = (r, s') ->
  rx s' = rx s /\ suffix (tx s') (tx s) /\
  (exists out, wire s' = wire s ++ out /\ out `prefix_of` buf /\ (r = SentAll -> out = buf)) /\
  match r with
  | SendFailed e => e <> EINTR /\ TxErr e ∈ tx s
  | SendKilled => sigpipe_ignored p = false
  | _ => True
  end.
Proof. apply send_to_spec. Qed.

Lemma send_all_completes p s buf k :
  tx_takes (tx s) (k + length buf) ->
  exists txs, send_all p s buf = (SentAll, Sock (rx s) txs (wire s ++ buf)) /\ tx_takes txs k.
Proof. apply send_to_completes. Qed.

(** The part of an iteration after [recv]: what sending the echo can do. *)
Lemma send_echo_spec p s (out : list Z) r s' :
  (if 0 <? Z.of_nat (length out) then send_all p s out else (SentAll, s)) = (r, s') ->
  rx s' = rx s /\ suffix (tx s') (tx s) /\
  (exists o, wire s' = wire s ++ o /\ o `prefix_of` out /\ (r = SentAll -> o = out)) /\
  match r with
  | SendFailed e => e <> EINTR /\ TxErr e ∈ tx s
  | SendKilled => sigpipe_ignored p = false
  | _ => True
  end.
Proof.
  destruct (Z.ltb_spec 0 (Z.of_nat (length out))); [apply send_all_spec|].
  intros [= <- <-]. split; [done|]. split; [done|]. split; [|done].
  exists []. rewrite app_nil_r. by destruct out; [|simpl in *; lia].
Qed.

(** What holds when the conversation stops, for whatever reason it does: [segs]
    are the buffers received from the state [st] on, [ds] the durations recorded. *)
Definition conversation (p : proc) (st : ProcessingState) (w : world) (r : served) (w' : world)
    (segs : list (list Z)) (ds : list Z) : Prop :=
  rx_bytes (rx (w_sock w)) = concat segs ++ rx_bytes (rx (w_sock w')) /\
  Forall (fun s => (1 <= length s <= 1024)%nat) segs /\
  w_reg w' = run (w_reg w) (concat (metrics_request_observed <$> ds)) /\
  (exists out, wire (w_sock w') = wire (w_sock w) ++ out /\
     out `prefix_of` frame_out st (concat segs) /\
     (r = Served SERVE_OK \/ r = AwaitRecv -> out = frame_out st (concat segs))) /\
  match r with
  | Served SERVE_OK | AwaitRecv => length ds = length segs
  | Served _ =>
      exists e, e <> EINTR /\ r = Served (classify_errno e) /\
        (RxErr e ∈ rx (w_sock w) \/ TxErr e ∈ tx (w_sock w))
  | AwaitSend => True
  | Killed => sigpipe_ignored p = false
  | ServeFault _ | NoFuel => False
  end.

Lemma classify_errno_not_ok e : classify_errno e <> SERVE_OK.
Proof. unfold classify_errno. by destruct (_ || _). Qed.

Lemma conversation_error p st w w' e segs ds out :
  rx_bytes (rx (w_sock w)) = concat segs ++ rx_bytes (rx (w_sock w')) ->
  Forall (fun s => (1 <= length s <= 1024)%nat) segs ->
  w_reg w' = run (w_reg w) (concat (metrics_request_observed <$> ds)) ->
  wire (w_sock w') = wire (w_sock w) ++ out -> out `prefix_of` frame_out st (concat segs) ->
  e <> EINTR -> (RxErr e ∈ rx (w_sock w) \/ TxErr e ∈ tx (w_sock w)) ->
  conversation p st w (Served (classify_errno e)) w' segs ds.
Proof.
  intros Hb Hs Hr Hw Hp He Hin. pose proof (classify_errno_not_ok e) as Hne.
  repeat split; try done.
  - exists out. split; [done|]. split; [done|]. intros [[= Heq]|Heq]; [by destruct (Hne Heq)|done].
  - destruct (classify_errno e) eqn:E; [done| |]; exists e; by rewrite E.
Qed.

(** A longer conversation from one received buffer and the rest. *)
Lemma conversation_step p st w w1 r w' bs o segs ds d :
  rx_bytes (rx (w_sock w)) = bs ++ rx_bytes (rx (w_sock w1)) ->
  (1 <= length bs <= 1024)%nat ->
  wire (w_sock w1) = wire (w_sock w) ++ o -> o = frame_out st bs ->
  w_reg w1 = run (w_reg w) (metrics_request_observed d) ->
  (forall e, RxErr e ∈ rx (w_sock w1) -> RxErr e ∈ rx (w_sock w)) ->
  suffix (tx (w_sock w1)) (tx (w_sock w)) ->
  conversation p (frame_state st bs) w1 r w' segs ds ->
  conversation p st w r w' (bs :: segs) (d :: ds).
Proof.
  intros Hb Hl Hw -> Hr Hrx Htx (Cb & Cs & Cr & (out & Cw & Cp & Ce) & Cend).
  split; [simpl; by rewrite Hb, Cb, app_assoc|].
  split; [by constructor|].
  split; [rewrite Cr, Hr, fmap_cons; cbn [concat]; by rewrite run_app|].
  split.
  - exists (frame_out st bs ++ out). rewrite Cw, Hw, app_assoc. split; [done|].
    cbn [concat]. rewrite frame_out_app. split; [by apply prefix_app|].
    intros Hend. by rewrite Ce.
  - assert (forall e, (RxErr e ∈ rx (w_sock w1) \/ TxErr e ∈ tx (w_sock w1)) ->
              RxErr e ∈ rx (w_sock w) \/ TxErr e ∈ tx (w_sock w)) as Hmono.
    { intros e [He|He]; [left; by apply Hrx|right]. destruct Htx as [l ->].
      apply elem_of_app. by right. }
    destruct r as [[]| | | | |]; simpl; try done; try congruence;
      (destruct Cend as (e & ? & ? & ?); exists e; eauto).
Qed.

(** Stopping with nothing more received. *)
Lemma conversation_nil p st w r w' :
  r = Served SERVE_OK \/ r = AwaitRecv ->
  rx_bytes (rx (w_sock w)) = rx_bytes (rx (w_sock w')) ->
  wire (w_sock w') = wire (w_sock w) -> w_reg w' = w_reg w ->
  conversation p st w r w' [] [].
Proof.
  intros Hr Hb Hw Hreg. split; [done|]. split; [done|]. split; [done|].
  split; [exists []; by rewrite app_nil_r|]. by destruct Hr as [-> | ->].
Qed.

(** Stopping inside the [send] of an echo. *)
Lemma conversation_stuck p st w r w' bs o :
  r = AwaitSend \/ r = Killed /\ sigpipe_ignored p = false ->
  rx_bytes (rx (w_sock w)) = bs ++ rx_bytes (rx (w_sock w')) ->
  (1 <= length bs <= 1024)%nat -> w_reg w' = w_reg w ->
  wire (w_sock w') = wire (w_sock w) ++ o -> o `prefix_of` frame_out st bs ->
  conversation p st w r w' [bs] [].
Proof.
  intros Hr Hb Hl Hreg Hw Ho. unfold conversation. simpl concat. rewrite app_nil_r.
  split; [done|]. split; [by apply Forall_singleton|]. split; [done|]. split.
  - exists o. split; [done|]. split; [done|]. destruct Hr as [-> |[-> _]]; by intros [|].
  - destruct Hr as [-> |[-> Hp]]; done.
Qed.

(** An interrupted [recv] changes nothing. *)
Lemma conversation_eintr p st w w1 r w' segs ds :
  rx_bytes (rx (w_sock w)) = rx_bytes (rx (w_sock w1)) ->
  wire (w_sock w1) = wire (w_sock w) -> w_reg w1 = w_reg w -> tx (w_sock w1) = tx (w_sock w) ->
  (forall e, RxErr e ∈ rx (w_sock w1) -> RxErr e ∈ rx (w_sock w)) ->
  conversation p st w1 r w' segs ds -> conversation p st w r w' segs ds.
Proof.
  unfold conversation. intros -> -> -> -> Hrx (Cb & Cs & Cr & Cw & Cend).
  split; [done|]. split; [done|]. split; [done|]. split; [done|].
  destruct r as [[]| | | | |]; try done;
    (destruct Cend as (e & ? & ? & [?|?]); exists e; eauto).
Qed.

Lemma serve_loop_spec fuel p garbage st w r w' :
  length garbage = 1024%nat -> (rx_size (rx (w_sock w)) < fuel)%nat ->
  serve_loop fuel p garbage st w = (r, w') ->
  exists segs ds, conversation p st w r w' segs ds.
Proof.
  intros Hg. revert st w. induction fuel as [|fuel IH]; intros st w Hf Hrun; [lia|].
  cbn [serve_loop] in Hrun. unfold serve_request in Hrun.
  destruct (sys_recv RECVBUF_SIZE (w_sock w)) as [[[bs|e] s]|] eqn:Er.
  - apply sys_recv_spec in Er as (Htx & Hwire & Hsize & Hrx & Hbytes & Hlen); [|done].
    destruct bs as [|b bs]; [injection Hrun as <- <-; exists [], []; by apply conversation_nil; [left|..]|].
    set (seg := b :: bs) in *. unfold RECVBUF_SIZE in Hlen.
    assert (1 <= length seg <= 1024)%nat as Hseg by (subst seg; simpl in *; lia).
    destruct (transform_spec garbage st seg) as (buf & Htr & Hout); [lia|].
    unfold read_clock in Hrun. cbn [fst snd] in Hrun. rewrite Htr, Hout in Hrun. simpl w_sock in Hrun.
    destruct (if 0 <? _ then _ else _) as [sr s1] eqn:Es.
    apply send_echo_spec in Es as (Hrx1 & Htx1 & (o & Hw1 & Ho & Hall) & Hsr).
    rewrite <- Hrx1 in Hbytes, Hrx. rewrite Hwire in Hw1. rewrite Htx in Htx1, Hsr.
    destruct sr as [|e| |]; [|injection Hrun as <- <-; exists [seg], []..].
    + apply IH in Hrun as (segs & ds & Hc); [|simpl; rewrite Hrx1; lia].
      eexists _, _. eapply conversation_step; [..|exact Hc]; try done. by apply Hall.
    + destruct Hsr as [He Hin]. eapply (conversation_error _ _ _ _ _ _ _ o); simpl; try done.
      * by rewrite app_nil_r.
      * by apply Forall_singleton.
      * by rewrite app_nil_r.
      * by right.
    + apply (conversation_stuck _ _ _ _ _ _ o); try done. by left.
    + apply (conversation_stuck _ _ _ _ _ _ o); try done. by right.
  - apply sys_recv_spec in Er as (Htx & Hwire & Hsize & Hrx & Hbytes & Hin); [|done].
    destruct (Z.eqb_spec e EINTR) as [->|He].
    + apply IH in Hrun as (segs & ds & Hc); [|simpl; lia].
      exists segs, ds. by eapply conversation_eintr; [..|exact Hc].
    + injection Hrun as <- <-. exists [], [].
      eapply (conversation_error _ _ _ _ _ _ _ []); simpl; try done; [by rewrite app_nil_r|by left].
  - injection Hrun as <- <-. exists [], []. apply conversation_nil; try done. by right.
Qed.

(** A peer that sends, takes what it is sent and shuts down is served to the end. *)
Lemma serve_loop_completes fuel p garbage st w :
  length garbage = 1024%nat -> (rx_size (rx (w_sock w)) < fuel)%nat ->
  rx_ends (rx (w_sock w)) ->
  tx_takes (tx (w_sock w)) (length (frame_out st (rx_until (rx (w_sock w))))) ->
  exists w', serve_loop fuel p garbage st w = (Served SERVE_OK, w') /\
    wire (w_sock w') = wire (w_sock w) ++ frame_out st (rx_until (rx (w_sock w))).
Proof.
  intros Hg. revert st w. induction fuel as [|fuel IH]; intros st w Hf Hends Htk; [lia|].
  cbn [serve_loop]. unfold serve_request.
  destruct (sys_recv_ends RECVBUF_SIZE (w_sock w)) as (r & s & Er & Hr); [done|done|].
  rewrite Er. apply sys_recv_spec in Er as (Htx & Hwire & Hsize & _ & Hlen); [|done].
  destruct r as [[|b bs]|e].
  - eexists. split; [done|]. simpl. by rewrite Hr, Hwire, app_nil_r.
  - destruct Hr as [Hends' Huntil], Hlen as [_ Hlen]. set (seg := b :: bs) in *. unfold RECVBUF_SIZE in Hlen.
    destruct (transform_spec garbage st seg) as (buf & Htr & Hout); [lia|].
    unfold read_clock. cbn [fst snd]. rewrite Htr, Hout. simpl w_sock.
    rewrite Huntil, frame_out_app, length_app, Nat.add_comm in Htk. rewrite <- Htx in Htk.
    destruct (send_all_completes p s (frame_out st seg) _ Htk) as (txs & Hs & Htk').
    assert (exists txs', (if 0 <? Z.of_nat (length (frame_out st seg)) then
              send_all p s (frame_out st seg) else (SentAll, s)) =
            (SentAll, Sock (rx s) txs' (wire s ++ frame_out st seg)) /\
            tx_takes txs' (length (frame_out (frame_state st seg) (rx_until (rx s)))))
      as (txs' & -> & Htk'').
    { destruct (Z.ltb_spec 0 (Z.of_nat (length (frame_out st seg)))); [by exists txs|].
      assert (frame_out st seg = []) as Hnil by (destruct (frame_out st seg); [done|simpl in *; lia]).
      exists (tx s). rewrite Hnil, app_nil_r. rewrite Hnil, Nat.add_0_r in Htk. by destruct s. }
    destruct (IH (frame_state st seg) (observe (with_sock
       (World s (w_reg w) (w_clock w) (S (w_ticks w))) (Sock (rx s) txs' (wire s ++ frame_out st seg)))
       (metrics_now_ns (w_clock w (w_ticks w))))) as (w' & Hrun & Hw'); [simpl; lia|done|done|].
    exists w'. split; [exact Hrun|]. rewrite Hw', Huntil, frame_out_app. simpl.
    by rewrite Hwire, app_assoc.
  - destruct Hr as (-> & Hends' & Huntil). simpl.
    destruct (IH st (with_sock w s)) as (w' & Hrun & Hw'); simpl in *; [lia|done|by rewrite Htx, <- Huntil|].
    exists w'. split; [done|]. by rewrite Hw', Hwire, Huntil.
Qed.

(** Every way a conversation can go. *)
Lemma serve_connection_spec (p : proc) (garbage : list Z) (w : world) (r : served) (w' : world) :
  length garbage = 1024%nat ->
  serve_connection p garbage w = (r, w') ->
  exists segs ds st pl out,
    rx_bytes (rx (w_sock w)) = concat segs ++ rx_bytes (rx (w_sock w')) /\
    Forall (fun s => (1 <= length s <= 1024)%nat) segs /\
    framed (concat segs) st pl /\
    wire (w_sock w') = wire (w_sock w) ++ out /\ out `prefix_of` STAR :: (incr <$> pl) /\
    (r = Served SERVE_OK \/ r = AwaitRecv -> out = STAR :: (incr <$> pl)) /\
    w_reg w' = run (w_reg w) (concat (metrics_request_observed <$> ds)) /\
    match r with
    | Served SERVE_OK | AwaitRecv => length ds = length segs
    | Served _ =>
        exists e, e <> EINTR /\ r = Served (classify_errno e) /\
          (RxErr e ∈ rx (w_sock w) \/ TxErr e ∈ tx (w_sock w))
    | AwaitSend => True
    | Killed => sigpipe_ignored p = false
    | ServeFault _ | NoFuel => False
    end.
Proof.
  intros Hg. unfold serve_connection.
  destruct (send_all p (w_sock w) [STAR]) as [sr s] eqn:Es.
  apply send_all_spec in Es as (Hrx & Htx & (o & Hw & Ho & Hall) & Hsr).
  assert (framed [] WAIT_FOR_MSG []) as Hf0 by (constructor; apply not_elem_of_nil).
  destruct sr as [|e| |]; intros Hrun.
  - apply serve_loop_spec in Hrun as (segs & ds & Cb & Cs & Cr & (out & Cw & Cp & Ce) & Cend);
      [|done|simpl; lia].
    destruct (frame_out_framed (concat segs)) as (st & pl & Hf & Hout). rewrite Hout in Cp, Ce.
    exists segs, ds, st, pl, (STAR :: out). simpl in *. rewrite Hrx in Cb, Cend.
    repeat (split; [done|]). split; [by rewrite Cw, Hw, Hall, <- app_assoc|].
    split; [by apply prefix_cons|]. split; [intros Hr; by rewrite Ce|]. split; [done|].
    destruct Htx as [l Htx].
    destruct r as [[]| | | | |]; try done;
      (destruct Cend as (e & ? & ? & Hin); exists e; (split; [done|]); (split; [done|]);
       destruct Hin; [by left|right; rewrite Htx; apply elem_of_app; by right]).
  - injection Hrun as <- <-. destruct Hsr as [He Hin]. pose proof (classify_errno_not_ok e) as Hne.
    exists [], [], WAIT_FOR_MSG, [], o. simpl. rewrite Hrx. repeat (split; [done|]).
    split; [intros [[= H]|]; done|]. split; [done|].
    destruct (classify_errno e) eqn:E; [done| |]; exists e; rewrite E;
      (split; [done|]); (split; [done|]); by right.
  - injection Hrun as <- <-. exists [], [], WAIT_FOR_MSG, [], o. simpl. rewrite Hrx.
    repeat (split; [done|]). split; [by intros [|]|]. done.
  - injection Hrun as <- <-. exists [], [], WAIT_FOR_MSG, [], o. simpl. rewrite Hrx.
    repeat (split; [done|]). split; [by intros [|]|]. done.
Qed.

(** ** The conversation does not depend on the rest of the process

    The registry, the clock and how often it has been read have no effect on what is
    received, sent and returned, so that other threads cannot interfere with it. *)

Definition same_request (q1 q2 : request) : Prop :=
  match q1, q2 with
  | Again, Again => True
  | Answered state1 _, Answered state2 _ => state1 = state2
  | Stopped r1, Stopped r2 => r1 = r2
  | _, _ => False
  end.

Lemma serve_request_sock p garbage st w1 w2 :
  w_sock w1 = w_sock w2 ->
  same_request (serve_request p garbage st w1).1 (serve_request p garbage st w2).1 /\
  w_sock (serve_request p garbage st w1).2 = w_sock (serve_request p garbage st w2).2.
Proof.
  intros Hs. unfold serve_request, read_clock. rewrite Hs.
  destruct (sys_recv RECVBUF_SIZE (w_sock w2)) as [[[[|b bs]|e] s]|]; [done| |by destruct (e =? EINTR)|done].
  cbn [w_sock with_sock].
  destruct (recvbuf ← buf_blit garbage 0 (b :: bs); transform_loop _ 0 0 recvbuf st) as [[[buf n] st']| |]; [|done..].
  destruct (if 0 <? n then _ else _) as [[] s']; done.
Qed.

Lemma serve_loop_sock fuel p garbage : forall st w1 w2,
  w_sock w1 = w_sock w2 ->
  (serve_loop fuel p garbage st w1).1 = (serve_loop fuel p garbage st w2).1 /\
  w_sock (serve_loop fuel p garbage st w1).2 = w_sock (serve_loop fuel p garbage st w2).2.
Proof.
  induction fuel as [|fuel IH]; intros st w1 w2 Hs; [done|]. cbn [serve_loop].
  destruct (serve_request_sock p garbage st w1 w2 Hs) as [Hq Hw].
  destruct (serve_request p garbage st w1) as [[|st1 t1|r1] w1'], (serve_request p garbage st w2) as [[|st2 t2|r2] w2'];
    simpl in Hq, Hw; try done; [by apply IH|]. subst st2. by apply IH.
Qed.

(** An iteration that goes on uses up part of what the socket is going to deliver. *)
Lemma serve_request_shrinks p garbage st w q w' :
  serve_request p garbage st w = (q, w') -> (forall r, q <> Stopped r) -> (rx_size (rx (w_sock w')) < rx_size (rx (w_sock w)))%nat.
Proof.
  unfold serve_request, read_clock. intros Hq Hgo.
  destruct (sys_recv RECVBUF_SIZE (w_sock w)) as [[[[|b bs]|e] s]|] eqn:Er;
    [injection Hq as <- <-; by destruct (Hgo (Served SERVE_OK))| | |injection Hq as <- <-; by destruct (Hgo AwaitRecv)];
    apply sys_recv_spec in Er as (_ & _ & Hsize & _); try done.
  - cbn [w_sock with_sock] in Hq.
    destruct (recvbuf ← buf_blit garbage 0 (b :: bs); transform_loop _ 0 0 recvbuf st) as [[[buf n] st']|msg|f];
      [|injection Hq as <- _; by destruct (Hgo (ServeFault OutOfBounds))|injection Hq as <- _; by destruct (Hgo (ServeFault f))].
    destruct (if 0 <? n then _ else _) as [sr s'] eqn:Es. assert (rx s' = rx s) as Hrx.
    { destruct (0 <? n); [|by injection Es as _ <-]. by apply send_all_spec in Es as [Hrx _]. }
    destruct sr; injection Hq as <- <-; [simpl; by rewrite Hrx|by destruct (Hgo _ eq_refl)..].
  - destruct (e =? EINTR); injection Hq as <- <-; [done|by destruct (Hgo _ eq_refl)].
Qed.

Lemma serve_loop_fuel fuel1 fuel2 p garbage st w :
  (rx_size (rx (w_sock w)) < fuel1)%nat -> (rx_size (rx (w_sock w)) < fuel2)%nat ->
  serve_loop fuel1 p garbage st w = serve_loop fuel2 p garbage st w.
Proof.
  revert fuel2 st w. induction fuel1 as [|fuel1 IH]; intros [|fuel2] st w H1 H2; [lia..|]. cbn [serve_loop].
  destruct (serve_request p garbage st w) as [q w'] eqn:Eq. pose proof (serve_request_shrinks _ _ _ _ _ _ Eq) as Hlt.
  destruct q as [|st' t|r]; [|apply IH|done].
  - specialize (Hlt ltac:(done)). apply IH; lia.
  - specialize (Hlt ltac:(done)). simpl. lia.
  - specialize (Hlt ltac:(done)). simpl. lia.
Qed.

(** What [serve_connection], and its loop in state [st], make of a socket. *)
Definition talk (p : proc) (garbage : list Z) (s : sock) : served * sock :=
  let '(r, w) := serve_connection p garbage (World s registry_zero (fun _ => None) 0) in (r, w_sock w).

Definition talk_on (p : proc) (garbage : list Z) (st : ProcessingState) (s : sock) : served * sock :=
  let '(r, w) := serve_loop (S (rx_size (rx s))) p garbage st (World s registry_zero (fun _ => None) 0) in (r, w_sock w).

Lemma serve_loop_talk p garbage st w :
  talk_on p garbage st (w_sock w) =
    let '(r, w') := serve_loop (S (rx_size (rx (w_sock w)))) p garbage st w in (r, w_sock w').
Proof.
  unfold talk_on. destruct (serve_loop_sock (S (rx_size (rx (w_sock w)))) p garbage st
    (World (w_sock w) registry_zero (fun _ => None) 0) w eq_refl) as [H1 H2].
  destruct (serve_loop _ p garbage st (World _ _ _ _)), (serve_loop _ p garbage st w). simpl in *. by subst; rewrite H2.
Qed.

Lemma serve_connection_talk p garbage w :
  talk p garbage (w_sock w) = let '(r, w') := serve_connection p garbage w in (r, w_sock w').
Proof.
  unfold talk, serve_connection. cbn [w_sock]. destruct (send_all p (w_sock w) [STAR]) as [[] s]; try done.
  pose proof (serve_loop_talk p garbage WAIT_FOR_MSG (with_sock w s)) as H. cbn [w_sock with_sock] in H.
  by rewrite <- H.
Qed.

(** One iteration less to go. *)
Lemma talk_request p garbage st w q w' :
  serve_request p garbage st w = (q, w') ->
  talk_on p garbage st (w_sock w) =
    match q with
    | Again => talk_on p garbage st (w_sock w')
    | Answered st' _ => talk_on p garbage st' (w_sock w')
    | Stopped r => (r, w_sock w')
    end.
Proof.
  intros Hq. rewrite serve_loop_talk. cbn [serve_loop]. rewrite Hq.
  pose proof (serve_request_shrinks _ _ _ _ _ _ Hq) as Hlt. destruct q as [|st' t|r]; [| |done].
  - rewrite serve_loop_talk. rewrite (serve_loop_fuel _ (S (rx_size (rx (w_sock w'))))); [done|by apply Hlt|lia].
  - change (w_sock w') with (w_sock (observe w' t)) at 1. rewrite serve_loop_talk.
    rewrite (serve_loop_fuel _ (S (rx_size (rx (w_sock (observe w' t)))))); [done|by apply Hlt|lia].
Qed.

(** ** What a server gets from [serve_connection] *)

(** The conversation on a socket that was [s] and is [s'] when [r] is returned. *)
Definition echoed (s s' : sock) (r : serve_result_t) : Prop :=
  exists bs st pl out,
    rx_bytes (rx s) = bs ++ rx_bytes (rx s') /\ framed bs st pl /\
    wire s' = wire s ++ out /\ out `prefix_of` STAR :: (incr <$> pl) /\
    (r = SERVE_OK -> out = STAR :: (incr <$> pl)).

Lemma serve_connection_returns p garbage w r w' :
  length garbage = 1024%nat -> sigpipe_ignored p = true -> serve_connection p garbage w = (r, w') ->
  match r with
  | Served res => echoed (w_sock w) (w_sock w') res
  | AwaitRecv | AwaitSend => True
  | _ => False
  end.
Proof.
  intros Hg Hp Hrun. apply serve_connection_spec in Hrun as (segs & ds & st & pl & out & Hb & _ & Hf & Hw & Hpre & Hall & _ & Hr);
    [|done].
  destruct r as [res| | | | |]; try done; [|congruence].
  exists (concat segs), st, pl, out. repeat (split; [done|]). intros ->. apply Hall. by left.
Qed.

(** ** Properties *)

(** C2 [serve_connection_correct]: on every peer and every sequence of [recv] and
    [send] results, whatever the uninitialised buffer holds: the receive buffer is
    never overrun and the loop always reaches a return or a blocking call; what has
    been sent is '*' followed by the echo the protocol's grammar assigns to the
    bytes received, complete when the peer closed or the server waits for more
    input, a prefix of it otherwise; the histogram got one observation per echoed
    buffer; a result other than [SERVE_OK] reports an errno the kernel returned,
    never [EINTR]; and with SIGPIPE ignored the process is never killed. *)
Theorem serve_connection_correct (p : proc) (garbage : list Z) (w : world) (r : served) (w' : world) :
  length garbage = 1024%nat ->
  serve_connection p garbage w = (r, w') ->
  exists segs ds st pl out,
    rx_bytes (rx (w_sock w)) = concat segs ++ rx_bytes (rx (w_sock w')) /\
    Forall (fun s => (1 <= length s <= 1024)%nat) segs /\
    framed (concat segs) st pl /\
    wire (w_sock w') = wire (w_sock w) ++ out /\ out `prefix_of` STAR :: (incr <$> pl) /\
    (r = Served SERVE_OK \/ r = AwaitRecv -> out = STAR :: (incr <$> pl)) /\
    w_reg w' = run (w_reg w) (concat (metrics_request_observed <$> ds)) /\
    match r with
    | Served SERVE_OK | AwaitRecv => length ds = length segs
    | Served _ =>
        exists e, e <> EINTR /\ r = Served (classify_errno e) /\
          (RxErr e ∈ rx (w_sock w) \/ TxErr e ∈ tx (w_sock w))
    | AwaitSend => True
    | Killed => sigpipe_ignored p = false
    | ServeFault _ | NoFuel => False
    end.
Proof. apply serve_connection_spec. Qed.

(** A peer that sends "^ab$" in two segments, is interrupted once and hangs up. *)
Definition demo_world : world :=
  World (Sock [RxData [94; 97]; RxErr EINTR; RxData [98; 36]; RxData []] [TxSpace 9; TxSpace 9; TxErr EINTR; TxSpace 9] [])
    registry_zero (fun n => Some (Z.of_nat n, 0)) 0.

Lemma serve_connection_correct_witness :
  exists segs (ds : list Z) st pl out,
    rx_bytes (rx (w_sock demo_world)) = concat segs ++ [] /\
    Forall (fun s => (1 <= length s <= 1024)%nat) segs /\
    framed (concat segs) st pl /\
    [42; 98; 99] = [] ++ out /\ out `prefix_of` STAR :: (incr <$> pl) /\
    length ds = length segs.
Proof.
  destruct (serve_connection_correct (ignore_sigpipe proc_start) (replicate 1024 0) demo_world
    _ _ eq_refl (surjective_pairing _))
    as (segs & ds & st & pl & out & H1 & H2 & H3 & H4 & H5 & H6 & H7 & H8).
  exists segs, ds, st, pl, out. vm_compute in H1. vm_compute in H4.
  split; [exact H1|]. split; [exact H2|]. split; [exact H3|]. split; [exact H4|].
  split; [exact H5|exact H8].
Defined.

(** C9 [serve_connection_completes]: if the peer eventually shuts its side down in
    order, no call fails other than with [EINTR] and the kernel keeps taking bytes,
    [serve_connection] returns [SERVE_OK] and the peer has been sent '*' and the
    increment of every payload byte of everything it had sent. *)
Theorem serve_connection_completes (p : proc) (garbage : list Z) (w : world)
    (st : ProcessingState) (pl : list Z) :
  length garbage = 1024%nat ->
  rx_ends (rx (w_sock w)) -> framed (rx_until (rx (w_sock w))) st pl ->
  tx_takes (tx (w_sock w)) (1 + length pl) ->
  exists w', serve_connection p garbage w = (Served SERVE_OK, w') /\
    wire (w_sock w') = wire (w_sock w) ++ STAR :: (incr <$> pl).
Proof.
  intros Hg Hends Hf Htk. apply framed_run in Hf as Hrun.
  assert (frame_out WAIT_FOR_MSG (rx_until (rx (w_sock w))) = incr <$> pl) as Hout
    by (unfold frame_out; by rewrite Hrun).
  rewrite Nat.add_comm in Htk.
  destruct (send_all_completes p (w_sock w) [STAR] _ Htk) as (txs & Hs & Htk').
  unfold serve_connection. rewrite Hs. cbn [rx].
  destruct (serve_loop_completes (S (rx_size (rx (w_sock w)))) p garbage WAIT_FOR_MSG
    (with_sock w (Sock (rx (w_sock w)) txs (wire (w_sock w) ++ [STAR])))) as (w' & Hw & Hwire);
    [done|simpl; lia|done|simpl; by rewrite Hout, length_fmap|].
  exists w'. split; [exact Hw|]. rewrite Hwire. simpl. by rewrite Hout, <- app_assoc.
Qed.

Lemma serve_connection_completes_witness :
  exists w', serve_connection (ignore_sigpipe proc_start) (replicate 1024 0) demo_world = (Served SERVE_OK, w') /\
    wire (w_sock w') = [42; 98; 99].
Proof.
  apply (serve_connection_completes (ignore_sigpipe proc_start) (replicate 1024 0) demo_world
    WAIT_FOR_MSG [97; 98]); [done|done| |done].
  apply (framed_frame [] [97; 98] [] WAIT_FOR_MSG []); try constructor; by_decision.
Defined.

(** C30 [transform_segmentation]: however TCP cuts the stream into receives of at
    most the buffer's size, the in-place transformation echoes the increments of
    exactly the payload bytes the grammar assigns to the whole stream, and ends
    inside a frame exactly when the stream does. *)
Theorem transform_segmentation (garbage : list Z) (segs : list (list Z))
    (st : ProcessingState) (pl : list Z) :
  Forall (fun bs => (length bs <= length garbage)%nat) segs ->
  framed (concat segs) st pl ->
  feed_all (transform garbage) WAIT_FOR_MSG segs = Ret (incr <$> pl, st).
Proof.
  intros Hsegs Hf. apply framed_run in Hf.
  destruct (@feed_all_spec _ _ (transform_parser garbage) WAIT_FOR_MSG segs I Hsegs) as (st' & -> & Hst & _).
  change (st' = frame_state WAIT_FOR_MSG (concat segs)) in Hst. simpl parser_state.
  unfold frame_state in Hst. unfold frame_out. unfold id. rewrite Hf in *. by subst.
Qed.

Lemma transform_segmentation_witness :
  feed_all (transform (replicate 4 0)) WAIT_FOR_MSG [[94; 97]; []; [255; 36; 98]] = Ret ([98; 0], WAIT_FOR_MSG).
Proof.
  apply (transform_segmentation (replicate 4 0) [[94; 97]; []; [255; 36; 98]] WAIT_FOR_MSG [97; 255]).
  - repeat constructor; simpl; lia.
  - apply (framed_frame [] [97; 255] [98] WAIT_FOR_MSG []); try constructor; by_decision.
Defined.
