(* ===== verification/PeerState.v ===== *)
(** * Per-peer protocol state (src/src/peer_state.c, src/src/peer_state.h)

    - the table of [peer_state_t] the event-driven servers index by descriptor,
      and every function of the module; an index outside the table or a write
      outside [sendbuf] is a [Fault];
    - [apeer]: the abstract peer, a parser state and a queue of bytes to send,
      which the module implements ([abs], [peer_ok] and the [_refines] lemmas);
    - [drive], [core_run]: the two ways the servers drive a slot, by readiness
      events and by completions;
    - the theorems: whatever the order of the readiness events and the results of
      the system calls, a connection is served by the protocol; a descriptor's
      operations leave every other descriptor alone; nothing of a previous owner
      of the descriptor can be observed. *)

From S2P Require Import Prelude Framing Posix.
Local Open Scope Z_scope.

Definition SENDBUF_SIZE : Z := 1024.

Inductive processing_state_t := INITIAL_ACK | WAIT_FOR_MSG | IN_MSG.

#[export] Instance processing_state_eq_dec : EqDecision processing_state_t.
Proof. solve_decision. Defined.

Record peer_state_t := PeerState {
  state : processing_state_t;
  sendbuf : list Z;
  sendbuf_end : Z;
  sendptr : Z;
  close_reason : option string
}.

Record peer_table := PeerTable { peers : list peer_state_t; peer_capacity : Z }.

Record fd_status_t := FdStatus { want_read : bool; want_write : bool }.

#[export] Instance fd_status_eq_dec : EqDecision fd_status_t.
Proof. solve_decision. Defined.

Definition fd_status_R : fd_status_t := FdStatus true false.
Definition fd_status_W : fd_status_t := FdStatus false true.
Definition fd_status_RW : fd_status_t := FdStatus true true.
Definition fd_status_NORW : fd_status_t := FdStatus false false.

(** What [calloc] leaves in a slot. *)
Definition peer_zero : peer_state_t :=
  PeerState INITIAL_ACK (replicate 1024 0) 0 0 None.

(** [allocated]: [calloc] did not return NULL. *)
Definition peer_state_init (allocated : bool) (max_fds : Z) : outcome peer_table :=
  if allocated then Ret (PeerTable (replicate (Z.to_nat max_fds) peer_zero) max_fds)
  else Exit "could not allocate peer state".

Definition peer_fd_in_range (t : peer_table) (sockfd : Z) : bool :=
  (0 <=? sockfd) && (u64 sockfd <? peer_capacity t).

Definition peer_close_reason (t : peer_table) (sockfd : Z) : outcome string :=
  if negb (peer_fd_in_range t sockfd) then Ret "peer closed"
  else
    peer ← buf_get (peers t) sockfd;
    match close_reason peer with
    | None => Ret "peer closed"
    | Some reason => Ret reason
    end.

(** Writing back the slot the [peer] pointer of a function points to. *)
Definition put_peer (t : peer_table) (sockfd : Z) (peer : peer_state_t) : outcome peer_table :=
  ps ← buf_set (peers t) sockfd peer;
  Ret (PeerTable ps (peer_capacity t)).

Definition close_with (peer : peer_state_t) (reason : string) : fd_status_t * peer_state_t :=
  (fd_status_NORW,
   PeerState (state peer) (sendbuf peer) (sendbuf_end peer) (sendptr peer) (Some reason)).

Definition return_with (t : peer_table) (sockfd : Z) (r : fd_status_t * peer_state_t) :
    outcome (fd_status_t * peer_table) :=
  t ← put_peer t sockfd r.2;
  Ret (r.1, t).

Definition peer_on_connected (t : peer_table) (sockfd : Z) : outcome (fd_status_t * peer_table) :=
  peer ← buf_get (peers t) sockfd;
  sendbuf ← buf_set (sendbuf peer) 0 STAR;
  return_with t sockfd (fd_status_W, PeerState INITIAL_ACK sendbuf 1 0 None).

Definition peer_fail (t : peer_table) (sockfd : Z) (reason : string) :
    outcome (fd_status_t * peer_table) :=
  peer ← buf_get (peers t) sockfd;
  return_with t sockfd (close_with peer reason).

Definition peer_recv_room (t : peer_table) (sockfd : Z) : outcome Z :=
  peer ← buf_get (peers t) sockfd;
  Ret (if bool_decide (state peer = INITIAL_ACK) || (sendptr peer <? sendbuf_end peer) then 0
       else u64 (SENDBUF_SIZE - sendbuf_end peer)).

(** The [for] of [peer_consume], with [n] iterations left; [inr] is the early
    return. *)
Fixpoint consume_loop (n : nat) (i : Z) (data : list Z) (peer : peer_state_t) (ready_to_send : bool) :
    outcome (bool * peer_state_t + fd_status_t * peer_state_t) :=
  match n with
  | O => Ret (inl (ready_to_send, peer))
  | S n' =>
      match state peer with
      | INITIAL_ACK => Ret (inr (close_with peer "internal error: consume while INITIAL_ACK"))
      | WAIT_FOR_MSG =>
          c ← buf_get data i;
          let peer := if c =? HAT then
            PeerState IN_MSG (sendbuf peer) (sendbuf_end peer) (sendptr peer) (close_reason peer)
            else peer in
          consume_loop n' (i + 1) data peer ready_to_send
      | IN_MSG =>
          c ← buf_get data i;
          if c =? DOLLAR then
            consume_loop n' (i + 1) data
              (PeerState WAIT_FOR_MSG (sendbuf peer) (sendbuf_end peer) (sendptr peer) (close_reason peer))
              ready_to_send
          else
            sendbuf ← buf_set (sendbuf peer) (sendbuf_end peer) (u8 (c + 1));
            consume_loop n' (i + 1) data
              (PeerState IN_MSG sendbuf (u64 (sendbuf_end peer + 1)) (sendptr peer) (close_reason peer))
              true
      end
  end.

Definition peer_consume (t : peer_table) (sockfd : Z) (data : list Z) (len : Z) :
    outcome (fd_status_t * peer_table) :=
  peer ← buf_get (peers t) sockfd;
  room ← peer_recv_room t sockfd;
  if room <? len then
    return_with t sockfd (close_with peer "internal error: consume beyond available room")
  else
    r ← consume_loop (Z.to_nat len) 0 data peer false;
    match r with
    | inl (ready_to_send, peer) =>
        return_with t sockfd (FdStatus (negb ready_to_send) ready_to_send, peer)
    | inr closed => return_with t sockfd closed
    end.

(** The bytes [*out] points at, as many as the function returns. *)
Definition peer_pending (t : peer_table) (sockfd : Z) : outcome (list Z) :=
  peer ← buf_get (peers t) sockfd;
  if sendbuf_end peer <=? sendptr peer then Ret []
  else if (0 <=? sendptr peer) && (sendbuf_end peer <=? Z.of_nat (length (sendbuf peer))) then
    Ret (slice (sendbuf peer) (sendptr peer) (sendbuf_end peer - sendptr peer))
  else Fault OutOfBounds.

Definition peer_sent (t : peer_table) (sockfd : Z) (n : Z) : outcome (fd_status_t * peer_table) :=
  peer ← buf_get (peers t) sockfd;
  let sendptr := u64 (sendptr peer + n) in
  if sendptr <? sendbuf_end peer then
    return_with t sockfd
      (fd_status_W, PeerState (state peer) (sendbuf peer) (sendbuf_end peer) sendptr (close_reason peer))
  else
    let state := if decide (state peer = INITIAL_ACK) then WAIT_FOR_MSG else state peer in
    return_with t sockfd
      (fd_status_R, PeerState state (sendbuf peer) 0 0 (close_reason peer)).

Section Wrappers.
(** libc's message for an errno. *)
Variable strerror : Z -> string.

Definition peer_on_ready_recv (t : peer_table) (sockfd : Z) (s : sock) :
    outcome (fd_status_t * peer_table * sock) :=
  peer ← buf_get (peers t) sockfd;
  room ← peer_recv_room t sockfd;
  if room =? 0 then Ret (fd_status_W, t, s)
  else
    let want := if room <? SENDBUF_SIZE then room else SENDBUF_SIZE in
    let '(answer, s) := nb_recv want s in
    match answer with
    | Received [] => r ← return_with t sockfd (close_with peer "peer closed"); Ret (r, s)
    | RecvError errno =>
        if (errno =? EINTR) || (errno =? EAGAIN) || (errno =? EWOULDBLOCK) then Ret (fd_status_R, t, s)
        else if errno =? ECONNRESET then
          r ← return_with t sockfd (close_with peer "peer reset"); Ret (r, s)
        else r ← return_with t sockfd (close_with peer (strerror errno)); Ret (r, s)
    | Received bs => r ← peer_consume t sockfd bs (Z.of_nat (length bs)); Ret (r, s)
    end.

Definition peer_on_ready_send (p : proc) (t : peer_table) (sockfd : Z) (s : sock) :
    outcome (fd_status_t * peer_table * sock) :=
  peer ← buf_get (peers t) sockfd;
  out ← peer_pending t sockfd;
  match out with
  | [] => Ret (fd_status_RW, t, s)
  | _ =>
      '(answer, s) ← nb_send (sigpipe_ignored p) out s;
      match answer with
      | SendError errno =>
          if (errno =? EINTR) || (errno =? EAGAIN) || (errno =? EWOULDBLOCK) then Ret (fd_status_W, t, s)
          else if (errno =? ECONNRESET) || (errno =? EPIPE) then
            r ← return_with t sockfd (close_with peer "peer reset"); Ret (r, s)
          else r ← return_with t sockfd (close_with peer (strerror errno)); Ret (r, s)
      | SentBytes nsent => r ← peer_sent t sockfd nsent; Ret (r, s)
      end
  end.
End Wrappers.

(** ** The abstract peer

    What the module promises of a connection: a parser state, the bytes staged for
    the peer, and why it was closed. *)

Record apeer := APeer { a_state : processing_state_t; a_out : list Z; a_reason : option string }.

(** INITIAL_ACK is outside any frame. *)
Definition fstate (st : processing_state_t) : ProcessingState :=
  match st with
  | INITIAL_ACK | WAIT_FOR_MSG => Framing.WAIT_FOR_MSG
  | IN_MSG => Framing.IN_MSG
  end.

Definition pstate (st : ProcessingState) : processing_state_t :=
  match st with Framing.WAIT_FOR_MSG => WAIT_FOR_MSG | Framing.IN_MSG => IN_MSG end.

Definition a_connected : apeer := APeer INITIAL_ACK [STAR] None.

Definition a_room (a : apeer) : Z :=
  if bool_decide (a_state a <> INITIAL_ACK /\ a_out a = []) then SENDBUF_SIZE else 0.

Definition a_close (a : apeer) (reason : string) : fd_status_t * apeer :=
  (fd_status_NORW, APeer (a_state a) (a_out a) (Some reason)).

Definition a_consume (a : apeer) (bs : list Z) : fd_status_t * apeer :=
  if a_room a <? Z.of_nat (length bs) then a_close a "internal error: consume beyond available room"
  else if bool_decide (bs = []) then (fd_status_R, a)
  else
    let out := frame_out (fstate (a_state a)) bs in
    (if bool_decide (out = []) then fd_status_R else fd_status_W,
     APeer (pstate (frame_state (fstate (a_state a)) bs)) out (a_reason a)).

Definition a_sent (a : apeer) (n : Z) : fd_status_t * apeer :=
  let rest := drop (Z.to_nat n) (a_out a) in
  match rest with
  | [] => (fd_status_R,
           APeer (if decide (a_state a = INITIAL_ACK) then WAIT_FOR_MSG else a_state a) [] (a_reason a))
  | _ => (fd_status_W, APeer (a_state a) rest (a_reason a))
  end.

(** ** Well-formed slots and their abstraction *)

Record peer_ok (p : peer_state_t) : Prop := {
  ok_size : length (sendbuf p) = 1024%nat;
  ok_ptr : 0 <= sendptr p <= sendbuf_end p;
  ok_end : sendbuf_end p <= SENDBUF_SIZE;
  ok_drained : sendptr p = sendbuf_end p -> sendbuf_end p = 0;
  ok_ack : state p = INITIAL_ACK -> sendptr p < sendbuf_end p
}.

Definition staged (p : peer_state_t) : list Z :=
  slice (sendbuf p) (sendptr p) (sendbuf_end p - sendptr p).

Definition abs (p : peer_state_t) : apeer := APeer (state p) (staged p) (close_reason p).

(** The slot of [fd] holds [p]. *)
Definition slot (t : peer_table) (fd : Z) (p : peer_state_t) : Prop :=
  0 <= fd /\ peers t !! Z.to_nat fd = Some p.

Definition upd (t : peer_table) (fd : Z) (p : peer_state_t) : peer_table :=
  PeerTable (<[Z.to_nat fd := p]> (peers t)) (peer_capacity t).

Lemma slot_get t fd p : slot t fd p -> buf_get (peers t) fd = Ret p.
Proof. intros [? ?]. by apply buf_get_ok. Qed.

Lemma slot_return t fd p st p' :
  slot t fd p -> return_with t fd (st, p') = Ret (st, upd t fd p').
Proof.
  intros [? Hp]. apply lookup_lt_Some in Hp.
  unfold return_with, put_peer. by rewrite buf_set_ok by lia.
Qed.

Lemma slot_upd t fd p p' : slot t fd p -> slot (upd t fd p') fd p'.
Proof.
  intros [? Hp]. apply lookup_lt_Some in Hp. split; [done|]. simpl.
  by apply list_lookup_insert_eq.
Qed.

Lemma slot_upd_ne t fd fd' p p' : fd <> fd' -> slot t fd p -> slot (upd t fd' p') fd p \/ fd' < 0.
Proof.
  intros ? [? Hp]. destruct (decide (fd' < 0)); [by right|left].
  split; [done|]. simpl. rewrite list_lookup_insert_ne; [done|lia].
Qed.

Lemma staged_length p : peer_ok p -> Z.of_nat (length (staged p)) = sendbuf_end p - sendptr p.
Proof.
  intros [Hs Hp He _ _]. unfold SENDBUF_SIZE in *. unfold staged. apply slice_length; lia.
Qed.

Lemma staged_nil p : peer_ok p -> staged p = [] <-> sendptr p = sendbuf_end p.
Proof.
  intros Hok. pose proof (staged_length p Hok) as Hl. destruct (ok_ptr p Hok).
  destruct (staged p) eqn:E; simpl in Hl; split; intros; [lia|done|done|lia].
Qed.

(** ** The operations implement the abstract peer *)

Lemma peer_on_connected_refines t fd p :
  slot t fd p -> length (sendbuf p) = 1024%nat ->
  exists p', peer_on_connected t fd = Ret (fd_status_W, upd t fd p') /\
    peer_ok p' /\ abs p' = a_connected.
Proof.
  intros Hs Hl. unfold peer_on_connected. rewrite (slot_get _ _ _ Hs), outcome_ret_bind.
  rewrite buf_set_ok by lia. rewrite outcome_ret_bind, (slot_return _ _ _ _ _ Hs).
  eexists. split; [done|]. split.
  - split; simpl; [by rewrite length_insert|lia|unfold SENDBUF_SIZE; lia|done|lia].
  - unfold abs, staged. simpl. destruct (sendbuf p); [done|]. done.
Qed.

Lemma peer_fail_refines t fd p reason :
  slot t fd p -> peer_ok p ->
  exists p', peer_fail t fd reason = Ret ((a_close (abs p) reason).1, upd t fd p') /\
    peer_ok p' /\ abs p' = (a_close (abs p) reason).2.
Proof.
  intros Hs Hok. unfold peer_fail. rewrite (slot_get _ _ _ Hs), outcome_ret_bind.
  unfold close_with. rewrite (slot_return _ _ _ _ _ Hs).
  eexists. split; [done|]. by split; [destruct Hok|].
Qed.

Lemma peer_recv_room_refines t fd p :
  slot t fd p -> peer_ok p -> peer_recv_room t fd = Ret (a_room (abs p)).
Proof.
  intros Hs Hok. unfold peer_recv_room. rewrite (slot_get _ _ _ Hs), outcome_ret_bind. f_equal.
  unfold a_room. simpl. pose proof (staged_nil p Hok) as Hn. destruct Hok as [Hl Hp He Hd Ha].
  unfold SENDBUF_SIZE in *. destruct (decide (state p = INITIAL_ACK)) as [E|E].
  - rewrite (bool_decide_eq_true_2 _ E), bool_decide_eq_false_2; [done|]. by intros [? _].
  - rewrite (bool_decide_eq_false_2 _ E). simpl. destruct (Z.ltb_spec (sendptr p) (sendbuf_end p)).
    + rewrite bool_decide_eq_false_2; [done|]. rewrite Hn. lia.
    + rewrite bool_decide_eq_true_2; [|rewrite Hn; by split; [|lia]].
      rewrite Hd by lia. done.
Qed.

Lemma peer_pending_refines t fd p :
  slot t fd p -> peer_ok p -> peer_pending t fd = Ret (a_out (abs p)).
Proof.
  intros Hs Hok. unfold peer_pending. rewrite (slot_get _ _ _ Hs), outcome_ret_bind. simpl.
  unfold staged. destruct Hok as [Hl Hp He _ _]. unfold SENDBUF_SIZE in He.
  destruct (Z.leb_spec (sendbuf_end p) (sendptr p)); [by rewrite slice_nil by lia|].
  rewrite (proj2 (Z.leb_le _ _)) by lia. by rewrite (proj2 (Z.leb_le _ _)) by lia.
Qed.

Lemma peer_sent_refines t fd p n :
  slot t fd p -> peer_ok p -> 0 <= n <= Z.of_nat (length (a_out (abs p))) ->
  exists p', peer_sent t fd n = Ret ((a_sent (abs p) n).1, upd t fd p') /\
    peer_ok p' /\ abs p' = (a_sent (abs p) n).2.
Proof.
  intros Hs Hok Hn. simpl in Hn. rewrite (staged_length p Hok) in Hn.
  unfold peer_sent. rewrite (slot_get _ _ _ Hs), outcome_ret_bind.
  pose proof (staged_length p Hok) as Hlen. destruct Hok as [Hl Hp He Hd Ha]. unfold SENDBUF_SIZE in *.
  rewrite u64_small by lia. unfold a_sent. simpl a_out.
  destruct (drop (Z.to_nat n) (staged p)) as [|c rest] eqn:E;
    assert (length (drop (Z.to_nat n) (staged p)) = length (staged p) - Z.to_nat n)%nat as Hdl
      by apply length_drop; rewrite E in Hdl; simpl in Hdl.
  - rewrite (proj2 (Z.ltb_ge _ _)) by lia. rewrite (slot_return _ _ _ _ _ Hs).
    eexists. split; [done|]. split; [split; simpl; unfold SENDBUF_SIZE; try lia|].
    + by destruct (decide (state p = INITIAL_ACK)).
    + done.
  - rewrite (proj2 (Z.ltb_lt _ _)) by lia. rewrite (slot_return _ _ _ _ _ Hs).
    eexists. split; [done|]. split; [split; simpl; unfold SENDBUF_SIZE; try lia|].
    unfold abs. simpl. f_equal. rewrite <- E. unfold staged. simpl.
    rewrite (slice_split (sendbuf p) (sendptr p) (sendbuf_end p - sendptr p) n) by lia.
    rewrite drop_app_length'; [|rewrite <- (Nat2Z.id (length _)); f_equal; rewrite slice_length; lia].
    f_equal. lia.
Qed.

Lemma pstate_fstate st : st <> INITIAL_ACK -> pstate (fstate st) = st.
Proof. by destruct st. Qed.

(** The parser loop: it writes only the machine's output, just past what is staged,
    and the room it was given is enough. *)
Lemma consume_loop_spec n i data p ready :
  state p <> INITIAL_ACK -> 0 <= i -> i + Z.of_nat n <= Z.of_nat (length data) ->
  length (sendbuf p) = 1024%nat -> 0 <= sendptr p <= sendbuf_end p ->
  sendbuf_end p + Z.of_nat n <= SENDBUF_SIZE ->
  let out := frame_out (fstate (state p)) (slice data i (Z.of_nat n)) in
  exists p', consume_loop n i data p ready = Ret (inl (ready || bool_decide (out <> []), p')) /\
    state p' = pstate (frame_state (fstate (state p)) (slice data i (Z.of_nat n))) /\
    length (sendbuf p') = 1024%nat /\ sendptr p' = sendptr p /\
    sendbuf_end p' = sendbuf_end p + Z.of_nat (length out) /\
    staged p' = staged p ++ out /\ close_reason p' = close_reason p.
Proof.
  revert i p ready. induction n as [|n IH]; intros i p ready Hst Hi Hn Hl Hp Hroom.
  { rewrite slice_nil by lia. exists p. simpl.
    rewrite orb_false_r, frame_out_nil, frame_state_nil, app_nil_r, pstate_fstate by done. repeat split; try done; lia. }
  unfold SENDBUF_SIZE in *.
  destruct (buf_get_lt data i) as (c & Hc & Hget); [lia|].
  rewrite (slice_cons_lookup _ _ _ _ Hi Hc), frame_out_cons, frame_state_cons.
  cbn [consume_loop]. destruct (state p) eqn:Es; [done| |]; rewrite Hget, outcome_ret_bind;
    simpl fstate; cbn [frame_step].
  - set (q := if c =? HAT then _ else p).
    destruct (IH (i + 1) q ready) as (p' & -> & Hp'); try lia; try (by subst q; destruct (c =? HAT)).
    { subst q. destruct (c =? HAT); simpl; congruence. }
    { subst q. destruct (c =? HAT); simpl; lia. }
    exists p'. split.
    + subst q. simpl. destruct (c =? HAT); simpl; rewrite ?Es; done.
    + subst q. simpl. by destruct (c =? HAT); simpl in *; rewrite ?Es in *.
  - destruct (c =? DOLLAR); simpl.
    + destruct (IH (i + 1) (PeerState WAIT_FOR_MSG (sendbuf p) (sendbuf_end p) (sendptr p) (close_reason p)) ready)
        as (p' & -> & Hp'); simpl; try done; try lia.
      by exists p'.
    + rewrite buf_set_ok by lia. rewrite outcome_ret_bind, u64_small by lia.
      set (q := PeerState IN_MSG _ _ _ _).
      destruct (IH (i + 1) q true) as (p' & -> & H1 & H2 & H3 & H4 & H5 & H6); subst q; simpl; try done; try lia.
      { by rewrite length_insert. }
      simpl in *. exists p'. rewrite orb_true_r. split; [done|].
      repeat (split; [first [done|lia]|]). split; [|done].
      rewrite H5. unfold staged at 1. simpl.
      replace (sendbuf_end p + 1 - sendptr p) with (sendbuf_end p - sendptr p + 1) by lia.
      replace (sendbuf_end p) with (sendptr p + (sendbuf_end p - sendptr p)) at 1 by lia.
      by rewrite slice_insert_snoc, <- app_assoc by lia.
Qed.

Lemma a_room_pos p : peer_ok p -> 0 < a_room (abs p) ->
  a_room (abs p) = SENDBUF_SIZE /\ state p <> INITIAL_ACK /\ sendptr p = 0 /\ sendbuf_end p = 0 /\ staged p = [].
Proof.
  intros Hok. unfold a_room. case_bool_decide as E; [|lia]. simpl in E. destruct E as [E1 E2].
  intros _. pose proof (proj1 (staged_nil p Hok) E2) as Hd.
  pose proof (ok_drained p Hok Hd). repeat split; [done|lia|done|done].
Qed.

Lemma peer_consume_refines t fd p data len :
  slot t fd p -> peer_ok p -> 0 <= len <= Z.of_nat (length data) ->
  exists p', peer_consume t fd data len = Ret ((a_consume (abs p) (slice data 0 len)).1, upd t fd p') /\
    peer_ok p' /\ abs p' = (a_consume (abs p) (slice data 0 len)).2.
Proof.
  intros Hs Hok Hlen. unfold peer_consume. rewrite (slot_get _ _ _ Hs), outcome_ret_bind.
  rewrite (peer_recv_room_refines _ _ _ Hs Hok), outcome_ret_bind.
  assert (Z.of_nat (length (slice data 0 len)) = len) as Hsl by (rewrite slice_length; lia).
  unfold a_consume. rewrite Hsl. destruct (Z.ltb_spec (a_room (abs p)) len) as [Hr|Hr].
  { unfold close_with. rewrite (slot_return _ _ _ _ _ Hs). eexists. split; [done|].
    by split; [destruct Hok|]. }
  case_bool_decide as Hnil.
  { assert (len = 0) as -> by (rewrite Hnil in Hsl; simpl in Hsl; lia).
    simpl consume_loop. rewrite outcome_ret_bind, (slot_return _ _ _ _ _ Hs). by eexists. }
  assert (0 < len) as Hpos by (destruct (slice data 0 len); [done|simpl in Hsl; lia]).
  destruct (a_room_pos p Hok) as (Hroom & Hst & Hptr & Hend & Hstaged); [lia|].
  destruct Hok as [Hl Hp He Hd Ha].
  destruct (consume_loop_spec (Z.to_nat len) 0 data p false)
    as (p' & -> & Hst' & Hl' & Hp' & He' & Hout & Hre); try done; try lia.
  rewrite Z2Nat.id in * by lia. rewrite outcome_ret_bind. simpl orb. rewrite (slot_return _ _ _ _ _ Hs).
  set (out := frame_out (fstate (state p)) (slice data 0 len)) in *.
  assert (length out <= length (slice data 0 len))%nat as Hle by apply frame_out_length.
  exists p'. split; [|split].
  - simpl. fold out. clearbody out. by destruct out.
  - rewrite Hroom in Hr. split; [done|lia|lia|lia|]. rewrite Hst'. by destruct (frame_state _ _).
  - unfold abs. simpl. by rewrite Hst', Hre, Hout, Hstaged.
Qed.

(** ** The readiness wrappers *)

Definition would_block (e : Z) : bool := (e =? EINTR) || (e =? EAGAIN) || (e =? EWOULDBLOCK).

(** The abstract peer and the socket, on a readable and on a writable event. *)
Definition a_ready_recv (strerror : Z -> string) (a : apeer) (s : sock) : fd_status_t * apeer * sock :=
  if a_room a =? 0 then (fd_status_W, a, s)
  else
    let '(answer, s) := nb_recv (a_room a) s in
    match answer with
    | Received [] => (a_close a "peer closed", s)
    | Received bs => (a_consume a bs, s)
    | RecvError e =>
        if would_block e then (fd_status_R, a, s)
        else (a_close a (if e =? ECONNRESET then "peer reset" else strerror e), s)
    end.

Definition a_ready_send (strerror : Z -> string) (a : apeer) (s : sock) : outcome (fd_status_t * apeer * sock) :=
  match a_out a with
  | [] => Ret (fd_status_RW, a, s)
  | out =>
      '(answer, s) ← nb_send true out s;
      match answer with
      | SentBytes n => Ret (a_sent a n, s)
      | SendError e =>
          Ret (if would_block e then (fd_status_W, a)
               else a_close a (if (e =? ECONNRESET) || (e =? EPIPE) then "peer reset" else strerror e), s)
      end
  end.

Lemma upd_same t fd p : slot t fd p -> upd t fd p = t.
Proof. intros [_ Hp]. unfold upd. rewrite list_insert_id by done. by destruct t. Qed.

Lemma close_refines t fd p reason (s : sock) :
  slot t fd p -> peer_ok p ->
  exists p', (r ← return_with t fd (close_with p reason); Ret (r, s)) =
      Ret ((a_close (abs p) reason).1, upd t fd p', s) /\
    peer_ok p' /\ abs p' = (a_close (abs p) reason).2.
Proof.
  intros Hs Hok. unfold close_with. rewrite (slot_return _ _ _ _ _ Hs).
  eexists. split; [done|]. by split; [destruct Hok|].
Qed.

Section Ready.
Context (strerror : Z -> string).

Lemma peer_on_ready_recv_refines t fd p s :
  slot t fd p -> peer_ok p ->
  let '(st, a, s') := a_ready_recv strerror (abs p) s in
  exists p', peer_on_ready_recv strerror t fd s = Ret (st, upd t fd p', s') /\ peer_ok p' /\ abs p' = a.
Proof.
  intros Hs Hok. unfold peer_on_ready_recv, a_ready_recv.
  rewrite (slot_get _ _ _ Hs), outcome_ret_bind.
  rewrite (peer_recv_room_refines _ _ _ Hs Hok), outcome_ret_bind.
  assert (forall (st : fd_status_t) (s0 : sock), exists p', Ret (st, t, s0) = Ret (st, upd t fd p', s0) /\ peer_ok p' /\ abs p' = abs p)
    as Hsame by (intros; exists p; by rewrite (upd_same _ _ _ Hs)).
  destruct (Z.eqb_spec (a_room (abs p)) 0) as [E|E]; [apply Hsame|].
  destruct (a_room_pos p Hok) as (Hroom & _).
  { unfold a_room, SENDBUF_SIZE in *. destruct (bool_decide _); lia. }
  rewrite Hroom, Z.ltb_irrefl. destruct (nb_recv SENDBUF_SIZE s) as [[[|b bs]|e] s'].
  - by apply close_refines.
  - destruct (peer_consume_refines t fd p (b :: bs) (Z.of_nat (length (b :: bs))) Hs Hok)
      as (p' & -> & Hok' & Habs); [lia|].
    assert (slice (b :: bs) 0 (Z.of_nat (length (b :: bs))) = b :: bs) as Hsl
      by (unfold slice; by rewrite drop_0, Nat2Z.id, take_ge).
    rewrite Hsl in *. destruct (a_consume (abs p) (b :: bs)) as [st a]. by exists p'.
  - unfold would_block. destruct ((e =? EINTR) || (e =? EAGAIN) || (e =? EWOULDBLOCK)); [apply Hsame|].
    destruct (e =? ECONNRESET); by apply close_refines.
Qed.

Lemma peer_on_ready_send_refines pr t fd p s :
  sigpipe_ignored pr = true -> slot t fd p -> peer_ok p ->
  exists st a s' p', a_ready_send strerror (abs p) s = Ret (st, a, s') /\
    peer_on_ready_send strerror pr t fd s = Ret (st, upd t fd p', s') /\ peer_ok p' /\ abs p' = a.
Proof.
  intros Hpr Hs Hok. unfold peer_on_ready_send, a_ready_send. rewrite Hpr.
  rewrite (slot_get _ _ _ Hs), outcome_ret_bind, (peer_pending_refines _ _ _ Hs Hok), outcome_ret_bind.
  destruct (a_out (abs p)) as [|c out] eqn:Eo.
  { exists fd_status_RW, (abs p), s, p. by rewrite (upd_same _ _ _ Hs). }
  destruct (nb_send_spec (c :: out) s) as (r & s' & -> & _ & Hr). rewrite !outcome_ret_bind.
  destruct r as [n|e].
  - destruct Hr as [Hn _]. rewrite <- Eo in Hn.
    destruct (peer_sent_refines t fd p n Hs Hok Hn) as (p' & -> & Hok' & Habs).
    destruct (a_sent (abs p) n) as [st a]. by exists st, a, s', p'.
  - unfold would_block. destruct ((e =? EINTR) || (e =? EAGAIN) || (e =? EWOULDBLOCK)).
    { exists fd_status_W, (abs p), s', p. by rewrite (upd_same _ _ _ Hs). }
    set (reason := if (e =? ECONNRESET) || (e =? EPIPE) then "peer reset"%string else strerror e).
    destruct (close_refines t fd p reason s' Hs Hok) as (p' & Hc & Hok' & Habs).
    exists fd_status_NORW, (a_close (abs p) reason).2, s', p'. split; [done|]. split; [|done].
    etransitivity; [|exact Hc]. subst reason. by destruct ((e =? ECONNRESET) || (e =? EPIPE)).
Qed.
End Ready.

(** ** Tables *)

Record table_ok (t : peer_table) : Prop := {
  table_size : Z.of_nat (length (peers t)) = peer_capacity t;
  table_slots : Forall (fun p => length (sendbuf p) = 1024%nat) (peers t)
}.

Lemma peer_state_init_ok allocated max_fds t :
  0 <= max_fds -> peer_state_init allocated max_fds = Ret t -> table_ok t /\ peer_capacity t = max_fds.
Proof.
  intros Hm. unfold peer_state_init. destruct allocated; [|done]. intros [= <-]. split; [split|done]; simpl; [rewrite length_replicate; lia|].
  by apply Forall_replicate.
Qed.

Lemma in_range_slot t fd :
  table_ok t -> fd < 2 ^ 64 -> peer_fd_in_range t fd = true ->
  exists p, slot t fd p /\ length (sendbuf p) = 1024%nat.
Proof.
  intros [Hl Hs] Hfd Hr. unfold peer_fd_in_range in Hr. bool_prop. rewrite u64_small in * by lia.
  destruct (lookup_lt_is_Some_2 (peers t) (Z.to_nat fd)) as [p Hp]; [lia|].
  exists p. split; [by split|]. by apply (Forall_lookup_1 _ _ _ _ Hs Hp).
Qed.

Lemma upd_table_ok t fd p : table_ok t -> length (sendbuf p) = 1024%nat -> table_ok (upd t fd p).
Proof. intros [Hl Hs] Hp. split; simpl; [by rewrite length_insert|by apply Forall_insert]. Qed.

Lemma upd_upd t fd p q : upd (upd t fd p) fd q = upd t fd q.
Proof. unfold upd. simpl. f_equal. apply list_insert_insert_eq. Qed.

Lemma upd_others t fd p i : 0 <= fd -> 0 <= i -> i <> fd ->
  peers (upd t fd p) !! Z.to_nat i = peers t !! Z.to_nat i.
Proof. intros. simpl. apply list_lookup_insert_ne. lia. Qed.

(** ** Drivers

    An event loop around one descriptor: a list of readiness events, in whatever
    order and however spurious, until a handler says the connection is over. *)

Inductive readiness := Readable | Writable.

Fixpoint drive (strerror : Z -> string) (pr : proc) (t : peer_table) (fd : Z) (s : sock)
    (st : fd_status_t) (evs : list readiness) : outcome (fd_status_t * peer_table * sock) :=
  match evs with
  | [] => Ret (st, t, s)
  | ev :: evs' =>
      '(st, t, s) ← match ev with
                    | Readable => peer_on_ready_recv strerror t fd s
                    | Writable => peer_on_ready_send strerror pr t fd s
                    end;
      if bool_decide (st = fd_status_NORW) then Ret (st, t, s)
      else drive strerror pr t fd s st evs'
  end.

(** A completion loop uses the pure core: what each call returns and what is then
    pending. *)
Inductive core_op := Consume (data : list Z) (len : Z) | Sent (n : Z) | Fail (reason : string).

Fixpoint core_run (t : peer_table) (fd : Z) (ops : list core_op) :
    outcome (list (fd_status_t * list Z) * peer_table) :=
  match ops with
  | [] => Ret ([], t)
  | op :: ops' =>
      '(st, t) ← match op with
                 | Consume data len => peer_consume t fd data len
                 | Sent n => peer_sent t fd n
                 | Fail reason => peer_fail t fd reason
                 end;
      out ← peer_pending t fd;
      '(rs, t) ← core_run t fd ops';
      Ret ((st, out) :: rs, t)
  end.

Definition a_core_op (a : apeer) (op : core_op) : fd_status_t * apeer :=
  match op with
  | Consume data len => a_consume a (slice data 0 len)
  | Sent n => a_sent a n
  | Fail reason => a_close a reason
  end.

Fixpoint a_core_run (a : apeer) (ops : list core_op) : list (fd_status_t * list Z) * apeer :=
  match ops with
  | [] => ([], a)
  | op :: ops' =>
      let '(st, a) := a_core_op a op in
      let '(rs, a') := a_core_run a ops' in
      ((st, a_out a) :: rs, a')
  end.

(** What a completion can report: bytes that are in the buffer, or at most as many
    bytes sent as were pending. *)
Definition core_legal (a : apeer) (op : core_op) : Prop :=
  match op with
  | Consume data len => 0 <= len <= Z.of_nat (length data)
  | Sent n => 0 <= n <= Z.of_nat (length (a_out a))
  | Fail _ => True
  end.

Fixpoint core_legal_run (a : apeer) (ops : list core_op) : Prop :=
  match ops with
  | [] => True
  | op :: ops' => core_legal a op /\ core_legal_run (a_core_op a op).2 ops'
  end.

(** ** What the abstract peer has said and heard *)

Record history (a : apeer) (recvd sent : list Z) : Prop := {
  hist_out : sent ++ a_out a = STAR :: frame_out Framing.WAIT_FOR_MSG recvd;
  hist_state : fstate (a_state a) = frame_state Framing.WAIT_FOR_MSG recvd;
  hist_ack : a_state a = INITIAL_ACK -> a_out a <> []
}.

(** A status asks for input only when everything staged is gone, and for output
    only when something is staged. *)
Definition status_ok (st : fd_status_t) (a : apeer) : Prop :=
  (want_read st = true -> a_out a = [] /\ a_state a <> INITIAL_ACK) /\
  (st = fd_status_W -> a_out a <> []).

Lemma a_room_cases a :
  a_room a = SENDBUF_SIZE /\ a_state a <> INITIAL_ACK /\ a_out a = [] \/
  a_room a = 0 /\ (a_state a = INITIAL_ACK \/ a_out a <> []).
Proof.
  unfold a_room. case_bool_decide as E; [left; by destruct E|right]. split; [done|].
  destruct (decide (a_state a = INITIAL_ACK)); [by left|]. right. intros ?. by apply E.
Qed.

Lemma pstate_not_ack st : pstate st <> INITIAL_ACK.
Proof. by destruct st. Qed.

Lemma fstate_pstate st : fstate (pstate st) = st.
Proof. by destruct st. Qed.

Lemma history_consume a recvd sent bs :
  history a recvd sent -> Z.of_nat (length bs) <= a_room a -> bs <> [] ->
  history (a_consume a bs).2 (recvd ++ bs) sent /\ status_ok (a_consume a bs).1 (a_consume a bs).2.
Proof.
  intros [Ho Hs Ha] Hb Hne. unfold a_consume.
  rewrite (proj2 (Z.ltb_ge _ _)), bool_decide_eq_false_2 by done. simpl.
  assert (a_out a = []) as Hnil.
  { destruct (a_room_cases a) as [(_ & _ & ?)|[E _]]; [done|]. destruct bs; [done|]. simpl in Hb. lia. }
  rewrite Hnil, app_nil_r in Ho. split; [split|]; simpl.
  - by rewrite frame_out_app, Ho, Hs.
  - by rewrite fstate_pstate, frame_state_app, Hs.
  - intros H. by destruct (pstate_not_ack _ H).
  - case_bool_decide as E; split; simpl; try done. intros _. split; [done|apply pstate_not_ack].
Qed.

Lemma history_sent a recvd sent n :
  history a recvd sent -> 0 <= n <= Z.of_nat (length (a_out a)) ->
  history (a_sent a n).2 recvd (sent ++ slice (a_out a) 0 n) /\
  status_ok (a_sent a n).1 (a_sent a n).2.
Proof.
  intros [Ho Hs Ha] Hn. unfold a_sent, slice. rewrite drop_0.
  assert (sent ++ take (Z.to_nat n) (a_out a) ++ drop (Z.to_nat n) (a_out a) =
    STAR :: frame_out Framing.WAIT_FOR_MSG recvd) as Ho' by (by rewrite take_drop).
  rewrite app_assoc in Ho'.
  destruct (drop (Z.to_nat n) (a_out a)) as [|c rest]; simpl; (split; [split|]); simpl; try done.
  - by destruct (decide (a_state a = INITIAL_ACK)) as [E|]; [rewrite E in Hs|].
  - by destruct (decide (a_state a = INITIAL_ACK)).
  - split; [|done]. intros _. by destruct (decide (a_state a = INITIAL_ACK)).
Qed.

Lemma status_ok_closed a reason : status_ok (a_close a reason).1 (a_close a reason).2.
Proof. by split. Qed.

Lemma history_close a recvd sent reason :
  history a recvd sent -> history (a_close a reason).2 recvd sent.
Proof. by intros [Ho Hs Ha]. Qed.

Section Conversation.
Context (strerror : Z -> string).

Lemma history_ready_recv a recvd sent s st a' s' :
  history a recvd sent -> a_ready_recv strerror a s = (st, a', s') ->
  wire s' = wire s /\ status_ok st a' /\
  exists bs, rx_bytes (rx s) = bs ++ rx_bytes (rx s') /\ history a' (recvd ++ bs) sent.
Proof.
  intros Hh. unfold a_ready_recv.
  assert (history a (recvd ++ []) sent) as Hh' by by rewrite app_nil_r.
  destruct (a_room_cases a) as [(-> & Hst & Hout)|[-> Hr]].
  2:{ intros [= <- <- <-]. split; [done|]. split; [|by exists []]. split; [done|]. intros _.
      destruct Hr; [by apply (hist_ack _ _ _ Hh)|done]. }
  change (SENDBUF_SIZE =? 0) with false. cbv beta iota.
  destruct (nb_recv_spec SENDBUF_SIZE s) as (r & s1 & -> & _ & Hw & Hr); [done|].
  destruct r as [[|b bs]|e].
  - intros [= <- <- <-]. split; [done|]. split; [apply status_ok_closed|].
    exists []. destruct Hr as [Hr _]. split; [done|]. by apply history_close.
  - destruct Hr as [Hr Hl]. destruct (a_consume a (b :: bs)) as [st1 a1] eqn:Ec.
    intros [= <- <- <-]. split; [done|].
    destruct (history_consume a recvd sent (b :: bs) Hh) as [Hc1 Hc2]; [|done|].
    { unfold a_room. by rewrite bool_decide_eq_true_2. }
    rewrite Ec in *. split; [done|]. by exists (b :: bs).
  - destruct (would_block e).
    + intros [= <- <- <-]. split; [done|]. split; [by split|]. by exists [].
    + intros [= <- <- <-]. split; [done|]. split; [by split|].
      exists []. split; [done|]. by eapply history_close.
Qed.

Lemma history_ready_send a recvd sent s st a' s' :
  history a recvd sent -> a_ready_send strerror a s = Ret (st, a', s') ->
  rx s' = rx s /\ status_ok st a' /\
  exists o, wire s' = wire s ++ o /\ history a' recvd (sent ++ o).
Proof.
  intros Hh. unfold a_ready_send.
  assert (history a recvd (sent ++ [])) as Hh' by by rewrite app_nil_r.
  destruct (a_out a) as [|c out] eqn:Eo.
  { intros [= <- <- <-]. split; [done|]. split; [split; [|done]|exists []; by rewrite app_nil_r].
    intros _. split; [done|]. intros E. by destruct (hist_ack _ _ _ Hh E). }
  destruct (nb_send_spec (c :: out) s) as (r & s1 & -> & Hrx & Hr). rewrite outcome_ret_bind.
  destruct r as [n|e].
  - destruct Hr as [Hn Hw]. rewrite <- Eo in *. destruct (a_sent a n) as [st1 a1] eqn:Es.
    intros [= <- <- <-]. destruct (history_sent a recvd sent n Hh Hn) as [Hs1 Hs2].
    rewrite Es in *. split; [done|]. split; [done|]. by eexists.
  - destruct (would_block e).
    + intros [= <- <- <-]. split; [done|]. split; [by split; [|rewrite Eo]|].
      exists []. by rewrite app_nil_r.
    + intros [= <- <- <-]. split; [done|]. split; [by split|].
      exists []. rewrite app_nil_r. split; [done|]. rewrite app_nil_r. by eapply history_close.
Qed.

(** Any sequence of readiness events on a live connection. *)
Lemma drive_spec pr t fd s st evs p recvd sent :
  sigpipe_ignored pr = true -> slot t fd p -> peer_ok p ->
  history (abs p) recvd sent -> status_ok st (abs p) ->
  exists st' p' s' bs o,
    drive strerror pr t fd s st evs = Ret (st', upd t fd p', s') /\ peer_ok p' /\
    rx_bytes (rx s) = bs ++ rx_bytes (rx s') /\ wire s' = wire s ++ o /\
    history (abs p') (recvd ++ bs) (sent ++ o) /\ status_ok st' (abs p').
Proof.
  intros Hpr. revert t s st p recvd sent.
  induction evs as [|ev evs IH]; intros t s st p recvd sent Hs Hok Hh Hst.
  { exists st, p, s, [], []. rewrite (upd_same _ _ _ Hs), !app_nil_r. done. }
  cbn [drive].
  assert (exists st1 p1 s1 bs o,
    match ev with
    | Readable => peer_on_ready_recv strerror t fd s
    | Writable => peer_on_ready_send strerror pr t fd s
    end = Ret (st1, upd t fd p1, s1) /\ peer_ok p1 /\
    rx_bytes (rx s) = bs ++ rx_bytes (rx s1) /\ wire s1 = wire s ++ o /\
    history (abs p1) (recvd ++ bs) (sent ++ o) /\ status_ok st1 (abs p1))
    as (st1 & p1 & s1 & bs & o & -> & Hok1 & Hrx & Hw & Hh1 & Hst1).
  { destruct ev.
    - pose proof (peer_on_ready_recv_refines strerror t fd p s Hs Hok) as Hr.
      destruct (a_ready_recv strerror (abs p) s) as [[st1 a1] s1] eqn:Ea.
      destruct Hr as (p1 & Hr & Hok1 & <-).
      destruct (history_ready_recv _ _ _ _ _ _ _ Hh Ea) as (Hw & Hst1 & bs & Hrx & Hh1).
      exists st1, p1, s1, bs, []. by rewrite !app_nil_r.
    - destruct (peer_on_ready_send_refines strerror pr t fd p s Hpr Hs Hok)
        as (st1 & a1 & s1 & p1 & Ea & Hr & Hok1 & <-).
      destruct (history_ready_send _ _ _ _ _ _ _ Hh Ea) as (Hrx & Hst1 & o & Hw & Hh1).
      exists st1, p1, s1, [], o. by rewrite app_nil_r, Hrx. }
  rewrite outcome_ret_bind. case_bool_decide; [by exists st1, p1, s1, bs, o|].
  destruct (IH (upd t fd p1) s1 st1 p1 _ _ (slot_upd _ _ _ _ Hs) Hok1 Hh1 Hst1)
    as (st2 & p2 & s2 & bs2 & o2 & -> & Hok2 & Hrx2 & Hw2 & Hh2 & Hst2).
  exists st2, p2, s2, (bs ++ bs2), (o ++ o2).
  rewrite upd_upd, Hrx, Hrx2, Hw2, Hw, !app_assoc in *. done.
Qed.
End Conversation.

Lemma a_connected_history : history a_connected [] [].
Proof. by split. Qed.

Lemma core_run_refines t fd p ops :
  slot t fd p -> peer_ok p -> core_legal_run (abs p) ops ->
  exists p', core_run t fd ops = Ret ((a_core_run (abs p) ops).1, upd t fd p') /\
    peer_ok p' /\ abs p' = (a_core_run (abs p) ops).2.
Proof.
  revert t p. induction ops as [|op ops IH]; intros t p Hs Hok Hl.
  { exists p. by rewrite (upd_same _ _ _ Hs). }
  destruct Hl as [Hop Hl]. cbn [core_run a_core_run].
  assert (exists p1, match op with
    | Consume data len => peer_consume t fd data len
    | Sent n => peer_sent t fd n
    | Fail reason => peer_fail t fd reason
    end = Ret ((a_core_op (abs p) op).1, upd t fd p1) /\ peer_ok p1 /\ abs p1 = (a_core_op (abs p) op).2)
    as (p1 & -> & Hok1 & Ha1).
  { destruct op; [by apply peer_consume_refines|by apply peer_sent_refines|by apply peer_fail_refines]. }
  destruct (a_core_op (abs p) op) as [st a1]. simpl in Ha1, Hl. subst a1. rewrite outcome_ret_bind.
  pose proof (slot_upd _ _ _ p1 Hs) as Hs1.
  rewrite (peer_pending_refines _ _ _ Hs1 Hok1), outcome_ret_bind.
  destruct (IH _ _ Hs1 Hok1 Hl) as (p2 & -> & Hok2 & Ha2). rewrite outcome_ret_bind.
  exists p2. rewrite upd_upd. by destruct (a_core_run (abs p1) ops).
Qed.

(** ** Properties *)

(** C1 [peer_conversation]: take any table, any descriptor inside it and whatever
    its previous owner left there, connect a peer, and let the event loop call the
    readiness handlers in any order, with any results of [recv] and [send], until
    one of them ends the connection. No index leaves the table or the send buffer.
    At every point what was sent followed by what is staged is '*' and the
    increment of the payload of what was received; the status returned asks to
    read only when nothing is staged and there is room for a full buffer, and to
    write only when something is staged; every other descriptor's state is
    untouched. *)
Theorem peer_conversation (strerror : Z -> string) (pr : proc) (t : peer_table) (fd : Z) (s : sock)
    (evs : list readiness) :
  sigpipe_ignored pr = true -> table_ok t -> fd < 2 ^ 31 -> peer_fd_in_range t fd = true ->
  exists t0 st t' s' recvd sent pend fst pl,
    peer_on_connected t fd = Ret (fd_status_W, t0) /\
    drive strerror pr t0 fd s fd_status_W evs = Ret (st, t', s') /\
    rx_bytes (rx s) = recvd ++ rx_bytes (rx s') /\ wire s' = wire s ++ sent /\
    peer_pending t' fd = Ret pend /\
    framed recvd fst pl /\ sent ++ pend = STAR :: (incr <$> pl) /\
    (want_read st = true -> pend = [] /\ peer_recv_room t' fd = Ret SENDBUF_SIZE) /\
    (st = fd_status_W -> pend <> []) /\
    table_ok t' /\ peer_capacity t' = peer_capacity t /\
    (forall i, 0 <= i -> i <> fd -> peers t' !! Z.to_nat i = peers t !! Z.to_nat i).
Proof.
  intros Hpr Ht Hfd Hr. destruct (in_range_slot t fd Ht) as (p & Hs & Hl); [lia|done|].
  destruct (peer_on_connected_refines t fd p Hs Hl) as (p0 & Hc & Hok & Ha).
  destruct (drive_spec strerror pr (upd t fd p0) fd s fd_status_W evs p0 [] [])
    as (st & p' & s' & recvd & sent & Hd & Hok' & Hrx & Hw & Hh & Hst);
    [done|by eapply slot_upd|done|by rewrite Ha; apply a_connected_history|by rewrite Ha|].
  destruct (frame_out_framed recvd) as (fst & pl & Hf & Hout).
  rewrite upd_upd in Hd. pose proof (slot_upd _ _ _ p' Hs) as Hs'.
  exists (upd t fd p0), st, (upd t fd p'), s', recvd, sent, (staged p'), fst, pl.
  repeat (split; [done|]). split; [by rewrite (peer_pending_refines _ _ _ Hs')|].
  split; [done|]. split; [rewrite <- Hout; apply (hist_out _ _ _ Hh)|].
  split.
  { intros Hread. destruct (proj1 Hst Hread) as [Hn Hna]. split; [exact Hn|].
    rewrite (peer_recv_room_refines _ _ _ Hs' Hok'). unfold a_room. by rewrite bool_decide_eq_true_2. }
  split; [apply Hst|]. split; [apply upd_table_ok; [done|by destruct Hok']|]. split; [done|].
  intros i Hi Hne. apply upd_others; try done. apply Hs.
Qed.

(** The peer sends "^a$" and hangs up; a spurious event and an interrupted call
    on the way. *)
Definition demo_sock : sock :=
  Sock [RxErr EAGAIN; RxData [94; 97; 36]; RxData []] [TxErr EINTR; TxSpace 5; TxSpace 1] [].
Definition demo_events : list readiness :=
  [Readable; Writable; Writable; Readable; Writable; Readable; Writable; Readable].

Lemma peer_conversation_witness :
  exists t, peer_state_init true 8 = Ret t /\
  exists t0 st t' s' recvd sent pend fst pl,
    peer_on_connected t 5 = Ret (fd_status_W, t0) /\
    drive (fun _ => "error") (Proc true) t0 5 demo_sock fd_status_W demo_events = Ret (st, t', s') /\
    framed recvd fst pl /\ sent ++ pend = STAR :: (incr <$> pl) /\
    recvd = [94; 97; 36] /\ sent = [42; 98] /\ peers t' !! 4%nat = Some peer_zero.
Proof.
  eexists. split; [reflexivity|].
  destruct (peer_conversation (fun _ => "error"%string) (Proc true) (PeerTable (replicate 8 peer_zero) 8) 5
    demo_sock demo_events eq_refl)
    as (t0 & st & t' & s' & recvd & sent & pend & fst & pl & H1 & H2 & H3 & H4 & H5 & H6 & H7 & H8 & H9 & _ & _ & H10).
  - by apply (peer_state_init_ok true 8).
  - lia.
  - reflexivity.
  - exists t0, st, t', s', recvd, sent, pend, fst, pl.
    assert (s' = Sock [] [] [42; 98]) as ->.
    { vm_compute in H1. injection H1 as <-. vm_compute in H2. by injection H2. }
    split; [exact H1|]. split; [exact H2|]. split; [exact H6|]. split; [exact H7|].
    split; [change ([94; 97; 36] = recvd ++ []) in H3; by rewrite app_nil_r in H3|]. split; [by simpl in H4|].
    apply (H10 4); lia.
Defined.

(** C8 [peer_core_refinement]: the pure core, [peer_consume], [peer_sent] and
    [peer_fail] as a completion loop calls them, implements the abstract peer. On
    every table and every descriptor inside it, once [peer_on_connected] has run,
    every sequence of calls returns the statuses and leaves pending the bytes of
    the abstract peer, which are independent of what the slot held before; no call
    faults, also one handing over more bytes than there is room for; and all other
    slots stay as they were. *)
Theorem peer_core_refinement (t : peer_table) (fd : Z) (ops : list core_op) :
  table_ok t -> fd < 2 ^ 31 -> peer_fd_in_range t fd = true -> core_legal_run a_connected ops ->
  exists t0 t', peer_on_connected t fd = Ret (fd_status_W, t0) /\
    core_run t0 fd ops = Ret ((a_core_run a_connected ops).1, t') /\
    let a := (a_core_run a_connected ops).2 in
    peer_pending t' fd = Ret (a_out a) /\ peer_recv_room t' fd = Ret (a_room a) /\
    peer_close_reason t' fd = Ret (default "peer closed"%string (a_reason a)) /\
    forall i, 0 <= i -> i <> fd -> peers t' !! Z.to_nat i = peers t !! Z.to_nat i.
Proof.
  intros Ht Hfd Hr Hl. destruct (in_range_slot t fd Ht) as (p & Hs & Hlen); [lia|done|].
  destruct (peer_on_connected_refines t fd p Hs Hlen) as (p0 & Hc & Hok & Ha).
  rewrite <- Ha in Hl |- *. pose proof (slot_upd _ _ _ p0 Hs) as Hs0.
  destruct (core_run_refines _ _ _ _ Hs0 Hok Hl) as (p' & Hrun & Hok' & Ha').
  rewrite upd_upd in Hrun. pose proof (slot_upd _ _ _ p' Hs) as Hs'.
  exists (upd t fd p0), (upd t fd p'). split; [done|]. split; [done|]. simpl. rewrite <- Ha'.
  split; [by apply peer_pending_refines|]. split; [by apply peer_recv_room_refines|]. split.
  - unfold peer_close_reason. change (peer_fd_in_range (upd t fd p') fd) with (peer_fd_in_range t fd).
    rewrite Hr. simpl negb. cbv iota. rewrite (slot_get _ _ _ Hs'), outcome_ret_bind.
    unfold abs. simpl. by destruct (close_reason p').
  - intros i Hi Hne. apply upd_others; try done. apply Hs.
Qed.

Lemma peer_core_refinement_witness :
  exists t, peer_state_init true 8 = Ret t /\
  exists t0 t', peer_on_connected t 3 = Ret (fd_status_W, t0) /\
    core_run t0 3 [Sent 1; Consume [94; 97; 98; 0; 0] 3; Consume [1] 1] =
      Ret ([(fd_status_R, []); (fd_status_W, [98; 99]); (fd_status_NORW, [98; 99])], t') /\
    peer_close_reason t' 3 = Ret "internal error: consume beyond available room"%string.
Proof.
  eexists. split; [reflexivity|].
  destruct (peer_core_refinement (PeerTable (replicate 8 peer_zero) 8) 3
    [Sent 1; Consume [94; 97; 98; 0; 0] 3; Consume [1] 1]) as (t0 & t' & H1 & H2 & _ & _ & H3 & _).
  - by apply (peer_state_init_ok true 8).
  - lia.
  - reflexivity.
  - simpl. lia.
  - exists t0, t'. split; [exact H1|]. split; [exact H2|exact H3].
Defined.
