(* ===== verification/PeerTypes.v ===== *)
(** * The type of the peer table (src/src/peer_state.c)

    C gives [peer_state_t] a layout and nothing more. The invariant that makes the
    table well typed is that the indices of a slot stay inside its buffer and the
    buffer holds bytes; it is what every function of the module relies on and
    preserves. Unlike PeerState.v, which follows a connection that is used as
    peer_state.h asks, this file allows any calls in any order, also those a caller
    should not make: on slots that were never connected, after a close, with more
    bytes than there is room for or more bytes sent than were pending. *)

From S2P Require Import Prelude Framing Posix PeerState.
Local Open Scope Z_scope.

Record peer_typed (p : peer_state_t) : Prop := {
  typed_size : length (sendbuf p) = 1024%nat;
  typed_bytes : bytes_ok (sendbuf p);
  typed_ptr : 0 <= sendptr p <= sendbuf_end p;
  typed_end : sendbuf_end p <= 1024
}.

Record table_typed (t : peer_table) : Prop := {
  typed_count : Z.of_nat (length (peers t)) = peer_capacity t;
  typed_peers : Forall peer_typed (peers t)
}.

(** ** Calls *)

Inductive table_call :=
| OnConnected (fd : Z)
| OnFail (fd : Z) (reason : string)
| OnConsume (fd : Z) (data : list Z) (len : Z)
| OnSent (fd n : Z)
| OnReadyRecv (fd : Z) (s : sock)
| OnReadySend (fd : Z) (s : sock).

Definition call_fd (c : table_call) : Z :=
  match c with
  | OnConnected fd | OnFail fd _ | OnConsume fd _ _ | OnSent fd _ | OnReadyRecv fd _ | OnReadySend fd _ => fd
  end.

(** [len] bytes are there to be read, and [n] is a [size_t]. *)
Definition call_ok (t : peer_table) (c : table_call) : Prop :=
  call_fd c < 2 ^ 31 /\ peer_fd_in_range t (call_fd c) = true /\
  match c with
  | OnConsume _ data len => 0 <= len <= Z.of_nat (length data)
  | OnSent _ n => 0 <= n < 2 ^ 64
  | _ => True
  end.

Section Calls.
Context (strerror : Z -> string) (pr : proc).

Definition do_call (t : peer_table) (c : table_call) : outcome (fd_status_t * peer_table) :=
  match c with
  | OnConnected fd => peer_on_connected t fd
  | OnFail fd reason => peer_fail t fd reason
  | OnConsume fd data len => peer_consume t fd data len
  | OnSent fd n => peer_sent t fd n
  | OnReadyRecv fd s => '(st, t, _) ← peer_on_ready_recv strerror t fd s; Ret (st, t)
  | OnReadySend fd s => '(st, t, _) ← peer_on_ready_send strerror pr t fd s; Ret (st, t)
  end.

Fixpoint do_calls (t : peer_table) (cs : list table_call) : outcome peer_table :=
  match cs with
  | [] => Ret t
  | c :: cs' => '(_, t) ← do_call t c; do_calls t cs'
  end.

(** ** Every function keeps the type *)

Lemma typed_slot t fd :
  table_typed t -> fd < 2 ^ 31 -> peer_fd_in_range t fd = true -> exists p, slot t fd p /\ peer_typed p.
Proof.
  intros [Hl Hp] Hfd Hr. unfold peer_fd_in_range in Hr. bool_prop. rewrite u64_small in * by lia.
  destruct (lookup_lt_is_Some_2 (peers t) (Z.to_nat fd)) as [p Hs]; [lia|].
  exists p. split; [by split|]. by apply (Forall_lookup_1 _ _ _ _ Hp Hs).
Qed.

Lemma upd_typed t fd p : table_typed t -> peer_typed p -> table_typed (upd t fd p).
Proof. intros [Hl Hs] Hp. split; simpl; [by rewrite length_insert|by apply Forall_insert]. Qed.

(** The result of a call that writes one slot. *)
Definition keeps_type (t : peer_table) (r : outcome (fd_status_t * peer_table)) : Prop :=
  match r with
  | Ret (_, t') => table_typed t' /\ peer_capacity t' = peer_capacity t
  | Exit msg => msg = "SIGPIPE"%string /\ sigpipe_ignored pr = false
  | Fault _ => False
  end.

Lemma return_with_typed t fd p st p' :
  table_typed t -> slot t fd p -> peer_typed p' -> keeps_type t (return_with t fd (st, p')).
Proof. intros Ht Hs Hp. rewrite (slot_return _ _ _ _ _ Hs). simpl. by split; [apply upd_typed|]. Qed.

Lemma close_typed p reason : peer_typed p -> peer_typed (close_with p reason).2.
Proof. by intros []. Qed.

Lemma bytes_insert (b : list Z) i c : bytes_ok b -> bytes_ok (<[i := u8 c]> b).
Proof. intros Hb. apply Forall_insert; [done|]. apply Z.mod_pos_bound. lia. Qed.

Lemma consume_loop_typed n : forall i data p ready,
  peer_typed p -> 0 <= i -> i + Z.of_nat n <= Z.of_nat (length data) -> sendbuf_end p + Z.of_nat n <= 1024 ->
  exists r, consume_loop n i data p ready = Ret r /\
    match r with inl (_, p') => peer_typed p' | inr (_, p') => peer_typed p' end.
Proof.
  induction n as [|n IH]; intros i data p ready Hp Hi Hdata Hroom; cbn [consume_loop]; [by eexists|].
  pose proof Hp as [Hsz Hby Hptr Hend]. destruct (state p).
  - eexists. split; [reflexivity|]. by apply close_typed.
  - destruct (buf_get_lt data i) as (c & _ & ->); [lia|]. rewrite outcome_ret_bind.
    apply IH; [|lia|lia|]; destruct (c =? HAT); try done; simpl; lia.
  - destruct (buf_get_lt data i) as (c & _ & ->); [lia|]. rewrite outcome_ret_bind.
    destruct (c =? DOLLAR); [apply IH; [done|lia|lia|simpl; lia]|].
    rewrite buf_set_ok, outcome_ret_bind, u64_small by lia. apply IH; [|lia|lia|simpl; lia].
    split; simpl; [by rewrite length_insert|by apply bytes_insert|lia|lia].
Qed.

Lemma recv_room_typed t fd p :
  slot t fd p -> peer_typed p ->
  exists room, peer_recv_room t fd = Ret room /\ 0 <= room /\ sendbuf_end p + room <= 1024.
Proof.
  intros Hs [_ _ Hptr Hend]. unfold peer_recv_room. rewrite (slot_get _ _ _ Hs), outcome_ret_bind.
  eexists. split; [reflexivity|]. destruct (_ || _); [lia|]. unfold SENDBUF_SIZE. rewrite u64_small; lia.
Qed.

Lemma pending_typed t fd p :
  slot t fd p -> peer_typed p ->
  exists out, peer_pending t fd = Ret out /\ bytes_ok out /\ Z.of_nat (length out) = sendbuf_end p - sendptr p.
Proof.
  intros Hs [Hsz Hby Hptr Hend]. unfold peer_pending. rewrite (slot_get _ _ _ Hs), outcome_ret_bind.
  destruct (Z.leb_spec (sendbuf_end p) (sendptr p)); [exists []; split; [done|]; split; [constructor|simpl; lia]|].
  rewrite (proj2 (Z.leb_le _ _)), (proj2 (Z.leb_le _ _)) by lia. eexists. split; [reflexivity|]. split.
  - unfold slice. by apply Forall_take, Forall_drop.
  - rewrite slice_length by lia. lia.
Qed.

Lemma consume_typed t fd p data len :
  table_typed t -> slot t fd p -> peer_typed p -> 0 <= len <= Z.of_nat (length data) ->
  keeps_type t (peer_consume t fd data len).
Proof.
  intros Ht Hs Hp Hlen. unfold peer_consume. rewrite (slot_get _ _ _ Hs), outcome_ret_bind.
  destruct (recv_room_typed t fd p Hs Hp) as (room & -> & Hr1 & Hr2). rewrite outcome_ret_bind.
  destruct (Z.ltb_spec room len); [by eapply return_with_typed, close_typed|].
  destruct (consume_loop_typed (Z.to_nat len) 0 data p false Hp) as ([[ready p']|[st p']] & -> & Hp'); [lia..|rewrite outcome_ret_bind; by eapply return_with_typed|].
  rewrite outcome_ret_bind. by eapply return_with_typed.
Qed.

Lemma sent_typed t fd p n :
  table_typed t -> slot t fd p -> peer_typed p -> 0 <= n < 2 ^ 64 -> keeps_type t (peer_sent t fd n).
Proof.
  intros Ht Hs [Hsz Hby Hptr Hend] Hn. unfold peer_sent. rewrite (slot_get _ _ _ Hs), outcome_ret_bind. cbv zeta.
  assert (0 <= u64 (sendptr p + n)) by (apply Z.mod_pos_bound; lia).
  destruct (Z.ltb_spec (u64 (sendptr p + n)) (sendbuf_end p)); eapply return_with_typed; try done; by split; simpl; lia || done.
Qed.

(** [close_with] at the end of a wrapper. *)
Lemma wrapper_close_typed t fd p reason (s : sock) :
  table_typed t -> slot t fd p -> peer_typed p ->
  keeps_type t ('(st, t, _) ← (r ← return_with t fd (close_with p reason); Ret (r, s)); Ret (st, t)).
Proof.
  intros Ht Hs Hp. unfold close_with. rewrite (slot_return _ _ _ _ _ Hs). simpl.
  split; [|done]. apply upd_typed; [done|]. by destruct Hp.
Qed.

(** A core function at the end of a wrapper. *)
Lemma wrapper_core_typed t r (s : sock) :
  keeps_type t r -> keeps_type t ('(st, t, _) ← (r ← r; Ret (r, s)); Ret (st, t)).
Proof. by destruct r as [[]| |]. Qed.

Lemma ready_recv_typed t fd p s :
  table_typed t -> slot t fd p -> peer_typed p -> keeps_type t (do_call t (OnReadyRecv fd s)).
Proof.
  intros Ht Hs Hp. unfold do_call, peer_on_ready_recv. rewrite (slot_get _ _ _ Hs), outcome_ret_bind.
  destruct (recv_room_typed t fd p Hs Hp) as (room & -> & Hr1 & Hr2). rewrite outcome_ret_bind.
  destruct (Z.eqb_spec room 0); [done|]. cbv zeta. destruct (nb_recv _ s) as [[[|b bs]|e] s1].
  - by apply wrapper_close_typed.
  - apply wrapper_core_typed. eapply consume_typed; [done..|lia].
  - destruct (_ || _); [done|]. destruct (e =? ECONNRESET); by apply wrapper_close_typed.
Qed.

Lemma ready_send_typed t fd p s :
  table_typed t -> slot t fd p -> peer_typed p -> keeps_type t (do_call t (OnReadySend fd s)).
Proof.
  intros Ht Hs Hp. unfold do_call, peer_on_ready_send. rewrite (slot_get _ _ _ Hs), outcome_ret_bind.
  destruct (pending_typed t fd p Hs Hp) as (out & -> & _ & Hl). rewrite outcome_ret_bind. pose proof (typed_end p Hp).
  pose proof (typed_ptr p Hp). destruct out as [|b out]; [done|]. set (data := b :: out) in *. clearbody data.
  destruct (nb_send (sigpipe_ignored pr) data s) as [[[n|e] s1]|msg|f] eqn:En; unfold nb_send in En.
  - rewrite outcome_ret_bind. apply wrapper_core_typed. eapply sent_typed; [done..|].
    destruct (tx s) as [|[k|e] r]; [done| |by destruct (_ && _)]. injection En as <- _. lia.
  - rewrite outcome_ret_bind. destruct (_ || _); [done|]. destruct (_ || _); by apply wrapper_close_typed.
  - destruct (tx s) as [|[k|e] r]; [done..|]. destruct (_ && _) eqn:E; [|done]. injection En as <-. split; [done|].
    apply andb_true_iff in E as [_ E]. by apply negb_true_iff.
  - destruct (tx s) as [|[k|e] r]; [done..|]. by destruct (_ && _).
Qed.

Lemma do_call_typed t c : table_typed t -> call_ok t c -> keeps_type t (do_call t c).
Proof.
  intros Ht (Hfd & Hr & Hc). destruct (typed_slot t _ Ht Hfd Hr) as (p & Hs & Hp). pose proof Hp as [Hsz Hby Hptr Hend].
  destruct c as [fd|fd reason|fd data len|fd n|fd s|fd s]; simpl in Hs.
  - simpl. unfold peer_on_connected. rewrite (slot_get _ _ _ Hs), outcome_ret_bind, buf_set_ok, outcome_ret_bind by lia.
    eapply return_with_typed; [done..|]. split; simpl; [by rewrite length_insert|by apply (bytes_insert _ _ STAR)|lia|lia].
  - simpl. unfold peer_fail. rewrite (slot_get _ _ _ Hs), outcome_ret_bind. by eapply return_with_typed, close_typed.
  - by eapply consume_typed.
  - by eapply sent_typed.
  - by eapply ready_recv_typed.
  - by eapply ready_send_typed.
Qed.

(** Calls that are all made on descriptors of the table. *)
Definition calls_ok (t : peer_table) (cs : list table_call) : Prop := Forall (call_ok t) cs.

Lemma do_calls_typed cs : forall t,
  table_typed t -> calls_ok t cs ->
  match do_calls t cs with
  | Ret t' => table_typed t' /\ peer_capacity t' = peer_capacity t
  | Exit msg => msg = "SIGPIPE"%string /\ sigpipe_ignored pr = false
  | Fault _ => False
  end.
Proof.
  induction cs as [|c cs IH]; intros t Ht Hcs; [done|]. apply Forall_cons in Hcs as [Hc Hcs]. cbn [do_calls].
  pose proof (do_call_typed t c Ht Hc) as Hk. destruct (do_call t c) as [[st t1]|msg|f]; [|done..].
  destruct Hk as [Ht1 Hcap]. rewrite outcome_ret_bind. cbv beta iota. specialize (IH t1 Ht1).
  assert (calls_ok t1 cs) as Hok.
  { eapply Forall_impl; [exact Hcs|]. intros c' (? & Hr & ?). unfold call_ok, peer_fd_in_range in *. by rewrite Hcap. }
  specialize (IH Hok). destruct (do_calls t1 cs); [|done..]. destruct IH. split; [done|congruence].
Qed.
End Calls.

Lemma init_typed allocated max_fds t :
  0 <= max_fds -> peer_state_init allocated max_fds = Ret t -> table_typed t.
Proof.
  intros Hm. unfold peer_state_init. destruct allocated; [|done]. intros [= <-]. split; simpl.
  - rewrite length_replicate. lia.
  - apply Forall_replicate. split; cbn [peer_zero sendbuf sendptr sendbuf_end]; [done| |lia|lia].
    apply Forall_replicate. lia.
Qed.

(** C23 [peer_table_typed]: from [peer_state_init] on, whatever is called, in any order
    and on any descriptors of the table, slots that were never connected and closed
    ones included, with any bytes, any counts and any results of [recv] and [send]: no
    call leaves the table or a buffer, every slot keeps its type (a buffer of 1024
    bytes, 0 <= sendptr <= sendbuf_end <= 1024), so that the room and the pending
    bytes a slot reports lie inside its buffer; only SIGPIPE, where it is not ignored,
    ends the process. *)
Theorem peer_table_typed strerror pr allocated max_fds t0 cs :
  0 <= max_fds -> peer_state_init allocated max_fds = Ret t0 -> calls_ok t0 cs ->
  match do_calls strerror pr t0 cs with
  | Ret t =>
      table_typed t /\ peer_capacity t = max_fds /\
      forall fd, fd < 2 ^ 31 -> peer_fd_in_range t fd = true ->
        exists room out, peer_recv_room t fd = Ret room /\ peer_pending t fd = Ret out /\ bytes_ok out /\
          0 <= room /\ room + Z.of_nat (length out) <= 1024
  | Exit msg => msg = "SIGPIPE"%string /\ sigpipe_ignored pr = false
  | Fault _ => False
  end.
Proof.
  intros Hm Hinit Hcs. pose proof (init_typed _ _ _ Hm Hinit) as Ht0.
  assert (peer_capacity t0 = max_fds) as Hcap by by eapply peer_state_init_ok.
  pose proof (do_calls_typed strerror pr cs t0 Ht0 Hcs) as H. destruct (do_calls strerror pr t0 cs) as [t| |]; [|done..].
  destruct H as [Ht Hc]. split; [done|]. split; [congruence|]. intros fd Hfd Hr.
  destruct (typed_slot t fd Ht Hfd Hr) as (p & Hs & Hp).
  destruct (recv_room_typed t fd p Hs Hp) as (room & -> & H1 & H2).
  destruct (pending_typed t fd p Hs Hp) as (out & -> & H3 & H4). exists room, out.
  pose proof (typed_ptr p Hp). repeat (split; [done|]). lia.
Qed.

(** Bytes for a slot that was never connected, too many bytes sent, and a call after a
    close. *)
Definition demo_calls : list table_call :=
  [OnConsume 2 [94; 97] 2; OnSent 2 (2 ^ 64 - 1); OnConsume 2 [94; 97] 2; OnFail 2 "gone"; OnConsume 2 [98] 1;
   OnConnected 5; OnReadySend 5 (Sock [] [TxSpace 9] []); OnReadyRecv 5 (Sock [RxData [94; 300; 36]] [] [])].

Lemma peer_table_typed_witness :
  exists t0 t, peer_state_init true 8 = Ret t0 /\
    do_calls (fun _ => "error"%string) (Proc false) t0 demo_calls = Ret t /\ table_typed t /\
    peer_pending t 2 = Ret [98] /\ peer_pending t 5 = Ret [45].
Proof.
  pose proof (peer_table_typed (fun _ => "error"%string) (Proc false) true 8 (PeerTable (replicate 8 peer_zero) 8) demo_calls
    ltac:(lia) eq_refl) as H.
  eexists. assert (calls_ok (PeerTable (replicate 8 peer_zero) 8) demo_calls) as Hok.
  { repeat constructor; simpl; lia. }
  specialize (H Hok).
  destruct (do_calls _ _ (PeerTable (replicate 8 peer_zero) 8) demo_calls) as [t|msg|f] eqn:E; [|by vm_compute in E..].
  exists t. split; [reflexivity|]. split; [exact E|]. split; [apply H|].
  vm_compute in E. injection E as <-. by vm_compute.
Defined.
