(* ===== verification/FdQueue.v ===== *)
(** * The bounded queue of accepted descriptors (src/src/threadpool_server.c)

    The circular buffer of [fd_queue_t], without its synchronisation (ThreadPool.v):
    [queue_init], and the parts of [queue_push] and [queue_pop] that run once the
    lock is held and the wait is over. [contents] reads the ring as the list it
    stands for; the lemmas show that the ring implements a bounded FIFO, and
    [fifo_run] states it for every sequence of operations. *)

From S2P Require Import Prelude.
Local Open Scope Z_scope.

Record fd_queue_t := FdQueue {
  fds : list Z;
  capacity : Z;
  head : Z;
  tail : Z;
  count : Z;
  total_enqueued : Z;
  acceptor_blocked : Z
}.

(** [garbage]: the memory [malloc] returned, [None] when it failed. *)
Definition queue_init (garbage : option (list Z)) (capacity : Z) : outcome fd_queue_t :=
  match garbage with
  | None => Exit "malloc failed"
  | Some mem => Ret (FdQueue mem capacity 0 0 0 0 0)
  end.

(** [queue_push] after its [while]. *)
Definition queue_put (q : fd_queue_t) (fd : Z) : outcome fd_queue_t :=
  fds ← buf_set (fds q) (tail q) fd;
  Ret (FdQueue fds (capacity q) (head q) (u64 (tail q + 1) mod capacity q) (u64 (count q + 1))
         (u64 (total_enqueued q + 1)) (acceptor_blocked q)).

(** The body of the [while] of [queue_push], before the wait. *)
Definition queue_blocked (q : fd_queue_t) : fd_queue_t :=
  FdQueue (fds q) (capacity q) (head q) (tail q) (count q) (total_enqueued q)
    (u64 (acceptor_blocked q + 1)).

(** [queue_pop] after its [while]. *)
Definition queue_take (q : fd_queue_t) : outcome (Z * fd_queue_t) :=
  fd ← buf_get (fds q) (head q);
  Ret (fd, FdQueue (fds q) (capacity q) (u64 (head q + 1) mod capacity q) (tail q) (u64 (count q - 1))
             (total_enqueued q) (acceptor_blocked q)).

(** ** The list a ring stands for *)

Definition contents (q : fd_queue_t) : list Z :=
  (fun k => fds q !!! Z.to_nat ((head q + Z.of_nat k) mod capacity q)) <$> seq 0 (Z.to_nat (count q)).

(** A queue depth is an [int] of at least 1. *)
Record queue_ok (q : fd_queue_t) : Prop := {
  queue_cap : 1 <= capacity q < 2 ^ 31;
  queue_mem : Z.of_nat (length (fds q)) = capacity q;
  queue_head : 0 <= head q < capacity q;
  queue_count : 0 <= count q <= capacity q;
  queue_tail : tail q = (head q + count q) mod capacity q
}.

Lemma queue_init_ok mem cap q :
  1 <= cap < 2 ^ 31 -> Z.of_nat (length mem) = cap ->
  queue_init (Some mem) cap = Ret q -> queue_ok q /\ contents q = [] /\ capacity q = cap.
Proof.
  intros Hc Hm [= <-]. split; [|done]. split; simpl; try lia. by rewrite Z.mod_0_l by lia.
Qed.

Lemma contents_length q : queue_ok q -> Z.of_nat (length (contents q)) = count q.
Proof. intros [_ _ _ Hc _]. unfold contents. rewrite length_fmap, length_seq. lia. Qed.

Lemma mod_ne_shift h a b c : 0 <= a < c -> 0 <= b < c -> a <> b -> (h + a) mod c <> (h + b) mod c.
Proof.
  intros Ha Hb Hne He. apply Hne.
  assert ((h + a - (h + b)) mod c = 0) as H0 by (rewrite Zminus_mod, He, Z.sub_diag; apply Z.mod_0_l; lia).
  replace (h + a - (h + b)) with (a - b) in H0 by lia.
  apply Z.mod_divide in H0 as [k Hk]; [|lia].
  assert (k < 1) by nia. assert (-1 < k) by nia. assert (k = 0) by lia. subst. lia.
Qed.

Lemma queue_put_spec q fd :
  queue_ok q -> count q < capacity q ->
  exists q', queue_put q fd = Ret q' /\ queue_ok q' /\ contents q' = contents q ++ [fd] /\
    capacity q' = capacity q /\ count q' = count q + 1 /\
    total_enqueued q' = u64 (total_enqueued q + 1) /\ acceptor_blocked q' = acceptor_blocked q.
Proof.
  intros [Hcap Hmem Hh Hc Ht] Hlt. unfold queue_put.
  assert (0 <= tail q < capacity q) as Htr by (rewrite Ht; apply Z.mod_pos_bound; lia).
  rewrite buf_set_ok by lia. rewrite outcome_ret_bind. eexists. split; [done|].
  rewrite !(u64_small (_ + 1)) by lia. split; [|split; [|by rewrite ?u64_small by lia]].
  - split; simpl; try lia; [by rewrite length_insert|].
    rewrite Ht, Zplus_mod_idemp_l. f_equal. lia.
  - unfold contents. simpl.
    replace (Z.to_nat (count q + 1)) with (S (Z.to_nat (count q))) by lia.
    rewrite seq_S, fmap_app. f_equal.
    + apply list_fmap_ext. intros i k Hk. apply lookup_seq in Hk as [-> Hk].
      apply list_lookup_total_insert_ne. intros He. rewrite Ht in He.
      apply Z2Nat.inj in He; [|apply Z.mod_pos_bound; lia..].
      revert He. apply mod_ne_shift; lia.
    + simpl. rewrite Z2Nat.id by lia. rewrite <- Ht, list_lookup_total_insert_eq; [done|lia].
Qed.

Lemma queue_take_spec q fd rest :
  queue_ok q -> contents q = fd :: rest ->
  exists q', queue_take q = Ret (fd, q') /\ queue_ok q' /\ contents q' = rest /\
    capacity q' = capacity q /\ count q' = count q - 1 /\
    total_enqueued q' = total_enqueued q /\ acceptor_blocked q' = acceptor_blocked q.
Proof.
  intros Hok Hct. pose proof (contents_length q Hok) as Hlen. rewrite Hct in Hlen. simpl in Hlen.
  destruct Hok as [Hcap Hmem Hh Hc Ht]. unfold queue_take.
  unfold contents in Hct. replace (Z.to_nat (count q)) with (S (Z.to_nat (count q - 1))) in Hct by lia.
  rewrite <- cons_seq, fmap_cons in Hct. injection Hct as Hfd Hrest.
  rewrite Z.add_0_r, Z.mod_small in Hfd by lia.
  destruct (buf_get_lt (fds q) (head q)) as (x & Hx & ->); [lia|]. rewrite outcome_ret_bind.
  rewrite (list_lookup_total_correct _ _ _ Hx) in Hfd. subst x.
  rewrite !u64_small by lia. eexists. split; [done|]. split; [|split; [|done]].
  - split; simpl; try lia; [apply Z.mod_pos_bound; lia|].
    rewrite Zplus_mod_idemp_l. rewrite Ht. f_equal. lia.
  - unfold contents. simpl. rewrite <- Hrest, <- fmap_S_seq, <- list_fmap_compose.
    apply list_fmap_ext. intros i k _. unfold compose. do 2 f_equal.
    rewrite Zplus_mod_idemp_l. f_equal. lia.
Qed.

(** The same, from a call that was made. *)
Lemma queue_put_inv q fd q' :
  queue_ok q -> count q <> capacity q -> queue_put q fd = Ret q' ->
  queue_ok q' /\ contents q' = contents q ++ [fd] /\ capacity q' = capacity q /\
  count q' = count q + 1 /\ total_enqueued q' = u64 (total_enqueued q + 1).
Proof.
  intros Hok Hne Hput. pose proof (queue_count q Hok).
  destruct (queue_put_spec q fd Hok) as (q1 & Hp & ? & ? & ? & ? & ? & _); [lia|].
  rewrite Hp in Hput. by simplify_eq.
Qed.

Lemma queue_take_inv q fd q' :
  queue_ok q -> count q <> 0 -> queue_take q = Ret (fd, q') ->
  queue_ok q' /\ contents q = fd :: contents q' /\ capacity q' = capacity q /\
  count q' = count q - 1 /\ total_enqueued q' = total_enqueued q.
Proof.
  intros Hok Hne Htake. pose proof (contents_length q Hok) as Hlen.
  destruct (contents q) as [|fd1 rest] eqn:Ec; [simpl in Hlen; lia|].
  destruct (queue_take_spec q fd1 rest Hok Ec) as (q1 & Hp & ? & ? & ? & ? & ? & _).
  rewrite Hp in Htake. by simplify_eq.
Qed.

Lemma queue_blocked_spec q :
  (queue_ok q -> queue_ok (queue_blocked q)) /\ contents (queue_blocked q) = contents q.
Proof. split; [|done]. by intros [????]. Qed.

(** ** Sequences of operations *)

Inductive queue_op := Push (fd : Z) | Pop.

(** A push on a full queue and a pop on an empty one are not executed: there the
    callers wait. The result is what the pops returned. *)
Fixpoint queue_run (q : fd_queue_t) (ops : list queue_op) : outcome (list Z * fd_queue_t) :=
  match ops with
  | [] => Ret ([], q)
  | Push fd :: ops' =>
      if count q =? capacity q then queue_run (queue_blocked q) ops'
      else q ← queue_put q fd; queue_run q ops'
  | Pop :: ops' =>
      if count q =? 0 then queue_run q ops'
      else
        '(fd, q) ← queue_take q;
        '(out, q) ← queue_run q ops';
        Ret (fd :: out, q)
  end.

(** The bounded FIFO it stands for. *)
Fixpoint fifo_run (cap : Z) (l : list Z) (ops : list queue_op) : list Z * list Z :=
  match ops with
  | [] => ([], l)
  | Push fd :: ops' =>
      if Z.of_nat (length l) =? cap then fifo_run cap l ops' else fifo_run cap (l ++ [fd]) ops'
  | Pop :: ops' =>
      match l with
      | [] => fifo_run cap l ops'
      | fd :: l' => let '(out, l'') := fifo_run cap l' ops' in (fd :: out, l'')
      end
  end.

Lemma queue_run_spec q ops :
  queue_ok q ->
  exists q', queue_run q ops = Ret ((fifo_run (capacity q) (contents q) ops).1, q') /\
    queue_ok q' /\ contents q' = (fifo_run (capacity q) (contents q) ops).2 /\
    capacity q' = capacity q.
Proof.
  revert q. induction ops as [|[fd|] ops IH]; intros q Hok; simpl.
  - by exists q.
  - rewrite (contents_length q Hok). destruct (Z.eqb_spec (count q) (capacity q)) as [E|E].
    + destruct (queue_blocked_spec q) as [Hb Hc].
      destruct (IH (queue_blocked q) (Hb Hok)) as (q' & Hr & Hq'). rewrite Hc in *. by exists q'.
    + destruct (queue_put_spec q fd Hok) as (q1 & -> & Hok1 & Hc1 & Hcap & _).
      { pose proof (queue_count q Hok). lia. }
      rewrite outcome_ret_bind. destruct (IH q1 Hok1) as (q' & Hr & Hq').
      rewrite Hc1, Hcap in *. by exists q'.
  - pose proof (contents_length q Hok) as Hlen. destruct (Z.eqb_spec (count q) 0) as [E|E].
    + destruct (IH q Hok) as (q' & Hr & Hq'). exists q'.
      destruct (contents q); [done|]. simpl in Hlen. lia.
    + destruct (contents q) as [|fd rest] eqn:Ec; [simpl in Hlen; lia|].
      destruct (queue_take_spec q fd rest Hok Ec) as (q1 & -> & Hok1 & Hc1 & Hcap & _).
      rewrite outcome_ret_bind. destruct (IH q1 Hok1) as (q' & Hr & Hok' & Hq').
      rewrite Hc1, Hcap in *. rewrite Hr, outcome_ret_bind. exists q'.
      by destruct (fifo_run (capacity q) rest ops).
Qed.

(** ** Properties *)

(** C21 [fd_queue_fifo]: a queue made by [queue_init], whatever memory [malloc]
    returned and for every depth [main] lets through, behaves under every sequence
    of pushes and pops as a FIFO of that capacity: every index stays inside the
    allocation, each pop returns the descriptor pushed first, none is lost,
    repeated or overwritten, and what is left is what was pushed and not popped. *)
Theorem fd_queue_fifo (mem : list Z) (cap : Z) (ops : list queue_op) :
  1 <= cap < 2 ^ 31 -> Z.of_nat (length mem) = cap ->
  exists q q', queue_init (Some mem) cap = Ret q /\
    queue_run q ops = Ret ((fifo_run cap [] ops).1, q') /\
    contents q' = (fifo_run cap [] ops).2 /\
    count q' = Z.of_nat (length (fifo_run cap [] ops).2) /\ 0 <= count q' <= cap.
Proof.
  intros Hc Hm. eexists. destruct (queue_init_ok mem cap _ Hc Hm eq_refl) as (Hok & Hn & Hcap).
  destruct (queue_run_spec _ ops Hok) as (q' & Hr & Hok' & Hq' & Hcap'). simpl in Hcap. exists q'.
  split; [done|]. rewrite Hn in Hr, Hq'. split; [exact Hr|]. split; [exact Hq'|].
  pose proof (contents_length q' Hok') as Hlen. simpl in Hq'. rewrite <- Hq', Hlen. split; [done|].
  pose proof (queue_count q' Hok'). simpl in Hcap'. lia.
Qed.

Lemma fd_queue_fifo_witness :
  exists q q', queue_init (Some [7; 7]) 2 = Ret q /\
    queue_run q [Push 4; Push 5; Push 6; Pop; Push 8; Pop; Pop; Pop] = Ret ([4; 5; 8], q') /\
    contents q' = [].
Proof.
  destruct (fd_queue_fifo [7; 7] 2 [Push 4; Push 5; Push 6; Pop; Push 8; Pop; Pop; Pop])
    as (q & q' & H1 & H2 & H3 & _); [lia|reflexivity|].
  exists q, q'. split; [exact H1|]. split; [exact H2|exact H3].
Defined.
