(* ===== verification/ThreadPool.v ===== *)
(** * The thread pool server (src/src/threadpool_server.c)

    One acceptor (the main thread) and a fixed number of workers around the queue
    of FdQueue.v, its mutex and its two condition variables.

    - [parse_port], [main_args]: the command line;
    - [pool]: the shared state and the program counter of every thread, a
      constructor of [acceptor_pc]/[worker_pc] per place where a thread can be
      overtaken by another;
    - [step]: one action of one thread, or of the kernel on its behalf. [None] is
      an action that is not possible in that state. What a thread does between
      [pthread_mutex_lock] and the unlock or the wait is one step, as is one call
      of a metrics mutator. [pthread_cond_signal] wakes one waiter if there is one,
      any of them; a waiter may also wake for no reason;
    - [reach]: what is reachable from the state [main] starts the threads in, under
      every schedule and every result of [accept] and [serve_connection]. *)

From S2P Require Import Prelude CString Metrics Protocol FdQueue.
Local Open Scope Z_scope.

Definition DEFAULT_PORT : Z := 9090.
Definition DEFAULT_WORKERS : Z := 4.
Definition DEFAULT_QUEUE_DEPTH : Z := 64.
Definition DEFAULT_METRICS_PORT : Z := 9110.

(** ** The command line *)

Definition parse_port (text : option (list Z)) (fallback : Z) : outcome Z :=
  match text with
  | None | Some [] => Ret fallback
  | Some text =>
      let '(value, erange, end_) := strtol text in
      if erange || bool_decide (end_ <> Some []) || (value <? 0) || (65535 <? value)
      then Exit "port must be an integer in 0..65535"
      else Ret value
  end.

Record config := Config { c_port : Z; c_workers : Z; c_depth : Z; c_metrics_port : Z }.

(** [args]: the arguments after the program's name. *)
Definition main_args (metrics_env : option (list Z)) (args : list (list Z)) : outcome config :=
  metrics_port ← parse_port metrics_env DEFAULT_METRICS_PORT;
  portnum ← match args !! 0%nat with
            | Some a => parse_port (Some a) DEFAULT_PORT
            | None => Ret DEFAULT_PORT
            end;
  let num_workers := match args !! 1%nat with Some a => atoi a | None => DEFAULT_WORKERS end in
  let queue_depth := match args !! 2%nat with Some a => atoi a | None => DEFAULT_QUEUE_DEPTH end in
  metrics_port ← match args !! 3%nat with
                 | Some a => parse_port (Some a) DEFAULT_METRICS_PORT
                 | None => Ret metrics_port
                 end;
  if (num_workers <? 1) || (queue_depth <? 1) then Exit "num_workers and queue_depth must be at least 1"
  else Ret (Config portnum num_workers queue_depth metrics_port).

(** ** Threads *)

Inductive thread := Acceptor | Worker (i : nat).

Inductive acceptor_pc :=
| A_Loop              (* at while (!stop_requested) *)
| A_Accept            (* in accept *)
| A_Backoff           (* in poll, after a resource limit *)
| A_Count (fd : Z)    (* accept has returned fd *)
| A_Push (fd : Z)     (* in queue_push, wants the lock *)
| A_Test (fd : Z)     (* holds the lock, at the while *)
| A_Wait (fd : Z)     (* asleep on not_full *)
| A_Wake (fd : Z)     (* woken, wants the lock back *)
| A_Signal            (* has pushed and unlocked, is about to signal not_empty *)
| A_Stopped.          (* has left the loop *)

Inductive worker_pc :=
| W_Pop               (* in queue_pop, wants the lock *)
| W_Test              (* holds the lock, at the while *)
| W_Wait              (* asleep on not_empty *)
| W_Wake              (* woken, wants the lock back *)
| W_Signal (fd : Z)   (* has popped and unlocked, is about to signal not_full *)
| W_Busy (fd : Z)     (* is about to raise the busy gauge *)
| W_Serve (fd : Z)    (* in serve_connection *)
| W_Served (fd : Z) (r : serve_result_t)
| W_Close (fd : Z)
| W_Closed.           (* is about to count the close *)

#[export] Instance thread_eq_dec : EqDecision thread.
Proof. solve_decision. Defined.
#[export] Instance acceptor_pc_eq_dec : EqDecision acceptor_pc.
Proof. solve_decision. Defined.
#[export] Instance worker_pc_eq_dec : EqDecision worker_pc.
Proof. solve_decision. Defined.

(** The last three fields are the history: the descriptors [accept] has returned,
    those popped from the queue, and those closed, each in order. *)
Record pool := Pool {
  p_q : fd_queue_t;
  p_lock : option thread;
  p_stop : bool;
  p_acc : acceptor_pc;
  p_wk : list worker_pc;
  p_reg : registry;
  p_accepted : list Z;
  p_popped : list Z;
  p_closed : list Z
}.

(** The descriptors a thread is responsible for. *)
Definition in_hand (a : acceptor_pc) : list Z :=
  match a with
  | A_Count fd | A_Push fd | A_Test fd | A_Wait fd | A_Wake fd => [fd]
  | _ => []
  end.

Definition serving (w : worker_pc) : list Z :=
  match w with
  | W_Signal fd | W_Busy fd | W_Serve fd | W_Served fd _ | W_Close fd => [fd]
  | _ => []
  end.

(** The connections the process holds open. *)
Definition held (p : pool) : list Z :=
  concat (serving <$> p_wk p) ++ contents (p_q p) ++ in_hand (p_acc p).

Definition set_acc (p : pool) (a : acceptor_pc) : pool :=
  Pool (p_q p) (p_lock p) (p_stop p) a (p_wk p) (p_reg p) (p_accepted p) (p_popped p) (p_closed p).
Definition set_worker (p : pool) (i : nat) (w : worker_pc) : pool :=
  Pool (p_q p) (p_lock p) (p_stop p) (p_acc p) (<[i := w]> (p_wk p)) (p_reg p)
    (p_accepted p) (p_popped p) (p_closed p).
Definition set_queue (p : pool) (q : fd_queue_t) : pool :=
  Pool q (p_lock p) (p_stop p) (p_acc p) (p_wk p) (p_reg p) (p_accepted p) (p_popped p) (p_closed p).
Definition set_lock (p : pool) (l : option thread) : pool :=
  Pool (p_q p) l (p_stop p) (p_acc p) (p_wk p) (p_reg p) (p_accepted p) (p_popped p) (p_closed p).
Definition set_stop (p : pool) : pool :=
  Pool (p_q p) (p_lock p) true (p_acc p) (p_wk p) (p_reg p) (p_accepted p) (p_popped p) (p_closed p).
Definition metrics (p : pool) (ops : list atomic) : pool :=
  Pool (p_q p) (p_lock p) (p_stop p) (p_acc p) (p_wk p) (run (p_reg p) ops)
    (p_accepted p) (p_popped p) (p_closed p).
Definition log_accept (p : pool) (fd : Z) : pool :=
  Pool (p_q p) (p_lock p) (p_stop p) (p_acc p) (p_wk p) (p_reg p)
    (p_accepted p ++ [fd]) (p_popped p) (p_closed p).
Definition log_pop (p : pool) (fd : Z) : pool :=
  Pool (p_q p) (p_lock p) (p_stop p) (p_acc p) (p_wk p) (p_reg p)
    (p_accepted p) (p_popped p ++ [fd]) (p_closed p).
Definition log_close (p : pool) (fd : Z) : pool :=
  Pool (p_q p) (p_lock p) (p_stop p) (p_acc p) (p_wk p) (p_reg p)
    (p_accepted p) (p_popped p) (p_closed p ++ [fd]).

(** ** Actions *)

Inductive action :=
| Stop                               (* SIGINT or SIGTERM is delivered *)
| Accepting (r : Z + Z)              (* accept returns a descriptor, or fails with an errno *)
| BackoffOver                        (* poll returns *)
| Run (t : thread)                   (* a thread takes its next step *)
| SignalNotEmpty (i : option nat)    (* the acceptor signals, waking worker i *)
| Spurious (t : thread)              (* a waiter wakes for no reason *)
| Observe (i : nat) (duration : Z)   (* worker i, in serve_connection, records a request *)
| Serving (i : nat) (r : serve_result_t).  (* serve_connection returns in worker i *)

(** The error branches of the accept loop. *)
Definition accept_failed (p : pool) (errno : Z) : outcome pool :=
  if (errno =? EINTR) || (errno =? ECONNABORTED) then Ret (set_acc p A_Loop)
  else if (errno =? EMFILE) || (errno =? ENFILE) || (errno =? ENOBUFS) || (errno =? ENOMEM) then
    Ret (set_acc (metrics p metrics_connection_refused) A_Backoff)
  else Exit "accept".

Definition run_acceptor (p : pool) : option (outcome pool) :=
  match p_acc p with
  | A_Loop => Some (Ret (set_acc p (if p_stop p then A_Stopped else A_Accept)))
  | A_Count fd => Some (Ret (set_acc (metrics p metrics_connection_accepted) (A_Push fd)))
  | A_Push fd | A_Wake fd =>
      if decide (p_lock p = None) then Some (Ret (set_lock (set_acc p (A_Test fd)) (Some Acceptor)))
      else None
  | A_Test fd =>
      if count (p_q p) =? capacity (p_q p) then
        Some (Ret (set_lock (set_acc (set_queue p (queue_blocked (p_q p))) (A_Wait fd)) None))
      else Some (
        q ← queue_put (p_q p) fd;
        let p := metrics (set_queue p q) (metrics_queue_depth_set (count q)) in
        Ret (set_lock (set_acc p A_Signal) None))
  | _ => None
  end.

(** [pthread_cond_signal(&q->not_full)]: only the acceptor waits on it. *)
Definition signal_not_full (a : acceptor_pc) : acceptor_pc :=
  match a with A_Wait fd => A_Wake fd | _ => a end.

Definition run_worker (p : pool) (i : nat) : option (outcome pool) :=
  match p_wk p !! i with
  | Some W_Pop | Some W_Wake =>
      if decide (p_lock p = None) then Some (Ret (set_lock (set_worker p i W_Test) (Some (Worker i))))
      else None
  | Some W_Test =>
      if count (p_q p) =? 0 then Some (Ret (set_lock (set_worker p i W_Wait) None))
      else Some (
        '(fd, q) ← queue_take (p_q p);
        let p := metrics (set_queue p q) (metrics_queue_depth_set (count q)) in
        Ret (set_lock (set_worker (log_pop p fd) i (W_Signal fd)) None))
  | Some (W_Signal fd) => Some (Ret (set_acc (set_worker p i (W_Busy fd)) (signal_not_full (p_acc p))))
  | Some (W_Busy fd) => Some (Ret (set_worker (metrics p (metrics_workers_busy_add 1)) i (W_Serve fd)))
  | Some (W_Served fd _) => Some (Ret (set_worker (metrics p (metrics_workers_busy_add (-1))) i (W_Close fd)))
  | Some (W_Close fd) => Some (Ret (set_worker (log_close p fd) i W_Closed))
  | Some W_Closed => Some (Ret (set_worker (metrics p metrics_connection_closed) i W_Pop))
  | _ => None
  end.

Definition step (p : pool) (a : action) : option (outcome pool) :=
  match a with
  | Stop => Some (Ret (set_stop p))
  | Accepting (inl fd) =>
      (* the kernel hands out the number of no open descriptor *)
      if decide (p_acc p = A_Accept /\ 0 <= fd /\ fd ∉ held p)
      then Some (Ret (log_accept (set_acc p (A_Count fd)) fd)) else None
  | Accepting (inr errno) =>
      if decide (p_acc p = A_Accept) then Some (accept_failed p errno) else None
  | BackoffOver => if decide (p_acc p = A_Backoff) then Some (Ret (set_acc p A_Loop)) else None
  | Run Acceptor => run_acceptor p
  | Run (Worker i) => run_worker p i
  | SignalNotEmpty (Some i) =>
      if decide (p_acc p = A_Signal /\ p_wk p !! i = Some W_Wait)
      then Some (Ret (set_worker (set_acc p A_Loop) i W_Wake)) else None
  | SignalNotEmpty None =>
      if decide (p_acc p = A_Signal /\ W_Wait ∉ p_wk p) then Some (Ret (set_acc p A_Loop)) else None
  | Spurious Acceptor =>
      match p_acc p with A_Wait fd => Some (Ret (set_acc p (A_Wake fd))) | _ => None end
  | Spurious (Worker i) =>
      if decide (p_wk p !! i = Some W_Wait) then Some (Ret (set_worker p i W_Wake)) else None
  | Observe i d =>
      match p_wk p !! i with
      | Some (W_Serve _) => Some (Ret (metrics p (metrics_request_observed d)))
      | _ => None
      end
  | Serving i r =>
      match p_wk p !! i with
      | Some (W_Serve fd) => Some (Ret (set_worker p i (W_Served fd r)))
      | _ => None
      end
  end.

(** The threads as [main] starts them: [metrics_init] and [queue_init] have run. *)
Definition pool_start (g : registry) (q : fd_queue_t) (num_workers : Z) : pool :=
  Pool q None false A_Loop (replicate (Z.to_nat num_workers) W_Pop) g [] [] [].

Definition main_start (g : registry) (mem : option (list Z)) (c : config) : outcome pool :=
  g ← metrics_init g (Some (lit "threadpool"));
  q ← queue_init mem (c_depth c);
  Ret (pool_start g q (c_workers c)).

Fixpoint steps (p : pool) (l : list action) : option (outcome pool) :=
  match l with
  | [] => Some (Ret p)
  | a :: l' =>
      match step p a with
      | Some (Ret p') => steps p' l'
      | o => match l' with [] => o | _ => None end
      end
  end.

(** [reach p0 p]: some schedule leads from [p0] to [p]. *)
Inductive reach (p0 : pool) : pool -> Prop :=
| reach_start : reach p0 p0
| reach_step p a p' : reach p0 p -> step p a = Some (Ret p') -> reach p0 p'.

(** ** The steps as a relation, one rule per branch *)

Inductive pstep (p : pool) : pool -> Prop :=
| ps_stop : pstep p (set_stop p)
| ps_accept fd :
    p_acc p = A_Accept -> 0 <= fd -> fd ∉ held p ->
    pstep p (log_accept (set_acc p (A_Count fd)) fd)
| ps_accept_again : p_acc p = A_Accept -> pstep p (set_acc p A_Loop)
| ps_refused :
    p_acc p = A_Accept -> pstep p (set_acc (metrics p metrics_connection_refused) A_Backoff)
| ps_backoff : p_acc p = A_Backoff -> pstep p (set_acc p A_Loop)
| ps_loop a : p_acc p = A_Loop -> a = A_Stopped \/ a = A_Accept -> pstep p (set_acc p a)
| ps_count fd :
    p_acc p = A_Count fd -> pstep p (set_acc (metrics p metrics_connection_accepted) (A_Push fd))
| ps_acc_lock fd :
    p_acc p = A_Push fd \/ p_acc p = A_Wake fd -> p_lock p = None ->
    pstep p (set_lock (set_acc p (A_Test fd)) (Some Acceptor))
| ps_block fd :
    p_acc p = A_Test fd -> count (p_q p) = capacity (p_q p) ->
    pstep p (set_lock (set_acc (set_queue p (queue_blocked (p_q p))) (A_Wait fd)) None)
| ps_push fd q :
    p_acc p = A_Test fd -> count (p_q p) <> capacity (p_q p) -> queue_put (p_q p) fd = Ret q ->
    pstep p (set_lock (set_acc (metrics (set_queue p q) (metrics_queue_depth_set (count q))) A_Signal) None)
| ps_acc_spurious fd : p_acc p = A_Wait fd -> pstep p (set_acc p (A_Wake fd))
| ps_signal i :
    p_acc p = A_Signal -> p_wk p !! i = Some W_Wait -> pstep p (set_worker (set_acc p A_Loop) i W_Wake)
| ps_signal_none : p_acc p = A_Signal -> W_Wait ∉ p_wk p -> pstep p (set_acc p A_Loop)
| ps_worker_lock i w :
    p_wk p !! i = Some w -> w = W_Pop \/ w = W_Wake -> p_lock p = None ->
    pstep p (set_lock (set_worker p i W_Test) (Some (Worker i)))
| ps_sleep i :
    p_wk p !! i = Some W_Test -> count (p_q p) = 0 -> pstep p (set_lock (set_worker p i W_Wait) None)
| ps_take i fd q :
    p_wk p !! i = Some W_Test -> count (p_q p) <> 0 -> queue_take (p_q p) = Ret (fd, q) ->
    pstep p (set_lock (set_worker (log_pop
      (metrics (set_queue p q) (metrics_queue_depth_set (count q))) fd) i (W_Signal fd)) None)
| ps_worker_spurious i : p_wk p !! i = Some W_Wait -> pstep p (set_worker p i W_Wake)
| ps_worker_signal i fd :
    p_wk p !! i = Some (W_Signal fd) ->
    pstep p (set_acc (set_worker p i (W_Busy fd)) (signal_not_full (p_acc p)))
| ps_busy i fd :
    p_wk p !! i = Some (W_Busy fd) ->
    pstep p (set_worker (metrics p (metrics_workers_busy_add 1)) i (W_Serve fd))
| ps_observe i fd d :
    p_wk p !! i = Some (W_Serve fd) -> pstep p (metrics p (metrics_request_observed d))
| ps_served i fd r : p_wk p !! i = Some (W_Serve fd) -> pstep p (set_worker p i (W_Served fd r))
| ps_idle i fd r :
    p_wk p !! i = Some (W_Served fd r) ->
    pstep p (set_worker (metrics p (metrics_workers_busy_add (-1))) i (W_Close fd))
| ps_close i fd : p_wk p !! i = Some (W_Close fd) -> pstep p (set_worker (log_close p fd) i W_Closed)
| ps_closed i :
    p_wk p !! i = Some W_Closed -> pstep p (set_worker (metrics p metrics_connection_closed) i W_Pop).

Lemma run_acceptor_pstep p p' : run_acceptor p = Some (Ret p') -> pstep p p'.
Proof.
  unfold run_acceptor. destruct (p_acc p) eqn:Ea; try done.
  - intros [= <-]. apply ps_loop; [done|]. destruct (p_stop p); [by left|by right].
  - intros [= <-]. by eapply ps_count.
  - case_decide; [|done]. intros [= <-]. eapply ps_acc_lock; [left; exact Ea|done].
  - destruct (Z.eqb_spec (count (p_q p)) (capacity (p_q p))); [intros [= <-]; by eapply ps_block|].
    intros [= H]. apply outcome_bind_inv in H as (q & Hq & [= <-]). by eapply ps_push.
  - case_decide; [|done]. intros [= <-]. eapply ps_acc_lock; [right; exact Ea|done].
Qed.

Lemma run_worker_pstep p i p' : run_worker p i = Some (Ret p') -> pstep p p'.
Proof.
  unfold run_worker. destruct (p_wk p !! i) as [w|] eqn:Ew; [|done]. destruct w; try done.
  - case_decide; [|done]. intros [= <-]. eapply ps_worker_lock; [done|by left|done].
  - destruct (Z.eqb_spec (count (p_q p)) 0); [intros [= <-]; by eapply ps_sleep|].
    intros [= H]. apply outcome_bind_inv in H as ([fd q] & Hq & [= <-]). by eapply ps_take.
  - case_decide; [|done]. intros [= <-]. eapply ps_worker_lock; [done|by right|done].
  - intros [= <-]. by eapply ps_worker_signal.
  - intros [= <-]. by eapply ps_busy.
  - intros [= <-]. by eapply ps_idle.
  - intros [= <-]. by eapply ps_close.
  - intros [= <-]. by eapply ps_closed.
Qed.

Lemma step_pstep p a p' : step p a = Some (Ret p') -> pstep p p'.
Proof.
  destruct a as [|[fd|e]| |[|i]|[i|]|[|i]|i d|i r]; simpl.
  - intros [= <-]. constructor.
  - case_decide as H; [|done]. intros [= <-]. by eapply ps_accept; destruct H as (?&?&?).
  - case_decide as H; [|done]. unfold accept_failed. intros [= He].
    destruct (_ || _); [injection He as <-; by eapply ps_accept_again|].
    destruct (_ || _); [injection He as <-; by eapply ps_refused|done].
  - case_decide as H; [|done]. intros [= <-]. by eapply ps_backoff.
  - apply run_acceptor_pstep.
  - apply run_worker_pstep.
  - case_decide as H; [|done]. intros [= <-]. by eapply ps_signal; destruct H.
  - case_decide as H; [|done]. intros [= <-]. by eapply ps_signal_none; destruct H.
  - destruct (p_acc p) eqn:E; try done. intros [= <-]. by eapply ps_acc_spurious.
  - case_decide as H; [|done]. intros [= <-]. by eapply ps_worker_spurious.
  - destruct (p_wk p !! i) as [[]|] eqn:E; try done. intros [= <-]. by eapply ps_observe.
  - destruct (p_wk p !! i) as [[]|] eqn:E; try done. intros [= <-]. by eapply ps_served.
Qed.

(** ** Invariant: the queue, the lock and the descriptors *)

Definition holds_lock (p : pool) (t : thread) : Prop :=
  match t with
  | Acceptor => exists fd, p_acc p = A_Test fd
  | Worker i => p_wk p !! i = Some W_Test
  end.

Record pool_ok (p : pool) : Prop := {
  ok_queue : queue_ok (p_q p);
  ok_lock : forall t, holds_lock p t <-> p_lock p = Some t;
  ok_fifo : p_accepted p = p_popped p ++ contents (p_q p) ++ in_hand (p_acc p);
  ok_popped : p_popped p ≡ₚ p_closed p ++ concat (serving <$> p_wk p);
  ok_nodup : NoDup (held p)
}.

(** Use what the queue operation of a step did. *)
Ltac queue_facts Hq :=
  try match goal with
  | H : queue_put _ _ = Ret _, Hn : count _ <> capacity _ |- _ =>
      destruct (queue_put_inv _ _ _ Hq Hn H) as (? & ? & ? & ? & ?)
  | H : queue_take _ = Ret _, Hn : count _ <> 0 |- _ =>
      destruct (queue_take_inv _ _ _ Hq Hn H) as (? & ? & ? & ? & ?)
  end.

Lemma pstep_queue p p' : queue_ok (p_q p) -> pstep p p' ->
  queue_ok (p_q p') /\ capacity (p_q p') = capacity (p_q p) /\ length (p_wk p') = length (p_wk p).
Proof.
  intros Hq H. destruct H; simpl; rewrite ?length_insert; try done; queue_facts Hq; try done.
  split; [by apply queue_blocked_spec|done].
Qed.

(** The lock's owner is the thread between its lock and its unlock or wait. *)
Definition lock_ok (p : pool) : Prop := forall t, holds_lock p t <-> p_lock p = Some t.

Lemma lock_acc p p' :
  lock_ok p -> p_lock p' = p_lock p -> p_wk p' = p_wk p ->
  (forall fd, p_acc p <> A_Test fd) -> (forall fd, p_acc p' <> A_Test fd) -> lock_ok p'.
Proof.
  intros Hl Hlk Hwk H1 H2 t. rewrite Hlk, <- (Hl t). destruct t as [|i]; simpl; [|by rewrite Hwk].
  split; intros [fd Hfd]; [by destruct (H2 fd)|by destruct (H1 fd)].
Qed.

Lemma lock_worker p p' i w w' :
  lock_ok p -> p_lock p' = p_lock p -> p_acc p' = p_acc p ->
  p_wk p' = <[i := w']> (p_wk p) ->
  p_wk p !! i = Some w -> w <> W_Test -> w' <> W_Test -> lock_ok p'.
Proof.
  intros Hl Hlk Ha Hwk Hw H1 H2 t. rewrite Hlk, <- (Hl t).
  destruct t as [|j]; simpl; [by rewrite Ha|]. rewrite Hwk. destruct (decide (i = j)) as [->|].
  - rewrite list_lookup_insert_eq by (by eapply lookup_lt_Some). rewrite Hw. naive_solver.
  - by rewrite list_lookup_insert_ne.
Qed.

Lemma lock_acquire p p' t0 :
  lock_ok p -> p_lock p = None -> p_lock p' = Some t0 -> holds_lock p' t0 ->
  (forall t, t <> t0 -> holds_lock p' t -> holds_lock p t) -> lock_ok p'.
Proof.
  intros Hl Hn Hs H0 Hother t. rewrite Hs. split; [|intros [= <-]; done].
  intros Ht. destruct (decide (t = t0)) as [->|Hne]; [done|].
  apply Hother, Hl in Ht; [|done]. congruence.
Qed.

Lemma lock_release p p' t0 :
  lock_ok p -> holds_lock p t0 -> p_lock p' = None -> ~ holds_lock p' t0 ->
  (forall t, t <> t0 -> holds_lock p' t -> holds_lock p t) -> lock_ok p'.
Proof.
  intros Hl H0 Hn Hnot Hother t. rewrite Hn. split; [|done]. intros Ht.
  destruct (decide (t = t0)) as [->|Hne]; [done|].
  apply Hother, Hl in Ht; [|done]. apply Hl in H0. congruence.
Qed.

Lemma lock_insert i w t p p' :
  t <> Worker i -> p_acc p' = p_acc p -> p_wk p' = <[i := w]> (p_wk p) ->
  holds_lock p' t -> holds_lock p t.
Proof.
  intros Hne Ha Hwk. destruct t as [|j]; simpl; rewrite ?Ha, ?Hwk; [done|].
  by rewrite list_lookup_insert_ne by congruence.
Qed.

Lemma signal_not_full_test a fd : signal_not_full a = A_Test fd <-> a = A_Test fd.
Proof. by destruct a. Qed.

Lemma lock_signal_not_full p : lock_ok p -> lock_ok (set_acc p (signal_not_full (p_acc p))).
Proof.
  intros Hl t. etransitivity; [|apply Hl]. destruct t as [|j]; simpl; [|done].
  by setoid_rewrite signal_not_full_test.
Qed.

Lemma pstep_lock p p' : lock_ok p -> pstep p p' -> lock_ok p'.
Proof.
  intros Hl H. destruct H as [| | | | |a Ha Hor| |fd Ha Hn|fd Ha|fd q Ha| |i Ha Hi| |i w Hi Hw Hn|i Hi|
    i fd q Hi| |i fd Hi| | | | | |];
    try exact Hl;
    try (eapply (lock_acc p); [exact Hl|done|done|simpl; congruence..]; fail);
    try (eapply (lock_worker p); [exact Hl|done|done|done|eassumption|congruence|congruence]; fail).
  - eapply (lock_acc p); [exact Hl|done|done|congruence|]. simpl. destruct Hor; congruence.
  - eapply (lock_acquire p); [exact Hl|done|done|by exists fd|]. intros [|j]; done.
  - eapply (lock_release p _ Acceptor); [exact Hl|by exists fd|done|by intros []|]. intros [|j]; done.
  - eapply (lock_release p _ Acceptor); [exact Hl|by exists fd|done|by intros []|]. intros [|j]; done.
  - eapply (lock_worker (set_acc p A_Loop)); [|done|done|done|exact Hi|done|done].
    eapply (lock_acc p); [exact Hl|done|done|congruence|done].
  - pose proof (lookup_lt_Some _ _ _ Hi).
    eapply (lock_acquire p); [exact Hl|done|done|simpl; by apply list_lookup_insert_eq|].
    intros t Ht. by eapply lock_insert.
  - pose proof (lookup_lt_Some _ _ _ Hi).
    eapply (lock_release p _ (Worker i)); [exact Hl|done|done|simpl; by rewrite list_lookup_insert_eq|].
    intros t Ht. by eapply lock_insert.
  - pose proof (lookup_lt_Some _ _ _ Hi).
    eapply (lock_release p _ (Worker i)); [exact Hl|done|done|simpl; by rewrite list_lookup_insert_eq|].
    intros t Ht. by eapply lock_insert.
  - apply (lock_signal_not_full (set_worker p i (W_Busy fd))).
    eapply (lock_worker p); [exact Hl|done|done|done|exact Hi|done|done].
Qed.

(** ** Invariant: what has been accepted is closed, served, queued or in hand *)

Lemma signal_not_full_hand a : in_hand (signal_not_full a) = in_hand a.
Proof. by destruct a. Qed.

Definition fifo_ok (p : pool) : Prop :=
  p_accepted p = p_popped p ++ contents (p_q p) ++ in_hand (p_acc p).

Lemma pstep_fifo p p' : queue_ok (p_q p) -> fifo_ok p -> pstep p p' -> fifo_ok p'.
Proof.
  unfold fifo_ok. intros Hq Hf H.
  destruct H; simpl in *; queue_facts Hq;
    repeat match goal with
    | H : _ \/ _ |- _ => destruct H; subst
    | H : p_acc p = _ |- _ => rewrite H in Hf; clear H
    end; simpl in Hf; rewrite ?signal_not_full_hand, ?app_nil_r in *; try done.
  - by rewrite Hf, app_assoc.
  - rewrite Hf. by match goal with H : contents _ = _ ++ _ |- _ => rewrite H end.
  - rewrite Hf. match goal with H : contents _ = _ :: _ |- _ => rewrite H end. by rewrite <- app_assoc.
Qed.

Lemma serving_insert wk i w w' :
  wk !! i = Some w ->
  concat (serving <$> <[i := w']> wk) ++ serving w ≡ₚ concat (serving <$> wk) ++ serving w'.
Proof.
  intros Hi. rewrite (Permutation_app_comm _ (serving w)), (concat_fmap_insert _ _ _ _ _ Hi).
  apply Permutation_app_comm.
Qed.

Lemma serving_insert_same wk i w w' :
  wk !! i = Some w -> serving w = serving w' ->
  concat (serving <$> <[i := w']> wk) ≡ₚ concat (serving <$> wk).
Proof.
  intros Hi He. apply (Permutation_app_inv_r (serving w)). rewrite (serving_insert _ _ _ _ Hi). by rewrite He.
Qed.

Lemma serving_insert_new wk i w w' fd :
  wk !! i = Some w -> serving w = [] -> serving w' = [fd] ->
  concat (serving <$> <[i := w']> wk) ≡ₚ concat (serving <$> wk) ++ [fd].
Proof. intros Hi H1 H2. pose proof (serving_insert wk i w w' Hi) as H. by rewrite H1, H2, app_nil_r in H. Qed.

Lemma serving_insert_gone wk i w w' fd :
  wk !! i = Some w -> serving w = [fd] -> serving w' = [] ->
  concat (serving <$> wk) ≡ₚ concat (serving <$> <[i := w']> wk) ++ [fd].
Proof. intros Hi H1 H2. pose proof (serving_insert wk i w w' Hi) as H. by rewrite H1, H2, app_nil_r in H. Qed.

(** Most steps of a worker keep what it serves. *)
Ltac same_serving :=
  match goal with
  | H : p_wk ?p !! ?i = Some ?w |- context [concat (serving <$> <[?i := ?w']> (p_wk ?p))] =>
      rewrite (serving_insert_same _ _ _ w' H) by
        (repeat match goal with H : _ \/ _ |- _ => destruct H; subst end; done)
  end.

Definition popped_ok (p : pool) : Prop := p_popped p ≡ₚ p_closed p ++ concat (serving <$> p_wk p).

Lemma pstep_popped p p' : popped_ok p -> pstep p p' -> popped_ok p'.
Proof.
  unfold popped_ok. intros Hp H. destruct H; simpl; try done; try (same_serving; done).
  - rewrite (serving_insert_new _ _ _ (W_Signal fd) fd H eq_refl eq_refl), Hp. by rewrite app_assoc.
  - rewrite Hp, (serving_insert_gone _ _ _ W_Closed fd H eq_refl eq_refl), <- app_assoc.
    f_equiv. apply Permutation_app_comm.
Qed.

Lemma pstep_held p p' : queue_ok (p_q p) -> pstep p p' ->
  held p' ≡ₚ held p \/ (exists fd, held p ≡ₚ held p' ++ [fd]) \/
  (exists fd, held p' ≡ₚ held p ++ [fd] /\ fd ∉ held p).
Proof.
  intros Hq H. destruct H; unfold held in *; simpl; queue_facts Hq;
    repeat match goal with
    | H : p_acc p = _ \/ _ |- _ => destruct H as [H|H]
    | H : _ = A_Stopped \/ _ |- _ => destruct H; subst
    | H : p_acc p = _ |- _ => rewrite H in *; clear H
    end; simpl; rewrite ?signal_not_full_hand, ?app_nil_r; try (by left); try (left; same_serving; done).
  - right; right. exists fd. split; [by rewrite <- !app_assoc|]. by rewrite <- (app_nil_r (contents _)).
  - left. by match goal with H : contents _ = _ |- _ => rewrite H end.
  - left. rewrite (serving_insert_new _ _ _ (W_Signal fd) fd H eq_refl eq_refl).
    match goal with H : contents _ = _ |- _ => rewrite H end. by rewrite <- app_assoc.
  - right; left. exists fd. rewrite (serving_insert_gone _ _ _ W_Closed fd H eq_refl eq_refl).
    rewrite <- !app_assoc. f_equiv. by rewrite (Permutation_app_comm [fd]), <- app_assoc.
Qed.

Lemma pstep_nodup p p' : queue_ok (p_q p) -> NoDup (held p) -> pstep p p' -> NoDup (held p').
Proof.
  intros Hq Hn H. destruct (pstep_held p p' Hq H) as [Hp|[(fd & Hp)|(fd & Hp & Hfd)]].
  - by rewrite Hp.
  - rewrite Hp in Hn. by apply NoDup_app in Hn as [? _].
  - rewrite Hp. apply NoDup_app. split; [done|]. split; [|apply NoDup_singleton].
    intros x Hx ->%list_elem_of_singleton. done.
Qed.

Lemma pstep_ok p p' : pool_ok p -> pstep p p' -> pool_ok p'.
Proof.
  intros [Hq Hl Hf Hp Hn] H. split.
  - by apply (pstep_queue p p').
  - by apply (pstep_lock p p').
  - by apply (pstep_fifo p p').
  - by apply (pstep_popped p p').
  - by apply (pstep_nodup p p').
Qed.

(** ** Invariant: no wakeup is lost *)

Definition ind (b : bool) : Z := if b then 1 else 0.

(** How many workers are at such a place. *)
Definition total (f : worker_pc -> bool) (wk : list worker_pc) : Z := zsum ((fun w => ind (f w)) <$> wk).

Definition asleep (w : worker_pc) : bool := match w with W_Wait => true | _ => false end.
Definition awake (w : worker_pc) : bool := match w with W_Pop | W_Test | W_Wake => true | _ => false end.
Definition signalling (w : worker_pc) : bool := match w with W_Signal _ => true | _ => false end.
Definition busy (w : worker_pc) : bool := match w with W_Serve _ | W_Served _ _ => true | _ => false end.
Definition uncounted (w : worker_pc) : bool := match w with W_Closed => true | _ => false end.

Lemma total_insert f wk i w w' :
  wk !! i = Some w -> total f (<[i := w']> wk) = total f wk - ind (f w) + ind (f w').
Proof. intros Hi. unfold total. by rewrite (zsum_fmap_insert _ _ _ w). Qed.

Lemma total_cons f w wk : total f (w :: wk) = ind (f w) + total f wk.
Proof. done. Qed.

Lemma ind_range b : 0 <= ind b <= 1.
Proof. destruct b; simpl; lia. Qed.

Lemma total_range f wk : 0 <= total f wk <= Z.of_nat (length wk).
Proof.
  induction wk as [|w wk IH]; [done|]. rewrite total_cons. pose proof (ind_range (f w)). simpl length. lia.
Qed.

Lemma total_zero f wk : total f wk = 0 <-> forall i w, wk !! i = Some w -> f w = false.
Proof.
  induction wk as [|w wk IH]; [by split; [intros _ [|i] w|]|]. rewrite total_cons.
  pose proof (ind_range (f w)). pose proof (total_range f wk). split.
  - intros Ht [|i] w' Hi; simpl in Hi.
    + simplify_eq. unfold ind in *. destruct (f w'); [lia|done].
    + apply (proj1 IH) with i; [lia|done].
  - intros Ht. rewrite (Ht 0%nat w eq_refl). simpl. rewrite (proj2 IH); [done|].
    intros i w' Hi. by apply (Ht (S i)).
Qed.

Lemma total_pos f wk i w : wk !! i = Some w -> f w = true -> 0 < total f wk.
Proof.
  intros Hi Hf. pose proof (total_range f wk).
  destruct (Z.eq_dec (total f wk) 0) as [E|]; [|lia].
  pose proof (proj1 (total_zero f wk) E i w Hi). congruence.
Qed.

Lemma total_start f n w : f w = false -> total f (replicate n w) = 0.
Proof. intros Hf. apply total_zero. intros i w' Hi. by apply lookup_replicate in Hi as [-> _]. Qed.

Definition is_signal (a : acceptor_pc) : bool := match a with A_Signal => true | _ => false end.
Definition is_wait (a : acceptor_pc) : bool := match a with A_Wait _ => true | _ => false end.
Definition is_count (a : acceptor_pc) : bool := match a with A_Count _ => true | _ => false end.

(** Either nobody sleeps on not_empty, or every queued descriptor has a thread on
    its way to it: a worker about to test the queue, or a signal about to be sent. *)
Definition not_empty_ok (p : pool) : Prop :=
  total asleep (p_wk p) = 0 \/ count (p_q p) <= total awake (p_wk p) + ind (is_signal (p_acc p)).

(** The acceptor sleeps on not_full only while the queue is full, or a signal is
    about to be sent. *)
Definition not_full_ok (p : pool) : Prop :=
  is_wait (p_acc p) = true -> count (p_q p) = capacity (p_q p) \/ 0 < total signalling (p_wk p).

(** Rewrite the counts of a step's worker, and what the step's hypotheses say of it. *)
Ltac count_step Hq :=
  queue_facts Hq;
  repeat match goal with
  | H : p_acc _ = _ \/ _ |- _ => destruct H as [H|H]
  | H : ?w = _ \/ _ |- _ => destruct H; subst
  end;
  try match goal with
  | H : p_wk ?p !! ?i = Some ?w |- context [<[?i := ?w']> (p_wk ?p)] =>
      rewrite !(total_insert _ _ _ _ w' H)
  end;
  try match goal with
  | H : p_wk ?p !! ?i = Some ?w |- _ =>
      try (pose proof (total_pos asleep _ _ _ H eq_refl));
      try (pose proof (total_pos awake _ _ _ H eq_refl));
      try (pose proof (total_pos signalling _ _ _ H eq_refl))
  end;
  repeat match goal with H : p_acc _ = _ |- _ => rewrite H in *; clear H end.

Lemma signal_not_full_signal a : is_signal (signal_not_full a) = is_signal a.
Proof. by destruct a. Qed.

Lemma signal_not_full_wait a : is_wait (signal_not_full a) = false.
Proof. by destruct a. Qed.

Lemma pstep_not_empty p p' : queue_ok (p_q p) -> not_empty_ok p -> pstep p p' -> not_empty_ok p'.
Proof.
  unfold not_empty_ok. intros Hq Hw H. pose proof (queue_count _ Hq).
  pose proof (total_range asleep (p_wk p)). pose proof (total_range awake (p_wk p)).
  pose proof (ind_range (is_signal (p_acc p))).
  destruct H; simpl in *; rewrite ?signal_not_full_signal; count_step Hq; simpl in *; try done; try lia.
  left. apply total_zero. intros i w Hi. apply list_elem_of_lookup_2 in Hi. by destruct w.
Qed.

Lemma pstep_not_full p p' : queue_ok (p_q p) -> not_full_ok p -> pstep p p' -> not_full_ok p'.
Proof.
  unfold not_full_ok. intros Hq Hw H. pose proof (queue_count _ Hq).
  pose proof (total_range signalling (p_wk p)).
  destruct H; simpl in *; rewrite ?signal_not_full_wait; count_step Hq; simpl in *; try done; try lia.
  all: intros Hwait; try (destruct (Hw Hwait) as [|]; [by left|right; lia]); right; lia.
Qed.

(** ** Invariant: the exported gauges *)

Record gauges_ok (p : pool) : Prop := {
  g_accepted : accepted (p_reg p) =
    u64 (Z.of_nat (length (p_accepted p)) - ind (is_count (p_acc p)));
  g_active : active (p_reg p) =
    s64 (Z.of_nat (length (p_accepted p)) - ind (is_count (p_acc p))
         - (Z.of_nat (length (p_closed p)) - total uncounted (p_wk p)));
  g_busy : workers_busy (p_reg p) = s64 (total busy (p_wk p));
  g_depth : queue_depth (p_reg p) = count (p_q p);
  g_total : total_enqueued (p_q p) = u64 (Z.of_nat (length (p_popped p)) + count (p_q p))
}.

Lemma signal_not_full_count a : is_count (signal_not_full a) = is_count a.
Proof. by destruct a. Qed.

Lemma s64_add_l a b : s64 (s64 a + b) = s64 (a + b).
Proof. exact (cell_wrap_add Active a b). Qed.

Ltac gauge_arith :=
  repeat match goal with H : ?x = u64 _ |- context [?x] => rewrite H | H : ?x = s64 _ |- context [?x] => rewrite H end;
  rewrite ?u64_add_l, ?s64_add_l, ?length_app; simpl length;
  first [done | rewrite u64_small; lia | f_equal; lia].

Lemma pstep_gauges p p' : queue_ok (p_q p) -> gauges_ok p -> pstep p p' -> gauges_ok p'.
Proof.
  intros Hq [Ha Hac Hb Hd Ht] H. pose proof (queue_count _ Hq). pose proof (queue_cap _ Hq).
  destruct H; split; simpl in *; destruct (p_reg p); simpl in *;
    rewrite ?signal_not_full_count; count_step Hq; simpl in *; try done; try gauge_arith.
  match goal with H : total_enqueued _ = total_enqueued _ |- _ => rewrite H end. gauge_arith.
Qed.

(** ** From the start of the process *)

Record pool_inv (p : pool) : Prop := {
  inv_ok : pool_ok p;
  inv_not_empty : not_empty_ok p;
  inv_not_full : not_full_ok p;
  inv_gauges : gauges_ok p
}.

Lemma pstep_inv p p' : pool_inv p -> pstep p p' -> pool_inv p'.
Proof.
  intros [Hok Hne Hnf Hg] H. pose proof (ok_queue p Hok). split.
  - by apply (pstep_ok p).
  - by apply (pstep_not_empty p).
  - by apply (pstep_not_full p).
  - by apply (pstep_gauges p).
Qed.

Lemma atoi_range text : - 2 ^ 31 <= atoi text < 2 ^ 31.
Proof. unfold atoi. wrap_lia. Qed.

Lemma main_args_range env args c :
  main_args env args = Ret c -> 1 <= c_workers c < 2 ^ 31 /\ 1 <= c_depth c < 2 ^ 31.
Proof.
  unfold main_args. intros H. apply outcome_bind_inv in H as (mp & _ & H).
  apply outcome_bind_inv in H as (port & _ & H). apply outcome_bind_inv in H as (mp' & _ & H).
  set (nw := match args !! 1%nat with Some a => atoi a | None => _ end) in H.
  set (qd := match args !! 2%nat with Some a => atoi a | None => _ end) in H.
  assert (nw < 2 ^ 31 /\ qd < 2 ^ 31) as [? ?].
  { subst nw qd. clear H. split; (destruct (args !! _) as [a|]; [apply (atoi_range a)|done]). }
  destruct ((nw <? 1) || (qd <? 1)) eqn:E; [done|]. injection H as <-. bool_prop. simpl. lia.
Qed.

(** [launched c p]: [main], started with a command line that gives [c], has
    created its threads. *)
Definition launched (c : config) (p : pool) : Prop :=
  exists env args mem, main_args env args = Ret c /\ Z.of_nat (length mem) = c_depth c /\
    main_start registry_zero (Some mem) c = Ret p.

Lemma launched_inv c p :
  launched c p -> pool_inv p /\ capacity (p_q p) = c_depth c /\
    Z.of_nat (length (p_wk p)) = c_workers c.
Proof.
  intros (env & args & mem & Hargs & Hmem & H). destruct (main_args_range _ _ _ Hargs) as [Hw Hd].
  unfold main_start in H. destruct (metrics_init_spec registry_zero (Some (lit "threadpool")) registry_zero_ok)
    as (g & Hg & _ & _ & Hz). rewrite Hg, outcome_ret_bind in H.
  apply outcome_bind_inv in H as (q & Hq & [= <-]).
  destruct (queue_init_ok mem (c_depth c) q Hd Hmem Hq) as (Hqok & Hc & Hcap).
  injection Hq as <-. split; [split; [split| | |split]|]; simpl.
  - done.
  - intros [|i]; simpl; split; try done; [by intros []|].
    intros Hi. by apply lookup_replicate in Hi as [? _].
  - done.
  - simpl. induction (Z.to_nat (c_workers c)) as [|n IH]; [done|]. exact IH.
  - unfold held. simpl. rewrite app_nil_r.
    replace (concat (serving <$> replicate (Z.to_nat (c_workers c)) W_Pop)) with (@nil Z); [constructor|].
    induction (Z.to_nat (c_workers c)) as [|n IH]; [done|]. exact IH.
  - left. by apply total_start.
  - done.
  - exact (Hz Accepted I).
  - simpl. rewrite total_start by done. exact (Hz Active I).
  - simpl. rewrite total_start by done. exact (Hz WorkersBusy I).
  - exact (Hz QueueDepth I).
  - done.
  - rewrite length_replicate. split; [done|lia].
Qed.

Lemma reach_inv c p0 p :
  launched c p0 -> reach p0 p -> pool_inv p /\ capacity (p_q p) = c_depth c /\
    Z.of_nat (length (p_wk p)) = c_workers c.
Proof.
  intros Hl Hr. induction Hr as [|p a p' _ IH Hs]; [by apply launched_inv|].
  destruct IH as (Hi & Hc & Hw). apply step_pstep in Hs.
  destruct (pstep_queue p p' (ok_queue _ (inv_ok _ Hi)) Hs) as (_ & Hc' & Hw').
  split; [by apply (pstep_inv p)|]. by rewrite Hc', Hw'.
Qed.

Lemma steps_reach p l p' : steps p l = Some (Ret p') -> reach p p'.
Proof.
  intros Hs. assert (forall q, reach q p -> reach q p') as H; [|apply H; constructor].
  revert p Hs. induction l as [|a l IH]; simpl; intros p Hs q Hq; [by simplify_eq|].
  destruct (step p a) as [[p1| |]|] eqn:E; [|by destruct l..].
  apply (IH p1 Hs). by eapply reach_step.
Qed.

(** No queue operation of a step can leave the array. *)
Lemma step_no_fault p a f : pool_ok p -> step p a <> Some (Fault f).
Proof.
  intros Hok. pose proof (ok_queue p Hok) as Hq. pose proof (queue_count _ Hq).
  destruct a as [|[fd|e]| |[|i]|[i|]|[|i]|i d|i r]; simpl; try case_decide; try done.
  - unfold accept_failed. by repeat (destruct (_ || _)).
  - unfold run_acceptor. destruct (p_acc p); try done; try (by case_decide).
    destruct (Z.eqb_spec (count (p_q p)) (capacity (p_q p))); [done|].
    destruct (queue_put_spec (p_q p) fd Hq) as (q & -> & _); [lia|done].
  - unfold run_worker. destruct (p_wk p !! i) as [[]|]; try done; try (by case_decide).
    destruct (Z.eqb_spec (count (p_q p)) 0); [done|].
    pose proof (contents_length _ Hq). destruct (contents (p_q p)) as [|fd rest] eqn:E; [simpl in *; lia|].
    by destruct (queue_take_spec _ _ _ Hq E) as (q & -> & _).
  - by destruct (p_acc p).
  - by destruct (p_wk p !! i) as [[]|].
  - by destruct (p_wk p !! i) as [[]|].
Qed.

(** Nobody can move: then the lock is free. *)
Definition quiescent (p : pool) : Prop :=
  (forall t, step p (Run t) = None) /\ (forall i, step p (SignalNotEmpty i) = None).

Lemma quiescent_lock p : lock_ok p -> quiescent p -> p_lock p = None.
Proof.
  intros Hl [Hrun _]. destruct (p_lock p) as [t|] eqn:E; [|done]. specialize (Hrun t).
  apply Hl in E. destruct t as [|i]; simpl in *.
  - destruct E as [fd E]. unfold run_acceptor in Hrun. rewrite E in Hrun. by destruct (_ =? _).
  - unfold run_worker in Hrun. rewrite E in Hrun. by destruct (_ =? _).
Qed.

Lemma quiescent_acceptor p : lock_ok p -> quiescent p ->
  p_acc p = A_Accept \/ p_acc p = A_Backoff \/ p_acc p = A_Stopped \/ is_wait (p_acc p) = true.
Proof.
  intros Hl Hq. pose proof (quiescent_lock p Hl Hq) as Hlock. destruct Hq as [Hrun Hsig].
  specialize (Hrun Acceptor). simpl in Hrun. unfold run_acceptor in Hrun. rewrite Hlock in Hrun.
  destruct (p_acc p) eqn:Ea; try done; try (by auto);
    try (by destruct (_ =? _)).
  destruct (decide (W_Wait ∈ p_wk p)) as [Hin|Hout].
  - apply list_elem_of_lookup_1 in Hin as [i Hi]. specialize (Hsig (Some i)). simpl in Hsig.
    by rewrite decide_True in Hsig.
  - specialize (Hsig None). simpl in Hsig. by rewrite decide_True in Hsig.
Qed.

Lemma quiescent_worker p i w : lock_ok p -> quiescent p -> p_wk p !! i = Some w ->
  w = W_Wait \/ exists fd, w = W_Serve fd.
Proof.
  intros Hl Hq Hi. pose proof (quiescent_lock p Hl Hq) as Hlock. destruct Hq as [Hrun _].
  specialize (Hrun (Worker i)). simpl in Hrun. unfold run_worker in Hrun. rewrite Hi, Hlock in Hrun.
  destruct w; try done; eauto; try (by destruct (_ =? _)).
Qed.

Lemma serving_length wk : (length (concat (serving <$> wk)) <= length wk)%nat.
Proof.
  induction wk as [|w wk IH]; [done|]. rewrite fmap_cons. cbn [concat length]. rewrite length_app.
  assert (length (serving w) <= 1)%nat by (destruct w; simpl; lia). lia.
Qed.

(** What is left when nobody can move. *)
Lemma quiescent_pool (c : config) (p0 p : pool) :
  launched c p0 -> reach p0 p -> quiescent p ->
  p_lock p = None /\
  (forall i w, p_wk p !! i = Some w -> w = W_Wait \/ exists fd, w = W_Serve fd) /\
  (W_Wait ∈ p_wk p -> contents (p_q p) = []) /\
  (p_acc p = A_Accept \/ p_acc p = A_Backoff \/ p_acc p = A_Stopped \/
   is_wait (p_acc p) = true /\ count (p_q p) = c_depth c /\
   forall i w, p_wk p !! i = Some w -> exists fd, w = W_Serve fd).
Proof.
  intros Hl Hr Hquiet. destruct (reach_inv c p0 p Hl Hr) as ([Hok Hne Hnf _] & Hc & _).
  pose proof (ok_lock p Hok) as Hlk. pose proof (ok_queue p Hok) as Hq.
  pose proof (contents_length _ Hq) as Hlen. pose proof (queue_cap _ Hq).
  pose proof (quiescent_worker p) as Hw.
  assert (total awake (p_wk p) = 0) as Hawake.
  { apply total_zero. intros i w Hi. by destruct (Hw i w Hlk Hquiet Hi) as [-> |[fd ->]]. }
  assert (total signalling (p_wk p) = 0) as Hsig.
  { apply total_zero. intros i w Hi. by destruct (Hw i w Hlk Hquiet Hi) as [-> |[fd ->]]. }
  pose proof (quiescent_acceptor p Hlk Hquiet) as Hacc.
  assert (is_signal (p_acc p) = false) as Hns.
  { destruct Hacc as [-> |[-> |[-> |Hacc]]]; try done. by destruct (p_acc p). }
  assert (W_Wait ∈ p_wk p -> count (p_q p) = 0) as Hempty.
  { intros [i Hi]%list_elem_of_lookup_1. pose proof (total_pos asleep _ _ _ Hi eq_refl).
    unfold not_empty_ok in Hne. rewrite Hawake, Hns in Hne. simpl in Hne.
    pose proof (queue_count _ Hq). lia. }
  split; [by apply quiescent_lock|]. split; [by intros i w; apply Hw|]. split.
  - intros Hin. apply Hempty in Hin. destruct (contents (p_q p)); [done|]. simpl in Hlen. lia.
  - destruct Hacc as [?|[?|[?|Hwait]]]; auto. right; right; right.
    destruct (Hnf Hwait) as [Hfull|]; [|lia]. split; [done|]. split; [lia|].
    intros i w Hi. destruct (Hw i w Hlk Hquiet Hi) as [-> |]; [|done].
    apply list_elem_of_lookup_2, Hempty in Hi. lia.
Qed.

(** ** Properties *)

(** C6 [pool_safe]: under every schedule of the acceptor and the workers, every
    result of [accept] and every spurious wakeup, no step indexes the ring out of
    its bounds; at most one thread is inside a critical section; every descriptor
    [accept] returned is, in the order of arrival, popped, queued or in the
    acceptor's hand; what was popped is closed or with exactly one worker; and no
    two places hold the same descriptor. *)
Theorem pool_safe (c : config) (p0 p : pool) (a : action) :
  launched c p0 -> reach p0 p ->
  (forall f, step p a <> Some (Fault f)) /\
  (forall t t', holds_lock p t -> holds_lock p t' -> t = t') /\
  p_accepted p = p_popped p ++ contents (p_q p) ++ in_hand (p_acc p) /\
  p_popped p ≡ₚ p_closed p ++ concat (serving <$> p_wk p) /\
  NoDup (held p) /\
  Z.of_nat (length (contents (p_q p))) = count (p_q p) /\ count (p_q p) <= c_depth c.
Proof.
  intros Hl Hr. destruct (reach_inv c p0 p Hl Hr) as ([Hok _ _ _] & Hc & _).
  split; [intros f; by apply step_no_fault|].
  pose proof (queue_count _ (ok_queue p Hok)). pose proof (contents_length _ (ok_queue p Hok)).
  destruct Hok as [Hq Hlk Hf Hp Hn]. split; [|repeat (split; [done|]); lia].
  intros t t' Ht%Hlk Ht'%Hlk. congruence.
Qed.

(** One worker and a queue of one, as "threadpool_server 9090 1 1" starts them. *)
Definition demo_config : config := Config 9090 1 1 9110.
Definition demo_pool : pool :=
  match main_start registry_zero (Some [77]) demo_config with
  | Ret p => p
  | _ => pool_start registry_zero (FdQueue [] 0 0 0 0 0 0) 0
  end.

Lemma demo_launched : launched demo_config demo_pool.
Proof. by exists None, [lit "9090"; lit "1"; lit "1"], [77]. Qed.

(** Connection 5 goes to the worker, 6 fills the queue, 7 stays with the acceptor,
    which goes to sleep. *)
Definition demo_schedule : list action :=
  let arrive fd := [Run Acceptor; Accepting (inl fd); Run Acceptor; Run Acceptor; Run Acceptor] in
  [Run (Worker 0); Run (Worker 0)] ++ arrive 5 ++ [SignalNotEmpty (Some 0%nat)] ++
  [Run (Worker 0); Run (Worker 0); Run (Worker 0); Run (Worker 0)] ++
  arrive 6 ++ [SignalNotEmpty None] ++ arrive 7.

Definition demo_full : pool :=
  match steps demo_pool demo_schedule with Some (Ret p) => p | _ => demo_pool end.

Lemma demo_full_reached : reach demo_pool demo_full.
Proof. apply (steps_reach _ demo_schedule). vm_compute. reflexivity. Qed.

Lemma pool_safe_witness :
  p_accepted demo_full = [5] ++ [6] ++ [7] /\ NoDup (held demo_full) /\ held demo_full = [5; 6; 7].
Proof.
  destruct (pool_safe demo_config demo_pool demo_full Stop demo_launched demo_full_reached)
    as (_ & _ & H1 & _ & H2 & _).
  split; [exact H1|]. split; [exact H2|]. vm_compute. reflexivity.
Defined.

(** C7 [pool_no_lost_wakeup]: whenever no thread can take a step of its own, the
    lock is free, every worker is inside [serve_connection] or asleep on not_empty,
    no worker sleeps while a connection is queued, and the acceptor is waiting for
    the kernel or has stopped, or it sleeps on not_full with the queue full and
    every worker serving. So signalling after the unlock loses no wakeup and the
    pool cannot deadlock: what is missing is always a peer. *)
Theorem pool_no_lost_wakeup (c : config) (p0 p : pool) :
  launched c p0 -> reach p0 p -> quiescent p ->
  p_lock p = None /\
  (forall i w, p_wk p !! i = Some w -> w = W_Wait \/ exists fd, w = W_Serve fd) /\
  (W_Wait ∈ p_wk p -> contents (p_q p) = []) /\
  (p_acc p = A_Accept \/ p_acc p = A_Backoff \/ p_acc p = A_Stopped \/
   is_wait (p_acc p) = true /\ count (p_q p) = c_depth c /\
   forall i w, p_wk p !! i = Some w -> exists fd, w = W_Serve fd).
Proof. apply quiescent_pool. Qed.

Lemma demo_full_quiescent : quiescent demo_full.
Proof. split; [intros [|[|i]]|intros [[|i]|]]; vm_compute; reflexivity. Qed.

Lemma pool_no_lost_wakeup_witness :
  p_lock demo_full = None /\ is_wait (p_acc demo_full) = true /\ count (p_q demo_full) = 1.
Proof.
  destruct (pool_no_lost_wakeup demo_config demo_pool demo_full demo_launched demo_full_reached
    demo_full_quiescent) as (H1 & _ & _ & [H|[H|[H|(H2 & H3 & _)]]]);
    [vm_compute in H; discriminate H..|].
  split; [exact H1|]. split; [exact H2|exact H3].
Defined.

(** C27 [pool_backpressure]: the process never holds more open connections than the
    queue's depth plus the number of workers plus the one the blocked acceptor has
    already accepted, and the exported gauges say where they are: the queue-depth
    gauge is the number queued, the busy gauge the number of workers in
    [serve_connection], the accepted counter the number accepted (modulo 2^64), and
    the active gauge, when the acceptor and the workers are not between a socket
    call and its metric, the number of connections held. *)
Theorem pool_backpressure (c : config) (p0 p : pool) :
  launched c p0 -> reach p0 p ->
  Z.of_nat (length (held p)) <= c_depth c + c_workers c + 1 /\
  queue_depth (p_reg p) = Z.of_nat (length (contents (p_q p))) /\
  workers_busy (p_reg p) = total busy (p_wk p) /\
  (is_count (p_acc p) = false -> accepted (p_reg p) = u64 (Z.of_nat (length (p_accepted p)))) /\
  (is_count (p_acc p) = false -> total uncounted (p_wk p) = 0 ->
   active (p_reg p) = Z.of_nat (length (held p))).
Proof.
  intros Hl Hr. destruct (reach_inv c p0 p Hl Hr) as ([Hok _ _ Hg] & Hc & Hw).
  destruct Hl as (env & args & mem & Hargs & _). destruct (main_args_range _ _ _ Hargs) as [? ?].
  destruct Hok as [Hq _ Hf Hp _]. destruct Hg as [Ha Hac Hb Hd _].
  pose proof (contents_length _ Hq) as Hlen. pose proof (queue_count _ Hq).
  pose proof (total_range busy (p_wk p)). pose proof (serving_length (p_wk p)).
  assert (length (in_hand (p_acc p)) <= 1)%nat by (destruct (p_acc p); simpl; lia).
  assert (length (held p) = length (concat (serving <$> p_wk p)) + length (contents (p_q p)) +
    length (in_hand (p_acc p)))%nat as Hheld by (unfold held; rewrite !length_app; lia).
  assert (length (p_accepted p) = length (p_closed p) + length (held p))%nat as Hall.
  { rewrite Hheld, Hf, !length_app, Hp, length_app. lia. }
  split; [lia|]. split; [lia|]. split; [rewrite Hb; apply s64_small; lia|]. split.
  - intros Hcnt. rewrite Ha, Hcnt. f_equal. simpl. lia.
  - intros Hcnt Hun. rewrite Hac, Hcnt, Hun, Hall. simpl. rewrite s64_small; lia.
Qed.

(** The bound is reached: one worker, a queue of one, three connections. *)
Lemma pool_backpressure_witness :
  Z.of_nat (length (held demo_full)) <= 3 /\ Z.of_nat (length (held demo_full)) = 1 + 1 + 1 /\
  active (p_reg demo_full) = 3 /\ workers_busy (p_reg demo_full) = 1.
Proof.
  destruct (pool_backpressure demo_config demo_pool demo_full demo_launched demo_full_reached)
    as (H1 & _ & H2 & _ & H3).
  split; [exact H1|]. split; [vm_compute; reflexivity|].
  split; [rewrite H3; vm_compute; reflexivity|]. rewrite H2. vm_compute. reflexivity.
Defined.

(** C39 [parse_port_exact]: [parse_port] returns its fallback on a missing or empty
    text, returns [v] exactly when the text is a decimal numeral of [v] (optional
    leading white space and sign, nothing after it) and 0 <= v <= 65535, and ends
    the process on every other text: no malformed port is taken for 0 or for the
    default, and no value wraps. *)
Theorem parse_port_exact (fallback : Z) :
  parse_port None fallback = Ret fallback /\ parse_port (Some []) fallback = Ret fallback /\
  (forall text v, text <> [] ->
    parse_port (Some text) fallback = Ret v <-> numeral text v /\ 0 <= v <= 65535) /\
  (forall text, text <> [] -> (forall v, numeral text v -> ~ (0 <= v <= 65535)) ->
    exists msg, parse_port (Some text) fallback = Exit msg) /\
  (forall n, 0 <= n <= 65535 -> parse_port (Some (dec_u n)) fallback = Ret n).
Proof.
  assert (forall text v, text <> [] ->
    parse_port (Some text) fallback = Ret v <-> numeral text v /\ 0 <= v <= 65535) as Hiff.
  { intros text v Hne. unfold parse_port. destruct text as [|c text]; [done|].
    destruct (strtol (c :: text)) as [[value erange] end_] eqn:E. split.
    - destruct (erange || _ || _ || _) eqn:Eb; [done|]. intros [= ->]. bool_prop. subst erange.
      match goal with H : bool_decide _ = false |- _ => apply bool_decide_eq_false in H; rename H into He end.
      destruct (decide (end_ = Some [])) as [->|]; [|done].
      split; [by apply strtol_exact|lia].
    - intros [Hn Hv]. rewrite (strtol_numeral _ _ Hn) in E by (unfold LONG_MIN, LONG_MAX; lia).
      injection E as <- <- <-. rewrite !(proj2 (Z.ltb_ge _ _)) by lia. done. }
  split; [done|]. split; [done|]. split; [done|]. split.
  - intros text Hne Hno. destruct (parse_port (Some text) fallback) as [v|msg|f] eqn:E.
    + apply Hiff in E as [Hn Hv]; [|done]. by destruct (Hno v Hn).
    + by exists msg.
    + exfalso. revert E. unfold parse_port. destruct text; [done|].
      destruct (strtol _) as [[? ?] ?]. by destruct (_ || _ || _ || _).
  - intros n Hn. pose proof (strtol_dec_u n) as Hs. apply Hiff.
    + apply digits_ne.
    + split; [|done]. apply strtol_exact, Hs. unfold LONG_MAX. lia.
Qed.
