(* ===== verification/EventLoop.v ===== *)
(** * What the readiness-based servers share

    select_server.c and epoll_server.c drive peer_state.c the same way and differ
    in how they learn that a descriptor is ready. This file holds the common part:
    the connections of a process as the kernel knows them ([l_socks]) next to the
    table of peer_state.c, the handlers as the loops call them (a call on a
    descriptor that is not open is a [Fault]), and the invariant of one connection
    with its preservation by every call. [conn_inv] is what SelectServer.v and EpollServer.v build on. *)

From S2P Require Import Prelude Framing Posix Utils PeerState.
Local Open Scope Z_scope.

(** [l_input]: all that each open connection has sent or is going to send. *)
Record evloop := Loop {
  l_table : peer_table;
  l_socks : gmap Z sock;
  l_input : gmap Z (list Z)
}.

(** What the system answers while [main] of either server starts: the allocation of
    the peer table, the listener, and the two [fcntl]s on it. *)
Record start_answers := StartAnswers {
  sa_table : bool; sa_listen : listen_answers; sa_getfl : Z; sa_setfl : Z -> Z
}.

(** The kernel answers [accept] with a descriptor and its connection, and the two
    [fcntl]s on it; or with an errno. *)
Inductive accept_answer :=
| Connection (fd : Z) (s : sock) (getfl : Z) (setfl : Z -> Z)
| AcceptError (errno : Z).

(** [accept] on a non-blocking listener: the errnos both loops ignore. *)
Definition accept_benign (errno : Z) : bool :=
  (errno =? EAGAIN) || (errno =? EWOULDBLOCK) || (errno =? EINTR) || (errno =? ECONNABORTED).

Definition on_sock {A} (l : evloop) (fd : Z) (k : sock -> outcome A) : outcome A :=
  match l_socks l !! fd with Some s => k s | None => Fault BadDescriptor end.

Definition sys_close (l : evloop) (fd : Z) : outcome evloop :=
  on_sock l fd (fun _ => Ret (Loop (l_table l) (delete fd (l_socks l)) (l_input l))).

(** The new descriptor in the process's table of open files. *)
Definition sys_accepted (l : evloop) (fd : Z) (s : sock) : evloop :=
  Loop (l_table l) (<[fd := s]> (l_socks l)) (<[fd := rx_bytes (rx s)]> (l_input l)).

Section Handlers.
Context (strerror : Z -> string) (pr : proc).

Definition ready_recv (l : evloop) (fd : Z) : outcome (fd_status_t * evloop) :=
  on_sock l fd (fun s =>
    '(st, t, s) ← peer_on_ready_recv strerror (l_table l) fd s;
    Ret (st, Loop t (<[fd := s]> (l_socks l)) (l_input l))).

Definition ready_send (l : evloop) (fd : Z) : outcome (fd_status_t * evloop) :=
  on_sock l fd (fun s =>
    '(st, t, s) ← peer_on_ready_send strerror pr (l_table l) fd s;
    Ret (st, Loop t (<[fd := s]> (l_socks l)) (l_input l))).

Definition connected (l : evloop) (fd : Z) : outcome (fd_status_t * evloop) :=
  '(st, t) ← peer_on_connected (l_table l) fd;
  Ret (st, Loop t (l_socks l) (l_input l)).
End Handlers.

(** ** The invariant of a connection *)

(** [st] is the last verdict on [fd]; the bytes already taken from the connection
    have been answered as the protocol says, up to what is staged. *)
Definition conn_inv (l : evloop) (fd : Z) (st : fd_status_t) : Prop :=
  exists p s recvd, slot (l_table l) fd p /\ peer_ok p /\ l_socks l !! fd = Some s /\
    l_input l !! fd = Some (recvd ++ rx_bytes (rx s)) /\
    history (abs p) recvd (wire s) /\ status_ok st (abs p).

(** [l'] differs from [l] at most in what concerns [fd]. *)
Record loop_step (fd : Z) (l l' : evloop) : Prop := {
  step_table : table_ok (l_table l) -> table_ok (l_table l');
  step_cap : peer_capacity (l_table l') = peer_capacity (l_table l);
  step_slots : forall f, f <> fd -> 0 <= f ->
    peers (l_table l') !! Z.to_nat f = peers (l_table l) !! Z.to_nat f;
  step_socks : forall f, f <> fd -> l_socks l' !! f = l_socks l !! f;
  step_input : forall f, f <> fd -> l_input l' !! f = l_input l !! f
}.

#[export] Instance loop_step_preorder fd : PreOrder (loop_step fd).
Proof.
  split; [by intros l; split|]. intros l1 l2 l3 [T1 C1 S1 K1 I1] [T2 C2 S2 K2 I2]. split.
  - auto.
  - congruence.
  - intros. by rewrite S2, S1.
  - intros. by rewrite K2, K1.
  - intros. by rewrite I2, I1.
Qed.

Lemma conn_inv_frame fd l l' f st :
  loop_step fd l l' -> f <> fd -> conn_inv l f st -> conn_inv l' f st.
Proof.
  intros [_ _ Hs Hk Hi] Hne (p & s & recvd & [Hf Hp] & Hrest). exists p, s, recvd.
  rewrite Hk, Hi by done. split; [|done]. split; [done|]. by rewrite Hs.
Qed.

Lemma conn_inv_status l fd st st' :
  conn_inv l fd st -> (forall a, status_ok st a -> status_ok st' a) -> conn_inv l fd st'.
Proof. intros (p & s & recvd & Ha & Hb & Hc & Hd & He & Hf) Himp. exists p, s, recvd. auto 7. Qed.

(** The connection behind [f] is the one it was, untouched. *)
Definition same_conn (l l' : evloop) (f : Z) : Prop :=
  l_socks l' !! f = l_socks l !! f /\ l_input l' !! f = l_input l !! f.

#[export] Instance same_conn_trans f : Transitive (fun l l' => same_conn l l' f).
Proof. intros l1 l2 l3 [S1 I1] [S2 I2]. split; congruence. Qed.

Lemma same_conn_dom l l' f : same_conn l l' f -> f ∈ dom (l_socks l) -> f ∈ dom (l_socks l').
Proof. intros [E _]. by rewrite !elem_of_dom, E. Qed.

Lemma loop_step_same fd l l' f : loop_step fd l l' -> f <> fd -> same_conn l l' f.
Proof. intros Hs Hf. split; [by apply (step_socks _ _ _ Hs)|by apply (step_input _ _ _ Hs)]. Qed.

(** What a connection's invariant says of the bytes exchanged. *)
Lemma conn_inv_protocol l fd st :
  conn_inv l fd st ->
  exists s recvd pend fst pl, l_socks l !! fd = Some s /\
    l_input l !! fd = Some (recvd ++ rx_bytes (rx s)) /\ peer_pending (l_table l) fd = Ret pend /\
    framed recvd fst pl /\ wire s ++ pend = STAR :: (incr <$> pl) /\
    (want_read st = true -> pend = [] /\ peer_recv_room (l_table l) fd = Ret SENDBUF_SIZE) /\
    (st = fd_status_W -> pend <> []).
Proof.
  intros (p & s & recvd & Hs & Hok & Hk & Hi & Hh & Hst).
  destruct (frame_out_framed recvd) as (fst & pl & Hf & Hout).
  exists s, recvd, (staged p), fst, pl. rewrite (peer_pending_refines _ _ _ Hs Hok).
  repeat (split; [done|]). split; [rewrite <- Hout; apply (hist_out _ _ _ Hh)|]. split; [|apply Hst].
  intros Hr. destruct (proj1 Hst Hr) as [Hn Hna]. split; [done|].
  rewrite (peer_recv_room_refines _ _ _ Hs Hok). unfold a_room. by rewrite bool_decide_eq_true_2.
Qed.

Section Preservation.
Context (strerror : Z -> string) (pr : proc) (Hpr : sigpipe_ignored pr = true).

Lemma loop_step_upd l fd p s :
  0 <= fd -> peer_ok p ->
  loop_step fd l (Loop (upd (l_table l) fd p) (<[fd := s]> (l_socks l)) (l_input l)).
Proof.
  intros Hfd Hok. split; simpl; try done.
  - intros Ht. apply upd_table_ok; [done|apply Hok].
  - intros f ? ?. apply list_lookup_insert_ne. lia.
  - intros f ?. by apply lookup_insert_ne.
Qed.

Lemma ready_recv_ok l fd st :
  conn_inv l fd st ->
  exists st' l', ready_recv strerror l fd = Ret (st', l') /\ conn_inv l' fd st' /\ loop_step fd l l' /\
    dom (l_socks l') = dom (l_socks l).
Proof.
  intros (p & s & recvd & Hs & Hok & Hk & Hi & Hh & _). unfold ready_recv, on_sock. rewrite Hk.
  pose proof (peer_on_ready_recv_refines strerror (l_table l) fd p s Hs Hok) as Hr.
  destruct (a_ready_recv strerror (abs p) s) as [[st1 a1] s1] eqn:Ea.
  destruct Hr as (p1 & -> & Hok1 & <-). rewrite outcome_ret_bind.
  destruct (history_ready_recv _ _ _ _ _ _ _ _ Hh Ea) as (Hw & Hst1 & bs & Hrx & Hh1).
  eexists _, _. split; [done|]. split; [|split; [apply loop_step_upd; [apply Hs|done]|]].
  - exists p1, s1, (recvd ++ bs). simpl. split; [by eapply slot_upd|]. split; [done|].
    split; [apply lookup_insert_eq|]. split; [by rewrite Hi, Hrx, app_assoc|]. by rewrite Hw.
  - apply dom_insert_lookup_L. by eexists.
Qed.

Lemma ready_send_ok l fd st :
  conn_inv l fd st ->
  exists st' l', ready_send strerror pr l fd = Ret (st', l') /\ conn_inv l' fd st' /\ loop_step fd l l' /\
    dom (l_socks l') = dom (l_socks l).
Proof.
  intros (p & s & recvd & Hs & Hok & Hk & Hi & Hh & _). unfold ready_send, on_sock. rewrite Hk.
  destruct (peer_on_ready_send_refines strerror pr (l_table l) fd p s Hpr Hs Hok)
    as (st1 & a1 & s1 & p1 & Ea & -> & Hok1 & <-). rewrite outcome_ret_bind.
  destruct (history_ready_send _ _ _ _ _ _ _ _ Hh Ea) as (Hrx & Hst1 & o & Hw & Hh1).
  eexists _, _. split; [done|]. split; [|split; [apply loop_step_upd; [apply Hs|done]|]].
  - exists p1, s1, recvd. simpl. split; [by eapply slot_upd|]. split; [done|].
    split; [apply lookup_insert_eq|]. split; [by rewrite Hi, Hrx|]. by rewrite Hw.
  - apply dom_insert_lookup_L. by eexists.
Qed.

(** A new connection, on a descriptor number that may have been used before. *)
Lemma connected_ok l fd s :
  table_ok (l_table l) -> fd < 2 ^ 31 -> peer_fd_in_range (l_table l) fd = true -> wire s = [] ->
  exists l', connected (sys_accepted l fd s) fd = Ret (fd_status_W, l') /\
    conn_inv l' fd fd_status_W /\ loop_step fd l l' /\ dom (l_socks l') = {[fd]} ∪ dom (l_socks l).
Proof.
  intros Ht Hfd Hr Hw. destruct (in_range_slot (l_table l) fd Ht) as (p & Hs & Hl); [lia|done|].
  destruct (peer_on_connected_refines _ _ _ Hs Hl) as (p' & Hc & Hok & Ha).
  unfold connected. simpl. rewrite Hc, outcome_ret_bind. eexists. split; [done|].
  split; [|split; [|apply dom_insert_L]].
  - exists p', s, []. simpl. split; [by eapply slot_upd|]. split; [done|].
    split; [apply lookup_insert_eq|]. split; [apply lookup_insert_eq|]. rewrite Hw, Ha.
    split; [apply a_connected_history|done].
  - split; simpl; try done.
    + intros _. apply upd_table_ok; [done|apply Hok].
    + intros f ? ?. apply list_lookup_insert_ne. destruct Hs. lia.
    + intros f ?. by apply lookup_insert_ne.
    + intros f ?. by apply lookup_insert_ne.
Qed.

Lemma sys_close_ok l fd :
  fd ∈ dom (l_socks l) ->
  exists l', sys_close l fd = Ret l' /\ loop_step fd l l' /\ dom (l_socks l') = dom (l_socks l) ∖ {[fd]} /\
    l_table l' = l_table l.
Proof.
  intros [s Hs]%elem_of_dom. unfold sys_close, on_sock. rewrite Hs. eexists. split; [done|].
  split; [|split; [apply dom_delete_L|done]]. split; simpl; try done.
  intros f ?. by apply lookup_delete_ne.
Qed.
End Preservation.

Lemma conn_inv_open l fd st : conn_inv l fd st -> (fd ∈ dom (l_socks l)) /\ 0 <= fd.
Proof. intros (p & s & recvd & [? _] & _ & Hk & _). split; [|done]. by eapply elem_of_dom_2. Qed.

(** The reason of a close can always be read. *)
Lemma close_reason_ok t fd : table_ok t -> 0 <= fd < 2 ^ 64 -> exists reason, peer_close_reason t fd = Ret reason.
Proof.
  intros Ht Hfd. unfold peer_close_reason. destruct (peer_fd_in_range t fd) eqn:Hr; simpl; [|by eexists].
  destruct (in_range_slot t fd Ht) as (p & Hs & _); [lia|done|].
  rewrite (slot_get _ _ _ Hs), outcome_ret_bind. by destruct (close_reason p); eexists.
Qed.
