(* ===== verification/SelectServer.v ===== *)
(** * The select server (src/src/select_server.c)

    [apply_status] and the pass over the descriptors that follows each [select],
    on the connections of EventLoop.v. An [fd_set] is a set of numbers below
    FD_SETSIZE; a macro applied to another number is a [Fault]. The [for] of the
    pass runs on [n] iterations, as many as there are descriptors left below
    FD_SETSIZE: where they run out, the C code would test a bit past the end.

    - [scan]: the pass, with its early exit once [nready] events are handled;
    - [scan_all]: the same without the early exit, and the theorem that they agree;
    - [select_serves]: every handler of a pass runs on the connection [select]
      reported, no pass leaves an array, and the process ends only where a system
      call fails (an [accept] that finds no free descriptor included). *)

From S2P Require Import Prelude Framing Posix Utils Metrics Protocol PeerState EventLoop.
Local Open Scope Z_scope.

Definition MAXFDS : Z := 1000.
Definition FD_SETSIZE : Z := 1024.

Record select := Select {
  s_loop : evloop;
  s_read : gset Z;      (* readfds_master *)
  s_write : gset Z;     (* writefds_master *)
  s_max : Z;            (* fdset_max *)
  s_listener : Z
}.

Definition in_fd_set (fd : Z) : bool := (0 <=? fd) && (fd <? FD_SETSIZE).

Definition FD_SET (fd : Z) (set : gset Z) : outcome (gset Z) :=
  if in_fd_set fd then Ret ({[fd]} ∪ set) else Fault OutOfBounds.
Definition FD_CLR (fd : Z) (set : gset Z) : outcome (gset Z) :=
  if in_fd_set fd then Ret (set ∖ {[fd]}) else Fault OutOfBounds.
Definition FD_ISSET (fd : Z) (set : gset Z) : outcome bool :=
  if in_fd_set fd then Ret (bool_decide (fd ∈ set)) else Fault OutOfBounds.

Definition with_loop (s : select) (l : evloop) : select :=
  Select l (s_read s) (s_write s) (s_max s) (s_listener s).

Definition close (s : select) (fd : Z) : outcome select :=
  l ← sys_close (s_loop s) fd;
  Ret (with_loop s l).

Definition apply_status (s : select) (fd : Z) (status : fd_status_t) : outcome select :=
  rd ← (if want_read status then FD_SET fd (s_read s) else FD_CLR fd (s_read s));
  wr ← (if want_write status then FD_SET fd (s_write s) else FD_CLR fd (s_write s));
  let s := Select (s_loop s) rd wr (s_max s) (s_listener s) in
  if negb (want_read status) && negb (want_write status) then
    _ ← peer_close_reason (l_table (s_loop s)) fd;
    close s fd
  else Ret s.

Section Server.
Context (strerror : Z -> string) (pr : proc).

(** The kernel's answer to [accept], in the state it is called in. *)
Variable accept : select -> accept_answer.

Definition on_accept (s : select) : outcome select :=
  match accept s with
  | AcceptError errno => if accept_benign errno then Ret s else Exit "accept"
  | Connection newsockfd sk getfl setfl =>
      let s := with_loop s (sys_accepted (s_loop s) newsockfd sk) in
      if (FD_SETSIZE <=? newsockfd) || negb (peer_fd_in_range (l_table (s_loop s)) newsockfd)
      then close s newsockfd
      else
        _ ← make_socket_non_blocking getfl setfl;
        let max := if s_max s <? newsockfd then newsockfd else s_max s in
        '(status, l) ← connected (s_loop s) newsockfd;
        apply_status (Select l (s_read s) (s_write s) max (s_listener s)) newsockfd status
  end.

(** The read half of an iteration; whether it closed the descriptor. *)
Definition on_readable (s : select) (fd : Z) : outcome (bool * select) :=
  if fd =? s_listener s then s ← on_accept s; Ret (false, s)
  else
    '(status, l) ← ready_recv strerror (s_loop s) fd;
    let closed := negb (want_read status) && negb (want_write status) in
    s ← apply_status (with_loop s l) fd status;
    Ret (closed, s).

Definition on_writable (s : select) (fd : Z) : outcome select :=
  '(status, l) ← ready_send strerror pr (s_loop s) fd;
  apply_status (with_loop s l) fd status.

(** One iteration of the [for]. *)
Definition visit (s : select) (fd : Z) (rd wr : gset Z) (nready : Z) : outcome (select * Z) :=
  FD_ISSET fd rd ≫= fun readable : bool =>
  r ← (if readable then '(closed, s) ← on_readable s fd; Ret (closed, s, nready - 1)
       else Ret (false, s, nready));
  let '(closed, s, nready) := r : bool * select * Z in
  if closed then Ret (s, nready)
  else
    FD_ISSET fd wr ≫= fun writable : bool =>
    if writable then s ← on_writable s fd; Ret (s, nready - 1) else Ret (s, nready).

Fixpoint scan (n : nat) (s : select) (fd : Z) (rd wr : gset Z) (nready : Z) : outcome select :=
  if (fd <=? s_max s) && (0 <? nready) then
    match n with
    | O => Fault NoReturn
    | S n' => '(s, nready) ← visit s fd rd wr nready; scan n' s (fd + 1) rd wr nready
    end
  else Ret s.

(** The iterations a pass makes, each with the state it finds. *)
Fixpoint visits (n : nat) (s : select) (fd : Z) (rd wr : gset Z) (nready : Z) : list (Z * select) :=
  if (fd <=? s_max s) && (0 <? nready) then
    match n with
    | O => []
    | S n' =>
        (fd, s) :: match visit s fd rd wr nready with
                   | Ret (s', nready') => visits n' s' (fd + 1) rd wr nready'
                   | _ => []
                   end
    end
  else [].

(** [select] fails, or leaves the ready descriptors in the two sets and returns
    how many there are. *)
Inductive select_answer := SelectError (errno : Z) | Ready (rd wr : gset Z).

Definition bits (n : nat) (fd : Z) (set : gset Z) : Z :=
  zsum ((fun k => if bool_decide (fd + Z.of_nat k ∈ set) then 1 else 0) <$> seq 0 n).

Definition nready_of (rd wr : gset Z) : Z :=
  bits (Z.to_nat FD_SETSIZE) 0 rd + bits (Z.to_nat FD_SETSIZE) 0 wr.

Definition iterate (s : select) (a : select_answer) : outcome select :=
  match a with
  | SelectError errno => if errno =? EINTR then Ret s else Exit "select"
  | Ready rd wr => scan (Z.to_nat FD_SETSIZE) s 0 rd wr (nready_of rd wr)
  end.

(** The pass without the early exit. *)
Fixpoint scan_all (n : nat) (s : select) (fd : Z) (rd wr : gset Z) (nready : Z) : outcome select :=
  if fd <=? s_max s then
    match n with
    | O => Fault NoReturn
    | S n' => '(s, nready) ← visit s fd rd wr nready; scan_all n' s (fd + 1) rd wr nready
    end
  else Ret s.
End Server.

(** [main] up to its loop: the process and the state the loop starts in. *)
Definition select_main (argv1 : option (list Z)) (a : start_answers) : outcome (proc * select) :=
  let pr := ignore_sigpipe proc_start in
  t ← peer_state_init (sa_table a) MAXFDS;
  '(listener, _) ← listen_inet_socket (port_argument 9090 argv1) (sa_listen a);
  _ ← make_socket_non_blocking (sa_getfl a) (sa_setfl a);
  if FD_SETSIZE <=? listener then Exit "listener socket fd >= FD_SETSIZE"
  else
    rd ← FD_SET listener ∅;
    Ret (pr, Select (Loop t ∅ ∅) rd ∅ listener listener).

(** ** The kernel's side *)

(** A new connection gets the number of no open descriptor and has been sent
    nothing. *)
Definition answer_ok (s : select) (answer : accept_answer) : Prop :=
  match answer with
  | Connection fd sk _ _ =>
      0 <= fd < 2 ^ 31 /\ (fd ∉ dom (l_socks (s_loop s))) /\ fd <> s_listener s /\ wire sk = []
  | AcceptError _ => True
  end.

(** [select] clears bits of the sets it is given. *)
Definition ready_ok (s : select) (a : select_answer) : Prop :=
  match a with SelectError _ => True | Ready rd wr => rd ⊆ s_read s /\ wr ⊆ s_write s end.

Inductive sreach (strerror : Z -> string) (pr : proc) (s0 : select) : select -> Prop :=
| sreach_start : sreach strerror pr s0 s0
| sreach_step s accept a s' :
    sreach strerror pr s0 s -> (forall s1, answer_ok s1 (accept s1)) -> ready_ok s a ->
    iterate strerror pr accept s a = Ret s' -> sreach strerror pr s0 s'.

(** ** The invariant *)

Record select_inv (s : select) : Prop := {
  inv_table : table_ok (l_table (s_loop s));
  inv_cap : peer_capacity (l_table (s_loop s)) = MAXFDS;
  inv_listener : (s_listener s ∉ dom (l_socks (s_loop s))) /\ 0 <= s_listener s <= s_max s;
  inv_listens : (s_listener s ∈ s_read s) /\ (s_listener s ∉ s_write s);
  inv_max : s_max s < FD_SETSIZE;
  inv_sets : forall fd, (fd ∈ s_read s \/ fd ∈ s_write s) -> fd = s_listener s \/ fd ∈ dom (l_socks (s_loop s));
  inv_conns : forall fd, fd ∈ dom (l_socks (s_loop s)) ->
    0 <= fd <= s_max s /\
    exists st, conn_inv (s_loop s) fd st /\ st <> fd_status_NORW /\
      (fd ∈ s_read s <-> want_read st = true) /\ (fd ∈ s_write s <-> want_write st = true)
}.

(** The kernel answers an [accept] in a way the loop does not tolerate. *)
Definition accept_fails (answer : accept_answer) : Prop :=
  match answer with AcceptError errno => accept_benign errno = false | Connection _ _ _ _ => False end.
Definition fcntl_fails (answer : accept_answer) : Prop :=
  match answer with
  | Connection _ _ getfl setfl => exists msg, make_socket_non_blocking getfl setfl = Exit msg
  | AcceptError _ => False
  end.

(** What becomes of an event of [fd]: the invariant, with every other connection
    untouched; [cause]: why the process may end. *)
Definition handled (cause : Prop) (fd : Z) (s : select) (o : outcome select) : Prop :=
  match o with
  | Ret s' => select_inv s' /\ s_listener s' = s_listener s /\
      forall f, f <> fd -> f ∈ dom (l_socks (s_loop s)) -> same_conn (s_loop s) (s_loop s') f
  | Exit _ => cause
  | Fault _ => False
  end.

(** A set with the bit of [fd] written. *)
Definition set_bit (fd : Z) (b : bool) (set : gset Z) : gset Z :=
  if b then {[fd]} ∪ set else set ∖ {[fd]}.

Lemma set_bit_spec fd b set f : f ∈ set_bit fd b set <-> (f = fd /\ b = true) \/ (f <> fd /\ f ∈ set).
Proof.
  unfold set_bit. destruct (decide (f = fd)) as [->|]; destruct b;
    rewrite ?elem_of_union, ?elem_of_difference, ?elem_of_singleton; intuition congruence.
Qed.

Lemma write_bit fd (b : bool) set :
  0 <= fd < FD_SETSIZE -> (if b then FD_SET fd set else FD_CLR fd set) = Ret (set_bit fd b set).
Proof.
  intros Hfd. unfold FD_SET, FD_CLR, set_bit, in_fd_set.
  rewrite (proj2 (Z.leb_le _ _)), (proj2 (Z.ltb_lt _ _)) by lia. by destruct b.
Qed.

(** What is recorded of another connection survives a step on [fd]. *)
Lemma select_other s fd st f l2 max2 :
  select_inv s -> f <> fd -> loop_step fd (s_loop s) l2 -> s_max s <= max2 ->
  f ∈ dom (l_socks (s_loop s)) ->
  0 <= f <= max2 /\ exists st2, conn_inv l2 f st2 /\ st2 <> fd_status_NORW /\
    (f ∈ set_bit fd (want_read st) (s_read s) <-> want_read st2 = true) /\
    (f ∈ set_bit fd (want_write st) (s_write s) <-> want_write st2 = true).
Proof.
  intros [_ _ _ _ _ _ Hconns] Hf Hs2 Hm Hin.
  destruct (Hconns f Hin) as (Hr & st2 & Hci2 & Hn2 & Hrd & Hwr).
  split; [lia|]. exists st2. split; [by eapply conn_inv_frame|]. split; [done|].
  rewrite !set_bit_spec. tauto.
Qed.

(** The verdict on [fd] is applied: to a connection already there, or to one that
    has just been accepted. *)
Lemma select_apply_status_ok s l' max' fd st :
  select_inv s -> loop_step fd (s_loop s) l' ->
  dom (l_socks l') = {[fd]} ∪ dom (l_socks (s_loop s)) ->
  conn_inv l' fd st -> fd <> s_listener s -> 0 <= fd <= max' -> s_max s <= max' < FD_SETSIZE ->
  match apply_status (Select l' (s_read s) (s_write s) max' (s_listener s)) fd st with
  | Ret s' => select_inv s' /\ s_listener s' = s_listener s /\
      loop_step fd (s_loop s) (s_loop s') /\
      dom (l_socks (s_loop s')) =
        (if negb (want_read st) && negb (want_write st)
         then dom (l_socks (s_loop s)) ∖ {[fd]} else {[fd]} ∪ dom (l_socks (s_loop s)))
  | _ => False
  end.
Proof.
  intros Hinv. pose proof (select_other s fd st) as Hother.
  pose proof Hinv as [Ht Hcap [Hl Hl'] [Hlr Hlw] Hmx Hsets Hconns].
  intros Hstep Hdom Hci Hne Hfd Hmax'.
  assert (fd < 2 ^ 31) by (unfold FD_SETSIZE in *; lia).
  unfold apply_status. cbn [s_read s_write s_loop s_max s_listener].
  rewrite !write_bit, outcome_ret_bind, outcome_ret_bind by lia.
  assert (table_ok (l_table l')) as Ht' by (by apply (step_table _ _ _ Hstep)).
  destruct (negb (want_read st) && negb (want_write st)) eqn:E.
  - destruct (close_reason_ok (l_table l') fd Ht') as [reason ->]; [lia|]. rewrite outcome_ret_bind.
    unfold close. cbn [s_loop]. destruct (sys_close_ok l' fd) as (l2 & -> & Hstep2 & Hdom2 & _).
    { rewrite Hdom. apply elem_of_union. left. by apply elem_of_singleton. }
    rewrite outcome_ret_bind. pose proof (transitivity Hstep Hstep2) as Hs2.
    assert (dom (l_socks l2) = dom (l_socks (s_loop s)) ∖ {[fd]}) as Hd2.
    { rewrite Hdom2, Hdom. apply leibniz_equiv. intros f.
      rewrite !elem_of_difference, elem_of_union. tauto. }
    apply andb_true_iff in E as [Er%negb_true_iff Ew%negb_true_iff].
    split; [split; cbn [s_loop s_read s_write s_max s_listener with_loop]|by split].
    + by apply (step_table _ _ _ Hstep2).
    + by rewrite (step_cap _ _ _ Hs2).
    + rewrite Hd2, elem_of_difference. split; [tauto|lia].
    + rewrite !set_bit_spec, Ew. split; [by right|]. intros [[_ ?]|[_ ?]]; done.
    + lia.
    + intros f. rewrite !set_bit_spec, Er, Ew, Hd2, elem_of_difference, elem_of_singleton.
      intros Hor. destruct (Hsets f); tauto || (destruct Hor as [[[_ ?]|?]|[[_ ?]|?]]; [done|tauto|done|tauto]).
    + intros f. rewrite Hd2, elem_of_difference, elem_of_singleton. intros [Hin Hf]. by apply Hother; [| | |lia|].
  - split; [split; cbn [s_loop s_read s_write s_max s_listener]|by split].
    + done.
    + by rewrite (step_cap _ _ _ Hstep).
    + rewrite Hdom, elem_of_union, elem_of_singleton. split; [|lia]. intros [?|?]; [congruence|done].
    + rewrite !set_bit_spec. split; [by right|]. intros [[? _]|[_ ?]]; [congruence|done].
    + lia.
    + intros f. rewrite !set_bit_spec, Hdom, elem_of_union, elem_of_singleton.
      destruct (decide (f = fd)); [tauto|]. intros Hor. destruct (Hsets f); tauto.
    + intros f. rewrite Hdom, elem_of_union, elem_of_singleton. destruct (decide (f = fd)) as [->|Hf].
      * intros _. split; [lia|]. exists st. split; [done|]. split; [by intros ->|].
        rewrite !set_bit_spec. tauto.
      * intros [?|Hin]; [done|]. by apply Hother; [| | |lia|].
Qed.

Lemma select_reject_ok cause s fd sk :
  select_inv s -> fd ∉ dom (l_socks (s_loop s)) -> fd <> s_listener s ->
  handled cause (s_listener s) s (close (with_loop s (sys_accepted (s_loop s) fd sk)) fd).
Proof.
  intros Hinv Hnew Hne. unfold close, sys_close, on_sock. simpl. rewrite lookup_insert_eq, outcome_ret_bind.
  set (l' := Loop _ _ _).
  assert (l_socks l' = l_socks (s_loop s)) as Hsocks.
  { simpl. rewrite delete_insert_eq. apply delete_id. by apply not_elem_of_dom. }
  assert (loop_step fd (s_loop s) l') as Hstep.
  { split; simpl; try done; intros f Hf; [by rewrite lookup_delete_ne, lookup_insert_ne|by apply lookup_insert_ne]. }
  pose proof Hinv as [Ht Hcap Hl Hls Hmx Hsets Hconns].
  split; [split; cbn [s_loop s_read s_write s_max s_listener with_loop]|split; [done|]]; rewrite ?Hsocks; try done.
  - intros f Hf. destruct (Hconns f Hf) as (Hr & st & Hci & Hrest). split; [done|]. exists st.
    split; [|done]. eapply conn_inv_frame; [done| |done]. by intros ->.
  - intros f _ Hf. apply (loop_step_same fd); [done|]. by intros ->.
Qed.

Section Pass.
Context (strerror : Z -> string) (pr : proc) (Hpr : sigpipe_ignored pr = true).
Context (accept : select -> accept_answer) (Haccept : forall s, answer_ok s (accept s)).

Lemma select_on_accept_ok s :
  select_inv s ->
  handled (accept_fails (accept s) \/ fcntl_fails (accept s)) (s_listener s) s (on_accept accept s).
Proof.
  intros Hinv. pose proof (Haccept s) as Hans. unfold on_accept.
  destruct (accept s) as [fd sk getfl setfl|errno]; [|simpl; destruct (accept_benign errno); [by split|by left]].
  destruct Hans as (Hfd & Hnew & Hne & Hw). cbn [with_loop s_loop sys_accepted l_table].
  destruct ((FD_SETSIZE <=? fd) || negb (peer_fd_in_range (l_table (s_loop s)) fd)) eqn:Hr; [by apply select_reject_ok|].
  apply orb_false_iff in Hr as [_ Hr%negb_false_iff].
  destruct (make_socket_non_blocking getfl setfl) as [flags|msg|f] eqn:Enb; [|by right; exists msg|].
  2:{ unfold make_socket_non_blocking in Enb. by repeat destruct (_ =? _). }
  rewrite outcome_ret_bind. pose proof Hinv as [Ht Hcap _ _ Hmx _ _].
  destruct (connected_ok (s_loop s) fd sk Ht) as (l' & Hc & Hci & Hstep & Hdom); [lia|done|done|].
  rewrite Hc, outcome_ret_bind. cbn [with_loop s_read s_write s_max s_listener].
  unfold peer_fd_in_range in Hr. rewrite Hcap in Hr. unfold MAXFDS, FD_SETSIZE in *. bool_prop.
  rewrite u64_small in * by lia.
  pose proof (select_apply_status_ok s l' (if s_max s <? fd then fd else s_max s) fd fd_status_W) as Happ.
  specialize (Happ Hinv Hstep Hdom Hci Hne). unfold FD_SETSIZE in Happ.
  destruct (Z.ltb_spec (s_max s) fd); specialize (Happ ltac:(lia) ltac:(lia)).
  all: destruct (apply_status _ fd fd_status_W) as [s'| |]; [|done|done].
  all: destruct Happ as (Hi & Hl & Hs' & _); split; [done|]; split; [done|].
  all: intros f _ Hf; apply (loop_step_same fd); [done|]; by intros ->.
Qed.

(** The verdict on a connection that is already there. *)
Lemma verdict_ok s l' fd st :
  select_inv s -> fd ∈ dom (l_socks (s_loop s)) -> conn_inv l' fd st -> loop_step fd (s_loop s) l' ->
  dom (l_socks l') = dom (l_socks (s_loop s)) ->
  match apply_status (with_loop s l') fd st with
  | Ret s' => select_inv s' /\ s_listener s' = s_listener s /\
      loop_step fd (s_loop s) (s_loop s') /\
      (negb (want_read st) && negb (want_write st) = false -> fd ∈ dom (l_socks (s_loop s')))
  | _ => False
  end.
Proof.
  intros Hinv Hin Hci Hstep Hdom. destruct (inv_conns s Hinv fd Hin) as (Hfd & _).
  assert (fd <> s_listener s) as Hne by (intros E; destruct (inv_listener s Hinv) as [Hl _]; by rewrite <- E in Hl).
  assert ({[fd]} ∪ dom (l_socks (s_loop s)) = dom (l_socks (s_loop s))) as Hu.
  { apply leibniz_equiv. intros f. rewrite elem_of_union, elem_of_singleton. split; [|tauto]. by intros [->|]. }
  pose proof (inv_max s Hinv).
  pose proof (select_apply_status_ok s l' (s_max s) fd st Hinv Hstep) as Happ. rewrite Hu in Happ.
  specialize (Happ Hdom Hci Hne ltac:(lia) ltac:(lia)). unfold with_loop.
  destruct (apply_status _ fd st) as [s'| |]; [|done|done]. destruct Happ as (Hi & Hl & Hs' & Hd).
  split; [done|]. split; [done|]. split; [done|]. rewrite Hd. by destruct (negb _ && negb _).
Qed.

Lemma on_writable_ok s fd :
  select_inv s -> fd ∈ dom (l_socks (s_loop s)) -> handled False fd s (on_writable strerror pr s fd).
Proof.
  intros Hinv Hin. destruct (inv_conns s Hinv fd Hin) as (_ & st & Hci & _). unfold on_writable.
  destruct (ready_send_ok strerror pr Hpr _ _ _ Hci) as (st' & l' & -> & Hci' & Hstep & Hdom).
  rewrite outcome_ret_bind. pose proof (verdict_ok s l' fd st' Hinv Hin Hci' Hstep Hdom) as H.
  destruct (apply_status (with_loop s l') fd st') as [s'| |]; [|done|done].
  destruct H as (? & ? & Hs' & _). split; [done|]. split; [done|]. intros f Hf _. by apply (loop_step_same fd).
Qed.

(** The write half of an iteration, after a read half that led from [s] to [s1]. *)
Lemma write_half_ok (cause : Prop) s s1 fd (wr : gset Z) n :
  select_inv s1 -> s_listener s1 = s_listener s -> (fd ∈ wr -> fd ∈ dom (l_socks (s_loop s1))) ->
  (forall f, f <> fd -> f ∈ dom (l_socks (s_loop s)) -> same_conn (s_loop s) (s_loop s1) f) ->
  match (Ret (bool_decide (fd ∈ wr)) ≫= fun writable : bool =>
    if writable then s2 ← on_writable strerror pr s1 fd; Ret (s2, n - 1) else Ret (s1, n)) with
  | Ret (s', _) => handled False fd s (Ret s')
  | Exit _ => cause
  | Fault _ => False
  end.
Proof.
  intros Hinv1 Hl1 Hopen Hkeep. rewrite outcome_ret_bind. case_bool_decide as Hw; [|by split].
  pose proof (on_writable_ok s1 fd Hinv1 (Hopen Hw)) as H1.
  destruct (on_writable strerror pr s1 fd) as [s2|msg|f]; [|done|done].
  rewrite outcome_ret_bind. destruct H1 as (? & ? & Hk). split; [done|]. split; [congruence|].
  intros f Hf Hin. pose proof (Hkeep f Hf Hin) as Hs1. apply (same_conn_trans _ _ (s_loop s1)); [done|].
  apply Hk; [done|]. by apply (same_conn_dom _ _ _ Hs1).
Qed.

(** One iteration, on a descriptor that is not set, or is the listener, or is open. *)
Lemma visit_ok s fd rd wr nready :
  select_inv s -> 0 <= fd < FD_SETSIZE -> s_listener s ∉ wr ->
  (fd ∈ rd \/ fd ∈ wr -> fd = s_listener s \/ fd ∈ dom (l_socks (s_loop s))) ->
  match visit strerror pr accept s fd rd wr nready with
  | Ret (s', _) => handled False fd s (Ret s')
  | Exit _ => fd = s_listener s /\ (fd ∈ rd) /\ (accept_fails (accept s) \/ fcntl_fails (accept s))
  | Fault _ => False
  end.
Proof.
  intros Hinv Hfd Hlw Hset. unfold visit, FD_ISSET, in_fd_set.
  rewrite (proj2 (Z.leb_le _ _)), (proj2 (Z.ltb_lt _ _)) by lia. cbn [andb]. rewrite outcome_ret_bind.
  destruct (bool_decide (fd ∈ rd)) eqn:Hr.
  2:{ rewrite outcome_ret_bind. apply write_half_ok; try done. intros Hw.
      destruct (Hset (or_intror Hw)) as [->|]; done. }
  apply bool_decide_eq_true in Hr.
  unfold on_readable. destruct (Z.eqb_spec fd (s_listener s)) as [->|Hne].
  - pose proof (select_on_accept_ok s Hinv) as H.
    destruct (on_accept accept s) as [s1|msg|f]; [|done|done]. destruct H as (Hi & Hl & Hk).
    rewrite !outcome_ret_bind. by apply write_half_ok.
  - assert (fd ∈ dom (l_socks (s_loop s))) as Hin by (destruct (Hset (or_introl Hr)); done).
    destruct (inv_conns s Hinv fd Hin) as (_ & st & Hci & _).
    destruct (ready_recv_ok strerror _ _ _ Hci) as (st' & l' & -> & Hci' & Hstep & Hdom).
    rewrite outcome_ret_bind. pose proof (verdict_ok s l' fd st' Hinv Hin Hci' Hstep Hdom) as H.
    destruct (apply_status (with_loop s l') fd st') as [s1| |]; [|done|done].
    destruct H as (Hi & Hl & Hk & Ho). rewrite !outcome_ret_bind.
    destruct (negb (want_read st') && negb (want_write st')); [split; [done|]; split; [done|]|apply write_half_ok; try done; [by intros _; apply Ho|]];
      intros f Hf _; by apply (loop_step_same fd).
Qed.

(** What is left of a pass at [fd]: the bits that are set are of the listener or of
    open connections. *)
Definition pass_ok (n : nat) (s : select) (fd : Z) (rd wr : gset Z) : Prop :=
  0 <= fd /\ fd + Z.of_nat n = FD_SETSIZE /\ (s_listener s ∉ wr) /\
  forall f, fd <= f -> f ∈ rd \/ f ∈ wr -> f = s_listener s \/ f ∈ dom (l_socks (s_loop s)).

Lemma pass_next n s fd rd wr nready :
  select_inv s -> pass_ok (S n) s fd rd wr ->
  match visit strerror pr accept s fd rd wr nready with
  | Ret (s', _) => select_inv s' /\ s_listener s' = s_listener s /\ pass_ok n s' (fd + 1) rd wr /\
      forall f, f <> fd -> f ∈ dom (l_socks (s_loop s)) -> same_conn (s_loop s) (s_loop s') f
  | Exit _ => fd = s_listener s /\ (fd ∈ rd) /\ (accept_fails (accept s) \/ fcntl_fails (accept s))
  | Fault _ => False
  end.
Proof.
  intros Hinv (Hfd & Hn & Hlw & Hset).
  pose proof (visit_ok s fd rd wr nready Hinv ltac:(lia) Hlw (Hset fd ltac:(lia))) as H.
  destruct (visit strerror pr accept s fd rd wr nready) as [[s1 n1]|msg|f]; [|done|done].
  destruct H as (Hi & Hl & Hk). split; [done|]. split; [done|]. split; [|done].
  split; [lia|]. split; [lia|]. rewrite Hl. split; [done|].
  intros f Hf Hor. destruct (Hset f ltac:(lia) Hor) as [?|Hin]; [by left|right].
  eapply same_conn_dom; [|exact Hin]. apply Hk; [lia|done].
Qed.

Lemma scan_ok n s fd rd wr nready :
  select_inv s -> pass_ok n s fd rd wr ->
  match scan strerror pr accept n s fd rd wr nready with
  | Ret s' => select_inv s' /\ s_listener s' = s_listener s
  | Exit _ => (s_listener s ∈ rd) /\ exists s1,
      (s_listener s, s1) ∈ visits strerror pr accept n s fd rd wr nready /\
      (accept_fails (accept s1) \/ fcntl_fails (accept s1))
  | Fault _ => False
  end.
Proof.
  revert s fd nready. induction n as [|n IH]; intros s fd nready Hinv Hp; cbn [scan visits].
  { pose proof (inv_max s Hinv). destruct Hp as (? & ? & _). by rewrite (proj2 (Z.leb_gt _ _)) by lia. }
  destruct (_ && _); [|done]. pose proof (pass_next n s fd rd wr nready Hinv Hp) as H.
  destruct (visit strerror pr accept s fd rd wr nready) as [[s1 n1]|msg|f]; [| |done].
  - destruct H as (Hi & Hl & Hp1 & _). rewrite outcome_ret_bind. specialize (IH s1 (fd + 1) n1 Hi Hp1).
    destruct (scan strerror pr accept n s1 (fd + 1) rd wr n1); [|rewrite Hl in IH|done].
    + split; [apply IH|by rewrite <- Hl; apply IH].
    + destruct IH as (? & s2 & ? & ?). split; [done|]. exists s2. split; [by apply list_elem_of_further|done].
  - destruct H as (-> & ? & ?). split; [done|]. exists s. split; [apply list_elem_of_here|done].
Qed.

(** The handlers of a pass find the connections as [select] saw them. *)
Lemma visits_same n s fd rd wr nready f s1 :
  select_inv s -> pass_ok n s fd rd wr -> (f, s1) ∈ visits strerror pr accept n s fd rd wr nready ->
  fd <= f /\ (f ∈ dom (l_socks (s_loop s)) -> same_conn (s_loop s) (s_loop s1) f) /\
  (f = s_listener s -> (f ∈ rd) -> accept_fails (accept s1) ->
   exists msg, scan strerror pr accept n s fd rd wr nready = Exit msg).
Proof.
  revert s fd nready. induction n as [|n IH]; intros s fd nready Hinv Hp; cbn [scan visits].
  { destruct (_ && _); by intros ?%not_elem_of_nil. }
  destruct (_ && _); [|by intros ?%not_elem_of_nil]. pose proof (pass_next n s fd rd wr nready Hinv Hp) as H.
  intros [[= -> ->]|Hin]%elem_of_cons.
  - split; [lia|]. split; [done|]. intros -> Hrd Hacc. unfold visit, FD_ISSET, in_fd_set.
    destruct Hp as (? & ? & _). rewrite (proj2 (Z.leb_le _ _)), (proj2 (Z.ltb_lt _ _)) by lia.
    cbn [andb]. rewrite (bool_decide_eq_true_2 _ Hrd), outcome_ret_bind. unfold on_readable, on_accept.
    rewrite Z.eqb_refl. destruct (accept s); [done|]. simpl in Hacc. rewrite Hacc. by eexists.
  - destruct (visit strerror pr accept s fd rd wr nready) as [[s2 n2]|msg|?]; [|by apply not_elem_of_nil in Hin..].
    destruct H as (Hi & Hl & Hp1 & Hk). destruct (IH s2 (fd + 1) n2 Hi Hp1 Hin) as (Hf & Hsame & Hex).
    split; [lia|]. rewrite outcome_ret_bind. rewrite Hl in Hex. split; [|done]. intros Hopen.
    assert (same_conn (s_loop s) (s_loop s2) f) as Hs2 by (apply Hk; [lia|done]).
    apply (same_conn_trans _ _ (s_loop s2)); [done|]. by apply Hsame, (same_conn_dom _ _ _ Hs2).
Qed.

(** ** The early exit *)

Lemma bits_cons n fd set :
  bits (S n) fd set = (if bool_decide (fd ∈ set) then 1 else 0) + bits n (fd + 1) set.
Proof.
  unfold bits. rewrite <- cons_seq, fmap_cons, zsum_cons. rewrite Z.add_0_r. f_equal. f_equal.
  rewrite <- fmap_S_seq, <- list_fmap_compose. apply list_fmap_ext. intros i k _. unfold compose.
  by replace (fd + Z.of_nat (S k)) with (fd + 1 + Z.of_nat k) by lia.
Qed.

Lemma bits_nonneg n fd set : 0 <= bits n fd set.
Proof. revert fd. induction n as [|n IH]; intros fd; [done|]. rewrite bits_cons. specialize (IH (fd + 1)). case_bool_decide; lia. Qed.

(** An iteration handles at most the bits of its descriptor. *)
Lemma visit_nready s fd rd wr nready s' n' :
  visit strerror pr accept s fd rd wr nready = Ret (s', n') ->
  nready - (if bool_decide (fd ∈ rd) then 1 else 0) - (if bool_decide (fd ∈ wr) then 1 else 0) <= n'.
Proof.
  unfold visit, FD_ISSET. destruct (in_fd_set fd); [|done]. rewrite outcome_ret_bind.
  destruct (bool_decide (fd ∈ rd)).
  - intros H. apply outcome_bind_inv in H as ([[closed s1] n1] & H1 & H).
    apply outcome_bind_inv in H1 as ([c s2] & _ & [= <- <- <-]).
    destruct c; [injection H as <- <-; destruct (bool_decide (fd ∈ wr)); lia|].
    rewrite outcome_ret_bind in H. destruct (bool_decide (fd ∈ wr)).
    + apply outcome_bind_inv in H as (s3 & _ & [= <- <-]). lia.
    + injection H as <- <-. lia.
  - rewrite !outcome_ret_bind. destruct (bool_decide (fd ∈ wr)).
    + intros H. apply outcome_bind_inv in H as (s3 & _ & [= <- <-]). lia.
    + intros [= <- <-]. lia.
Qed.

(** Descriptors without a set bit are passed over. *)
Lemma scan_all_idle n s fd rd wr nready :
  0 <= fd -> fd + Z.of_nat n = FD_SETSIZE -> s_max s < FD_SETSIZE ->
  bits n fd rd = 0 -> bits n fd wr = 0 -> scan_all strerror pr accept n s fd rd wr nready = Ret s.
Proof.
  revert fd. induction n as [|n IH]; intros fd Hfd Hn Hmax Hr Hw; cbn [scan_all].
  { by rewrite (proj2 (Z.leb_gt _ _)) by lia. }
  destruct (fd <=? s_max s); [|done]. rewrite bits_cons in Hr, Hw.
  pose proof (bits_nonneg n (fd + 1) rd). pose proof (bits_nonneg n (fd + 1) wr).
  unfold visit, FD_ISSET, in_fd_set. rewrite (proj2 (Z.leb_le _ _)), (proj2 (Z.ltb_lt _ _)) by lia.
  cbn [andb]. destruct (bool_decide (fd ∈ rd)); [lia|]. rewrite !outcome_ret_bind.
  destruct (bool_decide (fd ∈ wr)); [lia|]. rewrite !outcome_ret_bind. apply IH; lia.
Qed.

Lemma scan_eq n s fd rd wr nready :
  select_inv s -> pass_ok n s fd rd wr -> bits n fd rd + bits n fd wr <= nready ->
  scan strerror pr accept n s fd rd wr nready = scan_all strerror pr accept n s fd rd wr nready.
Proof.
  revert s fd nready. induction n as [|n IH]; intros s fd nready Hinv Hp Hb; cbn [scan scan_all].
  { pose proof (inv_max s Hinv). destruct Hp as (? & ? & _). by rewrite (proj2 (Z.leb_gt _ _)) by lia. }
  destruct (Z.leb_spec fd (s_max s)) as [Hle|]; [|done]. cbn [andb].
  destruct (Z.ltb_spec 0 nready) as [Hpos|Hz].
  - pose proof (pass_next n s fd rd wr nready Hinv Hp) as H.
    destruct (visit strerror pr accept s fd rd wr nready) as [[s1 n1]|msg|f] eqn:Ev; [|done|done].
    rewrite !outcome_ret_bind. destruct H as (Hi & _ & Hp1 & _).
    apply visit_nready in Ev. rewrite !bits_cons in Hb. apply IH; try done. lia.
  - pose proof (bits_nonneg (S n) fd rd). pose proof (bits_nonneg (S n) fd wr).
    pose proof (inv_max s Hinv) as Hmax. destruct Hp as (Hfd & Hn & _).
    pose proof (scan_all_idle (S n) s fd rd wr nready Hfd Hn Hmax ltac:(lia) ltac:(lia)) as Hidle.
    cbn [scan_all] in Hidle. by rewrite (proj2 (Z.leb_le _ _)) in Hidle by lia.
Qed.

Lemma ready_pass s rd wr :
  select_inv s -> ready_ok s (Ready rd wr) -> pass_ok (Z.to_nat FD_SETSIZE) s 0 rd wr.
Proof.
  intros Hinv [Hr Hw]. split; [lia|]. split; [done|]. split.
  - intros Hin. destruct (inv_listens s Hinv) as [_ Hn]. apply Hn. by apply Hw.
  - intros f _ [Hf|Hf]; apply (inv_sets s Hinv); [left; by apply Hr|right; by apply Hw].
Qed.
End Pass.

Lemma select_main_inv argv1 a pr s :
  select_main argv1 a = Ret (pr, s) -> sigpipe_ignored pr = true /\ select_inv s.
Proof.
  unfold select_main. intros (t & Ht & H)%outcome_bind_inv.
  apply outcome_bind_inv in H as ([listener port] & Hl & H). apply outcome_bind_inv in H as (_ & _ & H).
  apply peer_state_init_ok in Ht as [Ht Hcap]; [|done]. apply listen_spec in Hl as [Hl _].
  destruct (Z.leb_spec FD_SETSIZE listener); [done|].
  unfold FD_SET, in_fd_set in H. rewrite (proj2 (Z.leb_le _ _)), (proj2 (Z.ltb_lt _ _)) in H by lia.
  cbn [andb] in H. rewrite outcome_ret_bind in H. injection H as <- <-. split; [done|].
  split; cbn [s_loop s_read s_write s_max s_listener l_table l_socks peer_capacity]; try done; try lia.
  - split; [|lia]. rewrite dom_empty. apply not_elem_of_empty.
  - split; [|apply not_elem_of_empty]. apply elem_of_union. left. by apply elem_of_singleton.
  - intros fd. rewrite elem_of_union, elem_of_singleton. pose proof (not_elem_of_empty (C := gset Z) fd). tauto.
Qed.

Lemma sreach_inv strerror pr s0 s :
  sigpipe_ignored pr = true -> select_inv s0 -> sreach strerror pr s0 s ->
  select_inv s /\ s_listener s = s_listener s0.
Proof.
  intros Hpr H0 Hr. induction Hr as [|s accept a s' _ [IH Hlis] Hacc Ha Hs]; [done|].
  destruct a as [errno|rd wr]; unfold iterate in Hs.
  - destruct (errno =? EINTR); [|done]. by injection Hs as <-.
  - pose proof (scan_ok strerror pr Hpr accept Hacc (Z.to_nat FD_SETSIZE) s 0 rd wr (nready_of rd wr)
      IH (ready_pass s rd wr IH Ha)) as H.
    rewrite Hs in H. destruct H. split; [done|congruence].
Qed.

(** ** Properties *)

(** C5 [select_serves]: whatever [select] reports, pass after pass, and whatever
    [accept], [recv] and [send] answer: no bit past FD_SETSIZE and no slot past the
    peer table is touched and no system call is made on a descriptor that was closed.
    Every handler of a pass runs on the connection that was there when [select]
    returned, untouched since, hence never on one closed in the same pass or accepted
    in it on a number that has become free. The process ends only when [select] fails,
    when [accept] fails with another errno than the four that are ignored, or when an
    [fcntl] on a new connection does; no byte and no reset of a peer is among the
    causes. Such an [accept] always ends it, so clients that use up the descriptors of
    the process do (EMFILE). The master sets hold
    exactly the listener and, for each open connection, what its last verdict asked
    for; [fdset_max] covers them; and on each connection what was sent and what is
    staged is '*' and the increment of the payload received. *)
Theorem select_serves (strerror : Z -> string) argv1 start (pr : proc) (s0 s : select)
    (accept : select -> accept_answer) (a : select_answer) :
  select_main argv1 start = Ret (pr, s0) -> sreach strerror pr s0 s ->
  (forall s1, answer_ok s1 (accept s1)) -> ready_ok s a ->
  match iterate strerror pr accept s a with
  | Ret _ => True
  | Exit _ =>
      match a with
      | SelectError errno => errno <> EINTR
      | Ready rd wr => exists s1,
          (s_listener s0, s1) ∈ visits strerror pr accept (Z.to_nat FD_SETSIZE) s 0 rd wr (nready_of rd wr) /\
          (accept_fails (accept s1) \/ fcntl_fails (accept s1))
      end
  | Fault _ => False
  end /\
  (forall rd wr fd s1, a = Ready rd wr ->
     (fd, s1) ∈ visits strerror pr accept (Z.to_nat FD_SETSIZE) s 0 rd wr (nready_of rd wr) ->
     fd ∈ rd \/ fd ∈ wr ->
     if fd =? s_listener s0
     then accept_fails (accept s1) -> exists msg, iterate strerror pr accept s a = Exit msg
     else (fd ∈ dom (l_socks (s_loop s))) /\ same_conn (s_loop s) (s_loop s1) fd) /\
  (forall fd, (fd ∈ s_read s \/ fd ∈ s_write s) ->
     (fd = s_listener s0 \/ fd ∈ dom (l_socks (s_loop s))) /\ 0 <= fd <= s_max s /\ s_max s < FD_SETSIZE) /\
  (forall fd, fd ∈ dom (l_socks (s_loop s)) ->
    exists st sk recvd pend fst pl,
      st <> fd_status_NORW /\ (fd ∈ s_read s <-> want_read st = true) /\ (fd ∈ s_write s <-> want_write st = true) /\
      (want_read st = true -> pend = []) /\ (st = fd_status_W -> pend <> []) /\
      l_socks (s_loop s) !! fd = Some sk /\
      l_input (s_loop s) !! fd = Some (recvd ++ rx_bytes (rx sk)) /\
      peer_pending (l_table (s_loop s)) fd = Ret pend /\
      framed recvd fst pl /\ wire sk ++ pend = STAR :: (incr <$> pl)).
Proof.
  intros Hstart Hreach Hacc Ha. destruct (select_main_inv _ _ _ _ Hstart) as [Hpr H0].
  destruct (sreach_inv strerror pr s0 s Hpr H0 Hreach) as [Hinv Hls]. split; [|split; [|split]].
  - destruct a as [errno|rd wr]; unfold iterate; [by destruct (Z.eqb_spec errno EINTR)|].
    pose proof (scan_ok strerror pr Hpr accept Hacc (Z.to_nat FD_SETSIZE) s 0 rd wr (nready_of rd wr)
      Hinv (ready_pass s rd wr Hinv Ha)) as H. rewrite Hls in H.
    destruct (scan strerror pr accept _ s 0 rd wr (nready_of rd wr)); [done|apply H|done].
  - intros rd wr fd s1 -> Hv Hset. rewrite <- Hls. pose proof (ready_pass s rd wr Hinv Ha) as Hp.
    destruct (visits_same strerror pr Hpr accept Hacc _ s 0 rd wr _ fd s1 Hinv Hp Hv) as (Hfd & Hsame & Hex).
    destruct Hp as (_ & _ & Hlw & Hopen). destruct (Z.eqb_spec fd (s_listener s)) as [->|Hne].
    + apply Hex; [done|]. by destruct Hset.
    + destruct (Hopen fd Hfd Hset) as [?|Hin]; [done|]. by split; [|apply Hsame].
  - intros fd Hin. pose proof (inv_max s Hinv). pose proof (inv_sets s Hinv fd Hin) as Hor.
    rewrite Hls in Hor. split; [done|]. destruct Hor as [->|Hc].
    + destruct (inv_listener s Hinv) as [_ ?]. lia.
    + destruct (inv_conns s Hinv fd Hc) as [? _]. lia.
  - intros fd Hin. destruct (inv_conns s Hinv fd Hin) as (_ & st & Hci & Hne & Hrd & Hwr).
    destruct (conn_inv_protocol _ _ _ Hci) as (sk & recvd & pend & fst & pl & H1 & H2 & H3 & H4 & H5 & H6 & H7).
    exists st, sk, recvd, pend, fst, pl. repeat (split; [done|]). split; [intros Hr; by apply H6|]. done.
Qed.

(** C34 [select_early_exit]: stopping the pass once [nready] events are handled skips
    nothing: the pass with the early exit does what the pass over every descriptor
    up to [fdset_max] does, also when a connection is closed or accepted on the way. *)
Theorem select_early_exit (strerror : Z -> string) argv1 start (pr : proc) (s0 s : select)
    (accept : select -> accept_answer) (rd wr : gset Z) :
  select_main argv1 start = Ret (pr, s0) -> sreach strerror pr s0 s ->
  (forall s1, answer_ok s1 (accept s1)) -> ready_ok s (Ready rd wr) ->
  iterate strerror pr accept s (Ready rd wr) =
  scan_all strerror pr accept (Z.to_nat FD_SETSIZE) s 0 rd wr (nready_of rd wr).
Proof.
  intros Hstart Hreach Hacc Ha. destruct (select_main_inv _ _ _ _ Hstart) as [Hpr H0].
  destruct (sreach_inv strerror pr s0 s Hpr H0 Hreach) as [Hinv _]. unfold iterate.
  apply scan_eq; [exact Hpr|exact Hacc|exact Hinv|by apply ready_pass|reflexivity].
Qed.

(** The listener is descriptor 3; connection 5 arrives and is then writable. *)
Definition demo_accept (s : select) : accept_answer :=
  if bool_decide ((5 ∉ dom (l_socks (s_loop s))) /\ 5 <> s_listener s)
  then Connection 5 (Sock [RxData [94; 97]] [TxSpace 1] []) 2 (fun _ => 0) else AcceptError EAGAIN.

Lemma demo_accept_ok s : answer_ok s (demo_accept s).
Proof. unfold demo_accept. case_bool_decide as H; [|done]. by destruct H. Qed.

Lemma demo_accept_works s : ~ (accept_fails (demo_accept s) \/ fcntl_fails (demo_accept s)).
Proof. unfold demo_accept. case_bool_decide; [|by intros [?|?]]. intros [?|[msg ?]]; done. Qed.

Definition demo_pass1 : select_answer := Ready {[3]} ∅.
Definition demo_pass2 : select_answer := Ready ∅ {[5]}.

Definition demo_answers : start_answers := StartAnswers true (ListenAnswers 3 0 0 0) 2 (fun _ => 0).

Definition demo_select : outcome select :=
  '(pr, s) ← select_main None demo_answers;
  iterate (fun _ => "error"%string) pr demo_accept s demo_pass1.

Lemma demo_select_result :
  match demo_select with
  | Ret s => bool_decide (5 ∈ dom (l_socks (s_loop s))) && bool_decide (5 ∈ s_write s) && (s_max s =? 5) &&
      match iterate (fun _ => "error"%string) (Proc true) demo_accept s demo_pass2 with
      | Ret s' => bool_decide (5 ∈ s_read s') | _ => false
      end
  | _ => false
  end = true.
Proof. vm_compute. reflexivity. Qed.

Lemma demo_select_reached :
  exists s0 s, select_main None demo_answers = Ret (Proc true, s0) /\ demo_select = Ret s /\
    sreach (fun _ => "error"%string) (Proc true) s0 s /\ (5 ∈ dom (l_socks (s_loop s))) /\ 5 ∈ s_write s.
Proof.
  pose proof demo_select_result as H. destruct (demo_select) as [s|msg|f] eqn:E; [|done|done].
  pose proof E as E'. unfold demo_select in E'. apply outcome_bind_inv in E' as ([pr s0] & E0 & E1).
  assert (pr = Proc true) as ->.
  { unfold select_main in E0. apply outcome_bind_inv in E0 as (t & _ & E0).
    by injection E0 as <- _. }
  exists s0, s. apply andb_true_iff in H as [H _]. apply andb_true_iff in H as [H _].
  apply andb_true_iff in H as [H1%bool_decide_eq_true H2%bool_decide_eq_true].
  split; [exact E0|]. split; [reflexivity|]. split; [|split; [exact H1|exact H2]].
  eapply sreach_step; [apply sreach_start|apply demo_accept_ok| |exact E1].
  destruct (select_main_inv _ _ _ _ E0) as [_ Hinv]. split; [|apply empty_subseteq].
  apply singleton_subseteq_l. destruct (inv_listens s0 Hinv) as [Hl _].
  unfold select_main in E0. apply outcome_bind_inv in E0 as (t & _ & E0). injection E0 as <-. done.
Qed.

Lemma demo_ready s : 5 ∈ s_write s -> ready_ok s demo_pass2.
Proof. intros H. split; [apply empty_subseteq|]. by apply singleton_subseteq_l. Qed.

Lemma select_serves_witness :
  exists s sk recvd pend fst pl, demo_select = Ret s /\ l_socks (s_loop s) !! 5 = Some sk /\
    framed recvd fst pl /\ wire sk ++ pend = STAR :: (incr <$> pl) /\
    match iterate (fun _ => "error"%string) (Proc true) demo_accept s demo_pass2 with
    | Ret _ => True | Exit _ => False | Fault _ => False
    end.
Proof.
  destruct demo_select_reached as (s0 & s & E0 & E & Hr & Hin & Hw).
  destruct (select_serves (fun _ => "error"%string) None demo_answers (Proc true) s0 s demo_accept demo_pass2
    E0 Hr demo_accept_ok (demo_ready s Hw)) as (H1 & _ & _ & H3).
  destruct (H3 5 Hin) as (st & sk & recvd & pend & fst & pl & _ & _ & _ & _ & _ & Hsk & _ & _ & Hf & Hout).
  exists s, sk, recvd, pend, fst, pl. split; [exact E|]. split; [exact Hsk|]. split; [exact Hf|].
  split; [exact Hout|]. destruct (iterate _ _ demo_accept s demo_pass2); [exact I| |exact H1].
  destruct H1 as (s1 & _ & H1). by destruct (demo_accept_works s1).
Defined.

Lemma select_early_exit_witness :
  exists s, demo_select = Ret s /\
    iterate (fun _ => "error"%string) (Proc true) demo_accept s demo_pass2 =
    scan_all (fun _ => "error"%string) (Proc true) demo_accept (Z.to_nat FD_SETSIZE) s 0 ∅ {[5]} (nready_of ∅ {[5]}).
Proof.
  destruct demo_select_reached as (s0 & s & E0 & E & Hr & Hin & Hw). exists s. split; [exact E|].
  apply (select_early_exit (fun _ => "error"%string) None demo_answers (Proc true) s0 s demo_accept ∅ {[5]}
    E0 Hr demo_accept_ok (demo_ready s Hw)).
Defined.
