(* ===== verification/EpollServer.v ===== *)
(** * The epoll server (src/src/epoll_server.c)

    [apply_status], the body of the event loop ([handle_event]) and the loop over
    one [epoll_wait] ([handle_events]), on the connections of EventLoop.v and the
    interest set [e_interest] the kernel keeps for the epoll descriptor. [epoll_ctl]
    fails where the kernel makes it fail: EPOLL_CTL_MOD on a descriptor that is not
    registered, EPOLL_CTL_ADD on one that is, and either one when the kernel refuses
    for a reason of its own, such as memory ([ev_ctl]).

    The theorem: one batch of events after the other, every event is handled on the
    connection it was reported for, the process ends only where a system call fails
    (an [accept] that finds no free descriptor included, which clients can bring
    about), and every connection keeps the protocol. *)

From S2P Require Import Prelude Framing Posix Utils Protocol PeerState EventLoop.
Local Open Scope Z_scope.

Definition MAXFDS : Z := 16 * 1024.

Definition EPOLLIN : Z := 1.
Definition EPOLLOUT : Z := 4.
Definition EPOLLERR : Z := 8.

Record epoll := Epoll {
  e_loop : evloop;
  e_interest : gmap Z Z;
  e_listener : Z
}.

Definition status_events (status : fd_status_t) : Z :=
  let events := 0 in
  let events := if want_read status then Z.lor events EPOLLIN else events in
  if want_write status then Z.lor events EPOLLOUT else events.

Definition epoll_ctl_add (ctl : bool) (e : epoll) (fd events : Z) : outcome epoll :=
  if ctl && bool_decide (e_interest e !! fd = None)
  then Ret (Epoll (e_loop e) (<[fd := events]> (e_interest e)) (e_listener e))
  else Exit "epoll_ctl EPOLL_CTL_ADD".

Definition epoll_ctl_mod (ctl : bool) (e : epoll) (fd events : Z) : outcome epoll :=
  if ctl && bool_decide (is_Some (e_interest e !! fd))
  then Ret (Epoll (e_loop e) (<[fd := events]> (e_interest e)) (e_listener e))
  else Exit "epoll_ctl EPOLL_CTL_MOD".

(** The result of the deletion is not looked at. *)
Definition epoll_ctl_del (e : epoll) (fd : Z) : epoll :=
  Epoll (e_loop e) (delete fd (e_interest e)) (e_listener e).

Definition close (e : epoll) (fd : Z) : outcome epoll :=
  l ← sys_close (e_loop e) fd;
  Ret (Epoll l (e_interest e) (e_listener e)).

Definition apply_status (ctl : bool) (e : epoll) (fd : Z) (status : fd_status_t) : outcome epoll :=
  if negb (want_read status) && negb (want_write status) then
    _ ← peer_close_reason (l_table (e_loop e)) fd;
    close (epoll_ctl_del e fd) fd
  else epoll_ctl_mod ctl e fd (status_events status).

(** One entry of [events], with what the kernel will answer to an [accept] made for
    it and whether it grants the [epoll_ctl] made for it. *)
Record event := Event {
  ev_fd : Z;
  ev_events : Z;
  ev_accept : accept_answer;
  ev_ctl : bool
}.

Definition with_loop (e : epoll) (l : evloop) : epoll := Epoll l (e_interest e) (e_listener e).

Section Server.
Context (strerror : Z -> string) (pr : proc).

(** The branch of the listening socket. *)
Definition on_accept (e : epoll) (answer : accept_answer) (ctl : bool) : outcome epoll :=
  match answer with
  | AcceptError errno => if accept_benign errno then Ret e else Exit "accept"
  | Connection newsockfd s getfl setfl =>
      let e := with_loop e (sys_accepted (e_loop e) newsockfd s) in
      if negb (peer_fd_in_range (l_table (e_loop e)) newsockfd) then close e newsockfd
      else
        _ ← make_socket_non_blocking getfl setfl;
        '(status, l) ← connected (e_loop e) newsockfd;
        epoll_ctl_add ctl (with_loop e l) newsockfd (status_events status)
  end.

Definition handle_event (e : epoll) (ev : event) : outcome epoll :=
  let fd := ev_fd ev in
  if negb (Z.land (ev_events ev) EPOLLERR =? 0) then
    if fd =? e_listener e then Exit "error on the listening socket"
    else close (epoll_ctl_del e fd) fd
  else if fd =? e_listener e then on_accept e (ev_accept ev) (ev_ctl ev)
  else if negb (Z.land (ev_events ev) EPOLLIN =? 0) then
    '(status, l) ← ready_recv strerror (e_loop e) fd;
    apply_status (ev_ctl ev) (with_loop e l) fd status
  else if negb (Z.land (ev_events ev) EPOLLOUT =? 0) then
    '(status, l) ← ready_send strerror pr (e_loop e) fd;
    apply_status (ev_ctl ev) (with_loop e l) fd status
  else Ret e.

Fixpoint handle_events (e : epoll) (evs : list event) : outcome epoll :=
  match evs with
  | [] => Ret e
  | ev :: evs' => e ← handle_event e ev; handle_events e evs'
  end.

(** [epoll_wait] fails, or reports events. *)
Definition iterate (e : epoll) (wait : Z + list event) : outcome epoll :=
  match wait with
  | inl errno => if errno =? EINTR then Ret e else Exit "epoll_wait"
  | inr evs => handle_events e evs
  end.

(** [main] up to its loop: the process and the state the loop starts in. [create]: the
    answer of [epoll_create1]; [ctl]: whether the kernel registers the listener; [events]: whether the array of events can be allocated. *)
Definition epoll_main (argv1 : option (list Z)) (a : start_answers) (create : Z) (ctl events : bool) :
    outcome (proc * epoll) :=
  let pr := ignore_sigpipe proc_start in
  t ← peer_state_init (sa_table a) MAXFDS;
  '(listener, _) ← listen_inet_socket (port_argument 9090 argv1) (sa_listen a);
  _ ← make_socket_non_blocking (sa_getfl a) (sa_setfl a);
  if create <? 0 then Exit "epoll_create1"
  else
    e ← epoll_ctl_add ctl (Epoll (Loop t ∅ ∅) ∅ listener) listener EPOLLIN;
    if events then Ret (pr, e) else Exit "could not allocate the epoll event buffer".

(** ** The kernel's side *)

(** A new connection gets the number of no open descriptor and has been sent
    nothing. *)
Definition answer_ok (e : epoll) (answer : accept_answer) : Prop :=
  match answer with
  | Connection fd s _ _ =>
      0 <= fd < 2 ^ 31 /\ (fd ∉ dom (l_socks (e_loop e))) /\ fd <> e_listener e /\ wire s = []
  | AcceptError _ => True
  end.

Fixpoint answers_ok (e : epoll) (evs : list event) : Prop :=
  match evs with
  | [] => True
  | ev :: evs' =>
      answer_ok e (ev_accept ev) /\ forall e', handle_event e ev = Ret e' -> answers_ok e' evs'
  end.

(** [epoll_wait] reports registered descriptors, each once. *)
Definition batch_ok (e : epoll) (evs : list event) : Prop :=
  NoDup (ev_fd <$> evs) /\ Forall (fun ev => ev_fd ev ∈ dom (e_interest e)) evs /\ answers_ok e evs.

Definition wait_ok (e : epoll) (wait : Z + list event) : Prop :=
  match wait with inl _ => True | inr evs => batch_ok e evs end.

Inductive ereach (e0 : epoll) : epoll -> Prop :=
| ereach_start : ereach e0 e0
| ereach_step e wait e' :
    ereach e0 e -> wait_ok e wait -> iterate e wait = Ret e' -> ereach e0 e'.

(** ** The invariant *)

Record epoll_inv (e : epoll) : Prop := {
  inv_table : table_ok (l_table (e_loop e));
  inv_listener : e_listener e ∉ dom (l_socks (e_loop e));
  inv_interest : dom (e_interest e) = {[e_listener e]} ∪ dom (l_socks (e_loop e));
  inv_conns : forall fd, fd ∈ dom (l_socks (e_loop e)) ->
    fd < 2 ^ 31 /\
    exists st, conn_inv (e_loop e) fd st /\ st <> fd_status_NORW /\
      e_interest e !! fd = Some (status_events st)
}.

(** A system call fails for this event in a way the loop does not tolerate. *)
Definition refused (listener : Z) (ev : event) : Prop :=
  ev_ctl ev = false \/
  ev_fd ev = listener /\
  (Z.land (ev_events ev) EPOLLERR <> 0 \/
   match ev_accept ev with
   | AcceptError errno => accept_benign errno = false
   | Connection _ _ getfl setfl => exists msg, make_socket_non_blocking getfl setfl = Exit msg
   end).

(** The listener's turn comes and [accept] fails with another errno than the four
    that are ignored, as it does when no descriptor is left (EMFILE, ENFILE). *)
Definition accept_fails (listener : Z) (ev : event) : Prop :=
  ev_fd ev = listener /\ Z.land (ev_events ev) EPOLLERR = 0 /\
  match ev_accept ev with AcceptError errno => accept_benign errno = false | _ => False end.

(** The events of a batch that are handled, each with the state it finds. *)
Fixpoint handled_in (e : epoll) (evs : list event) : list (event * epoll) :=
  match evs with
  | [] => []
  | ev :: evs' => (ev, e) :: match handle_event e ev with Ret e' => handled_in e' evs' | _ => [] end
  end.

Lemma handled_in_batch e evs ev e1 : (ev, e1) ∈ handled_in e evs -> ev ∈ evs.
Proof.
  revert e. induction evs as [|ev0 evs IH]; intros e Hin; [by apply not_elem_of_nil in Hin|].
  cbn [handled_in] in Hin. apply elem_of_cons in Hin as [[= -> ->]|Hin]; [apply list_elem_of_here|].
  apply list_elem_of_further. destruct (handle_event e ev0); [by eapply IH|by apply not_elem_of_nil in Hin..].
Qed.

(** What becomes of handling an event of [fd]: the invariant, with every other
    descriptor still registered and every other connection untouched; [cause]: why
    the process may end. *)
Definition handled (cause : Prop) (fd : Z) (e : epoll) (o : outcome epoll) : Prop :=
  match o with
  | Ret e' => epoll_inv e' /\ e_listener e' = e_listener e /\
      (forall f, f <> fd -> f ∈ dom (e_interest e) -> f ∈ dom (e_interest e')) /\
      (forall f, f <> fd -> f ∈ dom (l_socks (e_loop e)) -> same_conn (e_loop e) (e_loop e') f)
  | Exit _ => cause
  | Fault _ => False
  end.

Lemma handled_weaken (cause cause' : Prop) fd e o :
  handled cause fd e o -> (cause -> cause') -> handled cause' fd e o.
Proof. intros H Himp. destruct o; [exact H|exact (Himp H)|exact H]. Qed.

Lemma forget_conn cause e fd l' :
  epoll_inv e -> fd ∈ dom (l_socks (e_loop e)) -> loop_step fd (e_loop e) l' ->
  dom (l_socks l') = dom (l_socks (e_loop e)) ->
  handled cause fd e (close (epoll_ctl_del (with_loop e l') fd) fd).
Proof.
  intros [Ht Hl Hi Hc] Hin Hstep Hdom. unfold close, epoll_ctl_del, with_loop. simpl.
  destruct (sys_close_ok l' fd) as (l2 & -> & Hstep2 & Hdom2 & _); [by rewrite Hdom|].
  rewrite outcome_ret_bind. pose proof (transitivity Hstep Hstep2) as Hs. rewrite Hdom in Hdom2.
  split; [split; simpl|split; [done|]].
  - by apply (step_table _ _ _ Hs).
  - rewrite Hdom2. by intros [? _]%elem_of_difference.
  - rewrite dom_delete_L, Hi, Hdom2. apply leibniz_equiv. intros f.
    rewrite !elem_of_difference, !elem_of_union, !elem_of_difference, !elem_of_singleton.
    split; [tauto|]. intros [->|[? ?]]; [|tauto]. split; [tauto|]. intros E. by rewrite E in Hl.
  - intros f. rewrite Hdom2, elem_of_difference, elem_of_singleton. intros [Hf Hne].
    destruct (Hc f Hf) as (Hlt & st & Hci & Hst & Hint). split; [done|]. exists st.
    split; [by eapply conn_inv_frame|]. split; [done|]. by rewrite lookup_delete_ne.
  - split; simpl; [|intros f Hne _; by apply (loop_step_same fd)].
    intros f Hne Hf. apply elem_of_dom. rewrite lookup_delete_ne by done. by apply elem_of_dom.
Qed.

Lemma epoll_apply_status_ok ctl e fd l' st :
  epoll_inv e -> fd ∈ dom (l_socks (e_loop e)) -> conn_inv l' fd st -> loop_step fd (e_loop e) l' ->
  dom (l_socks l') = dom (l_socks (e_loop e)) ->
  handled (ctl = false) fd e (apply_status ctl (with_loop e l') fd st).
Proof.
  intros Hinv Hin Hci Hstep Hdom. unfold apply_status.
  destruct (inv_conns e Hinv fd Hin) as (Hlt & st0 & _ & _ & Hint).
  destruct (negb (want_read st) && negb (want_write st)) eqn:E.
  - destruct (close_reason_ok (l_table l') fd) as [reason Hr].
    { apply (step_table _ _ _ Hstep), Hinv. }
    { destruct (conn_inv_open _ _ _ Hci). lia. }
    simpl. rewrite Hr, outcome_ret_bind. by apply (forget_conn _ e fd l').
  - unfold epoll_ctl_mod. simpl. rewrite bool_decide_eq_true_2 by (by eexists). destruct ctl; [|done]. cbn [andb].
    destruct Hinv as [Ht Hl Hi Hc]. split; [split; simpl|split; [done|]].
    + by apply (step_table _ _ _ Hstep).
    + by rewrite Hdom.
    + rewrite dom_insert_lookup_L by (by eexists). by rewrite Hdom.
    + intros f Hf. rewrite Hdom in Hf. destruct (decide (f = fd)) as [->|Hne].
      * split; [done|]. exists st. split; [done|]. split; [by intros ->|apply lookup_insert_eq].
      * destruct (Hc f Hf) as (Hlt' & st' & Hci' & Hst' & Hint'). split; [done|]. exists st'.
        split; [by eapply conn_inv_frame|]. split; [done|]. by rewrite lookup_insert_ne.
    + split; simpl; [|intros f Hne _; by apply (loop_step_same fd)].
      intros f Hne Hf. rewrite dom_insert. apply elem_of_union. by right.
Qed.

(** A descriptor the kernel has just handed out has no trace left in the loop. *)
Lemma conns_frame e fd l' :
  epoll_inv e -> fd ∉ dom (l_socks (e_loop e)) -> loop_step fd (e_loop e) l' ->
  forall f, f ∈ dom (l_socks (e_loop e)) ->
    f < 2 ^ 31 /\ exists st, conn_inv l' f st /\ st <> fd_status_NORW /\
      e_interest e !! f = Some (status_events st).
Proof.
  intros Hinv Hnew Hstep f Hf. destruct (inv_conns e Hinv f Hf) as (Hlt & st & Hci & Hst & Hint).
  split; [done|]. exists st. split; [|done]. eapply conn_inv_frame; [done| |done]. by intros ->.
Qed.

Lemma epoll_reject_ok cause e fd s :
  epoll_inv e -> fd ∉ dom (l_socks (e_loop e)) -> fd <> e_listener e ->
  handled cause (e_listener e) e (close (with_loop e (sys_accepted (e_loop e) fd s)) fd).
Proof.
  intros Hinv Hnew Hne. unfold close, sys_close, on_sock. simpl. rewrite lookup_insert_eq, outcome_ret_bind.
  set (l' := Loop _ _ _).
  assert (l_socks l' = l_socks (e_loop e)) as Hsocks.
  { simpl. rewrite delete_insert_eq. apply delete_id. by apply not_elem_of_dom. }
  assert (loop_step fd (e_loop e) l') as Hstep.
  { split; simpl; try done; intros f Hf; [by rewrite lookup_delete_ne, lookup_insert_ne|by apply lookup_insert_ne]. }
  pose proof Hinv as [Ht Hl Hi _]. split; [split; cbn [e_loop e_interest e_listener with_loop]|split; [done|split; [done|]]].
  - done.
  - by rewrite Hsocks.
  - by rewrite Hsocks.
  - rewrite Hsocks. by apply (conns_frame e fd l').
  - intros f _ Hf. apply (loop_step_same fd); [done|]. by intros ->.
Qed.

Lemma epoll_on_accept_ok e answer ctl :
  epoll_inv e -> answer_ok e answer ->
  handled (ctl = false \/ match answer with
                          | AcceptError errno => accept_benign errno = false
                          | Connection _ _ getfl setfl => exists msg, make_socket_non_blocking getfl setfl = Exit msg
                          end) (e_listener e) e (on_accept e answer ctl).
Proof.
  intros Hinv Hans. destruct answer as [fd s getfl setfl|errno]; unfold on_accept.
  2:{ destruct (accept_benign errno); [by split|by right]. }
  destruct Hans as (Hfd & Hnew & Hne & Hw). cbn [with_loop e_loop sys_accepted l_table].
  destruct (peer_fd_in_range (l_table (e_loop e)) fd) eqn:Hr; cbn [negb]; [|by apply epoll_reject_ok].
  destruct (make_socket_non_blocking getfl setfl) as [flags|msg|f] eqn:Enb; [|by right; exists msg|].
  2:{ unfold make_socket_non_blocking in Enb. by repeat destruct (_ =? _). }
  rewrite outcome_ret_bind. pose proof Hinv as [Ht Hl Hi _].
  destruct (connected_ok (e_loop e) fd s Ht) as (l' & Hc & Hci & Hstep & Hdom); [lia|done|done|].
  rewrite Hc, outcome_ret_bind. unfold epoll_ctl_add. simpl.
  rewrite bool_decide_eq_true_2.
  2:{ apply not_elem_of_dom. rewrite Hi. by intros [E%elem_of_singleton|?]%elem_of_union. }
  destruct ctl; [|by left]. split; [split; simpl|split; [done|split; simpl]].
  - by apply (step_table _ _ _ Hstep).
  - rewrite Hdom. by intros [E%elem_of_singleton|?]%elem_of_union.
  - rewrite dom_insert_L, Hi, Hdom. apply leibniz_equiv. intros f. rewrite !elem_of_union. tauto.
  - intros f. rewrite Hdom, elem_of_union, elem_of_singleton. intros Hf.
    destruct (decide (f = fd)) as [->|Hnf].
    + split; [lia|]. exists fd_status_W. split; [done|]. split; [done|apply lookup_insert_eq].
    + rewrite lookup_insert_ne by done. apply (conns_frame e fd l'); try done. tauto.
  - intros f Hnf Hf. rewrite dom_insert. apply elem_of_union. by right.
  - intros f _ Hf. apply (loop_step_same fd); [done|]. by intros ->.
Qed.

Hypothesis Hpr : sigpipe_ignored pr = true.

Lemma handle_event_ok e ev :
  epoll_inv e -> ev_fd ev ∈ dom (e_interest e) -> answer_ok e (ev_accept ev) ->
  handled (refused (e_listener e) ev) (ev_fd ev) e (handle_event e ev).
Proof.
  intros Hinv Hreg Hans. pose proof Hinv as [Ht Hl Hi Hc]. unfold handle_event.
  rewrite Hi in Hreg. apply elem_of_union in Hreg as [Heq%elem_of_singleton|Hin].
  { unfold refused. rewrite Heq, Z.eqb_refl. destruct (Z.eqb_spec (Z.land (ev_events ev) EPOLLERR) 0); cbn [negb].
    - eapply handled_weaken; [by apply epoll_on_accept_ok|]. tauto.
    - right. tauto. }
  destruct (Z.eqb_spec (ev_fd ev) (e_listener e)) as [E|Hne]; [by rewrite E in Hin|].
  destruct (Hc _ Hin) as (_ & st & Hci & _).
  destruct (negb (Z.land (ev_events ev) EPOLLERR =? 0)).
  { assert (handled (refused (e_listener e) ev) (ev_fd ev) e (close (epoll_ctl_del (with_loop e (e_loop e)) (ev_fd ev)) (ev_fd ev))) as H
      by (by apply forget_conn). exact H. }
  destruct (negb (Z.land (ev_events ev) EPOLLIN =? 0)).
  { destruct (ready_recv_ok strerror _ _ _ Hci) as (st' & l' & -> & Hci' & Hstep & Hdom).
    rewrite outcome_ret_bind. eapply handled_weaken; [by apply epoll_apply_status_ok|by left]. }
  destruct (negb (Z.land (ev_events ev) EPOLLOUT =? 0)); [|by split].
  destruct (ready_send_ok strerror pr Hpr _ _ _ Hci) as (st' & l' & -> & Hci' & Hstep & Hdom).
  rewrite outcome_ret_bind. eapply handled_weaken; [by apply epoll_apply_status_ok|by left].
Qed.

Lemma batch_next e ev evs :
  epoll_inv e -> batch_ok e (ev :: evs) ->
  handled (refused (e_listener e) ev) (ev_fd ev) e (handle_event e ev) /\
  (ev_fd ev ∉ ev_fd <$> evs) /\
  forall e1, handle_event e ev = Ret e1 -> batch_ok e1 evs.
Proof.
  intros Hinv (Hnd & Hreg & Ha & Hans). apply Forall_cons in Hreg as [Hr Hreg].
  rewrite fmap_cons in Hnd. apply NoDup_cons in Hnd as [Hnot Hnd].
  pose proof (handle_event_ok e ev Hinv Hr Ha) as H. split; [done|]. split; [done|]. intros e1 E.
  rewrite E in H. destruct H as (_ & _ & Hkeep & _). split; [done|]. split; [|by apply Hans].
  rewrite Forall_forall in *. intros ev' Hev'. apply Hkeep; [|by apply Hreg].
  intros Heq. apply Hnot. rewrite <- Heq. by apply list_elem_of_fmap_2.
Qed.

Lemma handle_events_ok e evs :
  epoll_inv e -> batch_ok e evs ->
  match handle_events e evs with
  | Ret e' => epoll_inv e' /\ e_listener e' = e_listener e
  | Exit _ => Exists (refused (e_listener e)) evs
  | Fault _ => False
  end.
Proof.
  revert e. induction evs as [|ev evs IH]; intros e Hinv Hb; [done|].
  destruct (batch_next e ev evs Hinv Hb) as (H & _ & Hnext). cbn [handle_events].
  destruct (handle_event e ev) as [e1|msg|f]; [|by apply Exists_cons_hd|done].
  destruct H as (Hinv1 & Hlis & _). specialize (IH e1 Hinv1 (Hnext e1 eq_refl)).
  rewrite outcome_ret_bind. rewrite Hlis in IH. destruct (handle_events e1 evs); [done|by apply Exists_cons_tl|done].
Qed.

Lemma accept_failure_exits e evs :
  epoll_inv e -> batch_ok e evs -> Exists (accept_fails (e_listener e)) evs ->
  exists msg, handle_events e evs = Exit msg.
Proof.
  revert e. induction evs as [|ev evs IH]; intros e Hinv Hb Hex; [by apply Exists_nil in Hex|].
  destruct (batch_next e ev evs Hinv Hb) as (H & _ & Hnext). cbn [handle_events].
  apply Exists_cons in Hex as [(Hfd & Herr & Hacc)|Hex].
  { unfold handle_event. rewrite Herr, Hfd, !Z.eqb_refl. cbn [negb]. unfold on_accept.
    destruct (ev_accept ev); [done|]. rewrite Hacc. by eexists. }
  destruct (handle_event e ev) as [e1|msg|f]; [|by eexists|done].
  destruct H as (Hinv1 & Hlis & _). rewrite outcome_ret_bind. apply IH; [done|by apply Hnext|by rewrite Hlis].
Qed.

(** The connections with an event still to come have not been touched. *)
Lemma handled_in_same e evs ev e1 :
  epoll_inv e -> batch_ok e evs -> (ev, e1) ∈ handled_in e evs -> ev_fd ev <> e_listener e ->
  (ev_fd ev ∈ dom (l_socks (e_loop e))) /\ same_conn (e_loop e) (e_loop e1) (ev_fd ev).
Proof.
  revert e. induction evs as [|ev0 evs IH]; intros e Hinv Hb Hin Hne; [by apply not_elem_of_nil in Hin|].
  pose proof Hb as (_ & Hreg & _). rewrite Forall_forall in Hreg.
  assert (ev ∈ ev0 :: evs -> ev_fd ev ∈ dom (l_socks (e_loop e))) as Hopen.
  { intros Hev%Hreg. rewrite (inv_interest e Hinv) in Hev. by apply elem_of_union in Hev as [?%elem_of_singleton|]. }
  destruct (batch_next e ev0 evs Hinv Hb) as (H & Hnot & Hnext). cbn [handled_in] in Hin.
  apply elem_of_cons in Hin as [[= -> ->]|Hin]; [split; [apply Hopen, list_elem_of_here|done]|].
  destruct (handle_event e ev0) as [e2|msg|f]; [|by apply not_elem_of_nil in Hin..].
  destruct H as (Hinv2 & Hlis & _ & Hsame). assert (ev ∈ evs) as Hev by (by eapply handled_in_batch).
  assert (ev_fd ev ∈ dom (l_socks (e_loop e))) as Hd by (apply Hopen; by apply list_elem_of_further).
  split; [done|]. destruct (IH e2 Hinv2 (Hnext e2 eq_refl) Hin) as [_ Hs]; [by rewrite Hlis|].
  apply (same_conn_trans _ _ (e_loop e2)); [|exact Hs]. apply Hsame; [|done]. intros E. apply Hnot. rewrite <- E. by apply list_elem_of_fmap_2.
Qed.

Lemma ereach_inv e0 e : epoll_inv e0 -> ereach e0 e -> epoll_inv e /\ e_listener e = e_listener e0.
Proof.
  intros H0 Hr. induction Hr as [|e wait e' _ [IH Hlis] Hw Hs]; [done|].
  destruct wait as [errno|evs]; simpl in Hs, Hw.
  - destruct (errno =? EINTR); [|done]. by injection Hs as <-.
  - pose proof (handle_events_ok e evs IH Hw) as H.
    rewrite Hs in H. destruct H. split; [done|congruence].
Qed.

End Server.

Lemma epoll_main_inv argv1 a create ctl events pr e :
  epoll_main argv1 a create ctl events = Ret (pr, e) -> sigpipe_ignored pr = true /\ epoll_inv e.
Proof.
  unfold epoll_main. intros (t & Ht & H)%outcome_bind_inv.
  apply outcome_bind_inv in H as ([listener port] & _ & H). apply outcome_bind_inv in H as (_ & _ & H).
  apply peer_state_init_ok in Ht as [Ht _]; [|done]. destruct (create <? 0); [done|].
  apply outcome_bind_inv in H as (e1 & He & H). destruct events; [|done]. injection H as <- <-. split; [done|].
  unfold epoll_ctl_add in He. destruct (ctl && _); [|done]. injection He as <-.
  split; cbn [e_loop e_interest e_listener l_table l_socks].
  - done.
  - rewrite dom_empty. apply not_elem_of_empty.
  - by rewrite dom_insert_L, !dom_empty_L.
  - intros fd. rewrite dom_empty. by intros ?%not_elem_of_empty.
Qed.

(** ** Properties *)

(** C4 [epoll_serves]: whatever [epoll_wait] reports, batch after batch, and
    whatever [accept], [recv], [send] and [epoll_ctl] answer: no index leaves the
    peer table and no system call is made on a descriptor that was closed. Every
    event is handled on the connection it was reported for, which nothing earlier in
    the batch has closed, replaced or touched. The process ends only when
    [epoll_wait] fails or a call made for an event of the batch does: an error on the
    listening socket, an [accept] that fails with another errno than the four that
    are ignored, an [fcntl] on a new connection or an [epoll_ctl] that the kernel
    refuses; no byte and no reset of a peer is among the causes. Such an [accept]
    always ends it, so clients that use up the descriptors of the process do
    (EMFILE). The interest set is the listener and the open connections, each watched for input
    exactly when nothing is staged for it, and for output when something is; and on
    each of them what was sent and what is staged is '*' and the increment of the
    payload received. *)
Theorem epoll_serves (strerror : Z -> string) argv1 start create ctl events (pr : proc) (e0 e : epoll)
    (wait : Z + list event) :
  epoll_main argv1 start create ctl events = Ret (pr, e0) -> ereach strerror pr e0 e -> wait_ok strerror pr e wait ->
  match iterate strerror pr e wait with
  | Ret _ => True
  | Exit _ => match wait with inl errno => errno <> EINTR | inr evs => Exists (refused (e_listener e0)) evs end
  | Fault _ => False
  end /\
  (forall evs, wait = inr evs ->
    (Exists (accept_fails (e_listener e0)) evs -> exists msg, iterate strerror pr e wait = Exit msg) /\
    forall ev e1, (ev, e1) ∈ handled_in strerror pr e evs -> ev_fd ev <> e_listener e0 ->
      (ev_fd ev ∈ dom (l_socks (e_loop e))) /\ same_conn (e_loop e) (e_loop e1) (ev_fd ev)) /\
  dom (e_interest e) = {[e_listener e0]} ∪ dom (l_socks (e_loop e)) /\
  forall fd, fd ∈ dom (l_socks (e_loop e)) ->
    exists st s recvd pend fst pl,
      e_interest e !! fd = Some (status_events st) /\ st <> fd_status_NORW /\
      (want_read st = true -> pend = []) /\ (st = fd_status_W -> pend <> []) /\
      l_socks (e_loop e) !! fd = Some s /\
      l_input (e_loop e) !! fd = Some (recvd ++ rx_bytes (rx s)) /\
      peer_pending (l_table (e_loop e)) fd = Ret pend /\
      framed recvd fst pl /\ wire s ++ pend = STAR :: (incr <$> pl).
Proof.
  intros Hstart Hreach Hwait. destruct (epoll_main_inv _ _ _ _ _ _ _ Hstart) as [Hpr H0].
  destruct (ereach_inv strerror pr Hpr e0 e H0 Hreach) as [Hinv Hl]. split; [|split; [|split]].
  - destruct wait as [errno|evs]; simpl.
    + by destruct (Z.eqb_spec errno EINTR).
    + pose proof (handle_events_ok strerror pr Hpr e evs Hinv Hwait) as H. rewrite Hl in H.
      by destruct (handle_events strerror pr e evs).
  - intros evs ->. rewrite <- Hl. split; [by apply accept_failure_exits|].
    intros ev e1. by apply handled_in_same.
  - rewrite <- Hl. apply Hinv.
  - intros fd Hin. destruct (inv_conns e Hinv fd Hin) as (_ & st & Hci & Hne & Hint).
    destruct (conn_inv_protocol _ _ _ Hci) as (s & recvd & pend & fst & pl & H1 & H2 & H3 & H4 & H5 & H6 & H7).
    exists st, s, recvd, pend, fst, pl. repeat (split; [done|]). split; [intros Hr; by apply H6|]. done.
Qed.

(** Connection 5 arrives, is writable and sends "^a". *)
Definition demo_sock5 : sock := Sock [RxData [94; 97]] [TxSpace 1] [].
Definition demo_waits : list event :=
  [Event 3 EPOLLIN (Connection 5 demo_sock5 2 (fun _ => 0)) true;
   Event 5 EPOLLOUT (AcceptError EAGAIN) true; Event 5 EPOLLIN (AcceptError EAGAIN) true].

Definition demo_answers : start_answers := StartAnswers true (ListenAnswers 3 0 0 0) 2 (fun _ => 0).

Definition demo_start : outcome epoll :=
  '(_, e) ← epoll_main (Some (lit "8080")) demo_answers 4 true true; Ret e.

Lemma demo_start_main e0 :
  demo_start = Ret e0 -> epoll_main (Some (lit "8080")) demo_answers 4 true true = Ret (Proc true, e0).
Proof.
  unfold demo_start. intros ([pr e] & E & [= <-])%outcome_bind_inv. rewrite E. do 2 f_equal.
  unfold epoll_main in E. apply outcome_bind_inv in E as (t & _ & E). by injection E as <- _.
Qed.

(** [wait_ok] for one event, as a computation. *)
Definition demo_event_ok (e : epoll) (ev : event) : bool :=
  bool_decide (ev_fd ev ∈ dom (e_interest e)) &&
  match ev_accept ev with
  | Connection fd s _ _ =>
      bool_decide (0 <= fd < 2 ^ 31 /\ (fd ∉ dom (l_socks (e_loop e))) /\ fd <> e_listener e /\ wire s = [])
  | AcceptError _ => true
  end.

Fixpoint demo_run (o : outcome epoll) (evs : list event) : outcome epoll :=
  match evs with
  | [] => o
  | ev :: evs' =>
      demo_run (e ← o; if demo_event_ok e ev
                       then iterate (fun _ => "error"%string) (Proc true) e (inr [ev]) else Exit "no such event") evs'
  end.

Lemma demo_run_exit msg evs : demo_run (Exit msg) evs = Exit msg.
Proof. by induction evs. Qed.

Lemma demo_run_fault f evs : demo_run (Fault f) evs = Fault f.
Proof. by induction evs. Qed.

Lemma epoll_demo_run_reach e evs e' :
  demo_run (Ret e) evs = Ret e' -> ereach (fun _ => "error"%string) (Proc true) e e'.
Proof.
  intros Hr. assert (forall v, ereach (fun _ => "error"%string) (Proc true) v e ->
    ereach (fun _ => "error"%string) (Proc true) v e') as H; [|apply H; constructor].
  revert e Hr. induction evs as [|ev evs IH]; intros e Hr v Hv; [by injection Hr as <-|].
  cbn [demo_run] in Hr. rewrite outcome_ret_bind in Hr.
  destruct (demo_event_ok e ev) eqn:Hok; [|by rewrite demo_run_exit in Hr].
  destruct (iterate _ _ e (inr [ev])) as [e1|msg|f] eqn:E;
    [|by rewrite demo_run_exit in Hr|by rewrite demo_run_fault in Hr].
  apply (IH e1 Hr). eapply ereach_step; [exact Hv| |exact E].
  apply andb_true_iff in Hok as [Hreg%bool_decide_eq_true Hans].
  split; [apply NoDup_singleton|]. split; [by apply Forall_singleton|]. split; [|done].
  destruct (ev_accept ev); [by apply bool_decide_eq_true in Hans|done].
Qed.

Lemma demo_run_result :
  match demo_run demo_start demo_waits with
  | Ret e => bool_decide (5 ∈ dom (l_socks (e_loop e))) &&
      match l_socks (e_loop e) !! 5 with Some s => bool_decide (wire s = [42]) | None => false end &&
      bool_decide (e_interest e !! 5 = Some EPOLLOUT)
  | _ => false
  end = true.
Proof. vm_compute. reflexivity. Qed.

Lemma epoll_serves_witness :
  exists e0 e s pend fst pl recvd, demo_start = Ret e0 /\ demo_run (Ret e0) demo_waits = Ret e /\
    l_socks (e_loop e) !! 5 = Some s /\ wire s = [42] /\
    framed recvd fst pl /\ wire s ++ pend = STAR :: (incr <$> pl) /\ pend <> [].
Proof.
  pose proof demo_run_result as Hres. destruct demo_start as [e0|msg|f] eqn:E0;
    [|rewrite demo_run_exit in Hres; discriminate Hres|rewrite demo_run_fault in Hres; discriminate Hres].
  destruct (demo_run (Ret e0) demo_waits) as [e|msg|f] eqn:Er; [|discriminate Hres..].
  apply andb_true_iff in Hres as [Hres Hint%bool_decide_eq_true].
  apply andb_true_iff in Hres as [Hin%bool_decide_eq_true Hs].
  destruct (epoll_serves (fun _ => "error"%string) (Some (lit "8080")) demo_answers 4 true true (Proc true) e0 e
    (inl EINTR) (demo_start_main e0 E0)
    (epoll_demo_run_reach _ _ _ Er) I) as (_ & _ & _ & Hconn).
  destruct (Hconn 5 Hin) as (st & s & recvd & pend & fst & pl & H1 & H2 & H3 & H4 & H5 & H6 & H7 & H8 & H9).
  exists e0, e, s, pend, fst, pl, recvd. rewrite H5 in Hs. apply bool_decide_eq_true in Hs.
  split; [reflexivity|]. split; [exact Er|]. split; [exact H5|]. split; [exact Hs|].
  split; [exact H8|]. split; [exact H9|]. apply H4. rewrite Hint in H1.
  destruct st as [[|] [|]]; try done.
Defined.
