(* ===== verification/UringServer.v ===== *)
(** * The io_uring server (src/src/uring_server.c)

    - [pack], [unpack_op], [unpack_fd]: the 64 bits of user data of a submission;
    - [get_sqe], [queue_accept], [queue_recv], [queue_send], [arm_next] and
      [handle_cqe], the body of [main]'s completion loop;
    - [complete]: the kernel finishes one operation in flight, with any result it
      may have, and the server handles the completion.

    liburing is a parameter: a type of rings with [io_uring_get_sqe], which takes a
    free submission slot or finds none, and [io_uring_submit]. What has been
    prepared and not completed is [u_pending]; the kernel may complete its members
    in any order. The server's theorem is proved against the abstract peer of
    PeerState.v. *)

From S2P Require Import Prelude Framing CString Posix Utils Protocol PeerState.
Local Open Scope Z_scope.

Definition MAXFDS : Z := 16 * 1024.
Definition IOBUF_SIZE : Z := 1024.
Definition DEFAULT_QUEUE_DEPTH : Z := 256.

Definition OP_ACCEPT : Z := 1.
Definition OP_RECV : Z := 2.
Definition OP_SEND : Z := 3.

Definition pack (op fd : Z) : Z := Z.lor (u64 (Z.shiftl (u64 op) 32)) (u32 fd).
Definition unpack_op (data : Z) : Z := u32 (Z.shiftr data 32).
Definition unpack_fd (data : Z) : Z := s32 (u32 data).

#[global] Arguments pack : simpl never.
#[global] Arguments unpack_op : simpl never.
#[global] Arguments unpack_fd : simpl never.

(** The command line: the port and the depth of the submission queue. *)
Definition main_args (args : list (list Z)) : outcome (Z * Z) :=
  let portnum := port_argument 9090 (args !! 0%nat) in
  let queue_depth := match args !! 1%nat with Some a => u32 (atoi a) | None => DEFAULT_QUEUE_DEPTH end in
  if queue_depth <? 8 then Exit "queue_depth must be at least 8" else Ret (portnum, queue_depth).

(** What a submission asks for. [PrepRecv fd len] writes, [PrepSend fd len] reads
    the first [len] bytes of [iobufs[fd]]. *)
Inductive prep := PrepAccept (fd : Z) | PrepRecv (fd len : Z) | PrepSend (fd len : Z).
Record sqe := Sqe { sqe_prep : prep; sqe_data : Z }.

Definition sqe_fd (s : sqe) : Z :=
  match sqe_prep s with PrepAccept fd | PrepRecv fd _ | PrepSend fd _ => fd end.

Section Server.
Context {ring : Type} (io_uring_get_sqe : ring -> option ring) (io_uring_submit : ring -> ring).
Context (strerror : Z -> string).

(** [u_open]: the connections the process holds; [u_hist]: what each of them has
    received and been sent so far. *)
Record uring := Uring {
  u_ring : ring;
  u_table : peer_table;
  u_iobufs : list (list Z);
  u_listener : Z;
  u_pending : list sqe;
  u_open : gset Z;
  u_hist : gmap Z (list Z * list Z)
}.

Definition set_ring (u : uring) (r : ring) : uring :=
  Uring r (u_table u) (u_iobufs u) (u_listener u) (u_pending u) (u_open u) (u_hist u).
Definition set_table (u : uring) (t : peer_table) : uring :=
  Uring (u_ring u) t (u_iobufs u) (u_listener u) (u_pending u) (u_open u) (u_hist u).
Definition set_iobufs (u : uring) (b : list (list Z)) : uring :=
  Uring (u_ring u) (u_table u) b (u_listener u) (u_pending u) (u_open u) (u_hist u).
Definition set_open (u : uring) (o : gset Z) : uring :=
  Uring (u_ring u) (u_table u) (u_iobufs u) (u_listener u) (u_pending u) o (u_hist u).
Definition set_pending (u : uring) (l : list sqe) : uring :=
  Uring (u_ring u) (u_table u) (u_iobufs u) (u_listener u) l (u_open u) (u_hist u).
Definition set_hist (u : uring) (fd : Z) (h : list Z * list Z) : uring :=
  Uring (u_ring u) (u_table u) (u_iobufs u) (u_listener u) (u_pending u) (u_open u)
    (<[fd := h]> (u_hist u)).

Definition get_sqe (r : ring) : outcome ring :=
  match io_uring_get_sqe r with
  | Some r => Ret r
  | None =>
      match io_uring_get_sqe (io_uring_submit r) with
      | Some r => Ret r
      | None => Exit "submission queue exhausted, raise the queue depth"
      end
  end.

(** A slot is taken and filled in. *)
Definition submit_sqe (u : uring) (s : sqe) : outcome uring :=
  r ← get_sqe (u_ring u);
  Ret (Uring r (u_table u) (u_iobufs u) (u_listener u) (u_pending u ++ [s]) (u_open u) (u_hist u)).

Definition queue_accept (u : uring) : outcome uring :=
  submit_sqe u (Sqe (PrepAccept (u_listener u)) (pack OP_ACCEPT (u_listener u))).

Definition queue_recv (u : uring) (fd : Z) : outcome uring :=
  room ← peer_recv_room (u_table u) fd;
  let room := if IOBUF_SIZE <? room then IOBUF_SIZE else room in
  submit_sqe u (Sqe (PrepRecv fd room) (pack OP_RECV fd)).

Definition queue_send (u : uring) (fd : Z) : outcome uring :=
  out ← peer_pending (u_table u) fd;
  let len := Z.of_nat (length out) in
  if len =? 0 then queue_recv u fd
  else
    let len := if IOBUF_SIZE <? len then IOBUF_SIZE else len in
    buf ← buf_get (u_iobufs u) fd;
    buf ← buf_blit buf 0 (slice out 0 len);
    bufs ← buf_set (u_iobufs u) fd buf;
    submit_sqe (set_iobufs u bufs) (Sqe (PrepSend fd len) (pack OP_SEND fd)).

Definition close (u : uring) (fd : Z) : outcome uring :=
  if decide (fd ∈ u_open u) then Ret (set_open u (u_open u ∖ {[fd]})) else Fault BadDescriptor.

Definition arm_next (u : uring) (fd : Z) (status : fd_status_t) : outcome uring :=
  if negb (want_read status) && negb (want_write status) then
    _ ← peer_close_reason (u_table u) fd;
    close u fd
  else if want_write status then queue_send u fd
  else queue_recv u fd.

(** [arm_next(&ring, fd, f(fd, ...))] for a function of peer_state.c. *)
Definition arm_with (u : uring) (fd : Z) (r : outcome (fd_status_t * peer_table)) : outcome uring :=
  '(status, t) ← r;
  arm_next (set_table u t) fd status.

(** The body of [io_uring_for_each_cqe]. *)
Definition handle_cqe (u : uring) (data res : Z) : outcome uring :=
  let fd := unpack_fd data in
  let op := unpack_op data in
  if op =? OP_ACCEPT then
    u ← queue_accept u;
    if res <? 0 then Ret u
    else if negb (peer_fd_in_range (u_table u) res) then close u res
    else arm_with u res (peer_on_connected (u_table u) res)
  else if op =? OP_RECV then
    if res <? 0 then
      if (res =? - EINTR) || (res =? - EAGAIN) then queue_recv u fd
      else arm_with u fd (peer_fail (u_table u) fd (strerror (- res)))
    else if res =? 0 then arm_with u fd (peer_fail (u_table u) fd "peer closed")
    else
      buf ← buf_get (u_iobufs u) fd;
      arm_with u fd (peer_consume (u_table u) fd buf res)
  else if op =? OP_SEND then
    if res <? 0 then
      if (res =? - EINTR) || (res =? - EAGAIN) then queue_send u fd
      else arm_with u fd (peer_fail (u_table u) fd (strerror (- res)))
    else arm_with u fd (peer_sent (u_table u) fd res)
  else Ret u.

(** ** The kernel *)

(** What the kernel may answer: a descriptor nobody holds, as many bytes as were
    asked for or fewer, or a negated errno. [bytes] is what a receive delivers. *)
Definition answer_ok (u : uring) (s : sqe) (res : Z) (bytes : list Z) : bool :=
  bool_decide (- 2 ^ 31 <= res < 2 ^ 31) &&
  ((res <? 0) ||
   match sqe_prep s with
   | PrepAccept _ => bool_decide ((res ∉ u_open u) /\ res <> u_listener u)
   | PrepRecv _ len => (res <=? len) && (Z.of_nat (length bytes) =? res)
   | PrepSend _ len => res <=? len
   end).

(** The effect of the operation itself. *)
Definition kernel_effect (u : uring) (s : sqe) (res : Z) (bytes : list Z) : outcome uring :=
  if res <? 0 then Ret u
  else
    match sqe_prep s with
    | PrepAccept _ => Ret (set_hist (set_open u ({[res]} ∪ u_open u)) res ([], []))
    | PrepRecv fd _ =>
        buf ← buf_get (u_iobufs u) fd;
        buf ← buf_blit buf 0 bytes;
        bufs ← buf_set (u_iobufs u) fd buf;
        let '(recvd, sent) := default ([], []) (u_hist u !! fd) in
        Ret (set_hist (set_iobufs u bufs) fd (recvd ++ bytes, sent))
    | PrepSend fd _ =>
        buf ← buf_get (u_iobufs u) fd;
        let '(recvd, sent) := default ([], []) (u_hist u !! fd) in
        Ret (set_hist u fd (recvd, sent ++ slice buf 0 res))
    end.

(** The [i]-th operation in flight completes. [None]: no such answer. *)
Definition complete (u : uring) (i : nat) (res : Z) (bytes : list Z) : option (outcome uring) :=
  match u_pending u !! i with
  | None => None
  | Some s =>
      if answer_ok u s res bytes then Some (
        u ← kernel_effect (set_pending u (delete i (u_pending u))) s res bytes;
        handle_cqe u (sqe_data s) res)
      else None
  end.

(** What the system answers while [main] starts: the allocations of the peer table and
    of the I/O buffers, which come zeroed, [io_uring_queue_init] for a queue depth
    with the ring it fills in, and the listener. *)
Record uring_answers := UringAnswers {
  ua_table : bool; ua_iobufs : bool; ua_queue_init : Z -> Z * ring; ua_listen : listen_answers
}.

(** [main] up to its loop. *)
Definition uring_main (args : list (list Z)) (a : uring_answers) : outcome (proc * uring) :=
  let pr := ignore_sigpipe proc_start in
  '(portnum, queue_depth) ← main_args args;
  t ← peer_state_init (ua_table a) MAXFDS;
  if ua_iobufs a then
    let '(rc, r) := ua_queue_init a queue_depth in
    if rc <? 0 then Exit "io_uring_queue_init failed"
    else
      '(listener, _) ← listen_inet_socket portnum (ua_listen a);
      u ← queue_accept (Uring r t (replicate (Z.to_nat MAXFDS) (replicate 1024 0)) listener [] ∅ ∅);
      Ret (pr, u)
  else Exit "could not allocate the per-descriptor I/O buffers".

(** The top of the loop: the submission, and what [io_uring_wait_cqe] returns. *)
Definition wait_cqe (u : uring) (rc : Z) : outcome uring :=
  let u := set_ring u (io_uring_submit (u_ring u)) in
  if (rc <? 0) && negb (rc =? - EINTR) then Exit "io_uring_wait_cqe failed" else Ret u.

(** An iteration submits, waits and handles completions; the kernel may complete
    further operations while it does. *)
Inductive ureach (u0 : uring) : uring -> Prop :=
| ureach_start : ureach u0 u0
| ureach_wait u rc u' : ureach u0 u -> wait_cqe u rc = Ret u' -> ureach u0 u'
| ureach_step u i res bytes u' :
    ureach u0 u -> complete u i res bytes = Some (Ret u') -> ureach u0 u'.
End Server.
Arguments uring : clear implicits.
Arguments uring_answers : clear implicits.
Arguments UringAnswers {ring} _ _ _ _.

(** ** User data *)

Lemma lor_halves a b : 0 <= b < 2 ^ 32 -> Z.lor (Z.shiftl a 32) b = a * 2 ^ 32 + b.
Proof.
  intros Hb. rewrite <- Z.shiftl_mul_pow2 by lia. rewrite <- Z.add_lor_land.
  replace (Z.land (Z.shiftl a 32) b) with 0; [lia|].
  symmetry. apply Z.bits_inj'. intros n Hn. rewrite Z.land_spec, Z.bits_0.
  destruct (Z.lt_ge_cases n 32).
  - by rewrite Z.shiftl_spec_low.
  - rewrite <- (Z.mod_small b (2 ^ 32)) by lia.
    by rewrite Z.mod_pow2_bits_high, andb_false_r by lia.
Qed.

Lemma pack_value op fd : 0 <= op < 2 ^ 32 -> pack op fd = op * 2 ^ 32 + u32 fd.
Proof.
  intros Hop. unfold pack. rewrite (u64_small op) by lia.
  rewrite (u64_small (Z.shiftl op 32)) by (rewrite Z.shiftl_mul_pow2; lia). apply lor_halves. wrap_lia.
Qed.

Lemma unpack_pack op fd :
  0 <= op < 2 ^ 32 -> - 2 ^ 31 <= fd < 2 ^ 31 ->
  unpack_op (pack op fd) = op /\ unpack_fd (pack op fd) = fd.
Proof.
  intros Hop Hfd. unfold unpack_op, unpack_fd. rewrite (pack_value op fd Hop).
  rewrite Z.shiftr_div_pow2 by lia. wrap_lia.
Qed.

(** ** Invariant: one operation in flight per connection *)

Section Invariant.
Context {ring : Type} (io_uring_get_sqe : ring -> option ring) (io_uring_submit : ring -> ring).
Context (strerror : Z -> string).
Implicit Types (u : uring ring) (s : sqe) (fd : Z).

(** The connection on [fd] keeps the protocol, and [p] is its slot. *)
Record conn_ok (t : peer_table) (hist : gmap Z (list Z * list Z)) fd (p : peer_state_t) : Prop := {
  conn_slot : slot t fd p;
  conn_peer : peer_ok p;
  conn_hist : exists recvd sent, hist !! fd = Some (recvd, sent) /\ history (abs p) recvd sent
}.

Definition sqe_ok u s : Prop :=
  match sqe_prep s with
  | PrepAccept fd => fd = u_listener u /\ sqe_data s = pack OP_ACCEPT fd
  | PrepRecv fd len =>
      fd <> u_listener u /\ sqe_data s = pack OP_RECV fd /\ len = IOBUF_SIZE /\
      exists p, conn_ok (u_table u) (u_hist u) fd p /\ state p <> INITIAL_ACK /\ staged p = []
  | PrepSend fd len =>
      fd <> u_listener u /\ sqe_data s = pack OP_SEND fd /\
      exists p buf, conn_ok (u_table u) (u_hist u) fd p /\ staged p <> [] /\
        len = Z.of_nat (length (staged p)) /\
        u_iobufs u !! Z.to_nat fd = Some buf /\ slice buf 0 len = staged p
  end.

Record buffers_ok u : Prop := {
  bufs_table : table_ok (u_table u);
  bufs_count : Z.of_nat (length (u_iobufs u)) = peer_capacity (u_table u);
  bufs_size : Forall (fun b => length b = 1024%nat) (u_iobufs u)
}.

(** [busy]: the descriptors whose completion is being handled. *)
Record uring_inv (busy : gset Z) u : Prop := {
  inv_bufs : buffers_ok u;
  inv_cap : 0 <= peer_capacity (u_table u) <= 2 ^ 31;
  inv_listener : (u_listener u ∉ u_open u) /\ - 2 ^ 31 <= u_listener u < 2 ^ 31;
  inv_open : forall fd, fd ∈ u_open u -> 0 <= fd < peer_capacity (u_table u) \/ fd ∈ busy;
  inv_nodup : NoDup (sqe_fd <$> u_pending u);
  inv_flight : forall fd, fd ∈ sqe_fd <$> u_pending u <->
    (fd = u_listener u \/ fd ∈ u_open u) /\ (fd ∉ busy);
  inv_sqes : Forall (sqe_ok u) (u_pending u)
}.

(** States that differ at most in what concerns [fd]. *)
Record same_but fd u u' : Prop := {
  same_cap : peer_capacity (u_table u') = peer_capacity (u_table u);
  same_slots : forall f, f <> fd -> 0 <= f -> peers (u_table u') !! Z.to_nat f = peers (u_table u) !! Z.to_nat f;
  same_bufs : forall f, f <> fd -> 0 <= f -> u_iobufs u' !! Z.to_nat f = u_iobufs u !! Z.to_nat f;
  same_hist : forall f, f <> fd -> u_hist u' !! f = u_hist u !! f;
  same_listener : u_listener u' = u_listener u
}.

Lemma conn_ok_frame u u' fd f p :
  same_but fd u u' -> f <> fd -> conn_ok (u_table u) (u_hist u) f p ->
  conn_ok (u_table u') (u_hist u') f p.
Proof.
  intros [_ Hs _ Hh _] Hne [[Hf Hp] Hok Hist]. split; [|done|by rewrite Hh].
  split; [done|]. by rewrite Hs.
Qed.

Lemma sqe_ok_frame u u' fd s : same_but fd u u' -> sqe_fd s <> fd -> sqe_ok u s -> sqe_ok u' s.
Proof.
  intros Hsame Hne Hs. unfold sqe_ok, sqe_fd in *. destruct (sqe_prep s) as [f|f len|f len].
  - by rewrite (same_listener _ _ _ Hsame).
  - destruct Hs as (Hn & Hd & Hl & p & Hc & Hp). rewrite (same_listener _ _ _ Hsame).
    repeat (split; [done|]). exists p.
    split; [by eapply conn_ok_frame|done].
  - destruct Hs as (Hn & Hd & p & buf & Hc & Hst & Hl & Hb & Hsl).
    rewrite (same_listener _ _ _ Hsame). repeat (split; [done|]). exists p, buf.
    split; [by eapply conn_ok_frame|]. repeat (split; [done|]). split; [|done].
    rewrite (same_bufs _ _ _ Hsame); [done|done|]. apply (conn_slot _ _ _ _ Hc).
Qed.

Lemma sqes_frame u u' fd l :
  same_but fd u u' -> fd ∉ sqe_fd <$> l -> Forall (sqe_ok u) l -> Forall (sqe_ok u') l.
Proof.
  intros Hsame Hout Hl. rewrite Forall_forall in *. intros s Hs.
  apply (sqe_ok_frame u u' fd); [done| |by apply Hl].
  intros <-. apply Hout. by apply list_elem_of_fmap_2.
Qed.

(** Handing the next operation of [fd] to the kernel. *)
Lemma submit_sqe_ok busy u fd s u' :
  uring_inv busy u -> fd ∈ busy -> fd = u_listener u \/ (fd ∈ u_open u) /\ 0 <= fd < peer_capacity (u_table u) ->
  sqe_fd s = fd -> sqe_ok u s ->
  submit_sqe io_uring_get_sqe io_uring_submit u s = Ret u' -> uring_inv (busy ∖ {[fd]}) u'.
Proof.
  intros [Hb Hcap Hl Ho Hn Hf Hs] Hbusy Hin Hfd Hok H. unfold submit_sqe in H.
  apply outcome_bind_inv in H as (r & _ & [= <-]). split; simpl; try done.
  - by destruct Hb.
  - intros f Hf'. destruct (Ho f Hf') as [|]; [by left|].
    destruct (decide (f = fd)) as [->|]; [|right; by apply elem_of_difference; rewrite elem_of_singleton].
    left. destruct Hin as [->|[_ ?]]; [by destruct Hl|done].
  - rewrite fmap_app. simpl. rewrite Hfd. apply NoDup_app. split; [done|]. split; [|apply NoDup_singleton].
    intros x Hx ->%list_elem_of_singleton. apply Hf in Hx as [_ Hx]. done.
  - intros f. rewrite fmap_app, elem_of_app. simpl.
    rewrite Hfd, list_elem_of_singleton, Hf, elem_of_difference, elem_of_singleton. split.
    + intros [[? ?]| ->]; (split; [|tauto]); [done|].
      destruct Hin as [?|[? _]]; [by left|by right].
    + intros [? Hnot]. destruct (decide (f = fd)); [by right|left]. split; [done|]. intros ?. by apply Hnot.
  - apply Forall_app. split; [done|]. by apply Forall_singleton.
Qed.

Lemma submit_sqe_no_fault u s f :
  submit_sqe io_uring_get_sqe io_uring_submit u s <> Fault f.
Proof.
  unfold submit_sqe, get_sqe. destruct (io_uring_get_sqe (u_ring u)); [done|].
  by destruct (io_uring_get_sqe _).
Qed.

Lemma inv_frame u u' fd :
  uring_inv {[fd]} u -> same_but fd u u' -> u_pending u' = u_pending u -> u_open u' = u_open u ->
  buffers_ok u' -> uring_inv {[fd]} u'.
Proof.
  intros [Hb Hcap Hl Ho Hn Hf Hs] Hsame Hpd Hop Hb'. pose proof Hsame as [Hc _ _ _ Hli].
  split; rewrite ?Hpd, ?Hop, ?Hli, ?Hc; try done.
  apply (sqes_frame u u' fd); [done| |done]. intros Hin. apply Hf in Hin as [_ Hin].
  apply Hin. by apply elem_of_singleton.
Qed.

(** What handling a completion must come to. *)
Definition good (o : outcome (uring ring)) : Prop :=
  match o with Ret u => uring_inv ∅ u | Exit _ => True | Fault _ => False end.

Lemma submit_sqe_good u fd s :
  uring_inv {[fd]} u -> fd ∈ u_open u -> 0 <= fd < peer_capacity (u_table u) ->
  sqe_fd s = fd -> sqe_ok u s -> good (submit_sqe io_uring_get_sqe io_uring_submit u s).
Proof.
  intros Hi Ho Hr Hfd Hok.
  destruct (submit_sqe io_uring_get_sqe io_uring_submit u s) eqn:E; [|done|].
  - simpl. replace (∅ : gset Z) with ({[fd]} ∖ {[fd]} : gset Z) by (apply leibniz_equiv, difference_diag).
    eapply submit_sqe_ok; try done; [by apply elem_of_singleton|by right].
  - by apply submit_sqe_no_fault in E.
Qed.

Section Connection.
Context (u : uring ring) (fd : Z) (p : peer_state_t).
Hypothesis (Hinv : uring_inv {[fd]} u) (Hopen : fd ∈ u_open u)
  (Hrange : 0 <= fd < peer_capacity (u_table u)) (Hconn : conn_ok (u_table u) (u_hist u) fd p).

Lemma not_listener : fd <> u_listener u.
Proof. intros E. destruct (inv_listener _ _ Hinv) as [Hl _]. apply Hl. by rewrite <- E. Qed.

Lemma queue_recv_good :
  staged p = [] -> state p <> INITIAL_ACK -> good (queue_recv io_uring_get_sqe io_uring_submit u fd).
Proof.
  intros Hst Hna. pose proof Hconn as [Hs Hok _]. unfold queue_recv.
  rewrite (peer_recv_room_refines _ _ _ Hs Hok), outcome_ret_bind.
  unfold a_room. rewrite bool_decide_eq_true_2 by done.
  apply (submit_sqe_good u fd); try done. simpl. split; [apply not_listener|].
  split; [done|]. split; [done|]. by exists p.
Qed.

Lemma queue_send_good :
  staged p <> [] -> good (queue_send io_uring_get_sqe io_uring_submit u fd).
Proof.
  intros Hst. pose proof Hconn as [Hs Hok _]. pose proof (staged_length p Hok) as Hlen.
  pose proof (ok_end p Hok). pose proof (ok_ptr p Hok). unfold SENDBUF_SIZE in *.
  destruct (inv_bufs _ _ Hinv) as [Ht Hc Hz]. unfold queue_send.
  rewrite (peer_pending_refines _ _ _ Hs Hok), outcome_ret_bind. simpl a_out.
  destruct (Z.eqb_spec (Z.of_nat (length (staged p))) 0) as [E|E]; [by destruct (staged p)|].
  destruct (Z.ltb_spec IOBUF_SIZE (Z.of_nat (length (staged p)))) as [E'|E']; [unfold IOBUF_SIZE in E'; lia|].
  destruct (buf_get_lt (u_iobufs u) fd) as (buf & Hbuf & ->); [lia|]. rewrite outcome_ret_bind.
  assert (slice (staged p) 0 (Z.of_nat (length (staged p))) = staged p) as ->.
  { unfold slice. rewrite drop_0, take_ge; [done|lia]. }
  pose proof (Forall_lookup_1 _ _ _ _ Hz Hbuf) as Hsz. cbv beta in Hsz.
  rewrite buf_blit_0 by lia. rewrite outcome_ret_bind, buf_set_ok, outcome_ret_bind by lia.
  set (buf' := staged p ++ _). set (u1 := set_iobufs u _).
  assert (length buf' = 1024%nat) as Hsz' by (subst buf'; rewrite length_app, length_drop; lia).
  apply (submit_sqe_good u1 fd); try done.
  - apply (inv_frame u); try done.
    + split; simpl; try done. intros f ? ?. apply list_lookup_insert_ne. lia.
    + split; simpl; try done; [by rewrite length_insert|by apply Forall_insert].
  - simpl. split; [apply not_listener|]. split; [done|]. exists p, buf'. repeat (split; [done|]). split.
    + apply list_lookup_insert_eq. lia.
    + subst buf'. unfold slice. rewrite drop_0, Nat2Z.id. by rewrite take_app_length.
Qed.

Lemma close_good : good (close u fd).
Proof.
  unfold close. rewrite decide_True by done. destruct Hinv as [Hb Hcap [Hl Hl'] Ho Hn Hf Hs].
  split; simpl; try done.
  - by destruct Hb.
  - split; [by intros [? _]%elem_of_difference|done].
  - intros f Hf'. apply elem_of_difference in Hf' as [Hf' Hne].
    destruct (Ho f Hf') as [|?]; [by left|done].
  - intros f. rewrite Hf, elem_of_difference, elem_of_singleton. split.
    + intros [[->|?] Hne]; (split; [|apply not_elem_of_empty]); [by left|by right].
    + intros [[->|[? ?]] _]; (split; [by auto|]); [|done].
      intros E. apply Hl. by rewrite E.
Qed.

Lemma arm_next_good st :
  status_ok st (abs p) -> st = fd_status_R \/ st = fd_status_W \/ st = fd_status_NORW ->
  good (arm_next io_uring_get_sqe io_uring_submit u fd st).
Proof.
  intros [Hr Hw] [->|[->| ->]]; unfold arm_next; simpl.
  - destruct (Hr eq_refl). by apply queue_recv_good.
  - apply queue_send_good. by apply Hw.
  - unfold peer_close_reason. pose proof Hconn as [Hs _ _].
    rewrite (slot_get _ _ _ Hs). destruct (negb _); [apply close_good|].
    rewrite outcome_ret_bind. destruct (close_reason p); rewrite outcome_ret_bind; apply close_good.
Qed.
End Connection.

(** A function of peer_state.c has run on [fd], then [arm_next]. *)
Lemma arm_with_good u fd p st p' r :
  uring_inv {[fd]} u -> fd ∈ u_open u -> 0 <= fd < peer_capacity (u_table u) ->
  slot (u_table u) fd p -> peer_ok p' -> status_ok st (abs p') ->
  st = fd_status_R \/ st = fd_status_W \/ st = fd_status_NORW ->
  (exists recvd sent, u_hist u !! fd = Some (recvd, sent) /\ history (abs p') recvd sent) ->
  r = Ret (st, upd (u_table u) fd p') ->
  good (arm_with io_uring_get_sqe io_uring_submit u fd r).
Proof.
  intros Hinv Hopen Hr Hs Hok Hst Hkind Hh ->. unfold arm_with. rewrite outcome_ret_bind.
  pose proof (inv_bufs _ _ Hinv) as [Ht Hc Hz].
  apply (arm_next_good _ fd p'); try done.
  - apply (inv_frame u); try done.
    + split; try done. intros f ? ?. apply upd_others; [lia|done|done].
    + split; try done. apply upd_table_ok; [done|apply Hok].
  - split; [by eapply slot_upd|done|done].
Qed.

Lemma a_consume_kind a bs : Z.of_nat (length bs) <= a_room a ->
  (a_consume a bs).1 = fd_status_R \/ (a_consume a bs).1 = fd_status_W \/ (a_consume a bs).1 = fd_status_NORW.
Proof.
  intros Hb. unfold a_consume. rewrite (proj2 (Z.ltb_ge _ _)) by lia.
  case_bool_decide; [by left|]. simpl. case_bool_decide; [by left|by right; left].
Qed.

Lemma a_sent_kind a n :
  (a_sent a n).1 = fd_status_R \/ (a_sent a n).1 = fd_status_W \/ (a_sent a n).1 = fd_status_NORW.
Proof. unfold a_sent. destruct (drop _ _); [by left|by right; left]. Qed.

(** The completion of [s] has been taken off the list of operations in flight. *)
Lemma inv_complete u i s :
  uring_inv ∅ u -> u_pending u !! i = Some s ->
  uring_inv {[sqe_fd s]} (set_pending u (delete i (u_pending u))) /\ sqe_ok u s.
Proof.
  intros [Hb Hcap Hl Ho Hn Hf Hs] Hi. pose proof (Forall_lookup_1 _ _ _ _ Hs Hi) as Hok.
  split; [|done]. pose proof (delete_Permutation _ _ _ Hi) as Hp.
  rewrite Hp, fmap_cons in Hn. apply NoDup_cons in Hn as [Hnot Hn]. split; simpl; try done.
  - by destruct Hb.
  - intros f Hf'. left. destruct (Ho f Hf') as [|[]%not_elem_of_empty]; done.
  - intros f. specialize (Hf f). rewrite Hp, fmap_cons, elem_of_cons in Hf.
    pose proof (not_elem_of_empty (C := gset Z) f). rewrite elem_of_singleton. split.
    + intros Hin. split; [by apply Hf; right|]. intros ->. done.
    + intros [Hor Hne]. destruct (proj2 Hf) as [?|?]; done.
  - rewrite Hp in Hs. by apply Forall_cons in Hs as [_ Hs].
Qed.

Lemma inv_fd_open u i s :
  uring_inv ∅ u -> u_pending u !! i = Some s -> sqe_fd s <> u_listener u ->
  (sqe_fd s ∈ u_open u) /\ 0 <= sqe_fd s < peer_capacity (u_table u) /\ sqe_fd s < 2 ^ 31.
Proof.
  intros Hinv Hi Hne. assert (sqe_fd s ∈ sqe_fd <$> u_pending u) as Hin.
  { apply list_elem_of_fmap_2. by eapply list_elem_of_lookup_2. }
  apply (inv_flight _ _ Hinv) in Hin as [[?|Ho] _]; [done|].
  destruct (inv_open _ _ Hinv _ Ho) as [?|[]%not_elem_of_empty].
  pose proof (inv_cap _ _ Hinv). split; [done|]. lia.
Qed.

(** A received buffer is where the server will read it, and nowhere else. *)
Lemma recv_effect u fd len data recvd sent res bytes :
  uring_inv {[fd]} u -> 0 <= fd < peer_capacity (u_table u) -> u_hist u !! fd = Some (recvd, sent) ->
  0 <= res <= 1024 -> Z.of_nat (length bytes) = res ->
  exists u' buf, kernel_effect u (Sqe (PrepRecv fd len) data) res bytes = Ret u' /\
    uring_inv {[fd]} u' /\ u_open u' = u_open u /\ u_table u' = u_table u /\
    buf_get (u_iobufs u') fd = Ret buf /\ length buf = 1024%nat /\ slice buf 0 res = bytes /\
    u_hist u' !! fd = Some (recvd ++ bytes, sent).
Proof.
  intros Hinv Hr Hh Hres Hlen. destruct (inv_bufs _ _ Hinv) as [Ht Hc Hz].
  unfold kernel_effect. rewrite (proj2 (Z.ltb_ge _ _)) by lia. simpl.
  destruct (buf_get_lt (u_iobufs u) fd) as (buf & Hbuf & ->); [lia|]. rewrite outcome_ret_bind.
  pose proof (Forall_lookup_1 _ _ _ _ Hz Hbuf) as Hsz. cbv beta in Hsz.
  rewrite buf_blit_0 by lia. rewrite outcome_ret_bind, buf_set_ok, outcome_ret_bind by lia.
  rewrite Hh. simpl. set (buf' := bytes ++ _).
  assert (length buf' = 1024%nat) as Hsz' by (subst buf'; rewrite length_app, length_drop; lia).
  eexists _, buf'. split; [done|]. split; [|split; [done|split; [done|split; [|split; [done|split]]]]].
  - apply (inv_frame u); try done.
    + split; simpl; try done; intros f ?; [intros ?; apply list_lookup_insert_ne; lia|].
      by apply lookup_insert_ne.
    + split; simpl; try done; [by rewrite length_insert|by apply Forall_insert].
  - apply buf_get_ok; [lia|]. apply list_lookup_insert_eq. lia.
  - subst buf' res. unfold slice. by rewrite drop_0, Nat2Z.id, take_app_length.
  - apply lookup_insert_eq.
Qed.

Lemma fail_good u fd p reason :
  uring_inv {[fd]} u -> fd ∈ u_open u -> 0 <= fd < peer_capacity (u_table u) ->
  conn_ok (u_table u) (u_hist u) fd p ->
  good (arm_with io_uring_get_sqe io_uring_submit u fd (peer_fail (u_table u) fd reason)).
Proof.
  intros Hinv Ho Hr [Hs Hok (recvd & sent & Hh & Hist)].
  destruct (peer_fail_refines _ _ _ reason Hs Hok) as (p' & Hf & Hok' & Ha).
  eapply (arm_with_good u fd p); try done; [by rewrite Ha; apply status_ok_closed|by right; right|].
  exists recvd, sent. split; [done|]. rewrite Ha. by apply history_close.
Qed.

Lemma complete_recv u i fd len data res bytes :
  uring_inv ∅ u -> u_pending u !! i = Some (Sqe (PrepRecv fd len) data) ->
  answer_ok u (Sqe (PrepRecv fd len) data) res bytes = true ->
  good (u ← kernel_effect (set_pending u (delete i (u_pending u))) (Sqe (PrepRecv fd len) data) res bytes;
        handle_cqe io_uring_get_sqe io_uring_submit strerror u data res).
Proof.
  intros Hinv Hi Ha. destruct (inv_complete u i _ Hinv Hi) as [Hinv1 Hok].
  destruct Hok as (Hne & Hd & Hlen & p & Hc & Hna & Hst). simpl in Hd. subst data len.
  destruct (inv_fd_open u i _ Hinv Hi Hne) as (Ho & Hr & Hfd). unfold sqe_fd in Ho, Hr, Hfd, Hinv1. cbn [sqe_prep] in Ho, Hr, Hfd, Hinv1.
  set (u1 := set_pending u (delete i (u_pending u))) in *.
  destruct (unpack_pack OP_RECV fd) as [Hop Hfd']; [done|lia|].
  unfold answer_ok in Ha. simpl in Ha. apply andb_true_iff in Ha as [_ Ha].
  destruct (Z.ltb_spec res 0) as [Hneg|Hpos]; simpl in Ha.
  - unfold kernel_effect. rewrite (proj2 (Z.ltb_lt _ _)) by done. rewrite outcome_ret_bind.
    unfold handle_cqe. rewrite Hop, Hfd', (proj2 (Z.ltb_lt res 0)) by done. simpl.
    destruct (_ || _); [by apply (queue_recv_good u1 fd p)|by apply (fail_good u1 fd p)].
  - bool_prop. unfold IOBUF_SIZE in *. pose proof Hc as [Hs Hpk (recvd & sent & Hh & Hist)].
    destruct (recv_effect u1 fd 1024 (pack OP_RECV fd) recvd sent res bytes)
      as (u2 & buf & -> & Hinv2 & Ho2 & Ht2 & Hbuf & Hbl & Hsl & Hh2);
      [exact Hinv1|exact Hr|exact Hh|lia|lia|].
    rewrite outcome_ret_bind. unfold handle_cqe. rewrite Hop, Hfd', (proj2 (Z.ltb_ge res 0)) by lia. simpl.
    change (u_open u1) with (u_open u) in Ho2. change (u_table u1) with (u_table u) in Ht2.
    rewrite <- Ho2 in Ho.
    destruct (Z.eqb_spec res 0) as [->|Hne0].
    + apply (fail_good u2 fd p); try done; rewrite ?Ht2; try done.
      split; [done|done|]. exists (recvd ++ bytes), sent. split; [done|].
      destruct bytes; [by rewrite app_nil_r|done].
    + rewrite Hbuf, outcome_ret_bind.
      destruct (peer_consume_refines (u_table u) fd p buf res Hs Hpk) as (p' & Hcons & Hok' & Habs); [lia|].
      rewrite Hsl in *. assert (a_room (abs p) = 1024) as Hroom.
      { unfold a_room. by rewrite bool_decide_eq_true_2. }
      destruct (history_consume (abs p) recvd sent bytes Hist) as [Hh3 Hst3]; [lia|by destruct bytes|].
      eapply (arm_with_good u2 fd p); try done; rewrite ?Ht2; try done.
      * by rewrite Habs.
      * apply a_consume_kind. lia.
      * exists (recvd ++ bytes), sent. by rewrite Habs.
Qed.

Lemma complete_send u i fd len data res bytes :
  uring_inv ∅ u -> u_pending u !! i = Some (Sqe (PrepSend fd len) data) ->
  answer_ok u (Sqe (PrepSend fd len) data) res bytes = true ->
  good (u ← kernel_effect (set_pending u (delete i (u_pending u))) (Sqe (PrepSend fd len) data) res bytes;
        handle_cqe io_uring_get_sqe io_uring_submit strerror u data res).
Proof.
  intros Hinv Hi Ha. destruct (inv_complete u i _ Hinv Hi) as [Hinv1 Hok].
  destruct Hok as (Hne & Hd & p & buf & Hc & Hst & Hlen & Hbuf & Hsl). simpl in Hd. subst data len.
  destruct (inv_fd_open u i _ Hinv Hi Hne) as (Ho & Hr & Hfd). unfold sqe_fd in Ho, Hr, Hfd, Hinv1. cbn [sqe_prep] in Ho, Hr, Hfd, Hinv1.
  set (u1 := set_pending u (delete i (u_pending u))) in *.
  destruct (unpack_pack OP_SEND fd) as [Hop Hfd']; [done|lia|].
  unfold answer_ok in Ha. simpl in Ha. apply andb_true_iff in Ha as [_ Ha].
  destruct (Z.ltb_spec res 0) as [Hneg|Hpos]; simpl in Ha.
  - unfold kernel_effect. rewrite (proj2 (Z.ltb_lt _ _)) by done. rewrite outcome_ret_bind.
    unfold handle_cqe. rewrite Hop, Hfd', (proj2 (Z.ltb_lt res 0)) by done. simpl.
    destruct (_ || _); [by apply (queue_send_good u1 fd p)|by apply (fail_good u1 fd p)].
  - bool_prop. pose proof Hc as [Hs Hpk (recvd & sent & Hh & Hist)].
    unfold kernel_effect. rewrite (proj2 (Z.ltb_ge _ _)) by lia. simpl.
    rewrite (buf_get_ok (u_iobufs u) fd buf), outcome_ret_bind, Hh by (done || lia).
    change (default ([], []) (Some (recvd, sent))) with (recvd, sent). cbv beta iota.
    rewrite outcome_ret_bind. set (u2 := set_hist u1 fd _).
    unfold handle_cqe. rewrite Hop, Hfd', (proj2 (Z.ltb_ge res 0)) by lia. simpl.
    destruct (peer_sent_refines (u_table u) fd p res Hs Hpk) as (p' & Hsent & Hok' & Habs); [simpl; lia|].
    destruct (history_sent (abs p) recvd sent res Hist) as [Hh3 Hst3]; [simpl; lia|].
    eapply (arm_with_good u2 fd p); try done.
    + apply (inv_frame u1); try done; [|by destruct (inv_bufs _ _ Hinv1)].
      split; try done. intros f Hf. by apply lookup_insert_ne.
    + by rewrite Habs.
    + apply a_sent_kind.
    + exists recvd, (sent ++ slice buf 0 res). rewrite Habs. split; [apply lookup_insert_eq|].
      replace (slice buf 0 res) with (slice (staged p) 0 res); [exact Hh3|].
      rewrite <- Hsl. unfold slice. rewrite !drop_0, take_take. f_equal. lia.
Qed.

(** A descriptor the kernel has just handed out. *)
Lemma accept_effect u res :
  uring_inv {[u_listener u]} u -> 0 <= res -> res ∉ u_open u -> res <> u_listener u ->
  uring_inv {[u_listener u; res]} (set_hist (set_open u ({[res]} ∪ u_open u)) res ([], [])).
Proof.
  intros [Hb Hcap [Hl Hl'] Ho Hn Hf Hs] Hres Hnew Hne.
  assert (res ∉ sqe_fd <$> u_pending u) as Hout by (rewrite Hf; tauto).
  split; simpl; try done.
  - by destruct Hb.
  - split; [|done]. rewrite elem_of_union, elem_of_singleton. by intros [?|?].
  - intros f. rewrite !elem_of_union, !elem_of_singleton. intros [->|Hin]; [by right; right|].
    destruct (Ho f Hin) as [?| ->%elem_of_singleton]; [by left|done].
  - intros f. rewrite Hf, !elem_of_union, !elem_of_singleton. split; [|tauto].
    intros [Hor Hnl]. split; [tauto|]. intros [?| ->]; [done|]. destruct Hor; done.
  - apply (sqes_frame u _ res); [|done|done]. split; try done.
    intros f Hf'. by apply lookup_insert_ne.
Qed.

Lemma submit_accept busy u u' :
  uring_inv busy u -> u_listener u ∈ busy ->
  queue_accept io_uring_get_sqe io_uring_submit u = Ret u' ->
  uring_inv (busy ∖ {[u_listener u]}) u' /\ u_table u' = u_table u /\ u_open u' = u_open u /\ u_hist u' = u_hist u.
Proof.
  intros Hinv Hb Hq. split; [|unfold queue_accept, submit_sqe in Hq; by apply outcome_bind_inv in Hq as (r & _ & [= <-])].
  eapply submit_sqe_ok; [exact Hinv|done|by left| | |exact Hq]; done.
Qed.

Lemma connected_good u res :
  uring_inv {[res]} u -> res ∈ u_open u -> res < 2 ^ 31 ->
  peer_fd_in_range (u_table u) res = true -> u_hist u !! res = Some ([], []) ->
  good (arm_with io_uring_get_sqe io_uring_submit u res (peer_on_connected (u_table u) res)).
Proof.
  intros Hinv Ho Hr Hin Hh. destruct (inv_bufs _ _ Hinv) as [Ht _ _].
  destruct (in_range_slot (u_table u) res Ht) as (p & Hs & Hl); [lia|done|].
  destruct (peer_on_connected_refines _ _ _ Hs Hl) as (p' & Hc & Hok & Ha).
  unfold peer_fd_in_range in Hin. bool_prop. rewrite u64_small in * by lia.
  eapply (arm_with_good u res p); try done; [by rewrite Ha|by right; left|].
  exists [], []. split; [done|]. rewrite Ha. apply a_connected_history.
Qed.

Lemma complete_accept u i fd data res bytes :
  uring_inv ∅ u -> u_pending u !! i = Some (Sqe (PrepAccept fd) data) ->
  answer_ok u (Sqe (PrepAccept fd) data) res bytes = true ->
  good (u ← kernel_effect (set_pending u (delete i (u_pending u))) (Sqe (PrepAccept fd) data) res bytes;
        handle_cqe io_uring_get_sqe io_uring_submit strerror u data res).
Proof.
  intros Hinv Hi Ha. destruct (inv_complete u i _ Hinv Hi) as [Hinv1 Hok].
  destruct Hok as [-> Hd]. simpl in Hd. subst data. destruct (inv_listener _ _ Hinv) as [_ Hl].
  unfold sqe_fd in Hinv1. cbn [sqe_prep] in Hinv1.
  set (u1 := set_pending u (delete i (u_pending u))) in *.
  change (u_listener u) with (u_listener u1) in *.
  destruct (unpack_pack OP_ACCEPT (u_listener u1)) as [Hop Hfd']; [done|lia|].
  unfold answer_ok in Ha. cbn [sqe_prep] in Ha. apply andb_true_iff in Ha as [Hrange Ha].
  apply bool_decide_eq_true in Hrange. unfold kernel_effect.
  destruct (Z.ltb_spec res 0) as [Hneg|Hpos]; simpl in Ha.
  - rewrite outcome_ret_bind. unfold handle_cqe. rewrite Hop, (proj2 (Z.ltb_lt res 0)) by done. cbn [Z.eqb OP_ACCEPT Pos.eqb].
    destruct (queue_accept _ _ u1) as [u2|msg|f] eqn:Eq; [|done|by apply submit_sqe_no_fault in Eq].
    destruct (submit_accept {[u_listener u1]} u1 u2 Hinv1) as [Hi2 _]; [by apply elem_of_singleton|done|].
    by rewrite outcome_ret_bind, (leibniz_equiv _ _ (difference_diag _)) in *.
  - apply bool_decide_eq_true in Ha as [Hnew Hne].
    cbn [sqe_prep]. rewrite outcome_ret_bind. pose proof (accept_effect u1 res Hinv1 Hpos Hnew Hne) as Hinv2.
    set (u2 := set_hist _ _ _) in *.
    unfold handle_cqe. rewrite Hop, (proj2 (Z.ltb_ge res 0)) by done. cbn [Z.eqb OP_ACCEPT Pos.eqb].
    destruct (queue_accept _ _ u2) as [u3|msg|f] eqn:Eq; [|done|by apply submit_sqe_no_fault in Eq].
    destruct (submit_accept _ u2 u3 Hinv2) as (Hi3 & Ht3 & Ho3 & Hh3);
      [by apply elem_of_union; left; apply elem_of_singleton|done|].
    replace ({[u_listener u1; res]} ∖ {[u_listener u2]} : gset Z) with ({[res]} : gset Z) in Hi3.
    2:{ apply leibniz_equiv. intros x. rewrite elem_of_difference, elem_of_union, !elem_of_singleton.
        change (u_listener u2) with (u_listener u1). split; [intros ->; tauto|tauto]. }
    assert (res ∈ u_open u3) as Hin by (rewrite Ho3; simpl; by apply elem_of_union; left; apply elem_of_singleton).
    rewrite outcome_ret_bind. destruct (peer_fd_in_range (u_table u3) res) eqn:Er; simpl negb; cbv iota.
    + apply connected_good; try done; [lia|]. rewrite Hh3. apply lookup_insert_eq.
    + by apply close_good.
Qed.

Lemma complete_good u i res bytes o :
  uring_inv ∅ u -> complete io_uring_get_sqe io_uring_submit strerror u i res bytes = Some o -> good o.
Proof.
  intros Hinv. unfold complete. destruct (u_pending u !! i) as [[pr data]|] eqn:Hi; [|done].
  destruct (answer_ok u (Sqe pr data) res bytes) eqn:Ha; [|done]. intros [= <-].
  destruct pr as [fd|fd len|fd len]; [by apply complete_accept|by apply complete_recv|by apply complete_send].
Qed.

Lemma ureach_inv u0 u :
  uring_inv ∅ u0 -> ureach io_uring_get_sqe io_uring_submit strerror u0 u -> uring_inv ∅ u.
Proof.
  intros H0 Hr. induction Hr as [|u rc u' _ IH Hw|u i res bytes u' _ IH Hs]; [done| |by apply complete_good in Hs].
  unfold wait_cqe in Hw. destruct (_ && _); [done|]. injection Hw as <-. by destruct IH as [[] ? ? ? ? ? ?].
Qed.

Lemma uring_idle_inv (r : ring) t listener cap :
  table_ok t -> peer_capacity t = cap -> 0 <= cap <= 2 ^ 31 -> 0 <= listener < 2 ^ 31 ->
  uring_inv {[listener]} (Uring r t (replicate (Z.to_nat cap) (replicate 1024 0)) listener [] ∅ ∅).
Proof.
  intros Ht Hcap Hc Hl. split; cbn [u_table u_listener u_pending u_open peer_capacity].
  - split; cbn [u_table u_iobufs peer_capacity].
    + done.
    + rewrite length_replicate. lia.
    + by apply Forall_replicate.
  - lia.
  - split; [apply not_elem_of_empty|lia].
  - intros fd []%not_elem_of_empty.
  - constructor.
  - intros fd. rewrite elem_of_singleton. split; [by intros ?%not_elem_of_nil|].
    intros [[->|[]%not_elem_of_empty] Hne]; done.
  - constructor.
Qed.

Lemma uring_main_inv args (a : uring_answers ring) pr u :
  uring_main io_uring_get_sqe io_uring_submit args a = Ret (pr, u) -> uring_inv ∅ u.
Proof.
  unfold uring_main. intros ([portnum depth] & _ & H)%outcome_bind_inv. apply outcome_bind_inv in H as (t & Ht & H).
  apply peer_state_init_ok in Ht as [Ht Hcap]; [|done]. destruct (ua_iobufs a); [|done].
  destruct (ua_queue_init a depth) as [rc r]. destruct (rc <? 0); [done|]. apply outcome_bind_inv in H as ([listener port] & Hl & H).
  apply listen_spec in Hl as [Hl _]. apply outcome_bind_inv in H as (u1 & Hu & H). injection H as <- <-.
  eapply submit_accept in Hu as [Hi _]; [|by apply (uring_idle_inv _ t listener MAXFDS)|by apply elem_of_singleton].
  by rewrite (leibniz_equiv _ _ (difference_diag _)) in Hi.
Qed.

(** Every open connection keeps the protocol. *)
Lemma inv_conn u fd : uring_inv ∅ u -> fd ∈ u_open u -> exists p, conn_ok (u_table u) (u_hist u) fd p.
Proof.
  intros Hinv Hin. assert (fd ∈ sqe_fd <$> u_pending u) as Hp.
  { apply (inv_flight _ _ Hinv). split; [by right|apply not_elem_of_empty]. }
  apply list_elem_of_fmap in Hp as (s & -> & Hs).
  pose proof (proj1 (Forall_forall _ _) (inv_sqes _ _ Hinv) s Hs) as Hok.
  destruct s as [[f|f len|f len] data]; cbn in Hok, Hin |- *.
  - destruct Hok as [-> _]. by destruct (inv_listener _ _ Hinv).
  - destruct Hok as (_ & _ & _ & p & Hc & _). by exists p.
  - destruct Hok as (_ & _ & p & buf & Hc & _). by exists p.
Qed.
End Invariant.

(** ** Properties *)

(** The operation and the descriptor packed into the user data
    of a submission are the ones the completion unpacks, for every operation code
    of 32 bits and every [int] descriptor, negative ones included, and the value
    fits the 64 bits the ring carries. *)
Theorem pack_roundtrip (op fd : Z) :
  0 <= op < 2 ^ 32 -> - 2 ^ 31 <= fd < 2 ^ 31 ->
  unpack_op (pack op fd) = op /\ unpack_fd (pack op fd) = fd /\ 0 <= pack op fd < 2 ^ 64.
Proof.
  intros Hop Hfd. destruct (unpack_pack op fd Hop Hfd) as [? ?]. split; [done|]. split; [done|].
  rewrite pack_value by done. wrap_lia.
Qed.

Lemma pack_roundtrip_witness :
  unpack_op (pack OP_SEND (-1)) = OP_SEND /\ unpack_fd (pack OP_SEND (-1)) = -1.
Proof. destruct (pack_roundtrip OP_SEND (-1)) as (H1 & H2 & _); [unfold OP_SEND; lia|lia|]. by split. Defined.

(** C3 [uring_conversations]: whatever liburing's ring does and in whatever order
    and with whatever results the kernel completes operations, the server never
    indexes a table out of bounds nor closes a descriptor it does not hold; it
    keeps exactly one operation in flight for the listener and for every open
    connection, so no completion is for a descriptor closed or reused meanwhile;
    and on every open connection what was sent followed by what is staged is '*'
    and the increment of the payload received, where the operation in flight is a
    receive of the full, non-zero buffer with nothing staged, or a send of exactly
    the staged bytes, which are what the I/O buffer holds. *)
Theorem uring_conversations {ring : Type} (io_uring_get_sqe : ring -> option ring)
    (io_uring_submit : ring -> ring) (strerror : Z -> string) args
    (start : uring_answers ring) (pr : proc) (u0 u : uring ring) :
  uring_main io_uring_get_sqe io_uring_submit args start = Ret (pr, u0) ->
  ureach io_uring_get_sqe io_uring_submit strerror u0 u ->
  (forall i res bytes f,
     complete io_uring_get_sqe io_uring_submit strerror u i res bytes <> Some (Fault f)) /\
  NoDup (sqe_fd <$> u_pending u) /\
  (forall fd, fd ∈ sqe_fd <$> u_pending u <-> fd = u_listener u \/ fd ∈ u_open u) /\
  (forall fd, fd ∈ u_open u ->
     exists recvd sent pend st pl s,
       u_hist u !! fd = Some (recvd, sent) /\ peer_pending (u_table u) fd = Ret pend /\
       framed recvd st pl /\ sent ++ pend = STAR :: (incr <$> pl) /\
       s ∈ u_pending u /\
       (sqe_prep s = PrepRecv fd IOBUF_SIZE /\ pend = [] \/
        sqe_prep s = PrepSend fd (Z.of_nat (length pend)) /\ pend <> [] /\
        exists buf, u_iobufs u !! Z.to_nat fd = Some buf /\
          slice buf 0 (Z.of_nat (length pend)) = pend)).
Proof.
  intros Hstart Hreach. pose proof (uring_main_inv _ _ strerror _ _ _ _ Hstart) as H0.
  pose proof (ureach_inv _ _ _ u0 u H0 Hreach) as Hinv. split; [|split; [by destruct Hinv|split]].
  - intros i res bytes f Hc. by apply complete_good in Hc.
  - intros fd. rewrite (inv_flight _ _ Hinv). pose proof (not_elem_of_empty (C := gset Z) fd). tauto.
  - intros fd Hin. assert (fd ∈ sqe_fd <$> u_pending u) as Hp.
    { apply (inv_flight _ _ Hinv). split; [by right|apply not_elem_of_empty]. }
    apply list_elem_of_fmap in Hp as (s & -> & Hs).
    pose proof (proj1 (Forall_forall _ _) (inv_sqes _ _ Hinv) s Hs) as Hok.
    assert (forall p recvd sent, conn_ok (u_table u) (u_hist u) (sqe_fd s) p ->
      u_hist u !! sqe_fd s = Some (recvd, sent) -> history (abs p) recvd sent ->
      exists st pl, peer_pending (u_table u) (sqe_fd s) = Ret (staged p) /\ framed recvd st pl /\
        sent ++ staged p = STAR :: (incr <$> pl)) as Hconv.
    { intros p recvd sent [Hsl Hpk _] Hh Hist. destruct (frame_out_framed recvd) as (st & pl & Hf & Hout).
      exists st, pl. rewrite (peer_pending_refines _ _ _ Hsl Hpk). split; [done|]. split; [done|].
      rewrite <- Hout. apply (hist_out _ _ _ Hist). }
    destruct s as [[f|f len|f len] data]; cbn in Hok, Hin, Hconv |- *.
    + destruct Hok as [-> _]. by destruct (inv_listener _ _ Hinv).
    + destruct Hok as (_ & _ & -> & p & Hc & _ & Hst). pose proof Hc as [_ _ (recvd & sent & Hh & Hist)].
      destruct (Hconv p recvd sent Hc Hh Hist) as (st & pl & Hpd & Hf & Hout).
      exists recvd, sent, (staged p), st, pl, (Sqe (PrepRecv f IOBUF_SIZE) data).
      repeat (split; [exact Hh || exact Hpd || exact Hf || exact Hout|]). split; [exact Hs|by left].
    + destruct Hok as (_ & _ & p & buf & Hc & Hst & -> & Hbuf & Hsl).
      pose proof Hc as [_ _ (recvd & sent & Hh & Hist)].
      destruct (Hconv p recvd sent Hc Hh Hist) as (st & pl & Hpd & Hf & Hout).
      eexists recvd, sent, (staged p), st, pl, _.
      repeat (split; [exact Hh || exact Hpd || exact Hf || exact Hout|]). split; [exact Hs|].
      right. split; [done|]. split; [done|]. by exists buf.
Qed.

(** A ring of two slots that a submission empties. *)
Definition demo_get_sqe (n : nat) : option nat := match n with O => None | S n => Some n end.
Definition demo_submit (n : nat) : nat := 2.

Definition demo_answers : uring_answers nat := UringAnswers true true (fun _ => (0, 2%nat)) (ListenAnswers 3 0 0 0).

Definition demo_uring : outcome (proc * uring nat) :=
  uring_main demo_get_sqe demo_submit [lit "9090"; lit "64"] demo_answers.

(** Connection 7 arrives, takes its '*' and sends "^a". *)
Definition demo_completions : list (nat * Z * list Z) :=
  [(0%nat, 7, []); (1%nat, 1, []); (1%nat, 2, [94; 97])].

Fixpoint demo_run (u : uring nat) (l : list (nat * Z * list Z)) : option (uring nat) :=
  match l with
  | [] => Some u
  | (i, res, bytes) :: l' =>
      match complete demo_get_sqe demo_submit (fun _ => "error"%string) u i res bytes with
      | Some (Ret u') => demo_run u' l'
      | _ => None
      end
  end.

Lemma uring_demo_run_reach u l u' :
  demo_run u l = Some u' -> ureach demo_get_sqe demo_submit (fun _ => "error"%string) u u'.
Proof.
  intros Hr. assert (forall v, ureach demo_get_sqe demo_submit (fun _ => "error"%string) v u ->
    ureach demo_get_sqe demo_submit (fun _ => "error"%string) v u') as H; [|apply H; constructor].
  revert u Hr. induction l as [|[[i res] bytes] l IH]; intros u Hr v Hv; [by injection Hr as <-|].
  simpl in Hr. destruct (complete _ _ _ u i res bytes) as [[u1| |]|] eqn:E; try done.
  apply (IH u1 Hr). by eapply ureach_step.
Qed.

Definition demo_start : uring nat :=
  match demo_uring with
  | Ret (_, u) => u
  | _ => Uring 0%nat (PeerTable [] 0) [] 3 [] ∅ ∅
  end.

Definition demo_uring_end : uring nat := default demo_start (demo_run demo_start demo_completions).

Lemma demo_uring_reached :
  uring_main demo_get_sqe demo_submit [lit "9090"; lit "64"] demo_answers = Ret (Proc true, demo_start) /\
  demo_run demo_start demo_completions = Some demo_uring_end /\
  7 ∈ u_open demo_uring_end /\ u_hist demo_uring_end !! 7 = Some ([94; 97], [42]).
Proof.
  split; [reflexivity|].
  assert (match demo_run demo_start demo_completions with
          | Some u => bool_decide (7 ∈ u_open u) && bool_decide (u_hist u !! 7 = Some ([94; 97], [42]))
          | None => false
          end = true) as H by (vm_compute; reflexivity).
  unfold demo_uring_end. destruct (demo_run demo_start demo_completions) as [u|]; [|done].
  simpl default. apply andb_true_iff in H as [H1%bool_decide_eq_true H2%bool_decide_eq_true]. done.
Qed.

Lemma uring_conversations_witness :
  exists sent pend st pl, framed [94; 97] st pl /\ sent = [42] /\ sent ++ pend = STAR :: (incr <$> pl) /\
    peer_pending (u_table demo_uring_end) 7 = Ret pend /\ pend = [98].
Proof.
  destruct demo_uring_reached as (H0 & Hr & Hin & Hh).
  destruct (uring_conversations demo_get_sqe demo_submit (fun _ => "error"%string) [lit "9090"; lit "64"]
    demo_answers (Proc true) demo_start demo_uring_end H0 (uring_demo_run_reach _ _ _ Hr)) as (_ & _ & _ & Hc).
  destruct (Hc 7 Hin) as (recvd & sent & pend & st & pl & s & H1 & H2 & H3 & H4 & _).
  rewrite Hh in H1. injection H1 as <- <-. exists [42], pend, st, pl.
  split; [exact H3|]. split; [reflexivity|]. split; [exact H4|]. split; [exact H2|].
  apply framed_run in H3. injection H3 as _ Hp. rewrite <- Hp in H4. by injection H4.
Defined.
