(* ===== verification/MetricsServer.v ===== *)
(** * The metrics endpoint (src/src/metrics_server.c)

    - [write_all], [read_request], [send_status], [send_metrics], [serve]: one
      scrape. [serve] asks for a receive and a send timeout and does not look at the
      answers: with a timeout, a call that would wait fails with EAGAIN; where the
      request was refused it does not return, [Fault NoReturn]. The [while] of
      [read_request] runs on fuel, one more iteration than the socket's script can
      answer;
    - [accept_loop], one iteration at a time on what poll and accept answer;
    - [open_listener], [metrics_server_start], [metrics_server_stop]: the life of
      the endpoint and of its thread, on the answers of the system calls.

    The body comes from MetricsRender.v; the theorems use its bound to show that a
    scrape is never answered with the 500 the code provides for. *)

From S2P Require Import Prelude CString Posix Metrics MetricsRender.
Local Open Scope Z_scope.

Definition REQUEST_MAX : Z := 2048.
Definition BODY_MAX : Z := 16384.

Definition CRLF : list Z := [13; 10].

(** ** One scrape *)

(** [timeo]: SO_SNDTIMEO is in force. [true]: return 0. *)
Definition write_all (timeo : bool) (s : sock) (buf : list Z) : outcome (bool * sock) :=
  let '(r, s) := send_to true s buf in
  match r with
  | SentAll => Ret (true, s)
  | SendFailed _ | SendKilled => Ret (false, s)
  | SendBlocked => if timeo then Ret (false, s) else Fault NoReturn
  end.

(** [timeo]: SO_RCVTIMEO is in force. *)
Definition timed_recv (timeo : bool) (want : Z) (s : sock) : outcome (recv_result * sock) :=
  match sys_recv want s with
  | Some r => Ret r
  | None => if timeo then Ret (RecvError EAGAIN, s) else Fault NoReturn
  end.

Definition header_complete (buf : list Z) : bool :=
  strstr (cstr buf) (CRLF ++ CRLF) || strstr (cstr buf) [NL; NL].

(** The end of [read_request], after the [while]. *)
Definition read_done (s : sock) (buf : list Z) (len : Z) : outcome (bool * list Z * sock) :=
  buf ← buf_set buf len 0;
  Ret (0 <? len, buf, s).

Fixpoint read_loop (timeo : bool) (fuel : nat) (s : sock) (buf : list Z) (len : Z) : outcome (bool * list Z * sock) :=
  let cap := Z.of_nat (length buf) in
  if len + 1 <? cap then
    match fuel with
    | O => Fault NoReturn
    | S fuel' =>
        '(answer, s) ← timed_recv timeo (cap - len - 1) s;
        match answer with
        | RecvError errno => if errno =? EINTR then read_loop timeo fuel' s buf len else Ret (false, buf, s)
        | Received [] => read_done s buf len
        | Received bs =>
            buf ← buf_blit buf len bs;
            let len := len + Z.of_nat (length bs) in
            buf ← buf_set buf len 0;
            if header_complete buf then Ret (true, buf, s) else read_loop timeo fuel' s buf len
        end
    end
  else read_done s buf len.

Definition read_request (timeo : bool) (s : sock) (buf : list Z) : outcome (bool * list Z * sock) :=
  read_loop timeo (S (rx_size (rx s))) s buf 0.

Definition status_head (status : list Z) (content_length : Z) : list Z :=
  lit "HTTP/1.1 " ++ status ++ CRLF ++
  lit "Content-Type: text/plain; charset=utf-8" ++ CRLF ++
  lit "Content-Length: " ++ dec_u content_length ++ CRLF ++
  lit "Connection: close" ++ CRLF ++ CRLF.

Definition metrics_head (content_length : Z) : list Z :=
  lit "HTTP/1.1 200 OK" ++ CRLF ++
  lit "Content-Type: text/plain; version=0.0.4; charset=utf-8" ++ CRLF ++
  lit "Content-Length: " ++ dec_u content_length ++ CRLF ++
  lit "Connection: close" ++ CRLF ++ CRLF.

(** [snprintf(head, sizeof head, ...)] and the two writes that follow it: both
    functions end this way. [head]: the uninitialised array. *)
Definition respond (timeo : bool) (s : sock) (head : list Z) (txt body : list Z) : outcome sock :=
  let n := Z.of_nat (length txt) in
  head ← snprintf_write head 0 (Z.of_nat (length head)) txt;
  if (0 <? n) && (n <? Z.of_nat (length head)) then
    '(ok, s) ← write_all timeo s (slice head 0 n);
    if negb ok then Ret s else '(_, s) ← write_all timeo s body; Ret s
  else Ret s.

Definition send_status (timeo : bool) (s : sock) (head : list Z) (status body : list Z) : outcome sock :=
  respond timeo s head (status_head status (strlen body)) (cstr body).

(** [m], [ld]: the model's label and the values the loads of the registry return. *)
Definition send_metrics (timeo : bool) (s : sock) (body head : list Z) (m : list Z) (ld : cell -> Z) : outcome sock :=
  '(body, body_len) ← metrics_render m ld (Some body) (Z.of_nat (length body));
  if Z.of_nat (length body) <=? body_len then
    send_status timeo s head (lit "500 Internal Server Error") (lit "metrics buffer too small" ++ [NL; 0])
  else respond timeo s head (metrics_head body_len) (slice body 0 body_len).

(** [rcvtimeo], [sndtimeo]: the answers to the two [setsockopt]s. [request], [body],
    [head]: the uninitialised automatic arrays. The result says whether [shutdown] has
    closed the connection for writing. *)
Definition serve (rcvtimeo sndtimeo : Z) (s : sock) (request body head : list Z) (m : list Z) (ld : cell -> Z) :
    outcome (sock * bool) :=
  let rcv := rcvtimeo =? 0 in
  let snd := sndtimeo =? 0 in
  '(ok, request, s) ← read_request rcv s request;
  if negb ok then Ret (s, false)
  else
    s ← (if has_prefix (lit "GET /metrics") (cstr request) then send_metrics snd s body head m ld
         else send_status snd s head (lit "404 Not Found") (lit "not found" ++ [NL; 0]));
    Ret (s, true).

(** ** The accept loop

    One iteration on what [poll] and [accept] return; [None]: the loop is left. *)

Inductive poll_answer := PollError (errno : Z) | PollTimeout | PollReady (accepted : Z + Z).

(** [inl fd]: a connection to serve and close. *)
Definition accept_iteration (a : poll_answer) : option (option Z) :=
  match a with
  | PollError errno => if errno =? EINTR then Some None else None
  | PollTimeout => Some None
  | PollReady (inl fd) => Some (Some fd)
  | PollReady (inr errno) =>
      if (errno =? EINTR) || (errno =? ECONNABORTED) || (errno =? EMFILE) then Some None else None
  end.

(** [running]: what successive loads of [g_running] return, paired with the answers.
    The result is the connections served and closed, in order. *)
Fixpoint accept_loop (its : list (bool * poll_answer)) : list Z :=
  match its with
  | [] => []
  | (running, a) :: its' =>
      if running then
        match accept_iteration a with
        | None => []
        | Some None => accept_loop its'
        | Some (Some fd) => fd :: accept_loop its'
        end
      else []
  end.

(** ** Starting and stopping *)

(** The thread of the endpoint: not created or joined, in its loop, or returned from
    [accept_loop] and not joined yet. *)
Inductive thread_state := NoThread | Looping | Returned.

Record endpoint := Endpoint {
  g_listen_fd : Z;
  g_running : bool;
  g_started : bool;
  open_fds : gset Z;        (* the sockets the endpoint holds *)
  g_thread : thread_state
}.

Definition endpoint_zero : endpoint := Endpoint (-1) false false ∅ NoThread.

(** The answers to socket, setsockopt, bind, listen and pthread_create. *)
Record start_answers := StartAnswers {
  an_socket : Z; an_setsockopt : Z; an_bind : Z; an_listen : Z; an_pthread : Z
}.

Definition open_listener (fds : gset Z) (a : start_answers) : Z * gset Z :=
  let fd := an_socket a in
  if fd <? 0 then (-1, fds)
  else
    let fds := {[fd]} ∪ fds in
    let fail := (-1, fds ∖ {[fd]}) in
    if negb (an_setsockopt a =? 0) then fail
    else if negb (an_bind a =? 0) then fail
    else if negb (an_listen a =? 0) then fail
    else (fd, fds).

(** The result is the return value and errno, where the function sets it. *)
Definition metrics_server_start (e : endpoint) (a : start_answers) : Z * option Z * endpoint :=
  if g_started e then (-1, Some EALREADY, e)
  else
    let '(fd, fds) := open_listener (open_fds e) a in
    if fd <? 0 then (-1, None, Endpoint fd (g_running e) (g_started e) fds (g_thread e))
    else if negb (an_pthread a =? 0) then
      (-1, Some (an_pthread a), Endpoint (-1) false (g_started e) (fds ∖ {[fd]}) (g_thread e))
    else (0, None, Endpoint fd true true fds Looping).

(** The thread finds [g_running] cleared at its next test, or has returned before; in
    either case it can be joined. *)
Definition metrics_server_stop (e : endpoint) : endpoint :=
  if negb (g_started e) then e
  else Endpoint (-1) false false (open_fds e ∖ {[g_listen_fd e]}) NoThread.

(** An iteration of [accept_loop] by the thread, if it is still there. *)
Definition thread_iteration (e : endpoint) (a : poll_answer) : endpoint :=
  match g_thread e with
  | Looping =>
      let left_ := negb (g_running e) || match accept_iteration a with None => true | Some _ => false end in
      if left_ then Endpoint (g_listen_fd e) (g_running e) (g_started e) (open_fds e) Returned else e
  | _ => e
  end.

(** What can happen to the endpoint. *)
Inductive endpoint_event := Start (a : start_answers) | Stop | Iteration (a : poll_answer).

Definition endpoint_step (e : endpoint) (ev : endpoint_event) : endpoint :=
  match ev with
  | Start a => (metrics_server_start e a).2
  | Stop => metrics_server_stop e
  | Iteration a => thread_iteration e a
  end.

(** ** Reading the request *)

(** [o] returns a result in [P]; a call that waits for ever is possible only without
    the timeout. *)
Definition returns (timeo : bool) {A} (o : outcome A) (P : A -> Prop) : Prop :=
  match o with Ret x => P x | Fault f => f = NoReturn /\ timeo = false | Exit _ => False end.

Lemma returns_bind timeo {A B} (o : outcome A) (k : A -> outcome B) P Q :
  returns timeo o P -> (forall x, P x -> returns timeo (k x) Q) -> returns timeo (o ≫= k) Q.
Proof. destruct o; simpl; auto. Qed.

Lemma returns_weaken timeo timeo' {A} (o : outcome A) (P Q : A -> Prop) :
  returns timeo o P -> (timeo' = true -> timeo = true) -> (forall x, P x -> Q x) -> returns timeo' o Q.
Proof. destruct o; simpl; [auto|done|]. intros [-> ->] H _. split; [done|]. by destruct timeo'; [discriminate H|]. Qed.

Lemma timed_recv_spec timeo want s :
  0 < want ->
  returns timeo (timed_recv timeo want s) (fun '(r, s') =>
    tx s' = tx s /\ wire s' = wire s /\
    (r = RecvError EAGAIN \/ (rx_size (rx s') < rx_size (rx s))%nat) /\
    match r with
    | Received bs => rx_bytes (rx s) = bs ++ rx_bytes (rx s') /\ Z.of_nat (length bs) <= want
    | RecvError _ => rx_bytes (rx s) = rx_bytes (rx s')
    end).
Proof.
  intros Hw. unfold timed_recv. destruct (sys_recv want s) as [[r s0]|] eqn:E; [|by destruct timeo; repeat split; auto].
  apply sys_recv_spec in E as (Htx & Hwi & Hs & _ & Hr); [|done]. repeat (split; [done|]). split; [by right|].
  destruct r; [done|]. by destruct Hr.
Qed.

(** The bytes of [pre] are all there is to read: the terminator goes after them. *)
Lemma read_done_spec timeo s s0 buf pre :
  take (length pre) buf = pre -> (length pre < length buf)%nat ->
  tx s0 = tx s -> wire s0 = wire s -> rx_bytes (rx s) = rx_bytes (rx s0) ->
  returns timeo (read_done s0 buf (Z.of_nat (length pre))) (fun '(ok, buf', s') => exists bs rest,
    tx s' = tx s /\ wire s' = wire s /\ rx_bytes (rx s) = bs ++ rx_bytes (rx s') /\
    (length (pre ++ bs) < length buf)%nat /\
    (ok = true -> buf' = pre ++ bs ++ 0 :: rest /\ pre ++ bs <> [])).
Proof.
  intros Hpre Hlt Htx Hw Hrx. unfold read_done. rewrite <- (take_drop (length pre) buf), Hpre.
  pose proof (buf_set_after buf pre 0 Hlt) as Hset. rewrite Hset, outcome_ret_bind.
  exists [], (drop (S (length pre)) buf). rewrite !app_nil_r. repeat (split; [done|]).
  split; [rewrite length_app, length_drop; lia|].
  intros Hpos%Z.ltb_lt. split; [done|]. by destruct pre.
Qed.

(** [buf] starts with what has been received so far. *)
Lemma read_loop_spec timeo fuel s buf pre :
  (rx_size (rx s) < fuel)%nat -> take (length pre) buf = pre -> (length pre < length buf)%nat ->
  returns timeo (read_loop timeo fuel s buf (Z.of_nat (length pre))) (fun '(ok, buf', s') => exists bs rest,
    tx s' = tx s /\ wire s' = wire s /\ rx_bytes (rx s) = bs ++ rx_bytes (rx s') /\
    (length (pre ++ bs) < length buf)%nat /\
    (ok = true -> buf' = pre ++ bs ++ 0 :: rest /\ pre ++ bs <> [])).
Proof.
  revert s buf pre. induction fuel as [|fuel IH]; intros s buf pre Hf Hpre Hlt; [lia|]. cbn [read_loop].
  destruct (Z.ltb_spec (Z.of_nat (length pre) + 1) (Z.of_nat (length buf))) as [Hroom|]; [|by apply read_done_spec].
  set (want := Z.of_nat (length buf) - Z.of_nat (length pre) - 1).
  eapply returns_bind; [apply timed_recv_spec; lia|]. intros [r s1] (Htx & Hw & Hr & Hbytes). destruct r as [[|b bs]|e].
  - destruct Hbytes as [Hb _]. by apply read_done_spec.
  - destruct Hbytes as [Hb Hlen]. set (seg := b :: bs) in *.
    destruct Hr as [Hr|Hsz]; [done|].
    rewrite buf_blit_ok, outcome_ret_bind by lia. rewrite Nat2Z.id, Hpre, (app_assoc pre).
    replace (length pre + length seg)%nat with (length (pre ++ seg)) by (rewrite length_app; lia).
    replace (Z.of_nat (length pre) + Z.of_nat (length seg)) with (Z.of_nat (length (pre ++ seg)))
      by (rewrite length_app; lia).
    assert (length (pre ++ seg) < length buf)%nat as Hlt' by (rewrite length_app; lia).
    rewrite buf_set_after, outcome_ret_bind by done. set (buf1 := (pre ++ seg) ++ 0 :: _).
    assert (length buf1 = length buf) as Hlb.
    { subst buf1. rewrite length_app. cbn [length]. rewrite length_drop. lia. }
    destruct (header_complete buf1).
    + exists seg. eexists. repeat (split; [done|]). intros _.
      split; [subst buf1; by rewrite <- app_assoc|by destruct pre].
    + eapply returns_weaken; [apply (IH s1 buf1 (pre ++ seg))|done|].
      { lia. }
      { subst buf1. by rewrite take_app_length. }
      { lia. }
      intros [[ok buf'] s'] (bs' & rest & Htx' & Hw' & Hrx' & Hl' & Hok'). exists (seg ++ bs'), rest.
      split; [congruence|]. split; [congruence|]. split; [by rewrite Hb, Hrx', app_assoc|].
      rewrite (app_assoc pre), <- Hlb. split; [done|]. intros Hk. destruct (Hok' Hk) as [-> ?].
      split; [by rewrite <- !app_assoc|done].
  - destruct (Z.eqb_spec e EINTR) as [->|He].
    + destruct Hr as [?|Hsz]; [done|]. eapply returns_weaken; [apply (IH s1 buf pre); [lia|done|done]|done|].
      intros [[ok buf'] s'] (bs' & rest & H). exists bs', rest. by rewrite Hbytes, <- Htx, <- Hw.
    + exists [], []. by rewrite app_nil_r.
Qed.

(** ** Answering *)

(** The whole answer to a request that starts with [bs]. *)
Definition response (bs : list Z) (m : list Z) (ld : cell -> Z) : list Z :=
  if has_prefix (lit "GET /metrics") bs then
    let text := body (model_label m) ld in metrics_head (Z.of_nat (length text)) ++ text
  else status_head (lit "404 Not Found") 10 ++ lit "not found" ++ [NL].

Lemma write_all_spec timeo s buf :
  returns timeo (write_all timeo s buf) (fun '(ok, s') => exists o,
    rx s' = rx s /\ wire s' = wire s ++ o /\ o `prefix_of` buf /\ (ok = true -> o = buf)).
Proof.
  unfold write_all. destruct (send_to true s buf) as [r s'] eqn:E.
  apply send_to_spec in E as (Hrx & _ & (o & Hw & Hp & Hall) & _).
  destruct r; [| |destruct timeo; [|done]|]; exists o; do 3 (split; [done|]); [by intros _; apply Hall|done..].
Qed.

Lemma write_all_completes timeo s buf k :
  tx_takes (tx s) (k + length buf) ->
  exists txs, write_all timeo s buf = Ret (true, Sock (rx s) txs (wire s ++ buf)) /\ tx_takes txs k.
Proof.
  intros Ht. unfold write_all. destruct (send_to_completes true s buf k Ht) as (txs & -> & ?). by exists txs.
Qed.

(** The header goes into [head] untruncated, as all the headers here do. *)
Lemma respond_writes timeo s head txt body :
  (0 < length txt < length head)%nat ->
  respond timeo s head txt body =
    ('(ok, s) ← write_all timeo s txt; if negb ok then Ret s else '(_, s) ← write_all timeo s body; Ret s).
Proof.
  intros Hl. unfold respond, snprintf_write. rewrite (proj2 (Z.leb_gt _ _)) by lia.
  rewrite take_ge by lia. rewrite buf_blit_0 by (rewrite length_app; simpl; lia). rewrite outcome_ret_bind.
  set (h := (txt ++ [0]) ++ _).
  assert (length h = length head) as Hlh by (subst h; rewrite length_app, length_drop, length_app; simpl; lia).
  rewrite Hlh, (proj2 (Z.ltb_lt _ _)), (proj2 (Z.ltb_lt _ _)) by lia. cbn [andb].
  assert (slice h 0 (Z.of_nat (length txt)) = txt) as ->; [|done].
  subst h. unfold slice. rewrite drop_0, Nat2Z.id, <- app_assoc. by rewrite take_app_length.
Qed.

(** What an answer does: a beginning of it is sent, and all of it to a client that
    takes it. *)
Definition answers (timeo : bool) (s : sock) (o : outcome sock) (text : list Z) : Prop :=
  returns timeo o (fun s' => exists out, rx s' = rx s /\ wire s' = wire s ++ out /\ out `prefix_of` text) /\
  (tx_takes (tx s) (length text) -> exists s', o = Ret s' /\ wire s' = wire s ++ text).

Lemma respond_spec timeo s head txt body :
  (0 < length txt < length head)%nat -> answers timeo s (respond timeo s head txt body) (txt ++ body).
Proof.
  intros Hl. rewrite respond_writes by done. split.
  - eapply returns_bind; [apply write_all_spec|]. intros [ok s1] (o1 & Hrx1 & Hw1 & Hp1 & Hall1).
    destruct ok; cbn [negb]; [|exists o1; split; [done|]; split; [done|]; by apply prefix_app_r].
    eapply returns_bind; [apply write_all_spec|]. intros [ok2 s2] (o2 & Hrx2 & Hw2 & Hp2 & _).
    rewrite Hall1 in Hw1 by done. exists (txt ++ o2). split; [congruence|].
    split; [by rewrite Hw2, Hw1, app_assoc|]. by apply prefix_app.
  - rewrite length_app, Nat.add_comm. intros Ht.
    destruct (write_all_completes timeo s txt (length body) Ht) as (txs & -> & Ht1). rewrite outcome_ret_bind. cbn [negb].
    destruct (write_all_completes timeo (Sock (rx s) txs (wire s ++ txt)) body 0 Ht1) as (txs2 & -> & _).
    rewrite outcome_ret_bind. eexists. split; [done|]. simpl. by rewrite app_assoc.
Qed.

Lemma lit_length s : length (lit s) = String.length s.
Proof. induction s as [|a s IH]; [done|]. unfold lit in *. simpl. by rewrite IH. Qed.

Lemma metrics_head_length n : (0 < length (metrics_head n) < 256)%nat.
Proof.
  unfold metrics_head. rewrite !length_app, !lit_length. pose proof (dec_u_length n). simpl. lia.
Qed.

Lemma status_head_length st n : (length st <= 64)%nat -> (0 < length (status_head st n) < 256)%nat.
Proof.
  unfold status_head. rewrite !length_app, !lit_length. pose proof (dec_u_length n). simpl. lia.
Qed.

Section Scrape.
Context (m : list Z) (ld : cell -> Z).
Hypothesis (Hm : model_ok m) (Hld : forall c, cell_valid c -> cell_wrap c (ld c) = ld c).

(** The body always fits, so the 500 branch is dead. *)
Lemma send_metrics_spec timeo s bodybuf head :
  length bodybuf = Z.to_nat BODY_MAX -> length head = 256%nat ->
  let text := body (model_label m) ld in
  answers timeo s (send_metrics timeo s bodybuf head m ld) (metrics_head (Z.of_nat (length text)) ++ text).
Proof.
  intros Hb Hh. unfold send_metrics. assert (bodybuf <> []) as Hne by (by destruct bodybuf).
  destruct (metrics_render_spec m ld bodybuf Hm Hld Hne) as (d & -> & Hdl & Hstr).
  rewrite outcome_ret_bind. destruct (model_label_ok m Hm) as (_ & Hlab & Hll).
  pose proof (body_length _ ld Hlab Hll Hld) as Hbl. unfold BODY_MAX in Hb.
  rewrite (proj2 (Z.leb_gt _ _)) by lia. rewrite take_ge in Hstr by lia.
  assert (slice d 0 (Z.of_nat (length (body (model_label m) ld))) = body (model_label m) ld) as ->.
  { unfold slice. rewrite drop_0, Nat2Z.id, <- Hstr. symmetry. apply cstr_take. }
  apply respond_spec. pose proof (metrics_head_length (Z.of_nat (length (body (model_label m) ld)))). lia.
Qed.

Lemma answer_spec timeo s bs bodybuf head :
  length bodybuf = Z.to_nat BODY_MAX -> length head = 256%nat ->
  answers timeo s (if has_prefix (lit "GET /metrics") bs then send_metrics timeo s bodybuf head m ld
                   else send_status timeo s head (lit "404 Not Found") (lit "not found" ++ [NL; 0])) (response bs m ld).
Proof.
  intros Hb Hh. unfold response. destruct (has_prefix (lit "GET /metrics") bs); [by apply send_metrics_spec|].
  unfold send_status. change (strlen (lit "not found" ++ [NL; 0])) with 10.
  change (cstr (lit "not found" ++ [NL; 0])) with (lit "not found" ++ [NL]).
  apply respond_spec. rewrite Hh. apply status_head_length. rewrite lit_length. simpl. lia.
Qed.

(** The request is read up to its terminator; the prefix is compared on all of it. *)
Lemma request_prefix bs rest :
  has_prefix (lit "GET /metrics") (cstr (bs ++ 0 :: rest)) = has_prefix (lit "GET /metrics") bs.
Proof. rewrite cstr_app_nul_any. apply has_prefix_cstr. by_decision. Qed.
End Scrape.

(** ** The endpoint's states *)

(** [evs]: what has happened since the endpoint was started. The thread is in its loop
    unless [poll] or [accept] has failed. *)
Definition endpoint_ok (e : endpoint) (evs : list endpoint_event) : Prop :=
  g_started e = true /\ g_running e = true /\ 0 <= g_listen_fd e /\ open_fds e = {[g_listen_fd e]} /\
    (g_thread e = Looping \/
     g_thread e = Returned /\ exists a, Iteration a ∈ evs /\ accept_iteration a = None) \/
  g_started e = false /\ g_running e = false /\ g_listen_fd e = -1 /\ open_fds e = ∅ /\ g_thread e = NoThread.

Lemma open_listener_spec a :
  (open_listener ∅ a).1 = -1 /\ (open_listener ∅ a).2 = ∅ \/
  0 <= (open_listener ∅ a).1 /\ (open_listener ∅ a).2 = {[(open_listener ∅ a).1]}.
Proof.
  assert (({[an_socket a]} ∪ ∅) ∖ {[an_socket a]} = (∅ : gset Z)) as Hfail
    by (rewrite union_empty_r_L; apply difference_diag_L).
  unfold open_listener. destruct (Z.ltb_spec (an_socket a) 0); [by left|].
  destruct (negb (an_setsockopt a =? 0)); [left; by split|].
  destruct (negb (an_bind a =? 0)); [left; by split|].
  destruct (negb (an_listen a =? 0)); [left; by split|].
  right. split; [done|]. apply union_empty_r_L.
Qed.

Lemma start_ok e evs a : endpoint_ok e evs -> endpoint_ok (metrics_server_start e a).2 (evs ++ [Start a]).
Proof.
  intros He. unfold metrics_server_start. destruct He as [He|(Hs & Hr & Hl & Ho & Ht)].
  { destruct He as (Hs & Hr & Hl & Ho & Ht). rewrite Hs. left. repeat (split; [done|]).
    destruct Ht as [?|(? & a' & Ha & ?)]; [by left|]. right. split; [done|]. exists a'. split; [|done].
    apply elem_of_app. by left. }
  rewrite Hs, Ho, Hr, Ht. destruct (open_listener_spec a) as [[Hf Hfds]|[Hf Hfds]];
    destruct (open_listener ∅ a) as [fd fds]; simpl in *; subst fds.
  - subst fd. by right.
  - rewrite (proj2 (Z.ltb_ge _ _)) by lia. destruct (negb _); [right|left]; simpl.
    + repeat (split; [done|]). split; [apply difference_diag_L|done].
    + repeat (split; [done|]). by left.
Qed.

Lemma stop_ok e evs :
  endpoint_ok e evs -> endpoint_ok (metrics_server_stop e) [] /\ g_started (metrics_server_stop e) = false.
Proof.
  unfold metrics_server_stop. intros [(Hs & Hr & Hl & Ho & Ht)|He].
  - rewrite Hs, Ho. split; [|done]. right. simpl. repeat (split; [done|]). split; [apply difference_diag_L|done].
  - destruct He as (Hs & He). rewrite Hs. split; [by right|done].
Qed.

Lemma iteration_ok e evs a : endpoint_ok e evs -> endpoint_ok (thread_iteration e a) (evs ++ [Iteration a]).
Proof.
  unfold thread_iteration. intros [(Hs & Hr & Hl & Ho & [Ht|(Ht & a' & Ha & Hn)])|He].
  - rewrite Ht, Hr. simpl. destruct (accept_iteration a) eqn:Ea.
    + left. repeat (split; [done|]). by left.
    + left. simpl. repeat (split; [done|]). right. split; [done|]. exists a. split; [|done].
      apply elem_of_app. right. by apply list_elem_of_singleton.
  - rewrite Ht. left. repeat (split; [done|]). right. split; [done|]. exists a'. split; [|done].
    apply elem_of_app. by left.
  - destruct He as (Hs & Hr & Hl & Ho & Ht). rewrite Ht. by right.
Qed.

Lemma iterations_ok its : forall e evs,
  endpoint_ok e evs -> endpoint_ok (fold_left thread_iteration its e) (evs ++ (Iteration <$> its)).
Proof.
  induction its as [|a its IH]; intros e evs He; simpl; [by rewrite app_nil_r|].
  rewrite (cons_middle (Iteration a) evs), app_assoc. by apply IH, iteration_ok.
Qed.

(** Older events may be forgotten, later ones added. *)
Lemma endpoint_ok_weaken e evs evs' : evs ⊆ evs' -> endpoint_ok e evs -> endpoint_ok e evs'.
Proof.
  intros Hsub [(Hs & Hr & Hl & Ho & [Ht|(Ht & a & Ha & Hn)])|He]; [| |by right]; left; repeat (split; [done|]).
  - by left.
  - right. split; [done|]. exists a. auto.
Qed.

Lemma endpoint_run_ok evs : endpoint_ok (fold_left endpoint_step evs endpoint_zero) evs.
Proof.
  induction evs as [|ev evs IH] using rev_ind; [by right|]. rewrite fold_left_app. simpl.
  destruct ev as [a| |a]; simpl; [by apply start_ok| |by apply iteration_ok].
  eapply endpoint_ok_weaken; [|by apply (stop_ok _ evs)]. apply list_subseteq_nil.
Qed.

(** ** Properties *)

(** C25 [scrape_safe]: on every client, whatever [recv], [send] and the two
    [setsockopt]s answer and whatever the automatic arrays hold, [serve] does not leave
    the request, body or header buffer, and returns when both timeouts were granted;
    without them it returns or waits for its client. When it returns it has read at most
    2047 bytes and has sent a beginning of the answer to them: the exposition with its
    exact Content-Length for every request that starts with "GET /metrics", whatever
    path that goes on with, the 404 otherwise, and nothing when no byte was read. The
    500 answer is never sent, and the connection is shut for writing unless no request
    could be read, when nothing has been sent. *)
Theorem scrape_safe (rcvtimeo sndtimeo : Z) (s : sock) (request bodybuf head : list Z) (m : list Z) (ld : cell -> Z) :
  model_ok m -> (forall c, cell_valid c -> cell_wrap c (ld c) = ld c) ->
  length request = Z.to_nat REQUEST_MAX -> length bodybuf = Z.to_nat BODY_MAX -> length head = 256%nat ->
  let result := serve rcvtimeo sndtimeo s request bodybuf head m ld in
  (forall s' shut, result = Ret (s', shut) -> exists bs o,
     rx_bytes (rx s) = bs ++ rx_bytes (rx s') /\ Z.of_nat (length bs) < REQUEST_MAX /\
     wire s' = wire s ++ o /\ o `prefix_of` response bs m ld /\ (bs = [] -> o = []) /\ (shut = false -> o = [])) /\
  (rcvtimeo = 0 -> sndtimeo = 0 -> exists r, result = Ret r) /\
  ((exists r, result = Ret r) \/ result = Fault NoReturn).
Proof.
  intros Hm Hld Hreq Hb Hh. set (both := (rcvtimeo =? 0) && (sndtimeo =? 0)).
  assert (returns both (serve rcvtimeo sndtimeo s request bodybuf head m ld) (fun '(s', shut) => exists bs o,
    rx_bytes (rx s) = bs ++ rx_bytes (rx s') /\ Z.of_nat (length bs) < REQUEST_MAX /\
    wire s' = wire s ++ o /\ o `prefix_of` response bs m ld /\ (bs = [] -> o = []) /\ (shut = false -> o = []))) as H.
  - unfold serve. eapply returns_bind.
    { eapply returns_weaken; [apply (read_loop_spec (rcvtimeo =? 0) _ s request [])| |intros x Hx; exact Hx].
      - lia.
      - done.
      - rewrite Hreq. unfold REQUEST_MAX. simpl. lia.
      - intros [? _]%andb_true_iff. done. }
    intros [[ok buf] s1] (bs & rest & Htx & Hw & Hrx & Hl & Hok). cbn [app length] in *.
    assert (Z.of_nat (length bs) < REQUEST_MAX) as Hlt by (unfold REQUEST_MAX in *; lia).
    destruct ok; cbn [negb].
    + destruct (Hok eq_refl) as [-> Hne]. rewrite request_prefix.
      destruct (answer_spec m ld Hm Hld (sndtimeo =? 0) s1 bs bodybuf head Hb Hh) as [Hans _].
      eapply returns_bind; [eapply returns_weaken; [exact Hans|by intros [_ ?]%andb_true_iff|intros x Hx; exact Hx]|].
      intros s' (o & Hrx' & Hw' & Hp). exists bs, o. rewrite Hrx', Hw', Hw. by repeat (split; [done|]).
    + exists bs, []. rewrite Hw, app_nil_r. repeat (split; [done|]). split; [apply prefix_nil|done].
  - cbv zeta. destruct (serve _ _ _ _ _ _ _ _) as [[s1 shut1]|msg|f]; [| |destruct H as [-> Hboth]].
    + split; [by intros s' shut [= <- <-]|]. split; [by eexists|left; by eexists].
    + destruct H.
    + split; [done|]. split; [|by right]. intros -> ->. by unfold both in Hboth.
Qed.

(** A client that sends its request in one segment and reads the answer. *)
Definition demo_scrape (path : list Z) : sock :=
  Sock [RxData (lit "GET " ++ path ++ lit " HTTP/1.0" ++ CRLF ++ CRLF)] (replicate 4000 (TxSpace 9)) [].

Lemma scrape_safe_witness :
  exists s' shut bs o, serve 0 0 (demo_scrape (lit "/metrics")) (replicate (Z.to_nat REQUEST_MAX) 0)
      (replicate (Z.to_nat BODY_MAX) 0) (replicate 256 0) (model registry_zero) (cell_get registry_zero) = Ret (s', shut) /\
    rx_bytes (rx (demo_scrape (lit "/metrics"))) = bs ++ rx_bytes (rx s') /\
    o `prefix_of` response bs (model registry_zero) (cell_get registry_zero).
Proof.
  destruct (scrape_safe 0 0 (demo_scrape (lit "/metrics")) (replicate (Z.to_nat REQUEST_MAX) 0)
    (replicate (Z.to_nat BODY_MAX) 0) (replicate 256 0) (model registry_zero) (cell_get registry_zero)) as (H1 & H2 & _);
    [apply registry_zero_ok|apply registry_zero_ok|apply length_replicate..|].
  destruct (H2 eq_refl eq_refl) as ([s' shut] & E). destruct (H1 s' shut E) as (bs & o & H3 & _ & _ & H4 & _).
  exists s', shut, bs, o. split; [exact E|]. split; [exact H3|exact H4].
Defined.

(** C29 [scrape_answered]: a client whose request header arrives in one segment and
    which takes what it is sent gets the whole answer, whether or not the timeouts were
    granted: for a request that starts with "GET /metrics", whatever path that goes on
    with, a 200 with a Content-Length equal to the length of the exposition that
    follows, and a 404 for any other. *)
Theorem scrape_answered (rcvtimeo sndtimeo : Z) (s : sock) (req : list Z) (evs : list rx_event)
    (request bodybuf head : list Z) (m : list Z) (ld : cell -> Z) :
  model_ok m -> (forall c, cell_valid c -> cell_wrap c (ld c) = ld c) ->
  length request = Z.to_nat REQUEST_MAX -> length bodybuf = Z.to_nat BODY_MAX -> length head = 256%nat ->
  rx s = RxData req :: evs -> Z.of_nat (length req) < REQUEST_MAX -> header_complete req = true ->
  tx_takes (tx s) (length (response req m ld)) ->
  exists s', serve rcvtimeo sndtimeo s request bodybuf head m ld = Ret (s', true) /\ wire s' = wire s ++ response req m ld.
Proof.
  intros Hm Hld Hreq Hb Hh Hrx Hlen Hcomp Htx.
  assert (req <> []) as Hne by (intros ->; by vm_compute in Hcomp).
  unfold REQUEST_MAX in *.
  assert (exists rest, read_request (rcvtimeo =? 0) s request = Ret (true, req ++ 0 :: rest, Sock evs (tx s) (wire s)))
    as [rest Hr].
  { unfold read_request. cbn [read_loop]. rewrite (proj2 (Z.ltb_lt _ _)) by lia.
    unfold timed_recv, sys_recv. rewrite Hrx, take_ge, drop_ge by lia. rewrite outcome_ret_bind.
    destruct req as [|c req']; [done|]. set (req := c :: req') in *.
    rewrite buf_blit_0, outcome_ret_bind by lia. rewrite Z.add_0_l, buf_set_after, outcome_ret_bind by lia.
    unfold header_complete in *. rewrite cstr_app_nul_any, Hcomp. by eexists. }
  unfold serve. rewrite Hr, outcome_ret_bind. cbn [negb]. rewrite request_prefix.
  destruct (answer_spec m ld Hm Hld (sndtimeo =? 0) (Sock evs (tx s) (wire s)) req bodybuf head Hb Hh) as [_ Hall].
  destruct (Hall Htx) as (s' & -> & Hw). exists s'. by rewrite outcome_ret_bind.
Qed.

(** Also for a path that only begins with "/metrics". *)
Lemma scrape_answered_witness :
  exists s', serve 0 0 (demo_scrape (lit "/metricsfoo")) (replicate (Z.to_nat REQUEST_MAX) 0)
      (replicate (Z.to_nat BODY_MAX) 0) (replicate 256 0) (model registry_zero) (cell_get registry_zero) = Ret (s', true) /\
    wire s' = response (lit "GET /metricsfoo HTTP/1.0" ++ CRLF ++ CRLF) (model registry_zero) (cell_get registry_zero) /\
    has_prefix (lit "GET /metrics") (lit "GET /metricsfoo HTTP/1.0" ++ CRLF ++ CRLF) = true.
Proof.
  enough (exists s', serve 0 0 (demo_scrape (lit "/metricsfoo")) (replicate (Z.to_nat REQUEST_MAX) 0)
      (replicate (Z.to_nat BODY_MAX) 0) (replicate 256 0) (model registry_zero) (cell_get registry_zero) = Ret (s', true) /\
    wire s' = response (lit "GET /metricsfoo HTTP/1.0" ++ CRLF ++ CRLF) (model registry_zero) (cell_get registry_zero))
    as (s' & H1 & H2) by (exists s'; split; [exact H1|]; split; [exact H2|reflexivity]).
  apply (scrape_answered 0 0 (demo_scrape (lit "/metricsfoo"))
    (lit "GET /metricsfoo HTTP/1.0" ++ CRLF ++ CRLF) []).
  - apply registry_zero_ok.
  - apply registry_zero_ok.
  - apply length_replicate.
  - apply length_replicate.
  - apply length_replicate.
  - reflexivity.
  - vm_compute. reflexivity.
  - vm_compute. reflexivity.
  - vm_compute. reflexivity.
Defined.

(** C35 [endpoint_lifecycle]: after any sequence of [metrics_server_start],
    [metrics_server_stop] and iterations of the endpoint's thread, whatever the system
    calls answered: either the endpoint is started, with its listener the only socket
    held and its thread in the accept loop, unless [poll] or [accept] has failed with an
    errno the loop does not tolerate; or it is stopped, with no thread, no socket and
    [g_listen_fd] -1; a failed start leaks nothing. A start returns 0 exactly when it
    leaves the endpoint newly started. A second start fails with EALREADY and changes
    nothing, also when the thread has left its loop: after such a failure the endpoint
    counts as started and answers nobody until it is stopped. *)
Theorem endpoint_lifecycle (evs : list endpoint_event) (a : start_answers) (b : poll_answer) :
  let e := fold_left endpoint_step evs endpoint_zero in
  (g_started e = true /\ g_running e = true /\ 0 <= g_listen_fd e /\ open_fds e = {[g_listen_fd e]} /\
     (g_thread e = Looping \/
      g_thread e = Returned /\ exists a, Iteration a ∈ evs /\ accept_iteration a = None) \/
   g_started e = false /\ g_running e = false /\ g_listen_fd e = -1 /\ open_fds e = ∅ /\ g_thread e = NoThread) /\
  ((metrics_server_start e a).1.1 = 0 <->
   g_started e = false /\ g_started (metrics_server_start e a).2 = true) /\
  (g_started e = true -> metrics_server_start e a = (-1, Some EALREADY, e)) /\
  (g_started e = true -> accept_iteration b = None ->
   let e' := thread_iteration e b in
   g_thread e' = Returned /\ g_started e' = true /\
   forall evs', Forall (fun ev => ev <> Stop) evs' -> fold_left endpoint_step evs' e' = e').
Proof.
  intros e. assert (endpoint_ok e evs) as He by apply endpoint_run_ok.
  split; [exact He|]. split; [|split; [unfold metrics_server_start; by intros ->|]].
  - unfold metrics_server_start. destruct (g_started e); [by split; [|intros []]|].
    destruct (open_listener (open_fds e) a) as [fd fds]. destruct (fd <? 0); [by split; [|intros []]|].
    destruct (negb (an_pthread a =? 0)); [by split; [|intros []]|]. by split.
  - intros Hs Hb e'. assert (g_thread e' = Returned /\ g_started e' = true) as [Ht Hs'].
    { subst e'. unfold thread_iteration. destruct He as [(_ & _ & _ & _ & [Ht|[Ht _]])|[? _]]; [| |congruence].
      - rewrite Ht, Hb, orb_true_r. done.
      - by rewrite Ht. }
    split; [done|]. split; [done|]. clearbody e'. intros evs' Hno. induction Hno as [|ev evs' Hev _ IH]; [done|].
    simpl. replace (endpoint_step e' ev) with e'; [done|]. destruct ev as [a'| |b']; simpl; [|done|].
    + unfold metrics_server_start. by rewrite Hs'.
    + unfold thread_iteration. by rewrite Ht.
Qed.

(** [accept] fails with ENFILE: the thread is gone, and a start is refused. *)
Lemma endpoint_lifecycle_witness :
  let e := fold_left endpoint_step [Start (StartAnswers 3 0 0 0 0); Iteration (PollReady (inl 5))] endpoint_zero in
  let e' := thread_iteration e (PollReady (inr ENFILE)) in
  g_thread e = Looping /\ g_thread e' = Returned /\
  fold_left endpoint_step [Iteration (PollReady (inl 6)); Start (StartAnswers 4 0 0 0 0)] e' = e'.
Proof.
  intros e e'. split; [reflexivity|].
  destruct (endpoint_lifecycle [Start (StartAnswers 3 0 0 0 0); Iteration (PollReady (inl 5))]
    (StartAnswers 4 0 0 0 0) (PollReady (inr ENFILE))) as (_ & _ & _ & H).
  destruct (H eq_refl eq_refl) as (H1 & _ & H2). split; [exact H1|]. apply H2.
  constructor; [discriminate|]. constructor; [discriminate|constructor].
Defined.
