(* ===== verification/Libuv.v ===== *)
(** * What the servers use of libuv

    libuv is not part of the repository. A client handle ([uv_tcp_t]) is modelled
    by what the callbacks of the server have asked of it, and libuv by the steps its
    documentation allows:

    - a read callback runs only on a handle that reads and is not closing, after the
      allocation callback and with no more bytes than the buffer it gave;
    - write requests are carried out in order, from the memory of the caller: the
      bytes of a request are those its buffer holds when they go out ([uv_take]);
    - a write callback runs once per request, in order, with status 0 only when all
      bytes are out;
    - after [uv_close] the pending writes are cancelled, then the close callback
      runs, once. *)

From S2P Require Import Prelude CString Utils.
Local Open Scope Z_scope.

(** The memory [client->data] points to. *)
Inductive cell (P : Type) := Null | Live (p : P) | Freed.
Arguments Null {P}.
Arguments Live {P} p.
Arguments Freed {P}.

Definition deref {P} (c : cell P) : outcome P :=
  match c with Live p => Ret p | Null | Freed => Fault UseAfterFree end.

(** [free(p)]. *)
Definition free {P} (c : cell P) : outcome (cell P) :=
  match c with Live _ => Ret Freed | Null => Ret Null | Freed => Fault UseAfterFree end.

(** A callback that is handed a block of its own has to free it: what it returns, when
    the block is gone. *)
Definition reclaim {A P} (r : outcome (A * cell P)) : outcome A :=
  '(a, b) ← r;
  match b with Freed => Ret a | Null | Live _ => Fault Leak end.

(** [free(b)] as the last thing a callback does. *)
Definition release {A P} (a : A) (b : cell P) : outcome (A * cell P) := b ← free b; Ret (a, b).

(** [on_alloc_buffer]: the memory libuv reads into, [suggested_size] bytes of it. *)
Definition on_alloc_buffer (mem : option (list Z)) : outcome (cell (list Z)) :=
  base ← xmalloc mem; Ret (Live base).

(** A [uv_write_t]: its callback, the length of its buffer, which starts at the
    first byte of the send buffer, and how many bytes are out. *)
Record write_req (K : Type) := WriteReq { w_cb : K; w_len : Z; w_taken : Z }.
Arguments WriteReq {K} w_cb w_len w_taken.
Arguments w_cb {K} w.
Arguments w_len {K} w.
Arguments w_taken {K} w.

(** A client: the memory its handle owns, whether it reads or closes, the write
    requests that have not been called back, and the bytes sent to the peer. *)
Record client (P K : Type) := Client {
  u_data : cell P;
  u_reading : bool;
  u_closing : bool;
  u_writes : list (write_req K);
  u_wire : list Z
}.
Arguments Client {P K} u_data u_reading u_closing u_writes u_wire.
Arguments u_data {P K} c.
Arguments u_reading {P K} c.
Arguments u_closing {P K} c.
Arguments u_writes {P K} c.
Arguments u_wire {P K} c.

Section Handle.
Context {P K : Type}.
Implicit Types c : client P K.

Definition set_data c (p : P) : client P K :=
  Client (Live p) (u_reading c) (u_closing c) (u_writes c) (u_wire c).

Definition set_writes c ws : client P K :=
  Client (u_data c) (u_reading c) (u_closing c) ws (u_wire c).

(** [uv_write(req, client, {buf, len}, 1, cb)], which answers [rc]. *)
Definition uv_write c (cb : K) (len rc : Z) : outcome (client P K) :=
  if rc <? 0 then Exit "uv_write failed"
  else Ret (set_writes c (u_writes c ++ [WriteReq cb len 0])).

(** [uv_read_start(client, ...)], which answers [rc]. *)
Definition uv_read_start c (rc : Z) : outcome (client P K) :=
  if rc <? 0 then Exit "uv_read_start failed"
  else Ret (Client (u_data c) true (u_closing c) (u_writes c) (u_wire c)).

(** [uv_close(client, on_client_closed)]. *)
Definition uv_close c : client P K := Client (u_data c) false true (u_writes c) (u_wire c).

(** [on_client_closed]: the handle owns the peer state, which is freed, then the handle
    itself; [Freed] stands for both. *)
Definition on_client_closed c : outcome (client P K) :=
  match u_data c with
  | Null | Live _ => Ret (Client Freed false true (u_writes c) (u_wire c))
  | Freed => Fault UseAfterFree
  end.

(** libuv sends the next [k] bytes of the first request that has bytes left. *)
Fixpoint take_bytes (buf : list Z) (ws : list (write_req K)) (k : Z) :
    list (write_req K) * list Z :=
  match ws with
  | [] => ([], [])
  | w :: ws' =>
      if w_taken w <? w_len w then
        let n := Z.min k (w_len w - w_taken w) in
        (WriteReq (w_cb w) (w_len w) (w_taken w + n) :: ws', slice buf (w_taken w) n)
      else let '(ws', out) := take_bytes buf ws' k in (w :: ws', out)
  end.

Definition uv_take (sendbuf : P -> list Z) c (k : Z) : outcome (client P K) :=
  p ← deref (u_data c);
  let '(ws, out) := take_bytes (sendbuf p) (u_writes c) k in
  Ret (Client (u_data c) (u_reading c) (u_closing c) ws (u_wire c ++ out)).

(** When libuv may run the callbacks. [mem] is what the allocation callback gets from
    [malloc], with what libuv has read into it. *)
Definition may_read c (mem : option (list Z)) (nread : Z) : Prop :=
  u_reading c = true /\ u_closing c = false /\
  forall base, mem = Some base -> nread <= Z.of_nat (length base).

Definition may_write_cb c (w : write_req K) (ws : list (write_req K)) (status : Z) : Prop :=
  u_writes c = w :: ws /\ status <= 0 /\ (status = 0 -> w_taken w = w_len w).

Definition may_take c (k : Z) : Prop := 0 <= k /\ u_closing c = false /\ u_writes c <> [].

Definition may_close_cb c : Prop :=
  u_closing c = true /\ u_writes c = [] /\ u_data c <> Freed.
End Handle.

(** ** [main] up to [uv_run], the same in both servers but for the default port: the
    answers of [uv_tcp_init], [uv_ip4_addr], [uv_tcp_bind] and [uv_listen], and the
    port that is bound, of which [uv_ip4_addr] keeps 16 bits. *)
Record main_answers := MainAnswers { ma_init : Z; ma_addr : Z; ma_bind : Z; ma_listen : Z }.

Definition uv_main (default : Z) (argv1 : option (list Z)) (a : main_answers) : outcome Z :=
  let portnum := match argv1 with Some text => atoi text | None => default end in
  if ma_init a <? 0 then Exit "uv_tcp_init failed"
  else if ma_addr a <? 0 then Exit "uv_ip4_addr failed"
  else if ma_bind a <? 0 then Exit "uv_tcp_bind failed"
  else if ma_listen a <? 0 then Exit "uv_listen failed"
  else Ret (portnum mod 2 ^ 16).
