(* ===== verification/PoolMain.v ===== *)
(** * The life of the thread pool server (src/src/threadpool_server.c)

    [pool_main] is [main] up to its accept loop, on the answers of every system call it
    makes: the signal handlers, the command line, the metrics, their endpoint
    (MetricsServer.v), the queue, the workers and the listener. The loop and the
    threads are ThreadPool.v. [pool_shutdown] is [main] after the loop.

    [deliver] is a stop signal. It is directed at the process and no thread blocks it,
    so the kernel picks the thread that runs the handler: the main thread, or a worker
    or the thread of the endpoint. Only in the first case does it reach a call the main
    thread is in; whether [accept] then fails with EINTR or is restarted depends on the
    flags the handler was installed with. *)

From S2P Require Import Prelude CString Posix Utils Metrics Protocol FdQueue.
From S2P Require Libuv.
From S2P Require Import MetricsServer ThreadPool.
Local Open Scope Z_scope.

(** ** Signals *)

Definition SA_RESTART : Z := 2 ^ 28.

Record sigaction_t := SigAction { sa_flags : Z }.

(** The answers to the two calls of [sigaction]. *)
Definition install_stop_handler (sigint sigterm : Z) : outcome sigaction_t :=
  let sa := SigAction 0 in
  if negb (sigint =? 0) || negb (sigterm =? 0) then Exit "sigaction" else Ret sa.

(** [on_main]: the main thread runs the handler. A [poll] is never restarted. *)
Definition deliver (sa : sigaction_t) (on_main : bool) (p : pool) : option (outcome pool) :=
  let p := set_stop p in
  if negb on_main then Some (Ret p)
  else
    match p_acc p with
    | A_Accept => if Z.land (sa_flags sa) SA_RESTART =? 0 then step p (Accepting (inr EINTR)) else Some (Ret p)
    | A_Backoff => step p BackoffOver
    | _ => Some (Ret p)
    end.

(** ** [main] up to the loop *)

Record main_answers := MainAnswers {
  ma_sigint : Z; ma_sigterm : Z;
  ma_metrics : start_answers;       (* the calls of metrics_server_start *)
  ma_queue : option (list Z);       (* malloc of the ring *)
  ma_workers : option unit;         (* malloc of the thread handles *)
  ma_create : nat -> Z;             (* pthread_create of each worker *)
  ma_listen : listen_answers
}.

(** The loop that creates the workers, the [i]th next. *)
Fixpoint create_workers (k i : nat) (create : nat -> Z) (workers : list worker_pc) : outcome (list worker_pc) :=
  match k with
  | O => Ret workers
  | S k' =>
      if negb (create i =? 0) then Exit "pthread_create failed"
      else create_workers k' (S i) create (workers ++ [W_Pop])
  end.

(** What [main] holds when it enters the loop. *)
Record server := Server {
  sv_proc : proc;
  sv_stop : sigaction_t;
  sv_config : config;
  sv_pool : pool;
  sv_endpoint : endpoint;
  sv_workers : Libuv.cell unit;     (* the block of thread handles *)
  sv_listener : Z;
  sv_open : gset Z                  (* the listener, while it is open *)
}.

Definition pool_main (env : option (list Z)) (args : list (list Z)) (a : main_answers) : outcome server :=
  let pr := ignore_sigpipe proc_start in
  sa ← install_stop_handler (ma_sigint a) (ma_sigterm a);
  c ← main_args env args;
  g ← metrics_init registry_zero (Some (lit "threadpool"));
  e ← (if 0 <? c_metrics_port c then
         let '(rc, _, e) := metrics_server_start endpoint_zero (ma_metrics a) in
         if negb (rc =? 0) then Exit "metrics_server_start" else Ret e
       else Ret endpoint_zero);
  q ← queue_init (ma_queue a) (c_depth c);
  _ ← xmalloc (ma_workers a);
  wk ← create_workers (Z.to_nat (c_workers c)) 0 (ma_create a) [];
  '(listener, _) ← listen_inet_socket (c_port c) (ma_listen a);
  Ret (Server pr sa c (Pool q None false A_Loop wk g [] [] []) e (Libuv.Live tt) listener {[listener]}).

(** ** [main] after the loop *)

(** The endpoint's thread has gone on meanwhile, with what [poll] and [accept] have
    answered it. *)
Definition serve_metrics (sv : server) (its : list poll_answer) : server :=
  Server (sv_proc sv) (sv_stop sv) (sv_config sv) (sv_pool sv) (fold_left thread_iteration its (sv_endpoint sv))
    (sv_workers sv) (sv_listener sv) (sv_open sv).

Definition pool_shutdown (sv : server) (p : pool) : outcome server :=
  let e := metrics_server_stop (sv_endpoint sv) in
  open ← close_fd (sv_open sv) (sv_listener sv);
  workers ← Libuv.free (sv_workers sv);
  Ret (Server (sv_proc sv) (sv_stop sv) (sv_config sv) p e workers (sv_listener sv) open).

(** ** Lemmas *)

Lemma create_workers_spec k : forall i create workers wk,
  create_workers k i create workers = Ret wk -> wk = workers ++ replicate k W_Pop.
Proof.
  induction k as [|k IH]; intros i create workers wk; cbn [create_workers].
  { intros [= <-]. by rewrite app_nil_r. }
  destruct (negb (create i =? 0)); [done|]. intros H. apply IH in H. by rewrite H, <- app_assoc.
Qed.

Lemma create_workers_no_fault k : forall i create workers f, create_workers k i create workers <> Fault f.
Proof. induction k as [|k IH]; intros i create workers f; cbn [create_workers]; [done|]. by destruct (negb _). Qed.

(** The ring has the size [main] asks for. *)
Definition ring_ok (c : config) (a : main_answers) : Prop :=
  forall mem, ma_queue a = Some mem -> Z.of_nat (length mem) = c_depth c.

Lemma pool_main_launched env args a sv :
  pool_main env args a = Ret sv -> ring_ok (sv_config sv) a ->
  launched (sv_config sv) (sv_pool sv) /\ sigpipe_ignored (sv_proc sv) = true /\
  (exists evs, endpoint_ok (sv_endpoint sv) evs) /\
  g_started (sv_endpoint sv) = (0 <? c_metrics_port (sv_config sv)) /\ sv_stop sv = SigAction 0 /\
  sv_workers sv = Libuv.Live tt /\ sv_open sv = {[sv_listener sv]}.
Proof.
  unfold pool_main. intros H Hring. apply outcome_bind_inv in H as (sa & Hsa & H).
  apply outcome_bind_inv in H as (c & Hc & H). apply outcome_bind_inv in H as (g & Hg & H).
  apply outcome_bind_inv in H as (e & He & H). apply outcome_bind_inv in H as (q & Hq & H).
  apply outcome_bind_inv in H as (u & _ & H). apply outcome_bind_inv in H as (wk & Hwk & H).
  apply outcome_bind_inv in H as ([listener port] & _ & H). injection H as <-.
  cbn [sv_config sv_pool sv_proc sv_endpoint sv_stop sv_workers sv_open sv_listener] in *.
  apply create_workers_spec in Hwk as ->.
  split; [|split; [done|]].
  { unfold queue_init in Hq. destruct (ma_queue a) as [mem|] eqn:Em; [|done]. exists env, args, mem.
    split; [done|]. split; [by apply Hring|]. unfold main_start. rewrite Hg, outcome_ret_bind.
    unfold queue_init. by injection Hq as <-. }
  assert (endpoint_ok endpoint_zero []) as H0 by by right. split; [|split].
  - destruct (0 <? c_metrics_port c); [|injection He as <-; by exists []].
    pose proof (start_ok _ _ (ma_metrics a) H0) as Hok. eexists.
    destruct (metrics_server_start endpoint_zero (ma_metrics a)) as [[rc err] e1].
    cbn in He, Hok. destruct (negb (rc =? 0)); [done|].
    by injection He as <-.
  - destruct (0 <? c_metrics_port c); [|by injection He as <-]. unfold metrics_server_start in He. cbn in He.
    destruct (open_listener ∅ (ma_metrics a)) as [fd fds]. destruct (fd <? 0); [done|].
    destruct (negb (an_pthread (ma_metrics a) =? 0)); [done|]. by injection He as <-.
  - unfold install_stop_handler in Hsa. destruct (negb (ma_sigint a =? 0) || _); [done|]. by injection Hsa as <-.
Qed.

(** ** After a stop *)

(** Once stop is requested the acceptor does not go back to [accept]. *)
Definition stopping (p p' : pool) : Prop :=
  p_stop p' = true /\ (p_acc p = A_Stopped -> p_acc p' = A_Stopped) /\
  (p_accepted p' = p_accepted p /\ (p_acc p <> A_Accept -> p_acc p' <> A_Accept) \/
   p_acc p = A_Accept /\ p_acc p' <> A_Accept /\ exists fd, p_accepted p' = p_accepted p ++ [fd]).

(** A step that accepts nothing and leaves the acceptor at [a]. *)
Lemma stopping_quiet p p' :
  p_stop p' = true -> p_accepted p' = p_accepted p ->
  (p_acc p = A_Stopped -> p_acc p' = A_Stopped) -> (p_acc p <> A_Accept -> p_acc p' <> A_Accept) -> stopping p p'.
Proof. intros. split; [done|]. split; [done|]. by left. Qed.

Lemma run_acceptor_stopping p p' : p_stop p = true -> run_acceptor p = Some (Ret p') -> stopping p p'.
Proof.
  intros Hs. unfold run_acceptor. destruct (p_acc p) eqn:Ea; try done; try case_decide; try done;
    try (intros [= <-]; apply stopping_quiet; simpl; rewrite ?Hs, ?Ea; done).
  destruct (_ =? _); [intros [= <-]; apply stopping_quiet; simpl; rewrite ?Ea; done|].
  intros [= H]. apply outcome_bind_inv in H as (q & _ & [= <-]). apply stopping_quiet; simpl; rewrite ?Ea; done.
Qed.

Lemma run_worker_stopping p i p' : p_stop p = true -> run_worker p i = Some (Ret p') -> stopping p p'.
Proof.
  intros Hs. unfold run_worker. destruct (p_wk p !! i) as [[]|]; try done; try case_decide; try done;
    try (intros [= <-]; apply stopping_quiet; done).
  - destruct (_ =? _); [intros [= <-]; apply stopping_quiet; done|].
    intros [= H]. apply outcome_bind_inv in H as ([fd q] & _ & [= <-]). apply stopping_quiet; done.
  - intros [= <-]. apply stopping_quiet; simpl; try done; by destruct (p_acc p).
Qed.

Lemma step_stopping p a p' : p_stop p = true -> step p a = Some (Ret p') -> stopping p p'.
Proof.
  intros Hs. destruct a as [|[fd|e]| |[|i]|[i|]|[|i]|i d|i r]; cbn [step].
  - intros [= <-]. by apply stopping_quiet.
  - case_decide as H; [|done]. destruct H as (Ha & _). intros [= <-]. split; [done|]. simpl. rewrite Ha.
    split; [done|]. right. split; [done|]. split; [done|]. by exists fd.
  - case_decide as H; [|done]. unfold accept_failed.
    repeat (destruct (_ || _); [intros [= <-]; apply stopping_quiet; simpl; rewrite ?H; done|]). done.
  - case_decide as H; [|done]. intros [= <-]. apply stopping_quiet; simpl; rewrite ?H; done.
  - by apply run_acceptor_stopping.
  - by apply run_worker_stopping.
  - case_decide as H; [|done]. destruct H as [Ha _]. intros [= <-]. apply stopping_quiet; simpl; rewrite ?Ha; done.
  - case_decide as H; [|done]. destruct H as [Ha _]. intros [= <-]. apply stopping_quiet; simpl; rewrite ?Ha; done.
  - destruct (p_acc p) eqn:Ea; try done. intros [= <-]. apply stopping_quiet; simpl; rewrite ?Ea; done.
  - case_decide; [|done]. intros [= <-]. by apply stopping_quiet.
  - destruct (p_wk p !! i) as [[]|]; try done. intros [= <-]. by apply stopping_quiet.
  - destruct (p_wk p !! i) as [[]|]; try done. intros [= <-]. by apply stopping_quiet.
Qed.

(** So at most one more connection is accepted. *)
Lemma reach_stopping p p' :
  p_stop p = true -> reach p p' ->
  p_stop p' = true /\ (p_acc p = A_Stopped -> p_acc p' = A_Stopped) /\
  exists new, p_accepted p' = p_accepted p ++ new /\
    (new = [] /\ (p_acc p <> A_Accept -> p_acc p' <> A_Accept) \/
     length new = 1%nat /\ p_acc p = A_Accept /\ p_acc p' <> A_Accept).
Proof.
  intros Hs. induction 1 as [|p1 a p2 _ IH Hstep].
  { split; [done|]. split; [done|]. exists []. rewrite app_nil_r. split; [done|by left]. }
  destruct IH as (Hs1 & Hst1 & new & Hacc & Hcase).
  destruct (step_stopping p1 a p2 Hs1 Hstep) as (Hs2 & Hst2 & Hnew). split; [done|]. split; [auto|].
  destruct Hnew as [[Heq Hne]|(Ha & Hne & fd & Heq)].
  - exists new. rewrite Heq. split; [done|]. destruct Hcase as [[-> Hc]|(Hl & Ha & Hn)]; [left; auto|right; auto].
  - destruct Hcase as [[-> Hc]|(Hl & Ha' & Hn)]; [|done]. exists [fd]. rewrite Heq, Hacc, app_nil_r.
    split; [done|]. right. split; [done|]. split; [|done].
    destruct (decide (p_acc p = A_Accept)) as [|Hx]; [done|]. by destruct (Hc Hx).
Qed.

(** An acceptor inside [accept] stays there until the call returns, whatever the other
    threads do. *)
Lemma accept_stays p3 a p4 :
  p_acc p3 = A_Accept -> step p3 a = Some (Ret p4) -> (forall r, a <> Accepting r) -> p_acc p4 = A_Accept.
Proof.
  intros H3 Hstep Hne. destruct a as [|r| |t|i|t|i d|i r]; cbn [step] in Hstep; simplify_eq/=; try done.
  - by destruct (Hne r).
  - case_decide; congruence.
  - destruct t as [|i]; [unfold run_acceptor in Hstep; by rewrite H3 in Hstep|].
    unfold run_worker in Hstep. destruct (p_wk p3 !! i) as [[]|]; simplify_eq/=; try done;
      try (case_decide; simplify_eq/=; done); try (by rewrite H3).
    destruct (count (p_q p3) =? 0); simplify_eq/=; [done|].
    destruct (queue_take (p_q p3)) as [[fd q]| |]; [by injection Hstep as <-|done..].
  - destruct i; case_decide as Hd; [destruct Hd; congruence|done|destruct Hd; congruence|done].
  - destruct t; [by rewrite H3 in Hstep|]. case_decide; by simplify_eq/=.
  - destruct (p_wk p3 !! i) as [[]|]; congruence || by injection Hstep as <-.
  - destruct (p_wk p3 !! i) as [[]|]; congruence || by injection Hstep as <-.
Qed.

(** So a signal whose handler runs elsewhere, or before [accept] is entered, ends
    nothing. *)
Lemma accept_stays_reach p p' acts :
  p_acc p = A_Accept -> steps p acts = Some (Ret p') -> Forall (fun a => forall r, a <> Accepting r) acts ->
  p_acc p' = A_Accept.
Proof.
  intros Ha Hs Hall. revert p Ha Hs. induction Hall as [|a acts Hne _ IH]; intros p Ha; cbn [steps]; [by intros [= <-]|].
  destruct (step p a) as [[p1|msg|f]|] eqn:E; [|by destruct acts..].
  intros Hs. eapply IH; [|exact Hs]. by eapply accept_stays.
Qed.

(** ** Theorem *)

(** C17 [pool_stops]: a server that has started, in any state its threads can be in. A
    stop signal that the main thread handles inside [accept] ends that call, because the
    handler was installed without SA_RESTART, and the acceptor leaves its loop; one that
    it handles inside the [poll] of its back-off ends that call and the loop. A signal
    that another thread handles while the acceptor is inside [accept], or that arrives
    after the test of [stop_requested] and before [accept] is entered, leaves it in
    [accept] until that call returns by itself, whatever the other threads do. Once
    stop is requested at most one more connection is accepted, and none if the
    acceptor was not inside [accept]; when nothing moves any more, the acceptor has
    stopped, or it waits for [accept] or [poll] to return, or for a worker to finish
    with the queue full. After the loop the metrics thread is joined, its listener and
    the server's are closed and the handles are freed, each once, whatever the system
    calls of the metrics thread have answered; no accepted
    connection is in the acceptor's hand. *)
Theorem pool_stops env args a sv p :
  pool_main env args a = Ret sv -> ring_ok (sv_config sv) a -> reach (sv_pool sv) p ->
  (p_acc p = A_Accept \/ p_acc p = A_Backoff -> exists p1 p2,
     deliver (sv_stop sv) true p = Some (Ret p1) /\ step p1 (Run Acceptor) = Some (Ret p2) /\
     p_acc p2 = A_Stopped /\ p_accepted p2 = p_accepted p) /\
  (p_acc p = A_Accept \/ p_acc p = A_Loop /\ p_stop p = false -> exists p1 p2,
     (if decide (p_acc p = A_Accept) then p1 = p else step p (Run Acceptor) = Some (Ret p1)) /\
     deliver (sv_stop sv) false p1 = Some (Ret p2) /\ p_stop p2 = true /\
     forall acts p', Forall (fun a => forall r, a <> Accepting r) acts -> steps p2 acts = Some (Ret p') ->
       p_acc p' = A_Accept) /\
  (p_stop p = true -> forall p', reach p p' ->
     exists new, p_accepted p' = p_accepted p ++ new /\ (length new <= 1)%nat /\
       (p_acc p <> A_Accept -> new = [])) /\
  (p_stop p = true -> quiescent p ->
     p_acc p = A_Stopped \/ p_acc p = A_Accept \/ p_acc p = A_Backoff \/
     is_wait (p_acc p) = true /\ count (p_q p) = c_depth (sv_config sv) /\
     forall i w, p_wk p !! i = Some w -> exists fd, w = W_Serve fd) /\
  (p_acc p = A_Stopped -> forall its, exists sv', pool_shutdown (serve_metrics sv its) p = Ret sv' /\ sv_open sv' = ∅ /\ sv_workers sv' = Libuv.Freed /\
     g_started (sv_endpoint sv') = false /\ open_fds (sv_endpoint sv') = ∅ /\ g_thread (sv_endpoint sv') = NoThread /\
     held p = concat (serving <$> p_wk p) ++ contents (p_q p)).
Proof.
  intros Hmain Hring Hreach.
  destruct (pool_main_launched _ _ _ _ Hmain Hring) as (Hl & _ & [evs He] & _ & Hsa & Hw & Ho).
  split; [|split; [|split; [|split]]].
  - intros Ha. unfold deliver. rewrite Hsa. cbn. destruct Ha as [->| ->]; cbn; eexists _, _;
      (split; [reflexivity|]; split; [reflexivity|]; done).
  - intros Ha. assert (exists p1, (if decide (p_acc p = A_Accept) then p1 = p else step p (Run Acceptor) = Some (Ret p1)) /\
      p_acc p1 = A_Accept) as (p1 & H1 & H2).
    { case_decide as Hd; [by exists p|]. destruct Ha as [|[Ha Hs]]; [done|]. cbn [step]. unfold run_acceptor.
      rewrite Ha, Hs. by eexists. }
    exists p1. eexists. split; [done|]. split; [reflexivity|]. split; [done|]. intros acts p' Hall Hs.
    eapply accept_stays_reach; [|exact Hs|exact Hall]. exact H2.
  - intros Hs p' Hr. destruct (reach_stopping p p' Hs Hr) as (_ & _ & new & Hn & Hcase). exists new.
    split; [done|]. destruct Hcase as [[-> _]|(Hlen & Ha & _)]; [simpl; split; [lia|done]|]. split; [lia|done].
  - intros _ Hq. destruct (quiescent_pool _ _ _ Hl Hreach Hq) as (_ & _ & _ & Hacc). tauto.
  - intros Ha its. unfold pool_shutdown, serve_metrics. cbn [sv_open sv_workers sv_listener sv_endpoint].
    rewrite Ho, Hw. unfold close_fd. rewrite decide_True by set_solver.
    eexists. split; [reflexivity|]. cbn. split; [apply difference_diag_L|]. split; [done|].
    destruct (stop_ok _ _ (iterations_ok its _ _ He)) as [Hok Hstop].
    destruct Hok as [(Hg & _)|(_ & _ & _ & Hfds & Hth)]; [congruence|]. split; [done|]. split; [done|]. split; [done|].
    unfold held. rewrite Ha. cbn [in_hand]. by rewrite app_nil_r.
Qed.

(** "threadpool_server 9090 1 1 9110": connection 5 is with the worker and the acceptor
    in accept when the signal comes. *)
Definition demo_answers : main_answers :=
  MainAnswers 0 0 (StartAnswers 3 0 0 0 0) (Some [77]) (Some tt) (fun _ => 0) (ListenAnswers 4 0 0 0).

Definition demo_server : outcome server :=
  pool_main None [lit "9090"; lit "1"; lit "1"; lit "9110"] demo_answers.

Definition demo_arrival : list action :=
  [Run (Worker 0); Run (Worker 0); Run Acceptor; Accepting (inl 5); Run Acceptor; Run Acceptor; Run Acceptor;
   SignalNotEmpty (Some 0%nat); Run Acceptor].

Lemma pool_stops_witness :
  exists sv p p1 p2, demo_server = Ret sv /\ steps (sv_pool sv) demo_arrival = Some (Ret p) /\
    deliver (sv_stop sv) true p = Some (Ret p1) /\ step p1 (Run Acceptor) = Some (Ret p2) /\
    p_acc p2 = A_Stopped /\ p_accepted p2 = [5].
Proof.
  destruct demo_server as [sv|msg|f] eqn:E; [|by vm_compute in E..]. exists sv.
  destruct (steps (sv_pool sv) demo_arrival) as [[p|msg|f]|] eqn:Es;
    [|vm_compute in E; injection E as <-; by vm_compute in Es..]. exists p.
  destruct (pool_stops None [lit "9090"; lit "1"; lit "1"; lit "9110"] demo_answers sv p E) as (H & _).
  - intros mem [= <-]. vm_compute in E. by injection E as <-.
  - by eapply steps_reach.
  - destruct H as (p1 & p2 & H1 & H2 & H3 & H4).
    { left. vm_compute in E. injection E as <-. vm_compute in Es. by injection Es as <-. }
    exists p1, p2. split; [reflexivity|]. split; [reflexivity|]. split; [exact H1|]. split; [exact H2|].
    split; [exact H3|]. rewrite H4. vm_compute in E. injection E as <-. vm_compute in Es. by injection Es as <-.
Defined.
