(* ===== verification/IsPrimeServer.v ===== *)
(** * The primality server (src/src/uv_isprime_server.c)

    A client sends a decimal number and is told whether it is prime. This file
    models the primality test at its width (the square of the trial divisor wraps
    around), the reading of the number, the reply buffer, and the callbacks that
    libuv runs.

    [search] is a loop whose body either goes on or returns; its bound is binary,
    so that the 2^64 iterations it is given cost nothing when it returns early. *)

From Stdlib Require Import Zdivisibility.
From S2P Require Import Prelude CString Utils Libuv.
Local Open Scope Z_scope.

(** ** Loops with a binary bound *)

Fixpoint search {S A} (body : S -> S + A) (bound : positive) (s : S) : S + A :=
  match bound with
  | xH => body s
  | xO b =>
      match search body b s with inl s => search body b s | inr a => inr a end
  | xI b =>
      match body s with
      | inl s => match search body b s with inl s => search body b s | inr a => inr a end
      | inr a => inr a
      end
  end.

(** ** The primality test *)

(** The body of the [for], with its test: [uint64_t] arithmetic. *)
Definition isprime_step (n r : Z) : Z + bool :=
  if u64 (r * r) <=? n then
    if n mod r =? 0 then inr false else inl (u64 (r + 2))
  else inr true.

Definition isprime (n : Z) : outcome bool :=
  if n mod 2 =? 0 then Ret (n =? 2)
  else match search (isprime_step n) (2 ^ 64) 3 with inr b => Ret b | inl _ => Fault NoReturn end.

(** ** The state of a client *)

Definition SENDBUF_SIZE : Z := 1024.

Record peer_state_t := PeerState { number : Z; sendbuf : list Z; sendbuf_end : Z }.

(** The loop of [set_peer_sendbuf]: [str] is what is left of the string. *)
Fixpoint set_loop (str : list Z) (i : Z) (buf : list Z) : outcome (list Z * Z) :=
  match str with
  | [] => Ret (buf, i)
  | c :: str' =>
      if i <? SENDBUF_SIZE then buf ← buf_set buf i c; set_loop str' (i + 1) buf
      else Exit "assertion failed"
  end.

Definition set_peer_sendbuf (p : peer_state_t) (str : list Z) : outcome peer_state_t :=
  '(buf, e) ← set_loop str 0 (sendbuf p);
  Ret (PeerState (number p) buf e).

Definition PRIME : list Z := lit "prime" ++ [10].
Definition COMPOSITE : list Z := lit "composite" ++ [10].

Definition verdict (b : bool) : list Z := if b then PRIME else COMPOSITE.

(** The digits at the start of a request, in [uint64_t]. *)
Fixpoint parse_loop (n : nat) (i number : Z) (base : list Z) : outcome Z :=
  match n with
  | O => Ret number
  | S n' =>
      c ← buf_get base i;
      if isdigit c then parse_loop n' (i + 1) (u64 (number * 10 + (c - 48))) base
      else Ret number
  end.

(** ** The callbacks

    A [uv_work_t] waits for a worker, has its verdict computed, has it stored in the
    send buffer, and is then called back. The worker reads the number and writes the
    buffer of a peer state that the loop thread uses as well. *)

Inductive work := Submitted | Computed (b : bool) | Stored.

Record conn := Conn { c_client : client peer_state_t unit; c_work : list work }.

Definition with_client (c : conn) (r : outcome (client peer_state_t unit)) : outcome conn :=
  h ← r; Ret (Conn h (c_work c)).

(** [on_work_submitted], up to the call of [set_peer_sendbuf] ... *)
Definition work_compute (c : conn) (i : nat) : outcome conn :=
  p ← deref (u_data (c_client c));
  b ← isprime (number p);
  Ret (Conn (c_client c) (<[i := Computed b]> (c_work c))).

(** ... and that call. *)
Definition work_store (c : conn) (i : nat) (b : bool) : outcome conn :=
  p ← deref (u_data (c_client c));
  p ← set_peer_sendbuf p (verdict b);
  Ret (Conn (set_data (c_client c) p) (<[i := Stored]> (c_work c))).

(** Send what is in the buffer: the end of both modes. *)
Definition send_reply (c : conn) (mem : option unit) (rc : Z) : outcome conn :=
  p ← deref (u_data (c_client c));
  _ ← xmalloc mem;
  with_client c (uv_write (c_client c) tt (sendbuf_end p) rc).

(** [req]: the work request, which the callback frees; libuv has taken it from its
    queue. *)
Definition on_work_completed (c : conn) (req : Libuv.cell unit) (status : Z) (mem : option unit) (rc : Z) :
    outcome (conn * Libuv.cell unit) :=
  if negb (status =? 0) then Exit "on_work_completed error"
  else c ← send_reply c mem rc; release c req.

(** [req]: the write request, likewise. *)
Definition on_sent_response (c : conn) (req : Libuv.cell unit) (status : Z) : outcome (conn * Libuv.cell unit) :=
  if negb (status =? 0) then Exit "Write error" else release c req.

(** The same functions as in uv_server.c. *)
Definition on_alloc_buffer : option (list Z) -> outcome (Libuv.cell (list Z)) := Libuv.on_alloc_buffer.

Definition on_client_closed : client peer_state_t unit -> outcome (client peer_state_t unit) := Libuv.on_client_closed.

(** [block]: [MODE=BLOCK] is in the environment; [buf]: the memory of
    [on_alloc_buffer]; [mem], [rc]: the answers of [xmalloc] and of [uv_write] or
    [uv_queue_work]. *)
Definition on_peer_read (block : bool) (c : conn) (nread : Z) (buf : Libuv.cell (list Z)) (mem : option unit)
    (rc : Z) : outcome (conn * Libuv.cell (list Z)) :=
  if nread <? 0 then release (Conn (uv_close (c_client c)) (c_work c)) buf
  else if nread =? 0 then release c buf
  else
    base ← deref buf;
    if Z.of_nat (length base) <? nread then Exit "assertion failed"
    else
      num ← parse_loop (Z.to_nat nread) 0 0 base;
      p ← deref (u_data (c_client c));
      let p := PeerState num (sendbuf p) (sendbuf_end p) in
      let c := Conn (set_data (c_client c) p) (c_work c) in
      c ← (if block then
             b ← isprime num;
             p ← set_peer_sendbuf p (verdict b);
             send_reply (Conn (set_data (c_client c) p) (c_work c)) mem rc
           else
             _ ← xmalloc mem;
             if rc <? 0 then Exit "uv_queue_work failed"
             else Ret (Conn (c_client c) (c_work c ++ [Submitted])));
      release c buf.

(** The answers of libuv and of [malloc] to [on_peer_connected]; the contents of
    fresh memory are arbitrary. *)
Record connect_answers := ConnectAnswers {
  ca_handle : option unit; ca_init : Z; ca_accept : Z; ca_name : Z;
  ca_state : option (Z * list Z); ca_start : Z
}.

Definition on_peer_connected (status : Z) (a : connect_answers) : outcome (option conn) :=
  if status <? 0 then Ret None
  else
    _ ← xmalloc (ca_handle a);
    if ca_init a <? 0 then Exit "uv_tcp_init failed"
    else
      let client := Client Null false false [] [] in
      if ca_accept a =? 0 then
        if ca_name a <? 0 then Exit "uv_tcp_getpeername failed"
        else
          '(num, buf) ← xmalloc (ca_state a);
          c ← uv_read_start (set_data client (PeerState num buf 0)) (ca_start a);
          Ret (Some (Conn c []))
      else Ret (Some (Conn (uv_close client) [])).

(** [main] up to [uv_run]. *)
Definition isprime_main : option (list Z) -> main_answers -> outcome Z := uv_main 8070.

(** ** The callbacks under libuv *)

Inductive event :=
| Read (base : option (list Z)) (nread : Z) (mem : option unit) (rc : Z)
| Compute (i : nat)
| Store (i : nat)
| Completed (i : nat) (status : Z) (mem : option unit) (rc : Z)
| Take (k : Z)
| Sent (status : Z)
| Closed.

Definition handle (block : bool) (c : conn) (ev : event) : outcome conn :=
  match ev with
  | Read base nread mem rc =>
      buf ← on_alloc_buffer base;
      reclaim (on_peer_read block c nread buf mem rc)
  | Compute i => work_compute c i
  | Store i => match c_work c !! i with Some (Computed b) => work_store c i b | _ => Ret c end
  | Completed i status mem rc =>
      reclaim (on_work_completed (Conn (c_client c) (delete i (c_work c))) (Live tt) status mem rc)
  | Take k => with_client c (uv_take sendbuf (c_client c) k)
  | Sent status =>
      reclaim (on_sent_response (Conn (set_writes (c_client c) (tail (u_writes (c_client c)))) (c_work c)) (Live tt) status)
  | Closed => with_client c (on_client_closed (c_client c))
  end.

(** What libuv and its workers may do next. *)
Definition may (c : conn) (ev : event) : Prop :=
  match ev with
  | Read base nread _ _ => may_read (c_client c) base nread
  | Compute i => c_work c !! i = Some Submitted
  | Store i => exists b, c_work c !! i = Some (Computed b)
  | Completed i status _ _ => c_work c !! i = Some Stored /\ status <= 0
  | Take k => may_take (c_client c) k
  | Sent status => exists w ws, may_write_cb (c_client c) w ws status
  | Closed => may_close_cb (c_client c)
  end.

(** ** Lemmas on [search] *)

(** A loop that keeps an invariant, makes progress towards 0 and only returns
    results that satisfy [post] returns such a result when its bound suffices. *)
Lemma search_returns {S A} (body : S -> S + A) (inv : S -> Prop) (measure : S -> Z)
    (post : A -> Prop) :
  (forall s, inv s -> match body s with
             | inl s' => inv s' /\ 0 <= measure s' < measure s
             | inr a => post a end) ->
  forall bound s, inv s ->
  match search body bound s with
  | inl s' => inv s' /\ 0 <= measure s' <= measure s - Z.pos bound
  | inr a => post a
  end.
Proof.
  intros Hbody. induction bound as [b IH|b IH|]; intros s Hs; simpl.
  - pose proof (Hbody s Hs) as H1. destruct (body s) as [s1|a]; [|done].
    destruct H1 as [H1 ?]. pose proof (IH s1 H1) as H2.
    destruct (search body b s1) as [s2|a]; [|done].
    destruct H2 as [H2 ?]. pose proof (IH s2 H2) as H3.
    destruct (search body b s2); [|done]. destruct H3. split; [done|lia].
  - pose proof (IH s Hs) as H2. destruct (search body b s) as [s2|a]; [|done].
    destruct H2 as [H2 ?]. pose proof (IH s2 H2) as H3.
    destruct (search body b s2); [|done]. destruct H3. split; [done|lia].
  - pose proof (Hbody s Hs) as H1. destruct (body s); [|done]. destruct H1. split; [done|lia].
Qed.

(** ** The primality test is right

    Above [(2^32 - 1)^2] the square of the divisor wraps around before it can
    exceed [n], and the loop runs on. It still stops at [stop_root], whose square
    is [2^64 - 7] modulo [2^64]; the four odd numbers above that bound have small
    divisors. *)

Definition stop_root : Z := 1852311383259529397.

Definition no_divisor_below (n r : Z) : Prop := forall d, 2 <= d < r -> ~ (d | n).

Lemma divisor_pair n d : 0 < n -> 1 < d < n -> (d | n) -> exists e, 1 < e /\ e * e <= n /\ (e | n).
Proof.
  intros Hn Hd [q Hq]. destruct (Z.le_gt_cases (d * d) n) as [Hle|Hgt].
  - exists d. split; [lia|]. split; [done|]. by exists q.
  - exists q. assert (1 < q) by nia. assert (q <= d) by nia. split; [lia|]. split; [nia|].
    exists d. lia.
Qed.

Lemma no_divisor_prime n r :
  1 < n -> no_divisor_below n r -> (forall d, 1 < d -> d * d <= n -> d < r) -> Z.prime n.
Proof.
  intros Hn Hno Hr. split; [done|]. intros d Hd Hdiv.
  destruct (divisor_pair n d) as (e & He1 & He2 & He3); [lia|done|done|].
  apply (Hno e); [|done]. split; [lia|]. by apply Hr.
Qed.

Lemma proper_divisor_not_prime n d : 1 < d < n -> (d | n) -> ~ Z.prime n.
Proof. intros Hd Hdiv [_ Hp]. by apply (Hp d). Qed.

Record trial (n r : Z) : Prop := Trial {
  trial_odd : r mod 2 = 1;
  trial_range : 3 <= r <= stop_root;
  trial_none : no_divisor_below n r;
  trial_big : r <= 2 ^ 32 - 1 \/ (2 ^ 32 - 1) * (2 ^ 32 - 1) <= n
}.

Lemma no_divisor_next n r :
  n mod 2 = 1 -> r mod 2 = 1 -> 3 <= r -> ~ (r | n) -> no_divisor_below n r ->
  no_divisor_below n (r + 2).
Proof.
  intros Hn Hr Hr3 Hnr Hno d Hd Hdiv.
  destruct (Z.lt_total d r) as [|[->|]]; [apply (Hno d); [lia|done]|done|].
  assert (d = r + 1) as -> by lia. destruct Hdiv as [q Hq].
  assert (exists k, r = 2 * k + 1) as [k ->] by (exists (r / 2); Z.div_mod_to_equations; lia).
  assert (n = 2 * (q * (k + 1))) as -> by lia. rewrite Z.mul_comm, Z_mod_mult in Hn. lia.
Qed.

(** One iteration, for an odd [n] below [2^64 - 7]. *)
Lemma isprime_step_spec n r :
  n mod 2 = 1 -> 3 <= n < 2 ^ 64 - 7 -> trial n r ->
  match isprime_step n r with
  | inl r' => trial n r' /\ 0 <= stop_root - r' < stop_root - r
  | inr b => b = true <-> Z.prime n
  end.
Proof.
  intros Hodd Hn [Hr1 Hr2 Hr3 Hr4]. unfold isprime_step.
  assert (r <= 2 ^ 32 - 1 -> u64 (r * r) = r * r) as Hsmall by (intros; apply u64_small; nia).
  destruct (Z.leb_spec (u64 (r * r)) n) as [Hle|Hgt].
  - assert (r < n) as Hrn.
    { destruct Hr4 as [Hr4|Hr4]; [rewrite Hsmall in Hle by done; nia|].
      unfold stop_root in Hr2. lia. }
    destruct (Z.eqb_spec (n mod r) 0) as [Hmod|Hmod].
    { split; [done|]. intros Hp. exfalso. apply (proper_divisor_not_prime n r); [lia| |done].
      apply Z.mod_divide; [lia|done]. }
    assert (r <> stop_root) as Hne.
    { intros ->. change (u64 (stop_root * stop_root)) with (2 ^ 64 - 7) in Hle. lia. }
    assert (r + 2 <= stop_root).
    { assert (stop_root mod 2 = 1) by done. Z.div_mod_to_equations. lia. }
    rewrite u64_small by (unfold stop_root in *; lia). split; [|lia]. split.
    + Z.div_mod_to_equations. lia.
    + lia.
    + apply no_divisor_next; try done; [lia|]. intros Hdiv. apply Hmod, Z.mod_divide; [lia|done].
    + destruct Hr4 as [Hr4|Hr4]; [|by right]. rewrite Hsmall in Hle by done.
      destruct (Z.le_gt_cases (r + 2) (2 ^ 32 - 1)); [by left|right].
      assert (r = 2 ^ 32 - 1) as -> by (Z.div_mod_to_equations; lia). done.
  - split; [|done]. intros _. apply (no_divisor_prime n r); [lia|done|].
    intros d Hd Hdd. destruct Hr4 as [Hr4|Hr4].
    + rewrite Hsmall in Hgt by done. nia.
    + assert (2 ^ 32 - 1 < r \/ r <= 2 ^ 32 - 1) as [?|?] by lia; [nia|].
      rewrite Hsmall in Hgt by done. nia.
Qed.

Lemma trial_start n : n mod 2 = 1 -> trial n 3.
Proof.
  intros Hn. split; [done|done| |lia]. intros d Hd Hdiv. assert (d = 2) as -> by lia.
  apply Z.mod_divide in Hdiv; lia.
Qed.

Lemma isprime_odd n :
  n mod 2 = 1 -> 3 <= n < 2 ^ 64 - 7 -> exists b, isprime n = Ret b /\ (b = true <-> Z.prime n).
Proof.
  intros Hodd Hn. unfold isprime. rewrite Hodd. simpl (1 =? 0).
  pose proof (search_returns (isprime_step n) (trial n) (fun r => stop_root - r)
    (fun b => b = true <-> Z.prime n)
    (fun r => isprime_step_spec n r Hodd Hn) (2 ^ 64) 3 (trial_start n Hodd)) as H.
  destruct (search _ _ _) as [r|b]; [|by exists b].
  destruct H as [_ H]. unfold stop_root in H. lia.
Qed.

Lemma isprime_spec n :
  0 <= n < 2 ^ 64 -> exists b, isprime n = Ret b /\ (b = true <-> Z.prime n \/ n = 1).
Proof.
  intros Hn. destruct (Z.eqb_spec (n mod 2) 0) as [Heven|Hodd].
  { unfold isprime. rewrite Heven. eexists. split; [done|]. rewrite Z.eqb_eq. split.
    - intros ->. left. apply Z.prime_2.
    - intros [Hp| ->]; [|done]. destruct (Z.eq_dec n 2) as [|Hne]; [done|]. exfalso.
      apply (proper_divisor_not_prime n 2); [|by apply Z.mod_divide|done].
      pose proof (Z.prime_ge_2 _ Hp). lia. }
  assert (n mod 2 = 1) as Hn1 by (Z.div_mod_to_equations; lia).
  destruct (Z.eq_dec n 1) as [->|]; [exists true; split; [by vm_compute|split; [by right|done]]|].
  assert (3 <= n) by (Z.div_mod_to_equations; lia).
  destruct (Z.lt_ge_cases n (2 ^ 64 - 7)) as [Hlt|Hge].
  { destruct (isprime_odd n) as (b & Hb & Hp); [done|lia|]. exists b. split; [done|].
    rewrite Hp. split; [by left|by intros [?|?]]. }
  assert (n = 2 ^ 64 - 7 \/ n = 2 ^ 64 - 5 \/ n = 2 ^ 64 - 3 \/ n = 2 ^ 64 - 1) as Hcases
    by (Z.div_mod_to_equations; lia).
  exists false. split; [destruct_or! Hcases; subst; by vm_compute|].
  split; [done|]. intros [Hp|]; [|done]. exfalso.
  destruct_or! Hcases; subst; revert Hp.
  - apply (proper_divisor_not_prime _ 3); [done|by apply Z.mod_divide].
  - apply (proper_divisor_not_prime _ 11); [done|by apply Z.mod_divide].
  - apply (proper_divisor_not_prime _ 13); [done|by apply Z.mod_divide].
  - apply (proper_divisor_not_prime _ 3); [done|by apply Z.mod_divide].
Qed.

(** ** A conversation

    A request is what one read callback brings. [request_value seg]: the number it
    denotes, the value of its leading digits; [request_number seg]: what the server
    makes of it, the same modulo [2^64]. [says v b]: [b] is what the server says about
    [v], which is not the truth about 1. [right_reply n reply]: the truth about [n]. *)

Definition request_value (seg : list Z) : Z := undec (span_digits seg).1.

Definition request_number (seg : list Z) : Z := u64 (request_value seg).

Definition says (v : Z) (b : bool) : Prop := b = true <-> Z.prime v \/ v = 1.

Definition answers (seg reply : list Z) : Prop :=
  exists b, says (request_number seg) b /\ reply = verdict b.

Definition right_reply (n : Z) (reply : list Z) : Prop :=
  Z.prime n /\ reply = PRIME \/ ~ Z.prime n /\ reply = COMPOSITE.

Lemma request_value_nonneg seg : 0 <= request_value seg.
Proof.
  unfold request_value. destruct (span_digits seg) as [ds rest] eqn:E. apply span_digits_inv in E as [_ Hd].
  unfold undec. simpl. assert (forall v, 0 <= v -> 0 <= fold_left (fun v d => v * 10 + (d - 48)) ds v) as H;
    [|by apply H].
  induction Hd as [|c ds Hc _ IH]; intros v Hv; simpl; [done|]. apply IH. unfold isdigit in Hc. bool_prop. lia.
Qed.

(** What the server says is the truth about the numbers it can hold, but for 1. *)
Lemma answers_right seg reply :
  answers seg reply -> request_value seg < 2 ^ 64 -> request_value seg <> 1 -> right_reply (request_value seg) reply.
Proof.
  intros (b & Hb & ->) Hlt Hne. unfold request_number in Hb. pose proof (request_value_nonneg seg).
  rewrite u64_small in Hb by lia. unfold says in Hb. destruct b; [left|right]; split; try done.
  - by destruct (proj1 Hb eq_refl).
  - intros Hp. by discriminate (proj2 Hb (or_introl Hp)).
Qed.

(** 2^64 + 1 = 274177 * 67280421310721 is taken for 1. *)
Example wrapped_request :
  request_value (lit "18446744073709551617") = 274177 * 67280421310721 /\
  request_number (lit "18446744073709551617") = 1 /\ isprime 1 = Ret true.
Proof. by vm_compute. Qed.

(** Nothing is outstanding: every request has been answered. *)
Definition idle (c : conn) : Prop := c_work c = [] /\ u_writes (c_client c) = [].

(** The client waits for the reply before it sends more or disconnects. *)
Definition patient (c : conn) (ev : event) : Prop :=
  match ev with Read _ nread _ _ => nread <> 0 -> idle c | _ => True end.

(** The request a callback brings. *)
Definition request (ev : event) : list (list Z) :=
  match ev with
  | Read base nread _ _ => if 0 <? nread then [slice (default [] base) 0 nread] else []
  | _ => []
  end.

(** No answer of libuv or [malloc] is a failure. *)
Definition answers_ok (ev : event) : Prop :=
  match ev with
  | Read base _ mem rc => base <> None /\ mem <> None /\ 0 <= rc
  | Completed _ status mem rc => status = 0 /\ mem <> None /\ 0 <= rc
  | Sent status => status = 0
  | _ => True
  end.

(** The states of a connection with a patient client, and its requests so far. *)
Inductive polite (block : bool) : conn -> list (list Z) -> Prop :=
| polite_start status a c :
    on_peer_connected status a = Ret (Some c) -> ca_accept a = 0 ->
    (forall num buf, ca_state a = Some (num, buf) -> length buf = 1024%nat) ->
    polite block c []
| polite_step c segs ev c' :
    polite block c segs -> may c ev -> patient c ev -> handle block c ev = Ret c' ->
    polite block c' (segs ++ request ev).

(** *** Invariant *)

Definition buf_ok (p : peer_state_t) : Prop := length (sendbuf p) = 1024%nat.

Definition holds (p : peer_state_t) (b : bool) : Prop :=
  buf_ok p /\ sendbuf_end p = Z.of_nat (length (verdict b)) /\
  slice (sendbuf p) 0 (sendbuf_end p) = verdict b.

(** [phase w c o]: the replies to the earlier requests are [w], and the request
    being answered is about [o]. *)
Inductive phase (w : list Z) : conn -> option Z -> Prop :=
| phase_idle p : buf_ok p -> phase w (Conn (Client (Live p) true false [] w) []) None
| phase_closing d : phase w (Conn (Client d false true [] w) []) None
| phase_submitted p :
    buf_ok p -> 0 <= number p < 2 ^ 64 ->
    phase w (Conn (Client (Live p) true false [] w) [Submitted]) (Some (number p))
| phase_computed p v b :
    buf_ok p -> says v b -> phase w (Conn (Client (Live p) true false [] w) [Computed b]) (Some v)
| phase_stored p v b :
    holds p b -> says v b -> phase w (Conn (Client (Live p) true false [] w) [Stored]) (Some v)
| phase_sending p v b t :
    holds p b -> says v b -> 0 <= t <= Z.of_nat (length (verdict b)) ->
    phase w (Conn (Client (Live p) true false [WriteReq tt (Z.of_nat (length (verdict b))) t]
                     (w ++ slice (verdict b) 0 t)) []) (Some v).

Lemma set_loop_spec str i buf :
  0 <= i -> length buf = 1024%nat -> i + Z.of_nat (length str) <= 1024 ->
  exists buf', set_loop str i buf = Ret (buf', i + Z.of_nat (length str)) /\
    length buf' = 1024%nat /\
    slice buf' 0 (i + Z.of_nat (length str)) = slice buf 0 i ++ str.
Proof.
  revert i buf. induction str as [|c str IH]; intros i buf Hi Hlen Hfit; simpl in *.
  { exists buf. rewrite Z.add_0_r, app_nil_r. done. }
  unfold SENDBUF_SIZE. destruct (Z.ltb_spec i 1024); [|lia].
  rewrite buf_set_ok by lia. rewrite outcome_ret_bind.
  destruct (IH (i + 1) (<[Z.to_nat i:=c]> buf)) as (buf' & -> & Hlen' & Hs);
    [lia|by rewrite length_insert|lia|].
  exists buf'. split; [do 2 f_equal; lia|]. split; [done|].
  replace (i + Z.of_nat (S (length str))) with (i + 1 + Z.of_nat (length str)) by lia. rewrite Hs.
  by rewrite slice_snoc_set, <- app_assoc by lia.
Qed.

Lemma set_peer_sendbuf_spec p b :
  buf_ok p -> exists p', set_peer_sendbuf p (verdict b) = Ret p' /\ holds p' b.
Proof.
  intros Hp. destruct (set_loop_spec (verdict b) 0 (sendbuf p)) as (buf & H & Hlen & Hs);
    [done|done|by destruct b|].
  unfold set_peer_sendbuf. rewrite H. rewrite outcome_ret_bind.
  eexists. split; [done|]. split; [done|]. split; [done|]. simpl. by rewrite Hs.
Qed.

Lemma parse_loop_spec n i v base :
  0 <= i -> i + Z.of_nat n <= Z.of_nat (length base) ->
  parse_loop n i (u64 v) base =
    Ret (u64 (fold_left (fun v d => v * 10 + (d - 48)) (span_digits (slice base i (Z.of_nat n))).1 v)).
Proof.
  revert i v. induction n as [|n IH]; intros i v Hi Hn; [done|]. simpl parse_loop.
  destruct (buf_get_lt base i) as (c & Hc & ->); [lia|]. rewrite outcome_ret_bind.
  rewrite (slice_cons_lookup _ _ _ _ Hi Hc). simpl span_digits.
  destruct (isdigit c); [|done].
  destruct (span_digits (slice base (i + 1) (Z.of_nat n))) as [d r] eqn:E. simpl fst. simpl fold_left.
  replace (u64 (u64 v * 10 + (c - 48))) with (u64 (v * 10 + (c - 48))).
  - rewrite IH by lia. by rewrite E.
  - unfold u64. rewrite <- (Zplus_mod_idemp_l (v mod _ * 10)), Zmult_mod_idemp_l.
    by rewrite Zplus_mod_idemp_l.
Qed.

Lemma parse_request base nread :
  0 < nread <= Z.of_nat (length base) ->
  parse_loop (Z.to_nat nread) 0 0 base = Ret (request_number (slice base 0 nread)).
Proof.
  intros Hn. pose proof (parse_loop_spec (Z.to_nat nread) 0 0 base) as H.
  rewrite Z2Nat.id in H by lia. change (u64 0) with 0 in H. by rewrite H by lia.
Qed.

Lemma isprime_says v : 0 <= v < 2 ^ 64 -> exists b, isprime v = Ret b /\ says v b.
Proof. apply isprime_spec. Qed.

(** What a callback does to the phase. *)
Definition advances (w : list Z) (o : option Z) (ev : event) (c' : conn) : Prop :=
  match request ev with
  | [] => phase w c' o \/ exists v b, o = Some v /\ says v b /\ phase (w ++ verdict b) c' None
  | seg :: _ => o = None /\ phase w c' (Some (request_number seg))
  end.

Definition step_ok (w : list Z) (o : option Z) (ev : event) (r : outcome conn) : Prop :=
  match r with
  | Ret c' => advances w o ev c'
  | Exit _ => ~ answers_ok ev
  | Fault _ => False
  end.

Lemma send_reply_spec w p v b mem rc ws :
  holds p b -> says v b -> ws = [] ->
  match send_reply (Conn (Client (Live p) true false ws w) []) mem rc with
  | Ret c' => phase w c' (Some v)
  | Exit _ => mem = None \/ rc < 0
  | Fault _ => False
  end.
Proof.
  intros Hp Hv ->. unfold send_reply. simpl. destruct mem as [[]|]; simpl; [|by left].
  unfold uv_write. destruct (Z.ltb_spec rc 0); simpl; [by right|].
  destruct Hp as (Hok & Hend & Hs). rewrite Hend.
  rewrite <- (app_nil_r w) at 2. apply (phase_sending w p v b 0); [by repeat split|done|lia].
Qed.

Lemma read_step block w p nread base mem rc :
  buf_ok p -> 0 < nread <= Z.of_nat (length base) ->
  step_ok w None (Read (Some base) nread mem rc)
    (reclaim (on_peer_read block (Conn (Client (Live p) true false [] w) []) nread (Live base) mem rc)).
Proof.
  intros Hp Hn. unfold on_peer_read, step_ok, advances, request.
  destruct (Z.ltb_spec nread 0); [lia|]. destruct (Z.eqb_spec nread 0); [lia|].
  simpl deref. rewrite outcome_ret_bind. destruct (Z.ltb_spec (Z.of_nat (length base)) nread); [lia|].
  rewrite parse_request, outcome_ret_bind by done. simpl default.
  destruct (Z.ltb_spec 0 nread); [|lia].
  set (v := request_number _). assert (0 <= v < 2 ^ 64) as Hv by apply u64_range.
  rewrite outcome_ret_bind. cbv zeta. destruct block.
  - destruct (isprime_says v Hv) as (b & -> & Hb). rewrite outcome_ret_bind.
    destruct (set_peer_sendbuf_spec (PeerState v (sendbuf p) (sendbuf_end p)) b) as (p' & -> & Hp');
      [done|]. rewrite outcome_ret_bind.
    pose proof (send_reply_spec w p' v b mem rc [] Hp' Hb eq_refl) as Hsr. unfold set_data. simpl.
    destruct (send_reply _ _ _); [done| |done]. intros (_ & ? & ?). destruct Hsr; [done|lia].
  - destruct mem as [[]|]; simpl; [|by intros (_ & ? & _)].
    destruct (Z.ltb_spec rc 0); simpl; [intros (_ & _ & ?); lia|].
    split; [done|]. by apply (phase_submitted w (PeerState v (sendbuf p) (sendbuf_end p))).
Qed.

Lemma take_step w p v b t k block :
  holds p b -> says v b -> 0 <= t <= Z.of_nat (length (verdict b)) -> 0 <= k ->
  step_ok w (Some v) (Take k) (handle block
    (Conn (Client (Live p) true false [WriteReq tt (Z.of_nat (length (verdict b))) t]
             (w ++ slice (verdict b) 0 t)) []) (Take k)).
Proof.
  intros (Hok & Hend & Hs) Hv Ht Hk. simpl. unfold uv_take. simpl.
  set (n := Z.of_nat (length (verdict b))) in *.
  destruct (Z.ltb_spec t n); unfold advances; simpl; left.
  - set (m := k `min` (n - t)). rewrite <- app_assoc.
    replace (slice (verdict b) 0 t ++ slice (sendbuf p) t m) with (slice (verdict b) 0 (t + m)).
    + apply phase_sending; [by repeat split|done|fold n; lia].
    + rewrite (slice_split (verdict b) 0 (t + m) t) by lia. f_equal.
      rewrite <- Hs, Hend. fold n. unfold slice. rewrite !drop_0, Z.add_0_l.
      replace (t + m - t) with m by lia.
      rewrite skipn_firstn_comm, take_take. f_equal. lia.
  - rewrite app_nil_r. apply phase_sending; [by repeat split|done|fold n; lia].
Qed.

(** A read callback with nothing in it, or the end of the stream. *)
Lemma read_other block w c o nread base mem rc :
  phase w c o -> (nread <> 0 -> idle c) -> nread <= 0 ->
  step_ok w o (Read (Some base) nread mem rc) (reclaim (on_peer_read block c nread (Live base) mem rc)).
Proof.
  intros Hph Hidle Hn. unfold on_peer_read, step_ok, advances, request.
  destruct (Z.ltb_spec 0 nread); [lia|]. destruct (Z.ltb_spec nread 0).
  - destruct Hidle as [Hw Hs]; [lia|]. left. destruct Hph; simplify_eq/=; apply phase_closing.
  - destruct (Z.eqb_spec nread 0); [by left|lia].
Qed.

Lemma phase_step block w c o ev :
  phase w c o -> may c ev -> patient c ev -> step_ok w o ev (handle block c ev).
Proof.
  intros Hph Hmay Hpat.
  destruct ev as [base nread mem rc|i|i|i status mem rc|k|status|]; simpl in Hmay.
  - destruct base as [base|]; [|simpl; by intros (? & _)].
    change (handle block c _) with (reclaim (on_peer_read block c nread (Live base) mem rc)).
    destruct (Z.lt_ge_cases 0 nread) as [Hn|Hn]; [|by apply read_other].
    destruct Hpat as [Hw Hs]; [lia|]. destruct Hmay as (Hr & _ & Hlen).
    destruct Hph; simplify_eq/=. apply read_step; [done|]. split; [done|]. by apply Hlen.
  - destruct Hph; simpl in Hmay; try (destruct i; simplify_eq/=; done).
    destruct i; simplify_eq/=. destruct (isprime_says (number p)) as (b & Hb & Ht); [done|].
    unfold work_compute. simpl. rewrite Hb. simpl. left. by apply phase_computed.
  - destruct Hmay as [b0 Hmay]. destruct Hph; simpl in Hmay; try (destruct i; simplify_eq/=; done).
    destruct i; simplify_eq/=. unfold work_store. simpl.
    destruct (set_peer_sendbuf_spec p b0) as (p' & -> & Hp'); [done|]. simpl. left.
    by apply phase_stored with b0.
  - destruct Hmay as [Hmay Hst]. destruct Hph; simpl in Hmay; try (destruct i; simplify_eq/=; done).
    destruct i; simplify_eq/=. unfold on_work_completed.
    destruct (Z.eqb_spec status 0) as [->|]; simpl; [|tauto].
    match goal with Hp : holds _ _, Hv : says _ _ |- _ =>
      pose proof (send_reply_spec w p v b mem rc [] Hp Hv eq_refl) as Hr end.
    unfold step_ok, advances. simpl. destruct (send_reply _ _ _); [by left| |done].
    intros (_ & ? & ?). destruct Hr; [done|lia].
  - destruct Hmay as (Hk & _ & Hne). destruct Hph; simplify_eq/=; try done. by apply take_step.
  - destruct Hmay as (q & ws & Hw & Hst & Hdone). destruct Hph; simplify_eq/=.
    unfold on_sent_response. destruct (Z.eqb_spec status 0) as [->|]; simpl; [|tauto].
    right. exists v, b. split; [done|]. split; [done|]. specialize (Hdone eq_refl). subst t.
    unfold slice. rewrite Nat2Z.id, drop_0, firstn_all. apply phase_idle.
    by match goal with H : holds _ _ |- _ => destruct H end.
  - destruct Hmay as (Hc & _ & Hf). destruct Hph; simplify_eq/=.
    unfold on_client_closed. simpl. destruct d; [| |done]; simpl; left; apply phase_closing.
Qed.

Lemma polite_phase block c segs :
  polite block c segs ->
  exists replies, (Forall2 answers segs replies /\ phase (concat replies) c None) \/
    exists segs0 seg, segs = segs0 ++ [seg] /\ Forall2 answers segs0 replies /\
      phase (concat replies) c (Some (request_number seg)).
Proof.
  induction 1 as [status a c Hc Hacc Hbuf|c segs ev c' _ IH Hmay Hpat Hev].
  - exists []. left. split; [done|]. unfold on_peer_connected in Hc. rewrite Hacc in Hc.
    destruct (status <? 0); [done|]. apply outcome_bind_inv in Hc as (_ & _ & Hc).
    destruct (ca_init a <? 0), (ca_name a <? 0); [done..|]. simpl in Hc.
    destruct (ca_state a) as [[num buf]|]; [|done]. simpl in Hc.
    unfold uv_read_start in Hc. destruct (ca_start a <? 0); simplify_eq/=.
    apply phase_idle. by apply (Hbuf num).
  - destruct IH as (replies & [[Hans Hph]|(segs0 & seg & -> & Hans & Hph)]);
      pose proof (phase_step block _ _ _ _ Hph Hmay Hpat) as Hstep; rewrite Hev in Hstep;
      simpl in Hstep; unfold advances in Hstep.
    + exists replies. destruct (request ev) as [|seg l] eqn:Er.
      * rewrite app_nil_r. left. destruct Hstep as [?|(? & ? & ? & _)]; done.
      * right. exists segs, seg. assert (l = []) as ->.
        { destruct ev; simpl in Er; try done. destruct (0 <? nread); by simplify_eq. }
        destruct Hstep. done.
    + destruct (request ev) as [|seg' l]; [|by destruct Hstep]. rewrite app_nil_r.
      destruct Hstep as [Hph'|(v & b & [= <-] & Hb & Hph')].
      * exists replies. right. by exists segs0, seg.
      * exists (replies ++ [verdict b]). left. split.
        { apply Forall2_app; [done|]. constructor; [by exists b|done]. }
        rewrite concat_app. simpl. by rewrite app_nil_r.
Qed.

(** How far the request being answered is from its reply. *)
Definition outstanding (c : conn) : Z :=
  fold_right Z.add 0 ((fun k => match k with Submitted => 40 | Computed _ => 30 | Stored => 20 end)
                       <$> c_work c) +
  fold_right Z.add 0 ((fun w => 1 + w_len w - w_taken w) <$> u_writes (c_client c)).

Lemma phase_reply w c v :
  phase w c (Some v) -> ~ idle c /\
  exists b rest, says v b /\ w ++ verdict b = u_wire (c_client c) ++ rest.
Proof.
  intros Hph. inversion Hph as [| |p Hp Hn|p v' b Hp Hb|p v' b Hp Hb|p v' b t Hp Hb Ht]; subst;
    (split; [by intros [??]|]); simpl.
  - destruct (isprime_says _ Hn) as (b & _ & Hb). by exists b, (verdict b).
  - by exists b, (verdict b).
  - by exists b, (verdict b).
  - exists b, (drop (Z.to_nat t) (verdict b)). split; [done|].
    rewrite <- app_assoc. unfold slice. by rewrite drop_0, take_drop.
Qed.

Lemma phase_none w c : phase w c None -> idle c /\ u_wire (c_client c) = w.
Proof. intros Hph. by inversion Hph. Qed.

Lemma verdict_length b : 0 < Z.of_nat (length (verdict b)) <= 10.
Proof. by destruct b. Qed.

(** The next step towards the reply. *)
Lemma phase_progress block w c v :
  phase w c (Some v) ->
  exists ev c', may c ev /\ patient c ev /\ answers_ok ev /\ handle block c ev = Ret c' /\
    outstanding c' < outstanding c.
Proof.
  intros Hph. inversion Hph as [| |p Hp Hn|p v' b Hp Hb|p v' b Hp Hb|p v' b t Hp Hb Ht]; subst.
  - destruct (isprime_says _ Hn) as (b & Hb & _). exists (Compute 0). eexists.
    do 3 (split; [done|]). split; [|shelve]. simpl. unfold work_compute. simpl. by rewrite Hb.
    Unshelve. done.
  - destruct (set_peer_sendbuf_spec p b Hp) as (p' & Hp' & _). exists (Store 0). eexists.
    split; [by exists b|]. do 2 (split; [done|]). split; [|shelve].
    simpl. unfold work_store. simpl. by rewrite Hp'.
    Unshelve. done.
  - exists (Completed 0 0 (Some tt) 0). eexists. do 4 (split; [done|]).
    destruct Hp as (_ & Hend & _). unfold outstanding. simpl. rewrite Hend.
    pose proof (verdict_length b). lia.
  - destruct (Z.eq_dec t (Z.of_nat (length (verdict b)))) as [->|Hne].
    + exists (Sent 0). eexists. split; [by eexists _, _|]. do 3 (split; [done|]).
      unfold outstanding. simpl. lia.
    + exists (Take 1). eexists. split; [done|]. do 2 (split; [done|]). simpl. unfold uv_take. simpl.
      destruct (Z.ltb_spec t (Z.of_nat (length (verdict b)))); [|lia]. split; [done|].
      unfold outstanding. simpl. lia.
Qed.

(** What a patient client does not do: when a client disconnects while its number is with the workers, libuv may run the close callback
    first, and the worker then reads a freed peer state. *)
Lemma disconnect_use_after_free block p w base :
  let c := Conn (Client (Live p) true false [] w) [Submitted] in
  exists c1 c2,
    may c (Read (Some base) (-1) None 0) /\ handle block c (Read (Some base) (-1) None 0) = Ret c1 /\
    may c1 Closed /\ handle block c1 Closed = Ret c2 /\
    may c2 (Compute 0) /\ handle block c2 (Compute 0) = Fault UseAfterFree.
Proof.
  intros c. do 2 eexists. split; [by repeat split; simpl; try lia|].
  split; [done|]. split; [done|]. done.
Qed.

Lemma phase_abandoned block w c v base :
  phase w c (Some v) -> Submitted ∈ c_work c -> exists c1 c2,
    may c (Read (Some base) (-1) None 0) /\ handle block c (Read (Some base) (-1) None 0) = Ret c1 /\
    may c1 Closed /\ handle block c1 Closed = Ret c2 /\
    may c2 (Compute 0) /\ handle block c2 (Compute 0) = Fault UseAfterFree.
Proof.
  intros Hph Hin. inversion Hph as [| |p Hp Hn|p v' b Hp Hb|p v' b Hp Hb|p v' b t Hp Hb Ht]; subst; simpl in Hin;
    try by apply list_elem_of_singleton in Hin || apply elem_of_nil in Hin.
  apply disconnect_use_after_free.
Qed.

(** Several steps. *)
Fixpoint allowed (block : bool) (c : conn) (evs : list event) : Prop :=
  match evs with
  | [] => True
  | ev :: evs' =>
      may c ev /\ patient c ev /\
      match handle block c ev with Ret c1 => allowed block c1 evs' | _ => False end
  end.

Fixpoint run (block : bool) (c : conn) (evs : list event) : outcome conn :=
  match evs with
  | [] => Ret c
  | ev :: evs' => c ← handle block c ev; run block c evs'
  end.

Lemma polite_run block c segs evs c' :
  polite block c segs -> allowed block c evs -> run block c evs = Ret c' ->
  polite block c' (segs ++ concat (request <$> evs)).
Proof.
  revert c segs. induction evs as [|ev evs IH]; simpl; intros c segs Hc.
  - intros _ [= <-]. by rewrite app_nil_r.
  - intros (Hmay & Hpat & Hall) Hrun. destruct (handle block c ev) as [c1| |] eqn:Hev; [|done..].
    rewrite app_assoc. apply (IH c1); [|done|done]. by apply polite_step with c.
Qed.

(** C18 [isprime_correct]: for every 64-bit number the test returns, and it says
    prime exactly of the primes and of 1. The square of the divisor wraps around
    for the largest numbers, without changing the answer or the termination. *)
Theorem isprime_correct n :
  0 <= n < 2 ^ 64 -> exists b, isprime n = Ret b /\ (b = true <-> Z.prime n \/ n = 1).
Proof. apply isprime_spec. Qed.

Lemma isprime_correct_witness :
  (exists b, isprime 1000003 = Ret b /\ (b = true <-> Z.prime 1000003 \/ 1000003 = 1)) /\
  isprime 1000003 = Ret true /\ isprime (1009 * 1013) = Ret false.
Proof. split; [apply isprime_correct; lia|]. split; vm_compute; reflexivity. Defined.

(** C19 [prime_conversation]: a client that waits for each reply, and whose requests
    arrive in one read callback each, is answered, in both modes and however libuv, its
    workers and the socket take turns: what it has received is the replies to its
    requests so far, all of them once nothing is outstanding. The reply is the truth
    about every number below 2^64 other than 1; it says prime of 1, and of a larger
    number what it says of its value modulo 2^64. No callback touches freed memory or leaves
    the buffer, the process ends only when an answer of libuv or [malloc] is a
    failure, and while a reply is outstanding there is a step towards it. A client
    that does not wait, and disconnects while its number is with the workers, leaves
    the worker with a freed peer state. *)
Theorem prime_conversation block c segs :
  polite block c segs ->
  (exists replies rest,
     Forall2 answers segs replies /\
     Forall2 (fun seg reply => request_value seg < 2 ^ 64 -> request_value seg <> 1 ->
                right_reply (request_value seg) reply) segs replies /\
     concat replies = u_wire (c_client c) ++ rest /\
     (idle c -> rest = [])) /\
  (forall ev, may c ev -> patient c ev ->
     match handle block c ev with Ret _ => True | Exit _ => ~ answers_ok ev | Fault _ => False end) /\
  (~ idle c -> exists ev c',
     may c ev /\ patient c ev /\ answers_ok ev /\ handle block c ev = Ret c' /\
     outstanding c' < outstanding c) /\
  (Submitted ∈ c_work c -> forall base, exists c1 c2,
     may c (Read (Some base) (-1) None 0) /\ handle block c (Read (Some base) (-1) None 0) = Ret c1 /\
     may c1 Closed /\ handle block c1 Closed = Ret c2 /\
     may c2 (Compute 0) /\ handle block c2 (Compute 0) = Fault UseAfterFree).
Proof.
  intros Hc. apply polite_phase in Hc as (replies & [[Hans Hph]|(segs0 & seg & -> & Hans & Hph)]).
  - destruct (phase_none _ _ Hph) as [Hidle Hw].
    split; [|split; [|split; [done|destruct Hidle as [-> _]; by intros ?%elem_of_nil]]].
    { exists replies, []. rewrite app_nil_r. split; [done|]. split; [|done].
      eapply Forall2_impl; [exact Hans|]. apply answers_right. }
    intros ev Hmay Hpat. pose proof (phase_step block _ _ _ _ Hph Hmay Hpat) as H.
    by destruct (handle block c ev).
  - destruct (phase_reply _ _ _ Hph) as (Hidle & b & rest & Hb & Hrest).
    split; [|split; [|split; [intros _; by eapply phase_progress|intros Hin base; by apply (phase_abandoned block _ _ _ base Hph)]]].
    { assert (Forall2 answers (segs0 ++ [seg]) (replies ++ [verdict b])) as Hall.
      { apply Forall2_app; [done|]. constructor; [by exists b|done]. }
      exists (replies ++ [verdict b]), rest. split; [done|]. split; [|split; [|done]].
      - eapply Forall2_impl; [exact Hall|]. apply answers_right.
      - rewrite concat_app. simpl. by rewrite app_nil_r. }
    intros ev Hmay Hpat. pose proof (phase_step block _ _ _ _ Hph Hmay Hpat) as H.
    by destruct (handle block c ev).
Qed.

Definition demo_answers : connect_answers :=
  ConnectAnswers (Some tt) 0 0 0 (Some (77, replicate 1024 255)) 0.

Definition demo_client : client peer_state_t unit :=
  Client (Live (PeerState 77 (replicate 1024 255) 0)) true false [] [].

Definition demo_events : list event :=
  [Read (Some (lit "91;x")) 4 (Some tt) 0; Compute 0; Store 0; Completed 0 0 (Some tt) 0; Take 4; Take 99;
   Sent 0; Read (Some (lit "97" ++ [10])) 2 (Some tt) 0; Compute 0].

Definition demo_conn : conn :=
  match run false (Conn demo_client []) demo_events with Ret c => c | _ => Conn demo_client [] end.

Lemma demo_polite : polite false demo_conn [lit "91;x"; lit "97"].
Proof.
  apply (polite_run false (Conn demo_client []) [] demo_events).
  - by apply (polite_start false 0 demo_answers); [..|intros ?? [= <- <-]].
  - vm_compute. repeat first [exact I|split|discriminate|intros ? [= <-]|intros ?|eexists].
  - by vm_compute.
Qed.

Lemma prime_conversation_witness :
  u_wire (c_client demo_conn) = COMPOSITE /\
  exists replies rest, Forall2 answers [lit "91;x"; lit "97"] replies /\
    concat replies = u_wire (c_client demo_conn) ++ rest /\ right_reply 97 (default [] (replies !! 1%nat)).
Proof.
  split; [vm_compute; reflexivity|].
  destruct (prime_conversation false _ _ demo_polite) as [(replies & rest & H1 & H2 & H3 & _) _].
  exists replies, rest. split; [exact H1|]. split; [exact H3|].
  destruct replies as [|r1 [|r2 rs]]; [by inversion H2|by inversion H2; match goal with H : Forall2 _ _ [] |- _ => inversion H end|].
  inversion H2 as [|? ? ? ? _ H4]; subst. inversion H4 as [|? ? ? ? H5 _]; subst. by apply H5.
Defined.
