(* ===== verification/UvServer.v ===== *)
(** * The libuv server (src/src/uv_server.c)

    The framing protocol on libuv's callbacks. libuv runs them one at a time on the
    loop thread; what it may run next is described in Libuv.v.

    - [handle]: one callback, or libuv sending bytes of a pending write;
    - [uv_reach]: the states of a connection, for a restriction on what libuv does;
    - the theorems: without any restriction no callback leaves the send buffer or,
      until the kill switch is hit, touches freed memory, and what can end the
      process; when the write callback of
      an echo runs before the next read callback, the client is served by the
      protocol. [overlapping_reads] shows what happens when it does not. *)

From S2P Require Import Prelude Framing Utils Libuv.
Local Open Scope Z_scope.

Definition SENDBUF_SIZE : Z := 1024.

Inductive processing_state := INITIAL_ACK | WAIT_FOR_MSG | IN_MSG.

#[export] Instance processing_state_eq_dec : EqDecision processing_state.
Proof. solve_decision. Defined.

Record peer_state_t := PeerState {
  state : processing_state;
  sendbuf : list Z;
  sendbuf_end : Z
}.

(** The callback of a write request. *)
Inductive write_cb := on_wrote_init_ack_cb | on_wrote_buf_cb.

Definition uv_client : Type := client peer_state_t write_cb.

(** A client, and whether [uv_stop] has been called. The loop ends not sooner than its
    next iteration, so callbacks may still run after it. *)
Record server := Server { s_client : uv_client; s_stopped : bool }.

(** ** The callbacks *)

Fixpoint consume_loop (n : nat) (i : Z) (base : list Z) (p : peer_state_t) : outcome peer_state_t :=
  match n with
  | O => Ret p
  | S n' =>
      match state p with
      | INITIAL_ACK => Exit "assertion failed"
      | WAIT_FOR_MSG =>
          c ← buf_get base i;
          consume_loop n' (i + 1) base
            (if c =? HAT then PeerState IN_MSG (sendbuf p) (sendbuf_end p) else p)
      | IN_MSG =>
          c ← buf_get base i;
          if c =? DOLLAR then
            consume_loop n' (i + 1) base (PeerState WAIT_FOR_MSG (sendbuf p) (sendbuf_end p))
          else if sendbuf_end p <? SENDBUF_SIZE then
            buf ← buf_set (sendbuf p) (sendbuf_end p) (u8 (c + 1));
            consume_loop n' (i + 1) base (PeerState IN_MSG buf (sendbuf_end p + 1))
          else Exit "assertion failed"
      end
  end.

(** [buf]: the memory of [on_alloc_buffer]; [mem], [rc]: the answers of [xmalloc] and
    [uv_write]. *)
Definition on_peer_read (c : uv_client) (nread : Z) (buf : cell (list Z)) (mem : option unit) (rc : Z) :
    outcome (uv_client * cell (list Z)) :=
  if nread <? 0 then release (uv_close c) buf
  else if nread =? 0 then release c buf
  else
    base ← deref buf;
    if Z.of_nat (length base) <? nread then Exit "assertion failed"
    else
      p ← deref (u_data c);
      if decide (state p = INITIAL_ACK) then release c buf
      else
        p ← consume_loop (Z.to_nat nread) 0 base p;
        let c := set_data c p in
        c ← (if 0 <? sendbuf_end p then _ ← xmalloc mem; uv_write c on_wrote_buf_cb (sendbuf_end p) rc
             else Ret c);
        release c buf.

(** [req]: the write request, which the callback frees. *)
Definition on_wrote_init_ack (c : uv_client) (req : cell unit) (status rc : Z) :
    outcome (uv_client * cell unit) :=
  if negb (status =? 0) then Exit "Write error"
  else
    p ← deref (u_data c);
    c ← uv_read_start (set_data c (PeerState WAIT_FOR_MSG (sendbuf p) 0)) rc;
    release c req.

(** The test of the kill switch, evaluated from left to right. *)
Definition kill_switch (p : peer_state_t) : outcome bool :=
  if 3 <=? sendbuf_end p then
    x ← buf_get (sendbuf p) (sendbuf_end p - 3);
    if x =? 88 then
      y ← buf_get (sendbuf p) (sendbuf_end p - 2);
      if y =? 89 then
        z ← buf_get (sendbuf p) (sendbuf_end p - 1);
        Ret (z =? 90)
      else Ret false
    else Ret false
  else Ret false.

Definition on_wrote_buf (s : server) (req : cell unit) (status : Z) : outcome (server * cell unit) :=
  if negb (status =? 0) then Exit "Write error"
  else
    let c := s_client s in
    p ← deref (u_data c);
    kill_switch p ≫= fun kill : bool =>
    if kill then
      data ← free (u_data c);
      release (Server (Client data (u_reading c) (u_closing c) (u_writes c) (u_wire c)) true) req
    else release (Server (set_data c (PeerState (state p) (sendbuf p) 0)) (s_stopped s)) req.

(** The answers of libuv and of [malloc] to [on_peer_connected]; the contents of
    fresh memory are arbitrary. *)
Record connect_answers := ConnectAnswers {
  ca_handle : option unit; ca_init : Z; ca_accept : Z; ca_name : Z;
  ca_state : option (list Z); ca_req : option unit; ca_write : Z
}.

Definition on_peer_connected (status : Z) (a : connect_answers) : outcome (option server) :=
  if status <? 0 then Ret None
  else
    _ ← xmalloc (ca_handle a);
    if ca_init a <? 0 then Exit "uv_tcp_init failed"
    else
      let client := Client Null false false [] [] in
      if ca_accept a =? 0 then
        if ca_name a <? 0 then Exit "uv_tcp_getpeername failed"
        else
          buf ← xmalloc (ca_state a);
          buf ← buf_set buf 0 STAR;
          let client := set_data client (PeerState INITIAL_ACK buf 1) in
          _ ← xmalloc (ca_req a);
          c ← uv_write client on_wrote_init_ack_cb 1 (ca_write a);
          Ret (Some (Server c false))
      else Ret (Some (Server (uv_close client) false)).

(** [main] up to [uv_run]. *)
Definition server_main : option (list Z) -> main_answers -> outcome Z := uv_main 9090.

(** ** The callbacks under libuv *)

Inductive event :=
| Read (base : option (list Z)) (nread : Z) (mem : option unit) (rc : Z)
| Take (k : Z)
| Wrote (status rc : Z)
| Closed.

Definition running (s : server) (r : outcome uv_client) : outcome server := c ← r; Ret (Server c (s_stopped s)).

Definition handle (s : server) (ev : event) : outcome server :=
  let c := s_client s in
  match ev with
  | Read base nread mem rc =>
      buf ← on_alloc_buffer base;
      running s (reclaim (on_peer_read c nread buf mem rc))
  | Take k => running s (uv_take sendbuf c k)
  | Wrote status rc =>
      match u_writes c with
      | [] => Ret s
      | w :: ws =>
          match w_cb w with
          | on_wrote_init_ack_cb => running s (reclaim (on_wrote_init_ack (set_writes c ws) (Live tt) status rc))
          | on_wrote_buf_cb => reclaim (on_wrote_buf (Server (set_writes c ws) (s_stopped s)) (Live tt) status)
          end
      end
  | Closed => running s (on_client_closed c)
  end.

(** What libuv may do next, also in the iteration in which its loop was stopped. *)
Definition may (s : server) (ev : event) : Prop :=
  match ev with
  | Read base nread _ _ => may_read (s_client s) base nread
  | Take k => may_take (s_client s) k
  | Wrote status _ => exists w ws, may_write_cb (s_client s) w ws status
  | Closed =>
      (* the kill switch frees the peer state of a handle that is not closed *)
      if s_stopped s then u_closing (s_client s) = true /\ u_writes (s_client s) = [] else may_close_cb (s_client s)
  end.

(** The bytes a callback brings. *)
Definition bytes_of (ev : event) : list Z :=
  match ev with Read base nread _ _ => slice (default [] base) 0 nread | _ => [] end.

(** [uv_reach calm s bs]: the server can be in [s] after the client's bytes [bs],
    when libuv obeys [calm]. *)
Inductive uv_reach (calm : server -> event -> Prop) : server -> list Z -> Prop :=
| uv_reach_start status a s :
    on_peer_connected status a = Ret (Some s) -> ca_accept a = 0 ->
    (forall buf, ca_state a = Some buf -> length buf = 1024%nat) ->
    uv_reach calm s []
| uv_reach_step s bs ev s' :
    uv_reach calm s bs -> may s ev -> calm s ev -> handle s ev = Ret s' ->
    uv_reach calm s' (bs ++ bytes_of ev).

(** No restriction; and: the write callback of an echo runs before more bytes are
    read. *)
Definition any_order (s : server) (ev : event) : Prop := True.

Definition one_at_a_time (s : server) (ev : event) : Prop :=
  match ev with Read _ nread _ _ => 0 < nread -> u_writes (s_client s) = [] | _ => True end.

(** No answer of libuv or [malloc] is a failure. *)
Definition answers_ok (ev : event) : Prop :=
  match ev with
  | Read base _ mem rc => base <> None /\ mem <> None /\ 0 <= rc
  | Wrote status rc => status = 0 /\ 0 <= rc
  | _ => True
  end.

Definition fstate (st : processing_state) : ProcessingState :=
  match st with IN_MSG => Framing.IN_MSG | _ => Framing.WAIT_FOR_MSG end.

(** The echo of what has been read does not fit the send buffer. *)
Definition overflow (s : server) (ev : event) : Prop :=
  match u_data (s_client s) with
  | Live p => SENDBUF_SIZE < sendbuf_end p + Z.of_nat (length (frame_out (fstate (state p)) (bytes_of ev)))
  | _ => False
  end.

(** ** The state machine *)

Definition peer_ok (p : peer_state_t) : Prop :=
  length (sendbuf p) = 1024%nat /\ 0 <= sendbuf_end p <= 1024.

Lemma uv_consume_spec n i base p :
  state p <> INITIAL_ACK -> 0 <= i -> i + Z.of_nat n <= Z.of_nat (length base) -> peer_ok p ->
  let out := frame_out (fstate (state p)) (slice base i (Z.of_nat n)) in
  if decide (sendbuf_end p + Z.of_nat (length out) <= 1024) then
    exists p', consume_loop n i base p = Ret p' /\ peer_ok p' /\ state p' <> INITIAL_ACK /\
      fstate (state p') = frame_state (fstate (state p)) (slice base i (Z.of_nat n)) /\
      sendbuf_end p' = sendbuf_end p + Z.of_nat (length out) /\
      slice (sendbuf p') 0 (sendbuf_end p') = slice (sendbuf p) 0 (sendbuf_end p) ++ out
  else consume_loop n i base p = Exit "assertion failed".
Proof.
  revert i p. induction n as [|n IH]; intros i p Hst Hi Hn Hp; cbv zeta.
  { rewrite slice_nil, frame_out_nil by lia. simpl. destruct Hp as [Hl He].
    rewrite decide_True by lia. exists p. rewrite app_nil_r. repeat split; [done|lia|lia|done|lia]. }
  destruct (buf_get_lt base i) as (c & Hc & Hget); [lia|].
  rewrite (slice_cons_lookup _ _ _ _ Hi Hc), frame_out_cons, frame_state_cons.
  cbn [consume_loop]. destruct (state p) eqn:Es; [done| |]; rewrite Hget, outcome_ret_bind;
    cbn [fstate frame_step].
  - set (q := if c =? HAT then _ else p).
    assert (fstate (state q) = if c =? HAT then Framing.IN_MSG else Framing.WAIT_FOR_MSG) as Hq
      by (subst q; destruct (c =? HAT); simpl; by rewrite ?Es).
    specialize (IH (i + 1) q). cbv zeta in IH. rewrite Hq in IH.
    assert (sendbuf q = sendbuf p /\ sendbuf_end q = sendbuf_end p) as [Hq1 Hq2]
      by (subst q; by destruct (c =? HAT)).
    rewrite Hq1, Hq2 in IH. simpl. apply IH; [|lia|lia|].
    + subst q. destruct (c =? HAT); simpl; congruence.
    + unfold peer_ok. by rewrite Hq1, Hq2.
  - destruct (c =? DOLLAR); cbn [fst snd app].
    + by apply (IH (i + 1) (PeerState WAIT_FOR_MSG (sendbuf p) (sendbuf_end p))); [|lia|lia|].
    + destruct Hp as [Hl He]. unfold SENDBUF_SIZE. destruct (Z.ltb_spec (sendbuf_end p) 1024) as [Hlt|Hge].
      2: { rewrite decide_False; [done|]. simpl length. lia. }
      rewrite buf_set_ok, outcome_ret_bind by lia.
      set (q := PeerState IN_MSG _ _).
      specialize (IH (i + 1) q). cbv zeta in IH. subst q. cbn [state sendbuf sendbuf_end fstate] in IH.
      set (out := frame_out _ _) in *. simpl length.
      replace (sendbuf_end p + Z.of_nat (S (length out)))
        with (sendbuf_end p + 1 + Z.of_nat (length out)) by lia.
      rewrite slice_snoc_set, <- app_assoc in IH by lia.
      apply IH; [done|lia|lia|]. split; simpl; [by rewrite length_insert|lia].
Qed.

(** ** Any order of callbacks *)

Definition buf_req (w : write_req write_cb) : Prop :=
  w_cb w = on_wrote_buf_cb /\ 0 <= w_taken w <= w_len w.

Inductive safe : uv_client -> Prop :=
| safe_ack p t w :
    peer_ok p -> state p = INITIAL_ACK -> 0 <= t <= 1 ->
    safe (Client (Live p) false false [WriteReq on_wrote_init_ack_cb 1 t] w)
| safe_open p ws w :
    peer_ok p -> state p <> INITIAL_ACK -> Forall buf_req ws -> safe (Client (Live p) true false ws w)
| safe_closing p ws w :
    peer_ok p -> state p <> INITIAL_ACK -> Forall buf_req ws -> safe (Client (Live p) false true ws w)
| safe_gone d w : (forall p, d <> Live p) -> safe (Client d false true [] w).

(** After the kill switch the peer state is gone. *)
Definition halted (c : uv_client) : Prop := u_data c = Freed /\ Forall buf_req (u_writes c).

Definition server_safe (s : server) : Prop := if s_stopped s then halted (s_client s) else safe (s_client s).

Definition stays_safe (s : server) (ev : event) (r : outcome server) : Prop :=
  match r with
  | Ret s' => server_safe s'
  | Exit _ => ~ answers_ok ev \/ overflow s ev
  | Fault f => f = UseAfterFree /\ s_stopped s = true
  end.

Lemma take_bytes_reqs buf ws k :
  0 <= k -> Forall buf_req ws -> Forall buf_req (take_bytes buf ws k).1.
Proof.
  intros Hk. induction 1 as [|w ws [Hcb Hw] Hws IH]; simpl; [done|].
  destruct (Z.ltb_spec (w_taken w) (w_len w)); simpl.
  - constructor; [|done]. split; simpl; [done|lia].
  - destruct (take_bytes buf ws k). constructor; [by split|done].
Qed.

Lemma kill_switch_ok p : peer_ok p -> exists b, kill_switch p = Ret b.
Proof.
  intros [Hl He]. unfold kill_switch. destruct (Z.leb_spec 3 (sendbuf_end p)); [|by eexists].
  destruct (buf_get_lt (sendbuf p) (sendbuf_end p - 3)) as (x & _ & ->); [lia|].
  destruct (buf_get_lt (sendbuf p) (sendbuf_end p - 2)) as (y & _ & ->); [lia|].
  destruct (buf_get_lt (sendbuf p) (sendbuf_end p - 1)) as (z & _ & ->); [lia|]. simpl.
  destruct (x =? 88); [|by eexists]. destruct (y =? 89); by eexists.
Qed.

Lemma read_safe p ws w nread base mem rc :
  peer_ok p -> state p <> INITIAL_ACK -> Forall buf_req ws -> nread <= Z.of_nat (length base) ->
  let c := Client (Live p) true false ws w in
  stays_safe (Server c false) (Read (Some base) nread mem rc)
    (running (Server c false) (reclaim (on_peer_read c nread (Live base) mem rc))).
Proof.
  intros Hp Hst Hws Hn c. unfold on_peer_read, stays_safe.
  destruct (Z.ltb_spec nread 0); [by apply safe_closing|].
  destruct (Z.eqb_spec nread 0); [by apply safe_open|]. simpl deref. rewrite outcome_ret_bind.
  destruct (Z.ltb_spec (Z.of_nat (length base)) nread); [lia|]. rewrite outcome_ret_bind.
  rewrite decide_False by done.
  pose proof (uv_consume_spec (Z.to_nat nread) 0 base p) as Hc. rewrite Z2Nat.id in Hc by lia.
  specialize (Hc Hst ltac:(lia) ltac:(lia) Hp). cbv zeta in Hc. destruct (decide _) as [Hfit|Hover].
  2: { rewrite Hc. simpl. right. unfold overflow, SENDBUF_SIZE. simpl. lia. }
  destruct Hc as (p' & -> & Hp' & Hst' & _). rewrite outcome_ret_bind. cbv zeta.
  destruct (0 <? sendbuf_end p'); [|by apply safe_open].
  destruct mem as [[]|]; simpl; [|left; by intros (? & ? & ?)].
  unfold uv_write. destruct (Z.ltb_spec rc 0); simpl; [left; intros (_ & _ & ?); lia|].
  destruct Hp'. apply safe_open; [done|done|]. apply Forall_app. split; [done|].
  constructor; [split; simpl; [done|lia]|done].
Qed.

Lemma wrote_safe s p reading closing w ws wire status rc :
  peer_ok p -> state p <> INITIAL_ACK -> Forall buf_req ws ->
  safe (Client (Live p) reading closing ws wire) ->
  stays_safe s (Wrote status rc)
    (reclaim (on_wrote_buf (Server (set_writes (Client (Live p) reading closing (w :: ws) wire) ws) false) (Live tt) status)).
Proof.
  intros Hp Hst Hws Hs. unfold on_wrote_buf.
  destruct (Z.eqb_spec status 0) as [->|]; simpl; [|left; by intros [? _]].
  destruct (kill_switch_ok p Hp) as [kill ->]. simpl. destruct kill; simpl; [by split|].
  unfold server_safe. simpl. destruct Hp as [Hl He].
  assert (peer_ok (PeerState (state p) (sendbuf p) 0)) by (split; simpl; [done|lia]).
  inversion Hs as [| | |? ? Hd]; subst; [done| | |by destruct (Hd p)].
  - by apply safe_open.
  - by apply safe_closing.
Qed.

Lemma safe_step c ev :
  safe c -> may (Server c false) ev -> stays_safe (Server c false) ev (handle (Server c false) ev).
Proof.
  intros Hs Hmay. destruct ev as [base nread mem rc|k|status rc|]; cbn [may s_client s_stopped] in Hmay.
  - destruct Hmay as (Hr & Hc & Hn). destruct base as [base|]; [|simpl; left; by intros (? & _)].
    inversion Hs; simplify_eq/=. apply read_safe; auto.
  - destruct Hmay as (Hk & Hc & Hne). inversion Hs as [p t w Hp Hst Ht|p ws w Hp Hst Hws| |]; simplify_eq/=.
    + unfold uv_take. simpl.
      destruct (Z.ltb_spec t 1); simpl; apply safe_ack; try done; lia.
    + unfold uv_take. simpl. pose proof (take_bytes_reqs (sendbuf p) ws k Hk Hws) as H.
      destruct (take_bytes _ _ _). by apply safe_open.
  - destruct Hmay as (w & ws & Hw & Hst & Hdone).
    inversion Hs as [p t w' Hp Hst' Ht|p ws' w' Hp Hst' Hws|p ws' w' Hp Hst' Hws|]; simplify_eq/=.
    + unfold on_wrote_init_ack. destruct (Z.eqb_spec status 0) as [->|]; simpl; [|left; by intros [? _]].
      unfold uv_read_start. destruct (Z.ltb_spec rc 0); simpl; [left; intros [_ ?]; lia|].
      destruct Hp. apply safe_open; [split; simpl; [done|lia]|done|done].
    + apply Forall_cons in Hws as [[-> Hw] Hws]. apply wrote_safe; [done..|]. by apply safe_open.
    + apply Forall_cons in Hws as [[-> Hw] Hws]. apply wrote_safe; [done..|]. by apply safe_closing.
  - destruct Hmay as (Hc & Hw & Hf). inversion Hs as [| | |d w Hd]; simplify_eq/=.
    + by apply safe_gone.
    + unfold on_client_closed. simpl. destruct d as [|p|]; [|by destruct (Hd p)|done].
      by apply safe_gone.
Qed.

(** After [uv_stop]: whatever callback needs the peer state finds it freed. *)
Lemma halted_step c ev :
  halted c -> may (Server c true) ev ->
  stays_safe (Server c true) ev (handle (Server c true) ev) /\
  (match ev with Read (Some _) nread _ _ => 0 < nread | Wrote status _ => status = 0 | _ => True end ->
   (forall mem rc nread, ev <> Read None nread mem rc) -> handle (Server c true) ev = Fault UseAfterFree).
Proof.
  intros [Hd Hws] Hmay. destruct ev as [base nread mem rc|k|status rc|]; cbn [may s_client s_stopped] in Hmay.
  - destruct base as [base|]; [|split; [simpl; left; by intros (? & _)|intros _ H; by destruct (H mem rc nread)]].
    destruct Hmay as (_ & _ & Hn). specialize (Hn base eq_refl). simpl handle. unfold on_peer_read.
    destruct (Z.ltb_spec nread 0); [split; [by split|lia]|]. destruct (Z.eqb_spec nread 0); [split; [by split|lia]|].
    simpl deref. rewrite outcome_ret_bind. destruct (Z.ltb_spec (Z.of_nat (length base)) nread); [lia|].
    by rewrite Hd.
  - simpl handle. unfold uv_take. by rewrite Hd.
  - destruct Hmay as (w & ws & Hw & _). simpl handle. rewrite Hw. rewrite Hw in Hws.
    apply Forall_cons in Hws as [[-> _] _]. unfold on_wrote_buf. simpl. rewrite Hd.
    destruct (Z.eqb_spec status 0) as [->|]; simpl; [done|]. split; [left; by intros [? _]|done].
  - simpl handle. unfold on_client_closed. by rewrite Hd.
Qed.

(** An echo that does not fit runs into the assertion. *)
Lemma overflow_aborts s ev :
  safe (s_client s) -> may s ev -> overflow s ev -> handle s ev = Exit "assertion failed".
Proof.
  destruct s as [c b]. simpl. intros Hs Hmay Hover.
  assert (forall p, u_data c = Live p -> peer_ok p) as Hok.
  { intros p Hd. inversion Hs as [| | |d w Hn]; simplify_eq/=; try done. by destruct (Hn p). }
  unfold overflow, SENDBUF_SIZE in Hover. cbn [s_client] in *. destruct (u_data c) as [|p|] eqn:Ed; try done.
  destruct (Hok p eq_refl) as [Hl He].
  destruct ev as [base nread mem rc|k|status rc|]; simpl bytes_of in Hover;
    try (rewrite frame_out_nil in Hover; simpl in Hover; lia).
  destruct base as [base|]; simpl default in Hover.
  2: { unfold slice in Hover. rewrite drop_nil, take_nil, frame_out_nil in Hover. simpl in Hover. lia. }
  destruct Hmay as (Hr & Hc & Hn). specialize (Hn base eq_refl).
  inversion Hs as [|p' ws w Hp Hst| |]; simplify_eq/=. unfold on_peer_read.
  destruct (Z.ltb_spec nread 0).
  { rewrite slice_nil, frame_out_nil in Hover by lia. simpl in Hover. lia. }
  destruct (Z.eqb_spec nread 0) as [->|].
  { rewrite slice_nil, frame_out_nil in Hover by lia. simpl in Hover. lia. }
  simpl deref. rewrite outcome_ret_bind. destruct (Z.ltb_spec (Z.of_nat (length base)) nread); [lia|].
  rewrite outcome_ret_bind, decide_False by done.
  pose proof (uv_consume_spec (Z.to_nat nread) 0 base p Hst) as Hcl. rewrite Z2Nat.id in Hcl by lia.
  specialize (Hcl ltac:(lia) ltac:(lia) Hp). cbv zeta in Hcl. rewrite decide_False in Hcl by lia. by rewrite Hcl.
Qed.

(** ** One echo at a time *)

(** What the protocol makes of the client's bytes. *)
Definition conversation (bs : list Z) : list Z := STAR :: frame_out Framing.WAIT_FOR_MSG bs.

Inductive served (bs : list Z) : uv_client -> Prop :=
| served_ack p t :
    peer_ok p -> state p = INITIAL_ACK -> 0 <= t <= 1 -> slice (sendbuf p) 0 1 = [STAR] -> bs = [] ->
    served bs (Client (Live p) false false [WriteReq on_wrote_init_ack_cb 1 t] (slice [STAR] 0 t))
| served_idle p closing :
    peer_ok p -> state p <> INITIAL_ACK -> fstate (state p) = frame_state Framing.WAIT_FOR_MSG bs ->
    sendbuf_end p = 0 ->
    served bs (Client (Live p) (negb closing) closing [] (conversation bs))
| served_echo p closing t pre :
    peer_ok p -> state p <> INITIAL_ACK -> fstate (state p) = frame_state Framing.WAIT_FOR_MSG bs ->
    0 <= t <= sendbuf_end p -> conversation bs = pre ++ slice (sendbuf p) 0 (sendbuf_end p) ->
    served bs (Client (Live p) (negb closing) closing
                 [WriteReq on_wrote_buf_cb (sendbuf_end p) t] (pre ++ slice (sendbuf p) 0 t))
| served_gone d : served bs (Client d false true [] (conversation bs)).

Definition killed (bs : list Z) (c : uv_client) : Prop :=
  u_data c = Freed /\ u_writes c = [] /\ u_wire c = conversation bs /\ [88; 89; 90] `suffix_of` conversation bs.

Definition serving (bs : list Z) (s : server) : Prop :=
  if s_stopped s then killed bs (s_client s) else served bs (s_client s).

Lemma conversation_app bs bs' :
  conversation (bs ++ bs') =
  conversation bs ++ frame_out (frame_state Framing.WAIT_FOR_MSG bs) bs'.
Proof. unfold conversation. by rewrite frame_out_app. Qed.

Lemma served_read bs p nread base mem rc s' :
  peer_ok p -> state p <> INITIAL_ACK -> fstate (state p) = frame_state Framing.WAIT_FOR_MSG bs ->
  sendbuf_end p = 0 -> 0 < nread <= Z.of_nat (length base) ->
  running (Server (Client (Live p) true false [] (conversation bs)) false)
    (reclaim (on_peer_read (Client (Live p) true false [] (conversation bs)) nread (Live base) mem rc)) = Ret s' ->
  serving (bs ++ slice base 0 nread) s'.
Proof.
  intros Hp Hst Hf He Hn. unfold on_peer_read.
  destruct (Z.ltb_spec nread 0); [lia|]. destruct (Z.eqb_spec nread 0); [lia|]. simpl deref.
  rewrite outcome_ret_bind. destruct (Z.ltb_spec (Z.of_nat (length base)) nread); [lia|]. rewrite outcome_ret_bind.
  rewrite decide_False by done.
  pose proof (uv_consume_spec (Z.to_nat nread) 0 base p) as Hc. rewrite Z2Nat.id in Hc by lia.
  specialize (Hc Hst ltac:(lia) ltac:(lia) Hp). cbv zeta in Hc.
  destruct (decide _) as [Hfit|Hover]; [|by rewrite Hc].
  destruct Hc as (p' & -> & Hp' & Hst' & Hf' & He' & Hs). rewrite outcome_ret_bind. cbv zeta.
  rewrite Hf in *. rewrite <- frame_state_app in Hf'. rewrite (slice_nil (sendbuf p)) in Hs by lia.
  simpl in Hs.
  destruct (Z.ltb_spec 0 (sendbuf_end p')) as [Hpos|Hz].
  - destruct mem as [[]|]; [|done]. simpl. unfold uv_write. destruct (rc <? 0); [done|].
    intros [= <-]. unfold serving. simpl. rewrite <- (app_nil_r (conversation bs)).
    apply (served_echo _ p' false 0); try done; [lia|].
    by rewrite Hs, <- conversation_app.
  - intros [= <-]. unfold serving. simpl. destruct Hp' as [Hl Hr].
    assert (conversation bs = conversation (bs ++ slice base 0 nread)) as ->.
    { rewrite conversation_app. set (out := frame_out _ _) in *.
      destruct out; [by rewrite app_nil_r|]. simpl in He'. lia. }
    apply (served_idle _ p' false); [done|done|done|lia].
Qed.

Lemma kill_switch_true p :
  peer_ok p -> kill_switch p = Ret true -> [88; 89; 90] `suffix_of` slice (sendbuf p) 0 (sendbuf_end p).
Proof.
  intros [Hl He]. unfold kill_switch. destruct (Z.leb_spec 3 (sendbuf_end p)) as [H3|]; [|done].
  destruct (buf_get_lt (sendbuf p) (sendbuf_end p - 3)) as (x & Hx & ->); [lia|].
  destruct (buf_get_lt (sendbuf p) (sendbuf_end p - 2)) as (y & Hy & ->); [lia|].
  destruct (buf_get_lt (sendbuf p) (sendbuf_end p - 1)) as (z & Hz & ->); [lia|]. simpl.
  destruct (Z.eqb_spec x 88) as [->|]; [|done]. destruct (Z.eqb_spec y 89) as [->|]; [|done].
  intros [= Hz']. apply Z.eqb_eq in Hz' as ->.
  exists (slice (sendbuf p) 0 (sendbuf_end p - 3)).
  rewrite (slice_split _ 0 (sendbuf_end p) (sendbuf_end p - 3)) by lia. f_equal.
  rewrite Z.add_0_l. replace (sendbuf_end p - (sendbuf_end p - 3)) with (Z.of_nat 3) by lia.
  rewrite (slice_cons_lookup _ _ 2 88) by (done || lia).
  rewrite (slice_cons_lookup _ _ 1 89), (slice_cons_lookup _ _ 0 90); [by rewrite slice_nil|..].
  all: try lia.
  - by replace (sendbuf_end p - 3 + 1 + 1) with (sendbuf_end p - 1) by lia.
  - by replace (sendbuf_end p - 3 + 1) with (sendbuf_end p - 2) by lia.
Qed.

Lemma served_wrote bs p closing pre status s' :
  peer_ok p -> state p <> INITIAL_ACK -> fstate (state p) = frame_state Framing.WAIT_FOR_MSG bs ->
  conversation bs = pre ++ slice (sendbuf p) 0 (sendbuf_end p) ->
  reclaim (on_wrote_buf (Server (Client (Live p) (negb closing) closing [] (conversation bs)) false) (Live tt) status)
    = Ret s' ->
  serving bs s'.
Proof.
  intros Hp Hst Hf Hpre. unfold on_wrote_buf. destruct (status =? 0); [|done]. simpl.
  destruct (kill_switch_ok p Hp) as [kill Hkill]. rewrite Hkill. simpl. destruct kill; intros [= <-].
  - unfold serving, killed. simpl. do 3 (split; [done|]).
    rewrite Hpre. by apply suffix_app_r, kill_switch_true.
  - unfold serving. simpl. destruct Hp. apply (served_idle _ (PeerState (state p) (sendbuf p) 0));
      [split; simpl; [done|lia]|done|done|done].
Qed.

Lemma take_echo bs p t pre k :
  peer_ok p -> state p <> INITIAL_ACK -> fstate (state p) = frame_state Framing.WAIT_FOR_MSG bs ->
  0 <= t <= sendbuf_end p -> conversation bs = pre ++ slice (sendbuf p) 0 (sendbuf_end p) -> 0 <= k ->
  forall c s', running (Server c false) (uv_take sendbuf (Client (Live p) true false
      [WriteReq on_wrote_buf_cb (sendbuf_end p) t] (pre ++ slice (sendbuf p) 0 t)) k) = Ret s' ->
  serving bs s'.
Proof.
  intros Hp Hst Hf Ht Hpre Hk c s'. unfold uv_take. simpl.
  destruct (Z.ltb_spec t (sendbuf_end p)); simpl; intros [= <-]; unfold serving; simpl.
  - set (m := k `min` (sendbuf_end p - t)). rewrite <- app_assoc.
    replace (slice (sendbuf p) 0 t ++ slice (sendbuf p) t m) with (slice (sendbuf p) 0 (t + m)).
    + apply (served_echo _ p false); try done. lia.
    + rewrite (slice_split _ 0 (t + m) t) by lia. do 2 f_equal; lia.
  - rewrite app_nil_r. by apply (served_echo _ p false).
Qed.

(** After the kill switch nothing more is written or taken in. *)
Lemma killed_step bs c ev s' :
  killed bs c -> may (Server c true) ev -> handle (Server c true) ev = Ret s' -> serving (bs ++ bytes_of ev) s'.
Proof.
  intros (Hd & Hw & Hwire & Hsuf) Hmay. assert (halted c) as Hh by (split; [done|by rewrite Hw]).
  destruct (halted_step c ev Hh Hmay) as [_ Hf]. destruct ev as [base nread mem rc|k|status rc|].
  - destruct base as [base|]; [|done]. destruct (Z.lt_ge_cases 0 nread) as [Hpos|Hneg]; [by rewrite (Hf Hpos)|].
    simpl bytes_of. rewrite slice_nil, app_nil_r by lia. simpl handle. unfold on_peer_read.
    destruct (Z.ltb_spec nread 0); [by intros [= <-]|]. destruct (Z.eqb_spec nread 0); [by intros [= <-]|lia].
  - by rewrite Hf.
  - destruct Hmay as (w & ws & Hw' & _). simpl in Hw'. congruence.
  - by rewrite Hf.
Qed.

Lemma serving_step bs s ev s' :
  serving bs s -> may s ev -> one_at_a_time s ev -> handle s ev = Ret s' ->
  serving (bs ++ bytes_of ev) s'.
Proof.
  destruct s as [c [|]]; unfold serving at 1; simpl; intros Hs Hmay Hcalm; [by eapply killed_step|].
  destruct ev as [base nread mem rc|k|status rc|]; cbn [s_client] in Hmay; simpl in Hcalm; simpl handle.
  - destruct Hmay as (Hr & Hcl & Hn). destruct base as [base|]; [|done]. specialize (Hn base eq_refl).
    simpl bytes_of. cbn [on_alloc_buffer].
    destruct (Z.lt_ge_cases 0 nread) as [Hpos|Hneg].
    + specialize (Hcalm Hpos). inversion Hs as [|p closing| |]; simplify_eq/=. by apply served_read.
    + rewrite slice_nil, app_nil_r by lia. unfold on_peer_read. destruct (Z.ltb_spec nread 0).
      * intros [= <-]. unfold serving. simpl.
        inversion Hs as [|p closing|p closing t pre|]; simplify_eq/=; unfold uv_close; simpl.
        -- by apply (served_idle _ p true).
        -- by apply (served_echo _ p true).
      * destruct (Z.eqb_spec nread 0); [|lia]. by intros [= <-].
  - rewrite app_nil_r. destruct Hmay as (Hk & Hcl & Hne).
    inversion Hs as [p t Hp Hst Ht Hstar|p closing|p closing t pre|]; simplify_eq/=.
    + unfold uv_take. simpl. destruct (Z.ltb_spec t 1); intros [= <-]; unfold serving; simpl.
      * replace t with 0 in * by lia. rewrite Z.sub_0_r. simpl.
        replace (slice (sendbuf p) 0 (k `min` 1)) with (slice [STAR] 0 (0 + k `min` 1)).
        { apply served_ack; try done. lia. }
        rewrite <- Hstar. unfold slice. rewrite !drop_0, take_take. f_equal. lia.
      * rewrite app_nil_r. by apply served_ack.
    + by apply take_echo.
  - rewrite app_nil_r. destruct Hmay as (w & ws & Hw & Hle & Hdone).
    inversion Hs as [p t Hp Hst Ht Hstar|p closing|p closing t pre Hp Hst Hf Ht Hpre|]; simplify_eq/=.
    + unfold on_wrote_init_ack. destruct (Z.eqb_spec status 0) as [->|]; [|done]. simpl.
      unfold uv_read_start. destruct (rc <? 0); [done|]. intros [= <-]. unfold serving. simpl.
      specialize (Hdone eq_refl). subst t. destruct Hp.
      apply (served_idle [] (PeerState WAIT_FOR_MSG (sendbuf p) 0) false); try done.
    + intros Hev. assert (status = 0) as ->.
      { unfold on_wrote_buf in Hev. by destruct (Z.eqb_spec status 0). }
      specialize (Hdone eq_refl). subst t. unfold set_writes in Hev. simpl in Hev.
      rewrite <- Hpre in Hev. by eapply served_wrote.
  - rewrite app_nil_r. destruct Hmay as (Hcl & Hw & Hf).
    inversion Hs as [|p closing| |d]; simplify_eq/=.
    + intros [= <-]. unfold serving. simpl. apply served_gone.
    + unfold on_client_closed. simpl. destruct d; [| |done]; intros [= <-]; apply served_gone.
Qed.

Lemma connected status a s :
  on_peer_connected status a = Ret (Some s) -> ca_accept a = 0 ->
  (forall buf, ca_state a = Some buf -> length buf = 1024%nat) ->
  exists p, s = Server (Client (Live p) false false [WriteReq on_wrote_init_ack_cb 1 0] []) false /\
    peer_ok p /\ state p = INITIAL_ACK /\ slice (sendbuf p) 0 1 = [STAR].
Proof.
  intros Hs Hacc Hbuf. unfold on_peer_connected in Hs. rewrite Hacc in Hs.
  destruct (status <? 0); [done|].
  apply outcome_bind_inv in Hs as (_ & _ & Hs). destruct (ca_init a <? 0), (ca_name a <? 0); [done..|].
  simpl in Hs. destruct (ca_state a) as [buf|]; [|done]. specialize (Hbuf buf eq_refl). simpl in Hs.
  rewrite buf_set_ok, outcome_ret_bind in Hs by lia. destruct (ca_req a); [|done]. simpl in Hs.
  unfold uv_write in Hs. destruct (ca_write a <? 0); simplify_eq/=.
  eexists. split; [done|]. split; [|split; [done|]].
  - split; simpl; [by rewrite length_insert|lia].
  - simpl. apply (slice_snoc_set buf 0 STAR). lia.
Qed.

Lemma server_safe_step s ev : server_safe s -> may s ev -> stays_safe s ev (handle s ev).
Proof. destruct s as [c [|]]; intros Hs Hmay; [by apply (halted_step c ev)|by apply safe_step]. Qed.

Lemma reach_safe calm s bs : uv_reach calm s bs -> server_safe s.
Proof.
  induction 1 as [status a s Hc Hacc Hbuf|s bs ev s' _ IH Hmay _ Hev].
  - destruct (connected _ _ _ Hc Hacc Hbuf) as (p & -> & Hp & Hst & _). apply safe_ack; [done|done|lia].
  - pose proof (server_safe_step s ev IH Hmay) as H. by rewrite Hev in H.
Qed.

Lemma reach_serving s bs : uv_reach one_at_a_time s bs -> serving bs s.
Proof.
  induction 1 as [status a s Hc Hacc Hbuf|s bs ev s' _ IH Hmay Hcalm Hev].
  - destruct (connected _ _ _ Hc Hacc Hbuf) as (p & -> & Hp & Hst & Hstar).
    by apply (served_ack [] p 0).
  - by eapply serving_step.
Qed.

(** What has been sent so far. *)
Lemma serving_wire s bs :
  serving bs s ->
  exists rest, conversation bs = u_wire (s_client s) ++ rest /\
    (u_writes (s_client s) = [] -> rest = []) /\
    (s_stopped s = true -> rest = [] /\ [88; 89; 90] `suffix_of` u_wire (s_client s) /\
       u_data (s_client s) = Freed /\ u_writes (s_client s) = []).
Proof.
  intros Hs. unfold serving in Hs.
  destruct (s_stopped s).
  { destruct Hs as (Hd & Hw & Hwire & Hsuf). exists []. rewrite app_nil_r, Hwire. done. }
  destruct Hs as [p t Hp Hst Ht Hstar ->|p closing|p closing t pre Hp Hst Hf Ht Hpre|d]; simpl.
  - exists (drop (Z.to_nat t) [STAR]). unfold slice. by rewrite drop_0, take_drop.
  - exists []. by rewrite app_nil_r.
  - exists (slice (sendbuf p) t (sendbuf_end p - t)). split; [|done].
    rewrite Hpre, (slice_split _ 0 (sendbuf_end p) t) by lia. by rewrite app_assoc.
  - exists []. by rewrite app_nil_r.
Qed.

Lemma reach_wire s bs :
  uv_reach one_at_a_time s bs -> u_wire (s_client s) `prefix_of` conversation bs.
Proof. intros Hs%reach_serving. destruct (serving_wire s bs Hs) as (rest & Hw & _). by exists rest. Qed.

(** ** Runs *)

Fixpoint run (s : server) (evs : list event) : outcome server :=
  match evs with
  | [] => Ret s
  | ev :: evs' => s ← handle s ev; run s evs'
  end.

(** libuv may run these callbacks, in this order and within [calm]. *)
Fixpoint allowed (calm : server -> event -> Prop) (s : server) (evs : list event) : Prop :=
  match evs with
  | [] => True
  | ev :: evs' =>
      may s ev /\ calm s ev /\ match handle s ev with Ret s1 => allowed calm s1 evs' | _ => False end
  end.

Lemma uv_reach_run calm s bs evs s' :
  uv_reach calm s bs -> allowed calm s evs -> run s evs = Ret s' ->
  uv_reach calm s' (bs ++ concat (bytes_of <$> evs)).
Proof.
  revert s bs. induction evs as [|ev evs IH]; simpl; intros s bs Hs.
  - intros _ [= <-]. by rewrite app_nil_r.
  - intros (Hmay & Hcalm & Hall) Hrun. destruct (handle s ev) as [s1| |] eqn:Hev; [|done..].
    rewrite app_assoc. apply (IH s1); [|done|done]. by apply uv_reach_step with s.
Qed.

(** ** Theorems *)

(** A client that disconnects before its echo is written ends
    the process for every client: the read callback closes the handle, libuv cancels
    the pending write, and its callback dies on the status. *)
Lemma disconnect_ends_server calm s bs base nread mem rc status :
  uv_reach calm s bs -> s_stopped s = false -> u_reading (s_client s) = true -> u_writes (s_client s) <> [] ->
  nread < 0 -> status < 0 ->
  let eof := Read (Some base) nread mem rc in
  may s eof /\ exists s', handle s eof = Ret s' /\ may s' (Wrote status rc) /\
    handle s' (Wrote status rc) = Exit "Write error".
Proof.
  intros Hs Hrun Hread Hne Hn Hst eof. pose proof (reach_safe _ _ _ Hs) as Hsafe.
  destruct s as [c stop]. unfold server_safe in Hsafe. simpl in *. subst stop.
  inversion Hsafe as [|p ws w Hp Hst' Hws| |]; subst; simpl in *; try done.
  split; [by repeat split; intros ? [= <-]; lia|].
  unfold on_peer_read. rewrite (proj2 (Z.ltb_lt _ _) Hn). eexists. split; [reflexivity|]. destruct ws as [|q ws]; [done|].
  split; [exists q, ws; repeat split; simpl; lia|].
  apply Forall_cons in Hws as [[Hcb _] _]. simpl. rewrite Hcb. unfold on_wrote_buf.
  by destruct (Z.eqb_spec status 0); [lia|].
Qed.

(** C26 [uv_server_safe]: in whatever order libuv runs the callbacks, and however
    the socket takes the bytes, no callback leaves the send buffer or returns without
    freeing the read buffer or the write request it was handed, and until the kill
    switch has been hit none touches freed memory. The kill switch frees the peer state
    of a handle that is still open, and libuv finishes the iteration of its loop: a
    callback that brings bytes, or reports a write or the close of the handle, in that
    iteration uses the freed state. The process ends only when an answer
    of libuv or [malloc] is a failure (a failed or cancelled write among them) or
    when the echo of one read does not fit the send buffer; and then it does end, over
    the assertion: a frame of more than 1024 bytes read at once is enough. A client
    that disconnects before its echo is written ends it as well, for every client:
    libuv cancels the write and the write callback dies. *)
Theorem uv_server_safe calm s bs ev :
  uv_reach calm s bs -> may s ev ->
  match handle s ev with
  | Ret _ => True
  | Exit _ => ~ answers_ok ev \/ overflow s ev
  | Fault f => f = UseAfterFree /\ s_stopped s = true
  end /\
  (overflow s ev -> handle s ev = Exit "assertion failed") /\
  (s_stopped s = true -> answers_ok ev ->
   match ev with Read _ nread _ _ => 0 < nread | _ => True end -> handle s ev = Fault UseAfterFree) /\
  (s_stopped s = false -> u_reading (s_client s) = true -> u_writes (s_client s) <> [] ->
   forall base nread mem rc status, nread < 0 -> status < 0 ->
     let eof := Read (Some base) nread mem rc in
     may s eof /\ exists s', handle s eof = Ret s' /\ may s' (Wrote status rc) /\
       handle s' (Wrote status rc) = Exit "Write error").
Proof.
  intros Hs Hmay. pose proof (reach_safe _ _ _ Hs) as Hsafe. split; [|split; [|split]].
  - pose proof (server_safe_step s ev Hsafe Hmay) as H. by destruct (handle s ev).
  - intros Hover. destruct s as [c [|]]; [|by apply overflow_aborts].
    destruct Hsafe as [Hd _]. unfold overflow in Hover. simpl in Hd, Hover. by rewrite Hd in Hover.
  - intros Hstop Hans Hev. destruct s as [c [|]]; [|done]. apply (halted_step c ev Hsafe Hmay).
    + destruct ev as [[base|] nread mem rc|k|status rc|]; try done. by destruct Hans.
    + intros mem rc nread ->. by destruct Hans.
  - intros Hrun Hr Hw base nread mem rc status Hn Hst. by eapply disconnect_ends_server.
Qed.

(** C14 [uv_conversation]: when the write callback of an echo runs before more bytes
    are read, the client receives the star and the echo of its stream, a prefix of
    them while a write is pending, and the loop is stopped only after an echo that
    ends in XYZ; then the peer state and every write request have been freed, so that
    the handle is all that is left, as the comment on the kill switch says. *)
Theorem uv_conversation s bs :
  uv_reach one_at_a_time s bs ->
  exists rest, STAR :: frame_out Framing.WAIT_FOR_MSG bs = u_wire (s_client s) ++ rest /\
    (u_writes (s_client s) = [] -> rest = []) /\
    (s_stopped s = true -> rest = [] /\ [88; 89; 90] `suffix_of` u_wire (s_client s) /\
       u_data (s_client s) = Freed /\ u_writes (s_client s) = []).
Proof. intros Hs. by apply serving_wire, reach_serving. Qed.

Definition demo_answers : connect_answers :=
  ConnectAnswers (Some tt) 0 0 0 (Some (replicate 1024 255)) (Some tt) 0.

Definition demo_start : server :=
  match on_peer_connected 0 demo_answers with
  | Ret (Some s) => s
  | _ => Server (Client Null false true [] []) false
  end.

Definition demo_server (evs : list event) : server :=
  match run demo_start evs with Ret s => s | _ => demo_start end.

Definition demo_greeting : list event := [Take 5; Wrote 0 0].

(** Two messages, the second split, then the kill switch. *)
Definition demo_polite : list event :=
  demo_greeting ++
  [Read (Some (lit "^ab$")) 4 (Some tt) 0; Take 1; Take 9; Wrote 0 0; Read (Some (lit "^W??")) 2 (Some tt) 0;
   Take 1; Wrote 0 0; Read (Some (lit "WXY$")) 4 (Some tt) 0; Take 4].

(** A second read before the write callback of the first echo. *)
Definition demo_overlap : list event :=
  demo_greeting ++
  [Read (Some (lit "^a$")) 3 (Some tt) 0; Read (Some (lit "^b$")) 3 (Some tt) 0; Take 9; Wrote 0 0; Take 9; Wrote 0 0].

Lemma demo_reach calm evs :
  allowed calm demo_start evs -> run demo_start evs = Ret (demo_server evs) ->
  uv_reach calm (demo_server evs) (concat (bytes_of <$> evs)).
Proof.
  intros Hall Hrun. apply (uv_reach_run calm demo_start []); [|done|done].
  apply (uv_reach_start calm 0 demo_answers); [done|done|]. by intros ? [= <-].
Qed.

Ltac run_allowed := vm_compute; repeat first [exact I|split|discriminate|intros ? [= <-]|intros ?|eexists].

Lemma demo_polite_reach : uv_reach one_at_a_time (demo_server demo_polite) (concat (bytes_of <$> demo_polite)).
Proof. apply demo_reach; [run_allowed|by vm_compute]. Qed.

Lemma demo_overlap_reach : uv_reach any_order (demo_server demo_overlap) (lit "^a$^b$").
Proof. apply demo_reach; [run_allowed|by vm_compute]. Qed.

(** The client goes on after the kill switch. *)
Lemma demo_killed_reach :
  uv_reach one_at_a_time (demo_server (demo_polite ++ [Wrote 0 0])) (concat (bytes_of <$> demo_polite ++ [Wrote 0 0])).
Proof. apply demo_reach; [run_allowed|by vm_compute]. Qed.

(** Reading one whole frame. *)
Definition read_frame (payload : list Z) : event :=
  Read (Some (frame_of payload)) (Z.of_nat (length (frame_of payload))) (Some tt) 0.

Lemma slice_all (l : list Z) : slice l 0 (Z.of_nat (length l)) = l.
Proof. unfold slice. by rewrite Nat2Z.id, drop_0, firstn_all. Qed.

Lemma read_frame_spec p ws w payload :
  peer_ok p -> state p = WAIT_FOR_MSG -> DOLLAR ∉ payload -> payload <> [] ->
  sendbuf_end p + Z.of_nat (length payload) <= 1024 ->
  exists p', peer_ok p' /\ state p' = WAIT_FOR_MSG /\
    sendbuf_end p' = sendbuf_end p + Z.of_nat (length payload) /\
    slice (sendbuf p') 0 (sendbuf_end p') = slice (sendbuf p) 0 (sendbuf_end p) ++ (incr <$> payload) /\
    handle (Server (Client (Live p) true false ws w) false) (read_frame payload) =
      Ret (Server (Client (Live p') true false (ws ++ [WriteReq on_wrote_buf_cb (sendbuf_end p') 0]) w) false).
Proof.
  intros Hp Hst Hpay Hne Hfit. destruct (frame_of_run payload Hpay) as [Hout Hstate].
  assert (length (frame_of payload) <> 0%nat) as Hlen by done.
  pose proof (uv_consume_spec (length (frame_of payload)) 0 (frame_of payload) p) as Hc.
  rewrite slice_all, Hst in Hc. cbv zeta in Hc. simpl fstate in Hc. rewrite Hout, Hstate, length_fmap in Hc.
  specialize (Hc ltac:(done) ltac:(lia) ltac:(lia) Hp). rewrite decide_True in Hc by done.
  destruct Hc as (p' & Hrun & Hp' & Hst' & Hf' & He' & Hs'). exists p'. split; [done|].
  split; [by destruct (state p')|]. split; [done|]. split; [done|].
  unfold read_frame. set (fr := frame_of payload) in *. clearbody fr. simpl handle. unfold on_peer_read.
  destruct (Z.ltb_spec (Z.of_nat (length fr)) 0); [lia|].
  destruct (Z.eqb_spec (Z.of_nat (length fr)) 0); [lia|]. simpl deref. rewrite outcome_ret_bind, Z.ltb_irrefl.
  rewrite outcome_ret_bind, decide_False, Nat2Z.id, Hrun, outcome_ret_bind by congruence. cbv zeta.
  destruct Hp as [_ Hr]. destruct payload as [|c payload]; [done|]. simpl length in *.
  by destruct (Z.ltb_spec 0 (sendbuf_end p')); [|lia].
Qed.

(** C40 [overlapping_reads]: the order of callbacks [uv_conversation] excludes: when
    libuv delivers a second frame before the write callback of the first, which it may,
    the second write starts again at the beginning of the send buffer and the client
    is sent the first echo twice. *)
Theorem overlapping_reads p w a b :
  peer_ok p -> state p = WAIT_FOR_MSG -> sendbuf_end p = 0 -> DOLLAR ∉ a -> DOLLAR ∉ b ->
  a <> [] -> b <> [] -> Z.of_nat (length a) + Z.of_nat (length b) <= 1024 ->
  let s := Server (Client (Live p) true false [] w) false in
  let evs := [read_frame a; read_frame b; Take 1024; Take 1024] in
  frame_out Framing.WAIT_FOR_MSG (concat (bytes_of <$> evs)) = (incr <$> a) ++ (incr <$> b) /\
  allowed any_order s evs /\
  exists s', run s evs = Ret s' /\ u_wire (s_client s') = w ++ (incr <$> a) ++ (incr <$> a) ++ (incr <$> b).
Proof.
  intros Hp Hst He Ha Hb Hna Hnb Hfit s evs.
  destruct (read_frame_spec p [] w a Hp Hst Ha Hna) as (p1 & Hp1 & Hst1 & He1 & Hs1 & Hr1); [lia|].
  destruct (read_frame_spec p1 [WriteReq on_wrote_buf_cb (sendbuf_end p1) 0] w b Hp1 Hst1 Hb Hnb)
    as (p2 & Hp2 & Hst2 & He2 & Hs2 & Hr2); [lia|]. cbn [app] in Hr1, Hr2.
  assert (0 < Z.of_nat (length a)) by (destruct a; [done|simpl; lia]).
  assert (0 < Z.of_nat (length b)) by (destruct b; [done|simpl; lia]).
  rewrite (slice_nil (sendbuf p)) in Hs1 by lia. simpl in Hs1.
  assert (slice (sendbuf p2) 0 (sendbuf_end p1) = incr <$> a) as Hsa.
  { assert (slice (slice (sendbuf p2) 0 (sendbuf_end p2)) 0 (sendbuf_end p1) =
      slice (sendbuf p2) 0 (sendbuf_end p1)) as <-.
    { unfold slice. rewrite !drop_0, take_take. f_equal. lia. }
    rewrite Hs2, Hs1. unfold slice. rewrite drop_0, take_app_le, take_ge; [done|..];
      rewrite length_fmap; lia. }
  split; [|split].
  - subst evs. simpl. rewrite !slice_all, app_nil_r, frame_out_app.
    destruct (frame_of_run a Ha) as [-> ->]. by destruct (frame_of_run b Hb) as [-> _].
  - subst evs s. cbn [allowed]. rewrite Hr1, Hr2. unfold may, may_read, may_take. simpl.
    assert (forall l base : list Z, Some l = Some base -> Z.of_nat (length l) <= Z.of_nat (length base)) as Hbase
      by (intros l base [= <-]; lia).
    repeat (split; [done || lia || by repeat split; try apply Hbase|]). unfold uv_take. simpl. destruct (Z.ltb_spec 0 (sendbuf_end p1)); [|lia].
    simpl. rewrite Z.min_r by lia. repeat (split; [done || lia|]).
    destruct (Z.ltb_spec (0 + (sendbuf_end p1 - 0)) (sendbuf_end p1)); [lia|].
    by destruct (Z.ltb_spec 0 (sendbuf_end p2)).
  - subst evs s. cbn [run]. rewrite Hr1, outcome_ret_bind, Hr2, outcome_ret_bind. simpl. unfold uv_take. simpl.
    destruct (Z.ltb_spec 0 (sendbuf_end p1)); [|lia]. simpl. rewrite Z.min_r by lia.
    destruct (Z.ltb_spec (0 + (sendbuf_end p1 - 0)) (sendbuf_end p1)); [lia|].
    destruct (Z.ltb_spec 0 (sendbuf_end p2)); [|lia]. eexists. split; [done|]. simpl.
    destruct Hp2 as [_ Hr]. rewrite Z.min_r by lia. rewrite !Z.sub_0_r, Hsa, Hs2, Hs1.
    by rewrite <- !app_assoc.
Qed.

Definition demo_peer : peer_state_t := PeerState WAIT_FOR_MSG (replicate 1024 255) 0.

Lemma overlapping_reads_witness :
  exists s', run (Server (Client (Live demo_peer) true false [] [STAR]) false)
      [read_frame (lit "a"); read_frame (lit "b"); Take 1024; Take 1024] = Ret s' /\
    u_wire (s_client s') = lit "*bbc".
Proof.
  destruct (overlapping_reads demo_peer [STAR] (lit "a") (lit "b")) as (_ & _ & s' & Hrun & Hw);
    [by_decision|reflexivity|reflexivity|by_decision|by_decision|discriminate|discriminate|by_decision|].
  exists s'. split; [exact Hrun|]. rewrite Hw. reflexivity.
Defined.

Definition demo_long_frame : event := Read (Some (HAT :: replicate 1025 97)) 1026 (Some tt) 0.

Lemma uv_server_safe_witness :
  handle (demo_server demo_greeting) demo_long_frame = Exit "assertion failed" /\
  handle (demo_server (demo_polite ++ [Wrote 0 0])) (Read (Some (lit "^a$")) 3 (Some tt) 0) = Fault UseAfterFree.
Proof.
  split.
  - apply (uv_server_safe any_order (demo_server demo_greeting) [] demo_long_frame).
    + apply (demo_reach any_order demo_greeting); [run_allowed|vm_compute; reflexivity].
    + run_allowed.
    + vm_compute. reflexivity.
  - apply (uv_server_safe one_at_a_time _ _ (Read (Some (lit "^a$")) 3 (Some tt) 0) demo_killed_reach).
    + run_allowed.
    + vm_compute. reflexivity.
    + run_allowed.
    + reflexivity.
Defined.

Lemma uv_conversation_witness :
  u_wire (s_client (demo_server demo_polite)) = lit "*bcXXYZ" /\
  exists rest, STAR :: frame_out Framing.WAIT_FOR_MSG (lit "^ab$^WWXY$") =
    u_wire (s_client (demo_server demo_polite)) ++ rest.
Proof.
  split; [vm_compute; reflexivity|].
  destruct (uv_conversation _ _ demo_polite_reach) as (rest & H & _).
  exists rest. exact H.
Defined.
