(* ===== verification/Demos.v ===== *)
(** * The demos (src/src/uv_timer_sleep_demo.c, uv_timer_work_demo.c, threadspammer.c)

    Two programs that show what blocking does to an event loop. Both start a libuv
    timer; its callback "works" by sleeping three seconds one time in five. The first
    sleeps in the callback, the second hands the work to libuv's thread pool. And a
    program that creates as many idle threads as it is told.

    A callback is what it does on the thread it runs on ([effect]). When the timer
    fires is up to libuv and is not modelled: the callbacks run in any order that the
    documentation of [uv_queue_work] allows. A request is run once by a thread of the
    pool after it was queued, and called back once on the loop thread after that; in
    between libuv reads and writes it, so that it has to be allocated. [malloc] may
    answer the address of a request that has been freed. *)

From S2P Require Import Prelude CString.
Local Open Scope Z_scope.

Definition newline : list Z := [10].

(** What a thread does: it prints a line, or sleeps a number of seconds. *)
Inductive effect : Type := Printed (text : list Z) | Sleep (seconds : Z).

(** [printf("on_timer [%" PRIu64 " ms]\n", (timestamp / 1000000) % 100000)]. *)
Definition on_timer_line (timestamp : Z) : list Z :=
  lit "on_timer [" ++ dec_u (timestamp / 1000000 mod 100000) ++ lit " ms]" ++ newline.

(** The "work"; [rnd] is what [random] answers. *)
Definition work (rnd : Z) : list effect :=
  if rnd `rem` 5 =? 0 then [Printed (lit "Sleeping..." ++ newline); Sleep 3] else [].

(** ** Sleeping in the callback *)

(** [on_timer]; [timestamp] is what [uv_hrtime] answers. *)
Definition sleep_on_timer (timestamp rnd : Z) : list effect := Printed (on_timer_line timestamp) :: work rnd.

(** What the loop thread does in a number of callbacks. *)
Definition sleep_callbacks (calls : list (Z * Z)) : list effect :=
  calls ≫= fun '(timestamp, rnd) => sleep_on_timer timestamp rnd.

(** ** Handing the work to the pool *)

(** The addresses that are allocated; 0 is the null pointer. *)
Definition malloc (heap : gset Z) (answer : Z) : gset Z := if answer =? 0 then heap else {[answer]} ∪ heap.

Definition free (heap : gset Z) (p : Z) : outcome (gset Z) :=
  if p =? 0 then Ret heap else if decide (p ∈ heap) then Ret (heap ∖ {[p]}) else Fault UseAfterFree.

(** libuv reads or writes the request. *)
Definition access (heap : gset Z) (p : Z) : outcome unit :=
  if decide (p ∈ heap) then Ret () else Fault UseAfterFree.

(** The allocated blocks, the requests that libuv has queued, is running on the pool
    and has run, and what has been done on the loop thread and on the pool. *)
Record demo := Demo {
  heap : gset Z;
  queued : gset Z;
  working : gset Z;
  worked : gset Z;
  on_loop : list effect;
  on_pool : list effect
}.

Definition demo_start : demo := Demo ∅ ∅ ∅ ∅ [] [].

Definition on_after_work (heap : gset Z) (req status : Z) : outcome (gset Z) := free heap req.

Definition on_work (req rnd : Z) : list effect := work rnd.

(** [uv_queue_work(loop, req, on_work, on_after_work)]. *)
Definition uv_queue_work (d : demo) (req : Z) : outcome demo :=
  _ ← access (heap d) req;
  Ret (Demo (heap d) ({[req]} ∪ queued d) (working d) (worked d) (on_loop d) (on_pool d)).

(** [on_timer]; [answer] is what [malloc] answers, which is not checked. *)
Definition work_on_timer (d : demo) (timestamp answer : Z) : outcome demo :=
  let on_loop := on_loop d ++ [Printed (on_timer_line timestamp)] in
  let d := Demo (malloc (heap d) answer) (queued d) (working d) (worked d) on_loop (on_pool d) in
  uv_queue_work d answer.

(** What libuv does next: it runs the timer's callback, lets a thread of the pool run
    a request, whose callback returns some time later, or calls back a request. *)
Inductive uv_event : Type :=
| Timer (timestamp answer : Z)
| Work (req rnd : Z)
| WorkReturns (req : Z)
| AfterWork (req status : Z).

Definition demo_step (d : demo) (ev : uv_event) : outcome demo :=
  match ev with
  | Timer timestamp answer => work_on_timer d timestamp answer
  | Work req rnd =>
      _ ← access (heap d) req;
      Ret (Demo (heap d) (queued d ∖ {[req]}) ({[req]} ∪ working d) (worked d) (on_loop d)
             (on_pool d ++ on_work req rnd))
  | WorkReturns req =>
      _ ← access (heap d) req;
      Ret (Demo (heap d) (queued d) (working d ∖ {[req]}) ({[req]} ∪ worked d) (on_loop d) (on_pool d))
  | AfterWork req status =>
      _ ← access (heap d) req;
      heap ← on_after_work (heap d) req status;
      Ret (Demo heap (queued d) (working d) (worked d ∖ {[req]}) (on_loop d) (on_pool d))
  end.

(** The order in which libuv runs the callbacks of a request; [malloc] answers a null
    pointer or the address of a block that is not allocated. *)
Definition may_run (d : demo) (ev : uv_event) : Prop :=
  match ev with
  | Timer _ answer => answer ∉ heap d
  | Work req _ => req ∈ queued d
  | WorkReturns req => req ∈ working d
  | AfterWork req _ => req ∈ worked d
  end.

(** The states that the demo reaches, with the events so far. *)
Inductive demo_runs : list uv_event -> demo -> Prop :=
| Demo_start : demo_runs [] demo_start
| Demo_step evs d ev d' :
    demo_runs evs d -> may_run d ev -> demo_step d ev = Ret d' -> demo_runs (evs ++ [ev]) d'.

#[export] Instance may_run_dec d ev : Decision (may_run d ev).
Proof. destruct ev; cbn; apply _. Defined.

(** The run of given events; it stops at one that libuv does not allow. *)
Fixpoint demo_replay (d : demo) (evs : list uv_event) : outcome demo :=
  match evs with
  | [] => Ret d
  | ev :: evs' => if decide (may_run d ev) then d ← demo_step d ev; demo_replay d evs' else Exit "not allowed"
  end.

Lemma demo_replay_runs evs d evs' d' : demo_runs evs d -> demo_replay d evs' = Ret d' -> demo_runs (evs ++ evs') d'.
Proof.
  revert evs d. induction evs' as [|ev evs' IH]; intros evs d Hr He; cbn in He.
  - injection He as <-. by rewrite app_nil_r.
  - case_decide; [|done]. apply outcome_bind_inv in He as (d1 & Hs & He).
    change (ev :: evs') with ([ev] ++ evs'). rewrite app_assoc. by apply (IH (evs ++ [ev]) d1); [apply (Demo_step _ d)|].
Qed.

(** ** The thread spammer *)

(** %x of an [unsigned]. *)
Definition hex_digit (d : Z) : Z := if d <? 10 then 48 + d else 87 + d.

Fixpoint hex (fuel : nat) (n : Z) : list Z :=
  match fuel with
  | O => []
  | S f => if n <? 16 then [hex_digit n] else hex f (n / 16) ++ [hex_digit (n mod 16)]
  end.

(** What a thread prints before it sleeps for ever; [self] is its [pthread_self()]. *)
Definition threadfunc (p self : Z) : list Z :=
  dec_s p ++ lit ": thread 0x" ++ hex 8 (u32 self) ++ newline.

(** The loop that creates the threads: the arguments of those that exist.
    [pthread_create] answers 0, or an error that is not looked at. *)
Fixpoint spammer_loop (n : nat) (i : Z) (pthread_create : Z -> Z) : list Z :=
  match n with
  | O => []
  | S n' => (if pthread_create i =? 0 then [i] else []) ++ spammer_loop n' (i + 1) pthread_create
  end.

(** [main] until it only sleeps: what it prints, and the threads it has created. *)
Definition spammer_main (argv1 : option (list Z)) (pthread_create : Z -> Z) : list Z * list Z :=
  let nthreads := match argv1 with Some text => atoi text | None => 10 end in
  let out := lit "Running with nthreads = " ++ dec_s nthreads ++ newline in
  let threads := spammer_loop (Z.to_nat nthreads) 0 pthread_create in
  (out ++ lit "... waiting ... " ++ newline, threads).

(** ** What the demos do *)

(** The seconds a thread has slept. *)
Definition slept (effs : list effect) : Z :=
  foldr Z.add 0 (omap (fun eff => match eff with Sleep n => Some n | Printed _ => None end) effs).

Definition timestamp_of (ev : uv_event) : option Z := match ev with Timer timestamp _ => Some timestamp | _ => None end.

Definition answer_of (ev : uv_event) : option Z := match ev with Timer _ answer => Some answer | _ => None end.

Definition rnd_of (ev : uv_event) : option Z := match ev with Work _ rnd => Some rnd | _ => None end.

Definition freed_of (ev : uv_event) : option Z := match ev with AfterWork req _ => Some req | _ => None end.

Lemma slept_app effs1 effs2 : slept (effs1 ++ effs2) = slept effs1 + slept effs2.
Proof.
  unfold slept. rewrite omap_app, foldr_app. generalize (foldr Z.add 0 (omap (M := list)
    (fun eff => match eff with Sleep n => Some n | Printed _ => None end) effs2)). intros z.
  induction (omap _ effs1) as [|x xs IH]; simpl; lia.
Qed.

Lemma slept_sleep_callbacks calls : slept (sleep_callbacks calls) = slept (calls.*2 ≫= work).
Proof.
  induction calls as [|[timestamp rnd] calls IH]; [done|]. unfold sleep_callbacks in *.
  cbn [fmap list_fmap]. rewrite !bind_cons, !slept_app, IH. done.
Qed.

(** The requests are the allocated blocks, each in one place, and never null; the pool
    has done the work of the requests it has taken, and the loop thread the rest. *)
Record demo_inv (evs : list uv_event) (d : demo) : Prop := {
  inv_heap : heap d = queued d ∪ working d ∪ worked d;
  inv_apart : queued d ## working d /\ queued d ## worked d /\ working d ## worked d;
  inv_null : 0 ∉ heap d;
  inv_loop : on_loop d = (fun timestamp => Printed (on_timer_line timestamp)) <$> omap timestamp_of evs;
  inv_pool : on_pool d = omap rnd_of evs ≫= work;
  inv_freed : omap answer_of evs ≡ₚ elements (heap d) ++ omap freed_of evs
}.

Lemma access_ok heap p : p ∈ heap -> access heap p = Ret ().
Proof. intros Hp. unfold access. by rewrite decide_True. Qed.

(** A step that is allowed goes through, but for a timer whose allocation fails, and
    keeps the invariant. *)
Lemma demo_step_inv evs d ev :
  demo_inv evs d -> may_run d ev ->
  match demo_step d ev with
  | Ret d' => (forall timestamp, ev <> Timer timestamp 0) /\ demo_inv (evs ++ [ev]) d'
  | Exit _ => False
  | Fault f => f = UseAfterFree /\ exists timestamp, ev = Timer timestamp 0
  end.
Proof.
  destruct d as [h q w f loop pool]. intros [Hh (Ha1 & Ha2 & Ha3) Hn Hl Hp Hf] Hm. cbn in Hh, Ha1, Ha2, Ha3, Hn, Hl, Hp, Hf.
  destruct ev as [timestamp answer|req rnd|req|req status]; cbn in Hm.
  - cbn [demo_step]. unfold work_on_timer, uv_queue_work, malloc, access. cbn [heap].
    destruct (Z.eqb_spec answer 0) as [->|Hne]; [rewrite decide_False by done; cbn; eauto|].
    rewrite decide_True by set_solver. cbn. split; [congruence|].
    split; cbn; [set_solver|set_solver|set_solver| | |];
      rewrite ?omap_app; cbn; rewrite ?app_nil_r; [by rewrite Hl, fmap_app|done|].
    rewrite Hf, elements_union_singleton by done. rewrite Permutation_app_comm. done.
  - assert (req ∈ h) by set_solver. cbn [demo_step]. rewrite access_ok, outcome_ret_bind by done.
    split; [done|]. split; cbn; [|set_solver|done| | |]; rewrite ?omap_app; cbn; rewrite ?app_nil_r; try done.
    + rewrite Hh. apply leibniz_equiv. intros x. destruct (decide (x = req)); set_solver.
    + by rewrite Hp, bind_app, bind_singleton.
  - assert (req ∈ h) by set_solver. cbn [demo_step]. rewrite access_ok, outcome_ret_bind by done.
    split; [done|]. split; cbn; [|set_solver|done| | |]; rewrite ?omap_app; cbn; rewrite ?app_nil_r; try done.
    rewrite Hh. apply leibniz_equiv. intros x. destruct (decide (x = req)); set_solver.
  - assert (req ∈ h) as Hin by set_solver. cbn [demo_step]. rewrite access_ok, outcome_ret_bind by done.
    unfold on_after_work, free. destruct (Z.eqb_spec req 0) as [->|_]; [done|].
    rewrite decide_True, outcome_ret_bind by done. split; [done|].
    split; cbn; [|set_solver|set_solver| | |]; rewrite ?omap_app; cbn; rewrite ?app_nil_r; try done.
    + rewrite Hh. apply leibniz_equiv. intros x. set_solver.
    + rewrite Hf. rewrite (union_difference_singleton_L req h) at 1 by done.
      rewrite elements_union_singleton by set_solver. cbn.
      rewrite (app_assoc _ _ [req]), (Permutation_app_comm _ [req]). done.
Qed.

Lemma demo_runs_inv evs d : demo_runs evs d -> demo_inv evs d.
Proof.
  induction 1 as [|evs d ev d' _ IH Hm Hs]; [by split; cbn; [set_solver|set_solver|set_solver|..]|].
  pose proof (demo_step_inv evs d ev IH Hm) as H. rewrite Hs in H. apply H.
Qed.

(** C36 [work_demo_requests]: the demo that hands its work to the pool, under every order
    of its callbacks that libuv allows, and whatever addresses are used again. The
    loop thread has printed the line of each timer callback, in order, and never
    sleeps; the pool has slept as long as the loop thread of the other demo does in
    callbacks with the same answers of [random]. The requests that are allocated are
    those that libuv holds, each in one stage, and what was allocated is what is
    allocated now and what has been freed, each as often: nothing leaks, and nothing
    is freed twice. The next callback meets no freed request, and the only one that
    fails is a timer callback whose [malloc] has failed. *)
Theorem work_demo_requests evs d calls :
  demo_runs evs d -> calls.*2 = omap rnd_of evs ->
  on_loop d = (fun timestamp => Printed (on_timer_line timestamp)) <$> omap timestamp_of evs /\
  slept (on_loop d) = 0 /\
  slept (on_pool d) = slept (sleep_callbacks calls) /\
  heap d = queued d ∪ working d ∪ worked d /\
  omap answer_of evs ≡ₚ elements (heap d) ++ omap freed_of evs /\
  (forall ev, may_run d ev ->
     match demo_step d ev with
     | Ret d' => demo_runs (evs ++ [ev]) d'
     | Exit _ => False
     | Fault f => f = UseAfterFree /\ exists timestamp, ev = Timer timestamp 0
     end).
Proof.
  intros Hr Hc. pose proof (demo_runs_inv evs d Hr) as Hi. destruct (Hi) as [Hh _ _ Hl Hp Hf].
  split; [done|]. split; [rewrite Hl; clear; induction (omap timestamp_of evs) as [|timestamp ts IH]; [done|exact IH]|].
  split; [by rewrite Hp, slept_sleep_callbacks, Hc|]. split; [done|]. split; [done|].
  intros ev Hm. pose proof (demo_step_inv evs d ev Hi Hm) as H.
  destruct (demo_step d ev) eqn:Es; [by eapply Demo_step|done|by destruct H].
Qed.

(** Two timer callbacks, a sleep, and the address of the first request used again. *)
Definition demo_events : list uv_event :=
  [Timer 0 64; Work 64 10; Timer 1000000000 96; WorkReturns 64; AfterWork 64 0; Timer 2000000000 64; Work 64 7].

Lemma work_demo_requests_witness :
  exists d, demo_replay demo_start demo_events = Ret d /\ slept (on_loop d) = 0 /\
    slept (on_pool d) = slept (sleep_callbacks [(5, 10); (6, 7)]) /\
    slept (on_pool d) = 3 /\ heap d = queued d ∪ working d ∪ worked d.
Proof.
  destruct (demo_replay demo_start demo_events) as [d| |] eqn:Er; [|vm_compute in Er; discriminate..].
  exists d. split; [reflexivity|].
  destruct (work_demo_requests demo_events d [(5, 10); (6, 7)]) as (_ & Hl & Hp & Hh & _).
  - apply (demo_replay_runs [] demo_start demo_events d Demo_start Er).
  - reflexivity.
  - split; [exact Hl|]. split; [exact Hp|]. split; [rewrite Hp; reflexivity|exact Hh].
Defined.

(** ** The threads of the spammer *)

Lemma spammer_loop_spec n i create :
  spammer_loop n i create = filter (fun j => create j = 0) (seqZ i (Z.of_nat n)).
Proof.
  revert i. induction n as [|n IH]; intros i; [done|]. rewrite seqZ_cons by lia.
  replace (Z.pred (Z.of_nat (S n))) with (Z.of_nat n) by lia. cbn [spammer_loop]. rewrite IH, filter_cons.
  unfold Z.succ. destruct (Z.eqb_spec (create i) 0); case_decide; done.
Qed.

Lemma filter_every (l : list Z) (create : Z -> Z) :
  (forall i, create i = 0) -> filter (fun i => create i = 0) l = l.
Proof. intros Hall. induction l as [|i l IH]; [done|]. by rewrite filter_cons_True, IH. Qed.

(** [spammer_threads]: an argument that denotes n asks for the threads 0 to n - 1, each
    once; those whose creation succeeds exist, and nothing reports the others. *)
Theorem spammer_threads text n create :
  numeral text n -> - 2 ^ 31 <= n < 2 ^ 31 ->
  (spammer_main (Some text) create).2 = filter (fun i => create i = 0) (seqZ 0 n) /\
  ((forall i, create i = 0) -> Z.of_nat (length (spammer_main (Some text) create).2) = Z.max 0 n).
Proof.
  intros Hn Hr. unfold spammer_main. cbn [snd]. unfold atoi.
  rewrite (strtol_numeral text n Hn) by (unfold LONG_MIN, LONG_MAX; lia). cbn [fst]. rewrite s32_small by done.
  rewrite spammer_loop_spec. split.
  - f_equal. unfold seqZ. by rewrite Nat2Z.id.
  - intros Hall. rewrite filter_every by done. rewrite length_seqZ. lia.
Qed.
