(* ===== verification/BlockingServers.v ===== *)
(** * The sequential and the threaded server
    (src/src/sequential_server.c, src/src/threaded_server.c)

    - [blocking_main]: [main] of either server up to its loop;
    - [sequential_iteration]: the body of the accept loop of the sequential server,
      run over all that [accept] answers;
    - [tstep]: the threaded server, one step at a time: its main thread between
      [accept], [xmalloc], [pthread_create] and [pthread_detach], and its threads, each
      between the greeting, the requests of its connection, the reading of the clock
      and the atomic accesses to the registry. What a thread owns (its socket and its
      configuration) is explicit; closing a descriptor that is not open is a [Fault],
      and so is detaching a thread that is detached.

    Both serve a connection with [serve_connection] of Protocol.v, the sequential
    server in one go, a thread an iteration at a time ([serve_request]) and with the
    other threads in between. *)

From S2P Require Import Prelude Framing CString Posix Utils Metrics Protocol Libuv.
Local Open Scope Z_scope.

(** ** The listener *)

(** [main] up to its loop; [argv1] is [argv[1]] where there is one. *)
Definition blocking_main (argv1 : option (list Z)) (a : listen_answers) : outcome (proc * Z * Z) :=
  let p := ignore_sigpipe proc_start in
  '(sockfd, port) ← listen_inet_socket (port_argument 9090 argv1) a;
  Ret (p, sockfd, port).

(** [accept] returns a connection, with what its receive buffer holds before it is
    written, or fails. *)
Inductive accept_result :=
| Accepted (fd : Z) (s : sock) (garbage : list Z)
| AcceptFailed (errno : Z).

(** The errnos that do not end the servers. *)
Definition accept_again (errno : Z) : bool := (errno =? EINTR) || (errno =? ECONNABORTED).

(** ** The sequential server *)

(** A connection that was served: its socket before and after, and the result. *)
Record visit := Visit { v_fd : Z; v_before : sock; v_after : sock; v_result : serve_result_t }.

Record sequential := Sequential {
  q_reg : registry;
  q_ticks : nat;
  q_open : gset Z;
  q_visits : list visit
}.

(** Why the loop does not go on: the process ended, or the server is inside
    [serve_connection] until this client does something. *)
Inductive halt := Ended (msg : string) | Serving (fd : Z) (s : sock) | Broken (f : fault).

Definition sequential_iteration (p : proc) (clock : nat -> option (Z * Z)) (q : sequential)
    (answer : accept_result) : sequential * option halt :=
  match answer with
  | AcceptFailed errno => if accept_again errno then (q, None) else (q, Some (Ended "accept"))
  | Accepted newsockfd s garbage =>
      let open := {[newsockfd]} ∪ q_open q in
      let '(r, w) := serve_connection p garbage (World s (q_reg q) clock (q_ticks q)) in
      match r with
      | Served res =>
          match close_fd open newsockfd with
          | Ret open =>
              (Sequential (w_reg w) (w_ticks w) open
                 (q_visits q ++ [Visit newsockfd s (w_sock w) res]), None)
          | Exit msg => (q, Some (Ended msg))
          | Fault f => (q, Some (Broken f))
          end
      | AwaitRecv | AwaitSend =>
          (Sequential (w_reg w) (w_ticks w) open (q_visits q), Some (Serving newsockfd (w_sock w)))
      | Killed => (q, Some (Ended "SIGPIPE"))
      | ServeFault f => (q, Some (Broken f))
      | NoFuel => (q, Some (Broken NoReturn))
      end
  end.

(** The loop, on the answers of the successive [accept]s: where it stops and how
    many of them it has consumed. *)
Fixpoint sequential_loop (p : proc) (clock : nat -> option (Z * Z)) (q : sequential)
    (answers : list accept_result) : sequential * option halt * list accept_result :=
  match answers with
  | [] => (q, None, [])
  | a :: answers' =>
      match sequential_iteration p clock q a with
      | (q, None) => sequential_loop p clock q answers'
      | (q, Some h) => (q, Some h, answers')
      end
  end.

(** The connections among the answers. *)
Definition accepted (answers : list accept_result) : list (Z * sock) :=
  omap (fun a => match a with Accepted fd s _ => Some (fd, s) | AcceptFailed _ => None end) answers.

(** What is assumed of [accept]: it does not return the listener, which is open. The
    receive buffer has 1024 bytes. *)
Definition answer_ok (sockfd : Z) (a : accept_result) : Prop :=
  match a with Accepted fd _ g => length g = 1024%nat /\ fd <> sockfd | AcceptFailed _ => True end.

Definition visit_ok (v : visit) : Prop := echoed (v_before v) (v_after v) (v_result v).

(** [serve_connection] has not returned: the client is to send, or to take, more. *)
Definition waits_for_client (p : proc) (g : list Z) (before after : sock) : Prop :=
  exists reg clock ticks r w, serve_connection p g (World before reg clock ticks) = (r, w) /\
    w_sock w = after /\ (r = AwaitRecv \/ r = AwaitSend).

(** How the loop goes from [q] to [q'] over the answers [seen], and why it stops. *)
Definition sequential_ok (p : proc) (sockfd : Z) (q q' : sequential) (seen : list accept_result)
    (h : option halt) (stopper : option accept_result) : Prop :=
  (exists vs, q_visits q' = q_visits q ++ vs /\ Forall visit_ok vs /\
     ((fun v => (v_fd v, v_before v)) <$> vs) = accepted seen) /\
  match h with
  | None => stopper = None /\ q_open q' = {[sockfd]}
  | Some (Ended msg) => msg = "accept"%string /\ q_open q' = {[sockfd]} /\
      exists e, stopper = Some (AcceptFailed e) /\ accept_again e = false
  | Some (Serving fd s) => q_open q' = {[fd; sockfd]} /\
      exists s0 g, stopper = Some (Accepted fd s0 g) /\ waits_for_client p g s0 s
  | Some (Broken _) => False
  end.

Lemma sequential_iteration_spec p clock sockfd q a q' h :
  sigpipe_ignored p = true -> answer_ok sockfd a -> q_open q = {[sockfd]} ->
  sequential_iteration p clock q a = (q', h) ->
  sequential_ok p sockfd q q' (match h with None => [a] | Some _ => [] end) h
    (match h with None => None | Some _ => Some a end).
Proof.
  intros Hp Ha Hopen. unfold sequential_iteration, sequential_ok. destruct a as [fd s g|e].
  2: { destruct (accept_again e) eqn:E; intros [= <- <-]; (split; [exists []; by rewrite app_nil_r|]).
       - done.
       - split; [done|]. split; [done|]. by exists e. }
  destruct Ha as [Hg Hfd].
  destruct (serve_connection p g (World s (q_reg q) clock (q_ticks q))) as [r w] eqn:Es.
  pose proof (serve_connection_returns _ _ _ _ _ Hg Hp Es) as Hr.
  assert (r = AwaitRecv \/ r = AwaitSend -> waits_for_client p g s (w_sock w)) as Hwait.
  { intros. by exists (q_reg q), clock, (q_ticks q), r, w. }
  destruct r as [res| | | | |]; try done.
  - rewrite close_fd_in. intros [= <- <-]. split; [|split; [done|]].
    2: { simpl. rewrite Hopen. apply open_close. by apply not_elem_of_singleton. }
    exists [Visit fd s (w_sock w) res]. split; [done|]. split; [by constructor|done].
  - intros [= <- <-]. split; [exists []; by rewrite app_nil_r|]. simpl. split; [by rewrite Hopen|].
    exists s, g. split; [done|]. apply Hwait. by left.
  - intros [= <- <-]. split; [exists []; by rewrite app_nil_r|]. simpl. split; [by rewrite Hopen|].
    exists s, g. split; [done|]. apply Hwait. by right.
Qed.

Lemma sequential_loop_spec p clock sockfd answers : forall q q' h rest,
  sigpipe_ignored p = true -> Forall (answer_ok sockfd) answers -> q_open q = {[sockfd]} ->
  sequential_loop p clock q answers = (q', h, rest) ->
  exists seen stopper, answers = seen ++ option_list stopper ++ rest /\
    sequential_ok p sockfd q q' seen h stopper.
Proof.
  induction answers as [|a answers IH]; intros q q' h rest Hp Hans Hopen; simpl.
  { intros [= <- <- <-]. exists [], None. split; [done|]. split; [|done].
    exists []. by rewrite app_nil_r. }
  apply Forall_cons in Hans as [Ha Hans].
  destruct (sequential_iteration p clock q a) as [q1 h1] eqn:E1.
  pose proof (sequential_iteration_spec _ _ _ _ _ _ _ Hp Ha Hopen E1) as [(vs & Hv & Hok & Hacc) Hh].
  destruct h1 as [h1|].
  - intros [= <- <- <-]. exists [], (Some a). split; [done|]. split; [by exists vs|done].
  - destruct Hh as [_ Hopen1]. intros Hrun.
    destruct (IH _ _ _ _ Hp Hans Hopen1 Hrun) as (seen & stopper & -> & (vs' & Hv' & Hok' & Hacc') & Hh).
    exists (a :: seen), stopper. split; [done|]. split; [|done].
    exists (vs ++ vs'). rewrite Hv', Hv, app_assoc. split; [done|]. split; [by apply Forall_app|].
    rewrite fmap_app, Hacc, Hacc'. unfold accepted. simpl.
    by destruct a.
Qed.

(** ** The threaded server *)

(** The main thread: in [accept]; after it; after [xmalloc] and the assignment to
    [config->sockfd]; after [pthread_create], which has created thread [i]. *)
Inductive main_pc :=
| M_Accept
| M_Accepted (newsockfd : Z) (garbage : list Z)
| M_Config (newsockfd : Z) (config : cell Z) (garbage : list Z)
| M_Created (i : nat).

(** [server_thread]: at its start, with its argument; in [serve_connection], before the
    greeting, before [recv], before the clock is read for the second time and before
    the atomic accesses of [metrics_request_observed] that are left; before [close];
    finished. *)
Inductive thread_pc :=
| T_Start (arg : cell Z) (garbage : list Z)
| T_Greet (sockfd : Z) (garbage : list Z)
| T_Recv (sockfd : Z) (garbage : list Z) (state : ProcessingState)
| T_Record (sockfd : Z) (garbage : list Z) (state : ProcessingState) (started_ns : Z)
| T_Update (sockfd : Z) (garbage : list Z) (state : ProcessingState) (ops : list atomic)
| T_Close (sockfd : Z)
| T_Done.

Record threaded := Threaded {
  t_main : main_pc;
  t_threads : list thread_pc;
  t_joinable : list nat;          (* the threads that are not detached *)
  t_socks : gmap Z sock;          (* the open connections *)
  t_before : gmap Z sock;         (* each as [accept] returned it *)
  t_reg : registry;
  t_ticks : nat;
  t_accepted : list Z;            (* every descriptor [accept] returned *)
  t_dropped : list Z;             (* closed because [pthread_create] failed *)
  t_visits : list visit           (* served by a thread *)
}.

Inductive tevent :=
| Accept (a : accept_result)
| Malloc (mem : option unit)
| Create (rc : Z)
| Detach
| Thread (i : nat).

Definition set_main (t : threaded) (m : main_pc) : threaded :=
  Threaded m (t_threads t) (t_joinable t) (t_socks t) (t_before t) (t_reg t) (t_ticks t) (t_accepted t)
    (t_dropped t) (t_visits t).

Definition set_thread (t : threaded) (i : nat) (th : thread_pc) : threaded :=
  Threaded (t_main t) (<[i := th]> (t_threads t)) (t_joinable t) (t_socks t) (t_before t) (t_reg t) (t_ticks t)
    (t_accepted t) (t_dropped t) (t_visits t).

Definition set_socks (t : threaded) (socks : gmap Z sock) : threaded :=
  Threaded (t_main t) (t_threads t) (t_joinable t) socks (t_before t) (t_reg t) (t_ticks t) (t_accepted t)
    (t_dropped t) (t_visits t).

(** The socket and the shared registry and clock after some part of [serve_connection]. *)
Definition set_world (t : threaded) (fd : Z) (w : world) : threaded :=
  Threaded (t_main t) (t_threads t) (t_joinable t) (<[fd := w_sock w]> (t_socks t)) (t_before t) (w_reg w) (w_ticks w)
    (t_accepted t) (t_dropped t) (t_visits t).

Definition tclose (t : threaded) (fd : Z) : outcome threaded :=
  match t_socks t !! fd with
  | Some _ => Ret (set_socks t (delete fd (t_socks t)))
  | None => Fault BadDescriptor
  end.

(** [pthread_detach] of thread [i]. *)
Definition tdetach (t : threaded) (i : nat) : outcome threaded :=
  if decide (i ∈ t_joinable t) then
    Ret (Threaded (t_main t) (t_threads t) (filter (fun j => j <> i) (t_joinable t)) (t_socks t) (t_before t) (t_reg t)
           (t_ticks t) (t_accepted t) (t_dropped t) (t_visits t))
  else Fault UseAfterFree.

(** One iteration of the loop of [main] is [Accept], [Malloc], [Create], [Detach]. *)
Definition run_main (t : threaded) (ev : tevent) : option (outcome threaded) :=
  match ev, t_main t with
  | Accept (AcceptFailed errno), M_Accept =>
      Some (if accept_again errno then Ret t else Exit "accept")
  | Accept (Accepted fd s g), M_Accept =>
      Some (Ret (Threaded (M_Accepted fd g) (t_threads t) (t_joinable t) (<[fd := s]> (t_socks t))
                   (<[fd := s]> (t_before t)) (t_reg t) (t_ticks t) (t_accepted t ++ [fd]) (t_dropped t) (t_visits t)))
  | Malloc mem, M_Accepted fd g =>
      Some (_ ← xmalloc mem; Ret (set_main t (M_Config fd (Live fd) g)))
  | Create rc, M_Config fd config g =>
      Some (
        if negb (rc =? 0) then
          _ ← free config;
          t ← tclose t fd;
          Ret (Threaded M_Accept (t_threads t) (t_joinable t) (t_socks t) (t_before t) (t_reg t) (t_ticks t)
                 (t_accepted t) (t_dropped t ++ [fd]) (t_visits t))
        else
          let i := length (t_threads t) in
          Ret (Threaded (M_Created i) (t_threads t ++ [T_Start config g]) (t_joinable t ++ [i]) (t_socks t) (t_before t)
                 (t_reg t) (t_ticks t) (t_accepted t) (t_dropped t) (t_visits t)))
  | Detach, M_Created i => Some (t ← tdetach t i; Ret (set_main t M_Accept))
  | _, _ => None
  end.

(** [serve_connection] of thread [i] returns [r]. *)
Definition treturn (t : threaded) (i : nat) (fd : Z) (s : sock) (r : serve_result_t) : threaded :=
  Threaded (t_main t) (<[i := T_Close fd]> (t_threads t)) (t_joinable t) (<[fd := s]> (t_socks t)) (t_before t) (t_reg t)
    (t_ticks t) (t_accepted t) (t_dropped t) (t_visits t ++ [Visit fd (default s (t_before t !! fd)) s r]).

(** A step of [server_thread]; [None] while it waits for its peer. *)
Definition run_thread (p : proc) (clock : nat -> option (Z * Z)) (t : threaded) (i : nat) :
    option (outcome threaded) :=
  match t_threads t !! i with
  | Some (T_Start arg g) =>
      Some (sockfd ← deref arg; _ ← free arg; Ret (set_thread t i (T_Greet sockfd g)))
  | Some (T_Greet fd g) =>
      match t_socks t !! fd with
      | None => Some (Fault BadDescriptor)
      | Some s =>
          let '(r, s) := send_all p s [STAR] in
          match r with
          | SentAll => Some (Ret (set_thread (set_socks t (<[fd := s]> (t_socks t))) i (T_Recv fd g WAIT_FOR_MSG)))
          | SendFailed errno => Some (Ret (treturn t i fd s (classify_errno errno)))
          | SendBlocked => None
          | SendKilled => Some (Exit "SIGPIPE")
          end
      end
  | Some (T_Recv fd g state) =>
      match t_socks t !! fd with
      | None => Some (Fault BadDescriptor)
      | Some s =>
          match serve_request p g state (World s (t_reg t) clock (t_ticks t)) with
          | (Again, w) => Some (Ret (set_world t fd w))
          | (Answered state started_ns, w) =>
              Some (Ret (set_thread (set_world t fd w) i (T_Record fd g state started_ns)))
          | (Stopped (Served res), w) => Some (Ret (treturn t i fd (w_sock w) res))
          | (Stopped (AwaitRecv | AwaitSend), _) => None
          | (Stopped Killed, _) => Some (Exit "SIGPIPE")
          | (Stopped (ServeFault f), _) => Some (Fault f)
          | (Stopped NoFuel, _) => Some (Fault NoReturn)
          end
      end
  | Some (T_Record fd g state started_ns) =>
      let now := metrics_now_ns (clock (t_ticks t)) in
      Some (Ret (Threaded (t_main t)
                   (<[i := T_Update fd g state (metrics_request_observed (u64 (now - started_ns)))]> (t_threads t))
                   (t_joinable t) (t_socks t) (t_before t) (t_reg t) (S (t_ticks t)) (t_accepted t) (t_dropped t)
                   (t_visits t)))
  | Some (T_Update fd g state (op :: ops)) =>
      Some (Ret (Threaded (t_main t) (<[i := T_Update fd g state ops]> (t_threads t)) (t_joinable t) (t_socks t)
                   (t_before t) (exec (t_reg t) op) (t_ticks t) (t_accepted t) (t_dropped t) (t_visits t)))
  | Some (T_Update fd g state []) => Some (Ret (set_thread t i (T_Recv fd g state)))
  | Some (T_Close fd) => Some (t ← tclose t fd; Ret (set_thread t i T_Done))
  | Some T_Done | None => None
  end.

Definition tstep (p : proc) (clock : nat -> option (Z * Z)) (t : threaded) (ev : tevent) :
    option (outcome threaded) :=
  match ev with Thread i => run_thread p clock t i | _ => run_main t ev end.

Definition threaded_start (reg : registry) : threaded := Threaded M_Accept [] [] ∅ ∅ reg 0 [] [] [].

(** What is assumed of the kernel: [accept] does not return an open descriptor. *)
Definition tmay (sockfd : Z) (t : threaded) (ev : tevent) : Prop :=
  match ev with
  | Accept (Accepted fd _ g) => length g = 1024%nat /\ fd <> sockfd /\ t_socks t !! fd = None
  | _ => True
  end.

Inductive treach (p : proc) (clock : nat -> option (Z * Z)) (sockfd : Z) : threaded -> Prop :=
| treach_start reg : treach p clock sockfd (threaded_start reg)
| treach_step t ev t' :
    treach p clock sockfd t -> tmay sockfd t ev -> tstep p clock t ev = Some (Ret t') ->
    treach p clock sockfd t'.

(** *** Who owns which descriptor *)

Definition main_fds (m : main_pc) : list Z :=
  match m with M_Accept | M_Created _ => [] | M_Accepted fd _ | M_Config fd _ _ => [fd] end.

Definition waiting_fds (th : thread_pc) : list Z :=
  match th with
  | T_Start (Live fd) _ | T_Greet fd _ | T_Recv fd _ _ | T_Record fd _ _ _ | T_Update fd _ _ _ => [fd]
  | _ => []
  end.

Definition closing_fds (th : thread_pc) : list Z := match th with T_Close fd => [fd] | _ => [] end.

(** Accepted and not yet served; served and not yet closed. *)
Definition waiting (t : threaded) : list Z :=
  main_fds (t_main t) ++ concat (waiting_fds <$> t_threads t).

Definition closing (t : threaded) : list Z := concat (closing_fds <$> t_threads t).

(** [owns l socks]: each open connection is in [l] once, and nothing else is. *)
Definition owns (l : list Z) (socks : gmap Z sock) : Prop :=
  NoDup l /\ forall fd, fd ∈ l <-> is_Some (socks !! fd).

#[export] Instance owns_proper : Proper ((≡ₚ) ==> eq ==> iff) owns.
Proof.
  intros l l' Hl socks ? <-. unfold owns. rewrite Hl. split; intros [? H]; (split; [done|]);
    intros fd; rewrite <- (H fd), Hl; done.
Qed.

Lemma owns_new l socks fd s : owns l socks -> socks !! fd = None -> owns (fd :: l) (<[fd := s]> socks).
Proof.
  intros [Hn Hl] Hnew. split.
  - constructor; [|done]. rewrite Hl, Hnew. by intros [].
  - intros fd'. rewrite elem_of_cons, Hl. destruct (decide (fd = fd')) as [->|Hne].
    + rewrite lookup_insert_eq. split; [by eexists|by left].
    + rewrite lookup_insert_ne by done. split; [intros [|]; [congruence|done]|by right].
Qed.

Lemma owns_close l socks fd : owns (fd :: l) socks -> owns l (delete fd socks).
Proof.
  intros [[Hnew Hn]%NoDup_cons Hl]. split; [done|]. intros fd'. destruct (decide (fd = fd')) as [->|Hne].
  - rewrite lookup_delete_eq. split; [done|by intros []].
  - rewrite lookup_delete_ne, <- Hl, elem_of_cons by done. split; [by right|intros [|]; [congruence|done]].
Qed.

Lemma owns_update l socks fd s : owns l socks -> fd ∈ l -> owns l (<[fd := s]> socks).
Proof.
  intros [Hn Hl] Hin. split; [done|]. intros fd'. rewrite Hl. destruct (decide (fd = fd')) as [->|Hne].
  - rewrite lookup_insert_eq. apply Hl in Hin. split; [by eexists|done].
  - by rewrite lookup_insert_ne.
Qed.

(** *** What each thread has come to *)

(** The connection is as [accept] returned it. *)
Definition untouched (t : threaded) (fd : Z) : Prop := exists s, t_before t !! fd = Some s /\ t_socks t !! fd = Some s.

(** What is left of the conversation is what [serve_connection] would do, alone. *)
Definition under_way (p : proc) (t : threaded) (fd : Z) (g : list Z) (st : ProcessingState) : Prop :=
  exists s0 s, t_before t !! fd = Some s0 /\ t_socks t !! fd = Some s /\ talk p g s0 = talk_on p g st s.

Definition wf_main (t : threaded) : Prop :=
  match t_main t with
  | M_Accept => True
  | M_Accepted fd g => length g = 1024%nat /\ untouched t fd
  | M_Config fd config g => length g = 1024%nat /\ config = Live fd /\ untouched t fd
  | M_Created i => True
  end.

Definition wf_thread (p : proc) (t : threaded) (th : thread_pc) : Prop :=
  match th with
  | T_Start arg g => length g = 1024%nat /\ exists fd, arg = Live fd /\ untouched t fd
  | T_Greet fd g => length g = 1024%nat /\ untouched t fd
  | T_Recv fd g st | T_Record fd g st _ | T_Update fd g st _ => length g = 1024%nat /\ under_way p t fd g st
  | T_Close _ | T_Done => True
  end.

(** A visit is what [serve_connection] makes of the connection. *)
Definition visit_served (p : proc) (v : visit) : Prop :=
  exists g, length g = 1024%nat /\ talk p g (v_before v) = (Served (v_result v), v_after v).

Record tinv (p : proc) (t : threaded) : Prop := TInv {
  ti_owns : owns (waiting t ++ closing t) (t_socks t);
  ti_accepted : t_accepted t ≡ₚ (v_fd <$> t_visits t) ++ t_dropped t ++ waiting t;
  ti_visits : Forall (visit_served p) (t_visits t);
  ti_main : wf_main t;
  ti_threads : Forall (wf_thread p t) (t_threads t);
  ti_joinable : t_joinable t = match t_main t with M_Created i => [i] | _ => [] end
}.

(** What the two maps say of the descriptors a thread is going to use is all it needs. *)
Definition same_at (t t' : threaded) (fd : Z) : Prop :=
  t_before t' !! fd = t_before t !! fd /\ t_socks t' !! fd = t_socks t !! fd.

Lemma wf_thread_frame p t t' th :
  (forall fd, fd ∈ waiting_fds th -> same_at t t' fd) -> wf_thread p t th -> wf_thread p t' th.
Proof.
  intros Hsame. destruct th as [arg g|fd g|fd g st|fd g st n|fd g st ops|fd|]; try done; simpl;
    unfold untouched, under_way.
  - intros [Hg (fd & -> & Hu)]. destruct (Hsame fd) as [E1 E2]; [by left|]. split; [done|]. exists fd. by rewrite E1, E2.
  - destruct (Hsame fd) as [-> ->]; [by left|done].
  - destruct (Hsame fd) as [-> ->]; [by left|done].
  - destruct (Hsame fd) as [-> ->]; [by left|done].
  - destruct (Hsame fd) as [-> ->]; [by left|done].
Qed.

Lemma wf_main_frame t t' :
  t_main t' = t_main t -> (forall fd, fd ∈ main_fds (t_main t) -> same_at t t' fd) -> wf_main t -> wf_main t'.
Proof.
  intros Hm Hsame. unfold wf_main. rewrite Hm. destruct (t_main t) as [|fd g|fd c g|i]; try done; unfold untouched;
    (destruct (Hsame fd) as [-> ->]; [by left|done]).
Qed.

(** *** The threads are apart *)

Lemma NoDup_concat_apart {A B} (f : A -> list B) l : forall i j a b x,
  NoDup (concat (f <$> l)) -> l !! i = Some a -> l !! j = Some b -> i <> j -> x ∈ f a -> x ∉ f b.
Proof.
  assert (forall l i a x, l !! i = Some a -> x ∈ f a -> x ∈ concat (f <$> l)) as Hin.
  { clear. induction l as [|y l IH]; intros [|i] a x Hi Hx; simplify_eq/=; apply elem_of_app; [by left|right; by eapply IH]. }
  induction l as [|y l IH]; intros [|i] [|j] a b x Hn Hi Hj Hne Ha Hb; simplify_eq/=;
    apply NoDup_app in Hn as (Hy & Hap & Hn).
  - by eapply Hap, Hin.
  - by eapply Hap, Hin.
  - by eapply (IH i j); [..|exact Ha|exact Hb]; auto.
Qed.

Section Apart.
Context (t : threaded) (Hn : NoDup (waiting t ++ closing t)).

Lemma apart_threads i j th th' fd :
  t_threads t !! i = Some th -> t_threads t !! j = Some th' -> i <> j -> fd ∈ waiting_fds th -> fd ∉ waiting_fds th'.
Proof.
  apply NoDup_concat_apart. apply NoDup_app in Hn as (Hw & _). unfold waiting in Hw. by apply NoDup_app in Hw as (_ & _ & Hw).
Qed.

Lemma waiting_in i th fd : t_threads t !! i = Some th -> fd ∈ waiting_fds th -> fd ∈ concat (waiting_fds <$> t_threads t).
Proof.
  generalize (t_threads t). intros l. revert i. induction l as [|y l IH]; intros [|i] Hi Hx; simplify_eq/=; apply elem_of_app;
    [by left|right; by eapply IH].
Qed.

Lemma closing_in i th fd : t_threads t !! i = Some th -> fd ∈ closing_fds th -> fd ∈ closing t.
Proof.
  unfold closing. generalize (t_threads t). intros l. revert i.
  induction l as [|y l IH]; intros [|i] Hi Hx; simplify_eq/=; apply elem_of_app; [by left|right; by eapply IH].
Qed.

Lemma apart_main i th fd : t_threads t !! i = Some th -> fd ∈ waiting_fds th -> fd ∉ main_fds (t_main t).
Proof.
  intros Hi Hfd Hm. apply NoDup_app in Hn as (Hw & _). unfold waiting in Hw. apply NoDup_app in Hw as (_ & Hw & _).
  by eapply Hw, waiting_in.
Qed.

Lemma apart_closing fd : fd ∈ closing t -> fd ∉ waiting t.
Proof. intros Hc Hw. apply NoDup_app in Hn as (_ & Hap & _). by eapply Hap. Qed.
End Apart.

(** Changing one socket leaves alone all who do not own it. *)
Lemma threads_frame p t t' i th' :
  Forall (wf_thread p t) (t_threads t) ->
  (forall j th, t_threads t !! j = Some th -> j <> i -> forall fd, fd ∈ waiting_fds th -> same_at t t' fd) ->
  wf_thread p t' th' -> Forall (wf_thread p t') (<[i := th']> (t_threads t)).
Proof.
  intros Hall Hsame Hth'. apply Forall_lookup. intros j th Hj. apply list_lookup_insert_Some in Hj as [(-> & <- & _)|[Hne Hj]]; [done|].
  apply (wf_thread_frame p t); [by apply (Hsame j th Hj)|]. by eapply Forall_lookup_1.
Qed.

(** Moving one thread. *)
Lemma waiting_move m ths i th th' :
  ths !! i = Some th ->
  waiting_fds th ++ main_fds m ++ concat (waiting_fds <$> <[i := th']> ths) ≡ₚ
  waiting_fds th' ++ main_fds m ++ concat (waiting_fds <$> ths).
Proof.
  intros Hi. rewrite !(Permutation_app_swap_app _ (main_fds m)).
  by rewrite (concat_fmap_insert waiting_fds ths i th th' Hi).
Qed.

Lemma closing_move ths i th th' :
  ths !! i = Some th ->
  closing_fds th ++ concat (closing_fds <$> <[i := th']> ths) ≡ₚ
  closing_fds th' ++ concat (closing_fds <$> ths).
Proof. apply concat_fmap_insert. Qed.

(** A thread that keeps its connection and goes on with it. *)
Lemma tinv_thread p t t' i th th' fd s :
  tinv p t -> t_threads t !! i = Some th -> waiting_fds th = [fd] -> waiting_fds th' = [fd] ->
  t_threads t' = <[i := th']> (t_threads t) -> t_socks t' = <[fd := s]> (t_socks t) ->
  t_main t' = t_main t -> t_joinable t' = t_joinable t -> t_before t' = t_before t -> t_accepted t' = t_accepted t ->
  t_dropped t' = t_dropped t -> t_visits t' = t_visits t ->
  wf_thread p t' th' -> tinv p t'.
Proof.
  intros [Ho Ha Hv Hm Ht Hj] Hi Hw Hw' Eths Esocks Em Ej Eb Ea Ed Ev Hth'. pose proof (proj1 Ho) as Hn.
  assert (waiting t' ≡ₚ waiting t) as Hwait.
  { unfold waiting. rewrite Em, Eths. pose proof (waiting_move (t_main t) _ i th th' Hi) as H.
    rewrite Hw, Hw' in H. by apply Permutation_app_inv_l in H. }
  assert (closing t' ≡ₚ closing t) as Hclose.
  { unfold closing. rewrite Eths. pose proof (closing_move _ i th th' Hi) as H.
    destruct th; try done; destruct th'; done. }
  assert (fd ∈ waiting_fds th) as Hfd by (rewrite Hw; by left).
  assert (forall fd', fd' <> fd -> same_at t t' fd') as Hsame.
  { intros fd' Hne. unfold same_at. by rewrite Eb, Esocks, lookup_insert_ne by done. }
  split; rewrite ?Em, ?Ea, ?Ed, ?Ev, ?Ej, ?Eths; try done.
  - rewrite Hwait, Hclose, Esocks. apply owns_update; [done|]. apply elem_of_app. left. unfold waiting.
    apply elem_of_app. right. by eapply waiting_in.
  - by rewrite Hwait.
  - apply (wf_main_frame t); [done| |done]. intros fd' Hfd'. apply Hsame. intros ->. by eapply (apart_main t Hn).
  - apply threads_frame; [done| |done]. intros j th2 Hj2 Hne fd' Hfd'. apply Hsame. intros ->.
    by eapply (apart_threads t Hn i j).
Qed.

(** [serve_connection] of a thread returns. *)
Lemma tinv_return p t i th fd g s0 s r :
  tinv p t -> t_threads t !! i = Some th -> waiting_fds th = [fd] -> t_before t !! fd = Some s0 ->
  length g = 1024%nat -> talk p g s0 = (Served r, s) -> tinv p (treturn t i fd s r).
Proof.
  intros [Ho Ha Hv Hm Ht Hj] Hi Hw Hb Hg Htalk. pose proof (proj1 Ho) as Hn.
  assert (fd ∈ waiting_fds th) as Hfd by (rewrite Hw; by left).
  pose proof (waiting_move (t_main t) _ i th (T_Close fd) Hi) as Hwait. rewrite Hw in Hwait. simpl in Hwait.
  pose proof (closing_move _ i th (T_Close fd) Hi) as Hclose.
  assert (closing_fds th = []) as Hnc by (by destruct th). rewrite Hnc in Hclose. simpl in Hclose.
  assert (forall fd', fd' <> fd -> same_at t (treturn t i fd s r) fd') as Hsame.
  { intros fd' Hne. unfold same_at. simpl. by rewrite lookup_insert_ne by done. }
  split; try done.
  - unfold waiting, closing. simpl. rewrite Hclose. rewrite <- Permutation_middle, app_comm_cons, Hwait.
    apply owns_update; [done|]. apply elem_of_app. left. apply elem_of_app. right. by eapply waiting_in.
  - simpl. rewrite Ha. unfold waiting at 1. rewrite <- Hwait, fmap_app. simpl. rewrite <- !app_assoc. simpl.
    apply Permutation_app_head. symmetry. apply Permutation_middle.
  - simpl. apply Forall_app. split; [done|]. constructor; [|done]. exists g. simpl. by rewrite Hb.
  - apply (wf_main_frame t); [done| |done]. intros fd' Hfd'. apply Hsame. intros ->. by eapply (apart_main t Hn).
  - apply threads_frame; [done| |done]. intros j th2 Hj2 Hne fd' Hfd'. apply Hsame. intros ->.
    by eapply (apart_threads t Hn i j).
Qed.

(** What [serve_connection] can come to, as far as the socket is concerned. *)
Lemma talk_returns p g s :
  length g = 1024%nat -> sigpipe_ignored p = true ->
  match talk p g s with
  | (Served r, s') => echoed s s' r
  | ((AwaitRecv | AwaitSend), s') => waits_for_client p g s s'
  | _ => False
  end.
Proof.
  intros Hg Hp. unfold talk. destruct (serve_connection p g _) as [r w] eqn:Es.
  pose proof (serve_connection_returns _ _ _ _ _ Hg Hp Es) as Hr.
  destruct r; try done; (eexists _, _, _, _, _; split; [exact Es|]; split; [done|]; by auto).
Qed.

(** The greeting, as the first part of the conversation. *)
Lemma talk_greet p g s sr s' :
  send_all p s [STAR] = (sr, s') ->
  talk p g s = match sr with
               | SentAll => talk_on p g WAIT_FOR_MSG s'
               | SendFailed e => (Served (classify_errno e), s')
               | SendBlocked => (AwaitSend, s')
               | SendKilled => (Killed, s')
               end.
Proof. intros Es. unfold talk, serve_connection. cbn [w_sock]. rewrite Es. by destruct sr. Qed.

Definition tsafe (p : proc) (ev : tevent) (r : option (outcome threaded)) : Prop :=
  match r with
  | None => True
  | Some (Ret t') => tinv p t'
  | Some (Exit _) =>
      ev = Malloc None \/ exists e, ev = Accept (AcceptFailed e) /\ accept_again e = false
  | Some (Fault _) => False
  end.

Lemma run_accept_safe p sockfd t a : tinv p t -> tmay sockfd t (Accept a) -> tsafe p (Accept a) (run_main t (Accept a)).
Proof.
  intros Hinv Hmay. destruct (Hinv) as [Ho Ha Hv Hm Ht Hj]. unfold run_main. destruct a as [fd s g|e].
  2: { destruct (t_main t) eqn:Em; try done. destruct (accept_again e) eqn:E; [done|by right; exists e]. }
  destruct (t_main t) eqn:Em; try done. destruct Hmay as (Hg & Hne & Hnew).
  assert (forall fd', fd' ∈ waiting t ++ closing t -> fd' <> fd) as Hold.
  { intros fd' Hin ->. apply Ho in Hin. rewrite Hnew in Hin. by destruct Hin. }
  split; simpl; try done.
  - unfold waiting, closing in *. simpl. rewrite Em in Ho. by apply owns_new.
  - unfold waiting in *. rewrite Em in Ha. simpl in *. rewrite Ha, <- !app_assoc. do 2 f_equiv. by rewrite Permutation_app_comm.
  - split; [done|]. exists s. simpl. by rewrite !lookup_insert_eq.
  - apply Forall_lookup. intros j th Hjth. apply (wf_thread_frame p t); [|by eapply Forall_lookup_1].
    intros fd' Hfd'. unfold same_at. simpl. rewrite !lookup_insert_ne; [done|symmetry; apply Hold..];
      apply elem_of_app; left; apply elem_of_app; right; by eapply waiting_in.
Qed.

Lemma run_create_safe p t rc : tinv p t -> tsafe p (Create rc) (run_main t (Create rc)).
Proof.
  intros [Ho Ha Hv Hm Ht Hj]. unfold run_main. destruct (t_main t) as [|fd g|fd c g|i] eqn:Em; try done.
  unfold wf_main in Hm. rewrite Em in Hm. destruct Hm as (Hg & -> & Hu).
  assert (waiting t = fd :: concat (waiting_fds <$> t_threads t)) as Hw by (unfold waiting; by rewrite Em).
  destruct (rc =? 0); simpl.
  - split; simpl; try done.
    + unfold waiting, closing in *. simpl. rewrite Em in Ho. rewrite !fmap_app, !concat_app. simpl.
      rewrite !app_nil_r. by rewrite <- (Permutation_cons_append _ fd).
    + rewrite Hw in Ha. unfold waiting. simpl. rewrite Ha, fmap_app, concat_app. simpl.
      by rewrite <- (Permutation_cons_append _ fd).
    + apply Forall_app. split; [done|]. constructor; [|done]. split; [done|]. by exists fd.
    + by rewrite Hj.
  - unfold tclose. destruct Hu as (s & Hb & Hs). rewrite Hs. rewrite outcome_ret_bind.
    assert (forall fd', fd' ∈ concat (waiting_fds <$> t_threads t) -> fd' <> fd) as Hold.
    { intros fd' Hin ->. destruct Ho as [Hn _]. rewrite Hw in Hn. apply NoDup_app in Hn as (Hn & _).
      by apply NoDup_cons in Hn as [Hn _]. }
    split; simpl; try done.
    + unfold waiting, closing in *. simpl. rewrite Em in Ho. by apply owns_close.
    + rewrite Hw in Ha. unfold waiting. simpl. by rewrite Ha, <- !app_assoc.
    + apply Forall_lookup. intros j th Hjth. apply (wf_thread_frame p t); [|by eapply Forall_lookup_1].
      intros fd' Hfd'. unfold same_at. simpl. rewrite lookup_delete_ne; [done|]. symmetry. apply Hold. by eapply waiting_in.
Qed.

Lemma run_main_safe p sockfd t ev : tinv p t -> tmay sockfd t ev -> tsafe p ev (run_main t ev).
Proof.
  intros Hinv Hmay. destruct ev as [a|mem|rc| |i]; [by eapply run_accept_safe| |by apply run_create_safe| |by destruct (t_main t)].
  - destruct Hinv as [Ho Ha Hv Hm Ht Hj]. unfold run_main, wf_main in *. destruct (t_main t) as [|fd g|fd c g|i] eqn:Em; try done.
    destruct mem as [[]|]; simpl; [|by left]. unfold waiting in *. rewrite Em in *.
    split; unfold waiting, wf_main; simpl; try done. by destruct Hm.
  - destruct Hinv as [Ho Ha Hv Hm Ht Hj]. unfold run_main in *. destruct (t_main t) as [|fd g|fd c g|i] eqn:Em; try done.
    unfold tdetach. rewrite Hj, decide_True by by left. rewrite outcome_ret_bind. unfold waiting in *. rewrite Em in *.
    split; unfold waiting; simpl; try done. by rewrite filter_cons_False by (by intros []).
Qed.

(** One iteration of the loop of [serve_connection]. *)
Lemma run_recv_safe p clock t i fd g st :
  sigpipe_ignored p = true -> tinv p t -> t_threads t !! i = Some (T_Recv fd g st) ->
  tsafe p (Thread i) (run_thread p clock t i).
Proof.
  intros Hp Hinv Hi. unfold run_thread. rewrite Hi. destruct (Hinv) as [_ _ _ _ Ht _].
  pose proof (Forall_lookup_1 _ _ _ _ Ht Hi) as [Hg (s0 & s & Hb & Hs & Htalk)]. rewrite Hs.
  destruct (serve_request p g st (World s (t_reg t) clock (t_ticks t))) as [q w] eqn:Eq.
  pose proof (talk_request _ _ _ _ _ _ Eq) as Hq. cbn [w_sock] in Hq. rewrite <- Htalk in Hq.
  pose proof (talk_returns p g s0 Hg Hp) as Hr. destruct q as [|st' n|r].
  - apply (tinv_thread p t _ i (T_Recv fd g st) (T_Recv fd g st) fd (w_sock w)); try done.
    + simpl. by rewrite list_insert_id.
    + split; [done|]. exists s0, (w_sock w). simpl. by rewrite lookup_insert_eq.
  - apply (tinv_thread p t _ i (T_Recv fd g st) (T_Record fd g st' n) fd (w_sock w)); try done.
    split; [done|]. exists s0, (w_sock w). simpl. by rewrite lookup_insert_eq.
  - rewrite Hq in Hr. destruct r as [res| | | | |]; try done. by eapply (tinv_return p t i _ fd g s0).
Qed.

Lemma run_greet_safe p clock t i fd g :
  sigpipe_ignored p = true -> tinv p t -> t_threads t !! i = Some (T_Greet fd g) ->
  tsafe p (Thread i) (run_thread p clock t i).
Proof.
  intros Hp Hinv Hi. unfold run_thread. rewrite Hi. destruct (Hinv) as [_ _ _ _ Ht _].
  pose proof (Forall_lookup_1 _ _ _ _ Ht Hi) as [Hg (s & Hb & Hs)]. rewrite Hs.
  destruct (send_all p s [STAR]) as [sr s'] eqn:Es. pose proof (talk_greet p g s sr s' Es) as Htalk.
  pose proof (talk_returns p g s Hg Hp) as Hr. destruct sr as [|e| |]; [| |done|by rewrite Htalk in Hr].
  - apply (tinv_thread p t _ i (T_Greet fd g) (T_Recv fd g WAIT_FOR_MSG) fd s'); try done.
    split; [done|]. exists s, s'. simpl. by rewrite lookup_insert_eq.
  - by eapply (tinv_return p t i _ fd g s).
Qed.

(** A step of a thread that does not use its socket. *)
Lemma tinv_quiet p t t' i th th' fd :
  tinv p t -> t_threads t !! i = Some th -> waiting_fds th = [fd] -> waiting_fds th' = [fd] ->
  t_threads t' = <[i := th']> (t_threads t) -> t_socks t' = t_socks t ->
  t_main t' = t_main t -> t_joinable t' = t_joinable t -> t_before t' = t_before t -> t_accepted t' = t_accepted t ->
  t_dropped t' = t_dropped t -> t_visits t' = t_visits t ->
  wf_thread p t' th' -> tinv p t'.
Proof.
  intros Hinv Hi Hw Hw' Eths Esocks Em Ej Eb Ea Ed Ev Hth'. destruct (ti_owns _ _ Hinv) as [_ Hl].
  destruct (proj1 (Hl fd)) as [s Hs].
  { apply elem_of_app. left. apply elem_of_app. right. eapply waiting_in; [exact Hi|]. rewrite Hw. by left. }
  apply (tinv_thread p t t' i th th' fd s); try done. by rewrite Esocks, insert_id.
Qed.

Lemma run_close_safe p clock t i fd :
  tinv p t -> t_threads t !! i = Some (T_Close fd) -> tsafe p (Thread i) (run_thread p clock t i).
Proof.
  intros [Ho Ha Hv Hm Ht Hj] Hi. unfold run_thread. rewrite Hi. pose proof (proj1 Ho) as Hn.
  assert (fd ∈ closing t) as Hc by (eapply closing_in; [exact Hi|by left]).
  pose proof (apart_closing t Hn fd Hc) as Hnw. unfold tclose.
  destruct (proj1 (proj2 Ho fd)) as [s Hs]; [apply elem_of_app; by right|]. rewrite Hs, outcome_ret_bind.
  pose proof (waiting_move (t_main t) _ i _ T_Done Hi) as Hwait. pose proof (closing_move _ i _ T_Done Hi) as Hclose.
  simpl in Hwait, Hclose.
  assert (forall fd', fd' ∈ waiting t -> same_at t (set_thread (set_socks t (delete fd (t_socks t))) i T_Done) fd') as Hsame.
  { intros fd' Hin. unfold same_at. simpl. rewrite lookup_delete_ne; [done|congruence]. }
  split; try done.
  - unfold waiting, closing. simpl. apply owns_close. rewrite Permutation_middle, Hwait, Hclose. exact Ho.
  - simpl. unfold waiting at 1. simpl. by rewrite Hwait.
  - apply (wf_main_frame t); [done| |done]. intros fd' Hfd'. apply Hsame. apply elem_of_app. by left.
  - apply (threads_frame p t); [done| |done]. intros j th Hjth _ fd' Hfd'. apply Hsame. apply elem_of_app. right.
    by eapply waiting_in.
Qed.

Lemma run_thread_safe p clock t i :
  sigpipe_ignored p = true -> tinv p t -> tsafe p (Thread i) (run_thread p clock t i).
Proof.
  intros Hp Hinv. destruct (t_threads t !! i) as [th|] eqn:Hi; [|unfold run_thread; by rewrite Hi].
  pose proof (Forall_lookup_1 _ _ _ _ (ti_threads _ _ Hinv) Hi) as Hth.
  destruct th as [arg g|fd g|fd g st|fd g st n|fd g st ops|fd|].
  - unfold run_thread. rewrite Hi. destruct Hth as [Hg (fd & -> & Hu)]. simpl.
    by eapply (tinv_quiet p t _ i _ (T_Greet fd g) fd).
  - by eapply run_greet_safe.
  - by eapply run_recv_safe.
  - unfold run_thread. rewrite Hi. cbv zeta. by eapply (tinv_quiet p t _ i _ (T_Update fd g st _) fd).
  - unfold run_thread. rewrite Hi. destruct ops as [|op ops].
    + by eapply (tinv_quiet p t _ i _ (T_Recv fd g st) fd).
    + by eapply (tinv_quiet p t _ i _ (T_Update fd g st ops) fd).
  - by eapply run_close_safe.
  - unfold run_thread. by rewrite Hi.
Qed.

Lemma tstep_safe p clock sockfd t ev :
  sigpipe_ignored p = true -> tinv p t -> tmay sockfd t ev -> tsafe p ev (tstep p clock t ev).
Proof. intros Hp Hinv Hmay. destruct ev; [by eapply run_main_safe..|by apply run_thread_safe]. Qed.

Lemma treach_inv p clock sockfd t : sigpipe_ignored p = true -> treach p clock sockfd t -> tinv p t.
Proof.
  intros Hp. induction 1 as [reg|t ev t' _ IH Hmay Hev].
  - split; unfold waiting, closing; simpl; try done. split; [constructor|].
    intros fd. rewrite lookup_empty. split; [by intros ?%elem_of_nil|by intros []].
  - pose proof (tstep_safe p clock sockfd t ev Hp IH Hmay) as H. by rewrite Hev in H.
Qed.

(** The descriptor a thread serves, and its receive buffer. *)
Definition serving (th : thread_pc) : option (Z * list Z) :=
  match th with T_Greet fd g | T_Recv fd g _ => Some (fd, g) | _ => None end.

(** A thread that cannot go on waits for its client. *)
Lemma thread_waits p clock t i th :
  sigpipe_ignored p = true -> tinv p t -> t_threads t !! i = Some th -> th <> T_Done -> run_thread p clock t i = None ->
  exists fd g s0 s', serving th = Some (fd, g) /\ is_Some (t_socks t !! fd) /\ t_before t !! fd = Some s0 /\
    waits_for_client p g s0 s'.
Proof.
  intros Hp Hinv Hi Hnd Hstep. unfold run_thread in Hstep. rewrite Hi in Hstep.
  pose proof (Forall_lookup_1 _ _ _ _ (ti_threads _ _ Hinv) Hi) as Hth.
  destruct th as [arg g|fd g|fd g st|fd g st n|fd g st [|]|fd|]; try done.
  - destruct Hth as [Hg (s & Hb & Hs)]. rewrite Hs in *. destruct (send_all p s [STAR]) as [sr s'] eqn:Es.
    destruct sr; try done. pose proof (talk_returns p g s Hg Hp) as Hr. rewrite (talk_greet _ _ _ _ _ Es) in Hr.
    exists fd, g, s, s'. by rewrite Hs.
  - destruct Hth as [Hg (s0 & s & Hb & Hs & Htalk)]. rewrite Hs in *.
    destruct (serve_request p g st (World s (t_reg t) clock (t_ticks t))) as [q w] eqn:Eq.
    pose proof (talk_request _ _ _ _ _ _ Eq) as Hq. cbn [w_sock] in Hq. rewrite <- Htalk in Hq.
    pose proof (talk_returns p g s0 Hg Hp) as Hr. rewrite Hq in Hr.
    destruct q as [| |r]; try done. destruct r; try done; (exists fd, g, s0, (w_sock w); by rewrite Hs).
Qed.

(** ** Theorems *)

Lemma main_quiet argv1 a p sockfd port : blocking_main argv1 a = Ret (p, sockfd, port) -> sigpipe_ignored p = true.
Proof. unfold blocking_main. intros ([fd' port'] & _ & [= <- <- <-])%outcome_bind_inv. done. Qed.

(** C24 [sequential_serves]: whatever [accept] answers and the clients do, the
    sequential server serves the connections one after the other, in the order they
    are accepted, each by the protocol, and closes each before the next [accept]: at
    most one is open. It leaves the loop only when [accept] fails with an error other
    than EINTR and ECONNABORTED; a client that neither sends nor takes bytes holds up
    every later one; nothing else stops the process. *)
Theorem sequential_serves argv1 la p sockfd port clock reg answers q h rest :
  blocking_main argv1 la = Ret (p, sockfd, port) -> Forall (answer_ok sockfd) answers ->
  sequential_loop p clock (Sequential reg 0 {[sockfd]} []) answers = (q, h, rest) ->
  exists seen stopper,
    answers = seen ++ option_list stopper ++ rest /\
    ((fun v => (v_fd v, v_before v)) <$> q_visits q) = accepted seen /\
    Forall (fun v => echoed (v_before v) (v_after v) (v_result v)) (q_visits q) /\
    match h with
    | None => stopper = None /\ q_open q = {[sockfd]}
    | Some (Ended msg) => msg = "accept"%string /\ q_open q = {[sockfd]} /\
        exists e, stopper = Some (AcceptFailed e) /\ accept_again e = false
    | Some (Serving fd s) => q_open q = {[fd; sockfd]} /\
        exists s0 g, stopper = Some (Accepted fd s0 g) /\ waits_for_client p g s0 s
    | Some (Broken _) => False
    end.
Proof.
  intros Hmain Hans Hrun.
  destruct (sequential_loop_spec p clock sockfd answers (Sequential reg 0 {[sockfd]} []) q h rest)
    as (seen & stopper & Hsplit & (vs & Hv & Hok & Hacc) & Hh); [by eapply main_quiet|done|done|done|].
  exists seen, stopper. simpl in Hv. subst vs. done.
Qed.

(** Two clients: one hangs up, the other sends nothing. *)
Definition demo_accepts : list accept_result :=
  [AcceptFailed EINTR;
   Accepted 5 (Sock [RxData (lit "^ab$"); RxData []] [TxSpace 1; TxSpace 5] []) (replicate 1024 0);
   Accepted 5 (Sock [] [TxSpace 9] []) (replicate 1024 0);
   Accepted 6 (Sock [RxData []] [TxSpace 9] []) (replicate 1024 0)].

Definition demo_listen : listen_answers := ListenAnswers 3 0 0 0.

Definition demo_sequential : sequential * option halt * list accept_result :=
  sequential_loop (ignore_sigpipe proc_start) (fun n => Some (Z.of_nat n, 0))
    (Sequential registry_zero 0 {[3]} []) demo_accepts.

Lemma sequential_serves_witness :
  v_result <$> q_visits demo_sequential.1.1 = [SERVE_OK] /\
  (wire ∘ v_after) <$> q_visits demo_sequential.1.1 = [lit "*bc"] /\
  exists seen stopper, demo_accepts = seen ++ option_list stopper ++ demo_sequential.2.
Proof.
  split; [vm_compute; reflexivity|]. split; [vm_compute; reflexivity|].
  destruct (sequential_serves None demo_listen (ignore_sigpipe proc_start) 3 9090
    (fun n => Some (Z.of_nat n, 0)) registry_zero demo_accepts
    demo_sequential.1.1 demo_sequential.1.2 demo_sequential.2) as (seen & stopper & H & _).
  - reflexivity.
  - repeat constructor; discriminate.
  - vm_compute. reflexivity.
  - exists seen, stopper. exact H.
Defined.

(** C13 [threaded_serves]: under every schedule of the main thread and the threads it
    creates, which may take turns between the requests of a connection and between
    the atomic accesses to the registry, every open connection is owned by exactly one
    of them; every descriptor [accept] returned has been served by one thread, or
    dropped because [pthread_create] failed, or is on its way to its thread; what a
    thread has made of its connection is what [serve_connection], running alone,
    makes of it, with any registry and any clock, and so is by the protocol. Every
    thread is detached, but for the newest while main is about to detach it. No thread
    reads a freed configuration, none closes or uses a descriptor that is not open,
    and none is detached twice. The process ends only when [accept] fails for good or
    memory runs out, and a thread is held up by nobody but its own client. *)
Theorem threaded_serves argv1 la p sockfd port clock t :
  blocking_main argv1 la = Ret (p, sockfd, port) -> treach p clock sockfd t ->
  NoDup (waiting t ++ closing t) /\
  (forall fd, fd ∈ waiting t ++ closing t <-> is_Some (t_socks t !! fd)) /\
  t_accepted t ≡ₚ (v_fd <$> t_visits t) ++ t_dropped t ++ waiting t /\
  Forall (fun v => echoed (v_before v) (v_after v) (v_result v)) (t_visits t) /\
  Forall (fun v => exists g, length g = 1024%nat /\ forall reg clock' ticks, exists w,
    serve_connection p g (World (v_before v) reg clock' ticks) = (Served (v_result v), w) /\
    w_sock w = v_after v) (t_visits t) /\
  t_joinable t = match t_main t with M_Created i => [i] | _ => [] end /\
  (forall ev, tmay sockfd t ev ->
     match tstep p clock t ev with
     | Some (Exit _) =>
         ev = Malloc None \/ exists e, ev = Accept (AcceptFailed e) /\ accept_again e = false
     | Some (Fault _) => False
     | _ => True
     end) /\
  (forall i th, t_threads t !! i = Some th -> th <> T_Done -> tstep p clock t (Thread i) = None ->
     exists fd g s0 s', serving th = Some (fd, g) /\ is_Some (t_socks t !! fd) /\ t_before t !! fd = Some s0 /\
       waits_for_client p g s0 s').
Proof.
  intros Hmain Hreach. apply main_quiet in Hmain as Hp.
  pose proof (treach_inv _ _ _ _ Hp Hreach) as Hinv. pose proof Hinv as [[Hn Hl] Ha Hv _ Ht Hj].
  do 3 (split; [done|]). split.
  { eapply Forall_impl; [exact Hv|]. intros v (g & Hg & Htalk). pose proof (talk_returns p g (v_before v) Hg Hp) as Hr.
    by rewrite Htalk in Hr. }
  split.
  { eapply Forall_impl; [exact Hv|]. intros v (g & Hg & Htalk). exists g. split; [done|]. intros reg clock' ticks.
    pose proof (serve_connection_talk p g (World (v_before v) reg clock' ticks)) as H. cbn [w_sock] in H.
    rewrite Htalk in H. destruct (serve_connection p g _) as [r w]. exists w. by injection H as -> ->. }
  split; [done|]. split.
  - intros ev Hmay. pose proof (tstep_safe p clock sockfd t ev Hp Hinv Hmay) as H.
    by destruct (tstep p clock t ev) as [[]|].
  - intros i th Hi Hnd Hstep. simpl in Hstep. by eapply thread_waits.
Qed.

Fixpoint trun (p : proc) (clock : nat -> option (Z * Z)) (t : threaded) (evs : list tevent) : threaded :=
  match evs with
  | [] => t
  | ev :: evs' => match tstep p clock t ev with Some (Ret t) => trun p clock t evs' | _ => t end
  end.

Definition demo_tevents : list tevent :=
  [Accept (Accepted 5 (Sock [] [] []) (replicate 1024 0)); Malloc (Some tt); Create 0; Detach;
   Accept (Accepted 6 (Sock [RxData (lit "^ab$"); RxData []] [TxSpace 9; TxSpace 9] []) (replicate 1024 0));
   Thread 0; Malloc (Some tt); Create 0; Thread 1; Detach; Thread 1; Thread 1;
   Accept (Accepted 7 (Sock [] [] []) (replicate 1024 0)); Thread 1; Thread 1; Malloc (Some tt); Thread 1; Create 11;
   Thread 1; Thread 1; Thread 1].

Definition demo_clock (n : nat) : option (Z * Z) := Some (Z.of_nat n, 0).

Definition demo_threaded : threaded :=
  trun (ignore_sigpipe proc_start) demo_clock (threaded_start registry_zero) demo_tevents.

(** Every event of a run is one the kernel may produce and the server takes. *)
Fixpoint tallowed (p : proc) (clock : nat -> option (Z * Z)) (sockfd : Z) (t : threaded)
    (evs : list tevent) : Prop :=
  match evs with
  | [] => True
  | ev :: evs' => tmay sockfd t ev /\
      match tstep p clock t ev with Some (Ret t) => tallowed p clock sockfd t evs' | _ => False end
  end.

Lemma treach_run p clock sockfd evs : forall t,
  treach p clock sockfd t -> tallowed p clock sockfd t evs ->
  treach p clock sockfd (trun p clock t evs).
Proof.
  induction evs as [|ev evs IH]; simpl; intros t Ht; [done|]. intros [Hmay Hall].
  destruct (tstep p clock t ev) as [[t'| |]|] eqn:Hev; try done.
  apply IH; [|done]. by apply treach_step with t ev.
Qed.

Lemma demo_threaded_reach : treach (ignore_sigpipe proc_start) demo_clock 3 demo_threaded.
Proof.
  apply treach_run; [constructor|]. vm_compute. repeat first [exact I|split|discriminate|reflexivity].
Qed.

Lemma threaded_serves_witness :
  (wire ∘ v_after) <$> t_visits demo_threaded = [lit "*bc"] /\ t_dropped demo_threaded = [7] /\
  t_accepted demo_threaded ≡ₚ
    (v_fd <$> t_visits demo_threaded) ++ t_dropped demo_threaded ++ waiting demo_threaded.
Proof.
  split; [vm_compute; reflexivity|]. split; [vm_compute; reflexivity|].
  destruct (threaded_serves None demo_listen (ignore_sigpipe proc_start) 3 9090 demo_clock demo_threaded)
    as (_ & _ & H & _).
  - reflexivity.
  - exact demo_threaded_reach.
  - exact H.
Defined.

(** A server that gets to its loop ignores SIGPIPE and listens on the port named by
    its argument, 9090 without one; a numeral outside the range of ports is not
    refused but taken modulo 2^16. *)
Theorem listening_port argv1 la p sockfd port :
  blocking_main argv1 la = Ret (p, sockfd, port) ->
  sigpipe_ignored p = true /\ 0 <= sockfd < 2 ^ 31 /\ 0 <= port < 2 ^ 16 /\
  match argv1 with
  | None => port = 9090
  | Some text => forall v, numeral text v -> - 2 ^ 31 <= v < 2 ^ 31 ->
      port = v mod 2 ^ 16 /\ (0 <= v < 2 ^ 16 -> port = v)
  end.
Proof.
  intros Hmain. split; [by eapply main_quiet|]. unfold blocking_main in Hmain.
  apply outcome_bind_inv in Hmain as ([fd' port'] & Hl & [= <- <- <-]). apply listen_spec in Hl as [Hfd ->].
  destruct (port_argument_spec 9090 argv1) as [Hport Harg]. split; [done|]. split; [done|].
  destruct argv1 as [text|]; [|by rewrite Harg]. intros v Hv Hrange. rewrite (Harg v Hv Hrange).
  split; [done|]. intros. by rewrite Z.mod_small.
Qed.

Lemma listening_port_witness :
  exists port, blocking_main (Some (lit "70000")) demo_listen = Ret (ignore_sigpipe proc_start, 3, port) /\
    0 <= port < 2 ^ 16 /\ port = 4464.
Proof.
  exists 4464. split; [reflexivity|]. split; [|reflexivity].
  destruct (listening_port (Some (lit "70000")) demo_listen (ignore_sigpipe proc_start) 3 4464 eq_refl)
    as (_ & _ & H & _).
  exact H.
Defined.
