(* ===== verification/LoadGen.v ===== *)
(** * The load generator (src/bench/loadgen.c)

    - [connect_with_timeout], [connect_to]: opening a connection, on the answers of
      the system calls;
    - [recv_exact], [send_all_fd]: SO_RCVTIMEO and SO_SNDTIMEO are taken to be in
      force, so a call on a peer that has gone quiet fails;
    - [conn_main]: one connection, its requests, their times and the verification of
      the echoes;
    - [exit_code]: the totals and the result of the run;
    - [bstep]: the start barrier.

    Times are doubles (Double.v). The statistics of the run are in LoadStats.v. *)

From Stdlib Require Import QArith.
From S2P Require Import Prelude Double Framing CString Posix.
Local Open Scope Z_scope.

Definition MAX_PAYLOAD : Z := 512.
Definition EINPROGRESS : Z := 115.

(** ** Connecting *)

(** The answers to F_GETFL, F_SETFL, [connect] (0, or an errno), [poll],
    [getsockopt] with the error it reports, and the second F_SETFL. *)
Record connect_calls := ConnectCalls {
  cc_getfl : Z; cc_setfl : Z; cc_connect : Z; cc_poll : Z; cc_getsockopt : Z; cc_soerr : Z; cc_restore : Z
}.

Definition connect_with_timeout (a : connect_calls) : Z :=
  if (cc_getfl a <? 0) || (cc_setfl a <? 0) then -1
  else if negb (cc_connect a =? 0) && negb (cc_connect a =? EINPROGRESS) then -1
  else if cc_connect a =? 0 then cc_restore a
  else if cc_poll a <=? 0 then -1
  else if (cc_getsockopt a <? 0) || negb (cc_soerr a =? 0) then -1
  else cc_restore a.

(** The loop over the addresses of [getaddrinfo]: what [socket] answers for each, and
    the calls on it. [open]: the descriptors the process holds. *)
Fixpoint connect_loop (addrs : list (Z * connect_calls)) (open : gset Z) : Z * gset Z :=
  match addrs with
  | [] => (-1, open)
  | (fd, a) :: addrs' =>
      if fd <? 0 then connect_loop addrs' open
      else if connect_with_timeout a =? 0 then (fd, {[fd]} ∪ open)
      else connect_loop addrs' (({[fd]} ∪ open) ∖ {[fd]})
  end.

(** [None]: [getaddrinfo] failed. *)
Definition connect_to (res : option (list (Z * connect_calls))) (open : gset Z) : Z * gset Z :=
  match res with None => (-1, open) | Some addrs => connect_loop addrs open end.

(** ** Transfers *)

(** [true]: return 0. The loop takes one more iteration than the socket can answer. *)
Fixpoint recv_exact_loop (fuel : nat) (s : sock) (buf : list Z) (got len : Z) :
    outcome (bool * list Z * sock) :=
  if got <? len then
    match fuel with
    | O => Fault NoReturn
    | S fuel' =>
        match nb_recv (len - got) s with
        | (RecvError errno, s) =>
            if errno =? EINTR then recv_exact_loop fuel' s buf got len else Ret (false, buf, s)
        | (Received [], s) => Ret (false, buf, s)
        | (Received bs, s) =>
            buf ← buf_blit buf got bs;
            recv_exact_loop fuel' s buf (got + Z.of_nat (length bs)) len
        end
    end
  else Ret (true, buf, s).

Definition recv_exact (s : sock) (buf : list Z) (len : Z) : outcome (bool * list Z * sock) :=
  recv_exact_loop (S (rx_size (rx s))) s buf 0 len.

(** The process does not ignore SIGPIPE. *)
Definition send_all_fd (s : sock) (buf : list Z) : outcome (bool * sock) :=
  let '(r, s) := send_to false s buf in
  match r with
  | SentAll => Ret (true, s)
  | SendFailed _ | SendBlocked => Ret (false, s)
  | SendKilled => Exit "SIGPIPE"
  end.

(** ** One connection *)

(** What [clock_gettime] answers: the seconds and the nanoseconds. *)
Definition timespec : Type := Z * Z.

Definition now_us (ts : timespec) : Q :=
  dadd (dmul (of_int ts.1) (of_int 1000000)) (ddiv (of_int ts.2) (of_int 1000)).

Record conn_ctx_t := Ctx {
  messages : Z; payload_bytes : Z;
  connect_us : Q; ack_us : Q;
  connected : bool; latencies_us : list Q; completed : Z; errors : Z; mismatches : Z
}.

Definition set_errors (c : conn_ctx_t) (n : Z) : conn_ctx_t :=
  Ctx (messages c) (payload_bytes c) (connect_us c) (ack_us c) (connected c) (latencies_us c) (completed c) n
    (mismatches c).

Definition set_connect (c : conn_ctx_t) (us : Q) (ok : bool) : conn_ctx_t :=
  Ctx (messages c) (payload_bytes c) us (ack_us c) ok (latencies_us c) (completed c) (errors c) (mismatches c).

Definition set_ack (c : conn_ctx_t) (us : Q) : conn_ctx_t :=
  Ctx (messages c) (payload_bytes c) (connect_us c) us (connected c) (latencies_us c) (completed c) (errors c)
    (mismatches c).

(** [wrong]: the echo is not the expected one; [lat]: the array after the assignment. *)
Definition set_request (c : conn_ctx_t) (wrong : bool) (lat : list Q) : conn_ctx_t :=
  Ctx (messages c) (payload_bytes c) (connect_us c) (ack_us c) (connected c) lat (completed c + 1) (errors c)
    (if wrong then mismatches c + 1 else mismatches c).

(** The loop that fills [req] and [expected]. *)
Fixpoint fill_loop (k : nat) (i : Z) (req expected : list Z) : outcome (list Z * list Z) :=
  match k with
  | O => Ret (req, expected)
  | S k' =>
      let c := u8 (97 + i mod 26) in
      req ← buf_set req (1 + i) c;
      expected ← buf_set expected i (u8 (c + 1));
      fill_loop k' (i + 1) req expected
  end.

Definition fill_request (n : Z) (req expected : list Z) : outcome (list Z * list Z) :=
  req ← buf_set req 0 HAT;
  '(req, expected) ← fill_loop (Z.to_nat n) 0 req expected;
  req ← buf_set req (1 + n) DOLLAR;
  Ret (req, expected).

(** The request loop; [k] iterations are left, and [tick] readings of the clock have
    been made. *)
Fixpoint request_loop (k : nat) (clock : nat -> timespec) (tick : nat) (req expected got : list Z)
    (c : conn_ctx_t) (s : sock) : outcome (conn_ctx_t * sock) :=
  match k with
  | O => Ret (c, s)
  | S k' =>
      let n := payload_bytes c in
      let t0 := now_us (clock tick) in
      '(ok, s) ← send_all_fd s (slice req 0 (n + 2));
      if negb ok then Ret (set_errors c (errors c + 1), s)
      else
        '(ok, got, s) ← recv_exact s got n;
        if negb ok then Ret (set_errors c (errors c + 1), s)
        else
          let t1 := now_us (clock (S tick)) in
          let wrong := negb (bool_decide (slice got 0 n = slice expected 0 n)) in
          lat ← buf_set (latencies_us c) (completed c) (dsub t1 t0);
          request_loop k' clock (S (S tick)) req expected got (set_request c wrong lat) s
  end.

(** The automatic arrays of [conn_main], uninitialised. *)
Record frame := Frame { f_ack : Z; f_req : list Z; f_expected : list Z; f_got : list Z }.

(** [conn_main] on an open connection, up to the [close] of either exit. *)
Definition converse (clock : nat -> timespec) (f : frame) (c : conn_ctx_t) (s : sock) :
    outcome (conn_ctx_t * sock) :=
  let a0 := now_us (clock 2%nat) in
  '(ok, ack, s) ← recv_exact s [f_ack f] 1;
  a ← buf_get ack 0;
  if negb ok || negb (a =? STAR) then Ret (set_errors c (messages c), s)
  else
    let c := set_ack c (dsub (now_us (clock 3%nat)) a0) in
    '(req, expected) ← fill_request (payload_bytes c) (f_req f) (f_expected f);
    request_loop (Z.to_nat (messages c)) clock 4 req expected (f_got f) c s.

(** A thread of the run. [res]: what the calls of [connect_to] answer; [s]: the
    connection, if there is one; [open]: the descriptors the process holds besides
    those of the other threads. *)
Definition conn_main (clock : nat -> timespec) (f : frame) (c : conn_ctx_t)
    (res : option (list (Z * connect_calls))) (s : sock) (open : gset Z) : outcome (conn_ctx_t * sock * gset Z) :=
  let c0 := now_us (clock 0%nat) in
  let '(fd, open) := connect_to res open in
  let c := set_connect c (dsub (now_us (clock 1%nat)) c0) (0 <=? fd) in
  if fd <? 0 then Ret (set_errors c (messages c), s, open)
  else
    '(c, s) ← converse clock f c s;
    open ← close_fd open fd;
    Ret (c, s, open).

(** ** The run *)

(** The arguments [main] accepts. *)
Definition args_ok (connections messages payload : Z) : bool :=
  negb ((connections <? 1) || (messages <? 1) || (payload <? 1) || (MAX_PAYLOAD <? payload)).

(** The command line after [argv[0]]: connections, messages and payload, or [None]
    for the usage and the bad arguments (exit code 2). *)
Definition loadgen_args (args : list (list Z)) : option (Z * Z * Z) :=
  match args !! 2%nat, args !! 3%nat with
  | Some c, Some m =>
      let payload := match args !! 4%nat with Some p => atoi p | None => 32 end in
      if args_ok (atoi c) (atoi m) payload then Some (atoi c, atoi m, payload) else None
  | _, _ => None
  end.

(** What [calloc] and the assignments of [main] leave in a context. *)
Definition new_ctx (messages payload : Z) : conn_ctx_t :=
  Ctx messages payload 0 0 false (replicate (Z.to_nat messages) 0%Q) 0 0 0.

(** The totals are [int]s. *)
Definition total (f : conn_ctx_t -> Z) (ctxs : list conn_ctx_t) : Z :=
  fold_left (fun n c => s32 (n + f c)) ctxs 0.

Definition exit_code (ctxs : list conn_ctx_t) : Z :=
  if (0 <? total errors ctxs) || (0 <? total mismatches ctxs) then 1 else 0.

(** ** The start barrier

    [main] initialises it for [connections + 1] and creates [spawned] threads, which
    arrive once each. [main] arrives once for every thread it could not create, and
    once more; each arrival blocks it until the barrier opens. *)

Record barrier := Barrier {
  b_arrived : nat;        (* waiting in pthread_barrier_wait *)
  b_threads : nat;        (* threads that have not arrived yet *)
  b_main_left : nat;      (* calls of main that are left *)
  b_main_waits : bool;    (* main is inside one *)
  b_opened : nat          (* how often the barrier has opened *)
}.

Definition barrier_start (connections spawned : nat) : barrier :=
  Barrier 0 spawned (connections - spawned + 1) false 0.

(** A thread or main arrives; the last one opens the barrier for all. *)
Definition arrive (connections : nat) (b : barrier) : barrier :=
  if decide (S (b_arrived b) = S connections) then
    Barrier 0 (b_threads b) (b_main_left b) false (S (b_opened b))
  else Barrier (S (b_arrived b)) (b_threads b) (b_main_left b) (b_main_waits b) (b_opened b).

Inductive bstep (connections : nat) : barrier -> barrier -> Prop :=
| bstep_thread a n l w o :
    bstep connections (Barrier a (S n) l w o) (arrive connections (Barrier a n l w o))
| bstep_main a n l o :
    bstep connections (Barrier a n (S l) false o) (arrive connections (Barrier a n l true o)).

(** ** Opening a connection *)

(** The process holds what it held and the descriptor returned, which is the first
    that could be connected. *)
Lemma connect_loop_spec addrs open fd open' :
  Forall (fun x => x.1 ∉ open) addrs -> connect_loop addrs open = (fd, open') ->
  if 0 <=? fd then
    open' = {[fd]} ∪ open /\
    exists pre a post, addrs = pre ++ (fd, a) :: post /\ connect_with_timeout a = 0 /\
      Forall (fun x => x.1 < 0 \/ connect_with_timeout x.2 <> 0) pre
  else
    fd = -1 /\ open' = open /\ Forall (fun x => x.1 < 0 \/ connect_with_timeout x.2 <> 0) addrs.
Proof.
  induction addrs as [|[fd0 a] addrs IH]; simpl; intros Hopen Hrun; [by injection Hrun as <- <-|].
  apply Forall_cons in Hopen as [Hnew Hopen]. simpl in Hnew.
  assert (connect_loop addrs open = (fd, open') -> fd0 < 0 \/ connect_with_timeout a <> 0 ->
    if 0 <=? fd then
      open' = {[fd]} ∪ open /\
      exists pre a' post, (fd0, a) :: addrs = pre ++ (fd, a') :: post /\ connect_with_timeout a' = 0 /\
        Forall (fun x => x.1 < 0 \/ connect_with_timeout x.2 <> 0) pre
    else fd = -1 /\ open' = open /\
      Forall (fun x => x.1 < 0 \/ connect_with_timeout x.2 <> 0) ((fd0, a) :: addrs)) as Hskip.
  { intros Hr Hbad. specialize (IH Hopen Hr). destruct (0 <=? fd).
    - destruct IH as (-> & pre & a' & post & -> & Ha & Hpre). split; [done|].
      exists ((fd0, a) :: pre), a', post. split; [done|]. split; [done|]. by constructor.
    - destruct IH as (-> & -> & Hall). split; [done|]. split; [done|]. by constructor. }
  destruct (Z.ltb_spec fd0 0); [apply Hskip; [done|by left]|].
  destruct (Z.eqb_spec (connect_with_timeout a) 0) as [Ha|Ha].
  - injection Hrun as <- <-. destruct (Z.leb_spec 0 fd0); [|lia]. split; [done|].
    by exists [], a, addrs.
  - rewrite open_close in Hrun by done. apply Hskip; [done|by right].
Qed.

(** ** Transfers *)

Lemma recv_exact_loop_spec fuel : forall s buf got len,
  0 <= got -> len <= Z.of_nat (length buf) -> (rx_size (rx s) < fuel)%nat ->
  exists ok buf' s' bs, recv_exact_loop fuel s buf got len = Ret (ok, buf', s') /\
    length buf' = length buf /\ tx s' = tx s /\ wire s' = wire s /\
    rx_bytes (rx s) = bs ++ rx_bytes (rx s') /\
    (ok = true -> got <= len -> Z.of_nat (length bs) = len - got /\ slice buf' 0 len = slice buf 0 got ++ bs).
Proof.
  induction fuel as [|fuel IH]; intros s buf got len Hgot Hlen Hfuel; [lia|]. cbn [recv_exact_loop].
  destruct (Z.ltb_spec got len) as [Hlt|Hge].
  2: { exists true, buf, s, []. repeat (split; [done|]). intros _ Hle. replace len with got by lia.
       rewrite app_nil_r. simpl. split; [lia|done]. }
  unfold nb_recv. destruct (sys_recv (len - got) s) as [[r s1]|] eqn:Er.
  2: { by exists false, buf, s, []. }
  apply sys_recv_spec in Er as (Htx & Hw & Hsize & _ & Hr); [|lia]. destruct r as [bs|e].
  - destruct Hr as [Hb Hn]. destruct bs as [|b bs]; [exists false, buf, s1, []; done|].
    set (data := b :: bs) in *. rewrite buf_blit_ok, outcome_ret_bind by lia.
    set (buf1 := _ ++ _).
    assert (length buf1 = length buf) as Hl1.
    { subst buf1. rewrite !length_app, length_take, length_drop. lia. }
    destruct (IH s1 buf1 (got + Z.of_nat (length data)) len) as (ok & buf' & s' & rest & -> & H1 & H2 & H3 & H4 & H5);
      [lia|lia|lia|].
    exists ok, buf', s', (data ++ rest). split; [done|]. split; [lia|]. split; [congruence|].
    split; [congruence|]. split; [by rewrite Hb, H4, app_assoc|]. intros Hok Hle.
    destruct H5 as [H5 H6]; [done|lia|]. rewrite length_app. split; [lia|]. rewrite H6, app_assoc. f_equal.
    unfold slice. rewrite !drop_0. subst buf1. rewrite app_assoc.
    rewrite take_app_le by (rewrite length_app, length_take; lia).
    rewrite take_ge; [done|]. rewrite length_app, length_take. lia.
  - destruct Hr as [Hb _]. destruct (e =? EINTR).
    + destruct (IH s1 buf got len) as (ok & buf' & s' & rest & -> & H1 & H2 & H3 & H4 & H5); [lia|lia|lia|].
      exists ok, buf', s', rest. split; [done|]. rewrite Hb. repeat split; try congruence; by apply H5.
    + exists false, buf, s1, []. done.
Qed.

Lemma recv_exact_spec s buf len :
  0 <= len <= Z.of_nat (length buf) ->
  exists ok buf' s' bs, recv_exact s buf len = Ret (ok, buf', s') /\
    length buf' = length buf /\ tx s' = tx s /\ wire s' = wire s /\
    rx_bytes (rx s) = bs ++ rx_bytes (rx s') /\
    (ok = true -> Z.of_nat (length bs) = len /\ slice buf' 0 len = bs).
Proof.
  intros Hlen.
  destruct (recv_exact_loop_spec (S (rx_size (rx s))) s buf 0 len)
    as (ok & buf' & s' & bs & Hrun & H1 & H2 & H3 & H4 & H5); [lia|lia|lia|].
  exists ok, buf', s', bs. repeat (split; [done|]). intros Hok. destruct H5 as [H5 H6]; [done|lia|].
  split; [lia|]. by rewrite H6, slice_nil.
Qed.

(** The server sends at least [k] bytes, with no failure but interruptions. *)
Fixpoint rx_supplies (evs : list rx_event) (k : Z) : Prop :=
  k <= 0 \/
  match evs with
  | [] => False
  | RxErr e :: evs' => e = EINTR /\ rx_supplies evs' k
  | RxData bs :: evs' => bs <> [] /\ rx_supplies evs' (k - Z.of_nat (length bs))
  end.

Lemma rx_supplies_done evs k : k <= 0 -> rx_supplies evs k.
Proof. destruct evs; by left. Qed.

(** A receive takes its share. *)
Lemma supplies_recv s want k :
  0 < want -> want <= k -> rx_supplies (rx s) k ->
  exists r s', sys_recv want s = Some (r, s') /\
    match r with
    | Received bs => bs <> [] /\ rx_supplies (rx s') (k - Z.of_nat (length bs))
    | RecvError e => e = EINTR /\ rx_supplies (rx s') k
    end.
Proof.
  intros Hw Hk Hs. destruct s as [[|[bs|e] evs] txs w]; simpl in Hs; (destruct Hs as [|Hs]; [lia|]); [done| |].
  - destruct Hs as [Hne Hs]. eexists _, _. split; [done|]. simpl. split.
    + destruct bs; [done|]. replace (Z.to_nat want) with (S (pred (Z.to_nat want))) by lia. done.
    + rewrite length_take. destruct (drop (Z.to_nat want) bs) as [|c cs] eqn:E.
      * assert (length (drop (Z.to_nat want) bs) = 0%nat) as Hl by by rewrite E.
        rewrite length_drop in Hl. rewrite Nat.min_r by lia. done.
      * assert (length (c :: cs) = length bs - Z.to_nat want)%nat as Hl by by rewrite <- E, length_drop.
        right. split; [done|]. simpl in Hl |- *.
        by replace (k - Z.of_nat (Z.to_nat want `min` length bs) - Z.of_nat (S (length cs)))
          with (k - Z.of_nat (length bs)) by lia.
  - destruct Hs as [-> Hs]. eexists _, _. split; [done|]. done.
Qed.

Lemma recv_exact_loop_completes fuel : forall s buf got len k,
  0 <= got <= len -> len <= Z.of_nat (length buf) -> 0 <= k -> (rx_size (rx s) < fuel)%nat ->
  rx_supplies (rx s) (len - got + k) ->
  exists buf' s', recv_exact_loop fuel s buf got len = Ret (true, buf', s') /\ rx_supplies (rx s') k.
Proof.
  induction fuel as [|fuel IH]; intros s buf got len k Hgot Hlen Hk Hfuel Hs; [lia|]. cbn [recv_exact_loop].
  destruct (Z.ltb_spec got len) as [Hlt|Hge].
  2: { exists buf, s. split; [done|]. by replace (len - got + k) with k in Hs by lia. }
  destruct (supplies_recv s (len - got) (len - got + k)) as (r & s1 & Er & Hr); [lia|lia|done|].
  unfold nb_recv. rewrite Er. apply sys_recv_spec in Er as (_ & _ & Hsize & _ & Hspec); [|lia].
  destruct r as [bs|e].
  - destruct Hr as [Hne Hr], Hspec as [_ Hn]. destruct bs as [|b bs]; [done|]. set (data := b :: bs) in *.
    rewrite buf_blit_ok, outcome_ret_bind by lia. apply IH; [lia| |done|lia|].
    + rewrite !length_app, length_take, length_drop. lia.
    + by replace (len - (got + Z.of_nat (length data)) + k) with (len - got + k - Z.of_nat (length data)) by lia.
  - destruct Hr as [-> Hr]. simpl. apply IH; [lia|done|done|lia|done].
Qed.

(** ** The requests *)

(** [k] payload bytes from the [i]th on. *)
Definition letters (i : Z) (k : nat) : list Z := (fun j => u8 (97 + j mod 26)) <$> seqZ i (Z.of_nat k).

Definition payload (n : Z) : list Z := letters 0 (Z.to_nat n).
Definition request (n : Z) : list Z := frame_of (payload n).
Definition echo (n : Z) : list Z := incr <$> payload n.

Lemma letters_S i k : letters i (S k) = u8 (97 + i mod 26) :: letters (i + 1) k.
Proof.
  unfold letters. replace (Z.of_nat (S k)) with (Z.succ (Z.of_nat k)) by lia.
  rewrite seqZ_cons by lia. simpl. by rewrite Z.pred_succ.
Qed.

Lemma letters_length i k : length (letters i k) = k.
Proof. unfold letters. rewrite length_fmap, length_seqZ. lia. Qed.

Lemma payload_plain n : DOLLAR ∉ payload n.
Proof.
  unfold payload, letters. rewrite list_elem_of_fmap. intros (j & Hj & _). unfold DOLLAR in Hj.
  pose proof (Z.mod_pos_bound j 26). rewrite u8_small in Hj; lia.
Qed.

(** What a server that keeps the protocol answers to the requests. *)
Lemma frame_requests n k :
  frame_out WAIT_FOR_MSG (concat (replicate k (request n))) = concat (replicate k (echo n)) /\
  frame_state WAIT_FOR_MSG (concat (replicate k (request n))) = WAIT_FOR_MSG.
Proof.
  induction k as [|k [IH1 IH2]]; [done|]. cbn [replicate concat]. rewrite frame_out_app, frame_state_app.
  destruct (frame_of_run (payload n) (payload_plain n)) as [Ho Hs].
  fold (request n) in Ho, Hs. by rewrite Ho, Hs, IH1.
Qed.

Lemma fill_loop_spec k : forall i req expected,
  0 <= i -> i + Z.of_nat k <= 512 -> length req = 514%nat -> length expected = 512%nat ->
  exists req' expected', fill_loop k i req expected = Ret (req', expected') /\
    length req' = 514%nat /\ length expected' = 512%nat /\
    slice req' 0 (1 + i + Z.of_nat k) = slice req 0 (1 + i) ++ letters i k /\
    slice expected' 0 (i + Z.of_nat k) = slice expected 0 i ++ (incr <$> letters i k).
Proof.
  induction k as [|k IH]; intros i req expected Hi Hk Hr He; cbn [fill_loop].
  { exists req, expected. rewrite !app_nil_r. replace (1 + i + Z.of_nat 0) with (1 + i) by lia.
    replace (i + Z.of_nat 0) with i by lia. done. }
  cbv zeta. rewrite (buf_set_ok req), outcome_ret_bind, (buf_set_ok expected), outcome_ret_bind by lia.
  destruct (IH (i + 1) (<[Z.to_nat (1 + i):=u8 (97 + i mod 26)]> req)
    (<[Z.to_nat i:=u8 (u8 (97 + i mod 26) + 1)]> expected)) as (req' & exp' & -> & H1 & H2 & H3 & H4);
    [lia|lia|by rewrite length_insert|by rewrite length_insert|].
  exists req', exp'. split; [done|]. split; [done|]. split; [done|].
  rewrite letters_S. cbn [fmap list_fmap]. split.
  - replace (1 + i + Z.of_nat (S k)) with (1 + (i + 1) + Z.of_nat k) by lia. rewrite H3.
    replace (1 + (i + 1)) with (1 + i + 1) by lia. rewrite slice_snoc_set by lia. by rewrite <- app_assoc.
  - replace (i + Z.of_nat (S k)) with (i + 1 + Z.of_nat k) by lia. rewrite H4.
    rewrite slice_snoc_set by lia. by rewrite <- app_assoc.
Qed.

Lemma fill_request_spec n req expected :
  1 <= n <= 512 -> length req = 514%nat -> length expected = 512%nat ->
  exists req' expected', fill_request n req expected = Ret (req', expected') /\
    slice req' 0 (n + 2) = request n /\ slice expected' 0 n = echo n.
Proof.
  intros Hn Hr He. unfold fill_request. rewrite buf_set_ok, outcome_ret_bind by lia.
  destruct (fill_loop_spec (Z.to_nat n) 0 (<[Z.to_nat 0:=HAT]> req) expected)
    as (req' & exp' & -> & H1 & H2 & H3 & H4); [lia|lia|by rewrite length_insert|done|].
  rewrite outcome_ret_bind. cbv beta iota. rewrite buf_set_ok, outcome_ret_bind by lia.
  eexists _, _. split; [done|]. rewrite Z2Nat.id in * by lia. rewrite Z.add_0_l in H4.
  split; [|by rewrite H4, slice_nil]. replace (n + 2) with (1 + n + 1) by lia.
  rewrite slice_snoc_set by lia. rewrite Z.add_0_r in H3. rewrite H3.
  pose proof (slice_snoc_set req 0 HAT) as H0. rewrite Z.add_0_l in H0. rewrite H0 by lia.
  by rewrite slice_nil.
Qed.

(** ** The request loop *)

Definition same_setup (c c' : conn_ctx_t) : Prop :=
  messages c' = messages c /\ payload_bytes c' = payload_bytes c /\
  connected c' = connected c /\ length (latencies_us c') = length (latencies_us c).

#[export] Instance same_setup_trans : Transitive same_setup.
Proof. intros c1 c2 c3 (? & ? & ? & ?) (? & ? & ? & ?). repeat split; congruence. Qed.

(** One iteration: the process is killed, the loop is left with an error, or the next
    one starts. *)
Lemma request_loop_S clock req expected n k tick got c s : 1 <= n <= 512 ->
  slice req 0 (n + 2) = request n -> slice expected 0 n = echo n ->
  payload_bytes c = n -> length got = 512%nat -> 0 <= completed c < Z.of_nat (length (latencies_us c)) ->
  let res := request_loop (S k) clock tick req expected got c s in
  res = Exit "SIGPIPE" \/
  (exists s1 out, res = Ret (set_errors c (errors c + 1), s1) /\ wire s1 = wire s ++ out /\ out `prefix_of` request n) \/
  (exists got' s2 bs lat,
     res = request_loop k clock (S (S tick)) req expected got'
             (set_request c (negb (bool_decide (bs = echo n))) lat) s2 /\
     length got' = 512%nat /\ length lat = length (latencies_us c) /\
     wire s2 = wire s ++ request n /\ rx_bytes (rx s) = bs ++ rx_bytes (rx s2) /\ Z.of_nat (length bs) = n).
Proof.
  intros Hn Hreq Hexp Hpay Hgot Hc. cbn [request_loop]. rewrite Hpay, Hreq. unfold send_all_fd.
  destruct (send_to false s (request n)) as [sr s1] eqn:Es.
  apply send_to_spec in Es as (Hrx1 & _ & (out & Hw1 & Hpre & Hall) & _).
  destruct sr; [|by right; left; exists s1, out..|by left]. specialize (Hall eq_refl) as ->.
  right. rewrite outcome_ret_bind. cbn [negb].
  destruct (recv_exact_spec s1 got n) as (ok & got' & s2 & bs & -> & Hl & _ & Hw2 & Hb & Hok); [lia|].
  rewrite outcome_ret_bind. destruct ok; cbn [negb]; [|by left; exists s2, (request n); rewrite Hw2].
  right. destruct (Hok eq_refl) as [Hlen ->]. rewrite Hexp, buf_set_ok, outcome_ret_bind by lia.
  eexists got', s2, bs, _. split; [reflexivity|]. split; [lia|]. split; [apply length_insert|].
  split; [by rewrite Hw2|]. by rewrite <- Hrx1.
Qed.

Lemma request_loop_spec clock req expected n : 1 <= n <= 512 ->
  slice req 0 (n + 2) = request n -> slice expected 0 n = echo n -> forall k tick got c s,
  payload_bytes c = n -> length got = 512%nat ->
  0 <= completed c -> completed c + Z.of_nat k <= Z.of_nat (length (latencies_us c)) ->
  match request_loop k clock tick req expected got c s with
  | Ret (c', s') =>
      same_setup c c' /\
      completed c <= completed c' <= completed c + Z.of_nat k /\
      errors c <= errors c' <= errors c + 1 /\
      mismatches c <= mismatches c' <= mismatches c + (completed c' - completed c) /\
      (errors c' <> errors c -> completed c' < completed c + Z.of_nat k) /\
      (errors c' = errors c -> completed c' = completed c + Z.of_nat k /\
         wire s' = wire s ++ concat (replicate k (request n)) /\
         (mismatches c' = mismatches c ->
            rx_bytes (rx s) = concat (replicate k (echo n)) ++ rx_bytes (rx s')))
  | Exit msg => msg = "SIGPIPE"%string
  | Fault _ => False
  end.
Proof.
  intros Hn Hreq Hexp. induction k as [|k IH]; intros tick got c s Hpay Hgot Hc Hk.
  { cbn [request_loop]. repeat split; try lia; try done. by rewrite app_nil_r. }
  destruct (request_loop_S clock req expected n k tick got c s) as [->|[(s1 & out & -> & _)|
    (got' & s2 & bs & lat & -> & Hgot' & Hlat & Hw & Hb & Hl)]]; try done; [lia|simpl; repeat split; lia || done|].
  set (c1 := set_request _ _ _). specialize (IH (S (S tick)) got' c1 s2 Hpay Hgot' ltac:(simpl; lia)).
  specialize (IH ltac:(simpl; lia)). assert (same_setup c c1) as Hset by done.
  destruct (request_loop k clock (S (S tick)) req expected got' c1 s2) as [[c' s']| |]; [|done..].
  destruct IH as (H1 & H2 & H3 & H4 & H5 & H6). simpl in H2, H3, H4, H5, H6.
  assert (mismatches c <= mismatches c1 <= mismatches c + 1) as Hm by (simpl; destruct (negb _); lia).
  split; [by transitivity c1|].
  split; [lia|]. split; [lia|]. split; [simpl in Hm; destruct (negb _); lia|]. split; [lia|].
  intros He. destruct (H6 He) as (H7 & H8 & H9). split; [lia|].
  split; [rewrite H8, Hw; cbn [replicate concat]; by rewrite app_assoc|].
  intros Hmm. case_bool_decide as Heq; simpl in *; [|lia]. rewrite Hb, Heq, H9 by done. by rewrite app_assoc.
Qed.

(** Whatever happens, only requests are sent; and a server that sends nothing but
    right echoes causes no mismatch. *)
Lemma request_loop_honest clock req expected n : 1 <= n <= 512 ->
  slice req 0 (n + 2) = request n -> slice expected 0 n = echo n -> forall k tick got c s c' s',
  payload_bytes c = n -> length got = 512%nat ->
  0 <= completed c -> completed c + Z.of_nat k <= Z.of_nat (length (latencies_us c)) ->
  request_loop k clock tick req expected got c s = Ret (c', s') ->
  (exists out, wire s' = wire s ++ out /\ out `prefix_of` concat (replicate k (request n))) /\
  (rx_bytes (rx s) `prefix_of` concat (replicate k (echo n)) -> mismatches c' = mismatches c).
Proof.
  intros Hn Hreq Hexp. induction k as [|k IH]; intros tick got c s c' s' Hpay Hgot Hc Hk.
  { intros [= <- <-]. split; [|done]. exists []. by rewrite app_nil_r. }
  destruct (request_loop_S clock req expected n k tick got c s) as [->|[(s1 & out & -> & Hw & Hpre)|
    (got' & s2 & bs & lat & -> & Hgot' & Hlat & Hw & Hb & Hl)]]; try done; [lia|..].
  { intros [= <- <-]. split; [|done]. exists out. split; [done|]. by apply prefix_app_r. }
  intros Hrun. cbn [replicate concat].
  apply IH in Hrun as [(out & Hw' & Hpre) Hmis]; [|done|done|simpl; lia|simpl; lia]. split.
  - exists (request n ++ out). split; [by rewrite Hw', Hw, app_assoc|]. by apply prefix_app.
  - rewrite Hb. intros Hrx. assert (length bs = length (echo n)) as Hlen.
    { unfold echo, payload. rewrite length_fmap, letters_length. lia. }
    destruct Hrx as [rest Hrx]. rewrite <- app_assoc in Hrx. apply app_inj_1 in Hrx as [Hecho Hrest]; [|done].
    rewrite Hmis; [|by exists rest]. simpl. by rewrite bool_decide_eq_true_2.
Qed.

(** A server that sends and takes enough, and answers by the protocol. *)
Lemma request_loop_completes clock req expected n : 1 <= n <= 512 ->
  slice req 0 (n + 2) = request n -> slice expected 0 n = echo n -> forall k tick got c s,
  payload_bytes c = n -> length got = 512%nat ->
  0 <= completed c -> completed c + Z.of_nat k <= Z.of_nat (length (latencies_us c)) ->
  rx_supplies (rx s) (Z.of_nat k * n) -> tx_takes (tx s) (k * Z.to_nat (n + 2)) ->
  concat (replicate k (echo n)) `prefix_of` rx_bytes (rx s) ->
  exists c' s', request_loop k clock tick req expected got c s = Ret (c', s') /\
    completed c' = completed c + Z.of_nat k /\ errors c' = errors c /\ mismatches c' = mismatches c.
Proof.
  intros Hn Hreq Hexp.
  induction k as [|k IH]; intros tick got c s Hpay Hgot Hc Hk Hrx Htx Hpre; cbn [request_loop].
  { exists c, s. repeat split; lia. }
  rewrite Hpay, Hreq. unfold send_all_fd.
  assert (length (request n) = Z.to_nat (n + 2)) as Hlr.
  { unfold request, frame_of, payload. simpl. rewrite length_app, letters_length. simpl. lia. }
  destruct (send_to_completes false s (request n) (k * Z.to_nat (n + 2))) as (txs & -> & Htx1);
    [by rewrite Hlr, Nat.add_comm|]. rewrite outcome_ret_bind. cbn [negb].
  set (s1 := Sock _ _ _).
  destruct (recv_exact_loop_completes (S (rx_size (rx s1))) s1 got 0 n (Z.of_nat k * n))
    as (got' & s2 & Hrun & Hrx2); [lia|lia|lia|lia| |].
  { by replace (n - 0 + Z.of_nat k * n) with (Z.of_nat (S k) * n) by lia. }
  destruct (recv_exact_spec s1 got n) as (ok & got2 & s3 & bs & Hrun2 & Hl & Htx2 & _ & Hb & Hok); [lia|].
  unfold recv_exact in Hrun2. rewrite Hrun in Hrun2. injection Hrun2 as <- <- <-.
  unfold recv_exact. rewrite Hrun, outcome_ret_bind. cbn [negb].
  destruct (Hok eq_refl) as [Hlen ->]. cbn [replicate concat] in Hpre. simpl in Hb. rewrite Hb in Hpre.
  assert (bs = echo n /\ concat (replicate k (echo n)) `prefix_of` rx_bytes (rx s2)) as [-> Hpre'].
  { destruct Hpre as [rest Hpre]. rewrite <- app_assoc in Hpre.
    apply app_inj_1 in Hpre as [-> Hpre]; [split; [done|by exists rest]|].
    unfold echo, payload. rewrite length_fmap, letters_length. lia. }
  rewrite Hexp, bool_decide_eq_true_2 by done. rewrite buf_set_ok, outcome_ret_bind by lia. cbn [negb].
  edestruct (IH (S (S tick)) got') as (c' & s' & Hrun' & H1 & H2 & H3); last first.
  - exists c', s'. split; [exact Hrun'|]. simpl in H1, H2, H3. repeat split; try done; lia.
  - done.
  - by rewrite Htx2.
  - done.
  - simpl. rewrite length_insert. lia.
  - simpl. lia.
  - lia.
  - done.
Qed.

(** ** The whole connection *)

Definition frame_ok (f : frame) : Prop :=
  length (f_req f) = 514%nat /\ length (f_expected f) = 512%nat /\ length (f_got f) = 512%nat.

(** What a server that keeps the protocol sends in answer to [m] requests. *)
Definition right_answer (m n : Z) : list Z :=
  STAR :: frame_out WAIT_FOR_MSG (concat (replicate (Z.to_nat m) (request n))).

Lemma converse_spec clock f m n us s :
  frame_ok f -> 1 <= m -> 1 <= n <= 512 ->
  match converse clock f (set_connect (new_ctx m n) us true) s with
  | Ret (c', s') =>
      0 <= completed c' <= m /\ 0 <= errors c' <= m /\ 0 <= mismatches c' <= completed c' /\
      (completed c' < m <-> errors c' <> 0) /\
      (errors c' = 0 -> mismatches c' = 0 ->
         rx_bytes (rx s) = right_answer m n ++ rx_bytes (rx s') /\
         wire s' = wire s ++ concat (replicate (Z.to_nat m) (request n)))
  | Exit msg => msg = "SIGPIPE"%string
  | Fault _ => False
  end.
Proof.
  intros (Hf1 & Hf2 & Hf3) Hm Hn. unfold converse.
  destruct (recv_exact_spec s [f_ack f] 1) as (ok & ack & s1 & bs & -> & Hl & _ & Hw & Hb & Hok); [simpl; lia|].
  rewrite outcome_ret_bind. destruct (buf_get_lt ack 0) as (a & Ha & ->); [rewrite Hl; simpl; lia|].
  rewrite outcome_ret_bind.
  destruct (negb ok || negb (a =? STAR)) eqn:Eack; [simpl; repeat split; lia|].
  apply orb_false_iff in Eack as [Eok Ea]. destruct ok; [|done]. bool_prop. subst a.
  destruct (Hok eq_refl) as [Hlen Hs].
  assert (bs = [STAR]) as ->.
  { destruct ack as [|a0 ack]; simplify_eq/=. done. }
  cbn [payload_bytes set_ack set_connect new_ctx messages].
  destruct (fill_request_spec n (f_req f) (f_expected f)) as (req & exp & -> & Hreq & Hexp); [lia|done|done|].
  rewrite outcome_ret_bind.
  set (c := set_ack _ _).
  pose proof (request_loop_spec clock req exp n Hn Hreq Hexp (Z.to_nat m) 4 (f_got f) c s1) as Hloop.
  specialize (Hloop eq_refl Hf3). simpl in Hloop. rewrite length_replicate in Hloop.
  specialize (Hloop ltac:(lia) ltac:(lia)).
  destruct (request_loop (Z.to_nat m) clock 4 req exp (f_got f) c s1) as [[c' s']| |]; [|done..].
  destruct Hloop as (_ & H1 & H2 & H3 & H4 & H5).
  repeat (split; [lia|]). intros He Hmm. destruct (H5 He) as (H6 & H7 & H8). unfold right_answer.
  rewrite (proj1 (frame_requests n _)). split; [by rewrite Hb, H8|]. by rewrite H7, Hw.
Qed.

Lemma converse_honest clock f m n us s c s' :
  frame_ok f -> 1 <= m -> 1 <= n <= 512 ->
  converse clock f (set_connect (new_ctx m n) us true) s = Ret (c, s') ->
  (exists out, wire s' = wire s ++ out /\ out `prefix_of` concat (replicate (Z.to_nat m) (request n))) /\
  (rx_bytes (rx s) `prefix_of` right_answer m n -> mismatches c = 0).
Proof.
  intros (Hf1 & Hf2 & Hf3) Hm Hn. unfold converse.
  destruct (recv_exact_spec s [f_ack f] 1) as (ok & ack & s1 & bs & -> & Hl & _ & Hw & Hb & Hok); [simpl; lia|].
  rewrite outcome_ret_bind. destruct (buf_get_lt ack 0) as (a & Ha & ->); [rewrite Hl; simpl; lia|].
  rewrite outcome_ret_bind. destruct (negb ok || negb (a =? STAR)) eqn:Eack.
  { intros [= <- <-]. split; [|done]. exists []. rewrite app_nil_r. split; [done|apply prefix_nil]. }
  apply orb_false_iff in Eack as [Eok _]. destruct ok; [|done]. destruct (Hok eq_refl) as [Hlen _].
  cbn [payload_bytes set_ack set_connect new_ctx messages].
  destruct (fill_request_spec n (f_req f) (f_expected f)) as (req & exp & -> & Hreq & Hexp); [lia|done|done|].
  rewrite outcome_ret_bind. intros Hloop.
  apply (request_loop_honest _ _ _ n) in Hloop as [(out & Hw' & Hpre) Hmis];
    [|lia|done|done|done|done|simpl; lia|simpl; rewrite length_replicate; lia].
  rewrite Hw in Hw'. split; [by exists out|]. unfold right_answer. rewrite (proj1 (frame_requests n _)), Hb.
  destruct bs as [|b [|b' bs]]; [done| |simpl in Hlen; lia]. intros [rest [= _ Hrest]].
  apply Hmis. by exists rest.
Qed.

(** A right server is found right. *)
Lemma converse_completes clock f m n us s :
  frame_ok f -> 1 <= m -> 1 <= n <= 512 ->
  rx_supplies (rx s) (1 + m * n) -> tx_takes (tx s) (Z.to_nat m * Z.to_nat (n + 2)) ->
  right_answer m n `prefix_of` rx_bytes (rx s) ->
  exists c s', converse clock f (set_connect (new_ctx m n) us true) s = Ret (c, s') /\
    completed c = m /\ errors c = 0 /\ mismatches c = 0.
Proof.
  intros (Hf1 & Hf2 & Hf3) Hm Hn Hrx Htx Hpre.
  unfold converse. unfold right_answer in Hpre. rewrite (proj1 (frame_requests n _)) in Hpre.
  destruct (recv_exact_loop_completes (S (rx_size (rx s))) s [f_ack f] 0 1 (m * n))
    as (ack & s1 & Hrun & Hrx1); [lia|simpl; lia|nia|lia|done|].
  destruct (recv_exact_spec s [f_ack f] 1) as (ok & ack' & s1' & bs & Hrun' & Hl & Htx1 & _ & Hb & Hok);
    [simpl; lia|].
  unfold recv_exact in Hrun'. rewrite Hrun in Hrun'. injection Hrun' as <- <- <-.
  unfold recv_exact. rewrite Hrun, outcome_ret_bind.
  destruct (Hok eq_refl) as [Hlen Hs]. rewrite Hb in Hpre.
  destruct bs as [|b [|b' bs]]; [done| |simpl in Hlen; lia]. simplify_eq/=. destruct ack as [|a ack]; simplify_eq/=.
  destruct Hpre as [rest Hpre]. simplify_eq/=.
  assert (a = STAR) as -> by by injection Hs.
  destruct (fill_request_spec n (f_req f) (f_expected f)) as (req & exp & -> & Hreq & Hexp); [lia|done|done|].
  rewrite outcome_ret_bind. set (c := set_ack _ _).
  destruct (request_loop_completes clock req exp n ltac:(lia) Hreq Hexp (Z.to_nat m) 4 (f_got f) c s1)
    as (c' & s' & Hrun' & K1 & K2 & K3); try done.
  - simpl. rewrite length_replicate. lia.
  - by rewrite Z2Nat.id by lia.
  - by rewrite Htx1.
  - by exists rest.
  - exists c', s'. simpl in K1. split; [done|]. split; [lia|done].
Qed.

(** The descriptor [connect_to] returns is one the process holds. *)
Lemma connect_to_held res open fd open' : connect_to res open = (fd, open') -> fd < 0 \/ fd ∈ open'.
Proof.
  destruct res as [addrs|]; simpl; [|intros [= <- <-]; left; lia].
  revert open. induction addrs as [|[fd0 a] addrs IH]; intros open; simpl; [intros [= <- <-]; left; lia|].
  destruct (fd0 <? 0); [apply IH|]. destruct (connect_with_timeout a =? 0); [|apply IH].
  intros [= <- <-]. right. apply elem_of_union. left. by apply elem_of_singleton.
Qed.

(** The two ways of a thread: no connection, or a conversation and the [close]. *)
Lemma conn_main_cases clock f c res s open :
  let us := dsub (now_us (clock 1%nat)) (now_us (clock 0%nat)) in
  let '(fd, open1) := connect_to res open in
  if fd <? 0 then conn_main clock f c res s open = Ret (set_errors (set_connect c us false) (messages c), s, open1)
  else conn_main clock f c res s open =
    ('(c', s') ← converse clock f (set_connect c us true) s; Ret (c', s', open1 ∖ {[fd]})).
Proof.
  cbv zeta. unfold conn_main. destruct (connect_to res open) as [fd open1] eqn:E. apply connect_to_held in E.
  destruct (Z.ltb_spec fd 0) as [Hneg|Hfd].
  - by replace (0 <=? fd) with false by lia.
  - replace (0 <=? fd) with true by lia. destruct E as [|Hin]; [lia|]. unfold close_fd.
    by rewrite decide_True.
Qed.

(** The connection a thread has. *)
Definition opened (res : option (list (Z * connect_calls))) (open : gset Z) (s : sock) : option sock :=
  if (connect_to res open).1 <? 0 then None else Some s.

Lemma conn_main_spec clock f m n res s open :
  frame_ok f -> 1 <= m -> 1 <= n <= 512 ->
  match conn_main clock f (new_ctx m n) res s open with
  | Ret (c', s', _) =>
      0 <= completed c' <= m /\ 0 <= errors c' <= m /\ 0 <= mismatches c' <= completed c' /\
      (completed c' < m <-> errors c' <> 0) /\
      (errors c' = 0 -> mismatches c' = 0 -> opened res open s = Some s /\
         rx_bytes (rx s) = right_answer m n ++ rx_bytes (rx s') /\
         wire s' = wire s ++ concat (replicate (Z.to_nat m) (request n)))
  | Exit msg => msg = "SIGPIPE"%string
  | Fault _ => False
  end.
Proof.
  intros Hf Hm Hn. pose proof (conn_main_cases clock f (new_ctx m n) res s open) as Hc. unfold opened. cbv zeta in Hc.
  destruct (connect_to res open) as [fd open1]. simpl. destruct (fd <? 0); rewrite Hc; [simpl; repeat split; lia|].
  pose proof (converse_spec clock f m n (dsub (now_us (clock 1%nat)) (now_us (clock 0%nat))) s Hf Hm Hn) as H.
  destruct (converse _ _ _ _) as [[c' s']| |]; [|done..]. simpl.
  destruct H as (? & ? & ? & ? & H). do 4 (split; [done|]). intros He Hmm. by split; [|apply H].
Qed.

Lemma conn_main_honest clock f m n res s open c s' open' :
  frame_ok f -> 1 <= m -> 1 <= n <= 512 ->
  conn_main clock f (new_ctx m n) res s open = Ret (c, s', open') ->
  (exists out, wire s' = wire s ++ out /\ out `prefix_of` concat (replicate (Z.to_nat m) (request n))) /\
  (rx_bytes (rx s) `prefix_of` right_answer m n -> mismatches c = 0).
Proof.
  intros Hf Hm Hn. pose proof (conn_main_cases clock f (new_ctx m n) res s open) as Hc. cbv zeta in Hc.
  destruct (connect_to res open) as [fd open1]. destruct (fd <? 0); rewrite Hc.
  - intros [= <- <- <-]. split; [|done]. exists []. rewrite app_nil_r. split; [done|apply prefix_nil].
  - intros ([c1 s1] & Hrun & [= <- <- <-])%outcome_bind_inv. by eapply converse_honest.
Qed.

(** The totals, when they fit. *)
Lemma total_exact f ctxs m :
  0 <= m -> Forall (fun c => 0 <= f c <= m) ctxs -> Z.of_nat (length ctxs) * m < 2 ^ 31 ->
  let sum := foldr (fun c n => f c + n) 0 ctxs in
  total f ctxs = sum /\ 0 <= sum <= Z.of_nat (length ctxs) * m.
Proof.
  intros Hm Hall Hfit. cbv zeta. unfold total.
  assert (forall acc, 0 <= acc -> acc + Z.of_nat (length ctxs) * m < 2 ^ 31 ->
    fold_left (fun n c => s32 (n + f c)) ctxs acc = acc + foldr (fun c n => f c + n) 0 ctxs /\
    0 <= foldr (fun c n => f c + n) 0 ctxs <= Z.of_nat (length ctxs) * m) as H.
  { clear Hfit. induction Hall as [|c ctxs Hc _ IH]; intros acc Hacc Hfit; simpl in *; [lia|].
    rewrite s32_small by nia. destruct (IH (acc + f c)) as [-> H]; [lia|nia|]. split; [lia|nia]. }
  destruct (H 0) as [-> Hsum]; lia.
Qed.

Lemma total_small f ctxs m :
  0 <= m -> Forall (fun c => 0 <= f c <= m) ctxs -> Z.of_nat (length ctxs) * m < 2 ^ 31 ->
  0 <= total f ctxs /\ (total f ctxs = 0 <-> Forall (fun c => f c = 0) ctxs).
Proof.
  intros Hm Hall Hfit. destruct (total_exact f ctxs m Hm Hall Hfit) as [-> Hsum]. split; [lia|]. clear Hsum Hfit.
  induction Hall as [|c ctxs Hc Hall IH]; simpl; [done|]. rewrite Forall_cons, <- IH.
  assert (0 <= foldr (fun c n => f c + n) 0 ctxs); [|lia]. clear -Hall. induction Hall; simpl; lia.
Qed.

(** ** The barrier *)

Inductive breach (connections spawned : nat) : barrier -> Prop :=
| breach_start : breach connections spawned (barrier_start connections spawned)
| breach_step b b' : breach connections spawned b -> bstep connections b b' -> breach connections spawned b'.

(** As long as it has not opened, everybody who has arrived is still inside. *)
Definition barrier_inv (connections spawned : nat) (b : barrier) : Prop :=
  (b_opened b = 0 /\ b_arrived b <= connections /\ b_arrived b + b_threads b = spawned + (if b_main_waits b then 1 else 0) /\
   b_main_left b + (if b_main_waits b then 1 else 0) = connections - spawned + 1)%nat \/
  (spawned = connections /\ b_opened b = 1 /\ b_arrived b = 0 /\ b_threads b = 0 /\ b_main_left b = 0 /\
   b_main_waits b = false)%nat.

Lemma barrier_reach connections spawned b :
  (spawned <= connections)%nat -> breach connections spawned b -> barrier_inv connections spawned b.
Proof.
  intros Hle. induction 1 as [|b b' _ IH Hstep].
  { left. simpl. lia. }
  destruct Hstep as [a n l w o|a n l o]; unfold arrive, barrier_inv in *; simpl in *.
  - destruct IH as [(-> & IH0 & IH1 & IH2)|IH]; [|lia]. destruct (decide _) as [E|E]; simpl.
    + right. destruct w; lia.
    + left. destruct w; lia.
  - destruct IH as [(-> & IH0 & IH1 & IH2)|IH]; [|lia]. destruct (decide _) as [E|E]; simpl.
    + right. lia.
    + left. lia.
Qed.

(** ** Theorems *)

Lemma conn_main_closes clock f c res s open c' s' open' :
  (forall addrs, res = Some addrs -> Forall (fun x => x.1 ∉ open) addrs) ->
  conn_main clock f c res s open = Ret (c', s', open') -> open' = open.
Proof.
  intros Hnew. pose proof (conn_main_cases clock f c res s open) as Hc. cbv zeta in Hc.
  destruct (connect_to res open) as [fd open1] eqn:Ec. destruct res as [addrs|]; simpl in Ec.
  2:{ injection Ec as <- <-. simpl in Hc. rewrite Hc. by intros [= _ _ <-]. }
  pose proof (connect_loop_spec addrs open fd open1 (Hnew addrs eq_refl) Ec) as Hspec.
  destruct (Z.ltb_spec fd 0) as [Hneg|Hpos].
  - replace (0 <=? fd) with false in Hspec by lia. rewrite Hc. intros [= _ _ <-]. by destruct Hspec as (_ & -> & _).
  - replace (0 <=? fd) with true in Hspec by lia. destruct Hspec as (-> & pre & a & post & -> & _).
    rewrite Hc. intros ([c1 s1] & _ & [= _ _ <-])%outcome_bind_inv. apply open_close.
    specialize (Hnew _ eq_refl). apply Forall_app in Hnew as [_ Hnew]. by apply Forall_cons in Hnew as [? _].
Qed.

(** A thread of the run: the connection it got and what is in its context. *)
Definition ran (m n : Z) (conn : option sock) (c : conn_ctx_t) : Prop :=
  exists clock f res s open s' open', frame_ok f /\ conn = opened res open s /\
    conn_main clock f (new_ctx m n) res s open = Ret (c, s', open').

Lemma loadgen_args_range args connections m n :
  loadgen_args args = Some (connections, m, n) -> 1 <= connections /\ 1 <= m /\ 1 <= n <= 512.
Proof.
  unfold loadgen_args. destruct (args !! 2%nat), (args !! 3%nat); try done. cbv zeta.
  destruct (args_ok _ _ _) eqn:E; [|done]. intros [= <- <- <-].
  unfold args_ok, MAX_PAYLOAD in E. bool_prop. lia.
Qed.

Lemma ran_spec m n conn c :
  1 <= m -> 1 <= n <= 512 -> ran m n conn c ->
  0 <= errors c <= m /\ 0 <= mismatches c <= m /\
  (errors c = 0 -> mismatches c = 0 ->
     exists s, conn = Some s /\ right_answer m n `prefix_of` rx_bytes (rx s)).
Proof.
  intros Hm Hn (clock & f & res & s & open & s' & open' & Hf & -> & Hrun).
  pose proof (conn_main_spec clock f m n res s open Hf Hm Hn) as H.
  rewrite Hrun in H. destruct H as (H1 & H2 & H3 & _ & H4). split; [done|]. split; [lia|].
  intros He Hmm. destruct (H4 He Hmm) as (-> & Hb & _). exists s. split; [done|].
  by exists (rx_bytes (rx s')).
Qed.

(** A thread that got no connection counts every message as an error. *)
Lemma ran_refused m n c : ran m n None c -> errors c = m /\ mismatches c = 0.
Proof.
  intros (clock & f & res & s & open & s' & open' & _ & Hnone & Hrun).
  pose proof (conn_main_cases clock f (new_ctx m n) res s open) as Hc. cbv zeta in Hc. unfold opened in Hnone.
  destruct (connect_to res open) as [fd open1]. simpl in Hnone. destruct (fd <? 0); [|done].
  rewrite Hc in Hrun. by injection Hrun as <- _ _.
Qed.

(** 2^30 and 2^30 do not fit an int. *)
Lemma refused_overflow n ctxs : Forall2 (ran (2 ^ 30) n) [None; None] ctxs -> exit_code ctxs = 0.
Proof.
  intros (c1 & l1 & H1 & Hl & ->)%Forall2_cons_inv_l. apply Forall2_cons_inv_l in Hl as (c2 & l2 & H2 & Hl & ->).
  apply Forall2_nil_inv_l in Hl as ->. apply ran_refused in H1 as [He1 Hm1], H2 as [He2 Hm2].
  unfold exit_code, total. simpl. by rewrite He1, He2, Hm1, Hm2.
Qed.

(** C37 [conn_main_counts]: for every server and every result of the system calls,
    with the arguments [main] accepts, no array of a connection's thread is overrun
    and its loops end; it counts at most as many requests, errors and mismatches as
    there were messages, and an error exactly when a request was not completed; and it
    leaves the process with the descriptors it had before. Only SIGPIPE, which is not
    ignored, can end the process instead. *)
Theorem conn_main_counts args clock f connections m n res s open :
  loadgen_args args = Some (connections, m, n) -> frame_ok f ->
  (forall addrs, res = Some addrs -> Forall (fun x => x.1 ∉ open) addrs) ->
  match conn_main clock f (new_ctx m n) res s open with
  | Ret (c, _, open') =>
      0 <= completed c <= m /\ 0 <= errors c <= m /\ 0 <= mismatches c <= completed c /\
      (completed c < m <-> errors c <> 0) /\ open' = open
  | Exit msg => msg = "SIGPIPE"%string
  | Fault _ => False
  end.
Proof.
  intros Hargs Hf Hnew. apply loadgen_args_range in Hargs as (? & ? & ?).
  pose proof (conn_main_spec clock f m n res s open Hf ltac:(lia) ltac:(lia)) as Hspec.
  destruct (conn_main _ _ _ _ _ _) as [[[c s'] open']| |] eqn:Hrun; [|done..].
  destruct Hspec as (? & ? & ? & ? & _). repeat (split; [done|]). by eapply conn_main_closes.
Qed.

(** C15 [loadgen_verifies]: a run of fewer than 2^31 requests that returns 0 has seen a
    right server: every connection was established and received the star and the echo
    the protocol assigns to the requests it sent. A server that is fast and wrong fails
    such a run. Without the bound the totals wrap: a run of two connections with 2^30
    messages each, both refused, returns 0. *)
Theorem loadgen_verifies args connections m n conns ctxs :
  loadgen_args args = Some (connections, m, n) ->
  Z.of_nat (length conns) <= connections -> Forall2 (ran m n) conns ctxs ->
  (connections * m < 2 ^ 31 -> exit_code ctxs = 0 ->
   Forall (fun conn => exists s, conn = Some s /\ right_answer m n `prefix_of` rx_bytes (rx s)) conns) /\
  (m = 2 ^ 30 -> conns = [None; None] -> exit_code ctxs = 0).
Proof.
  intros Hargs Hlen Hran. split; [|intros -> ->; by eapply refused_overflow].
  intros Hfit Hexit. apply loadgen_args_range in Hargs as (? & ? & ?).
  assert (Forall (fun c => 0 <= errors c <= m) ctxs /\ Forall (fun c => 0 <= mismatches c <= m) ctxs)
    as [Hb1 Hb2].
  { split; apply (Forall2_Forall_r _ _ _ _ Hran), Forall_true; intros conn c Hc;
      apply ran_spec in Hc as (? & ? & _); lia || done. }
  assert (length conns = length ctxs) as Hl by by eapply Forall2_length.
  assert (Z.of_nat (length ctxs) * m < 2 ^ 31) as Hfit' by nia.
  destruct (total_small errors ctxs m) as [He1 He2]; [lia|done|done|].
  destruct (total_small mismatches ctxs m) as [Hm1 Hm2]; [lia|done|done|].
  unfold exit_code in Hexit. destruct (Z.ltb_spec 0 (total errors ctxs)); [done|].
  destruct (Z.ltb_spec 0 (total mismatches ctxs)); [done|].
  assert (Forall (fun c => errors c = 0 /\ mismatches c = 0) ctxs) as Hz.
  { apply Forall_and. split; [apply He2|apply Hm2]; lia. }
  apply (Forall2_Forall_l _ _ _ _ Hran). eapply Forall_impl; [exact Hz|].
  intros c [Hc1 Hc2] conn Hconn. apply ran_spec in Hconn as (_ & _ & Hr); [by apply Hr|lia|lia].
Qed.

(** C31 [loadgen_passes]: a server that keeps the protocol passes: if it sends the
    star and the echo of the requests in any segmentation, and takes the requests, the
    connection completes all its requests without an error or a mismatch. *)
Theorem loadgen_passes args connections m n clock f res s open :
  loadgen_args args = Some (connections, m, n) -> frame_ok f -> opened res open s = Some s ->
  rx_supplies (rx s) (1 + m * n) -> tx_takes (tx s) (Z.to_nat m * Z.to_nat (n + 2)) ->
  right_answer m n `prefix_of` rx_bytes (rx s) ->
  exists c s' open', conn_main clock f (new_ctx m n) res s open = Ret (c, s', open') /\
    completed c = m /\ errors c = 0 /\ mismatches c = 0.
Proof.
  intros Hargs Hf Hopen Hrx Htx Hpre. apply loadgen_args_range in Hargs as (? & ? & ?).
  pose proof (conn_main_cases clock f (new_ctx m n) res s open) as Hc. cbv zeta in Hc. unfold opened in Hopen.
  destruct (connect_to res open) as [fd open1]. simpl in Hopen. destruct (fd <? 0); [done|]. rewrite Hc.
  destruct (converse_completes clock f m n (dsub (now_us (clock 1%nat)) (now_us (clock 0%nat))) s)
    as (c & s' & -> & H3 & H4 & H5); [done|lia|lia|done..|].
  rewrite outcome_ret_bind. by eexists _, _, _.
Qed.

(** [connect_to] returns the first address that can be
    connected and leaves no other descriptor open, and -1 with none open when no
    address can. *)
Theorem connect_first res open fd open' :
  (forall addrs, res = Some addrs -> Forall (fun x => x.1 ∉ open) addrs) ->
  connect_to res open = (fd, open') ->
  if 0 <=? fd then
    open' = {[fd]} ∪ open /\
    exists pre a post, res = Some (pre ++ (fd, a) :: post) /\ connect_with_timeout a = 0 /\
      Forall (fun x => x.1 < 0 \/ connect_with_timeout x.2 <> 0) pre
  else
    fd = -1 /\ open' = open /\
    forall addrs, res = Some addrs -> Forall (fun x => x.1 < 0 \/ connect_with_timeout x.2 <> 0) addrs.
Proof.
  intros Hnew Hrun. destruct res as [addrs|]; simpl in Hrun; [|by injection Hrun as <- <-].
  pose proof (connect_loop_spec addrs open fd open' (Hnew addrs eq_refl) Hrun) as H. destruct (0 <=? fd).
  - destruct H as (Ho & pre & a & post & -> & Ha & Hp). split; [done|]. by exists pre, a, post.
  - destruct H as (Hf & Ho & Hall). split; [done|]. split; [done|]. by intros ? [= <-].
Qed.

(** C38 [start_barrier_opens]: the barrier opens for a run whose threads all started,
    once, when the last of them and main have arrived, and in a run where
    [pthread_create] failed it never opens: the extra waits of main do not stand in
    for the missing threads, because the first of them blocks. *)
Theorem start_barrier_opens connections spawned b :
  (spawned <= connections)%nat -> breach connections spawned b ->
  (if decide (spawned = connections) then
     b_opened b = (if decide (b_threads b = 0 /\ b_main_left b = 0) then 1 else 0)
   else b_opened b = 0 /\
     (b_threads b = 0 -> b_main_waits b = true -> forall b', ~ bstep connections b b'))%nat.
Proof.
  intros Hle Hreach. pose proof (barrier_reach _ _ _ Hle Hreach) as Hinv.
  destruct (decide (spawned = connections)) as [->|Hne].
  - destruct Hinv as [(Ho & H0 & H1 & H2)|(_ & Ho & _ & H1 & H2 & _)]; rewrite Ho.
    + destruct (decide _) as [[E1 E2]|]; [|done]. destruct (b_main_waits b); lia.
    + by rewrite decide_True.
  - destruct Hinv as [(Ho & H0 & H1 & H2)|H]; [|lia]. split; [done|].
    intros Ht Hw b' Hstep. by destruct Hstep; simpl in *.
Qed.

(** A server that answers two requests of three bytes, in pieces. *)
Definition demo_sock : sock :=
  Sock [RxData (lit "*b"); RxErr EINTR; RxData (lit "cdbc"); RxData (lit "d?")] (replicate 12 (TxSpace 3)) [].

Definition demo_args : list (list Z) := [lit "localhost"; lit "9090"; lit "1"; lit "2"; lit "3"].

Definition demo_frame : frame := Frame 0 (replicate 514 255) (replicate 512 255) (replicate 512 255).

Definition demo_clock (n : nat) : timespec := (7, 1000 * Z.min (Z.of_nat n) 999).

Definition demo_calls (connect soerr : Z) : connect_calls := ConnectCalls 2 0 connect 1 0 soerr 0.

(** The first address answers. *)
Definition demo_res : option (list (Z * connect_calls)) := Some [(4, demo_calls 0 0)].

Definition demo_ctx : outcome (conn_ctx_t * sock * gset Z) :=
  conn_main demo_clock demo_frame (new_ctx 2 3) demo_res demo_sock ∅.

Lemma conn_main_counts_witness :
  match conn_main demo_clock demo_frame (new_ctx 2 3) demo_res demo_sock {[3]} with
  | Ret (c, _, open') =>
      0 <= completed c <= 2 /\ 0 <= errors c <= 2 /\ 0 <= mismatches c <= completed c /\
      (completed c < 2 <-> errors c <> 0) /\ open' = {[3]}
  | Exit msg => msg = "SIGPIPE"%string
  | Fault _ => False
  end.
Proof.
  apply (conn_main_counts demo_args demo_clock demo_frame 1 2 3 demo_res demo_sock {[3]}).
  - reflexivity.
  - by vm_compute.
  - intros addrs [= <-]. repeat constructor; set_solver.
Defined.

Lemma loadgen_verifies_witness :
  exists c s' open', demo_ctx = Ret (c, s', open') /\ exit_code [c] = 0 /\
    Forall (fun conn => exists s, conn = Some s /\ right_answer 2 3 `prefix_of` rx_bytes (rx s)) [Some demo_sock].
Proof.
  eexists _, _, _. split; [vm_compute; reflexivity|]. split; [vm_compute; reflexivity|].
  eapply (loadgen_verifies demo_args 1 2 3 [Some demo_sock]); [reflexivity|simpl; lia| |reflexivity|].
  - constructor; [|constructor]. exists demo_clock, demo_frame, demo_res, demo_sock, ∅. eexists _, _.
    split; [by vm_compute|]. split; [reflexivity|]. vm_compute. reflexivity.
  - reflexivity.
Defined.

Lemma loadgen_passes_witness :
  exists c s' open', conn_main demo_clock demo_frame (new_ctx 2 3) demo_res demo_sock ∅ = Ret (c, s', open') /\
    completed c = 2 /\ errors c = 0 /\ mismatches c = 0.
Proof.
  apply (loadgen_passes demo_args 1 2 3 demo_clock demo_frame demo_res demo_sock ∅).
  - reflexivity.
  - by vm_compute.
  - reflexivity.
  - right. split; [discriminate|]. right. split; [reflexivity|]. right. split; [discriminate|].
    right. split; [discriminate|]. left. by vm_compute.
  - vm_compute. lia.
  - exists [63]. vm_compute. reflexivity.
Defined.

Lemma connect_first_witness :
  connect_to (Some [(-1, demo_calls 0 0); (4, demo_calls EINPROGRESS 111); (4, demo_calls EINPROGRESS 0)]) {[3]}
    = (4, {[4]} ∪ {[3]}).
Proof.
  destruct (connect_first
    (Some [(-1, demo_calls 0 0); (4, demo_calls EINPROGRESS 111); (4, demo_calls EINPROGRESS 0)]) {[3]}
    4 ({[4]} ∪ {[3]})) as [_ _].
  - intros addrs [= <-]. repeat constructor; set_solver.
  - vm_compute. reflexivity.
  - vm_compute. reflexivity.
Defined.

Lemma start_barrier_opens_witness :
  exists b, breach 2 1 b /\ b_threads b = 0%nat /\ b_main_waits b = true /\
    b_opened b = 0%nat /\ (forall b', ~ bstep 2 b b').
Proof.
  exists (Barrier 2 0 1 true 0).
  assert (breach 2 1 (Barrier 2 0 1 true 0)) as Hb.
  { apply breach_step with (Barrier 1 0 2 false 0); [|exact (bstep_main 2 1 0 1 0)].
    apply breach_step with (Barrier 0 1 2 false 0); [|exact (bstep_thread 2 0 0 2 false 0)].
    exact (breach_start 2 1). }
  destruct (start_barrier_opens 2 1 (Barrier 2 0 1 true 0)) as [Ho Hstuck]; [lia|exact Hb|].
  split; [exact Hb|]. split; [reflexivity|]. split; [reflexivity|]. split; [exact Ho|].
  exact (Hstuck eq_refl eq_refl).
Defined.
