(* ===== verification/LoadStats.v ===== *)
(** * The report of the load generator (src/bench/loadgen.c)

    - [prepare], [spawn_loop]: the allocations and the threads of [main] before the
      barrier;
    - [gather], [qsort], [percentile], [mean_of], [run_report]: the statistics, in
      doubles (Double.v);
    - [print_report], [print_csv], [loadgen_finish]: what the run prints, the file it writes
      and its exit code.

    The theorems relate the report to the latencies the threads recorded: nothing is
    lost or read twice, and rounding moves a percentile by at most one part in 2^51
    from the interpolation it stands for. *)

From Stdlib Require Import QArith Qround Qpower Qabs Lqa.
From stdpp Require Import sorting.
From S2P Require Import Prelude Double Framing CString Posix MetricsRender LoadGen.
Local Open Scope Z_scope.

(** ** Before the barrier *)

(** Which allocations succeed: the contexts, the threads, the latencies of the [i]th
    connection, and the array of all latencies. *)
Record memory := Memory { mem_ctxs : bool; mem_threads : bool; mem_latencies : nat -> bool; mem_all : bool }.

(** The loop that fills the contexts, the [i]th next. *)
Fixpoint fill_ctxs (k : nat) (i : nat) (mem : memory) (messages payload : Z) : option (list conn_ctx_t) :=
  match k with
  | O => Some []
  | S k' =>
      if negb (mem_latencies mem i) then None
      else cons (new_ctx messages payload) <$> fill_ctxs k' (S i) mem messages payload
  end.

(** [inl]: the exit code of a run that ends before it starts. *)
Definition prepare (mem : memory) (args : list (list Z)) : Z + list conn_ctx_t :=
  match loadgen_args args with
  | None => inl 2
  | Some (connections, messages, payload) =>
      if negb (mem_ctxs mem) || negb (mem_threads mem) then inl 1
      else
        match fill_ctxs (Z.to_nat connections) 0 mem messages payload with
        | None => inl 1
        | Some ctxs => inr ctxs
        end
  end.

(** The loop that creates the threads; [creates]: what [pthread_create] answers. *)
Fixpoint spawn_loop (connections : nat) (creates : list Z) (spawned : nat) : nat :=
  match connections, creates with
  | S k, rc :: creates' => if negb (rc =? 0) then spawned else spawn_loop k creates' (S spawned)
  | _, _ => spawned
  end.

(** ** All latencies, sorted *)

Definition b2z (b : bool) : Z := if b then 1 else 0.

(** [x < y] on doubles. *)
Definition dlt (x y : Q) : bool := negb (Qle_bool y x).

Definition cmp_double (x y : Q) : Z := b2z (dlt y x) - b2z (dlt x y).

Definition cmp_le (x y : Q) : Prop := cmp_double x y <= 0.

#[export] Instance cmp_le_dec : RelDecision cmp_le.
Proof. intros x y. unfold cmp_le. apply _. Defined.

(** The C library's [qsort] of the first [n] doubles by [cmp_double]. *)
Definition qsort (base : list Q) (n : Z) : outcome (list Q) :=
  if (0 <=? n) && (n <=? Z.of_nat (length base)) then
    Ret (merge_sort cmp_le (take (Z.to_nat n) base) ++ drop (Z.to_nat n) base)
  else Fault OutOfBounds.

(** The inner loop: [n] latencies of a context are left, the [j]th next. *)
Fixpoint copy_loop (n : nat) (j : Z) (lat all : list Q) (k : Z) : outcome (list Q * Z) :=
  match n with
  | O => Ret (all, k)
  | S n' =>
      x ← buf_get lat j;
      all ← buf_set all k x;
      copy_loop n' (j + 1) lat all (k + 1)
  end.

Fixpoint gather (ctxs : list conn_ctx_t) (all : list Q) (k : Z) : outcome (list Q * Z) :=
  match ctxs with
  | [] => Ret (all, k)
  | c :: ctxs' =>
      '(all, k) ← copy_loop (Z.to_nat (completed c)) 0 (latencies_us c) all k;
      gather ctxs' all k
  end.

(** ** Statistics *)

Definition to_int32 (x : Q) : outcome Z :=
  let z := to_int x in
  if (- 2 ^ 31 <=? z) && (z <? 2 ^ 31) then Ret z else Fault OutOfRange.

Definition percentile (sorted : list Q) (n : Z) (p : Q) : outcome Q :=
  if n =? 0 then Ret 0%Q
  else
    let idx := dmul (ddiv p (of_int 100)) (of_int (s32 (n - 1))) in
    lo ← to_int32 idx;
    let hi := if n <=? s32 (lo + 1) then s32 (n - 1) else s32 (lo + 1) in
    let frac := dsub idx (of_int lo) in
    x ← buf_get sorted lo;
    y ← buf_get sorted hi;
    Ret (dadd (dmul x (dsub (of_int 1) frac)) (dmul y frac)).

(** [sum += all[i]] for the first [n]. *)
Fixpoint sum_loop (n : nat) (i : Z) (all : list Q) (sum : Q) : outcome Q :=
  match n with
  | O => Ret sum
  | S n' => x ← buf_get all i; sum_loop n' (i + 1) all (dadd sum x)
  end.

Definition mean_of (all : list Q) (total : Z) : outcome Q :=
  mean ← sum_loop (Z.to_nat total) 0 all 0%Q;
  Ret (if 0 <? total then ddiv mean (of_int total) else mean).

(** The loop over the contexts: [established], [connect_sum], [connect_max] and
    [ack_max]. *)
Definition connect_step (acc : Z * Q * Q * Q) (c : conn_ctx_t) : Z * Q * Q * Q :=
  let '(established, connect_sum, connect_max, ack_max) := acc in
  (s32 (established + b2z (connected c)),
   dadd connect_sum (connect_us c),
   if dlt connect_max (connect_us c) then connect_us c else connect_max,
   if dlt ack_max (ack_us c) then ack_us c else ack_max).

Definition connect_stats (ctxs : list conn_ctx_t) : Z * Q * Q * Q :=
  fold_left connect_step ctxs (0, 0%Q, 0%Q, 0%Q).

(** The readings of the clock [main] makes. *)
Record main_clock := MainClock {
  setup_start : timespec; setup_end : timespec; wall_start : timespec; wall_end : timespec
}.

Record report := Report {
  r_connections : Z; r_established : Z; r_setup_ms : Q; r_connect_mean_us : Q; r_connect_max_us : Q;
  r_ack_max_us : Q; r_requests : Z; r_errors : Z; r_mismatches : Z; r_wall_ms : Q; r_throughput_rps : Q;
  r_mean_us : Q; r_p50_us : Q; r_p90_us : Q; r_p99_us : Q; r_p999_us : Q; r_max_us : Q
}.

Definition wall_us (ck : main_clock) : Q := dsub (now_us (wall_end ck)) (now_us (wall_start ck)).

(** The literals of [main]. *)
Definition P999 : Q := rnd (999 # 10).

(** From the totals on: the sorted array and the numbers printed. *)
Definition run_report (mem : memory) (ck : main_clock) (ctxs : list conn_ctx_t) :
    outcome (list Q * report) :=
  let connections := Z.of_nat (length ctxs) in
  let setup_us := dsub (now_us (setup_end ck)) (now_us (setup_start ck)) in
  let n := total completed ctxs in
  let all := if mem_all mem then replicate (Z.to_nat (if 0 <? n then n else 1)) 0%Q else [] in
  '(all, _) ← gather ctxs all 0;
  all ← qsort all n;
  mean ← mean_of all n;
  let '(established, connect_sum, connect_max, ack_max) := connect_stats ctxs in
  p50 ← percentile all n (of_int 50);
  p90 ← percentile all n (of_int 90);
  p99 ← percentile all n (of_int 99);
  p999 ← percentile all n P999;
  mx ← (if 0 <? n then buf_get all (n - 1) else Ret 0%Q);
  Ret (all, Report connections established
    (ddiv setup_us (of_int 1000))
    (if 0 <? connections then ddiv connect_sum (of_int connections) else 0%Q)
    connect_max ack_max n (total errors ctxs) (total mismatches ctxs)
    (ddiv (wall_us ck) (of_int 1000))
    (if dlt 0 (wall_us ck) then ddiv (of_int n) (ddiv (wall_us ck) (of_int 1000000)) else 0%Q)
    mean p50 p90 p99 p999 mx).

(** ** Printing *)

(** [d] decimal digits of [n], with leading zeros. *)
Fixpoint fraction (d : nat) (n : Z) : list Z :=
  match d with
  | O => []
  | S d' => fraction d' (n / 10) ++ [48 + n mod 10]
  end.

(** %.<d>f: the decimal number nearest to [q], ties to even. *)
Definition fixed (d : nat) (q : Q) : list Z :=
  let p := 10 ^ Z.of_nat d in
  let z := rne (Qabs q * inject_Z p) in
  (if dlt q 0 then [45] else []) ++
  digits (S (Z.to_nat (Z.log2 (z / p)))) (z / p) ++
  (match d with O => [] | _ => 46 :: fraction d (z mod p) end).

Definition line (name : list Z) (value : list Z) : list Z := name ++ value ++ [10].

Definition print_report (r : report) : list Z :=
  line (lit "connections    ") (dec_s (r_connections r)) ++
  line (lit "established    ") (dec_s (r_established r)) ++
  line (lit "setup_ms       ") (fixed 1 (r_setup_ms r)) ++
  line (lit "connect_mean_us ") (fixed 1 (r_connect_mean_us r)) ++
  line (lit "connect_max_us ") (fixed 1 (r_connect_max_us r)) ++
  line (lit "ack_max_us     ") (fixed 1 (r_ack_max_us r)) ++
  line (lit "requests       ") (dec_s (r_requests r)) ++
  line (lit "errors         ") (dec_s (r_errors r)) ++
  line (lit "mismatches     ") (dec_s (r_mismatches r)) ++
  line (lit "wall_ms        ") (fixed 1 (r_wall_ms r)) ++
  line (lit "throughput_rps ") (fixed 0 (r_throughput_rps r)) ++
  line (lit "mean_us        ") (fixed 1 (r_mean_us r)) ++
  line (lit "p50_us         ") (fixed 1 (r_p50_us r)) ++
  line (lit "p90_us         ") (fixed 1 (r_p90_us r)) ++
  line (lit "p99_us         ") (fixed 1 (r_p99_us r)) ++
  line (lit "p999_us        ") (fixed 1 (r_p999_us r)) ++
  line (lit "max_us         ") (fixed 1 (r_max_us r)).

(** The loop that writes the file; [k] latencies are left, the [i]th next. *)
Fixpoint csv_loop (k : nat) (i : Z) (all : list Q) : outcome (list Z) :=
  match k with
  | O => Ret []
  | S k' => x ← buf_get all i; rest ← csv_loop k' (i + 1) all; Ret (line [] (fixed 3 x) ++ rest)
  end.

Definition print_csv (all : list Q) (n : Z) : outcome (list Z) :=
  rows ← csv_loop (Z.to_nat n) 0 all;
  Ret (line [] (lit "latency_us") ++ rows).

(** [main] after the threads were joined: standard output, the file written, if any,
    and the exit code. [csv]: no path given, or whether [fopen] succeeds. *)
Definition loadgen_finish (mem : memory) (ck : main_clock) (csv : option bool) (ctxs : list conn_ctx_t) :
    outcome (list Z * option (list Z) * Z) :=
  '(all, r) ← run_report mem ck ctxs;
  file ← (match csv with
          | Some true => text ← print_csv all (r_requests r); Ret (Some text)
          | _ => Ret None
          end);
  Ret (print_report r, file, exit_code ctxs).

(** ** Relative errors *)

(** [x] is [y] up to one part in [1/e]. *)
Definition near (e x y : Q) : Prop := (y * (1 - e) <= x /\ x <= y * (1 + e))%Q.

(** Three roundings. *)
Definition eps : Q := (4 * ulp)%Q.

Section near.
Local Open Scope Q_scope.

Lemma near_refl x : near 0 x x.
Proof. split; lra. Qed.

Lemma near_rnd e x y : 0 <= e -> 0 <= x -> 0 <= y -> near e x y -> near (e + ulp + e * ulp) (rnd x) y.
Proof.
  intros He Hx Hy [H1 H2]. destruct (rnd_error x Hx) as [H3 H4].
  assert (0 < ulp) as Hu by reflexivity. assert (ulp < 1) as Hu1 by reflexivity.
  assert (0 <= y * e * ulp) as H0 by (repeat apply Qmult_le_0_compat; lra). split.
  - assert (y * (1 - e) * (1 - ulp) <= x * (1 - ulp)) by (apply Qmult_le_compat_r; lra). lra.
  - assert (x * (1 + ulp) <= y * (1 + e) * (1 + ulp)) by (apply Qmult_le_compat_r; lra). lra.
Qed.

Lemma near_mul e a x y : 0 <= a -> near e x y -> near e (a * x) (a * y).
Proof.
  intros Ha [H1 H2]. apply (Qmult_le_compat_r _ _ a) in H1, H2; [|done..]. split; lra.
Qed.

Lemma near_mul_r e a x y : 0 <= a -> near e x y -> near e (x * a) (y * a).
Proof.
  intros Ha [H1 H2]. apply (Qmult_le_compat_r _ _ a) in H1, H2; [|done..]. split; lra.
Qed.

Lemma near_add e x y x' y' : near e x y -> near e x' y' -> near e (x + x') (y + y').
Proof. intros [H1 H2] [H3 H4]. split; lra. Qed.

Lemma near_weaken e e' x y : 0 <= y -> e <= e' -> near e x y -> near e' x y.
Proof.
  intros Hy He [H1 H2]. assert (y * e <= y * e') by (rewrite !(Qmult_comm y); by apply Qmult_le_compat_r).
  split; lra.
Qed.

Lemma near_proper_r e x y y' : y == y' -> near e x y -> near e x y'.
Proof. intros E [H1 H2]. split; by rewrite <- E. Qed.

(** The interpolation of [percentile], once its weight is known. *)
Lemma interpolate_near x y f :
  0 <= x -> 0 <= y -> 0 <= f -> f <= 1 ->
  near eps (rnd (rnd (x * rnd (1 - f)) + rnd (y * f))) (x * (1 - f) + y * f).
Proof.
  intros Hx Hy Hf Hf1. assert (0 < ulp) as Hu by reflexivity.
  assert (0 <= x * (1 - f)) as Ha by (apply Qmult_le_0_compat; lra).
  assert (0 <= y * f) as Hb by (apply Qmult_le_0_compat; lra).
  assert (0 <= rnd (1 - f)) as Hg by (apply rnd_nonneg; lra).
  assert (0 <= x * rnd (1 - f)) as Hxg by by apply Qmult_le_0_compat.
  assert (near (0 + ulp + 0 * ulp) (rnd (1 - f)) (1 - f)) as H1 by (apply near_rnd; [lra..|apply near_refl]).
  apply (near_mul _ x) in H1; [|done]. apply near_rnd in H1; [|lra|done|done].
  assert (near (0 + ulp + 0 * ulp) (rnd (y * f)) (y * f)) as H2 by (apply near_rnd; [lra..|apply near_refl]).
  eapply near_weaken in H2; [|done|]; [eapply near_add in H2; [|exact H1]|].
  - apply near_rnd in H2; [|apply Qle_bool_iff; by vm_compute| |lra].
    + eapply near_weaken; [lra| |exact H2]. apply Qle_bool_iff. by vm_compute.
    + pose proof (rnd_nonneg _ Hxg). pose proof (rnd_nonneg _ Hb). lra.
  - apply Qle_bool_iff. by vm_compute.
Qed.

(** The rank. *)
Lemma rank_near p k :
  (0 <= k < 2 ^ 31)%Z -> 0 <= p -> p <= 100 ->
  let idx := dmul (ddiv p (of_int 100)) (of_int k) in
  near eps idx (p / 100 * inject_Z k) /\ 0 <= idx /\ idx <= inject_Z k.
Proof.
  intros Hk Hp Hp1. cbv zeta. unfold dmul, ddiv. assert (0 < ulp) as Hu by reflexivity.
  assert (0 <= inject_Z k) as Hk0 by (change 0 with (inject_Z 0); rewrite <- Zle_Qle; lia).
  assert (of_int 100 == 100) as E100 by (apply of_int_exact; lia).
  assert (of_int k == inject_Z k) as Ek by (apply of_int_exact; lia). rewrite E100, Ek.
  assert (0 <= p / 100) as Hq by (apply Qle_shift_div_l; lra).
  assert (0 <= rnd (p / 100)) as Hr by by apply rnd_nonneg.
  assert (0 <= rnd (p / 100) * inject_Z k) as Hrk by by apply Qmult_le_0_compat. split; [|split].
  - assert (near (0 + ulp + 0 * ulp) (rnd (p / 100)) (p / 100)) as H1 by (apply near_rnd; [lra..|apply near_refl]).
    apply (near_mul_r _ (inject_Z k)) in H1; [|done].
    apply near_rnd in H1; [|lra|done|by apply Qmult_le_0_compat].
    eapply near_weaken; [by apply Qmult_le_0_compat| |exact H1]. apply Qle_bool_iff. by vm_compute.
  - by apply rnd_nonneg.
  - rewrite <- (rnd_int k) at 2 by lia. apply rnd_mono.
    assert (rnd (p / 100) <= 1) as Hr1.
    { assert (rnd 1 == 1) as <- by reflexivity. apply rnd_mono, Qle_shift_div_r; lra. }
    apply (Qmult_le_compat_r _ _ (inject_Z k)) in Hr1; [|done]. lra.
Qed.

(** A number of events divided by a time in microseconds, per second. *)
Lemma rate_near n w :
  (0 <= n < 2 ^ 31)%Z -> 0 < w ->
  near eps (ddiv (of_int n) (ddiv w (of_int 1000000))) (inject_Z n / (w / 1000000)).
Proof.
  intros Hn Hw. unfold ddiv. assert (0 < ulp) as Hu by reflexivity. assert (ulp < 1 # 8) as Hu1 by reflexivity.
  assert (of_int 1000000 == 1000000) as Em by (apply of_int_exact; lia).
  assert (of_int n == inject_Z n) as En by (apply of_int_exact; lia). rewrite Em, En.
  assert (0 <= inject_Z n) as Hn0 by (change 0 with (inject_Z 0); rewrite <- Zle_Qle; lia).
  set (s := w / 1000000). assert (0 < s) as Hs by (apply Qlt_shift_div_l; lra).
  destruct (rnd_error s) as [H1 H2]; [lra|]. set (v := rnd s) in *. clearbody v.
  set (y := inject_Z n / s). assert (inject_Z n == y * s) as Ey by (subst y; field; lra).
  assert (0 <= y) as Hy by (apply Qle_shift_div_l; lra). clearbody y s.
  assert (0 < s * (1 - ulp)) as H0 by (apply Qmult_lt_0_compat; lra). assert (0 < v) as Hv by lra. assert (0 <= y * s) as Hys by (apply Qmult_le_0_compat; lra).
  assert (0 <= y * s * ulp) as Hysu by (apply Qmult_le_0_compat; lra).
  assert (y * s * ulp * ulp <= y * s * ulp * (1 # 8)) as Huu
    by (rewrite !(Qmult_comm (y * s * ulp)); apply Qmult_le_compat_r; lra).
  assert (0 <= y * s * ulp * ulp) as Huu0 by (apply Qmult_le_0_compat; lra).
  assert (near (2 * ulp) (inject_Z n / v) y) as Hnear.
  { split.
    - apply Qle_shift_div_l; [done|]. rewrite Ey.
      assert (y * (1 - 2 * ulp) * v <= y * (1 - 2 * ulp) * (s * (1 + ulp))) as H.
      { rewrite !(Qmult_comm (y * (1 - 2 * ulp))). apply Qmult_le_compat_r; [done|]. apply Qmult_le_0_compat; lra. }
      eapply Qle_trans; [exact H|]. lra.
    - apply Qle_shift_div_r; [done|]. rewrite Ey.
      assert (y * (1 + 2 * ulp) * (s * (1 - ulp)) <= y * (1 + 2 * ulp) * v) as H.
      { rewrite !(Qmult_comm (y * (1 + 2 * ulp))). apply Qmult_le_compat_r; [done|]. apply Qmult_le_0_compat; lra. }
      eapply Qle_trans; [|exact H]. lra. }
  apply near_rnd in Hnear; [|lra|by apply Qle_shift_div_l; lra|done].
  eapply near_weaken; [done| |exact Hnear]. apply Qle_bool_iff. by vm_compute.
Qed.

End near.

(** ** Percentiles *)

Definition nthq (xs : list Q) (i : Z) : Q := default 0%Q (xs !! Z.to_nat i).

(** The neighbour above. *)
Definition next_index (n lo : Z) : Z := Z.min (lo + 1) (n - 1).

(** Linear interpolation between the neighbours of the rank [t], exactly. *)
Definition interp (sorted : list Q) (t : Q) : Q :=
  let lo := Qfloor t in
  let hi := next_index (Z.of_nat (length sorted)) lo in
  (nthq sorted lo * (1 - (t - inject_Z lo)) + nthq sorted hi * (t - inject_Z lo))%Q.

Lemma buf_get_nth xs i : 0 <= i < Z.of_nat (length xs) -> buf_get xs i = Ret (nthq xs i).
Proof. intros Hi. destruct (buf_get_lt xs i Hi) as (x & Hx & ->). unfold nthq. by rewrite Hx. Qed.

Lemma nthq_nonneg xs i : Forall (Qle 0) xs -> (0 <= nthq xs i)%Q.
Proof.
  intros Hxs. unfold nthq. destruct (xs !! Z.to_nat i) as [x|] eqn:E; simpl; [|lra].
  by eapply Forall_lookup_1 in E.
Qed.

Lemma nthq_sorted xs i j :
  StronglySorted Qle xs -> 0 <= i <= j -> j < Z.of_nat (length xs) -> (nthq xs i <= nthq xs j)%Q.
Proof.
  intros Hs Hij Hj. unfold nthq.
  destruct (lookup_lt_is_Some_2 xs (Z.to_nat i)) as [x Hx]; [lia|].
  destruct (lookup_lt_is_Some_2 xs (Z.to_nat j)) as [y Hy]; [lia|]. rewrite Hx, Hy. simpl.
  destruct (Z.eq_dec i j) as [->|Hne]; [rewrite Hx in Hy; injection Hy as ->; lra|].
  revert Hx Hy. assert (Z.to_nat i < Z.to_nat j)%nat as Hlt by lia. clear Hij Hj Hne.
  revert Hlt. generalize (Z.to_nat i), (Z.to_nat j). clear i j.
  induction Hs as [|a xs _ IH Ha]; intros [|i] [|j] Hlt; simpl; try done; try lia.
  - intros [= <-] Hy. by eapply Forall_lookup_1 in Hy.
  - intros. eapply IH; [|done..]. lia.
Qed.

Lemma percentile_spec sorted n p :
  Z.of_nat (length sorted) = n -> 1 <= n < 2 ^ 31 -> (0 <= p <= 100)%Q -> Forall (Qle 0) sorted ->
  exists t r, percentile sorted n p = Ret r /\
    near eps t (p / 100 * inject_Z (n - 1)) /\ (0 <= t <= inject_Z (n - 1))%Q /\
    near eps r (interp sorted t).
Proof.
  intros Hn Hr [Hp Hp1] Hpos. unfold percentile. destruct (Z.eqb_spec n 0); [lia|].
  rewrite !(s32_small (n - 1)) by lia.
  destruct (rank_near p (n - 1)) as (Hrank & Ht & Ht1); [lia|done|done|].
  set (t := dmul _ _) in *.
  assert (0 <= Qfloor t <= n - 1) as Hlo.
  { apply Qfloor_resp_le in Ht, Ht1. rewrite Qfloor_Z in Ht1. done. }
  cbv zeta. unfold to_int32. rewrite (to_int_floor t Ht). set (lo := Qfloor t) in *.
  destruct (Z.leb_spec (- 2 ^ 31) lo); [|lia]. destruct (Z.ltb_spec lo (2 ^ 31)); [|lia].
  cbn [andb]. rewrite outcome_ret_bind. rewrite (s32_small (lo + 1)) by lia.
  assert ((if n <=? lo + 1 then n - 1 else lo + 1) = next_index n lo) as ->.
  { unfold next_index. destruct (Z.leb_spec n (lo + 1)); lia. }
  rewrite !buf_get_nth, !outcome_ret_bind by (unfold next_index; lia).
  exists t. eexists. split; [reflexivity|]. split; [done|]. split; [done|].
  unfold interp. fold lo. rewrite Hn. set (hi := next_index n lo).
  assert (of_int lo == inject_Z lo)%Q as Elo by (apply of_int_exact; lia).
  assert (of_int 1 == 1)%Q as E1 by (apply of_int_exact; lia).
  assert (dsub t (of_int lo) == t - inject_Z lo)%Q as Ef.
  { unfold dsub. rewrite Elo. unfold lo, t, dmul. apply frac_exact. apply Qmult_le_0_compat.
    - apply rnd_nonneg, Qle_shift_div_l; [reflexivity|]. change (of_int 100) with 100%Q. lra.
    - apply rnd_nonneg. change 0%Q with (inject_Z 0). rewrite <- Zle_Qle. lia. }
  unfold dadd, dmul at 1 2. unfold dsub at 1. rewrite Ef, E1.
  pose proof (Qfloor_le t) as F1. pose proof (Qlt_floor t) as F2. fold lo in F1, F2.
  rewrite inject_Z_plus in F2. change (inject_Z 1) with 1%Q in F2.
  apply interpolate_near; [by apply nthq_nonneg|by apply nthq_nonneg|lra|lra].
Qed.

(** ** Sorting *)

Lemma dlt_true x y : dlt x y = true <-> (x < y)%Q.
Proof.
  unfold dlt. rewrite negb_true_iff. split.
  - intros H. apply Qnot_le_lt. intros Hle%Qle_bool_iff. congruence.
  - intros H. apply not_true_is_false. intros Hle%Qle_bool_iff. lra.
Qed.

Lemma cmp_le_spec x y : cmp_le x y <-> (x <= y)%Q.
Proof.
  unfold cmp_le, cmp_double. destruct (dlt y x) eqn:E1; simpl.
  - apply dlt_true in E1. destruct (dlt x y) eqn:E2; [apply dlt_true in E2; lra|]. simpl. split; [lia|lra].
  - split; [|destruct (dlt x y); simpl; lia]. intros _. apply Qnot_lt_le. intros H%dlt_true. congruence.
Qed.

#[export] Instance cmp_le_total : Total cmp_le.
Proof. intros x y. rewrite !cmp_le_spec. destruct (Qlt_le_dec x y); [left|right]; lra. Qed.

#[export] Instance cmp_le_trans : Transitive cmp_le.
Proof. intros x y z. rewrite !cmp_le_spec. intros. lra. Qed.

(** [qsort] of a whole array. *)
Lemma qsort_spec base :
  exists sorted, qsort base (Z.of_nat (length base)) = Ret sorted /\ sorted ≡ₚ base /\ StronglySorted Qle sorted.
Proof.
  exists (merge_sort cmp_le base). unfold qsort. rewrite Nat2Z.id.
  destruct (Z.leb_spec 0 (Z.of_nat (length base))); [|lia]. rewrite Z.leb_refl. cbn [andb].
  rewrite take_ge, drop_ge, app_nil_r by lia. split; [done|]. split; [apply merge_sort_Permutation|].
  pose proof (StronglySorted_merge_sort cmp_le base) as Hs. induction Hs as [|x xs _ IH Hx]; constructor; [done|].
  eapply Forall_impl; [exact Hx|]. intros y. apply cmp_le_spec.
Qed.

(** ** Gathering *)

(** The latencies a context holds. *)
Definition recorded (c : conn_ctx_t) : list Q := take (Z.to_nat (completed c)) (latencies_us c).

Definition all_recorded (ctxs : list conn_ctx_t) : list Q := concat (recorded <$> ctxs).

Definition ctx_ok (c : conn_ctx_t) : Prop := 0 <= completed c <= Z.of_nat (length (latencies_us c)).

Lemma recorded_length c : ctx_ok c -> Z.of_nat (length (recorded c)) = completed c.
Proof. intros Hc. unfold recorded, ctx_ok in *. rewrite length_take. lia. Qed.

Lemma copy_loop_spec b lat n : forall j src,
  0 <= j -> j + Z.of_nat n <= Z.of_nat (length lat) -> (length src + n <= length b)%nat ->
  let new := take n (drop (Z.to_nat j) lat) in
  copy_loop n j lat (src ++ drop (length src) b) (Z.of_nat (length src)) =
    Ret (src ++ new ++ drop (length src + n) b, Z.of_nat (length src + n)).
Proof.
  induction n as [|n IH]; intros j src Hj Hlat Hb; cbn [copy_loop].
  { by rewrite take_0, Nat.add_0_r. }
  destruct (buf_get_lt lat j) as (x & Hx & ->); [lia|]. rewrite outcome_ret_bind.
  rewrite buf_set_after, outcome_ret_bind by lia.
  specialize (IH (j + 1) (src ++ [x])). rewrite length_app in IH. cbn [length] in IH.
  specialize (IH ltac:(lia) ltac:(lia) ltac:(lia)). rewrite (drop_S lat x (Z.to_nat j) Hx). cbn [take].
  replace (Z.to_nat (j + 1)) with (S (Z.to_nat j)) in IH by lia.
  rewrite <- app_assoc in IH. replace (length src + 1)%nat with (S (length src)) in IH by lia.
  replace (Z.of_nat (length src) + 1) with (Z.of_nat (S (length src))) by lia. etransitivity; [exact IH|].
  rewrite <- !app_assoc. f_equal. f_equal; [|lia]. f_equal. simpl. f_equal. f_equal. f_equal. lia.
Qed.

Lemma gather_spec b ctxs : forall src,
  Forall ctx_ok ctxs -> (length src + length (all_recorded ctxs) <= length b)%nat ->
  gather ctxs (src ++ drop (length src) b) (Z.of_nat (length src)) =
    Ret ((src ++ all_recorded ctxs) ++ drop (length (src ++ all_recorded ctxs)) b,
         Z.of_nat (length (src ++ all_recorded ctxs))).
Proof.
  induction ctxs as [|c ctxs IH]; intros src Hok Hb; cbn [gather].
  { cbn. by rewrite app_nil_r. }
  apply Forall_cons in Hok as [Hc Hok]. pose proof (recorded_length c Hc) as Hl.
  unfold all_recorded in *. cbn [fmap list_fmap concat] in *. rewrite length_app in Hb.
  set (rest := concat (recorded <$> ctxs)) in *.
  rewrite copy_loop_spec; [|lia|unfold ctx_ok in Hc; lia|lia]. rewrite outcome_ret_bind, drop_0.
  fold (recorded c). specialize (IH (src ++ recorded c) Hok). rewrite length_app in IH.
  replace (Z.to_nat (completed c)) with (length (recorded c)) by lia.
  rewrite <- app_assoc in IH. rewrite IH by lia. by rewrite <- !app_assoc.
Qed.

(** As many as were completed. *)
Lemma total_completed ctxs m :
  0 <= m -> Forall (fun c => ctx_ok c /\ completed c <= m) ctxs -> Z.of_nat (length ctxs) * m < 2 ^ 31 ->
  total completed ctxs = Z.of_nat (length (all_recorded ctxs)) /\ total completed ctxs < 2 ^ 31.
Proof.
  intros Hm Hall Hfit. destruct (total_exact completed ctxs m) as [E Hle]; [done| |done|].
  { eapply Forall_impl; [exact Hall|]. intros c [Hc ?]. unfold ctx_ok in Hc. lia. }
  rewrite E. split; [|lia]. clear E Hle Hfit. unfold all_recorded.
  induction Hall as [|c ctxs [Hc _] _ IH]; [done|].
  cbn [foldr fmap list_fmap concat]. rewrite length_app, IH.
  pose proof (recorded_length c Hc). lia.
Qed.

(** ** The mean *)

Definition qsum (xs : list Q) : Q := foldr Qplus 0%Q xs.

(** The sum in doubles, without the array. *)
Lemma sum_loop_fold all n : forall i sum,
  0 <= i -> i + Z.of_nat n <= Z.of_nat (length all) ->
  sum_loop n i all sum = Ret (fold_left dadd (take n (drop (Z.to_nat i) all)) sum).
Proof.
  induction n as [|n IH]; intros i sum Hi Hn; cbn [sum_loop]; [by rewrite take_0|].
  destruct (buf_get_lt all i) as (x & Hx & ->); [lia|]. rewrite outcome_ret_bind, IH by lia.
  rewrite (drop_S all x (Z.to_nat i) Hx). by replace (Z.to_nat (i + 1)) with (S (Z.to_nat i)) by lia.
Qed.

(** [k] roundings. *)
Definition slack (k : nat) : Q := ((1 + ulp) ^ Z.of_nat k - 1)%Q.

Lemma slack_S k : (slack (S k) == slack k + ulp + slack k * ulp)%Q.
Proof.
  unfold slack. rewrite Nat2Z.inj_succ. unfold Z.succ. rewrite Qpower_plus by discriminate.
  change ((1 + ulp) ^ 1)%Q with (1 + ulp)%Q. ring.
Qed.

Lemma slack_nonneg k : (0 <= slack k)%Q.
Proof.
  assert (0 < ulp)%Q as Hu by reflexivity. induction k as [|k IH]; [by vm_compute|]. rewrite slack_S.
  assert (0 <= slack k * ulp)%Q by (apply Qmult_le_0_compat; lra). lra.
Qed.

#[export] Instance near_proper : Proper (Qeq ==> Qeq ==> Qeq ==> iff) near.
Proof. intros e e' He x x' Hx y y' Hy. unfold near. by rewrite He, Hx, Hy. Qed.

Lemma near_rnd_slack k x y :
  (0 <= x)%Q -> (0 <= y)%Q -> near (slack k) x y -> near (slack (S k)) (rnd x) y.
Proof. intros. rewrite slack_S. by apply near_rnd; [apply slack_nonneg|..]. Qed.

Lemma fold_dadd_near xs : forall k sum exact,
  Forall (Qle 0) xs -> (0 <= sum)%Q -> (0 <= exact)%Q -> near (slack k) sum exact ->
  (0 <= fold_left dadd xs sum)%Q /\ near (slack (k + length xs)) (fold_left dadd xs sum) (exact + qsum xs)%Q.
Proof.
  induction xs as [|x xs IH]; intros k sum exact Hxs Hs He Hn; cbn [fold_left length].
  { rewrite Nat.add_0_r. cbn. by rewrite Qplus_0_r. }
  apply Forall_cons in Hxs as [Hx Hxs]. replace (k + S (length xs))%nat with (S k + length xs)%nat by lia.
  cbn [qsum foldr]. fold (qsum xs). rewrite Qplus_assoc.
  apply IH; [done|apply rnd_nonneg; lra|lra|]. unfold dadd. apply near_rnd_slack; [lra|lra|].
  apply near_add; [done|]. assert (0 <= x * slack k)%Q by (apply Qmult_le_0_compat; [done|apply slack_nonneg]).
  split; lra.
Qed.

Lemma qsum_nonneg xs : Forall (Qle 0) xs -> (0 <= qsum xs)%Q.
Proof. induction 1 as [|x xs Hx _ IH]; cbn; [lra|]. fold (qsum xs). lra. Qed.

(** A mean of [n] numbers takes [n] additions and a division. *)
Lemma fold_mean_near xs n :
  Z.of_nat (length xs) = n -> 1 <= n < 2 ^ 31 -> Forall (Qle 0) xs ->
  near (slack (S (length xs))) (ddiv (fold_left dadd xs 0%Q) (of_int n)) (qsum xs / inject_Z n)%Q.
Proof.
  intros Hl Hn Hpos. assert (of_int n == inject_Z n)%Q as En by (apply of_int_exact; lia).
  unfold ddiv. rewrite En. assert (0 < inject_Z n)%Q as Hn0 by (change 0%Q with (inject_Z 0); rewrite <- Zlt_Qlt; lia).
  destruct (fold_dadd_near xs 0 0 0) as [Hs Hnear]; [done|lra|lra|split; vm_compute; discriminate|].
  rewrite Qplus_0_l in Hnear. cbn [Nat.add] in Hnear.
  assert (0 <= / inject_Z n)%Q as Hinv by (apply Qlt_le_weak, Qinv_lt_0_compat; done).
  pose proof (qsum_nonneg xs Hpos). apply near_rnd_slack; try by apply Qmult_le_0_compat.
  by apply near_mul_r.
Qed.

Lemma mean_of_spec all n :
  Z.of_nat (length all) = n -> 1 <= n < 2 ^ 31 -> Forall (Qle 0) all ->
  exists r, mean_of all n = Ret r /\ near (slack (S (length all))) r (qsum all / inject_Z n)%Q.
Proof.
  intros Hl Hn Hpos. unfold mean_of. rewrite sum_loop_fold, outcome_ret_bind by lia.
  destruct (Z.ltb_spec 0 n); [|lia]. eexists. split; [reflexivity|].
  rewrite drop_0, take_ge by lia. by apply fold_mean_near.
Qed.

(** ** The clock *)

Definition ts_ok (ts : timespec) : Prop := 0 <= ts.1 <= 2 ^ 32 /\ 0 <= ts.2 < 10 ^ 9.

(** Earlier or at the same time. *)
Definition ts_le (a b : timespec) : Prop := a.1 < b.1 \/ a.1 = b.1 /\ a.2 <= b.2.

(** CLOCK_MONOTONIC. *)
Definition monotonic (clock : nat -> timespec) : Prop :=
  forall i, ts_ok (clock i) /\ ts_le (clock i) (clock (S i)).

Lemma now_us_rnd ts :
  ts_ok ts -> now_us ts = rnd (inject_Z (ts.1 * 1000000) + rnd (inject_Z ts.2 / 1000)).
Proof.
  intros [H1 H2]. unfold now_us, dadd, dmul, ddiv.
  assert (of_int ts.1 == inject_Z ts.1)%Q as E1 by (apply of_int_exact; lia).
  assert (of_int ts.2 == inject_Z ts.2)%Q as E2 by (apply of_int_exact; lia).
  change (of_int 1000000) with (inject_Z 1000000). change (of_int 1000) with 1000%Q.
  rewrite E1, E2, <- inject_Z_mult. by rewrite (rnd_int (ts.1 * 1000000)) by lia.
Qed.

Lemma nsec_us n : 0 <= n < 10 ^ 9 -> (0 <= rnd (inject_Z n / 1000) <= inject_Z 1000000)%Q.
Proof.
  intros Hn. assert (0 <= inject_Z n)%Q by (change 0%Q with (inject_Z 0); rewrite <- Zle_Qle; lia).
  assert (inject_Z n <= inject_Z (10 ^ 9))%Q by (rewrite <- Zle_Qle; lia). split.
  - apply rnd_nonneg, Qle_shift_div_l; lra.
  - rewrite <- (rnd_int 1000000) by lia. apply rnd_mono, Qle_shift_div_r; [reflexivity|]. done.
Qed.

(** The doubles computed from a clock that does not go back do not either. *)
Lemma now_us_mono a b : ts_ok a -> ts_ok b -> ts_le a b -> (now_us a <= now_us b)%Q.
Proof.
  intros Ha Hb Hab. rewrite !now_us_rnd by done. apply rnd_mono. destruct Hab as [Hlt|[-> Hle]].
  - destruct (nsec_us a.2) as [_ H1]; [apply Ha|]. destruct (nsec_us b.2) as [H2 _]; [apply Hb|].
    assert (inject_Z (a.1 * 1000000) + inject_Z 1000000 <= inject_Z (b.1 * 1000000))%Q; [|lra].
    rewrite <- inject_Z_plus, <- Zle_Qle. lia.
  - assert (rnd (inject_Z a.2 / 1000) <= rnd (inject_Z b.2 / 1000))%Q; [|lra].
    apply rnd_mono, Qmult_le_compat_r; [by rewrite <- Zle_Qle|]. by vm_compute.
Qed.

Lemma elapsed_nonneg clock i : monotonic clock -> (0 <= dsub (now_us (clock (S i))) (now_us (clock i)))%Q.
Proof.
  intros Hc. destruct (Hc i) as [H1 H2]. destruct (Hc (S i)) as [H3 _].
  pose proof (now_us_mono _ _ H1 H3 H2). apply rnd_nonneg. lra.
Qed.

(** ** The connections of a run *)

Lemma request_loop_times clock req expected : monotonic clock -> forall k tick got c s c' s',
  Forall (Qle 0) (latencies_us c) -> request_loop k clock tick req expected got c s = Ret (c', s') ->
  Forall (Qle 0) (latencies_us c') /\ length (latencies_us c') = length (latencies_us c) /\
  connected c' = connected c /\ connect_us c' = connect_us c /\ ack_us c' = ack_us c.
Proof.
  intros Hclock. induction k as [|k IH]; intros tick got c s c' s' Hpos Hrun; cbn [request_loop] in Hrun.
  { by injection Hrun as <- <-. }
  cbv zeta in Hrun. apply outcome_bind_inv in Hrun as ([ok s1] & _ & Hrun).
  destruct ok; cbn [negb] in Hrun; [|by injection Hrun as <- <-].
  apply outcome_bind_inv in Hrun as ([[ok got'] s2] & _ & Hrun).
  destruct ok; cbn [negb] in Hrun; [|by injection Hrun as <- <-].
  apply outcome_bind_inv in Hrun as (lat & Hlat & Hrun). apply buf_set_inv in Hlat as [_ ->].
  apply IH in Hrun as (H1 & H2 & H3).
  - split; [done|]. split; [|done]. rewrite H2. apply length_insert.
  - apply Forall_insert; [done|]. by apply elapsed_nonneg.
Qed.

(** A thread of a run, with a clock that does not go back. *)
Definition timed (m n : Z) (conn : option sock) (c : conn_ctx_t) : Prop :=
  exists clock f res s open s' open', monotonic clock /\ frame_ok f /\ conn = opened res open s /\
    conn_main clock f (new_ctx m n) res s open = Ret (c, s', open').

Lemma timed_times m n conn c :
  timed m n conn c ->
  Forall (Qle 0) (latencies_us c) /\ length (latencies_us c) = Z.to_nat m /\
  connected c = bool_decide (conn <> None) /\ (0 <= connect_us c)%Q /\ (0 <= ack_us c)%Q.
Proof.
  intros (clock & f & res & s & open & s' & open' & Hclock & Hf & -> & Hrun).
  pose proof (conn_main_cases clock f (new_ctx m n) res s open) as Hcase. cbv zeta in Hcase. unfold opened.
  assert (Forall (Qle 0) (replicate (Z.to_nat m) 0%Q)) as H0 by (apply Forall_replicate; lra).
  pose proof (elapsed_nonneg clock 0 Hclock) as Hc.
  destruct (connect_to res open) as [fd open1]. simpl. rewrite Hrun in Hcase. destruct (fd <? 0).
  { injection Hcase as -> -> ->. simpl. rewrite length_replicate. repeat split; try done; lra. }
  symmetry in Hcase. apply outcome_bind_inv in Hcase as ([c1 s1] & Hconv & [= <- <- <-]).
  unfold converse in Hconv. cbv zeta in Hconv. apply outcome_bind_inv in Hconv as ([[ok ack] s2] & _ & Hconv).
  apply outcome_bind_inv in Hconv as (a & _ & Hconv). destruct (_ || _).
  { injection Hconv as <- <-. simpl. rewrite length_replicate. repeat split; try done; lra. }
  apply outcome_bind_inv in Hconv as ([req expected] & _ & Hloop).
  apply request_loop_times in Hloop as (H1 & H2 & -> & -> & ->); [|done|done].
  split; [done|]. split; [by rewrite H2; simpl; rewrite length_replicate|]. split; [done|].
  split; [done|]. by apply elapsed_nonneg.
Qed.

Lemma timed_ran m n conn c : timed m n conn c -> ran m n conn c.
Proof. intros (clock & f & res & s & open & s' & open' & _ & H). by exists clock, f, res, s, open, s', open'. Qed.

Lemma timed_ctx m n conn c :
  1 <= m -> 1 <= n <= 512 -> timed m n conn c ->
  ctx_ok c /\ completed c <= m /\ 0 <= errors c <= m /\ 0 <= mismatches c <= m.
Proof.
  intros Hm Hn Ht. destruct (timed_times _ _ _ _ Ht) as (_ & Hl & _).
  destruct Ht as (clock & f & res & s & open & s' & open' & _ & Hf & _ & Hrun).
  pose proof (conn_main_spec clock f m n res s open Hf Hm Hn) as H. rewrite Hrun in H.
  destruct H as (H1 & H2 & H3 & _). unfold ctx_ok. lia.
Qed.

(** The largest of some times. *)
Definition largest (f : conn_ctx_t -> Q) (ctxs : list conn_ctx_t) (x : Q) : Prop :=
  Forall (fun c => f c <= x)%Q ctxs /\ (ctxs <> [] -> Exists (fun c => f c == x)%Q ctxs) /\ (ctxs = [] -> x = 0%Q).

Definition max_step (f : conn_ctx_t -> Q) (x : Q) (c : conn_ctx_t) : Q := if dlt x (f c) then f c else x.

Lemma connect_stats_folds ctxs :
  connect_stats ctxs =
    (total (fun c => b2z (connected c)) ctxs, fold_left dadd (connect_us <$> ctxs) 0%Q,
     fold_left (max_step connect_us) ctxs 0%Q, fold_left (max_step ack_us) ctxs 0%Q).
Proof.
  assert (forall e s x y, fold_left connect_step ctxs (e, s, x, y) =
    (fold_left (fun n c => s32 (n + b2z (connected c))) ctxs e, fold_left dadd (connect_us <$> ctxs) s,
     fold_left (max_step connect_us) ctxs x, fold_left (max_step ack_us) ctxs y)) as H; [|apply H].
  induction ctxs as [|c ctxs IH]; intros; simpl; [done|]. apply IH.
Qed.

Lemma fold_max f ctxs x :
  let r := fold_left (max_step f) ctxs x in
  (x <= r)%Q /\ Forall (fun c => f c <= r)%Q ctxs /\ (r = x \/ Exists (fun c => f c = r) ctxs).
Proof.
  revert x. induction ctxs as [|c ctxs IH]; intros x; cbn; [split; [lra|]; split; [done|by left]|].
  destruct (IH (max_step f x c)) as (H1 & H2 & H3). set (r := fold_left _ _ _) in *.
  assert (x <= max_step f x c /\ f c <= max_step f x c /\ (max_step f x c = x \/ f c = max_step f x c))%Q
    as (M1 & M2 & M3).
  { unfold max_step. destruct (dlt x (f c)) eqn:E; [apply dlt_true in E; repeat split; try lra; by right|].
    assert (f c <= x)%Q by (apply Qnot_lt_le; intros H%dlt_true; congruence). repeat split; try lra. by left. }
  split; [lra|]. split; [constructor; [lra|done]|]. destruct H3 as [H3|H3]; [|right; by right].
  rewrite H3. destruct M3 as [M3|M3]; [by left|]. right. by left.
Qed.

Lemma fold_largest f ctxs : Forall (fun c => 0 <= f c)%Q ctxs -> largest f ctxs (fold_left (max_step f) ctxs 0%Q).
Proof.
  intros Hpos. destruct (fold_max f ctxs 0) as (_ & H2 & H3). set (r := fold_left _ _ _) in *.
  split; [done|]. split; [|by intros ->]. intros Hne. destruct H3 as [H3|H3].
  - destruct ctxs as [|c ctxs]; [done|]. left. apply Forall_cons in Hpos as [Hp _], H2 as [H2 _].
    rewrite H3 in *. lra.
  - eapply Exists_impl; [exact H3|]. by intros c ->.
Qed.

(** ** The report *)

(** [r] stands for the [p]th percentile of [sorted]: the interpolation at a rank that
    is the right one up to rounding, up to rounding. *)
Definition is_percentile (sorted : list Q) (p r : Q) : Prop :=
  exists t, near eps t (p / 100 * inject_Z (Z.of_nat (length sorted) - 1)) /\
    (0 <= t <= inject_Z (Z.of_nat (length sorted) - 1))%Q /\ near eps r (interp sorted t).

(** What the report says of the latencies [xs], sorted. *)
Definition latency_stats (xs : list Q) (r : report) : Prop :=
  match last xs with
  | None => r_mean_us r = 0%Q /\ r_p50_us r = 0%Q /\ r_p90_us r = 0%Q /\ r_p99_us r = 0%Q /\ r_p999_us r = 0%Q /\
      r_max_us r = 0%Q
  | Some greatest =>
      near (slack (S (length xs))) (r_mean_us r) (qsum xs / inject_Z (Z.of_nat (length xs))) /\
      is_percentile xs 50 (r_p50_us r) /\ is_percentile xs 90 (r_p90_us r) /\ is_percentile xs 99 (r_p99_us r) /\
      is_percentile xs P999 (r_p999_us r) /\ r_max_us r = greatest
  end.

(** What it says of the connections. *)
Definition connect_report (ctxs : list conn_ctx_t) (r : report) : Prop :=
  r_connections r = Z.of_nat (length ctxs) /\ r_established r = total (fun c => b2z (connected c)) ctxs /\
  r_connect_max_us r = fold_left (max_step connect_us) ctxs 0%Q /\
  r_ack_max_us r = fold_left (max_step ack_us) ctxs 0%Q /\
  r_connect_mean_us r = (if 0 <? Z.of_nat (length ctxs)
    then ddiv (fold_left dadd (connect_us <$> ctxs) 0%Q) (of_int (Z.of_nat (length ctxs))) else 0%Q) /\
  r_errors r = total errors ctxs /\ r_mismatches r = total mismatches ctxs.

(** What it says of the rate of the requests, [main]'s clock being [ck]. *)
Definition rate_report (ck : main_clock) (r : report) : Prop :=
  if dlt 0 (wall_us ck)
  then near eps (r_throughput_rps r) (inject_Z (r_requests r) / (wall_us ck / 1000000))
  else r_throughput_rps r = 0%Q.

Lemma rate_report_of ck r n :
  0 <= n < 2 ^ 31 -> r_requests r = n ->
  r_throughput_rps r = (if dlt 0 (wall_us ck) then ddiv (of_int n) (ddiv (wall_us ck) (of_int 1000000)) else 0%Q) ->
  rate_report ck r.
Proof.
  intros Hn Hr Ht. unfold rate_report. rewrite Ht, Hr. destruct (dlt 0 (wall_us ck)) eqn:E; [|done].
  apply dlt_true in E. by apply rate_near.
Qed.

Lemma percentile_is sorted p :
  1 <= Z.of_nat (length sorted) < 2 ^ 31 -> (0 <= p <= 100)%Q -> Forall (Qle 0) sorted ->
  exists r, percentile sorted (Z.of_nat (length sorted)) p = Ret r /\ is_percentile sorted p r.
Proof.
  intros Hn Hp Hpos. destruct (percentile_spec sorted _ p eq_refl Hn Hp Hpos) as (t & r & Hr & Ht).
  exists r. split; [done|]. by exists t.
Qed.

(** No request was completed: the array has one element, which nothing reads. *)
Lemma run_report_empty mem ck ctxs :
  Forall ctx_ok ctxs -> all_recorded ctxs = [] -> total completed ctxs = 0 -> mem_all mem = true ->
  exists all r, run_report mem ck ctxs = Ret (all, r) /\ r_requests r = 0 /\ latency_stats [] r /\ connect_report ctxs r /\
    rate_report ck r.
Proof.
  intros Hok Hrec Htot Hmem. unfold run_report. rewrite Htot, Hmem.
  pose proof (gather_spec [0%Q] ctxs [] Hok) as Hg. rewrite Hrec in Hg. cbn in Hg. change (Z.of_nat 0) with 0 in Hg. cbv zeta. cbn [Z.ltb Z.compare].
  change (replicate (Z.to_nat 1) 0%Q) with [0%Q]. rewrite Hg, outcome_ret_bind by lia. cbn.
  rewrite connect_stats_folds. cbn [mbind outcome_bind]. eexists _, _. split; [reflexivity|].
  split; [done|]. split; [done|]. split; [done|]. apply (rate_report_of ck _ 0); [lia|reflexivity|reflexivity].
Qed.

Lemma run_report_some mem ck ctxs :
  Forall ctx_ok ctxs -> Forall (fun c => Forall (Qle 0) (latencies_us c)) ctxs ->
  total completed ctxs = Z.of_nat (length (all_recorded ctxs)) ->
  1 <= total completed ctxs < 2 ^ 31 -> mem_all mem = true ->
  exists xs r, run_report mem ck ctxs = Ret (xs, r) /\ r_requests r = total completed ctxs /\
    xs ≡ₚ all_recorded ctxs /\ StronglySorted Qle xs /\ latency_stats xs r /\ connect_report ctxs r /\ rate_report ck r.
Proof.
  intros Hok Hpos Htot Hn Hmem. unfold run_report. rewrite Htot, Hmem in *. set (rec := all_recorded ctxs) in *.
  set (n := Z.of_nat (length rec)) in *. cbv zeta. destruct (Z.ltb_spec 0 n) as [_|]; [|lia].
  pose proof (gather_spec (replicate (length rec) 0%Q) ctxs [] Hok) as Hg. fold rec in Hg.
  cbn [length app drop] in Hg. rewrite drop_0, length_replicate, drop_ge, app_nil_r in Hg by (rewrite length_replicate; lia).
  specialize (Hg ltac:(lia)). change (Z.of_nat 0) with 0 in Hg.
  replace (Z.to_nat n) with (length rec) by (subst n; lia). rewrite Hg, outcome_ret_bind.
  destruct (qsort_spec rec) as (xs & Hq & Hperm & Hsort). fold n in Hq. rewrite Hq, outcome_ret_bind.
  assert (Forall (Qle 0) xs) as Hxs.
  { rewrite Hperm. apply Forall_concat, Forall_fmap. eapply Forall_impl; [exact Hpos|].
    intros c Hc. by apply Forall_take. }
  assert (n = Z.of_nat (length xs)) as En by (subst n; by rewrite Hperm). rewrite En in *.
  destruct (mean_of_spec xs _ eq_refl Hn Hxs) as (mean & -> & Hmean). rewrite outcome_ret_bind, connect_stats_folds.
  destruct (percentile_is xs (of_int 50) Hn) as (p1 & -> & H1); [by vm_compute|done|]. rewrite outcome_ret_bind.
  destruct (percentile_is xs (of_int 90) Hn) as (p2 & -> & H2); [by vm_compute|done|]. rewrite outcome_ret_bind.
  destruct (percentile_is xs (of_int 99) Hn) as (p3 & -> & H3); [by vm_compute|done|]. rewrite outcome_ret_bind.
  destruct (percentile_is xs P999 Hn) as (p4 & -> & H4); [by vm_compute|done|]. rewrite outcome_ret_bind.
  destruct (buf_get_lt xs (Z.of_nat (length xs) - 1)) as (g & Hg1 & ->); [lia|]. rewrite outcome_ret_bind.
  eexists xs, _. split; [reflexivity|]. split; [done|]. split; [done|]. split; [done|].
  split; [|split; [done|apply (rate_report_of ck _ (Z.of_nat (length xs))); [lia|reflexivity|reflexivity]]].
  unfold latency_stats. rewrite last_lookup.
  replace (pred (length xs)) with (Z.to_nat (Z.of_nat (length xs) - 1)) by lia. rewrite Hg1. done.
Qed.

(** ** Printed numbers read back *)

(** The number a printed one denotes, times [10 ^ d]: its digits. *)
Definition unfixed (txt : list Z) : Z := undec (List.filter isdigit txt).

Lemma fraction_digits d n : 0 <= n -> Forall (fun c => isdigit c = true) (fraction d n).
Proof.
  revert n. induction d as [|d IH]; intros n Hn; [constructor|]. cbn [fraction]. apply Forall_app. split.
  - apply IH. apply Z.div_pos; lia.
  - repeat constructor. pose proof (Z.mod_pos_bound n 10). unfold isdigit. lia.
Qed.

Lemma fraction_undec d : forall pre n,
  0 <= n < 10 ^ Z.of_nat d -> undec (pre ++ fraction d n) = undec pre * 10 ^ Z.of_nat d + n.
Proof.
  induction d as [|d IH]; intros pre n Hn; cbn [fraction]; [rewrite app_nil_r; simpl in *; lia|].
  rewrite Nat2Z.inj_succ, Z.pow_succ_r in * by lia. rewrite app_assoc, undec_snoc, IH by (Z.div_mod_to_equations; lia).
  Z.div_mod_to_equations. lia.
Qed.

Lemma log2_digits n : 0 <= n -> n < 10 ^ Z.of_nat (S (Z.to_nat (Z.log2 n))).
Proof.
  intros Hn. destruct (Z.eq_dec n 0) as [->|Hne]; [done|]. pose proof (Z.log2_nonneg n).
  destruct (Z.log2_spec n) as [_ Hlt]; [lia|]. rewrite Nat2Z.inj_succ, Z2Nat.id by done.
  assert (2 ^ Z.succ (Z.log2 n) <= 10 ^ Z.succ (Z.log2 n)) by (apply Z.pow_le_mono_l; lia). lia.
Qed.

Lemma filter_isdigit ds : Forall (fun c => isdigit c = true) ds -> List.filter isdigit ds = ds.
Proof. induction 1 as [|c ds Hc _ IH]; [done|]. cbn. by rewrite Hc, IH. Qed.

(** What is printed of a number that is not negative: digits and the point, which
    read as the nearest number of that many decimals. *)
Lemma fixed_spec d q :
  (0 <= q)%Q -> Forall (fun c => isdigit c = true \/ c = 46) (fixed d q) /\
  unfixed (fixed d q) = rne (q * inject_Z (10 ^ Z.of_nat d)).
Proof.
  intros Hq. unfold fixed. set (p := 10 ^ Z.of_nat d). assert (0 < p) as Hp by (apply Z.pow_pos_nonneg; lia).
  cbv zeta. replace (rne (Qabs q * inject_Z p)) with (rne (q * inject_Z p)) by by rewrite (Qabs_pos q Hq).
  set (z := rne _).
  assert (0 <= z) as Hz.
  { subst z. rewrite <- (rne_int 0). apply rne_mono. change (inject_Z 0) with 0%Q.
    apply Qmult_le_0_compat; [done|]. change 0%Q with (inject_Z 0). rewrite <- Zle_Qle. lia. }
  replace (dlt q 0) with false by (symmetry; apply not_true_is_false; rewrite dlt_true; lra).
  cbn [app]. pose proof (Z.div_pos z p Hz Hp) as Hd. pose proof (Z.mod_pos_bound z p Hp) as Hm.
  pose proof (digits_chars (S (Z.to_nat (Z.log2 (z / p)))) _ Hd) as Hdig.
  pose proof (digits_undec (S (Z.to_nat (Z.log2 (z / p)))) (z / p) (conj Hd (log2_digits _ Hd))) as Hval.
  set (ds := digits _ _) in *. pose proof (fraction_digits d (z mod p) ltac:(lia)) as Hfrac.
  assert (Forall (fun c => isdigit c = true \/ c = 46) ds) as Hds by (eapply Forall_impl; [exact Hdig|]; auto).
  unfold unfixed. rewrite List.filter_app, (filter_isdigit ds Hdig). destruct d as [|d].
  - cbn [List.filter]. rewrite !app_nil_r. split; [done|]. rewrite Hval. unfold p. simpl. by rewrite Z.div_1_r.
  - split.
    + apply Forall_app. split; [done|]. constructor; [by right|]. eapply Forall_impl; [exact Hfrac|]. auto.
    + change (List.filter isdigit (46 :: fraction (S d) (z mod p))) with (List.filter isdigit (fraction (S d) (z mod p))).
      rewrite (filter_isdigit _ Hfrac), fraction_undec, Hval by done. fold p. rewrite (Z.div_mod z p) at 3 by lia. lia.
Qed.

(** The file, read back: the rows after the header, in microseconds. *)
Definition read_csv (text : list Z) : list Q :=
  (fun row => inject_Z (unfixed row) / 1000)%Q <$> drop 1 (split_lines text).

Lemma csv_loop_rows all k : forall i,
  0 <= i -> i + Z.of_nat k <= Z.of_nat (length all) ->
  csv_loop k i all = Ret (concat ((fun x => line [] (fixed 3 x)) <$> take k (drop (Z.to_nat i) all))).
Proof.
  induction k as [|k IH]; intros i Hi Hk; cbn [csv_loop]; [by rewrite take_0|].
  destruct (buf_get_lt all i) as (x & Hx & ->); [lia|]. rewrite outcome_ret_bind, IH, outcome_ret_bind by lia.
  rewrite (drop_S all x (Z.to_nat i) Hx). by replace (Z.to_nat (i + 1)) with (S (Z.to_nat i)) by lia.
Qed.

Lemma print_csv_reads all :
  Forall (Qle 0) all ->
  exists text, print_csv all (Z.of_nat (length all)) = Ret text /\
    Forall2 (fun x y => x - y <= 1 # 2000 /\ y - x <= 1 # 2000)%Q (read_csv text) all.
Proof.
  intros Hpos. unfold print_csv. rewrite csv_loop_rows, outcome_ret_bind by lia.
  rewrite drop_0, take_ge by lia. eexists. split; [reflexivity|]. unfold read_csv.
  set (rows := (fun x => line [] (fixed 3 x)) <$> all).
  change (line [] (lit "latency_us") ++ concat rows) with (concat (line [] (lit "latency_us") :: rows)).
  rewrite split_lines_concat.
  - cbn [fmap list_fmap drop]. rewrite drop_0. unfold rows. rewrite <- !list_fmap_compose.
    apply Forall2_fmap_l, Forall_Forall2_diag.
    eapply Forall_impl; [exact Hpos|]. intros x Hx. unfold compose, line. rewrite app_nil_l, chomp_snoc.
    rewrite (proj2 (fixed_spec 3 x Hx)). change (inject_Z (10 ^ Z.of_nat 3)) with 1000%Q.
    destruct (rne_error (x * 1000)) as [H1 H2]. set (r := inject_Z (rne (x * 1000))) in *.
    assert (r / 1000 * 1000 == r)%Q by (field). lra.
  - constructor; [exists (lit "latency_us"); split; [done|]; by apply (bool_decide_unpack _)|].
    apply Forall_fmap. eapply Forall_impl; [exact Hpos|].
    intros x Hx. exists (fixed 3 x). split; [done|]. intros Hin.
    destruct (fixed_spec 3 x Hx) as [Hf _]. eapply Forall_forall in Hf; [|exact Hin].
    destruct Hf as [Hf|Hf]; [vm_compute in Hf|]; done.
Qed.

(** ** Theorems *)

(** The interpolation lies between the two neighbours. *)
Lemma interp_between sorted t :
  StronglySorted Qle sorted -> (0 <= t <= inject_Z (Z.of_nat (length sorted) - 1))%Q -> sorted <> [] ->
  (nthq sorted (Qfloor t) <= interp sorted t)%Q /\
  (interp sorted t <= nthq sorted (next_index (Z.of_nat (length sorted)) (Qfloor t)))%Q.
Proof.
  intros Hs [Ht Ht1] Hne. unfold interp. pose proof (Qfloor_le t) as F1. pose proof (Qlt_floor t) as F2.
  rewrite inject_Z_plus in F2. change (inject_Z 1) with 1%Q in F2.
  apply Qfloor_resp_le in Ht, Ht1. rewrite Qfloor_Z in Ht1. change (Qfloor 0) with 0 in Ht.
  set (lo := Qfloor t) in *. set (n := Z.of_nat (length sorted)) in *. set (f := (t - inject_Z lo)%Q).
  assert (0 <= f /\ f <= 1)%Q as [Hf Hf1] by (subst f; lra).
  assert (nthq sorted lo <= nthq sorted (next_index n lo))%Q as Hle
    by (apply nthq_sorted; [done|unfold next_index; lia..]).
  set (x := nthq sorted lo) in *. set (y := nthq sorted _) in *. clearbody f x y. split; nra.
Qed.

(** C32 [percentile_accuracy]: for every array that is sorted and every p from 0 to
    100, [percentile] reads inside the array and returns, up to one part in 2^51, the
    linear interpolation of the array at a rank that is p/100 (n - 1) up to one part
    in 2^51; the result lies between the two elements around that rank. *)
Theorem percentile_accuracy sorted p :
  StronglySorted Qle sorted -> Forall (Qle 0) sorted -> 1 <= Z.of_nat (length sorted) < 2 ^ 31 ->
  (0 <= p <= 100)%Q ->
  let n := Z.of_nat (length sorted) in
  exists t r, percentile sorted n p = Ret r /\
    near eps t (p / 100 * inject_Z (n - 1)) /\ near eps r (interp sorted t) /\
    (nthq sorted (Qfloor t) * (1 - eps) <= r <= nthq sorted (next_index n (Qfloor t)) * (1 + eps))%Q.
Proof.
  intros Hs Hpos Hn Hp. cbv zeta.
  destruct (percentile_spec sorted _ p eq_refl Hn Hp Hpos) as (t & r & Hr & Ht & Hb & Hnear).
  exists t, r. split; [done|]. split; [done|]. split; [done|].
  destruct (interp_between sorted t Hs Hb) as [H1 H2]; [intros ->; simpl in Hn; lia|]. destruct Hnear as [H3 H4].
  assert (0 < 1 - eps)%Q as He by reflexivity. assert (0 < 1 + eps)%Q as He1 by reflexivity.
  apply (Qmult_le_compat_r _ _ (1 - eps)) in H1; [|lra]. apply (Qmult_le_compat_r _ _ (1 + eps)) in H2; [|lra]. lra.
Qed.

Lemma established_count m n conns ctxs :
  Forall2 (timed m n) conns ctxs ->
  foldr (fun c k => b2z (connected c) + k) 0 ctxs = Z.of_nat (length (omap id conns)).
Proof.
  induction 1 as [|conn c conns ctxs Ht _ IH]; [done|]. cbn [foldr omap list_omap]. rewrite IH.
  destruct (timed_times _ _ _ _ Ht) as (_ & _ & -> & _). destruct conn; simpl; lia.
Qed.

Definition sum_of (f : conn_ctx_t -> Z) (ctxs : list conn_ctx_t) : Z := foldr (fun c k => f c + k) 0 ctxs.

(** The connections of a run give what the report is computed from. *)
Lemma timed_run m n conns ctxs :
  1 <= m -> 1 <= n <= 512 -> 1 <= Z.of_nat (length conns) -> Z.of_nat (length conns) * m < 2 ^ 31 ->
  Forall2 (timed m n) conns ctxs ->
  Forall ctx_ok ctxs /\ Forall (fun c => Forall (Qle 0) (latencies_us c)) ctxs /\
  total completed ctxs = Z.of_nat (length (all_recorded ctxs)) /\ total completed ctxs < 2 ^ 31 /\
  forall r, connect_report ctxs r ->
    r_connections r = Z.of_nat (length conns) /\ r_established r = Z.of_nat (length (omap id conns)) /\
    largest connect_us ctxs (r_connect_max_us r) /\ largest ack_us ctxs (r_ack_max_us r) /\
    near (slack (S (length conns))) (r_connect_mean_us r) (qsum (connect_us <$> ctxs) / inject_Z (Z.of_nat (length conns))) /\
    r_errors r = sum_of errors ctxs /\ r_mismatches r = sum_of mismatches ctxs.
Proof.
  intros Hm Hn Hpos Hfit Hrun. assert (length conns = length ctxs) as Hl by by eapply Forall2_length.
  rewrite Hl in *.
  assert (forall P : conn_ctx_t -> Prop, (forall conn c, timed m n conn c -> P c) -> Forall P ctxs) as Hall.
  { intros P HP. apply (Forall2_Forall_r _ _ _ _ Hrun), Forall_true. exact HP. }
  assert (forall f, (forall conn c, timed m n conn c -> 0 <= f c <= m) -> total f ctxs = sum_of f ctxs) as Htot.
  { intros f Hf. apply (total_exact f ctxs m); [lia|by apply Hall|done]. }
  destruct (total_completed ctxs m) as [H1 H2]; [lia| |done|].
  { apply Hall. intros conn c Hc. by apply timed_ctx in Hc as (? & ? & _). }
  split; [apply Hall; intros conn c Hc; by apply timed_ctx in Hc as (? & _)|].
  split; [apply Hall; intros conn c Hc; by apply timed_times in Hc as [? _]|]. split; [done|]. split; [done|].
  intros r (-> & -> & -> & -> & -> & -> & ->). split; [done|]. split.
  { rewrite Htot; [by eapply established_count|]. intros conn c _. destruct (connected c); simpl; lia. }
  split; [apply fold_largest, Hall; intros conn c Hc; by apply timed_times in Hc as (_ & _ & _ & ? & _)|].
  split; [apply fold_largest, Hall; intros conn c Hc; by apply timed_times in Hc as (_ & _ & _ & _ & ?)|].
  split.
  { rewrite (proj2 (Z.ltb_lt _ _)) by lia. rewrite <- (length_fmap connect_us ctxs) at 1.
    apply fold_mean_near; [by rewrite length_fmap|nia|]. apply Forall_fmap, Hall.
    intros conn c Hc. by apply timed_times in Hc as (_ & _ & _ & ? & _). }
  split; apply Htot; intros conn c Hc; by apply timed_ctx in Hc as (_ & _ & ? & ?).
Qed.

(** A completed request and no array to copy its latency to. *)
Lemma gather_unallocated ctxs k :
  Forall ctx_ok ctxs -> 0 < sum_of completed ctxs -> gather ctxs [] k = Fault OutOfBounds.
Proof.
  intros Hok. induction Hok as [|c ctxs Hc _ IH]; intros Hsum; [done|]. cbn [gather].
  destruct Hc as [Hc Hl]. destruct (Z.eq_dec (completed c) 0) as [E|E].
  - rewrite E. simpl. apply IH. unfold sum_of in *. simpl in Hsum. lia.
  - destruct (Z.to_nat (completed c)) as [|j] eqn:Ej; [lia|]. cbn [copy_loop].
    destruct (buf_get_lt (latencies_us c) 0) as (x & _ & ->); [lia|]. rewrite outcome_ret_bind.
    unfold buf_set, in_array. change (Z.of_nat (length [])) with 0.
    by destruct (Z.leb_spec 0 k), (Z.ltb_spec k 0); try lia.
Qed.

(** C22 [report_statistics]: the report of a run of fewer than 2^31 requests whose
    threads were all created, with a clock that does not go back, is about its
    requests. When the array of all latencies could be allocated, no array is
    overrun, the latencies are those the threads recorded, each once, and sorted; the
    mean and the percentiles are those of these latencies up to rounding and the
    maximum is one of them; connections, errors and mismatches are counted exactly;
    the mean time to connect is that of the connections, and the rate is the requests
    over the time on the clock, up to rounding; and the CSV file reads back as the
    latencies, off by at most half a nanosecond. A run that completed nothing reports
    zeros. When that array could not be allocated, which [main] does not test, a run
    that completed a request leaves it. *)
Theorem report_statistics args connections m n conns ctxs mem ck :
  loadgen_args args = Some (connections, m, n) -> connections * m < 2 ^ 31 ->
  Z.of_nat (length conns) = connections -> Forall2 (timed m n) conns ctxs ->
  if negb (mem_all mem) then 0 < sum_of completed ctxs -> run_report mem ck ctxs = Fault OutOfBounds
  else exists all r text, run_report mem ck ctxs = Ret (all, r) /\
    loadgen_finish mem ck (Some true) ctxs = Ret (print_report r, Some text, exit_code ctxs) /\
    let xs := take (Z.to_nat (r_requests r)) all in
    xs ≡ₚ all_recorded ctxs /\ StronglySorted Qle xs /\ r_requests r = sum_of completed ctxs /\ latency_stats xs r /\
    r_connections r = connections /\ r_established r = Z.of_nat (length (omap id conns)) /\
    largest connect_us ctxs (r_connect_max_us r) /\ largest ack_us ctxs (r_ack_max_us r) /\
    near (slack (S (length conns))) (r_connect_mean_us r) (qsum (connect_us <$> ctxs) / inject_Z connections) /\
    r_errors r = sum_of errors ctxs /\ r_mismatches r = sum_of mismatches ctxs /\ rate_report ck r /\
    Forall2 (fun x y => x - y <= 1 # 2000 /\ y - x <= 1 # 2000)%Q (read_csv text) xs.
Proof.
  intros Hargs Hfit Hlen Hrun. apply loadgen_args_range in Hargs as (? & ? & ?).
  destruct (timed_run m n conns ctxs) as (Hok & Hpos & Htot & Hlt & Hconn); [lia|lia|lia|nia|done|].
  rewrite Hlen in Hconn.
  assert (total completed ctxs = sum_of completed ctxs) as Hsum.
  { apply (total_exact completed ctxs m); [lia| |rewrite <- (Forall2_length _ _ _ Hrun); nia].
    apply (Forall2_Forall_r _ _ _ _ Hrun), Forall_true. intros conn c Hc.
    apply timed_ctx in Hc as (Hc & ? & _); [unfold ctx_ok in Hc; lia|lia|lia]. }
  destruct (mem_all mem) eqn:Hmem; cbn [negb].
  2:{ intros Hn. unfold run_report. rewrite Hmem. cbv zeta. by rewrite gather_unallocated. }
  unfold loadgen_finish. destruct (Z.eq_dec (total completed ctxs) 0) as [Hz|Hz].
  - assert (all_recorded ctxs = []) as Hrec by (apply nil_length_inv; lia).
    destruct (run_report_empty mem ck ctxs Hok Hrec Hz Hmem) as (all & r & Hr & Hreq & Hlat & Hc & Hrate).
    exists all, r, (line [] (lit "latency_us")). rewrite Hr, outcome_ret_bind, Hreq, Hrec.
    specialize (Hconn r Hc). rewrite take_0. split; [done|]. split; [done|].
    split; [done|]. split; [apply SSorted_nil|]. split; [lia|]. split; [done|].
    do 7 (split; [apply Hconn|]). split; [done|]. constructor.
  - destruct (run_report_some mem ck ctxs Hok Hpos Htot) as (xs & r & Hr & Hreq & Hperm & Hs & Hlat & Hc & Hrate);
      [lia|done|].
    assert (Forall (Qle 0) xs) as Hxs.
    { rewrite Hperm. apply Forall_concat, Forall_fmap. eapply Forall_impl; [exact Hpos|].
      intros c Hpc. by apply Forall_take. }
    destruct (print_csv_reads xs Hxs) as (text & Hcsv & Hread). exists xs, r, text.
    assert (r_requests r = Z.of_nat (length xs)) as Hn by (rewrite Hperm; lia).
    rewrite Hr, outcome_ret_bind, Hn, Hcsv. specialize (Hconn r Hc).
    rewrite take_ge by lia. rewrite <- Hn, Hreq.
    do 2 (split; [reflexivity|]). do 2 (split; [assumption|]). do 2 (split; [assumption|]).
    do 7 (split; [apply Hconn|]). split; assumption.
Qed.

(** ** Witnesses *)

Lemma percentile_accuracy_witness :
  exists t r, percentile [1; 2; 4; 8]%Q 4 50 = Ret r /\ near eps r (interp [1; 2; 4; 8]%Q t).
Proof.
  destruct (percentile_accuracy [1; 2; 4; 8]%Q 50) as (t & r & H1 & _ & H2 & _).
  - repeat (constructor; [|repeat (constructor; [discriminate|]); constructor]). constructor.
  - repeat (constructor; [discriminate|]). constructor.
  - simpl. lia.
  - split; discriminate.
  - exists t, r. split; [exact H1|exact H2].
Defined.

Lemma demo_clock_monotonic : monotonic demo_clock.
Proof. intros i. unfold ts_ok, ts_le, demo_clock. cbn [fst snd]. lia. Qed.

(** Two connections, one of which could not be opened. *)
Definition demo_run (conn : option sock) : conn_ctx_t :=
  match conn_main demo_clock demo_frame (new_ctx 2 3) (match conn with Some _ => demo_res | None => None end)
          demo_sock ∅ with
  | Ret (c, _, _) => c
  | _ => new_ctx 0 0
  end.

Definition demo_conns : list (option sock) := [Some demo_sock; None].

Definition demo_main_clock : main_clock := MainClock (7, 0) (7, 500) (7, 1000) (7, 9000).

Definition demo_memory : memory := Memory true true (fun _ => true) true.

Example demo_percentile : percentile [1; 2; 4; 8]%Q 4 50 = Ret 3%Q.
Proof. by vm_compute. Qed.

(** 0.1 + 0.2 in doubles. *)
Example demo_rounding : dadd (rnd (1 # 10)) (rnd (2 # 10)) <> rnd (3 # 10).
Proof. by vm_compute. Qed.

Example demo_prepare :
  prepare demo_memory [lit "localhost"; lit "9090"; lit "2"; lit "2"; lit "3"] = inr [new_ctx 2 3; new_ctx 2 3] /\
  prepare demo_memory [lit "localhost"; lit "9090"; lit "0"; lit "2"] = inl 2 /\
  spawn_loop 3 [0; 0; 11] 0 = 2%nat.
Proof. by vm_compute. Qed.

Lemma report_statistics_witness :
  exists all r text, run_report demo_memory demo_main_clock (demo_run <$> demo_conns) = Ret (all, r) /\
    loadgen_finish demo_memory demo_main_clock (Some true) (demo_run <$> demo_conns) = Ret (print_report r, Some text, 1) /\
    r_requests r = 2 /\ r_established r = 1 /\ text = lit "latency_us" ++ [10] ++ lit "1.000" ++ [10] ++ lit "1.000" ++ [10].
Proof.
  destruct (report_statistics [lit "localhost"; lit "9090"; lit "2"; lit "2"; lit "3"] 2 2 3 demo_conns
    (demo_run <$> demo_conns) demo_memory demo_main_clock) as (all & r & text & Hr & Hf & _).
  - reflexivity.
  - reflexivity.
  - simpl. lia.
  - repeat constructor; [exists demo_clock, demo_frame, demo_res|exists demo_clock, demo_frame, None];
      exists demo_sock, ∅; eexists _, _; (split; [exact demo_clock_monotonic|]; split; [by vm_compute|];
      split; [reflexivity|]; vm_compute; reflexivity).
  - exists all, r, text. split; [exact Hr|]. split; [exact Hf|].
    vm_compute in Hr. injection Hr as <- <-. vm_compute in Hf. injection Hf as <-. by vm_compute.
Defined.
