(* ===== verification/EndToEnd.v ===== *)
(** * Servers and load generator together

    What every server promises to its client, as an interface, and what the load
    generator may conclude from it. [EchoServer] is the promise: what has been sent
    on a connection is a beginning of the star and the echo of what was received on
    it. Each server of the repository is an instance, by the invariant of its own
    file; the blocking instance stands for the sequential server, the threaded server
    and the workers of the pool, which all call [serve_connection]. The libuv server is
    one under the orders of callbacks in which a write is completed before the next
    read ([one_at_a_time]); [overlapping_reads] of UvServer.v shows that it is none
    under every order libuv allows. The theorem is proved against the interface. *)

From S2P Require Import Prelude Double Framing CString Posix Utils Metrics Protocol PeerState EventLoop.
From S2P Require Import Libuv.
From S2P Require SelectServer EpollServer UringServer UvServer.
From S2P Require Import LoadGen.
Local Open Scope Z_scope.

(** The answer to a stream of bytes. *)
Definition answer (recvd : list Z) : list Z := STAR :: frame_out Framing.WAIT_FOR_MSG recvd.

(** [talk recvd sent]: a connection on which the server has received [recvd] and sent
    [sent] can exist. *)
Class EchoServer (talk : list Z -> list Z -> Prop) : Prop :=
  echo_law recvd sent : talk recvd sent -> sent `prefix_of` answer recvd.

(** ** The servers *)

(** [serve_connection] has returned or waits for its client. *)
Definition blocking_talk (recvd sent : list Z) : Prop :=
  exists p garbage w r w', length garbage = 1024%nat /\ serve_connection p garbage w = (r, w') /\
    rx_bytes (rx (w_sock w)) = recvd ++ rx_bytes (rx (w_sock w')) /\ wire (w_sock w') = wire (w_sock w) ++ sent.

(** An open connection of a readiness loop. *)
Definition loop_talk (l : evloop) (recvd sent : list Z) : Prop :=
  exists fd s, l_socks l !! fd = Some s /\ l_input l !! fd = Some (recvd ++ rx_bytes (rx s)) /\ sent = wire s.

Definition select_talk (recvd sent : list Z) : Prop :=
  exists strerror argv1 start pr s0 s, SelectServer.select_main argv1 start = Ret (pr, s0) /\
    SelectServer.sreach strerror pr s0 s /\ loop_talk (SelectServer.s_loop s) recvd sent.

Definition epoll_talk (recvd sent : list Z) : Prop :=
  exists strerror argv1 start create ctl events pr e0 e,
    EpollServer.epoll_main argv1 start create ctl events = Ret (pr, e0) /\
    EpollServer.ereach strerror pr e0 e /\ loop_talk (EpollServer.e_loop e) recvd sent.

Definition uring_talk (recvd sent : list Z) : Prop :=
  exists (ring : Type) (get_sqe : ring -> option ring) (submit : ring -> ring) strerror args start pr u0 u fd,
    UringServer.uring_main get_sqe submit args start = Ret (pr, u0) /\
    UringServer.ureach get_sqe submit strerror u0 u /\
    fd ∈ UringServer.u_open u /\ UringServer.u_hist u !! fd = Some (recvd, sent).

(** The libuv server, when the callback of a write comes before the next read. *)
Definition uv_talk (recvd sent : list Z) : Prop :=
  exists s, UvServer.uv_reach UvServer.one_at_a_time s recvd /\ sent = u_wire (UvServer.s_client s).

Inductive server_kind := Blocking | SelectLoop | EpollLoop | UringLoop | UvLoop.

Definition talks (k : server_kind) : list Z -> list Z -> Prop :=
  match k with
  | Blocking => blocking_talk
  | SelectLoop => select_talk
  | EpollLoop => epoll_talk
  | UringLoop => uring_talk
  | UvLoop => uv_talk
  end.

(** ** They keep the promise *)

#[export] Instance blocking_echo : EchoServer blocking_talk.
Proof.
  intros recvd sent (p & g & w & r & w' & Hg & Hrun & Hrx & Hw).
  apply serve_connection_spec in Hrun as (segs & ds & st & pl & out & Hb & _ & Hf & Hw' & Hpre & _); [|done].
  rewrite Hb in Hrx. apply app_inv_tail in Hrx. rewrite Hw' in Hw. apply app_inv_head in Hw. subst.
  unfold answer. apply framed_run in Hf. unfold frame_out. by rewrite Hf.
Qed.

Lemma loop_talk_echo l recvd sent :
  (forall fd, fd ∈ dom (l_socks l) -> exists st, conn_inv l fd st) -> loop_talk l recvd sent ->
  sent `prefix_of` answer recvd.
Proof.
  intros Hinv (fd & s & Hs & Hi & ->). destruct (Hinv fd) as (st & p & s1 & recvd1 & _ & _ & Hs1 & Hi1 & Hh & _).
  { by eapply elem_of_dom_2. }
  rewrite Hs in Hs1. injection Hs1 as <-. rewrite Hi in Hi1. injection Hi1 as Hi1. apply app_inv_tail in Hi1.
  subst recvd1. exists (a_out (abs p)). symmetry. apply (hist_out _ _ _ Hh).
Qed.

#[export] Instance select_echo : EchoServer select_talk.
Proof.
  intros recvd sent (strerror & argv1 & start & pr & s0 & s & Hmain & Hreach & Htalk).
  destruct (SelectServer.select_main_inv _ _ _ _ Hmain) as [Hpr H0].
  destruct (SelectServer.sreach_inv _ _ _ _ Hpr H0 Hreach) as [Hinv _].
  apply loop_talk_echo in Htalk; [done|]. intros fd Hfd.
  destruct (SelectServer.inv_conns s Hinv fd Hfd) as (_ & st & Hci & _). by exists st.
Qed.

#[export] Instance epoll_echo : EchoServer epoll_talk.
Proof.
  intros recvd sent (strerror & argv1 & start & create & ctl & events & pr & e0 & e & Hmain & Hreach & Htalk).
  destruct (EpollServer.epoll_main_inv _ _ _ _ _ _ _ Hmain) as [Hpr H0].
  destruct (EpollServer.ereach_inv _ _ Hpr _ _ H0 Hreach) as [Hinv _].
  apply loop_talk_echo in Htalk; [done|]. intros fd Hfd.
  destruct (EpollServer.inv_conns e Hinv fd Hfd) as (_ & st & Hci & _). by exists st.
Qed.

#[export] Instance uring_echo : EchoServer uring_talk.
Proof.
  intros recvd sent (ring & get_sqe & submit & strerror & args & start & pr & u0 & u & fd & Hmain & Hreach & Hfd & Hh).
  pose proof (UringServer.uring_main_inv _ _ strerror _ _ _ _ Hmain) as H0.
  pose proof (UringServer.ureach_inv _ _ _ _ _ H0 Hreach) as Hinv.
  destruct (UringServer.inv_conn u fd Hinv Hfd) as (p & Hc).
  destruct Hc as [_ _ (recvd1 & sent1 & Hh1 & Hist)]. rewrite Hh in Hh1. injection Hh1 as <- <-.
  exists (a_out (abs p)). symmetry. apply (hist_out _ _ _ Hist).
Qed.

#[export] Instance uv_echo : EchoServer uv_talk.
Proof. intros recvd sent (s & Hreach & ->). by apply UvServer.reach_wire in Hreach. Qed.

#[export] Instance talks_echo k : EchoServer (talks k).
Proof. destruct k; apply _. Qed.

(** ** The load generator against any of them *)

(** More bytes received, more bytes to answer. *)
Lemma answer_mono r1 r2 : r1 `prefix_of` r2 -> answer r1 `prefix_of` answer r2.
Proof. intros [r ->]. unfold answer. rewrite frame_out_app. by exists (frame_out (frame_state Framing.WAIT_FOR_MSG r1) r). Qed.

(** A connection between a client and a server: what arrives at either end is a
    beginning of what the other end has sent. *)
Record connection (recvd sent : list Z) (before after : sock) : Prop := {
  conn_fresh : wire before = [];
  conn_request : recvd `prefix_of` wire after;
  conn_reply : rx_bytes (rx before) `prefix_of` sent
}.

(** C16 [no_false_alarm]: a connection of the load generator to any server of the
    repository, to the libuv server as long as the callback of each write comes before
    the next read of the connection, whatever else happens to it: interrupted, cut off at any byte, delivered in
    any pieces. No echo is counted as a mismatch; a request that does not complete is
    counted as an error, never as a wrong answer. *)
Theorem no_false_alarm (k : server_kind) args clock f connections m n recvd sent res before open c after open' :
  loadgen_args args = Some (connections, m, n) -> frame_ok f -> talks k recvd sent ->
  conn_main clock f (new_ctx m n) res before open = Ret (c, after, open') ->
  connection recvd sent before after ->
  mismatches c = 0 /\ (completed c < m <-> errors c <> 0).
Proof.
  intros Hargs Hf Htalk Hrun [Hfresh Hreq Hrep]. apply loadgen_args_range in Hargs as (? & ? & ?).
  destruct (conn_main_honest clock f m n res before open c after open' Hf ltac:(lia) ltac:(lia) Hrun) as [(out & Hw & Hout) Hmis].
  pose proof (conn_main_spec clock f m n res before open Hf ltac:(lia) ltac:(lia)) as Hspec. rewrite Hrun in Hspec.
  split; [|by destruct Hspec as (_ & _ & _ & ? & _)]. apply Hmis.
  transitivity sent; [done|]. transitivity (answer recvd); [by apply echo_law|].
  apply (answer_mono _ (concat (replicate (Z.to_nat m) (request n)))).
  transitivity (wire after); [done|]. by rewrite Hw, Hfresh.
Qed.

(** Two requests; the connection breaks in the middle of the second echo. *)
Definition demo_server_world : world :=
  World (Sock [RxData (lit "^abc$^abc$"); RxData []] [TxSpace 1; TxSpace 99] []) registry_zero (fun _ => None) 0.

Definition demo_client : sock := Sock [RxData (lit "*b"); RxData (lit "cdb"); RxErr 104] (replicate 12 (TxSpace 3)) [].

Lemma no_false_alarm_witness :
  exists c after open', conn_main demo_clock demo_frame (new_ctx 2 3) demo_res demo_client ∅ = Ret (c, after, open') /\
    mismatches c = 0 /\ completed c = 1 /\ errors c = 1.
Proof.
  eexists _, _, _. split; [vm_compute; reflexivity|]. split; [|split; reflexivity].
  eapply (no_false_alarm Blocking demo_args demo_clock demo_frame 1 2 3 (lit "^abc$^abc$") (lit "*bcdbcd") demo_res demo_client ∅).
  - reflexivity.
  - by vm_compute.
  - exists (Proc true), (replicate 1024 0), demo_server_world, (Served SERVE_OK).
    exists (serve_connection (Proc true) (replicate 1024 0) demo_server_world).2.
    split; [reflexivity|]. split; [vm_compute; reflexivity|]. split; vm_compute; reflexivity.
  - vm_compute. reflexivity.
  - split; [reflexivity|exists []; reflexivity|exists (lit "cd"); reflexivity].
Defined.
